(* ===== verification/_CoqProject ===== *)
-Q . S2P
Prelude.v
Text.v
Float64.v
Error.v
Types.v
Metrics.v
Graph.v
Dijkstra.v
Router.v
Kdf.v
Aead.v
Channel.v
Transport.v
Pool.v
Mock.v
Quic.v
Identity.v
Keystore.v
Cache.v
Retry.v
Services.v
Noise.v
Handshake.v
Wire.v
Config.v
Telemetry.v
Discovery.v
Node.v
Session.v
Mesh.v
Net.v
Apps.v
Meeting.v
Cli.v
Examples.v
ChatRoom.v
Testing.v
TestsCore.v
TestsCrypto.v
TestsNet.v
TestsSdk.v
Bench.v
