(* ===== verification/Prelude.v ===== *)
(** * OmniMesh: a verification library

    OmniMesh is a peer-to-peer mesh network in Rust: nodes with Ed25519 identities connect
    over QUIC, shake hands with Noise, gossip link states, route by Dijkstra's algorithm
    and run chat, RPC and publish/subscribe services.  This library models the crates
    under [src/crates] as executable definitions and proves what makes them correct.

    ** Parts and files

    Each file models the source named beside it; definitions keep the source's names,
    with a prefix ([pool_insert], [quic_send]) where several types have the same method.

    - [Prelude]: results with panics as a third outcome, stateful early return
      ([attempt]), machine integers, arrays, hash-map iteration order ([MapIter]).
    - [Text]: UTF-8, characters, trimming and number parsing of the standard library.
    - [Float64]: IEEE 754 binary64 as the code uses it, on the Standard Library's
      [SpecFloat]; monotonicity and sign of rounded addition, multiplication, division.
    - [Error], [Types], [Config], [Retry], [Telemetry]: omnimesh-core ([error.rs],
      [types.rs], [config.rs], [retry.rs], [telemetry.rs]).
    - [Kdf], [Aead], [Channel], [Noise]: omnimesh-crypto ([kdf.rs], [aead.rs],
      [channel.rs], [noise.rs]).
    - [Identity], [Keystore]: omnimesh-identity ([keypair.rs], [peer_id.rs],
      [virtual_ip.rs], [keystore.rs]).
    - [Metrics], [Graph] with [Dijkstra] (its correctness proof), [Router]:
      omnimesh-routing ([metrics.rs], [graph.rs], [router.rs]).
    - [Transport]: the traits of omnimesh-transport ([traits.rs]) and their object-safe
      counterparts of the SDK, as classes over a shared world, [Duplex], the contract
      of a connection, and [Separate], which says that connections do not disturb each
      other.
    - [Mock], [Quic], [Pool]: omnimesh-transport ([mock.rs], [quic.rs], [connection.rs]);
      the first two are instances of the traits, of [Duplex] and of [Separate].
    - [Cache], [Discovery]: omnimesh-discovery ([cache.rs], [key_conv.rs],
      [service.rs]).
    - [Services]: omnimesh-service ([lib.rs]).
    - [Handshake], [Wire], [Node], [Session]: omnimesh-sdk ([lib.rs]):
      [perform_handshake]; [WirePacket] and [handle_wire_packet]; [OmniMesh], its
      operations, its workers and [OmniMeshBuilder]; [run_session_loop] and the two ends
      of a session together.
    - [Mesh]: the whole node as a transition system, and two nodes end to end.
    - [Net]: any number of nodes with sessions in any pattern, all loops at once.
    - [Apps]: probing, chat, publications and remote procedure calls between two nodes.
    - [Meeting]: [connect_addr] and [run_accept_loop] in the parts between which other tasks
      run, and two nodes of which one dials the other.
    - [Cli]: omnimesh-node ([main.rs]).
    - [Examples]: the programs of omnimesh-sdk ([examples/p2p_chat.rs], [p2p_rpc.rs],
      [p2p_pubsub.rs]).
    - [ChatRoom]: [ChatService] with its broadcast channel, and the task of the node and of
      the chat example that prints what arrives; the end of the node's [run].
    - [Testing], [TestsCore], [TestsCrypto], [TestsNet], [TestsSdk]: the unit tests of the
      crates and the integration tests of routing, discovery and the SDK, as programs over
      the model.
    - [Bench]: the benchmarks of omnimesh-sdk ([benches/performance.rs]).

    The parts interact as in the program.  A node ([Node]) owns a router ([Router] over
    [Graph] over [Metrics]), a discovery service ([Discovery] over [Cache]), a transport
    (the class [DynTransport]: [Quic], or [Mock] in tests), a table of services and a
    table of sessions.  A session refers to a channel and a Noise transport ([Noise]) that
    the handshake ([Handshake]) produced; its loop ([Session]) moves packets ([Wire])
    between the channel and the connection, and hands what arrives to the services and the
    router.  The command line ([Cli]) keeps the identity in a key file ([Keystore]) and
    builds a node from it and the configuration ([Config]).

    ** Interfaces

    [Handshake], [Node], [Session], [Mesh] and [Net] are proved against the classes of
    [Transport]; [Mock] and [Quic] discharge them (QUIC as far as no receive is cancelled in
    the middle of a frame, see [quic_recv_cancelled]).  Theorems about traffic in one
    direction ask nothing of the connection but that it carries each packet by itself, so
    they hold over both, however small a buffer or a flow-control window is.  Where both ends
    of a session have something to send, the messages of one direction must fit the
    connection all at once ([unclogged]): else the two loops can wait for each other
    ([clogged_stuck]).  [MessageSender] is what the services need of a node, which
    provides it ([node_sender]); [MapIter] and [Heap] stand between the algorithms and the
    iteration order of hash maps and binary heaps.  The contract of a session is
    [Session.Abstract], two queues of plaintext messages.

    ** Modelling

    - State is passed explicitly; a method that mutates returns the new state.  Methods
      behind a lock or an atomic are one step; where the code takes several
      ([ConnectionPool::insert], [Router::record_latency], [send_to_peer]) the steps are
      separate and interleave ([thread_step], [recording_step], [send_seal] and
      [send_queue]).  A call that can
      wait (for a mutex, a full channel, the other end of a connection) is a computation
      that is [None] while it waits ([io]), with the result it has once the world has
      answered; the parts between which other calls run while it waits are the steps
      [part_step] of [Mesh].  The handshake is also given call by call ([joint_step]).
      The branches of a [select!] are separate steps, taken in any order.  What several
      tasks share through an [Arc] is shared in the model: a session and its loop refer to
      one cell.
    - Steps that are coarser than the code: entering a session (the insertion, the
      subscription to the shutdown signal and the spawn) is one ([add_session]); [build]
      returns before the discovery task has read its first command; [DashMap::len] reads its
      shards at once; the discovery task reads the clock once per event; a dial takes the
      transport mutex when its connection is made.
    - The clock is read when a pong is handled; the theorems say for which readings they hold
      ([session_step_at], [loops_step_at]: any set of times; [session_step] and [loops_step]:
      all times).
    - In the theorems on two nodes, sealing a packet and queueing it on its session is one
      step.  The code releases the Noise transport between the two, so that concurrent
      senders can also queue in the opposite order; those theorems are about schedules
      in which they do not, and [sends_overtake] shows what happens when they do.
    - The example programs and the command line print; what they print is part of their
      result ([Output], with the [Debug] form of an error as the error itself).  A program
      is cut where it waits for input, an answer or Ctrl-C, and what other tasks do in
      between comes in as steps ([chat_step]).
    - Fallible code returns [Ok], [Err] or [Panic]: an [unwrap], an out-of-range slice or
      a failed [copy_from_slice] is [Panic], so that panic freedom is proved, not
      assumed.  [+=] on integers follows [OverflowChecks] (both build profiles).
    - Third-party crates are classes ([Hkdf], [Cipher], [Ed25519], [Snow], [Quinn],
      [Bincode], [Toml], [Libp2p], [Swarm], [KeyJson], [TextCodecs], [EnvFilters], [Broadcast]) with classes of
      laws
      stating their documented behaviour; the laws a main theorem relies on have an
      instance, on which its witness runs.  [BinaryHeap] and the iteration order of
      [HashMap] and [DashMap] are arbitrary within their contracts.
    - Time, randomness, the environment and the file system are inputs; the file system
      of [Keystore] may fail at every call and crash between any two.

    ** Fuel

    [find_shortest_path] takes the number of heap pops; [edge_count g + 2] is proved
    enough for non-negative costs, and the walk back along predecessors is allowed one
    step more than the pops.  [retry_async] takes the number of calls; [max_retries + 1]
    is proved enough.  [perform_handshake] takes the number of rounds; two are proved
    enough against every peer.  Everything else is structurally recursive.  Liveness is
    stated without fuel: [inevitably R P] says that every schedule of the steps [R]
    reaches [P], and cannot stop or run for ever before.

    ** What the theorems show

    - Routing: shortest paths are found, optimal in binary64 cost, loop free and
      independent of hashing; metrics stay sane; gossip converges, is accepted once and
      in order, and reaches the topology; the next hop is a neighbour on a best route; the
      own links are the measured ones, also under concurrent recordings.
    - Cryptography and identity: key derivation and sealing are total and round trip; a
      ratcheting session delivers in order, exactly once, under every interleaving;
      a peer id verifies its owner's signatures; the key file round trips and survives
      crashes.
    - Connections: the handshake terminates against any peer, and two nodes agree under
      every schedule; QUIC framing is faithful; the mock transport connects the right
      ends, each pair over channels of its own; the pool respects its limit up to concurrent
      inserts.
    - Sessions: two session loops with their channels, Noise transports and connection
      refine a pair of plaintext queues ([session_refines]), and drain them under every
      schedule ([session_delivers]), if the connection can hold what one of them sends.
    - Nodes: a node is well formed in every reachable state ([node_always_well_formed]);
      from a fresh connection on, messages get through to the services of the other node
      ([messages_get_through]) and a gossip tick brings the peer's routing graph up to
      date ([gossip_spreads]); broadcasts and gossip reach every session; malformed
      packets are harmless; a probe comes back under every schedule and the router records
      the time at which it is back less the time at which it was sent
      ([probe_between_nodes]).
    - Networks: over all sessions of any number of nodes at once, everything queued is
      handled, in order and per peer, whatever else goes on ([network_delivers]), and a
      broadcast that fits a packet reaches every neighbour exactly once
      ([network_broadcast]); a larger one is lost without an error ([broadcast_unsealed]).
    - Services: a chat line typed at one node is published at the other
      ([chat_between_nodes]) and a remote call returns what the other node's handler
      returned ([rpc_between_nodes]), under every schedule; RPC answers come back at most
      once; publications reach exactly their subscribers ([pubsub_between_nodes]); chat
      messages are printed, all and in order, by a task that stays within a hundred
      messages ([chat_task_prints]).
    - Examples: however input and sessions interleave, what is typed into the chat example
      arrives over QUIC, in order, up to [exit] ([chat_example_delivers]); the RPC example gets its
      greeting back reversed ([rpc_example_works]), by characters ([reverse_handler]); no
      example prints where it can be reached ([example_hides_address]).
    - Tests: the unit tests of the crates pass in the model.  Those that check that something
      works pass for everything drawn at random and every lawful crate
      ([crypto_tests_pass], [discovery_tests_pass], [config_tests_pass]); those that check
      that something is refused are run with small instances ([refusal_tests_pass]).  The
      integration test of discovery passes exactly when the swarms report the addresses in
      time ([discovery_integration_passes]).  The integration test of the SDK, which builds
      two nodes, connects them and uses chat, a call and a publication in turn, succeeds
      under every schedule in which the dial gets the transport mutex before the dialling
      node's own accept worker, and waits for ever under the others
      ([sdk_services_integration]).  The benchmarks run to their end
      and every route query finds a cheapest route, for everything drawn at random
      ([benchmarks_run], [routing_benchmark_finds]).
    - Discovery, configuration and the command line: a lookup gives exactly what was
      reported within the last half hour; configuration sources have the documented
      priority; retries are bounded; the identity [init] makes is the one [show] and
      [run] use.

    Lemmas such as [negative_link_diverges], [handshake_identity_unchecked],
    [stale_session_blocks], [pong_overtakes], [sends_overtake], [overtaken_rejects_all],
    [dial_waits_for_accept], [clogged_stuck], [broadcast_unsealed], [quic_recv_cancelled],
    [pool_race_exceeds],
    [restarted_sender_ignored], [bad_config_ignored] and [chat_task_lost_by_burst] record
    where the code's guarantees end.

    ** Not modelled

    The parsing of the node's command-line arguments (by [clap]), what happens to the world
    when a transport is dropped, the interior of the third-party crates, timing of sleeps
    other than their lengths, the log lines, the final shutdowns of the SDK's integration
    test and the ticks of the workers during it, and the fuzz target, which only calls [bincode].  The theorems on networks are
    about application data and routing updates; pings are followed over one session
    ([probe_between_nodes]), since a pong that overtakes other traffic breaks the order of
    the Noise messages ([pong_overtakes]). *)

From Stdlib Require Import ZArith Lia Strings.Byte Wf_nat.
From stdpp Require Export base numbers list gmap vector strings pretty.

(** The operations that keep a component well formed. *)
Create HintDb mesh.

(** ** Bytes and fixed-size byte arrays *)

Abbreviation byte := Byte.byte.

#[global] Instance byte_eq_dec : EqDecision Byte.byte := Byte.byte_eq_dec.

#[global] Program Instance byte_countable : Countable Byte.byte :=
  inj_countable Byte.to_N Byte.of_N _.
Next Obligation. intros b. apply Byte.of_to_N. Qed.

(** [copy_from_slice] into a fresh [[u8; n]]: defined only on slices of
    length [n]. *)
Fixpoint array_of_list {A} (n : nat) (l : list A) : option (vec A n) :=
  match n, l with
  | O, [] => Some [#]
  | S n, x :: l => v ← array_of_list n l; Some (x ::: v)
  | _, _ => None
  end.

Lemma array_of_vec {A n} (v : vec A n) : array_of_list n (vec_to_list v) = Some v.
Proof. induction v as [|x n v IH]; simpl; [done|]. by rewrite IH. Qed.

Lemma array_of_list_Some {A} n (l : list A) v :
  array_of_list n l = Some v ↔ vec_to_list v = l.
Proof.
  split; [|intros <-; apply array_of_vec].
  revert l v. induction n as [|n IH]; intros [|x l] v H; simplify_eq/=; [done|].
  destruct (array_of_list n l) as [w|] eqn:E; simplify_eq/=. by rewrite (IH _ _ E).
Qed.

Lemma array_of_list_length {A} n (l : list A) :
  length l = n → ∃ v, array_of_list n l = Some v.
Proof.
  intros <-. exists (list_to_vec l).
  by rewrite array_of_list_Some, vec_to_list_to_vec.
Qed.

Lemma array_of_list_None {A} n (l : list A) :
  array_of_list n l = None ↔ length l ≠ n.
Proof.
  split.
  - intros E H. destruct (array_of_list_length n l H) as [v Hv]. congruence.
  - intros H. destruct (array_of_list n l) as [v|] eqn:E; [|done].
    apply array_of_list_Some in E as <-. by rewrite length_vec_to_list in H.
Qed.

#[global] Program Instance array_countable `{Countable A} n : Countable (vec A n) | 0 :=
  inj_countable vec_to_list (array_of_list n) _.
Next Obligation. intros. apply array_of_vec. Qed.

#[global] Arguments array_of_list : simpl never.

(** Filters that agree on the elements of a list. *)
Lemma filter_ext_elem {A} (P Q : A → Prop) `{∀ x, Decision (P x)} `{∀ x, Decision (Q x)} (l : list A) :
  (∀ x, x ∈ l → P x ↔ Q x) → filter P l = filter Q l.
Proof.
  induction l as [|x l IH]; intros H'; [done|]. rewrite !filter_cons.
  assert (Hx : P x ↔ Q x) by (apply H'; left).
  rewrite IH by (intros y Hy; apply H'; by right).
  destruct (decide (P x)), (decide (Q x)); tauto.
Qed.

(** Filtering keeps projections distinct. *)
Lemma NoDup_fmap_filter {A B} (f : A → B) (P : A → Prop) `{∀ x, Decision (P x)} (l : list A) :
  NoDup (f <$> l) → NoDup (f <$> filter P l).
Proof.
  induction l as [|x l IH]; [done|]. rewrite fmap_cons, filter_cons.
  intros [Hx Hn]%NoDup_cons. case_decide; [|by apply IH]. rewrite fmap_cons.
  constructor; [|by apply IH]. intros (y & E & Hy)%list_elem_of_fmap. apply Hx.
  apply list_elem_of_filter in Hy as [_ Hy]. rewrite E. by apply list_elem_of_fmap_2.
Qed.

(** ** Results

    A Rust computation returns [Ok], returns [Err] or panics; the third case is
    kept so that panic freedom is something to prove. *)

Inductive result (E A : Type) : Type :=
| Ok (a : A)
| Err (e : E)
| Panic.
Arguments Ok {E A} a.
Arguments Err {E A} e.
Arguments Panic {E A}.

#[global] Instance result_ret {E} : MRet (result E) := λ A a, Ok a.
#[global] Instance result_bind {E} : MBind (result E) := λ A B f r,
  match r with Ok a => f a | Err e => Err e | Panic => Panic end.

#[global] Instance result_eq_dec `{EqDecision E, EqDecision A} : EqDecision (result E A).
Proof. solve_decision. Defined.

Definition is_ok {E A} (r : result E A) : bool :=
  match r with Ok _ => true | _ => false end.

Definition is_err {E A} (r : result E A) : bool :=
  match r with Err _ => true | _ => false end.

(** [Result::map_err] *)
Definition map_err {E F A} (f : E → F) (r : result E A) : result F A :=
  match r with Ok a => Ok a | Err e => Err (f e) | Panic => Panic end.

(** [Option::ok_or_else] *)
Definition ok_or {E A} (o : option A) (e : E) : result E A :=
  match o with Some a => Ok a | None => Err e end.

(** [Result::ok] *)
Definition result_ok {E A} (r : result E A) : option A :=
  match r with Ok a => Some a | _ => None end.

(** [unwrap] / [expect], and slice operations that panic on a length mismatch. *)
Definition or_panic {E A} (o : option A) : result E A :=
  match o with Some a => Ok a | None => Panic end.

(** The outcome of a library call: an error message or a value. *)
Definition of_lib {E A} (f : string → E) (r : string + A) : result E A :=
  match r with inl msg => Err (f msg) | inr a => Ok a end.

Lemma bind_Ok {E A B} (r : result E A) (f : A → result E B) b :
  r ≫= f = Ok b ↔ ∃ a, r = Ok a ∧ f a = Ok b.
Proof.
  split; [destruct r as [a| |]; [by exists a|done..]|]. by intros (a & -> & H).
Qed.

Lemma bind_Err {E A B} (r : result E A) (f : A → result E B) e :
  r ≫= f = Err e ↔ r = Err e ∨ ∃ a, r = Ok a ∧ f a = Err e.
Proof.
  split; [destruct r as [a|e'|]; [by right; exists a|intros [= ->]; by left|done]|].
  by intros [->|(a & -> & H)].
Qed.

(** Stateful code: a failing step returns early, with the state reached. *)
Definition attempt {E A B S} (r : result E A) (s : S) (k : A → result E B * S)
    : result E B * S :=
  match r with Ok a => k a | Err e => (Err e, s) | Panic => (Panic, s) end.

(** Peel the binds of a computation known to return [Ok]. *)
Ltac inv_ok :=
  repeat match goal with
  | H : _ ≫= _ = Ok _ |- _ => apply bind_Ok in H as (? & ? & H)
  | H : Ok _ = Ok _ |- _ => injection H as H; subst
  | H : Err _ = Ok _ |- _ => discriminate H
  | H : Panic = Ok _ |- _ => discriminate H
  | H : of_lib _ ?r = Ok _ |- _ => destruct r eqn:?; cbn in H
  | H : ok_or ?r _ = Ok _ |- _ => destruct r eqn:?; cbn in H
  | H : or_panic ?r = Ok _ |- _ => destruct r eqn:?; cbn in H
  end.

(** ** Machine integers *)

Definition U64_MAX : Z := 2 ^ 64 - 1.

Definition is_u64 (n : Z) : Prop := (0 ≤ n ≤ U64_MAX)%Z.

#[global] Instance is_u64_dec n : Decision (is_u64 n).
Proof. unfold is_u64. apply _. Defined.

(** [+=] on a [u64]: with overflow checks (a debug build) an overflow panics,
    without (a release build) it wraps. *)
Class OverflowChecks := overflow_checks : bool.

Definition u64_add {E} `{OverflowChecks} (a b : Z) : result E Z :=
  if decide (a + b ≤ U64_MAX)%Z then Ok (a + b)%Z
  else if overflow_checks then Panic else Ok ((a + b) mod 2 ^ 64)%Z.

(** [AtomicU64::fetch_add] wraps in every build. *)
Definition u64_wrapping_add (a b : Z) : Z := ((a + b) mod 2 ^ 64)%Z.

(** [u64::saturating_sub] *)
Definition u64_saturating_sub (a b : Z) : Z := Z.max 0 (a - b).

(** ** [u8] *)

Definition byte_of_Z (n : Z) : byte := default Byte.x00 (Byte.of_N (Z.to_N (n mod 256))).

Definition Z_of_byte (b : byte) : Z := Z.of_N (Byte.to_N b).

Lemma byte_of_Z_small n : (0 ≤ n < 256)%Z → Z_of_byte (byte_of_Z n) = n.
Proof.
  intros Hn. unfold byte_of_Z, Z_of_byte. rewrite Z.mod_small by done.
  destruct (Byte.of_N (Z.to_N n)) as [b|] eqn:E.
  - cbn. apply Byte.to_of_N in E. rewrite E. lia.
  - exfalso. apply Byte.of_N_None_iff in E. lia.
Qed.

(** ** Progress

    [inevitably step P s]: from [s], every way of taking steps reaches a state in [P]; as
    long as [P] does not hold some step is possible, and no run can postpone it for
    ever. *)

Inductive inevitably {S} (step : S → S → Prop) (P : S → Prop) : S → Prop :=
| inev_here s : P s → inevitably step P s
| inev_step s :
    (∃ s', step s s') → (∀ s', step s s' → inevitably step P s') → inevitably step P s.

Lemma inevitably_weaken {S} (step : S → S → Prop) (P Q : S → Prop) s :
  (∀ s, P s → Q s) → inevitably step P s → inevitably step Q s.
Proof. intros H. induction 1; [by apply inev_here, H|by apply inev_step]. Qed.

Lemma inevitably_trans {S} (step : S → S → Prop) (P Q : S → Prop) s :
  inevitably step P s → (∀ s, P s → inevitably step Q s) → inevitably step Q s.
Proof. intros H HQ. induction H; [by apply HQ|by apply inev_step]. Qed.

(** A measure that every step lowers, while some step is possible, is enough. *)
Lemma inevitably_measure {S} (step : S → S → Prop) (P : S → Prop) (I : nat → S → Prop) :
  (∀ k s, I k s → P s ∨ ∃ s', step s s') →
  (∀ k s s', I k s → step s s' → ∃ k', k' < k ∧ I k' s') →
  ∀ k s, I k s → inevitably step P s.
Proof.
  intros Hp Hs k. induction k as [k IH] using lt_wf_ind. intros s Hi.
  destruct (Hp k s Hi) as [HP|He]; [by apply inev_here|].
  apply inev_step; [done|]. intros s' Hstep. destruct (Hs k s s' Hi Hstep) as (k' & Hk & Hi').
  by apply (IH k').
Qed.

(** The only step there is. *)
Lemma inevitably_det {S} (step : S → S → Prop) (P : S → Prop) s s' :
  step s s' → (∀ t, step s t → t = s') → inevitably step P s' → inevitably step P s.
Proof. intros H Hd Hs. apply inev_step; [by exists s'|]. by intros t ->%Hd. Qed.

(** The same system, seen through a map that matches its steps. *)
Lemma inevitably_map {S T} (f : S → T) (step : S → S → Prop) (step' : T → T → Prop)
    (P : T → Prop) :
  (∀ s s', step s s' → step' (f s) (f s')) →
  (∀ s t, step' (f s) t → ∃ s', step s s') →
  ∀ s, inevitably step' P (f s) → inevitably step (λ s, P (f s)) s.
Proof.
  intros Hf Hb s H. remember (f s) as t eqn:Et. revert s Et.
  induction H as [t HP|t [t' Ht] _ IH]; intros s ->; [by apply inev_here|].
  apply inev_step; [by apply (Hb s t')|]. intros s' Hs. by apply (IH (f s')); [apply Hf|].
Qed.

(** The same, with [J] holding in every state on the way. *)
Inductive inevitably_in {S} (J : S → Prop) (step : S → S → Prop) (P : S → Prop) : S → Prop :=
| inin_here s : J s → P s → inevitably_in J step P s
| inin_step s : J s → (∃ s', step s s') → (∀ s', step s s' → inevitably_in J step P s') →
    inevitably_in J step P s.

Lemma inevitably_in_out {S} (J : S → Prop) (step : S → S → Prop) (P : S → Prop) s :
  inevitably_in J step P s → inevitably step P s.
Proof. induction 1; [by apply inev_here|by apply inev_step]. Qed.

Lemma inevitably_in_any {S} (step : S → S → Prop) (P : S → Prop) s :
  inevitably step P s → inevitably_in (λ _, True) step P s.
Proof. induction 1; [by apply inin_here|by apply inin_step]. Qed.

Lemma inevitably_in_det {S} (J : S → Prop) (step : S → S → Prop) (P : S → Prop) s s' :
  J s → step s s' → (∀ t, step s t → t = s') → inevitably_in J step P s' →
  inevitably_in J step P s.
Proof. intros HJ H Hd Hs. apply inin_step; [done|by exists s'|]. by intros t ->%Hd. Qed.

(** A system [step] that follows a system [step'], with steps of its own in between that
    lower a measure. *)
Lemma inevitably_follows {S T} (R : S → T → Prop) (m : S → nat) (step : S → S → Prop)
    (step' : T → T → Prop) (J P : T → Prop) (Q : S → Prop) :
  (∀ s s' t, J t → R s t → step s s' → (R s' t ∧ m s' < m s) ∨ ∃ t', step' t t' ∧ R s' t') →
  (∀ s t t', J t → R s t → step' t t' → ∃ s', step s s') →
  (∀ s t, J t → P t → R s t → inevitably step Q s) →
  ∀ t, inevitably_in J step' P t → ∀ s, R s t → inevitably step Q s.
Proof.
  intros Hs Hp HQ t H. induction H as [t HJ HP|t HJ [t' Ht] _ IH]; [by eauto|]. intros s.
  remember (m s) as k eqn:Ek. revert s Ek. induction k as [k IHk] using lt_wf_ind. intros s -> HR.
  apply inev_step; [by eapply Hp|]. intros s' Hst.
  destruct (Hs s s' t HJ HR Hst) as [[HR' Hm]|(t1 & Ht1 & HR')]; [by apply (IHk (m s'))|by apply (IH t1)].
Qed.

(** ** Iteration order

    [HashMap] and [DashMap] iterate in an order their interface leaves open.
    Code that iterates is modelled against an arbitrary enumeration. *)

Class MapIter (K V : Type) `{Countable K} := map_iter : gmap K V → list (K * V).

Class MapIterLaws {K V : Type} `{Countable K} (I : MapIter K V) : Prop :=
  map_iter_perm : ∀ m, map_iter m ≡ₚ map_to_list m.

Lemma elem_of_map_iter `{Countable K, !MapIter K V, !MapIterLaws _} (m : gmap K V) k v :
  (k, v) ∈ map_iter m ↔ m !! k = Some v.
Proof. rewrite (map_iter_perm m). apply elem_of_map_to_list. Qed.

Lemma NoDup_map_iter `{Countable K, !MapIter K V, !MapIterLaws _} (m : gmap K V) :
  NoDup (map_iter m).*1.
Proof. rewrite (map_iter_perm m). apply NoDup_fst_map_to_list. Qed.

(** The enumeration used by executable examples. *)
Definition default_map_iter `{Countable K} {V} : MapIter K V := map_to_list.

Lemma default_map_iter_laws `{Countable K} {V} : MapIterLaws (@default_map_iter K _ _ V).
Proof. by intros m. Qed.

(** ** Byte encodings for the examples

    One byte for each bit of a [Countable] code: a stand-in for the serialization
    crates in executable examples. *)

Fixpoint bits_of_pos (p : positive) : list byte :=
  match p with
  | xH => []
  | xO p => Byte.x00 :: bits_of_pos p
  | xI p => Byte.x01 :: bits_of_pos p
  end.

Fixpoint pos_of_bits (l : list byte) : positive :=
  match l with
  | [] => xH
  | b :: l => if decide (b = Byte.x00) then xO (pos_of_bits l) else xI (pos_of_bits l)
  end.

Lemma pos_of_bits_of_pos p : pos_of_bits (bits_of_pos p) = p.
Proof. induction p as [p IH|p IH|]; cbn; by rewrite ?IH. Qed.
