(* ===== verification/Text.v ===== *)
(** * Text, as the standard library handles it

    UTF-8 as [String::from_utf8] and [str::chars] read it, the reversal and the trimming of
    text, and the parsing of [u16].  A Rust string is a list of bytes here (or a [string]
    of them) that is valid UTF-8. *)

From S2P Require Import Prelude.

(** ** Characters *)

Definition byte_within (lo hi : N) (b : byte) : bool :=
  bool_decide (lo ≤ Byte.to_N b ≤ hi)%N.

(** A continuation byte. *)
Definition utf8_cont (b : byte) : bool := byte_within 0x80 0xbf b.

(** The first two bytes of a character of three, and of four, bytes: no overlong forms, no
    surrogates, nothing beyond U+10FFFF. *)
Definition utf8_lead3 (a b : byte) : bool :=
  (byte_within 0xe0 0xe0 a && byte_within 0xa0 0xbf b) ||
  ((byte_within 0xe1 0xec a || byte_within 0xee 0xef a) && utf8_cont b) ||
  (byte_within 0xed 0xed a && byte_within 0x80 0x9f b).

Definition utf8_lead4 (a b : byte) : bool :=
  (byte_within 0xf0 0xf0 a && byte_within 0x90 0xbf b) ||
  (byte_within 0xf1 0xf3 a && utf8_cont b) ||
  (byte_within 0xf4 0xf4 a && byte_within 0x80 0x8f b).

(** The first character of a text, and the rest. *)
Definition utf8_first (s : list byte) : option (list byte * list byte) :=
  match s with
  | [] => None
  | a :: s1 =>
      if byte_within 0 0x7f a then Some ([a], s1) else
      match s1 with
      | [] => None
      | b :: s2 =>
          if byte_within 0xc2 0xdf a && utf8_cont b then Some ([a; b], s2) else
          match s2 with
          | [] => None
          | c :: s3 =>
              if utf8_lead3 a b && utf8_cont c then Some ([a; b; c], s3) else
              match s3 with
              | [] => None
              | d :: s4 =>
                  if utf8_lead4 a b && utf8_cont c && utf8_cont d
                  then Some ([a; b; c; d], s4) else None
              end
          end
      end
  end.

Fixpoint utf8_chars_upto (fuel : nat) (s : list byte) : option (list (list byte)) :=
  match s, fuel with
  | [], _ => Some []
  | _, O => None
  | _, S fuel => '(c, t) ← utf8_first s; cs ← utf8_chars_upto fuel t; Some (c :: cs)
  end.

(** [str::chars]; [None] when the bytes are not UTF-8.  Every character takes a byte. *)
Definition utf8_chars (s : list byte) : option (list (list byte)) :=
  utf8_chars_upto (length s) s.

Definition utf8_valid (s : list byte) : bool := bool_decide (is_Some (utf8_chars s)).

(** ** Operations *)

(** [s.chars().rev().collect()] *)
Definition rev_chars (s : list byte) : list byte :=
  concat (reverse (default [] (utf8_chars s))).

(** The characters with the property [White_Space]. *)
Definition whitespace (c : list byte) : bool :=
  bool_decide (c ∈ ([[Byte.x09]; [Byte.x0a]; [Byte.x0b]; [Byte.x0c]; [Byte.x0d]; [Byte.x20];
    [Byte.xc2; Byte.x85]; [Byte.xc2; Byte.xa0]; [Byte.xe1; Byte.x9a; Byte.x80];
    [Byte.xe2; Byte.x80; Byte.xa8]; [Byte.xe2; Byte.x80; Byte.xa9]; [Byte.xe2; Byte.x80; Byte.xaf];
    [Byte.xe2; Byte.x81; Byte.x9f]; [Byte.xe3; Byte.x80; Byte.x80]] : list (list byte))) ||
  match c with
  | [a; b; d] => byte_within 0xe2 0xe2 a && byte_within 0x80 0x80 b && byte_within 0x80 0x8a d
  | _ => false
  end.

Fixpoint drop_whitespace (cs : list (list byte)) : list (list byte) :=
  match cs with
  | c :: cs' => if whitespace c then drop_whitespace cs' else cs
  | [] => []
  end.

(** [str::trim] *)
Definition trim_chars (cs : list (list byte)) : list (list byte) :=
  reverse (drop_whitespace (reverse (drop_whitespace cs))).

Definition trim (s : string) : string :=
  String.string_of_list_byte
    (concat (trim_chars (default [] (utf8_chars (String.list_byte_of_string s))))).

(** [str::parse::<u16>]: an optional plus sign and decimal digits, up to 65535. *)
Definition digit_of (b : byte) : option Z :=
  if byte_within 0x30 0x39 b then Some (Z.of_N (Byte.to_N b) - 0x30)%Z else None.

Fixpoint digits_value (acc : Z) (bs : list byte) : option Z :=
  match bs with
  | [] => Some acc
  | b :: bs =>
      d ← digit_of b;
      let acc := (acc * 10 + d)%Z in
      if decide (acc ≤ 65535)%Z then digits_value acc bs else None
  end.

Definition parse_u16 (s : string) : option Z :=
  match String.list_byte_of_string s with
  | [] => None
  | Byte.x2b :: [] => None
  | Byte.x2b :: bs | bs => digits_value 0 bs
  end.

(** ** Properties *)

(** The encoding is a prefix code: what follows a character does not matter. *)
Lemma utf8_first_Some s c t :
  utf8_first s = Some (c, t) →
  s = c ++ t ∧ c ≠ [] ∧ ∀ u, utf8_first (c ++ u) = Some (c, u).
Proof.
  unfold utf8_first. intros H. repeat (case_match; try discriminate H); simplify_eq;
    (split; [done|]; split; [done|]); intros u; cbn; by repeat case_match; simplify_eq.
Qed.

Lemma utf8_chars_upto_enough s : ∀ n cs,
  utf8_chars_upto n s = Some cs → ∀ m, length s ≤ m → utf8_chars_upto m s = Some cs.
Proof.
  induction s as [s IH] using (induction_ltof1 _ length). intros n cs H m Hm.
  destruct s as [|a s]; [by destruct n, m|].
  destruct n as [|n]; [done|]. destruct m as [|m]; [cbn in Hm; lia|].
  cbn [utf8_chars_upto] in *. destruct (utf8_first (a :: s)) as [[c t]|] eqn:E; [|done].
  apply utf8_first_Some in E as (Es & Hc & _).
  assert (Hl : length t < length (a :: s)) by (rewrite Es, length_app; destruct c; [done|cbn; lia]).
  cbn in *. destruct (utf8_chars_upto n t) as [cs'|] eqn:Et; [|done].
  rewrite (IH t Hl n cs' Et m) by lia. done.
Qed.

Lemma utf8_chars_first s c t :
  utf8_first s = Some (c, t) → utf8_chars s = (cs ← utf8_chars t; Some (c :: cs)).
Proof.
  intros E. pose proof E as (-> & Hc & _)%utf8_first_Some. unfold utf8_chars.
  destruct c as [|a c]; [done|]. cbn [app length utf8_chars_upto] in *. rewrite E. cbn.
  destruct (utf8_chars_upto (length t) t) as [cs|] eqn:Et.
  - rewrite (utf8_chars_upto_enough t _ _ Et) by (rewrite length_app; lia). done.
  - destruct (utf8_chars_upto (length (c ++ t)) t) as [cs|] eqn:Et'; [|done].
    by rewrite (utf8_chars_upto_enough t _ _ Et') in Et.
Qed.

(** One encoded character. *)
Definition utf8_char (c : list byte) : Prop := utf8_first c = Some (c, []).

(** A text is a sequence of characters in exactly one way. *)
Lemma utf8_chars_spec s cs : utf8_chars s = Some cs ↔ s = concat cs ∧ Forall utf8_char cs.
Proof.
  split.
  - revert cs. induction s as [s IH] using (induction_ltof1 _ length). intros cs.
    destruct (utf8_first s) as [[c t]|] eqn:E.
    + rewrite (utf8_chars_first _ _ _ E). apply utf8_first_Some in E as (-> & Hc & Hf).
      destruct (utf8_chars t) as [cs'|] eqn:Et; [|done]. intros [= <-].
      destruct (IH t) with cs' as [-> Hcs]; [|done|].
      { unfold ltof. rewrite length_app. destruct c; [done|cbn; lia]. }
      split; [done|]. constructor; [|done]. unfold utf8_char. by rewrite <- (Hf []), app_nil_r.
    + destruct s as [|a s]; [by intros [= <-]|]. unfold utf8_chars. cbn [length utf8_chars_upto].
      by rewrite E.
  - intros [-> H]. induction H as [|c cs Hc _ IH]; [done|]. cbn [concat].
    apply utf8_first_Some in Hc as (_ & _ & Hf). by rewrite (utf8_chars_first _ _ _ (Hf _)), IH.
Qed.

Lemma utf8_valid_concat cs : Forall utf8_char cs → utf8_valid (concat cs) = true.
Proof.
  intros H. apply bool_decide_eq_true. exists cs. by apply utf8_chars_spec.
Qed.

(** Characters of one byte. *)
Lemma utf8_valid_ascii s : Forall (λ b, byte_within 0 0x7f b = true) s → utf8_valid s = true.
Proof.
  intros H. assert (E : s = concat (map (λ b, [b]) s)) by (induction s; cbn; by f_equal; inv H; auto).
  rewrite E. apply utf8_valid_concat, Forall_map. eapply Forall_impl; [exact H|].
  intros b Hb. unfold utf8_char, utf8_first. cbn. by rewrite Hb.
Qed.

Lemma bits_of_pos_ascii p : Forall (λ b, byte_within 0 0x7f b = true) (bits_of_pos p).
Proof. induction p; cbn; by constructor. Qed.

(** Reversing characters keeps a text valid, and twice gives it back. *)
Lemma rev_chars_chars s cs :
  utf8_chars s = Some cs → utf8_chars (rev_chars s) = Some (reverse cs).
Proof.
  intros E. unfold rev_chars. rewrite E. apply utf8_chars_spec in E as [_ H]. cbn.
  apply utf8_chars_spec. split; [done|]. by apply Forall_reverse.
Qed.

Lemma rev_chars_involutive s : utf8_valid s = true → rev_chars (rev_chars s) = s.
Proof.
  intros [cs E]%bool_decide_eq_true. pose proof (rev_chars_chars _ _ E) as Er.
  change (concat (reverse (default [] (utf8_chars (rev_chars s)))) = s). rewrite Er.
  change (concat (reverse (reverse cs)) = s). rewrite reverse_involutive. by apply utf8_chars_spec in E as [-> _].
Qed.

Lemma rev_chars_valid s : utf8_valid s = true → utf8_valid (rev_chars s) = true.
Proof.
  intros [cs E]%bool_decide_eq_true. apply bool_decide_eq_true. eexists. by apply rev_chars_chars.
Qed.

(** Trimming leaves the text between the first and the last character that is no white space. *)
Lemma drop_whitespace_spec cs :
  ∃ ws, cs = ws ++ drop_whitespace cs ∧ Forall (λ c, whitespace c = true) ws ∧
    (∀ c, head (drop_whitespace cs) = Some c → whitespace c = false).
Proof.
  induction cs as [|c cs (ws & E & Hw & Hh)]; [by exists []|]. cbn.
  destruct (whitespace c) eqn:Ec.
  - exists (c :: ws). cbn. rewrite <- E. by split_and!; [done|constructor|].
  - exists []. split_and!; [done..|]. by intros ? [= <-].
Qed.

Lemma trim_chars_spec cs :
  ∃ ws ws', cs = ws ++ trim_chars cs ++ ws' ∧
    Forall (λ c, whitespace c = true) ws ∧ Forall (λ c, whitespace c = true) ws' ∧
    (∀ c, head (trim_chars cs) = Some c → whitespace c = false) ∧
    (∀ c, last (trim_chars cs) = Some c → whitespace c = false).
Proof.
  destruct (drop_whitespace_spec cs) as (ws & E & Hw & Hh). set (m := drop_whitespace cs) in *.
  destruct (drop_whitespace_spec (reverse m)) as (vs & E' & Hv & Hl).
  unfold trim_chars. fold m. set (k := drop_whitespace (reverse m)) in *.
  assert (Em : m = reverse k ++ reverse vs)
    by (rewrite <- reverse_app, <- E'; by rewrite reverse_involutive).
  exists ws, (reverse vs). split_and!; [by rewrite <- Em|done|by apply Forall_reverse| |].
  - intros c Hc. apply Hh. rewrite Em. destruct (reverse k); [done|exact Hc].
  - intros c. rewrite <- head_reverse, reverse_involutive. apply Hl.
Qed.

(** ** [Debug] texts *)

(** The [Debug] of a [str] without characters to escape. *)
Definition quoted (s : string) : string :=
  String.String (Ascii.ascii_of_nat 34) s +:+ String.String (Ascii.ascii_of_nat 34) "".

(** [f.debug_struct(name).field(..).finish()] with [{:?}], for one field or more. *)
Definition debug_struct (name : string) (fields : list (string * string)) : string :=
  name +:+ " { " +:+ String.concat ", " (map (λ f, f.1 +:+ ": " +:+ f.2) fields) +:+ " }".

Example trim_line : trim "  hello world	 " = "hello world"%string.
Proof. reflexivity. Qed.

Example rev_text : rev_chars (String.list_byte_of_string "né") = String.list_byte_of_string "én".
Proof. reflexivity. Qed.

Example parse_port : parse_u16 "4433" = Some 4433%Z ∧ parse_u16 "65536" = None ∧ parse_u16 "+" = None.
Proof. done. Qed.
