(* ===== verification/Float64.v ===== *)
(** * Binary64 arithmetic, as Rust's [f64] computes it

    [f64] is the Standard Library's [spec_float] at precision 53 and maximal
    exponent 1024, so every operation below rounds to nearest, ties to even,
    exactly as the hardware does; there is no idealisation to real numbers.

    The routing layer compares, adds and multiplies non-negative values only.
    For those the file gives an integer reading: [fval x] is the value of [x]
    in units of [2 ^ -unit_exp] (infinity reads as the first power of two that
    does not fit), comparison of floats is comparison of readings
    ([f64_compare_val]), and an operation is the exact integer operation
    followed by the monotone rounding function [rnd] ([f64_add_val],
    [f64_mul_val]). *)

From Stdlib Require Import ZArith Lia Bool.
From Stdlib Require Import SpecFloat.

Local Open Scope Z_scope.

Create HintDb f64.

(** ** The type and the operations the source uses *)

Definition f64 : Type := spec_float.

Definition f64_add : f64 -> f64 -> f64 := SFadd 53 1024.
Definition f64_sub : f64 -> f64 -> f64 := SFsub 53 1024.
Definition f64_mul : f64 -> f64 -> f64 := SFmul 53 1024.
Definition f64_div : f64 -> f64 -> f64 := SFdiv 53 1024.

(** [partial_cmp]: [None] when an operand is NaN. *)
Definition f64_partial_cmp : f64 -> f64 -> option comparison := SFcompare.

Definition f64_lt (x y : f64) : bool := SFltb x y.
Definition f64_gt (x y : f64) : bool := SFltb y x.
Definition f64_le (x y : f64) : bool := SFleb x y.

Definition f64_is_nan (x : f64) : bool :=
  match x with S754_nan => true | _ => false end.

(** [f64::max]: a NaN operand is ignored. *)
Definition f64_max (x y : f64) : f64 :=
  if f64_is_nan x then y
  else if f64_is_nan y then x
  else if f64_lt x y then y else x.

(** [f64::clamp] with bounds [lo <= hi]; NaN stays NaN. *)
Definition f64_clamp (x lo hi : f64) : f64 :=
  let x := if f64_lt x lo then lo else x in
  if f64_gt x hi then hi else x.

(** [n as f64] for an integer [n]. *)
Definition f64_of_Z (n : Z) : f64 := binary_normalize 53 1024 n 0 false.

(** A decimal literal [num / den]: both integers below [2^53] are exact, so the
    division is the correctly rounded value of the literal. *)
Definition f64_lit (num den : Z) : f64 := f64_div (f64_of_Z num) (f64_of_Z den).

(** [f64::MAX]. *)
Definition f64_MAX : f64 := SFmax_float 53 1024.

Definition f64_zero : f64 := S754_zero false.
Definition f64_infinity : f64 := S754_infinity false.

(** ** Bit patterns that exist *)

(** Every value a Rust [f64] can hold is a bounded, normalised [spec_float]. *)
Definition f64_valid (x : f64) : bool := valid_binary 53 1024 x.

(** Zero of either sign, a positive number or plus infinity; not NaN. *)
Definition f64_nonneg (x : f64) : bool :=
  match x with
  | S754_zero _ | S754_infinity false | S754_finite false _ _ => true
  | _ => false
  end.

Definition f64_finite (x : f64) : bool :=
  match x with S754_zero _ | S754_finite _ _ _ => true | _ => false end.

Definition f64_is_pos_inf (x : f64) : bool :=
  match x with S754_infinity false => true | _ => false end.

(** A non-negative [f64]. *)
Definition f64_wf (x : f64) : Prop := f64_valid x = true /\ f64_nonneg x = true.

(** ** Integer reading of the non-negative floats *)

(** The unit is [2 ^ -unit_exp], with [unit_exp] at least 2148: small enough for
    the exact product of two subnormal numbers.  The constant is sealed so that
    no conversion problem ever evaluates the powers below. *)
Lemma unit_exp_sealed : { u : Z | 2148 <= u }.
Proof. exists 2148. apply Z.le_refl. Qed.

Definition unit_exp : Z := proj1_sig unit_exp_sealed.

Definition fval (x : f64) : Z :=
  match x with
  | S754_finite false m e => Zpos m * 2 ^ (e + unit_exp)
  | S754_infinity false => 2 ^ (1024 + unit_exp)
  | _ => 0
  end.

(** Round [n / 2^s] to the nearest integer, ties to even. *)
Definition rne (n s : Z) : Z :=
  let q := n / 2 ^ s in
  match Z.compare (2 * (n mod 2 ^ s)) (2 ^ s) with
  | Lt => q
  | Eq => if Z.even q then q else q + 1
  | Gt => q + 1
  end.

(** The bits of [n] that do not fit in a 53-bit significand, and at least the
    bits below the smallest subnormal. *)
Definition drop_bits (n : Z) : Z := Z.max (Z.log2 n - 52) (unit_exp - 1074).

(** Rounding of a non-negative integer to the nearest [fval]. *)
Definition rnd (n : Z) : Z :=
  Z.min (rne n (drop_bits n) * 2 ^ drop_bits n) (2 ^ (1024 + unit_exp)).

Lemma unit_exp_ge : 2148 <= unit_exp.
Proof. exact (proj2_sig unit_exp_sealed). Qed.

(** ** Powers of two, digits, rounding of integers *)

Lemma pow2_pos k : 0 <= k -> 0 < 2 ^ k.
Proof. intros; apply Z.pow_pos_nonneg; lia. Qed.

Lemma pow2_split a b : 0 <= a -> a <= b -> 2 ^ b = 2 ^ (b - a) * 2 ^ a.
Proof. intros. rewrite <- Z.pow_add_r by lia. f_equal. lia. Qed.

Lemma pow2_le a b : a <= b -> 2 ^ a <= 2 ^ b.
Proof. intros. apply Z.pow_le_mono_r; lia. Qed.

Lemma digits2_log2 m : Zpos (digits2_pos m) = Z.log2 (Zpos m) + 1.
Proof.
  induction m as [m IH|m IH|]; simpl digits2_pos; [| |reflexivity];
    rewrite Pos2Z.inj_succ, IH.
  - rewrite (Pos2Z.inj_xI m), Z.log2_succ_double by lia. lia.
  - rewrite (Pos2Z.inj_xO m), Z.log2_double by lia. lia.
Qed.

Lemma rne_bounds n s : 0 <= s -> 0 <= n -> n / 2 ^ s <= rne n s <= n / 2 ^ s + 1.
Proof.
  intros. unfold rne.
  destruct (Z.compare _ _); [destruct (Z.even _)| |]; lia.
Qed.

Lemma rne_nonneg n s : 0 <= s -> 0 <= n -> 0 <= rne n s.
Proof.
  intros Hs Hn. pose proof (rne_bounds n s Hs Hn).
  pose proof (Z.div_pos n (2 ^ s) Hn (pow2_pos s Hs)). lia.
Qed.

Lemma rne_mono n n' s : 0 <= s -> 0 <= n -> n <= n' -> rne n s <= rne n' s.
Proof.
  intros Hs Hn Hle. pose proof (pow2_pos s Hs) as Hp.
  assert (Hq : n / 2 ^ s <= n' / 2 ^ s) by (apply Z.div_le_mono; lia).
  destruct (Z.eq_dec (n / 2 ^ s) (n' / 2 ^ s)) as [E|E].
  - assert (Hr : n mod 2 ^ s <= n' mod 2 ^ s) by (rewrite !Z.mod_eq, <- E; lia).
    unfold rne. rewrite <- E.
    destruct (Z.compare_spec (2 * (n mod 2 ^ s)) (2 ^ s));
      destruct (Z.compare_spec (2 * (n' mod 2 ^ s)) (2 ^ s));
      try destruct (Z.even _); lia.
  - pose proof (rne_bounds n s). pose proof (rne_bounds n' s). lia.
Qed.

(** Rounding ignores a common scaling of the number and of the grid. *)
Lemma rne_scale n s k : 0 <= s -> 0 <= k -> rne (n * 2 ^ k) (s + k) = rne n s.
Proof.
  intros Hs Hk. unfold rne.
  pose proof (pow2_pos s Hs). pose proof (pow2_pos k Hk).
  rewrite Z.pow_add_r, Z.div_mul_cancel_r by lia.
  rewrite Z.mul_mod_distr_r by lia.
  replace (Z.compare (2 * (n mod 2 ^ s * 2 ^ k)) (2 ^ s * 2 ^ k))
    with (Z.compare (2 * (n mod 2 ^ s)) (2 ^ s)); [reflexivity|].
  rewrite Z.mul_assoc.
  destruct (Z.compare_spec (2 * (n mod 2 ^ s)) (2 ^ s)) as [E|E|E]; symmetry.
  - rewrite E. apply Z.compare_refl.
  - apply Z.compare_lt_iff. apply Z.mul_lt_mono_pos_r; lia.
  - apply Z.compare_gt_iff. apply Z.mul_lt_mono_pos_r; lia.
Qed.

Lemma rne_exact q s : 0 <= s -> rne (q * 2 ^ s) s = q.
Proof.
  intros Hs. pose proof (pow2_pos s Hs). unfold rne.
  rewrite Z.div_mul, Z.mod_mul by lia.
  destruct (Z.compare_spec (2 * 0) (2 ^ s)); lia.
Qed.

(** ** The rounding function [rnd] *)

Lemma drop_bits_nonneg n : 0 <= drop_bits n.
Proof. pose proof unit_exp_ge. unfold drop_bits. lia. Qed.

Lemma drop_bits_mono n n' : n <= n' -> drop_bits n <= drop_bits n'.
Proof. intros. pose proof (Z.log2_le_mono n n' H). unfold drop_bits. lia. Qed.

(** The rounded significand fits 53 bits, or is the carry [2^53]. *)
Lemma rne_drop_upper n : 0 <= n -> rne n (drop_bits n) <= 2 ^ 53.
Proof.
  intros Hn. pose proof (drop_bits_nonneg n) as Hs.
  pose proof (rne_bounds n _ Hs Hn).
  assert (n / 2 ^ drop_bits n < 2 ^ 53); [|lia].
  apply Z.div_lt_upper_bound; [apply pow2_pos; lia|].
  rewrite <- Z.pow_add_r by lia.
  destruct (Z.eq_dec n 0) as [->|]; [apply pow2_pos; lia|].
  apply Z.lt_le_trans with (2 ^ (Z.log2 n + 1)); [apply Z.log2_spec; lia|].
  apply pow2_le. unfold drop_bits. lia.
Qed.

(** Above the subnormal range the rounded significand is normalised. *)
Lemma rne_drop_lower n :
  0 < n -> unit_exp - 1074 < drop_bits n -> 2 ^ 52 <= rne n (drop_bits n).
Proof.
  intros Hn Hd. pose proof (drop_bits_nonneg n) as Hs.
  pose proof (rne_bounds n _ Hs ltac:(lia)).
  assert (2 ^ 52 <= n / 2 ^ drop_bits n); [|lia].
  apply Z.div_le_lower_bound; [apply pow2_pos; lia|].
  rewrite <- Z.pow_add_r by lia.
  apply Z.le_trans with (2 ^ Z.log2 n); [|apply Z.log2_spec; lia].
  apply pow2_le. unfold drop_bits in *. lia.
Qed.

Lemma rnd_mono n n' : 0 <= n -> n <= n' -> rnd n <= rnd n'.
Proof.
  intros Hn Hle. unfold rnd. apply Z.min_le_compat_r.
  pose proof (drop_bits_mono n n' Hle) as Hd.
  pose proof (drop_bits_nonneg n) as Hs.
  destruct (Z.eq_dec (drop_bits n) (drop_bits n')) as [E|E].
  - rewrite <- E. apply Z.mul_le_mono_nonneg_r; [apply Z.pow_nonneg; lia|].
    apply rne_mono; lia.
  - assert (0 < n').
    { destruct (Z.eq_dec n' 0) as [->|]; [|lia]. exfalso. apply E. f_equal. lia. }
    pose proof (rne_drop_upper n Hn) as Hu.
    assert (Hl : 2 ^ 52 <= rne n' (drop_bits n')).
    { apply rne_drop_lower; [lia|]. unfold drop_bits in *. lia. }
    apply Z.le_trans with (2 ^ 53 * 2 ^ drop_bits n).
    { apply Z.mul_le_mono_nonneg_r; [apply Z.pow_nonneg; lia|lia]. }
    apply Z.le_trans with (2 ^ 52 * 2 ^ drop_bits n').
    { rewrite <- !Z.pow_add_r by lia. apply pow2_le. lia. }
    apply Z.mul_le_mono_nonneg_r; [apply Z.pow_nonneg; lia|lia].
Qed.

Lemma rnd_nonneg n : 0 <= n -> 0 <= rnd n.
Proof.
  intros Hn. unfold rnd. pose proof (drop_bits_nonneg n).
  apply Z.min_glb; [|apply Z.pow_nonneg; lia].
  apply Z.mul_nonneg_nonneg; [now apply rne_nonneg|apply Z.pow_nonneg; lia].
Qed.

(** ** Canonical floats *)

(** What [valid_binary] says of a finite number. *)
Lemma valid_finite s m e :
  f64_valid (S754_finite s m e) = true ->
  -1074 <= e <= 971 /\ Zpos m < 2 ^ 53 /\ (-1074 < e -> 2 ^ 52 <= Zpos m).
Proof.
  unfold f64_valid, valid_binary, bounded, canonical_mantissa, fexp, emin.
  rewrite andb_true_iff, Z.eqb_eq, Z.leb_le, digits2_log2. intros [Hc He].
  destruct (Z.log2_spec (Zpos m)) as [Hlo Hhi]; [lia|].
  split; [lia|]. split.
  - apply Z.lt_le_trans with (1 := Hhi). apply pow2_le. lia.
  - intros. apply Z.le_trans with (2 := Hlo). apply pow2_le. lia.
Qed.

Lemma valid_finite_intro s m e :
  -1074 <= e <= 971 -> Zpos m < 2 ^ 53 -> (-1074 < e -> 2 ^ 52 <= Zpos m) ->
  f64_valid (S754_finite s m e) = true.
Proof.
  intros He Hm Hn.
  unfold f64_valid, valid_binary, bounded, canonical_mantissa, fexp, emin.
  rewrite andb_true_iff, Z.eqb_eq, Z.leb_le, digits2_log2. split; [|lia].
  assert (Z.log2 (Zpos m) < 53) by (apply Z.log2_lt_pow2; lia).
  destruct (Z.eq_dec e (-1074)) as [->|]; [lia|].
  assert (52 <= Z.log2 (Zpos m)) by (apply Z.log2_le_pow2; lia). lia.
Qed.

Lemma fval_nonneg x : 0 <= fval x.
Proof.
  destruct x as [s|[]| |[] m e]; cbn [fval]; try lia; apply Z.pow_nonneg; lia.
Qed.

Lemma fval_finite_lt s m e :
  f64_valid (S754_finite s m e) = true ->
  0 < Zpos m * 2 ^ (e + unit_exp) < 2 ^ (1024 + unit_exp).
Proof.
  intros (He & Hm & _)%valid_finite. pose proof unit_exp_ge.
  pose proof (pow2_pos (e + unit_exp) ltac:(lia)).
  split; [lia|].
  apply Z.lt_le_trans with (2 ^ 53 * 2 ^ (e + unit_exp)).
  - apply Z.mul_lt_mono_pos_r; lia.
  - rewrite <- Z.pow_add_r by lia. apply pow2_le. lia.
Qed.

(** A finite reading: what separates the numbers from infinity. *)
Lemma fval_finite x : f64_wf x -> f64_finite x = true <-> fval x < 2 ^ (1024 + unit_exp).
Proof.
  pose proof unit_exp_ge. pose proof (pow2_pos (1024 + unit_exp) ltac:(lia)).
  intros [V N]. destruct x as [s|[]| |[] m e]; try discriminate; cbn [fval f64_finite].
  - split; [lia|reflexivity].
  - split; [discriminate|lia].
  - split; [intros _; now apply (fval_finite_lt false)|reflexivity].
Qed.

(** A canonical number is a fixed point of rounding. *)
Lemma rnd_fval x : f64_wf x -> rnd (fval x) = fval x.
Proof.
  pose proof unit_exp_ge as HU.
  intros [Hv Hn]. destruct x as [s|[]| |[] m e]; try discriminate; cbn [fval].
  - unfold rnd. rewrite Z.min_l.
    + rewrite <- (Z.mul_0_l (2 ^ drop_bits 0)) at 1.
      now rewrite rne_exact by apply drop_bits_nonneg.
    + rewrite <- (Z.mul_0_l (2 ^ drop_bits 0)) at 1.
      rewrite rne_exact by apply drop_bits_nonneg. now apply Z.pow_nonneg.
  - unfold rnd. apply Z.min_r.
    set (n := 2 ^ (1024 + unit_exp)).
    assert (Hd : drop_bits n = 972 + unit_exp).
    { unfold drop_bits, n. rewrite Z.log2_pow2 by lia. lia. }
    rewrite Hd. replace n with (2 ^ 52 * 2 ^ (972 + unit_exp)).
    + rewrite rne_exact by lia. lia.
    + unfold n. rewrite <- Z.pow_add_r by lia. apply f_equal2; lia.
  - destruct (valid_finite _ _ _ Hv) as (He & Hm & Hl).
    pose proof (fval_finite_lt _ _ _ Hv) as Hb.
    unfold rnd.
    assert (Hd : drop_bits (Zpos m * 2 ^ (e + unit_exp)) = e + unit_exp).
    { unfold drop_bits. rewrite Z.log2_mul_pow2 by lia.
      assert (Z.log2 (Zpos m) < 53) by (apply Z.log2_lt_pow2; lia).
      destruct (Z.eq_dec e (-1074)); [lia|].
      assert (52 <= Z.log2 (Zpos m)) by (apply Z.log2_le_pow2; lia). lia. }
    rewrite Hd, rne_exact by lia. lia.
Qed.

(** ** The significand shifter of [SpecFloat] *)

Lemma iter_pos_nat {A} (f : A -> A) p x : iter_pos f p x = Nat.iter (Pos.to_nat p) f x.
Proof.
  revert x. induction p as [p IH|p IH|]; intros x; cbn [iter_pos].
  - rewrite !IH, <- Nat.iter_add, Nat.iter_swap, Pos2Nat.inj_xI.
    replace (S (2 * Pos.to_nat p))%nat with (S (Pos.to_nat p + Pos.to_nat p))%nat by lia.
    reflexivity.
  - rewrite !IH, <- Nat.iter_add, Pos2Nat.inj_xO. f_equal. lia.
  - reflexivity.
Qed.

Lemma shr_1_eq m r s :
  0 <= m -> shr_1 (Build_shr_record m r s) = Build_shr_record (m / 2) (Z.odd m) (r || s).
Proof.
  intros Hm. rewrite <- Z.div2_div. destruct m as [|[p|p|]|p]; try lia; reflexivity.
Qed.

(** After [k] shifts of [m]: the quotient, the last bit shifted out, and
    whether any bit below it was set. *)
Lemma shr_iter m r s (k : nat) :
  0 <= m -> exists r' s',
    Nat.iter k shr_1 (Build_shr_record m r s)
      = Build_shr_record (m / 2 ^ Z.of_nat k) r' s' /\
    (r = false -> s = false ->
       (r' || s') = negb (m mod 2 ^ Z.of_nat k =? 0) /\
       ((1 <= k)%nat ->
          r' = Z.odd (m / 2 ^ (Z.of_nat k - 1)) /\
          s' = negb (m mod 2 ^ (Z.of_nat k - 1) =? 0))).
Proof.
  intros Hm. induction k as [|k (r' & s' & E & IH)].
  - exists r, s. simpl Nat.iter. change (2 ^ Z.of_nat 0) with 1.
    rewrite Z.div_1_r, Z.mod_1_r. split; [reflexivity|].
    intros -> ->. split; [reflexivity|lia].
  - exists (Z.odd (m / 2 ^ Z.of_nat k)), (r' || s').
    change (Nat.iter (S k) ?f ?x) with (f (Nat.iter k f x)).
    rewrite E, shr_1_eq by (apply Z.div_pos; [lia|apply pow2_pos; lia]).
    pose proof (pow2_pos (Z.of_nat k) ltac:(lia)) as Hp.
    rewrite Z.div_div, Nat2Z.inj_succ by lia.
    replace (2 ^ Z.of_nat k * 2) with (2 ^ Z.succ (Z.of_nat k))
      by (rewrite Z.pow_succ_r by lia; lia).
    split; [reflexivity|].
    intros Hr Hs. destruct (IH Hr Hs) as [IH1 _]. rewrite IH1.
    replace (Z.succ (Z.of_nat k) - 1) with (Z.of_nat k) by lia.
    split; [|auto].
    rewrite Z.pow_succ_r, (Z.mul_comm 2), Z.rem_mul_r by lia.
    pose proof (Z.mod_pos_bound m _ Hp).
    rewrite Zmod_odd. destruct (Z.odd (m / 2 ^ Z.of_nat k));
      destruct (Z.eqb_spec (m mod 2 ^ Z.of_nat k) 0);
      match goal with |- context [?a + ?b =? 0] => destruct (Z.eqb_spec (a + b) 0) end;
      reflexivity || lia.
Qed.

(** Rounding the shifted significand is [rne]. *)
Lemma round_shifted m (k : nat) :
  0 <= m ->
  let rec := Nat.iter k shr_1 (Build_shr_record m false false) in
  round_nearest_even (shr_m rec) (loc_of_shr_record rec) = rne m (Z.of_nat k).
Proof.
  intros Hm rec. destruct (shr_iter m false false k Hm) as (r & s & E & H).
  destruct (H eq_refl eq_refl) as [_ H1]. subst rec. rewrite E. cbn [shr_m].
  destruct k as [|k].
  - simpl in E. injection E as _ <- <-. unfold rne.
    change (2 ^ Z.of_nat 0) with 1. rewrite Z.mod_1_r. reflexivity.
  - destruct (H1 ltac:(lia)) as [-> ->]. clear.
    replace (Z.of_nat (S k) - 1) with (Z.of_nat k) by lia.
    unfold rne. set (q := m / 2 ^ Z.of_nat (S k)).
    rewrite Nat2Z.inj_succ, Z.pow_succ_r by lia.
    pose proof (pow2_pos (Z.of_nat k) ltac:(lia)) as Hp.
    pose proof (Z.mod_pos_bound m _ Hp).
    rewrite (Z.mul_comm 2 (2 ^ Z.of_nat k)), Z.rem_mul_r, Zmod_odd by lia.
    destruct (Z.odd (m / 2 ^ Z.of_nat k)); destruct (Z.eqb_spec (m mod 2 ^ Z.of_nat k) 0);
      cbn [negb loc_of_shr_record round_nearest_even];
      match goal with |- context [Z.compare ?a ?b] => destruct (Z.compare_spec a b) end;
      reflexivity || lia.
Qed.

(** The second half of [binary_round_aux]: renormalise a rounded significand
    and check the exponent. *)
Definition round_finish (sx : bool) (m e : Z) : f64 :=
  let '(mrs, e') := shr_fexp 53 1024 m e loc_Exact in
  match shr_m mrs with
  | Z0 => S754_zero sx
  | Zpos m => if Z.leb e' (1024 - 53) then S754_finite sx m e' else S754_infinity sx
  | _ => S754_nan
  end.

Lemma Zdigits2_log2 m : 0 < m -> Zdigits2 m = Z.log2 m + 1.
Proof. destruct m; intros; try lia. apply digits2_log2. Qed.

Lemma shr_fexp_small m e :
  fexp 53 1024 (Zdigits2 m + e) <= e ->
  shr_fexp 53 1024 m e loc_Exact = (Build_shr_record m false false, e).
Proof.
  intros H. unfold shr_fexp, shr. cbn [shr_record_of_loc].
  destruct (fexp 53 1024 (Zdigits2 m + e) - e) eqn:E; try reflexivity. lia.
Qed.

Lemma round_finish_spec m e :
  0 <= m <= 2 ^ 53 -> -1074 <= e -> (-1074 < e -> 2 ^ 52 <= m) ->
  f64_wf (round_finish false m e) /\
  fval (round_finish false m e) = Z.min (m * 2 ^ (e + unit_exp)) (2 ^ (1024 + unit_exp)).
Proof.
  intros [Hm0 Hm] He Hn. pose proof unit_exp_ge as HU.
  destruct (Z.eq_dec m 0) as [->|]; [|destruct (Z.eq_dec m (2 ^ 53)) as [->|]].
  - assert (e = -1074) by lia. subst e. split; [split; reflexivity|].
    rewrite Z.mul_0_l, Z.min_l by (apply Z.pow_nonneg; lia). reflexivity.
  - unfold round_finish, shr_fexp, shr, fexp, emin.
    rewrite Zdigits2_log2, Z.log2_pow2 by lia.
    replace (Z.max (53 + 1 + e - 53) (3 - 1024 - 53) - e) with 1 by lia.
    cbn [iter_pos shr_record_of_loc]. rewrite shr_1_eq by lia. cbn [shr_m].
    change (2 ^ 53 / 2) with (Zpos (2 ^ 52)).
    destruct (Z.leb_spec (e + 1) (1024 - 53)).
    + split; [split; [|reflexivity]|].
      * apply valid_finite_intro; lia.
      * cbn [fval]. rewrite Pos2Z.inj_pow, <- !Z.pow_add_r by lia.
        rewrite Z.min_l by (apply pow2_le; lia). f_equal. lia.
    + split; [split; reflexivity|]. cbn [fval].
      rewrite <- Z.pow_add_r, Z.min_r by (lia || apply pow2_le; lia). reflexivity.
  - assert (Hlt : m < 2 ^ 53) by lia. destruct m as [|m|m]; try lia.
    assert (Hl : Z.log2 (Zpos m) < 53) by (apply Z.log2_lt_pow2; lia).
    unfold round_finish. rewrite shr_fexp_small.
    2:{ unfold fexp, emin. rewrite Zdigits2_log2 by lia. lia. }
    cbn [shr_m]. destruct (Z.leb_spec e (1024 - 53)).
    + assert (Hv : f64_valid (S754_finite false m e) = true)
        by (apply valid_finite_intro; lia).
      split; [split; [exact Hv|reflexivity]|]. cbn [fval].
      pose proof (fval_finite_lt _ _ _ Hv). lia.
    + split; [split; reflexivity|]. cbn [fval]. symmetry. apply Z.min_r.
      apply Z.le_trans with (2 ^ 52 * 2 ^ (e + unit_exp)).
      * rewrite <- Z.pow_add_r by lia. apply pow2_le. lia.
      * apply Z.mul_le_mono_nonneg_r; [apply Z.pow_nonneg; lia|lia].
Qed.

(** ** Rounding a significand and an exponent *)

Lemma round_aux_finish sx m e l :
  0 <= m -> e <= fexp 53 1024 (Zdigits2 m + e) ->
  let e' := fexp 53 1024 (Zdigits2 m + e) in
  let rec := Nat.iter (Z.to_nat (e' - e)) shr_1 (shr_record_of_loc m l) in
  binary_round_aux 53 1024 sx m e l
    = round_finish sx (round_nearest_even (shr_m rec) (loc_of_shr_record rec)) e'.
Proof.
  intros Hm He e' rec. unfold binary_round_aux, round_finish, shr_fexp at 1, shr.
  fold e'. destruct (e' - e) as [|p|p] eqn:E; try lia.
  - replace e' with e by lia. subst rec. reflexivity.
  - rewrite iter_pos_nat. replace (e + Zpos p) with e' by lia. subst rec. reflexivity.
Qed.

(** The exponent [fexp] picks is the number of bits [rnd] drops. *)
Lemma fexp_drop m e :
  0 < m -> 0 <= e + unit_exp ->
  drop_bits (m * 2 ^ (e + unit_exp)) = fexp 53 1024 (Zdigits2 m + e) + unit_exp.
Proof.
  intros Hm He. unfold drop_bits, fexp, emin.
  rewrite Zdigits2_log2, Z.log2_mul_pow2 by lia. lia.
Qed.

Lemma round_aux_val m e :
  0 < m -> 0 <= e + unit_exp -> e <= fexp 53 1024 (Zdigits2 m + e) ->
  f64_wf (binary_round_aux 53 1024 false m e loc_Exact) /\
  fval (binary_round_aux 53 1024 false m e loc_Exact) = rnd (m * 2 ^ (e + unit_exp)).
Proof.
  intros Hm HeU He.
  rewrite round_aux_finish by (trivial; lia). cbn zeta.
  cbn [shr_record_of_loc]. rewrite round_shifted by lia.
  set (e' := fexp 53 1024 (Zdigits2 m + e)) in *.
  rewrite Z2Nat.id by lia.
  pose proof (fexp_drop m e Hm HeU) as Hd. fold e' in Hd.
  assert (Hr : rne m (e' - e) = rne (m * 2 ^ (e + unit_exp)) (e' + unit_exp)).
  { replace (e' + unit_exp) with (e' - e + (e + unit_exp)) by lia.
    rewrite rne_scale by lia. reflexivity. }
  assert (Hp : 0 < m * 2 ^ (e + unit_exp))
    by (apply Z.mul_pos_pos; [lia|apply pow2_pos; lia]).
  unfold rnd. rewrite Hd, Hr. apply round_finish_spec.
  - rewrite <- Hd. split; [|apply rne_drop_upper; lia].
    apply rne_nonneg; [apply drop_bits_nonneg|lia].
  - unfold e', fexp, emin. lia.
  - intros. rewrite <- Hd. apply rne_drop_lower; [lia|]. rewrite Hd. lia.
Qed.

(** With any rounding location the rounded significand is in range. *)
Lemma round_aux_shape m e l :
  0 <= m -> e <= fexp 53 1024 (Zdigits2 m + e) ->
  let e' := fexp 53 1024 (Zdigits2 m + e) in
  exists r, binary_round_aux 53 1024 false m e l = round_finish false r e' /\
    0 <= r <= 2 ^ 53 /\ -1074 <= e' /\ (-1074 < e' -> 2 ^ 52 <= r).
Proof.
  intros Hm He. rewrite round_aux_finish by trivial. cbn zeta.
  eexists. split; [reflexivity|].
  set (e' := fexp 53 1024 (Zdigits2 m + e)) in *.
  destruct (shr_record_of_loc m l) as [m0 r s] eqn:El.
  assert (m0 = m) as -> by (destruct l as [|[]]; simpl in El; congruence).
  destruct (shr_iter m r s (Z.to_nat (e' - e)) Hm) as (r' & s' & -> & _).
  rewrite Z2Nat.id by lia. cbn [shr_m].
  pose proof (pow2_pos (e' - e) ltac:(lia)) as Hp.
  set (q := m / 2 ^ (e' - e)).
  assert (Hq0 : 0 <= q) by (apply Z.div_pos; lia).
  assert (Hr : q <= round_nearest_even q (loc_of_shr_record (Build_shr_record q r' s')) <= q + 1).
  { destruct r', s'; cbn [loc_of_shr_record round_nearest_even];
      try destruct (Z.even q); lia. }
  assert (Hq : q < 2 ^ 53 /\ (-1074 < e' -> 2 ^ 52 <= q)).
  { assert (Hs : e' = Z.max (Zdigits2 m + e - 53) (-1074)) by reflexivity.
    destruct (Z.eq_dec m 0) as [->|].
    - replace q with 0 by (symmetry; apply Z.div_0_l; lia).
      change (Zdigits2 0) with 0 in Hs. lia.
    - rewrite Zdigits2_log2 in Hs by lia.
      destruct (Z.log2_spec m ltac:(lia)) as [Hlo Hhi]. split.
      + apply Z.div_lt_upper_bound; [exact Hp|]. rewrite <- Z.pow_add_r by lia.
        apply Z.lt_le_trans with (1 := Hhi). apply pow2_le. lia.
      + intros. apply Z.div_le_lower_bound; [exact Hp|]. rewrite <- Z.pow_add_r by lia.
        apply Z.le_trans with (2 := Hlo). apply pow2_le. lia. }
  destruct Hq as [Hq1 Hq2].
  split; [lia|]. split; [unfold e', fexp, emin; lia|].
  intros Hlt. specialize (Hq2 Hlt). lia.
Qed.

Lemma round_aux_wf m e l :
  0 <= m -> e <= fexp 53 1024 (Zdigits2 m + e) ->
  f64_wf (binary_round_aux 53 1024 false m e l).
Proof.
  intros Hm He. destruct (round_aux_shape m e l Hm He) as (r & -> & Hr & He' & Hn).
  now apply round_finish_spec.
Qed.

Lemma iter_xO m p : Zpos (Pos.iter xO m p) = Zpos m * 2 ^ Zpos p.
Proof.
  rewrite Pos2Nat.inj_iter, <- (positive_nat_Z p).
  induction (Pos.to_nat p) as [|k IH]; [exact (eq_sym (Z.mul_1_r (Zpos m)))|].
  cbn [nat_rect]. rewrite Pos2Z.inj_xO, IH, Nat2Z.inj_succ, Z.pow_succ_r by lia. lia.
Qed.

Lemma shl_align_val m e e' :
  exists m1 e1, shl_align m e e' = (m1, e1) /\ e1 = Z.min e e' /\
    Zpos m1 = Zpos m * 2 ^ (e - e1).
Proof.
  unfold shl_align. destruct (e' - e) as [|p|p] eqn:E.
  - exists m, e. rewrite Z.sub_diag. repeat split; lia.
  - exists m, e. rewrite Z.sub_diag. repeat split; lia.
  - exists (Pos.iter xO m p), e'. rewrite iter_xO. repeat split; [lia|].
    f_equal. f_equal. lia.
Qed.

Lemma binary_round_val m e :
  0 <= e + unit_exp -> 0 <= Z.log2 (Zpos m) + e - 53 + unit_exp ->
  f64_wf (binary_round 53 1024 false m e) /\
  fval (binary_round 53 1024 false m e) = rnd (Zpos m * 2 ^ (e + unit_exp)).
Proof.
  intros He Hl. pose proof unit_exp_ge. unfold binary_round.
  destruct (shl_align_val m e (fexp 53 1024 (Zpos (digits2_pos m) + e)))
    as (m1 & e1 & -> & He1 & Hm1).
  assert (Hd : Zdigits2 (Zpos m1) + e1 = Zpos (digits2_pos m) + e).
  { rewrite Zdigits2_log2, digits2_log2, Hm1, Z.log2_mul_pow2 by lia. lia. }
  assert (Hu : 0 <= e1 + unit_exp).
  { unfold fexp, emin in He1. rewrite digits2_log2 in He1. lia. }
  replace (Zpos m * 2 ^ (e + unit_exp)) with (Zpos m1 * 2 ^ (e1 + unit_exp)).
  - apply round_aux_val; [lia|lia|]. rewrite Hd. lia.
  - rewrite Hm1, <- Z.mul_assoc, <- Z.pow_add_r by lia. f_equal. f_equal. lia.
Qed.

(** ** Comparison *)

(** On non-negative floats the order is the order of the readings. *)
Lemma f64_compare_val x y :
  f64_wf x -> f64_wf y -> f64_partial_cmp x y = Some (Z.compare (fval x) (fval y)).
Proof.
  pose proof unit_exp_ge as HU.
  intros [Vx Nx] [Vy Ny].
  assert (H0 : 0 < 2 ^ (1024 + unit_exp)) by (apply pow2_pos; lia).
  destruct x as [sx|[]| |[] mx ex]; try discriminate;
    destruct y as [sy|[]| |[] my ey]; try discriminate; unfold f64_partial_cmp;
    cbn [SFcompare fval]; f_equal; symmetry;
    rewrite ?Z.compare_refl, ?Z.compare_lt_iff, ?Z.compare_gt_iff; try reflexivity;
    try (pose proof (fval_finite_lt _ _ _ Vx)); try (pose proof (fval_finite_lt _ _ _ Vy));
    try lia.
  destruct (valid_finite _ _ _ Vx) as (Hex & Hmx & Hnx).
  destruct (valid_finite _ _ _ Vy) as (Hey & Hmy & Hny).
  pose proof (pow2_pos (ex + unit_exp) ltac:(lia)) as Hpx.
  pose proof (pow2_pos (ey + unit_exp) ltac:(lia)) as Hpy.
  assert (Hlt : forall m e m' e' : Z, e < e' -> -1074 <= e -> 0 < m < 2 ^ 53 -> 2 ^ 52 <= m' ->
            m * 2 ^ (e + unit_exp) < m' * 2 ^ (e' + unit_exp)).
  { intros m e m' e' He He0 Hm Hm'.
    apply Z.lt_le_trans with (2 ^ 53 * 2 ^ (e + unit_exp)).
    - apply Z.mul_lt_mono_pos_r; [apply pow2_pos|]; lia.
    - apply Z.le_trans with (2 ^ 52 * 2 ^ (e' + unit_exp)).
      + rewrite <- !Z.pow_add_r by lia. apply pow2_le. lia.
      + apply Z.mul_le_mono_nonneg_r; [apply Z.pow_nonneg|]; lia. }
  destruct (Z.compare_spec ex ey) as [->|Hlt'|Hgt].
  - change (Pos.compare_cont Eq mx my) with (Z.compare (Zpos mx) (Zpos my)).
    destruct (Z.compare_spec (Zpos mx) (Zpos my)) as [E|E|E].
    + rewrite E. apply Z.compare_refl.
    + apply Z.compare_lt_iff, Z.mul_lt_mono_pos_r; lia.
    + apply Z.compare_gt_iff, Z.mul_lt_mono_pos_r; lia.
  - apply Z.compare_lt_iff, Hlt; lia.
  - apply Z.compare_gt_iff, Hlt; lia.
Qed.

Lemma f64_lt_val x y : f64_wf x -> f64_wf y -> f64_lt x y = (fval x <? fval y).
Proof.
  intros Hx Hy. unfold f64_lt, SFltb.
  pose proof (f64_compare_val x y Hx Hy) as E. unfold f64_partial_cmp in E. rewrite E.
  unfold Z.ltb. now destruct (Z.compare _ _).
Qed.

Lemma f64_le_val x y : f64_wf x -> f64_wf y -> f64_le x y = (fval x <=? fval y).
Proof.
  intros Hx Hy. unfold f64_le, SFleb.
  pose proof (f64_compare_val x y Hx Hy) as E. unfold f64_partial_cmp in E. rewrite E.
  unfold Z.leb. now destruct (Z.compare _ _).
Qed.

(** ** Addition and multiplication *)

Lemma f64_wf_zero s : f64_wf (S754_zero s).
Proof. split; reflexivity. Qed.

Lemma rnd_infinity n : 2 ^ (1024 + unit_exp) <= n -> rnd n = 2 ^ (1024 + unit_exp).
Proof.
  intros Hn. pose proof unit_exp_ge.
  apply Z.le_antisymm; [apply Z.le_min_r|].
  rewrite <- (rnd_fval f64_infinity) at 1 by (split; reflexivity).
  apply rnd_mono; [apply Z.pow_nonneg|]; lia || exact Hn.
Qed.

Lemma f64_add_val x y :
  f64_wf x -> f64_wf y ->
  f64_wf (f64_add x y) /\ fval (f64_add x y) = rnd (fval x + fval y).
Proof.
  pose proof unit_exp_ge as HU.
  intros Wx Wy. pose proof (rnd_fval x Wx) as Rx. pose proof (rnd_fval y Wy) as Ry.
  destruct (Wx) as [Vx Nx], (Wy) as [Vy Ny].
  pose proof (fval_nonneg x) as Px. pose proof (fval_nonneg y) as Py.
  assert (Hinf : f64_wf f64_infinity) by (split; reflexivity).
  destruct x as [sx|[]| |[] mx ex]; try discriminate Nx;
    destruct y as [sy|[]| |[] my ey]; try discriminate Ny.
  - split; [destruct sx, sy; apply f64_wf_zero|].
    rewrite Z.add_0_l, Ry. destruct sx, sy; reflexivity.
  - split; [exact Hinf|]. now rewrite Z.add_0_l, Ry.
  - split; [exact Wy|]. now rewrite Z.add_0_l, Ry.
  - split; [exact Hinf|]. now rewrite Z.add_0_r, Rx.
  - split; [exact Hinf|]. symmetry. apply rnd_infinity. cbn [fval] in *. lia.
  - split; [exact Hinf|]. symmetry. apply rnd_infinity. cbn [fval] in *. lia.
  - split; [exact Wx|]. now rewrite Z.add_0_r, Rx.
  - split; [exact Hinf|]. symmetry. apply rnd_infinity. cbn [fval] in *. lia.
  - destruct (valid_finite _ _ _ Vx) as (Hex & _). destruct (valid_finite _ _ _ Vy) as (Hey & _).
    unfold f64_add. cbn [SFadd]. clear Px Py Rx Ry.
    destruct (shl_align_val mx ex (Z.min ex ey)) as (m1 & e1 & -> & -> & H1).
    destruct (shl_align_val my ey (Z.min ex ey)) as (m2 & e2 & -> & -> & H2).
    cbn [fst cond_Zopp]. set (ez := Z.min ex ey) in *.
    replace (Z.min ex ez) with ez in * by lia. replace (Z.min ey ez) with ez in * by lia.
    change (Zpos m1 + Zpos m2) with (Zpos (m1 + m2)). cbn [binary_normalize fval].
    replace (Zpos mx * 2 ^ (ex + unit_exp) + Zpos my * 2 ^ (ey + unit_exp))
      with (Zpos (m1 + m2) * 2 ^ (ez + unit_exp)).
    + apply binary_round_val; [lia|]. pose proof (Z.log2_nonneg (Zpos (m1 + m2))). lia.
    + rewrite Pos2Z.inj_add, H1, H2, Z.mul_add_distr_r, <- !Z.mul_assoc, <- !Z.pow_add_r by lia.
      f_equal; f_equal; f_equal; lia.
Qed.

Lemma rnd_0 : rnd 0 = 0.
Proof. exact (rnd_fval f64_zero (f64_wf_zero false)). Qed.

(** The exponent of a product is at most the one rounding picks. *)
Lemma mul_exp_le s s' mx ex my ey :
  f64_valid (S754_finite s mx ex) = true -> f64_valid (S754_finite s' my ey) = true ->
  ex + ey <= fexp 53 1024 (Zdigits2 (Zpos (mx * my)) + (ex + ey)).
Proof.
  intros (Hex & Hmx & Hnx)%valid_finite (Hey & Hmy & Hny)%valid_finite.
  rewrite Zdigits2_log2, Pos2Z.inj_mul by lia.
  pose proof (Z.log2_mul_below (Zpos mx) (Zpos my) ltac:(lia) ltac:(lia)) as Hl.
  pose proof (Z.log2_nonneg (Zpos mx)). pose proof (Z.log2_nonneg (Zpos my)).
  assert (Hx : -1074 < ex -> 52 <= Z.log2 (Zpos mx))
    by (intros; apply Z.log2_le_pow2; lia).
  assert (Hy : -1074 < ey -> 52 <= Z.log2 (Zpos my))
    by (intros; apply Z.log2_le_pow2; lia).
  unfold fexp, emin.
  destruct (Z.eq_dec ex (-1074)); destruct (Z.eq_dec ey (-1074)); lia.
Qed.

Lemma f64_mul_val x y :
  f64_wf x -> f64_wf y -> f64_finite x = true -> f64_finite y = true ->
  f64_wf (f64_mul x y) /\ fval (f64_mul x y) = rnd (fval x * fval y / 2 ^ unit_exp).
Proof.
  pose proof unit_exp_ge as HU.
  pose proof (pow2_pos unit_exp ltac:(lia)) as Hpu.
  intros [Vx Nx] [Vy Ny] Fx Fy.
  destruct x as [sx|[]| |[] mx ex]; try discriminate;
    destruct y as [sy|[]| |[] my ey]; try discriminate;
    try (split; [apply f64_wf_zero|]; cbn [fval f64_mul SFmul];
         rewrite ?Z.mul_0_l, ?Z.mul_0_r, Z.div_0_l, rnd_0 by lia; reflexivity).
  pose proof (mul_exp_le _ _ _ _ _ _ Vx Vy) as He.
  apply valid_finite in Vx, Vy. unfold f64_mul. cbn [SFmul xorb fval].
  replace (Zpos mx * 2 ^ (ex + unit_exp) * (Zpos my * 2 ^ (ey + unit_exp)) / 2 ^ unit_exp)
    with (Zpos (mx * my) * 2 ^ (ex + ey + unit_exp)).
  - apply round_aux_val; [lia|lia|exact He].
  - apply Z.div_unique_exact; [lia|].
    rewrite Pos2Z.inj_mul.
    replace (2 ^ unit_exp * (Zpos mx * Zpos my * 2 ^ (ex + ey + unit_exp)))
      with (Zpos mx * Zpos my * (2 ^ unit_exp * 2 ^ (ex + ey + unit_exp))) by ring.
    replace (Zpos mx * 2 ^ (ex + unit_exp) * (Zpos my * 2 ^ (ey + unit_exp)))
      with (Zpos mx * Zpos my * (2 ^ (ex + unit_exp) * 2 ^ (ey + unit_exp))) by ring.
    rewrite <- !Z.pow_add_r by lia. f_equal. f_equal. lia.
Qed.

(** The quotient of two significands: enough digits for the exponent chosen,
    and no more than the operands allow. *)
Lemma div_core mx ex my ey q e l :
  SFdiv_core_binary 53 1024 (Zpos mx) ex (Zpos my) ey = (q, e, l) ->
  0 <= q /\ e <= fexp 53 1024 (Zdigits2 q + e) /\
  Zdigits2 q + e <= Z.max (Z.log2 (Zpos mx) + ex - (Z.log2 (Zpos my) + ey) + 1) (-1074).
Proof.
  unfold SFdiv_core_binary.
  set (D := Zdigits2 (Zpos mx) + ex - (Zdigits2 (Zpos my) + ey)).
  set (e' := Z.min (fexp 53 1024 D) (ex - ey)).
  set (m' := match ex - ey - e' with Z0 => Zpos mx | Zpos _ => _ | Zneg _ => 0 end).
  assert (Hm' : m' = Zpos mx * 2 ^ (ex - ey - e')).
  { subst m'. destruct (ex - ey - e') eqn:E; [|now rewrite Z.shiftl_mul_pow2 by lia|lia].
    now rewrite Z.mul_1_r. }
  pose proof (Z_div_mod m' (Zpos my) ltac:(lia)) as Hdm.
  destruct (Z.div_eucl m' (Zpos my)) as [q0 r]. destruct Hdm as [Hq Hr].
  intros [= <- <- _]. revert Hq. generalize q0. clear q0. intros q Hq.
  pose proof (pow2_pos (ex - ey - e') ltac:(lia)) as Hp.
  assert (Hq0 : 0 <= q) by nia. split; [exact Hq0|].
  assert (HD : D = Z.log2 (Zpos mx) + ex - (Z.log2 (Zpos my) + ey))
    by (unfold D; rewrite !Zdigits2_log2 by lia; lia).
  assert (He' : e' = Z.min (Z.max (D - 53) (-1074)) (ex - ey)) by reflexivity.
  clearbody D e' m'.
  pose proof (Z.log2_nonneg (Zpos mx)) as Hlx. pose proof (Z.log2_nonneg (Zpos my)) as Hly.
  destruct (Z.log2_spec (Zpos mx)) as [Hx Hx1]; [lia|].
  destruct (Z.log2_spec (Zpos my)) as [Hy Hy1]; [lia|].
  replace (Z.succ (Z.log2 (Zpos my))) with (Z.log2 (Zpos my) + 1) in Hy1 by lia.
  replace (Z.succ (Z.log2 (Zpos mx))) with (Z.log2 (Zpos mx) + 1) in Hx1 by lia.
  assert (Hlow : 2 ^ (Z.log2 (Zpos mx) + (ex - ey - e')) <= m').
  { rewrite Hm', Z.pow_add_r by lia. apply Z.mul_le_mono_nonneg_r; lia. }
  assert (Hup : m' < 2 ^ (Z.log2 (Zpos mx) + 1 + (ex - ey - e'))).
  { rewrite Hm', Z.pow_add_r by lia. apply Z.mul_lt_mono_pos_r; lia. }
  change (fexp 53 1024 (Zdigits2 q + e')) with (Z.max (Zdigits2 q + e' - 53) (-1074)).
  destruct (Z.eq_dec q 0) as [->|Hq1].
  - change (Zdigits2 0) with 0.
    destruct (Z_lt_le_dec (-1074) (D - 53)); [|lia]. exfalso.
    assert (2 ^ (Z.log2 (Zpos my) + 1) <= 2 ^ (Z.log2 (Zpos mx) + (ex - ey - e')))
      by (apply pow2_le; lia).
    lia.
  - rewrite Zdigits2_log2 by lia. pose proof (Z.log2_nonneg q).
    destruct (Z.log2_spec q) as [Hq2 Hq3]; [lia|].
    replace (Z.succ (Z.log2 q)) with (Z.log2 q + 1) in Hq3 by lia.
    assert (Hlt : 2 ^ (Z.log2 (Zpos mx) + (ex - ey - e')) <
                  2 ^ (Z.log2 q + 1 + (Z.log2 (Zpos my) + 1))).
    { rewrite (Z.pow_add_r 2 (Z.log2 q + 1)) by lia.
      apply Z.le_lt_trans with (1 := Hlow).
      apply Z.lt_le_trans with ((q + 1) * Zpos my); [lia|].
      apply Z.mul_le_mono_nonneg; lia. }
    assert (Hgt : 2 ^ (Z.log2 q + Z.log2 (Zpos my)) <
                  2 ^ (Z.log2 (Zpos mx) + 1 + (ex - ey - e'))).
    { rewrite (Z.pow_add_r 2 (Z.log2 q)) by lia.
      pose proof (pow2_pos (Z.log2 q) ltac:(lia)). pose proof (pow2_pos (Z.log2 (Zpos my)) Hly).
      apply Z.le_lt_trans with (q * Zpos my); [apply Z.mul_le_mono_nonneg; lia|lia]. }
    apply Z.pow_lt_mono_r_iff in Hlt, Hgt; lia.
Qed.

Lemma f64_div_wf x y :
  f64_wf x -> f64_wf y -> 0 < fval y -> f64_finite x || f64_finite y = true ->
  f64_wf (f64_div x y).
Proof.
  intros [Vx Nx] [Vy Ny] Hy Hf.
  destruct x as [sx|[]| |[] mx ex]; try discriminate;
    destruct y as [sy|[]| |[] my ey]; try discriminate; cbn [fval] in Hy; try lia;
    try (split; reflexivity).
  unfold f64_div. cbn [SFdiv xorb].
  destruct (SFdiv_core_binary 53 1024 _ _ _ _) as [[q e] l] eqn:E.
  apply div_core in E as (Hq & He & _). now apply round_aux_wf.
Qed.

Lemma round_finish_finite m e :
  0 <= m <= 2 ^ 53 -> -1074 <= e <= 970 -> (-1074 < e -> 2 ^ 52 <= m) ->
  f64_finite (round_finish false m e) = true.
Proof.
  intros Hm He Hn. pose proof unit_exp_ge.
  destruct (round_finish_spec m e Hm ltac:(lia) Hn) as [W V].
  apply (fval_finite _ W). rewrite V.
  apply Z.min_lt_iff. left.
  apply Z.le_lt_trans with (2 ^ 53 * 2 ^ (e + unit_exp)).
  - apply Z.mul_le_mono_nonneg_r; [apply Z.pow_nonneg; lia|lia].
  - rewrite <- Z.pow_add_r by lia. apply Z.pow_lt_mono_r; lia.
Qed.

(** Dividing a finite number by at least two stays finite. *)
Lemma f64_div_finite x s my ey :
  f64_wf x -> f64_finite x = true -> f64_wf (S754_finite s my ey) ->
  1 <= Z.log2 (Zpos my) + ey -> f64_finite (f64_div x (S754_finite s my ey)) = true.
Proof.
  intros [Vx Nx] Fx [Vy Ny] Hy. destruct s; [discriminate|].
  destruct x as [sx|[]| |[] mx ex]; try discriminate; [reflexivity|].
  apply valid_finite in Vx as (Hex & Hmx & _).
  assert (Z.log2 (Zpos mx) < 53) by (apply Z.log2_lt_pow2; lia).
  unfold f64_div. cbn [SFdiv xorb].
  destruct (SFdiv_core_binary 53 1024 _ _ _ _) as [[q e] l] eqn:E.
  apply div_core in E as (Hq & He & Hd).
  destruct (round_aux_shape q e l Hq He) as (r & -> & Hr & He' & Hn).
  apply round_finish_finite; [exact Hr| |exact Hn].
  split; [exact He'|]. unfold fexp, emin. lia.
Qed.

(** The sign of a rounded value is the sign asked for. *)
Lemma round_aux_sign sx m e l :
  match binary_round_aux 53 1024 sx m e l with
  | S754_zero s | S754_infinity s | S754_finite s _ _ => s = sx
  | S754_nan => True
  end.
Proof.
  unfold binary_round_aux. destruct (shr_fexp _ _ m e l) as [r e1].
  destruct (shr_fexp _ _ _ e1 _) as [r' e2]. destruct (shr_m r'); trivial.
  now destruct (Z.leb _ _).
Qed.

(** ** What the clients use *)

Lemma f64_add_wf x y : f64_wf x -> f64_wf y -> f64_wf (f64_add x y).
Proof. intros; now apply f64_add_val. Qed.

Lemma f64_add_mono x x' y y' :
  f64_wf x -> f64_wf x' -> f64_wf y -> f64_wf y' ->
  fval x <= fval x' -> fval y <= fval y' -> fval (f64_add x y) <= fval (f64_add x' y').
Proof.
  intros. rewrite !(fun a b Ha Hb => proj2 (f64_add_val a b Ha Hb)) by assumption.
  pose proof (fval_nonneg x). pose proof (fval_nonneg y). apply rnd_mono; lia.
Qed.

Lemma f64_add_ge_l x y : f64_wf x -> f64_wf y -> fval x <= fval (f64_add x y).
Proof.
  intros Hx Hy. rewrite (proj2 (f64_add_val x y Hx Hy)), <- (rnd_fval x Hx) at 1.
  pose proof (fval_nonneg x). pose proof (fval_nonneg y). apply rnd_mono; lia.
Qed.

Lemma f64_mul_mono x x' y y' :
  f64_wf x -> f64_wf x' -> f64_wf y -> f64_wf y' ->
  f64_finite x = true -> f64_finite x' = true ->
  f64_finite y = true -> f64_finite y' = true ->
  fval x <= fval x' -> fval y <= fval y' -> fval (f64_mul x y) <= fval (f64_mul x' y').
Proof.
  intros. rewrite !(fun a b Ha Hb Fa Fb => proj2 (f64_mul_val a b Ha Hb Fa Fb)) by assumption.
  pose proof unit_exp_ge. pose proof (pow2_pos unit_exp ltac:(lia)).
  pose proof (fval_nonneg x). pose proof (fval_nonneg y).
  apply rnd_mono; [apply Z.div_pos; nia|]. apply Z.div_le_mono; [lia|].
  apply Z.mul_le_mono_nonneg; lia.
Qed.

Lemma f64_of_Z_wf n : 0 <= n -> f64_wf (f64_of_Z n).
Proof.
  intros Hn. unfold f64_of_Z. destruct n as [|p|p]; [apply f64_wf_zero| |lia].
  pose proof unit_exp_ge. pose proof (Z.log2_nonneg (Zpos p)).
  apply binary_round_val; lia.
Qed.

(** Conversion from an integer rounds its value. *)
Lemma f64_of_Z_val n : 0 <= n -> fval (f64_of_Z n) = rnd (n * 2 ^ unit_exp).
Proof.
  intros Hn. unfold f64_of_Z. destruct n as [|p|p]; [symmetry; apply rnd_0| |lia].
  pose proof unit_exp_ge. pose proof (Z.log2_nonneg (Zpos p)).
  rewrite <- (Z.add_0_l unit_exp) at 1. apply binary_round_val; lia.
Qed.

(** Every [u64] converts to a finite number. *)
Lemma f64_of_Z_finite n : 0 <= n <= 2 ^ 64 -> f64_finite (f64_of_Z n) = true.
Proof.
  intros Hn. pose proof unit_exp_ge.
  apply fval_finite; [apply f64_of_Z_wf; lia|].
  apply Z.le_lt_trans with (fval (f64_of_Z (2 ^ 64))).
  - rewrite !f64_of_Z_val by lia. pose proof (pow2_pos unit_exp ltac:(lia)).
    apply rnd_mono; [apply Z.mul_nonneg_nonneg; lia|].
    apply Z.mul_le_mono_nonneg_r; lia.
  - apply fval_finite; [apply f64_of_Z_wf; lia|vm_compute; reflexivity].
Qed.

Lemma f64_finite_le x y :
  f64_wf x -> f64_wf y -> f64_finite y = true -> fval x <= fval y -> f64_finite x = true.
Proof. intros Hx Hy Fy Hle. apply fval_finite in Fy; trivial. apply fval_finite; trivial. lia. Qed.

Lemma f64_wf_not_nan x : f64_wf x -> f64_is_nan x = false.
Proof. intros [_ N]. now destruct x. Qed.

Lemma f64_le_trans x y z :
  f64_wf x -> f64_wf y -> f64_wf z ->
  f64_le x y = true -> f64_le y z = true -> f64_le x z = true.
Proof. intros. rewrite f64_le_val, Z.leb_le in * by assumption. lia. Qed.

#[export] Hint Resolve f64_wf_zero f64_add_wf f64_of_Z_wf f64_wf_not_nan : f64.

#[global] Arguments f64_add : simpl never.
#[global] Arguments f64_sub : simpl never.
#[global] Arguments f64_mul : simpl never.
#[global] Arguments f64_div : simpl never.
#[global] Arguments f64_lt : simpl never.
#[global] Arguments f64_gt : simpl never.
#[global] Arguments f64_le : simpl never.
#[global] Arguments f64_max : simpl never.
#[global] Arguments f64_clamp : simpl never.
#[global] Arguments f64_of_Z : simpl never.
#[global] Arguments f64_lit : simpl never.
#[global] Arguments f64_MAX : simpl never.
#[global] Arguments fval : simpl never.
#[global] Arguments rnd : simpl never.
