(* ===== verification/Error.v ===== *)
(** * omnimesh-core: the unified error type ([error.rs])

    [OmniMeshError] with its two classifications and its [Display] text.  The
    payload of [Io] is the message of the wrapped [std::io::Error]. *)

From S2P Require Import Prelude.

Inductive OmniMeshError : Type :=
| Identity (msg : string)
| KeyStoreError (msg : string)
| KeyRotation (msg : string)
| Crypto (msg : string)
| Handshake (msg : string)
| KeyDerivation (msg : string)
| Connection (msg : string)
| Transport (msg : string)
| Timeout (ms : Z)
| Address (msg : string)
| NoRoute (msg : string)
| Routing (msg : string)
| Discovery (msg : string)
| ServiceError (msg : string)
| ConfigError (msg : string)
| Storage (msg : string)
| ProtocolMismatch (local remote : string)
| InvalidPacket (msg : string)
| Io (msg : string)
| Serialization (msg : string)
| Internal (msg : string).

#[global] Instance OmniMeshError_eq_dec : EqDecision OmniMeshError.
Proof. solve_decision. Defined.

(** [omnimesh_core::Result] *)
Abbreviation Result A := (result OmniMeshError A).

Definition is_retryable (e : OmniMeshError) : bool :=
  match e with
  | Connection _ | Timeout _ | Transport _ | Discovery _ | Io _ => true
  | _ => false
  end.

Definition is_security_error (e : OmniMeshError) : bool :=
  match e with
  | Crypto _ | Handshake _ | KeyStoreError _ | InvalidPacket _ => true
  | _ => false
  end.

(** The [#[error(...)]] attributes. *)
Definition error_to_string (e : OmniMeshError) : string :=
  match e with
  | Identity m => "identity error: " +:+ m
  | KeyStoreError m => "keystore error: " +:+ m
  | KeyRotation m => "key rotation error: " +:+ m
  | Crypto m => "crypto error: " +:+ m
  | Handshake m => "handshake error: " +:+ m
  | KeyDerivation m => "key derivation error: " +:+ m
  | Connection m => "connection error: " +:+ m
  | Transport m => "transport error: " +:+ m
  | Timeout ms => "timeout after " +:+ pretty ms +:+ "ms"
  | Address m => "address error: " +:+ m
  | NoRoute m => "no route to peer: " +:+ m
  | Routing m => "routing error: " +:+ m
  | Discovery m => "discovery error: " +:+ m
  | ServiceError m => "service error: " +:+ m
  | ConfigError m => "config error: " +:+ m
  | Storage m => "storage error: " +:+ m
  | ProtocolMismatch l r =>
      "protocol version mismatch: local=" +:+ l +:+ ", remote=" +:+ r
  | InvalidPacket m => "invalid packet: " +:+ m
  | Io m => "I/O error: " +:+ m
  | Serialization m => "serialization error: " +:+ m
  | Internal m => "internal error: " +:+ m
  end.

(** The documented classes are disjoint: a security failure is never retried. *)
Lemma security_not_retryable e : is_security_error e = true → is_retryable e = false.
Proof. by destruct e. Qed.

Example display_timeout : error_to_string (Timeout 3000) = "timeout after 3000ms".
Proof. reflexivity. Qed.

Example display_mismatch :
  error_to_string (ProtocolMismatch "1.0" "2.0")
  = "protocol version mismatch: local=1.0, remote=2.0".
Proof. reflexivity. Qed.
