(* ===== verification/Types.v ===== *)
(** * omnimesh-core: common types ([types.rs])

    Protocol versions, peer identifiers with their textual forms, node records
    and connection states.  The [hex] and [base64] crates are parameters. *)

From S2P Require Import Prelude Error.

(** ** Protocol versions *)

Record ProtocolVersion := mkVersion { major : Z; minor : Z; patch : Z }.

#[global] Instance ProtocolVersion_eq_dec : EqDecision ProtocolVersion.
Proof. solve_decision. Defined.

Definition CURRENT : ProtocolVersion := mkVersion 0 1 0.

Definition is_compatible_with (self other : ProtocolVersion) : bool :=
  bool_decide (major self = major other).

Definition version_to_string (v : ProtocolVersion) : string :=
  pretty (major v) +:+ "." +:+ pretty (minor v) +:+ "." +:+ pretty (patch v).

(** ** Peer identifiers *)

Record PeerId := mkPeerId { peer_bytes : vec byte 32 }.

#[global] Instance PeerId_eq_dec : EqDecision PeerId.
Proof. solve_decision. Defined.

#[global] Program Instance PeerId_countable : Countable PeerId :=
  inj_countable' peer_bytes mkPeerId _.
Next Obligation. by intros []. Qed.

Definition from_bytes (bytes : vec byte 32) : PeerId := mkPeerId bytes.

Definition as_bytes (p : PeerId) : vec byte 32 := peer_bytes p.

(** The [hex] and [base64] crates. *)
Class TextCodecs := {
  hex_encode : list byte → string;
  hex_decode : string → string + list byte;
  base64_encode : list byte → string;
}.

(** What the code relies on: hexadecimal text decodes to the encoded bytes and
    has two characters for each byte. *)
Class TextCodecLaws (T : TextCodecs) : Prop := {
  hex_decode_encode : ∀ bs, hex_decode (hex_encode bs) = inr bs;
  hex_encode_length : ∀ bs, String.length (hex_encode bs) = 2 * length bs;
}.

Section peer_text.
Context `{T : TextCodecs}.

Definition to_hex (p : PeerId) : string := hex_encode (vec_to_list (peer_bytes p)).

Definition from_hex (s : string) : Result PeerId :=
  bytes ← of_lib (λ e, Identity ("invalid hex PeerId: " +:+ e)) (hex_decode s);
  if decide (length bytes ≠ 32) then
    Err (Identity ("PeerId must be 32 bytes, got " +:+ pretty (length bytes)))
  else
    arr ← or_panic (array_of_list 32 bytes);
    Ok (mkPeerId arr).

Definition to_base64 (p : PeerId) : string := base64_encode (vec_to_list (peer_bytes p)).

(** [&s[..n]] on a string of one-byte characters: panics when out of range. *)
Definition str_prefix (n : nat) (s : string) : Result string :=
  if decide (n ≤ String.length s) then Ok (String.substring 0 n s) else Panic.

Definition short (p : PeerId) : Result string := str_prefix 8 (to_hex p).

(** [Display for PeerId] *)
Definition peer_display (p : PeerId) : string := to_hex p.

(** [Debug for PeerId] *)
Definition peer_debug (p : PeerId) : Result string :=
  s ← str_prefix 8 (to_hex p); Ok ("PeerId(" +:+ s +:+ "…)").

End peer_text.

(** ** Node records and connection states *)

Record NodeInfo := mkNodeInfo {
  ni_peer_id : PeerId;
  ni_name : string;
  ni_version : ProtocolVersion;
  ni_addresses : list string;
  ni_last_seen : Z;
  ni_is_relay : bool;
}.

Inductive ConnectionState := Disconnected | Connecting | Connected | Disconnecting.

#[global] Instance ConnectionState_eq_dec : EqDecision ConnectionState.
Proof. solve_decision. Defined.

Definition state_to_string (s : ConnectionState) : string :=
  match s with
  | Disconnected => "disconnected"
  | Connecting => "connecting"
  | Connected => "connected"
  | Disconnecting => "disconnecting"
  end.

(** ** Socket addresses *)

(** [std::net::IpAddr] and [std::net::SocketAddr]. *)
Inductive IpAddr := IPv4 (octets : vec byte 4) | IPv6 (octets : vec byte 16).

#[global] Instance IpAddr_eq_dec : EqDecision IpAddr.
Proof. solve_decision. Defined.

Record SocketAddr := mkSocketAddr { sock_ip : IpAddr; sock_port : Z }.

#[global] Instance SocketAddr_eq_dec : EqDecision SocketAddr.
Proof. solve_decision. Defined.

#[global] Program Instance IpAddr_countable : Countable IpAddr :=
  inj_countable' (λ a, match a with IPv4 o => inl o | IPv6 o => inr o end)
                 (λ s, match s with inl o => IPv4 o | inr o => IPv6 o end) _.
Next Obligation. by intros []. Qed.

#[global] Program Instance SocketAddr_countable : Countable SocketAddr :=
  inj_countable' (λ a, (sock_ip a, sock_port a)) (λ p, mkSocketAddr p.1 p.2) _.
Next Obligation. by intros []. Qed.

(** *** Display, as [std::net] prints addresses *)

Definition byte_to_N (b : byte) : N := Byte.to_N b.

Definition ipv4_to_string (octets : vec byte 4) : string :=
  match vec_to_list octets with
  | [a; b; c; d] => pretty (byte_to_N a) +:+ "." +:+ pretty (byte_to_N b) +:+ "." +:+
                    pretty (byte_to_N c) +:+ "." +:+ pretty (byte_to_N d)
  | _ => ""
  end.

Definition hex_digit (n : N) : string :=
  String.substring (N.to_nat n) 1 "0123456789abcdef".

(** A 16-bit group in lower-case hexadecimal, without leading zeros. *)
Definition hex_group (n : N) : string :=
  (if decide (4096 ≤ n)%N then hex_digit (n / 4096) else "") +:+
  (if decide (256 ≤ n)%N then hex_digit (n / 256 mod 16) else "") +:+
  (if decide (16 ≤ n)%N then hex_digit (n / 16 mod 16) else "") +:+ hex_digit (n mod 16).

Fixpoint ipv6_groups (bs : list byte) : list N :=
  match bs with
  | a :: b :: bs => (byte_to_N a * 256 + byte_to_N b)%N :: ipv6_groups bs
  | _ => []
  end.

(** The first longest run of zero groups: where it starts and how long it is. *)
Fixpoint zero_span (gs : list N) (pos : nat) (current best : nat * nat) : nat * nat :=
  match gs with
  | [] => best
  | g :: gs =>
      if decide (g = 0%N) then
        let current := (if decide (current.2 = 0) then pos else current.1, current.2 + 1) in
        zero_span gs (pos + 1) current (if decide (best.2 < current.2) then current else best)
      else zero_span gs (pos + 1) (0, 0) best
  end.

Definition join_groups (gs : list N) : string := String.concat ":" (map hex_group gs).

Definition ipv6_to_string (octets : vec byte 16) : string :=
  let bs := vec_to_list octets in
  let gs := ipv6_groups bs in
  match gs, array_of_list 4 (drop 12 bs) with
  | [0; 0; 0; 0; 0; 65535; _; _]%N, Some v4 => "::ffff:" +:+ ipv4_to_string v4
  | _, _ =>
      let '(start, len) := zero_span gs 0 (0, 0) (0, 0) in
      if decide (1 < len) then
        join_groups (take start gs) +:+ "::" +:+ join_groups (drop (start + len) gs)
      else join_groups gs
  end.

Definition socket_to_string (a : SocketAddr) : string :=
  match sock_ip a with
  | IPv4 o => ipv4_to_string o +:+ ":" +:+ pretty (sock_port a)
  | IPv6 o => "[" +:+ ipv6_to_string o +:+ "]:" +:+ pretty (sock_port a)
  end.

Example display_v4 :
  socket_to_string (mkSocketAddr (IPv4 [# Byte.x7f; Byte.x00; Byte.x00; Byte.x01]) 9999)
  = "127.0.0.1:9999".
Proof. vm_compute. reflexivity. Qed.

Example display_v6 :
  ipv6_to_string [# Byte.xfd; Byte.x4f; Byte.x4d; Byte.x00; Byte.x00; Byte.x00; Byte.x00; Byte.x00;
                    Byte.x00; Byte.x0a; Byte.x00; Byte.x00; Byte.x00; Byte.x00; Byte.x0b; Byte.x01]
  = "fd4f:4d00::a:0:0:b01".
Proof. vm_compute. reflexivity. Qed.

(** ** Properties *)

(** Compatibility is an equivalence: two nodes agree on it, and a third node
    compatible with one of two compatible nodes is compatible with the other. *)
Lemma compatible_equivalence :
  (∀ v, is_compatible_with v v = true) ∧
  (∀ v w, is_compatible_with v w = is_compatible_with w v) ∧
  (∀ u v w, is_compatible_with u v = true → is_compatible_with v w = true →
            is_compatible_with u w = true).
Proof.
  unfold is_compatible_with. repeat split; intros.
  - by apply bool_decide_eq_true.
  - apply bool_decide_ext. naive_solver.
  - rewrite bool_decide_eq_true in *. congruence.
Qed.

Section peer_text_facts.
Context `{T : TextCodecs, !TextCodecLaws T}.

Lemma from_hex_to_hex p : from_hex (to_hex p) = Ok p.
Proof.
  unfold from_hex, to_hex. rewrite hex_decode_encode. cbn.
  rewrite decide_False by (rewrite length_vec_to_list; lia).
  rewrite array_of_vec. by destruct p.
Qed.

Lemma to_hex_inj p q : to_hex p = to_hex q → p = q.
Proof.
  intros E. pose proof (from_hex_to_hex p) as Hp. rewrite E, from_hex_to_hex in Hp. congruence.
Qed.

(** Text that decodes to another number of bytes is an error value, never a panic. *)
Lemma from_hex_total s : from_hex s ≠ Panic.
Proof.
  unfold from_hex. destruct (hex_decode s) as [e|bs]; cbn; [done|].
  case_decide as H; [done|].
  destruct (array_of_list_length 32 bs) as [v ->]; [|done].
  destruct (decide (length bs = 32)); naive_solver.
Qed.

Lemma short_ok p : ∃ s, short p = Ok s ∧ String.length s = 8.
Proof.
  unfold short, str_prefix. set (h := to_hex p).
  assert (Hl : String.length h = 64).
  { unfold h, to_hex. by rewrite hex_encode_length, length_vec_to_list. }
  rewrite decide_True by lia. eexists; split; [done|].
  assert (Hs : ∀ n s, n ≤ String.length s → String.length (String.substring 0 n s) = n).
  { clear. induction n as [|n IH]; intros [|c s] H; simpl in *; try lia.
    rewrite IH; lia. }
  apply Hs. lia.
Qed.

End peer_text_facts.

(** ** A codec that meets the laws, for the witnesses *)

(** The two lower-case digits of a byte, as the [hex] crate writes them. *)
Definition nibble_char (n : N) : Ascii.ascii :=
  default Ascii.zero (String.get (N.to_nat n) "0123456789abcdef").

Definition hex_byte (b : byte) : Ascii.ascii * Ascii.ascii :=
  (nibble_char (Byte.to_N b / 16), nibble_char (Byte.to_N b mod 16)).

Definition digit_value (c : Ascii.ascii) : option N :=
  N.of_nat <$> String.index 0 (String.String c String.EmptyString) "0123456789abcdef".

Fixpoint hex_text (bs : list byte) : string :=
  match bs with
  | [] => String.EmptyString
  | b :: bs => String.String (hex_byte b).1 (String.String (hex_byte b).2 (hex_text bs))
  end.

Fixpoint hex_bytes (s : string) : option (list byte) :=
  match s with
  | String.EmptyString => Some []
  | String.String h (String.String l s) =>
      x ← digit_value h; y ← digit_value l; b ← Byte.of_N (16 * x + y); bs ← hex_bytes s;
      Some (b :: bs)
  | _ => None
  end.

Definition lower_hex : TextCodecs := {|
  hex_encode := hex_text;
  hex_decode s := match hex_bytes s with Some bs => inr bs | None => inl "Invalid character"%string end;
  base64_encode _ := String.EmptyString;
|}.

Lemma hex_bytes_text bs : hex_bytes (hex_text bs) = Some bs.
Proof.
  induction bs as [|b bs IH]; [done|]. cbn [hex_text hex_bytes]. rewrite IH. by destruct b.
Qed.

Lemma lower_hex_laws : TextCodecLaws lower_hex.
Proof.
  split.
  - intros bs. cbn. by rewrite hex_bytes_text.
  - cbn. induction bs as [|b bs IH]; cbn; lia.
Qed.

Example lower_hex_text : to_hex (T := lower_hex) (mkPeerId (vreplicate 32 Byte.x4f)) =
  "4f4f4f4f4f4f4f4f4f4f4f4f4f4f4f4f4f4f4f4f4f4f4f4f4f4f4f4f4f4f4f4f"%string.
Proof. reflexivity. Qed.
