(* ===== verification/Metrics.v ===== *)
(** * omnimesh-routing: link metrics and their smoothing ([metrics.rs])

    The composite link cost and the exponential-moving-average tracker, in
    binary64 arithmetic.  The facts below are what the route computation needs:
    the divisor guard holds for every bandwidth value, a sane link has a
    non-negative cost, and the tracker keeps its averages in range. *)

From Stdlib Require Import SpecFloat.
From S2P Require Import Prelude Float64.

(** ** Definitions *)

Definition EMA_ALPHA : f64 := f64_lit 2 10.

Record LinkMetrics := mkLinkMetrics {
  latency_ms : f64;
  bandwidth_kbps : f64;
  loss_rate : f64;
  relay_cost : f64;
}.

Definition LinkMetrics_default : LinkMetrics :=
  mkLinkMetrics (f64_of_Z 10) (f64_of_Z 10000) f64_zero f64_zero.

Definition bw_mbps (m : LinkMetrics) : f64 :=
  f64_max (f64_div (bandwidth_kbps m) (f64_of_Z 1000)) (f64_lit 1 10).

Definition cost (m : LinkMetrics) : f64 :=
  f64_add
    (f64_div (f64_mul (latency_ms m) (f64_add (f64_of_Z 1) (loss_rate m))) (bw_mbps m))
    (relay_cost m).

Record LinkMetricTracker := mkTracker {
  latency_ema : f64;
  bandwidth_ema : f64;
  loss_rate_ema : f64;
  tr_relay_cost : f64;
}.

(** [LinkMetricTracker::new] *)
Definition tracker_new (initial : LinkMetrics) : LinkMetricTracker :=
  mkTracker (latency_ms initial) (bandwidth_kbps initial) (loss_rate initial)
            (relay_cost initial).

Definition tracker_default : LinkMetricTracker :=
  let def := LinkMetrics_default in
  mkTracker (latency_ms def) (bandwidth_kbps def) (loss_rate def) (relay_cost def).

(** [EMA_ALPHA * measurement + (1.0 - EMA_ALPHA) * average] *)
Definition ema (measurement average : f64) : f64 :=
  f64_add (f64_mul EMA_ALPHA measurement)
          (f64_mul (f64_sub (f64_of_Z 1) EMA_ALPHA) average).

Definition record_latency (measurement : f64) (t : LinkMetricTracker) : LinkMetricTracker :=
  mkTracker (ema measurement (latency_ema t)) (bandwidth_ema t) (loss_rate_ema t)
            (tr_relay_cost t).

Definition record_bandwidth (measurement : f64) (t : LinkMetricTracker) : LinkMetricTracker :=
  mkTracker (latency_ema t) (ema measurement (bandwidth_ema t)) (loss_rate_ema t)
            (tr_relay_cost t).

Definition record_loss_rate (measurement : f64) (t : LinkMetricTracker) : LinkMetricTracker :=
  let clamped := f64_clamp measurement f64_zero (f64_of_Z 1) in
  mkTracker (latency_ema t) (bandwidth_ema t) (ema clamped (loss_rate_ema t))
            (tr_relay_cost t).

Definition set_relay_cost (c : f64) (t : LinkMetricTracker) : LinkMetricTracker :=
  mkTracker (latency_ema t) (bandwidth_ema t) (loss_rate_ema t) c.

Definition metrics (t : LinkMetricTracker) : LinkMetrics :=
  mkLinkMetrics (latency_ema t) (bandwidth_ema t) (loss_rate_ema t) (tr_relay_cost t).

Definition tracker_cost (t : LinkMetricTracker) : f64 := cost (metrics t).

#[global] Arguments cost : simpl never.
#[global] Arguments ema : simpl never.

(** ** Examples from the unit tests *)

Example composite_cost :
  cost (mkLinkMetrics (f64_of_Z 20) (f64_of_Z 2000) (f64_lit 5 10) (f64_of_Z 5)) = f64_of_Z 20.
Proof. vm_compute. reflexivity. Qed.

Example zero_bandwidth_guard :
  cost (mkLinkMetrics (f64_of_Z 10) f64_zero f64_zero f64_zero) = f64_of_Z 100.
Proof. vm_compute. reflexivity. Qed.

Example ema_smoothing :
  latency_ema (record_latency (f64_of_Z 20)
    (tracker_new (mkLinkMetrics (f64_of_Z 10) (f64_of_Z 1000) f64_zero f64_zero)))
  = f64_of_Z 12.
Proof. vm_compute. reflexivity. Qed.

(** The binary64 test [13.6] of the source, with its tolerance [1e-9]. *)
Example ema_smoothing_twice :
  let t := record_latency (f64_of_Z 20) (record_latency (f64_of_Z 20)
    (tracker_new (mkLinkMetrics (f64_of_Z 10) (f64_of_Z 1000) f64_zero f64_zero))) in
  f64_lt (SFabs (f64_sub (latency_ms (metrics t)) (f64_lit 136 10)))
         (f64_lit 1 1000000000) = true.
Proof. vm_compute. reflexivity. Qed.

(** ** Sane links *)

(** Latency a finite non-negative number, loss a fraction, relay cost
    non-negative, and any bandwidth at all but plus infinity. *)
Definition sane_link (m : LinkMetrics) : bool :=
  f64_valid (latency_ms m) && f64_nonneg (latency_ms m) && f64_finite (latency_ms m)
  && f64_valid (bandwidth_kbps m)
  && negb (f64_is_pos_inf (bandwidth_kbps m))
  && f64_valid (loss_rate m) && f64_nonneg (loss_rate m)
  && f64_le (loss_rate m) (f64_of_Z 1)
  && f64_valid (relay_cost m) && f64_nonneg (relay_cost m).

Lemma one_wf : f64_wf (f64_of_Z 1).
Proof. split; reflexivity. Qed.

Lemma tenth_wf : f64_wf (f64_lit 1 10).
Proof. split; reflexivity. Qed.

#[local] Hint Resolve one_wf tenth_wf : f64.

(** *** The divisor guard *)

(** Dividing a negative number gives nothing positive. *)
Lemma div_negative x my ey :
  f64_nonneg x = false →
  f64_is_nan (f64_div x (S754_finite false my ey)) = true ∨
  f64_lt (f64_div x (S754_finite false my ey)) (f64_lit 1 10) = true.
Proof.
  intros Hx. destruct x as [s|[]| |[] m e]; try discriminate; [by right|by left|].
  unfold f64_div. cbn [SFdiv xorb].
  destruct (SFdiv_core_binary _ _ _ _ _ _) as [[q e1] l].
  pose proof (round_aux_sign true q e1 l) as Hs.
  destruct (binary_round_aux _ _ _ _ _ _) as [s|s| |s m1 e2]; subst; first [by right|by left].
Qed.

(** Whatever the bandwidth field holds (zero, negative, NaN), the divisor of the
    cost formula is a finite number of at least 0.1. *)
Lemma bw_mbps_guard m :
  f64_valid (bandwidth_kbps m) = true → f64_is_pos_inf (bandwidth_kbps m) = false →
  f64_wf (bw_mbps m) ∧ f64_finite (bw_mbps m) = true ∧
  (fval (f64_lit 1 10) ≤ fval (bw_mbps m))%Z.
Proof.
  intros V Hinf. unfold bw_mbps.
  assert (E : f64_of_Z 1000 = S754_finite false 8796093022208000 (-43)) by done.
  assert (Ht : f64_wf (f64_lit 1 10) ∧ f64_finite (f64_lit 1 10) = true ∧
               (fval (f64_lit 1 10) ≤ fval (f64_lit 1 10))%Z) by (split_and!; done).
  rewrite E. set (d := S754_finite false 8796093022208000 (-43)). unfold f64_max. destruct (f64_nonneg (bandwidth_kbps m)) eqn:N.
  - assert (W : f64_wf (bandwidth_kbps m)) by done.
    assert (F : f64_finite (bandwidth_kbps m) = true)
      by (destruct (bandwidth_kbps m) as [|[]| |]; naive_solver).
    assert (W1 : f64_wf (f64_div (bandwidth_kbps m) d)).
    { apply f64_div_wf; [done|by split|by apply (fval_finite_lt false)|by rewrite F]. }
    rewrite (f64_wf_not_nan _ W1). change (f64_is_nan (f64_lit 1 10)) with false. cbv iota.
    rewrite f64_lt_val by auto with f64.
    destruct (Z.ltb_spec (fval (f64_div (bandwidth_kbps m) d)) (fval (f64_lit 1 10))); [done|].
    split; [done|]. split; [|done]. by apply f64_div_finite.
  - destruct (div_negative (bandwidth_kbps m) 8796093022208000 (-43) N) as [Hn|Hl].
    + fold d in Hn. by rewrite Hn.
    + fold d in Hl. destruct (f64_is_nan _); [done|].
      change (f64_is_nan (f64_lit 1 10)) with false. cbv iota. by rewrite Hl.
Qed.

(** *** The cost of a sane link *)

Lemma cost_wf m : sane_link m = true → f64_wf (cost m).
Proof.
  unfold sane_link. rewrite !andb_true_iff, negb_true_iff.
  intros (((((((((Vl & Nl) & Fl) & Vb) & Hb) & Vp) & Np) & Hp) & Vr) & Nr).
  destruct (bw_mbps_guard m Vb Hb) as (Wb & Fb & Gb).
  assert (Wp : f64_wf (loss_rate m)) by done.
  rewrite f64_le_val, Z.leb_le in Hp by auto with f64.
  assert (Wf : f64_wf (f64_add (f64_of_Z 1) (loss_rate m))) by auto with f64.
  assert (Ff : f64_finite (f64_add (f64_of_Z 1) (loss_rate m)) = true).
  { apply f64_finite_le with (f64_add (f64_of_Z 1) (f64_of_Z 1)); try done; auto with f64.
    apply f64_add_mono; auto with f64; lia. }
  unfold cost. apply f64_add_wf; [|done].
  apply f64_div_wf; [by apply f64_mul_val|done| |by rewrite Fb, orb_true_r].
  apply Z.lt_le_trans with (2 := Gb). by apply (fval_finite_lt false).
Qed.

(** *** The moving average *)

Lemma alpha_wf : f64_wf EMA_ALPHA ∧ f64_finite EMA_ALPHA = true.
Proof. by vm_compute. Qed.

Lemma beta_wf : f64_wf (f64_sub (f64_of_Z 1) EMA_ALPHA) ∧
  f64_finite (f64_sub (f64_of_Z 1) EMA_ALPHA) = true.
Proof. by vm_compute. Qed.

(** If averaging the bound with itself does not exceed the bound, averages of
    values up to the bound stay below it. *)
Lemma ema_bounded b x y :
  f64_wf b → f64_finite b = true → f64_le (ema b b) b = true →
  f64_wf x → f64_wf y → (fval x ≤ fval b)%Z → (fval y ≤ fval b)%Z →
  f64_wf (ema x y) ∧ (fval (ema x y) ≤ fval b)%Z.
Proof.
  intros Wb Fb Hb Wx Wy Hx Hy.
  assert (Fx := f64_finite_le x b Wx Wb Fb Hx). assert (Fy := f64_finite_le y b Wy Wb Fb Hy).
  destruct alpha_wf as [Wa Fa], beta_wf as [Wc Fc].
  assert (Hmul : ∀ a z, f64_wf a → f64_finite a = true → f64_wf z → f64_finite z = true →
            f64_wf (f64_mul a z)) by (intros; by apply f64_mul_val).
  assert (Wbb : f64_wf (ema b b)) by (apply f64_add_wf; auto).
  split; [apply f64_add_wf; auto|].
  rewrite f64_le_val, Z.leb_le in Hb by done.
  apply Z.le_trans with (2 := Hb). apply f64_add_mono; auto; apply f64_mul_mono; auto; lia.
Qed.

Lemma ema_max : f64_le (ema f64_MAX f64_MAX) f64_MAX = true.
Proof. vm_compute. reflexivity. Qed.

Lemma max_wf : f64_wf f64_MAX.
Proof. split; reflexivity. Qed.

(** [f64::MAX] is the largest finite number. *)
Lemma finite_le_max x : f64_wf x → f64_finite x = true → (fval x ≤ fval f64_MAX)%Z.
Proof.
  intros [V N] F. destruct x as [s|[]| |[] m e]; try discriminate.
  - apply fval_nonneg.
  - apply valid_finite in V as (He & Hm & _). pose proof unit_exp_ge.
    change (fval f64_MAX) with (9007199254740991 * 2 ^ (971 + unit_exp))%Z. cbn [fval].
    apply Z.mul_le_mono_nonneg; [lia| |apply Z.pow_nonneg; lia|apply pow2_le; lia].
    change (2 ^ 53)%Z with 9007199254740992%Z in Hm. lia.
Qed.

Lemma ema_finite x y :
  f64_wf x → f64_finite x = true → f64_wf y → f64_finite y = true →
  f64_wf (ema x y) ∧ f64_finite (ema x y) = true.
Proof.
  intros Wx Fx Wy Fy.
  destruct (ema_bounded f64_MAX x y) as [W H];
    auto using max_wf, ema_max, finite_le_max.
  split; [done|]. by apply (f64_finite_le _ f64_MAX); auto using max_wf.
Qed.

(** *** Clamping a loss rate *)

Lemma clamp_unit x :
  f64_valid x = true → f64_is_nan x = false →
  f64_wf (f64_clamp x f64_zero (f64_of_Z 1)) ∧
  (fval (f64_clamp x f64_zero (f64_of_Z 1)) ≤ fval (f64_of_Z 1))%Z.
Proof.
  intros V N. unfold f64_clamp, f64_gt.
  destruct (f64_nonneg x) eqn:Nn.
  - assert (W : f64_wf x) by done.
    fold (f64_lt x f64_zero). rewrite (f64_lt_val x f64_zero) by auto with f64.
    replace (fval x <? fval f64_zero)%Z with false
      by (symmetry; apply Z.ltb_ge; apply fval_nonneg).
    change (SFltb (f64_of_Z 1) x) with (f64_lt (f64_of_Z 1) x).
    rewrite f64_lt_val by auto with f64.
    destruct (Z.ltb_spec (fval (f64_of_Z 1)) (fval x)); auto with f64 lia.
  - assert (f64_lt x f64_zero = true) as ->
      by (destruct x as [|[]| |[]]; done).
    change (SFltb (f64_of_Z 1) f64_zero) with false. cbv iota.
    split; [apply f64_wf_zero|]. apply fval_nonneg.
Qed.

(** ** The tracker as a state machine *)

(** The averages a tracker may hold: finite non-negative latency and bandwidth,
    a loss rate in [0, 1], a non-negative relay cost. *)
Definition tracker_ok (t : LinkMetricTracker) : Prop :=
  (f64_wf (latency_ema t) ∧ f64_finite (latency_ema t) = true) ∧
  (f64_wf (bandwidth_ema t) ∧ f64_finite (bandwidth_ema t) = true) ∧
  (f64_wf (loss_rate_ema t) ∧ (fval (loss_rate_ema t) ≤ fval (f64_of_Z 1))%Z) ∧
  f64_wf (tr_relay_cost t).

(** The trackers a program can build: from the defaults or from sane initial
    metrics, by recording finite non-negative latencies and bandwidths, any loss
    rate that is not NaN, and non-negative relay costs. *)
Inductive tracker_reachable : LinkMetricTracker → Prop :=
| reach_default : tracker_reachable tracker_default
| reach_new m :
    sane_link m = true → f64_nonneg (bandwidth_kbps m) = true →
    tracker_reachable (tracker_new m)
| reach_latency x t :
    f64_wf x → f64_finite x = true →
    tracker_reachable t → tracker_reachable (record_latency x t)
| reach_bandwidth x t :
    f64_wf x → f64_finite x = true →
    tracker_reachable t → tracker_reachable (record_bandwidth x t)
| reach_loss x t :
    f64_valid x = true → f64_is_nan x = false →
    tracker_reachable t → tracker_reachable (record_loss_rate x t)
| reach_relay x t :
    f64_wf x → tracker_reachable t → tracker_reachable (set_relay_cost x t).

Lemma ema_one : f64_le (ema (f64_of_Z 1) (f64_of_Z 1)) (f64_of_Z 1) = true.
Proof. vm_compute. reflexivity. Qed.

Lemma loss_ok x t :
  f64_valid x = true → f64_is_nan x = false →
  f64_wf (loss_rate_ema t) → (fval (loss_rate_ema t) ≤ fval (f64_of_Z 1))%Z →
  f64_wf (loss_rate_ema (record_loss_rate x t)) ∧
  (fval (loss_rate_ema (record_loss_rate x t)) ≤ fval (f64_of_Z 1))%Z.
Proof.
  intros V N W H. destruct (clamp_unit x V N) as [Wc Hc].
  apply ema_bounded; auto using one_wf, ema_one.
Qed.

Lemma sane_link_ok m :
  sane_link m = true → f64_nonneg (bandwidth_kbps m) = true → tracker_ok (tracker_new m).
Proof.
  unfold sane_link. rewrite !andb_true_iff, negb_true_iff.
  intros (((((((((Vl & Nl) & Fl) & Vb) & Hb) & Vp) & Np) & Hp) & Vr) & Nr) Nb.
  assert (Wp : f64_wf (loss_rate m)) by done.
  rewrite f64_le_val, Z.leb_le in Hp by auto with f64.
  unfold tracker_ok, f64_wf; cbn. split_and!; try done.
  by destruct (bandwidth_kbps m) as [|[]| |].
Qed.

Lemma tracker_reachable_inv t : tracker_reachable t → tracker_ok t.
Proof.
  induction 1 as [|m Hs Hb|x t W F _ (Hl & Hb & Hp & Hr)|x t W F _ (Hl & Hb & Hp & Hr)
                 |x t V N _ (Hl & Hb & Hp & Hr)|x t W _ (Hl & Hb & Hp & Hr)];
    [|by apply sane_link_ok|unfold tracker_ok; cbn ..].
  - apply (sane_link_ok LinkMetrics_default); reflexivity.
  - split; [apply ema_finite; tauto|tauto].
  - split; [tauto|]. split; [apply ema_finite; tauto|tauto].
  - split; [tauto|]. split; [tauto|]. split; [apply loss_ok; tauto|tauto].
  - tauto.
Qed.

Lemma tracker_ok_sane t : tracker_ok t → sane_link (metrics t) = true.
Proof.
  intros ([[Vl Nl] Fl] & [[Vb Nb] Fb] & [[Vp Np] Hp] & [Vr Nr]).
  unfold sane_link, metrics. cbn [latency_ms bandwidth_kbps loss_rate relay_cost].
  rewrite Vl, Nl, Fl, Vb, Vp, Np, Vr, Nr.
  rewrite f64_le_val, (proj2 (Z.leb_le _ _) Hp) by first [by split | apply one_wf].
  by destruct (bandwidth_ema t) as [|[]| |].
Qed.

(** C13: Whatever finite non-negative latencies and bandwidths and whatever
    non-NaN loss rates are recorded, a tracker's averages stay finite and
    non-negative, its loss rate stays a fraction between 0 and 1 (in binary64,
    rounding included), and the composite cost it reports is a non-negative
    number, never NaN. *)
Theorem tracker_stays_sane t :
  tracker_reachable t →
  tracker_ok t ∧ sane_link (metrics t) = true ∧ f64_wf (tracker_cost t).
Proof.
  intros H%tracker_reachable_inv.
  split; [done|]. split; [by apply tracker_ok_sane|]. by apply cost_wf, tracker_ok_sane.
Qed.

Lemma tracker_stays_sane_witness :
  let t := record_loss_rate (f64_lit 7 2) (record_latency (f64_of_Z 20) tracker_default) in
  tracker_ok t ∧ sane_link (metrics t) = true ∧ f64_wf (tracker_cost t).
Proof.
  apply tracker_stays_sane.
  apply reach_loss; [reflexivity|reflexivity|].
  apply reach_latency; [split; reflexivity|reflexivity|]. apply reach_default.
Defined.

(** The NaN absorbs every later operation. *)
Lemma ema_nan_l x : ema S754_nan x = S754_nan.
Proof. unfold ema. cbn. by destruct (f64_mul _ x). Qed.

Lemma ema_nan_r x : ema x S754_nan = S754_nan.
Proof.
  unfold ema. replace (f64_mul (f64_sub _ _) S754_nan) with S754_nan by done.
  by destruct (f64_mul EMA_ALPHA x).
Qed.

Lemma cost_nan_loss m : loss_rate m = S754_nan → cost m = S754_nan.
Proof.
  intros E. unfold cost. rewrite E.
  replace (f64_add (f64_of_Z 1) S754_nan) with S754_nan by done.
  replace (f64_mul (latency_ms m) S754_nan) with S754_nan by by destruct (latency_ms m).
  done.
Qed.

(** The clamp of [record_loss_rate] does not stop a NaN measurement: one NaN
    makes the tracked loss rate and the link cost NaN, and no sequence of later
    measurements brings them back. *)
Theorem loss_rate_nan_sticks t (later : list f64) :
  let t' := foldl (λ t x, record_loss_rate x t) (record_loss_rate S754_nan t) later in
  loss_rate_ema t' = S754_nan ∧ tracker_cost t' = S754_nan.
Proof.
  intros t'. assert (H : loss_rate_ema t' = S754_nan).
  { subst t'. induction later as [|x later IH] using rev_ind.
    - apply ema_nan_l.
    - rewrite foldl_snoc. cbn. rewrite IH. apply ema_nan_r. }
  split; [done|]. by apply cost_nan_loss.
Qed.
