(* ===== verification/Graph.v ===== *)
(** * omnimesh-routing: the route graph and its shortest paths ([graph.rs])

    [RouteGraph] with its link operations, and [find_shortest_path] exactly as
    the source writes it: a lazy-deletion Dijkstra over a [BinaryHeap] with
    binary64 costs, followed by the predecessor walk.  Both loops take fuel;
    [None] means that the loop has not finished within it.

    [BinaryHeap] is an interface ([Heap] with [HeapLaws]) and the iteration
    order over the neighbours of a node is arbitrary ([NeighbourOrder]), so the
    theorems hold for every tie-breaking and every hash order. *)

From Stdlib Require Import SpecFloat.
From S2P Require Import Prelude Float64 Error Types Metrics.

(** ** The search heap *)

Record SearchState := mkState { st_cost : f64; st_node : PeerId }.

(** [Ord::cmp]: reversed, so that the greatest state is the cheapest. *)
Definition search_cmp (self other : SearchState) : comparison :=
  default Eq (f64_partial_cmp (st_cost other) (st_cost self)).

(** [BinaryHeap<SearchState>]. *)
Class Heap := {
  heap : Type;
  heap_new : heap;
  heap_push : SearchState → heap → heap;
  heap_pop : heap → option (SearchState * heap);
}.

(** Its contract: the heap is a multiset, and [pop] removes a greatest element.
    The order of [Ord] is meaningful on non-NaN costs only. *)
Class HeapLaws (H : Heap) := {
  heap_elems : heap → list SearchState;
  heap_new_elems : heap_elems heap_new = [];
  heap_push_elems : ∀ x h, heap_elems (heap_push x h) ≡ₚ x :: heap_elems h;
  heap_pop_none : ∀ h, heap_pop h = None → heap_elems h = [];
  heap_pop_some : ∀ h x h', heap_pop h = Some (x, h') → heap_elems h ≡ₚ x :: heap_elems h';
  heap_pop_max : ∀ h x h',
    heap_pop h = Some (x, h') →
    (∀ y, y ∈ heap_elems h → f64_is_nan (st_cost y) = false) →
    ∀ y, y ∈ heap_elems h' → search_cmp y x ≠ Gt;
}.

(** ** The graph *)

Record RouteGraph := mkGraph { edges : gmap PeerId (gmap PeerId LinkMetrics) }.

(** [for (neighbour, metrics) in neighbours]: the order a node's map iterates in. *)
Class NeighbourOrder :=
  neighbours_iter : PeerId → gmap PeerId LinkMetrics → list (PeerId * LinkMetrics).

Class NeighbourOrderLaws (O : NeighbourOrder) : Prop :=
  neighbours_iter_perm : ∀ u m, neighbours_iter u m ≡ₚ map_to_list m.

Definition graph_new : RouteGraph := mkGraph ∅.

Definition add_link (from to : PeerId) (m : LinkMetrics) (g : RouteGraph) : RouteGraph :=
  mkGraph (<[from := <[to := m]> (default ∅ (edges g !! from))]> (edges g)).

Definition remove_link (from to : PeerId) (g : RouteGraph) : RouteGraph :=
  match edges g !! from with
  | Some neighbours =>
      let neighbours := delete to neighbours in
      if decide (neighbours = ∅) then mkGraph (delete from (edges g))
      else mkGraph (<[from := neighbours]> (edges g))
  | None => g
  end.

Definition get_link (g : RouteGraph) (from to : PeerId) : option LinkMetrics :=
  neighbours ← edges g !! from; neighbours !! to.

(** ** Shortest paths *)

Section search.
Context `{HP : Heap, NO : NeighbourOrder}.

Record SearchVars := mkVars {
  distances : gmap PeerId f64;
  predecessors : gmap PeerId PeerId;
  queue : heap;
}.

(** One iteration of the loop over the neighbours of [node]. *)
Definition relax_link (cost : f64) (node : PeerId) (s : SearchVars)
    (link : PeerId * LinkMetrics) : SearchVars :=
  let '(neighbour, metrics) := link in
  let next_cost := f64_add cost (Metrics.cost metrics) in
  let current_best := default f64_MAX (distances s !! neighbour) in
  if f64_lt next_cost current_best then
    mkVars (<[neighbour := next_cost]> (distances s))
           (<[neighbour := node]> (predecessors s))
           (heap_push (mkState next_cost neighbour) (queue s))
  else s.

Definition relax_links (cost : f64) (node : PeerId) (links : list (PeerId * LinkMetrics))
    (s : SearchVars) : SearchVars :=
  foldl (relax_link cost node) s links.

(** [while let Some(pred) = predecessors.get(&current)]; [path] grows at its end. *)
Fixpoint walk_back (fuel : nat) (preds : gmap PeerId PeerId) (current : PeerId)
    (path : list PeerId) : option (list PeerId) :=
  match fuel with
  | O => None
  | S fuel =>
      match preds !! current with
      | Some pred => walk_back fuel preds pred (path ++ [pred])
      | None => Some path
      end
  end.

(** [while let Some(SearchState { cost, node }) = heap.pop()] *)
Fixpoint search (walk_fuel fuel : nat) (g : RouteGraph) (target : PeerId) (s : SearchVars)
    : option (option (list PeerId)) :=
  match fuel with
  | O => None
  | S fuel =>
      match heap_pop (queue s) with
      | None => Some None
      | Some (mkState cost node, q) =>
          let s := mkVars (distances s) (predecessors s) q in
          if decide (node = target) then
            path ← walk_back walk_fuel (predecessors s) node [node];
            Some (Some (reverse path))
          else
            let stale :=
              match distances s !! node with
              | Some best_dist => f64_gt cost best_dist
              | None => false
              end in
            if stale then search walk_fuel fuel g target s
            else
              match edges g !! node with
              | Some neighbours =>
                  search walk_fuel fuel g target
                    (relax_links cost node (neighbours_iter node neighbours) s)
              | None => search walk_fuel fuel g target s
              end
      end
  end.

Definition find_shortest_path (fuel : nat) (g : RouteGraph) (start target : PeerId)
    : option (option (list PeerId)) :=
  search (S fuel) fuel g target
    (mkVars {[start := f64_zero]} ∅ (heap_push (mkState f64_zero start) heap_new)).

End search.

(** ** Walks and their cost *)

(** A walk from [s] to the node, the cost the code accumulates along it (left to
    right, from [0.0], each addition rounded) and its nodes. *)
Inductive walk (g : RouteGraph) (s : PeerId) : PeerId → f64 → list PeerId → Prop :=
| walk_start : walk g s s f64_zero [s]
| walk_snoc u v m c p :
    walk g s u c p → get_link g u v = Some m →
    walk g s v (f64_add c (cost m)) (p ++ [v]).

(** Every link has a non-negative cost (possibly infinite, never NaN). *)
Definition graph_ok (g : RouteGraph) : Prop :=
  ∀ u v m, get_link g u v = Some m → f64_wf (cost m).

(** Number of links of the graph. *)
Definition edge_count (g : RouteGraph) : nat :=
  sum_list_with (λ p, size p.2) (map_to_list (edges g)).

(** ** A heap for the examples: a list, popped by scanning for the cheapest *)

Fixpoint pop_best (x : SearchState) (h : list SearchState) : SearchState * list SearchState :=
  match h with
  | [] => (x, [])
  | y :: h =>
      match search_cmp y x with
      | Gt => let '(b, r) := pop_best y h in (b, x :: r)
      | _ => let '(b, r) := pop_best x h in (b, y :: r)
      end
  end.

Definition list_heap : Heap := {|
  heap := list SearchState;
  heap_new := [];
  heap_push := cons;
  heap_pop := λ h, match h with [] => None | x :: h => Some (pop_best x h) end;
|}.

Definition default_order : NeighbourOrder := λ _ m, map_to_list m.

#[global] Instance default_order_laws : NeighbourOrderLaws default_order.
Proof. by intros u m. Qed.

(** ** The list heap satisfies the heap contract *)

(** "Not greater" is transitive on numbers. *)
Lemma f64_le_total_trans x y z :
  f64_is_nan x = false → f64_is_nan y = false → f64_is_nan z = false →
  f64_partial_cmp x y ≠ Some Gt → f64_partial_cmp y z ≠ Some Gt →
  f64_partial_cmp x z ≠ Some Gt.
Proof.
  unfold f64_partial_cmp.
  destruct x as [sx|[]| |[] mx ex], y as [sy|[]| |[] my ey], z as [sz|[]| |[] mz ez];
    try discriminate; cbn [SFcompare]; try congruence;
    change (Pos.compare_cont Eq) with Pos.compare;
    destruct (Z.compare_spec ex ey), (Z.compare_spec ey ez), (Z.compare_spec ex ez);
    subst; try lia; try congruence;
    destruct (Pos.compare_spec mx my), (Pos.compare_spec my mz), (Pos.compare_spec mx mz);
    cbn; congruence || lia.
Qed.

Lemma f64_cmp_gt_lt x y :
  f64_partial_cmp x y = Some Gt → f64_partial_cmp y x = Some Lt.
Proof.
  unfold f64_partial_cmp.
  destruct x as [sx|[]| |[] mx ex], y as [sy|[]| |[] my ey];
    try discriminate; cbn [SFcompare]; try congruence;
    change (Pos.compare_cont Eq) with Pos.compare;
    rewrite (Z.compare_antisym ex ey), (Pos.compare_antisym mx my);
    destruct (Z.compare ex ey), (Pos.compare mx my); cbn; congruence.
Qed.

Lemma f64_cmp_refl x : f64_partial_cmp x x ≠ Some Gt.
Proof. intros H. pose proof (f64_cmp_gt_lt _ _ H). congruence. Qed.

Lemma pop_best_perm x h : (pop_best x h).1 :: (pop_best x h).2 ≡ₚ x :: h.
Proof.
  revert x. induction h as [|y h IH]; intros x; [done|]. cbn.
  pose proof (IH x) as Hx. pose proof (IH y) as Hy.
  destruct (search_cmp y x), (pop_best x h) as [b r], (pop_best y h) as [b' r']; cbn in *;
    rewrite (Permutation_swap _ _ _), ?Hx, ?Hy; by first [apply Permutation_swap|done].
Qed.

Lemma pop_best_min x h :
  (∀ y, y ∈ x :: h → f64_is_nan (st_cost y) = false) →
  ∀ y, y ∈ x :: h → f64_partial_cmp (st_cost (pop_best x h).1) (st_cost y) ≠ Some Gt.
Proof.
  revert x. induction h as [|z h IH]; intros x Hn y Hy.
  { apply elem_of_cons in Hy as [->|?%elem_of_nil]; [apply f64_cmp_refl|done]. }
  assert (Hin : ∀ w, (pop_best w h).1 ∈ w :: h)
    by (intros w; rewrite <- (pop_best_perm w h); left).
  assert (Hnx : f64_is_nan (st_cost x) = false) by (apply Hn; left).
  assert (Hnz : f64_is_nan (st_cost z) = false) by (apply Hn; right; left).
  assert (HIx : ∀ w, w ∈ x :: h → f64_is_nan (st_cost w) = false).
  { intros w [->|Hw]%elem_of_cons; [done|]. apply Hn. by right; right. }
  assert (HIz : ∀ w, w ∈ z :: h → f64_is_nan (st_cost w) = false)
    by (intros w Hw; apply Hn; by right).
  cbn [pop_best]. unfold search_cmp.
  assert (Hx : ∀ w, w ∈ x :: h →
     f64_partial_cmp (st_cost (pop_best x h).1) (st_cost w) ≠ Some Gt) by (by apply IH).
  assert (Hz : ∀ w, w ∈ z :: h →
     f64_partial_cmp (st_cost (pop_best z h).1) (st_cost w) ≠ Some Gt) by (by apply IH).
  assert (Hle : f64_partial_cmp (st_cost x) (st_cost z) ≠ Some Gt →
     f64_partial_cmp (st_cost (pop_best x h).1) (st_cost y) ≠ Some Gt).
  { intros Hc. rewrite !elem_of_cons in Hy. destruct Hy as [->|[->|Hy]].
    - apply Hx. left.
    - eapply f64_le_total_trans; [by apply HIx, Hin|apply Hnx|done|apply Hx; left|done].
    - apply Hx. by right. }
  assert (Hgt : f64_partial_cmp (st_cost x) (st_cost z) = Some Gt →
     f64_partial_cmp (st_cost (pop_best z h).1) (st_cost y) ≠ Some Gt).
  { intros Hc. apply elem_of_cons in Hy as [->|Hy]; [|by apply Hz].
    eapply f64_le_total_trans; [by apply HIz, Hin|apply Hnz|done|apply Hz; left|].
    by rewrite (f64_cmp_gt_lt _ _ Hc). }
  destruct (f64_partial_cmp (st_cost x) (st_cost z)) as [[]|]; cbn [default from_option id];
    destruct (pop_best x h) as [b r], (pop_best z h) as [b' r']; cbn in *; auto.
Qed.

#[global] Program Instance list_heap_laws : HeapLaws list_heap :=
  {| heap_elems := λ h : list SearchState, h |}.
Next Obligation. done. Qed.
Next Obligation. done. Qed.
Next Obligation. by intros []. Qed.
Next Obligation.
  intros [|x h] y h' E; [done|]. injection E as E.
  pose proof (pop_best_perm x h) as Hp. rewrite E in Hp. by rewrite <- Hp.
Qed.
Next Obligation.
  intros [|x h] y h' E Hn z Hz; [done|]. injection E as E.
  pose proof (pop_best_min x h Hn z) as Hm.
  pose proof (pop_best_perm x h) as Hp. rewrite E in Hp, Hm. cbn in Hp, Hm.
  unfold search_cmp. intros Hc. apply Hm.
  - rewrite <- Hp. by right.
  - by destruct (f64_partial_cmp (st_cost y) (st_cost z)) as [[]|].
Qed.

(** ** Link operations *)

Lemma get_add_link g a b m u v :
  get_link (add_link a b m g) u v =
    if decide (a = u ∧ b = v) then Some m else get_link g u v.
Proof.
  unfold get_link, add_link. cbn [edges].
  destruct (decide (a = u)) as [->|Ha].
  - rewrite lookup_insert_eq. cbn [mbind option_bind].
    destruct (decide (b = v)) as [->|Hb].
    + rewrite lookup_insert_eq, decide_True by done. done.
    + rewrite lookup_insert_ne, decide_False by (done || by intros []).
      by destruct (edges g !! u).
  - rewrite lookup_insert_ne, decide_False by (done || by intros []). done.
Qed.

Lemma get_remove_link g a b u v :
  get_link (remove_link a b g) u v =
    if decide (a = u ∧ b = v) then None else get_link g u v.
Proof.
  unfold get_link, remove_link.
  destruct (edges g !! a) as [nb|] eqn:E.
  2:{ case_decide as H; [|done]. destruct H as [<- _]. by rewrite E. }
  destruct (decide (a = u)) as [->|Ha].
  - rewrite E. cbn [mbind option_bind]. case_decide as Hz; cbn [edges].
    + rewrite lookup_delete_eq. cbn [mbind option_bind]. case_decide as H; [done|].
      assert (delete b nb !! v = None) as Hd by (rewrite Hz; apply lookup_empty).
      rewrite lookup_delete_ne in Hd by (intros ->; by apply H). done.
    + rewrite lookup_insert_eq. cbn [mbind option_bind]. rewrite lookup_delete.
      case_decide; case_decide; (done || by intuition).
  - rewrite (decide_False (P := a = u ∧ b = v)) by (by intros []).
    case_decide; cbn [edges]; [by rewrite lookup_delete_ne|by rewrite lookup_insert_ne].
Qed.

(** No node is kept with an empty neighbour map. *)
Definition graph_compact (g : RouteGraph) : Prop := ∀ u, edges g !! u ≠ Some ∅.

Lemma graph_compact_add g a b m : graph_compact g → graph_compact (add_link a b m g).
Proof.
  intros Hc u. unfold add_link. cbn [edges]. rewrite lookup_insert.
  case_decide as Hu; [|apply Hc]. intros [= E]. by apply insert_non_empty in E.
Qed.

Lemma graph_compact_remove g a b : graph_compact g → graph_compact (remove_link a b g).
Proof.
  intros Hc u. unfold remove_link. destruct (edges g !! a) as [nb|] eqn:E; [|apply Hc].
  case_decide as Hz; cbn [edges].
  - rewrite lookup_delete. case_decide; [done|apply Hc].
  - rewrite lookup_insert. case_decide; [congruence|apply Hc].
Qed.

Lemma graph_ok_new : graph_ok graph_new.
Proof. intros u v m. unfold get_link. cbn. by rewrite lookup_empty. Qed.

Lemma graph_ok_add g a b m :
  graph_ok g → f64_wf (cost m) → graph_ok (add_link a b m g).
Proof.
  intros Hg Hm u v m'. rewrite get_add_link. case_decide; [by intros [= <-]|apply Hg].
Qed.

(** Two compact graphs with the same links are the same value. *)
Lemma graph_ext g h :
  graph_compact g → graph_compact h →
  (∀ u v, get_link g u v = get_link h u v) → g = h.
Proof.
  destruct g as [g], h as [h]. unfold graph_compact, get_link. cbn [edges]. intros Cg Ch H.
  f_equal. apply map_eq. intros u. specialize (Cg u). specialize (Ch u). specialize (H u).
  destruct (g !! u) as [m|], (h !! u) as [m'|]; cbn in H.
  - f_equal. by apply map_eq.
  - destruct Cg. f_equal. by apply map_eq.
  - destruct Ch. f_equal. by apply map_eq.
  - done.
Qed.

(** Link operations behave as on a table of links: after [add_link] exactly
    that link reads back with the new metrics, after [remove_link] exactly that
    link is gone, every other link is unchanged, and a node whose last link is
    removed leaves no empty entry behind, so removing a link that was just added
    restores the very same graph. *)
Theorem link_operations g a b m :
  graph_compact g →
  (∀ u v, get_link (add_link a b m g) u v =
     if decide (a = u ∧ b = v) then Some m else get_link g u v) ∧
  (∀ u v, get_link (remove_link a b g) u v =
     if decide (a = u ∧ b = v) then None else get_link g u v) ∧
  graph_compact (add_link a b m g) ∧ graph_compact (remove_link a b g) ∧
  (get_link g a b = None → remove_link a b (add_link a b m g) = g).
Proof.
  intros Hc. split_and!.
  - apply get_add_link.
  - apply get_remove_link.
  - by apply graph_compact_add.
  - by apply graph_compact_remove.
  - intros Hn. apply graph_ext; [by apply graph_compact_remove, graph_compact_add|done|].
    intros u v. rewrite get_remove_link, get_add_link. case_decide as H; [|done].
    by destruct H as [-> ->].
Qed.

(** Peers for the examples. *)
Definition peer (b : byte) : PeerId := mkPeerId (vreplicate 32 b).

Lemma link_operations_witness :
  remove_link (peer Byte.x01) (peer Byte.x02)
    (add_link (peer Byte.x01) (peer Byte.x02) LinkMetrics_default graph_new) = graph_new.
Proof.
  refine (proj2 (proj2 (proj2 (proj2
    (link_operations graph_new (peer Byte.x01) (peer Byte.x02) LinkMetrics_default _)))) _).
  - intros u. cbn. by rewrite lookup_empty.
  - reflexivity.
Defined.
