(* ===== verification/Dijkstra.v ===== *)
(** * Correctness of [find_shortest_path]

    The loop invariant of the search ([search_inv]), its preservation by the
    relaxation of one link ([relax_link_inv]) and by one iteration
    ([settle_inv]), the termination measure, and the theorems: within
    [edge_count g + 2] iterations the search returns, a returned route is a
    loop-free walk of least binary64 cost, and [None] means that no route costs
    less than [f64::MAX]. *)

From Stdlib Require Import SpecFloat.
From S2P Require Import Prelude Float64 Error Types Metrics Graph.

Local Open Scope Z_scope.

Section dijkstra.
Context {HP : Heap} {HL : HeapLaws HP} {NO : NeighbourOrder} {NL : NeighbourOrderLaws NO}.
Context (g : RouteGraph) (Hg : graph_ok g) (s t : PeerId).

Implicit Types (v u w : PeerId) (c d : f64) (S : list PeerId).

Abbreviation elems vars := (heap_elems (queue vars)).

(** [u -> v] was relaxed: its target is known and no farther than through [u]. *)
Definition relaxed (vars : SearchVars) u v (m : LinkMetrics) : Prop :=
  ∀ d, distances vars !! u = Some d →
    fval (f64_add d (cost m)) < fval f64_MAX →
    ∃ d', distances vars !! v = Some d' ∧ fval d' ≤ fval (f64_add d (cost m)).

(** The invariant.  [S] lists the expanded nodes, latest first; [frontier] is
    the reading of the last popped cost; [node]'s links in [pending] are still to
    be relaxed. *)
Record search_inv (vars : SearchVars) (S : list PeerId) (frontier : Z)
    (node : PeerId) (pending : list (PeerId * LinkMetrics)) : Prop := {
  inv_start : distances vars !! s = Some f64_zero ∧ predecessors vars !! s = None;
  inv_dist v d :
    distances vars !! v = Some d → f64_wf d ∧ fval d < fval f64_MAX;
  inv_has_pred v d :
    distances vars !! v = Some d → v ≠ s → is_Some (predecessors vars !! v);
  inv_pred v u :
    predecessors vars !! v = Some u →
    u ∈ S ∧ ∃ du dv m,
      distances vars !! u = Some du ∧ get_link g u v = Some m ∧
      distances vars !! v = Some dv ∧ fval dv = fval (f64_add du (cost m));
  inv_order l1 v l2 u :
    S = l1 ++ v :: l2 → predecessors vars !! v = Some u → u ∈ l2;
  inv_queued v d :
    distances vars !! v = Some d → v ∈ S ∨ mkState d v ∈ elems vars;
  inv_entry x :
    x ∈ elems vars →
    f64_wf (st_cost x) ∧ frontier ≤ fval (st_cost x) ∧
    ∃ d, distances vars !! st_node x = Some d ∧ fval d ≤ fval (st_cost x);
  inv_settled v :
    v ∈ S → ∃ d, distances vars !! v = Some d ∧ fval d ≤ frontier;
  inv_relaxed v w m :
    v ∈ S → get_link g v w = Some m →
    (v = node ∧ (w, m) ∈ pending) ∨ relaxed vars v w m;
  inv_nodup : NoDup S;
  inv_target : t ∉ S;
}.

Lemma link_wf u v m : get_link g u v = Some m → f64_wf (cost m).
Proof. apply Hg. Qed.

(** The comparison of the relaxation test, on readings. *)
Lemma relax_test vars c m (w : PeerId) :
  (∀ v d, distances vars !! v = Some d → f64_wf d ∧ fval d < fval f64_MAX) →
  f64_wf c → f64_wf (cost m) →
  f64_lt (f64_add c (cost m)) (default f64_MAX (distances vars !! w)) = true ↔
  fval (f64_add c (cost m)) < fval f64_MAX ∧
  ∀ d, distances vars !! w = Some d → fval (f64_add c (cost m)) < fval d.
Proof.
  intros Hd Wc Wm. assert (W := f64_add_wf _ _ Wc Wm).
  destruct (distances vars !! w) as [d|] eqn:E; cbn.
  - destruct (Hd _ _ E) as [Wd Hlt]. rewrite f64_lt_val, Z.ltb_lt by done.
    split; [|by intros [_ H]; apply H]. intros H. split; [lia|]. by intros d' [= ->].
  - rewrite f64_lt_val, Z.ltb_lt by (done || apply max_wf).
    split; [done|by intros []].
Qed.

(** The facts a successful relaxation test gives about its target. *)
Lemma improved_target vars S c node w m pending :
  search_inv vars S (fval c) node pending →
  f64_wf c → f64_wf (cost m) →
  (∀ d, distances vars !! w = Some d → fval (f64_add c (cost m)) < fval d) →
  (w ∉ S) ∧ (w ≠ s).
Proof.
  intros I Wc Wm Hlt. assert (Hge := f64_add_ge_l _ _ Wc Wm). split.
  - intros Hw. destruct (inv_settled _ _ _ _ _ I _ Hw) as (d & Hd & Hle).
    specialize (Hlt _ Hd). lia.
  - intros ->. specialize (Hlt _ (proj1 (inv_start _ _ _ _ _ I))).
    change (fval f64_zero) with 0 in Hlt. pose proof (fval_nonneg (f64_add c (cost m))). lia.
Qed.

(** A lower distance for [w] keeps every relaxed link relaxed. *)
Lemma relaxed_insert vars vars' w n u v m :
  distances vars' = <[w := n]> (distances vars) → u ≠ w →
  (∀ d, distances vars !! w = Some d → fval n < fval d) →
  relaxed vars u v m → relaxed vars' u v m.
Proof.
  intros E Hu Hlt Hr d Hd Hm. rewrite E, lookup_insert_ne in Hd by done.
  destruct (Hr d Hd Hm) as (d' & Hd' & Hle). rewrite E.
  destruct (decide (w = v)) as [<-|Hne].
  - exists n. rewrite lookup_insert_eq. split; [done|]. specialize (Hlt _ Hd'). lia.
  - exists d'. by rewrite lookup_insert_ne.
Qed.

(** Relaxing one pending link, when the test succeeds. *)
Lemma relax_link_taken vars S c node w m pending q dn :
  search_inv vars S (fval c) node ((w, m) :: pending) →
  node ∈ S → f64_wf c → get_link g node w = Some m →
  distances vars !! node = Some dn → fval dn = fval c →
  fval (f64_add c (cost m)) < fval f64_MAX →
  (∀ d, distances vars !! w = Some d → fval (f64_add c (cost m)) < fval d) →
  heap_elems q ≡ₚ mkState (f64_add c (cost m)) w :: elems vars →
  search_inv (mkVars (<[w := f64_add c (cost m)]> (distances vars))
                     (<[w := node]> (predecessors vars)) q) S (fval c) node pending.
Proof.
  intros I Hin Wc Hlink Hdn Hcn Hmax Hlt Hq. assert (Wm := link_wf _ _ _ Hlink).
  assert (Wadd := f64_add_wf _ _ Wc Wm). assert (Hge := f64_add_ge_l _ _ Wc Wm).
  destruct (improved_target _ _ _ _ _ _ _ I Wc Wm Hlt) as [HwS Hws].
  set (n := f64_add c (cost m)) in *.
  assert (Hnode : w ≠ node) by (intros ->; done).
  assert (HS : ∀ v, v ∈ S → w ≠ v) by (intros v Hv ->; done).
  assert (Hadd : fval n = fval (f64_add dn (cost m))).
  { destruct (inv_dist _ _ _ _ _ I _ _ Hdn) as [Wdn _].
    unfold n. rewrite !(λ a b Ha Hb, proj2 (f64_add_val a b Ha Hb)) by done. by rewrite Hcn. }
  constructor; cbn [distances predecessors queue].
  - rewrite !lookup_insert_ne by done. apply I.
  - intros v d. rewrite lookup_insert. case_decide; [by intros [= <-]|]. apply I.
  - intros v d. rewrite !lookup_insert. case_decide; [by eauto|]. apply I.
  - intros v u. rewrite lookup_insert. case_decide as Hv.
    + intros [= <-]. subst v. split; [done|]. exists dn, n, m.
      rewrite lookup_insert_ne, lookup_insert_eq by done. done.
    + intros Hp. destruct (inv_pred _ _ _ _ _ I _ _ Hp) as (Hu & du & dv & m' & ? & ? & ? & ?).
      split; [done|]. exists du, dv, m'. rewrite !lookup_insert_ne by auto. done.
  - intros l1 v l2 u -> Hp. rewrite lookup_insert_ne in Hp
      by (apply HS, elem_of_app; right; left).
    by eapply (inv_order _ _ _ _ _ I).
  - intros v d. rewrite lookup_insert, Hq. case_decide as Hv.
    + intros [= <-]. subst v. right. left.
    + intros [?|?]%(inv_queued _ _ _ _ _ I); [by left|right; by right].
  - intros x. rewrite Hq, elem_of_cons. intros [->|Hx]; cbn [st_cost st_node].
    + split_and!; [done|done|]. exists n. by rewrite lookup_insert_eq.
    + destruct (inv_entry _ _ _ _ _ I _ Hx) as (? & ? & d & Hd & Hle).
      split_and!; [done|done|]. rewrite lookup_insert. case_decide as Hv; [|by eauto].
      subst w. exists n. split; [done|]. specialize (Hlt _ Hd). lia.
  - intros v Hv. rewrite lookup_insert_ne by auto. by apply I.
  - intros v w' m' Hv Hl. destruct (inv_relaxed _ _ _ _ _ I _ _ _ Hv Hl) as [[-> Hp]|Hr].
    + apply elem_of_cons in Hp as [[= -> ->]|Hp]; [right|by left].
      intros d. cbn [distances]. rewrite lookup_insert_ne by done. intros Hd _.
      exists n. rewrite lookup_insert_eq. split; [done|].
      rewrite Hdn in Hd. injection Hd as <-. lia.
    + right. eapply (relaxed_insert vars); [done|by apply not_eq_sym, HS|done|done].
  - apply I.
  - apply I.
Qed.

(** When the test fails, the link is relaxed already. *)
Lemma relax_link_skipped vars S c node w m pending dn :
  search_inv vars S (fval c) node ((w, m) :: pending) →
  f64_wf c → get_link g node w = Some m →
  distances vars !! node = Some dn → fval dn = fval c →
  f64_lt (f64_add c (cost m)) (default f64_MAX (distances vars !! w)) = false →
  search_inv vars S (fval c) node pending.
Proof.
  intros I Wc Hlink Hdn Hcn Hf. assert (Wm := link_wf _ _ _ Hlink).
  destruct (inv_dist _ _ _ _ _ I _ _ Hdn) as [Wdn _].
  assert (Hadd : fval (f64_add dn (cost m)) = fval (f64_add c (cost m))).
  { rewrite !(λ a b Ha Hb, proj2 (f64_add_val a b Ha Hb)) by done. by rewrite Hcn. }
  pose proof (relax_test vars c m w (inv_dist _ _ _ _ _ I) Wc Wm) as Ht. rewrite Hf in Ht.
  constructor; try apply I.
  intros v w' m' Hv Hl. destruct (inv_relaxed _ _ _ _ _ I _ _ _ Hv Hl) as [[-> Hp]|Hr];
    [|by right].
  apply elem_of_cons in Hp as [[= -> ->]|Hp]; [right|by left].
  intros d Hd Hm. rewrite Hdn in Hd. injection Hd as <-.
  destruct (distances vars !! w) as [d'|] eqn:E.
  - exists d'. split; [done|]. apply Z.nlt_ge. intros Hlt.
    enough (false = true) by done. apply Ht. split; [lia|]. intros d [= <-]. lia.
  - enough (false = true) by done. apply Ht. split; [lia|done].
Qed.

Lemma relax_link_inv vars S c node w m pending :
  search_inv vars S (fval c) node ((w, m) :: pending) →
  node ∈ S → f64_wf c → get_link g node w = Some m →
  (∃ d, distances vars !! node = Some d ∧ fval d = fval c) →
  search_inv (relax_link c node vars (w, m)) S (fval c) node pending ∧
  (∃ d, distances (relax_link c node vars (w, m)) !! node = Some d ∧ fval d = fval c).
Proof.
  intros I Hin Wc Hlink (dn & Hdn & Hcn). assert (Wm := link_wf _ _ _ Hlink).
  unfold relax_link. destruct (f64_lt _ _) eqn:E.
  - apply (relax_test _ _ _ _ (inv_dist _ _ _ _ _ I) Wc Wm) in E as [Hmax Hlt].
    split; [eapply relax_link_taken; eauto; apply heap_push_elems|].
    exists dn. split; [|done]. cbn [distances]. rewrite lookup_insert_ne; [done|].
    intros ->. by destruct (improved_target _ _ _ _ _ _ _ I Wc Wm Hlt).
  - split; [by eapply relax_link_skipped|by eauto].
Qed.

Lemma relax_links_inv links vars S c node :
  search_inv vars S (fval c) node links →
  node ∈ S → f64_wf c → (∀ w m, (w, m) ∈ links → get_link g node w = Some m) →
  (∃ d, distances vars !! node = Some d ∧ fval d = fval c) →
  search_inv (relax_links c node links vars) S (fval c) node [].
Proof.
  revert vars. induction links as [|[w m] links IH]; intros vars I Hin Wc Hl Hd; [done|].
  destruct (relax_link_inv _ _ _ _ _ _ _ I Hin Wc (Hl w m ltac:(left)) Hd) as [I' Hd'].
  apply IH; [done..| |done]. intros. apply Hl. by right.
Qed.
(** *** One iteration *)

(** The popped state is a cheapest one. *)
Lemma pop_min vars S F node c v q :
  search_inv vars S F node [] → heap_pop (queue vars) = Some (mkState c v, q) →
  (elems vars ≡ₚ mkState c v :: heap_elems q) ∧ f64_wf c ∧ F ≤ fval c ∧
  (∃ d, distances vars !! v = Some d ∧ f64_wf d ∧ fval d ≤ fval c) ∧
  ∀ x, x ∈ heap_elems q → fval c ≤ fval (st_cost x).
Proof.
  intros I Hpop. pose proof (heap_pop_some _ _ _ Hpop) as Hperm.
  assert (Hx : mkState c v ∈ elems vars) by (rewrite Hperm; left).
  destruct (inv_entry _ _ _ _ _ I _ Hx) as (Wc & HF & d & Hd & Hle).
  split_and!; [done..| |].
  - exists d. split_and!; [done| |done]. by apply (inv_dist _ _ _ _ _ I v).
  - intros x Hin. assert (Hx' : x ∈ elems vars) by (rewrite Hperm; by right).
    destruct (inv_entry _ _ _ _ _ I _ Hx') as (Wx & _).
    assert (Hn : search_cmp x (mkState c v) ≠ Gt).
    { eapply heap_pop_max; [done| |done]. intros y Hy. apply f64_wf_not_nan.
      by apply (inv_entry _ _ _ _ _ I). }
    unfold search_cmp in Hn. cbn [st_cost] in Hn.
    rewrite f64_compare_val in Hn by done. cbn in Hn. by apply Z.compare_le_iff in Hn.
Qed.

(** Popping an entry whose node is expanded already, or a stale entry. *)
Lemma pop_skip_inv vars S F node c v q :
  search_inv vars S F node [] → heap_pop (queue vars) = Some (mkState c v, q) →
  v ∈ S ∨ (∃ d, distances vars !! v = Some d ∧ fval d < fval c) →
  search_inv (mkVars (distances vars) (predecessors vars) q) S (fval c) v [].
Proof.
  intros I Hpop Hskip.
  destruct (pop_min _ _ _ _ _ _ _ I Hpop) as (Hperm & Wc & HF & Hd & Hmin).
  constructor; cbn [distances predecessors queue]; try apply I.
  - intros u d' Hu. destruct (inv_queued _ _ _ _ _ I _ _ Hu) as [?|Hx]; [by left|].
    rewrite Hperm in Hx. apply elem_of_cons in Hx as [[= -> ->]|Hx]; [|by right].
    destruct Hskip as [?|(d & Hd' & Hlt)]; [by left|].
    rewrite Hu in Hd'. injection Hd' as ->. lia.
  - intros x Hx. assert (Hx' : x ∈ elems vars) by (rewrite Hperm; by right).
    destruct (inv_entry _ _ _ _ _ I _ Hx') as (Wx & _ & Hdx). auto.
  - intros u Hu. destruct (inv_settled _ _ _ _ _ I _ Hu) as (d & Hdu & Hle).
    exists d. split; [done|lia].
  - intros u w m Hu Hl. right.
    by destruct (inv_relaxed _ _ _ _ _ I _ _ _ Hu Hl) as [[_ ?%elem_of_nil]|Hr].
Qed.

(** Popping the current entry of a node not expanded yet. *)
Lemma pop_settle_inv vars S F node c v q links :
  search_inv vars S F node [] → heap_pop (queue vars) = Some (mkState c v, q) →
  v ∉ S → v ≠ t →
  (∀ w m, get_link g v w = Some m → (w, m) ∈ links) →
  search_inv (mkVars (distances vars) (predecessors vars) q) (v :: S) (fval c) v links.
Proof.
  intros I Hpop HvS Hvt Hlinks.
  destruct (pop_min _ _ _ _ _ _ _ I Hpop) as (Hperm & Wc & HF & Hd & Hmin).
  constructor; cbn [distances predecessors queue]; try apply I.
  - intros u w Hp. destruct (inv_pred _ _ _ _ _ I _ _ Hp) as [Hu ?]. split; [by right|done].
  - intros [|y l1] u l2 w E Hp; simplify_eq/=.
    + by apply (inv_pred _ _ _ _ _ I _ _ Hp).
    + by eapply (inv_order _ _ _ _ _ I).
  - intros u d Hu. destruct (inv_queued _ _ _ _ _ I _ _ Hu) as [?|Hx]; [left; by right|].
    rewrite Hperm in Hx. apply elem_of_cons in Hx as [[= -> ->]|Hx]; [left; left|by right].
  - intros x Hx. assert (Hx' : x ∈ elems vars) by (rewrite Hperm; by right).
    destruct (inv_entry _ _ _ _ _ I _ Hx') as (Wx & _ & Hdx). auto.
  - intros u [->|Hu]%elem_of_cons; [destruct Hd as (d & ? & _ & ?); by exists d|].
    destruct (inv_settled _ _ _ _ _ I _ Hu) as (d & Hdu & Hle). exists d. split; [done|lia].
  - intros u w m [->|Hu]%elem_of_cons Hl; [left; by auto|right].
    by destruct (inv_relaxed _ _ _ _ _ I _ _ _ Hu Hl) as [[_ ?%elem_of_nil]|Hr].
  - constructor; [done|apply I].
  - intros [->|?]%elem_of_cons; [done|]. by apply (inv_target _ _ _ _ _ I).
Qed.

(** Relaxing relaxed links changes nothing. *)
Lemma relax_links_noop links vars S c v :
  search_inv vars S (fval c) v [] → v ∈ S → f64_wf c →
  (∃ d, distances vars !! v = Some d ∧ fval d = fval c) →
  (∀ w m, (w, m) ∈ links → get_link g v w = Some m) →
  relax_links c v links vars = vars.
Proof.
  intros I Hv Wc (d & Hd & Hc) Hl. destruct (inv_dist _ _ _ _ _ I _ _ Hd) as [Wd _].
  induction links as [|[w m] links IH]; [done|]. cbn [relax_links foldl].
  assert (Hlink : get_link g v w = Some m) by (apply Hl; left).
  assert (Wm := link_wf _ _ _ Hlink).
  replace (relax_link c v vars (w, m)) with vars; [apply IH; intros; apply Hl; by right|].
  unfold relax_link. destruct (f64_lt _ _) eqn:E; [exfalso|done].
  apply (relax_test _ _ _ _ (inv_dist _ _ _ _ _ I) Wc Wm) in E as [Hmax Hlt].
  destruct (inv_relaxed _ _ _ _ _ I _ _ _ Hv Hlink) as [[_ ?%elem_of_nil]|Hr]; [done|].
  assert (Hadd : fval (f64_add d (cost m)) = fval (f64_add c (cost m))).
  { rewrite !(λ a b Ha Hb, proj2 (f64_add_val a b Ha Hb)) by done. by rewrite Hc. }
  destruct (Hr d Hd) as (d' & Hd' & Hle); [lia|]. specialize (Hlt _ Hd'). lia.
Qed.

(** *** The predecessor walk *)

Lemma walk_back_chain vars S F node l2 :
  search_inv vars S F node [] →
  ∀ l1 v d, S = l1 ++ l2 → v ∉ l2 →
  (∀ u, predecessors vars !! v = Some u → u ∈ l2) →
  distances vars !! v = Some d →
  ∃ rest c,
    (∀ fuel path, (length l2 < fuel)%nat →
       walk_back fuel (predecessors vars) v path = Some (path ++ rest)) ∧
    walk g s v c (reverse (v :: rest)) ∧ f64_wf c ∧ fval c = fval d ∧
    NoDup (v :: rest) ∧ (∀ x, x ∈ rest → x ∈ l2).
Proof.
  intros I. induction (well_founded_ltof _ (@length PeerId) l2) as [l2 _ IH].
  intros l1 v d HS Hv Hpred Hd. destruct (inv_start _ _ _ _ _ I) as [Hds Hps].
  destruct (decide (v = s)) as [->|Hne].
  { rewrite Hds in Hd. injection Hd as <-. exists [], f64_zero.
    split_and!; [|apply walk_start|apply f64_wf_zero|done| |].
    - intros [|fuel] path Hf; [lia|]. cbn. by rewrite Hps, app_nil_r.
    - apply NoDup_singleton.
    - by intros x ?%elem_of_nil. }
  destruct (inv_has_pred _ _ _ _ _ I _ _ Hd Hne) as [u Hu].
  destruct (inv_pred _ _ _ _ _ I _ _ Hu) as (HuS & du & dv & m & Hdu & Hlink & Hdv & Hval).
  rewrite Hd in Hdv. injection Hdv as <-.
  pose proof (Hpred _ Hu) as Hul. apply list_elem_of_split in Hul as (a & b & ->).
  assert (HS' : S = (l1 ++ a ++ [u]) ++ b) by (rewrite HS, <- !(assoc_L (++)); done).
  pose proof (inv_nodup _ _ _ _ _ I) as Hnd.
  assert (Hub : u ∉ b).
  { rewrite HS' in Hnd. apply NoDup_app in Hnd as (_ & Hdis & _).
    apply Hdis. rewrite !elem_of_app. right; right; left. }
  destruct (IH b) with (l1 := l1 ++ a ++ [u]) (v := u) (d := du)
    as (rest & c & Hwalk & Hw & Wc & Hc & Hnd' & Hin); try done.
  { unfold ltof. rewrite length_app. cbn. lia. }
  { intros u' Hu'. eapply (inv_order _ _ _ _ _ I (l1 ++ a)); [|done].
    by rewrite HS, <- (assoc_L (++)). }
  assert (Wm := link_wf _ _ _ Hlink).
  exists (u :: rest), (f64_add c (cost m)). split_and!.
  - intros [|fuel] path Hf; [lia|]. cbn [walk_back]. rewrite Hu.
    rewrite length_app in Hf. cbn in Hf. rewrite Hwalk by lia. by rewrite <- (assoc_L (++)).
  - rewrite reverse_cons. eapply walk_snoc; done.
  - by apply f64_add_wf.
  - destruct (inv_dist _ _ _ _ _ I _ _ Hdu) as [Wdu _].
    rewrite Hval, !(λ a b Ha Hb, proj2 (f64_add_val a b Ha Hb)) by done. by rewrite Hc.
  - constructor; [|done]. rewrite elem_of_cons. intros [->|Hx].
    + apply Hv, elem_of_app. right; left.
    + apply Hv, elem_of_app. right; right. auto.
  - intros x [->|Hx]%elem_of_cons; apply elem_of_app; right; [left|right; auto].
Qed.

(** *** Lower bound on every walk *)

Lemma walk_wf v c p : walk g s v c p → f64_wf c.
Proof.
  induction 1 as [|u v m c p _ IH Hl]; [apply f64_wf_zero|].
  apply f64_add_wf; [done|by eapply link_wf].
Qed.

Lemma walk_bound vars S F node v c p :
  search_inv vars S F node [] → walk g s v c p → fval c < fval f64_MAX →
  (∃ d, distances vars !! v = Some d ∧ fval d ≤ fval c) ∨
  (∃ x, x ∈ elems vars ∧ fval (st_cost x) ≤ fval c).
Proof.
  intros I Hw. induction Hw as [|u v m c p Hw IH Hl]; intros Hmax.
  { left. exists f64_zero. split; [apply I|done]. }
  assert (Wc := walk_wf _ _ _ Hw). assert (Wm := link_wf _ _ _ Hl).
  assert (Hge := f64_add_ge_l _ _ Wc Wm).
  destruct IH as [(d & Hd & Hle)|(x & Hx & Hle)]; [lia| |].
  - destruct (inv_dist _ _ _ _ _ I _ _ Hd) as [Wd _].
    assert (Hmono := f64_add_mono d c (cost m) (cost m) Wd Wc Wm Wm Hle (Z.le_refl _)).
    destruct (inv_queued _ _ _ _ _ I _ _ Hd) as [HuS|Hx].
    + destruct (inv_relaxed _ _ _ _ _ I _ _ _ HuS Hl) as [[_ ?%elem_of_nil]|Hr]; [done|].
      destruct (Hr d Hd) as (d' & Hd' & Hle'); [lia|]. left. exists d'. split; [done|lia].
    + right. eexists. split; [done|]. cbn [st_cost]. lia.
  - right. exists x. split; [done|lia].
Qed.
(** *** Termination measure *)

(** Links of the nodes not expanded yet. *)
Definition pending_links (S : list PeerId) : nat :=
  sum_list_with (λ p, if decide (p.1 ∈ S) then 0%nat else size p.2) (map_to_list (edges g)).

Lemma pending_links_nil : pending_links [] = edge_count g.
Proof.
  unfold pending_links, edge_count. induction (map_to_list (edges g)) as [|[u m] l IH]; [done|].
  cbn [sum_list_with]. by rewrite IH, decide_False by apply not_elem_of_nil.
Qed.

Lemma sum_list_with_ext {A} (f f' : A → nat) l :
  (∀ x, x ∈ l → f x = f' x) → sum_list_with f l = sum_list_with f' l.
Proof.
  induction l as [|x l IH]; intros Hf; [done|]. cbn [sum_list_with].
  rewrite (Hf x) by left. rewrite IH; [done|]. intros. apply Hf. by right.
Qed.

Lemma pending_links_settle v S :
  v ∉ S →
  pending_links S = (default 0 (size <$> edges g !! v) + pending_links (v :: S))%nat.
Proof.
  intros HvS. unfold pending_links.
  assert (Hext : ∀ l : list (PeerId * gmap PeerId LinkMetrics), (∀ p, p ∈ l → p.1 ≠ v) →
    sum_list_with (λ p, if decide (p.1 ∈ v :: S) then 0%nat else size p.2) l =
    sum_list_with (λ p, if decide (p.1 ∈ S) then 0%nat else size p.2) l).
  { intros l Hl. apply sum_list_with_ext. intros p Hp. specialize (Hl p Hp).
    apply decide_ext. rewrite elem_of_cons. split; [by intros [?|?]|by right]. }
  destruct (edges g !! v) as [nb|] eqn:E; cbn [fmap option_fmap option_map default from_option id].
  - rewrite <- (map_to_list_delete (edges g) v nb E). cbn [sum_list_with].
    rewrite decide_False by done. rewrite decide_True by left. cbn [snd fst].
    rewrite Hext; [lia|]. intros [u m] Hp. cbn [fst]. intros ->. apply elem_of_map_to_list in Hp.
    by rewrite lookup_delete_eq in Hp.
  - rewrite Hext; [done|]. intros [u m] Hp. cbn [fst]. intros ->.
    apply elem_of_map_to_list in Hp. by rewrite E in Hp.
Qed.

Lemma relax_links_size links c v vars :
  (length (elems (relax_links c v links vars)) ≤ length (elems vars) + length links)%nat.
Proof.
  revert vars. induction links as [|[w m] links IH]; intros vars; [cbn; lia|].
  cbn [relax_links foldl]. etransitivity; [apply IH|]. unfold relax_link.
  destruct (f64_lt _ _); cbn [queue length]; [|lia].
  rewrite (Permutation_length (heap_push_elems _ _)). cbn [length]. lia.
Qed.

(** *** The search *)

(** What a finished search has established. *)
Definition search_ok (r : option (list PeerId)) : Prop :=
  match r with
  | Some p => ∃ c, walk g s t c p ∧ NoDup p ∧ f64_lt c f64_MAX = true ∧
      ∀ c' p', walk g s t c' p' → f64_le c c' = true
  | None => ∀ c' p', walk g s t c' p' → f64_lt c' f64_MAX = false
  end.

Lemma links_of_node v nb w m :
  edges g !! v = Some nb → (w, m) ∈ neighbours_iter v nb ↔ get_link g v w = Some m.
Proof.
  intros E. rewrite (neighbours_iter_perm v nb), elem_of_map_to_list.
  unfold get_link. by rewrite E.
Qed.

(** The target is popped: the walk back gives a cheapest loop-free route. *)
Lemma target_reached vars S F node c q wfuel :
  search_inv vars S F node [] → heap_pop (queue vars) = Some (mkState c t, q) →
  (length S < wfuel)%nat →
  ∃ path, walk_back wfuel (predecessors vars) t [t] = Some path ∧
    search_ok (Some (reverse path)).
Proof.
  intros I Hpop Hf.
  destruct (pop_min _ _ _ _ _ _ _ I Hpop) as (Hperm & Wc & HF & (d & Hd & Wd & Hle) & Hmin).
  assert (Hcd : fval c ≤ fval d).
  { destruct (inv_queued _ _ _ _ _ I _ _ Hd) as [HtS|Hx].
    - by destruct (inv_target _ _ _ _ _ I).
    - rewrite Hperm in Hx. apply elem_of_cons in Hx as [[= ->]|Hx]; [lia|].
      by apply (Hmin _ Hx). }
  destruct (walk_back_chain vars S F node S I [] t d) as
    (rest & cw & Hback & Hw & Wcw & Hcw & Hnd & _);
    [done|apply I| |done|].
  { intros u Hu. by apply (inv_pred _ _ _ _ _ I _ _ Hu). }
  exists ([t] ++ rest). split; [by apply Hback|].
  exists cw. split_and!; [done|by rewrite reverse_Permutation| |].
  { rewrite f64_lt_val, Z.ltb_lt by (done || apply max_wf).
    destruct (inv_dist _ _ _ _ _ I _ _ Hd) as [_ ?]. lia. }
  intros c' p' Hw'. assert (Wc' := walk_wf _ _ _ Hw').
  rewrite f64_le_val, Z.leb_le by done.
  destruct (Z_lt_le_dec (fval c') (fval f64_MAX)) as [Hlt|Hge].
  - destruct (walk_bound _ _ _ _ _ _ _ I Hw' Hlt) as [(d' & Hd' & Hle')|(x & Hx & Hle')].
    + rewrite Hd in Hd'. injection Hd' as <-. lia.
    + rewrite Hperm in Hx. apply elem_of_cons in Hx as [->|Hx]; cbn in *; [lia|].
      specialize (Hmin _ Hx). lia.
  - destruct (inv_dist _ _ _ _ _ I _ _ Hd) as [_ ?]. lia.
Qed.

(** The heap is empty: nothing below [f64::MAX] reaches the target. *)
Lemma target_unreachable vars S F node :
  search_inv vars S F node [] → elems vars = [] → search_ok None.
Proof.
  intros I He c p Hw. assert (Wc := walk_wf _ _ _ Hw).
  rewrite f64_lt_val by (done || apply max_wf). apply Z.ltb_ge, Z.nlt_ge. intros Hlt.
  destruct (walk_bound _ _ _ _ _ _ _ I Hw Hlt) as [(d & Hd & _)|(x & Hx & _)].
  - destruct (inv_queued _ _ _ _ _ I _ _ Hd) as [HtS|Hx].
    + by destruct (inv_target _ _ _ _ _ I).
    + rewrite He in Hx. by apply elem_of_nil in Hx.
  - rewrite He in Hx. by apply elem_of_nil in Hx.
Qed.

Lemma search_correct wfuel fuel : ∀ vars S F node,
  search_inv vars S F node [] →
  (length (elems vars) + pending_links S < fuel)%nat →
  (length S + fuel ≤ wfuel)%nat →
  ∃ r, search wfuel fuel g t vars = Some r ∧ search_ok r.
Proof.
  induction fuel as [|fuel IH]; intros vars S F node I Hfuel Hw; [lia|].
  cbn [search]. destruct (heap_pop (queue vars)) as [[[c v] q]|] eqn:Hpop.
  2:{ exists None. split; [done|]. eapply target_unreachable; [done|].
      by apply heap_pop_none. }
  destruct (pop_min _ _ _ _ _ _ _ I Hpop) as (Hperm & Wc & HF & (d & Hd & Wd & Hle) & Hmin).
  assert (Hlen : length (elems vars) = Datatypes.S (length (heap_elems q)))
    by by rewrite (Permutation_length Hperm).
  cbn [distances predecessors queue].
  destruct (decide (v = t)) as [->|Hvt].
  { destruct (target_reached _ _ _ _ _ _ wfuel I Hpop) as (path & Hp & Hok); [lia|].
    rewrite Hp. by eexists. }
  rewrite Hd. unfold f64_gt. fold (f64_lt d c). rewrite f64_lt_val by done.
  set (vars0 := mkVars (distances vars) (predecessors vars) q).
  destruct (Z.ltb_spec (fval d) (fval c)) as [Hlt|Hge].
  { apply (IH vars0 S (fval c) v); [|cbn; lia|lia].
    apply (pop_skip_inv vars S F node); [done|done|right; by exists d]. }
  assert (Hcd : fval d = fval c) by lia.
  destruct (decide (v ∈ S)) as [HvS|HvS].
  - assert (I0 : search_inv vars0 S (fval c) v [])
      by (apply (pop_skip_inv vars S F node); [done|done|by left]).
    destruct (edges g !! v) as [nb|] eqn:E; [|apply (IH vars0 S (fval c) v); [done|cbn; lia|lia]].
    rewrite (relax_links_noop _ vars0 S); try done; [|by exists d|].
    + apply (IH vars0 S (fval c) v); [done|cbn; lia|lia].
    + intros w m. by rewrite links_of_node.
  - pose proof (pending_links_settle v S HvS) as Hpl.
    destruct (edges g !! v) as [nb|] eqn:E; cbn in Hpl.
    + assert (I0 : search_inv vars0 (v :: S) (fval c) v (neighbours_iter v nb)).
      { apply (pop_settle_inv vars S F node); try done. intros w m. by rewrite links_of_node. }
      apply (relax_links_inv (neighbours_iter v nb)) in I0; [|left|done| |by exists d].
      2:{ intros w m. by rewrite links_of_node. }
      apply (IH _ (v :: S) (fval c) v); [done| |cbn; lia].
      pose proof (relax_links_size (neighbours_iter v nb) c v vars0) as Hsz.
      rewrite (Permutation_length (neighbours_iter_perm v nb)), length_map_to_list in Hsz.
      cbn in Hsz. lia.
    + apply (IH vars0 (v :: S) (fval c) v); [|cbn; lia|cbn; lia].
      apply (pop_settle_inv vars S F node); try done.
      intros w m. unfold get_link. by rewrite E.
Qed.

Lemma initial_inv :
  search_inv (mkVars {[s := f64_zero]} ∅ (heap_push (mkState f64_zero s) heap_new)) [] 0 s [].
Proof.
  assert (He : heap_elems (heap_push (mkState f64_zero s) heap_new) ≡ₚ [mkState f64_zero s])
    by by rewrite heap_push_elems, heap_new_elems.
  constructor; cbn [distances predecessors queue].
  - split; [apply lookup_singleton_eq|done].
  - intros v d [_ <-]%lookup_singleton_Some. split; [apply f64_wf_zero|]. by apply (fval_finite_lt false).
  - by intros v d [-> _]%lookup_singleton_Some.
  - intros v u. by rewrite lookup_empty.
  - intros [] ????; done.
  - intros v d [<- <-]%lookup_singleton_Some. right. rewrite He. left.
  - intros x. rewrite He, list_elem_of_singleton. intros ->. cbn.
    split_and!; [apply f64_wf_zero|done|]. exists f64_zero. by rewrite lookup_singleton_eq.
  - by intros v ?%elem_of_nil.
  - by intros v w m ?%elem_of_nil.
  - constructor.
  - apply not_elem_of_nil.
Qed.
End dijkstra.

(** ** The theorems *)

(** What the finished search means, for every heap and iteration order. *)
Lemma find_shortest_path_total
    {HP : Heap} {HL : HeapLaws HP} {NO : NeighbourOrder} {NL : NeighbourOrderLaws NO}
    (g : RouteGraph) (start target : PeerId) (fuel : nat) :
  graph_ok g → (edge_count g + 2 ≤ fuel)%nat →
  ∃ r, find_shortest_path fuel g start target = Some r ∧ search_ok g start target r.
Proof.
  intros Hg Hf. unfold find_shortest_path.
  apply (search_correct g Hg start target (S fuel) fuel _ [] 0 start
    (initial_inv g start target)).
  - rewrite pending_links_nil. cbn [queue].
    rewrite (Permutation_length (heap_push_elems _ _)), heap_new_elems. cbn. lia.
  - cbn. lia.
Qed.

(** C2: [find_shortest_path] is total and optimal.  On every graph whose link
    costs are non-negative numbers (those of sane links are), it returns after at
    most [edge_count g + 2] heap pops.  The route it returns is a loop-free walk
    from [start] to [target], and the cost accumulated along it in binary64
    arithmetic is no greater than that of any other walk; when it returns [None],
    no walk from [start] to [target] costs less than [f64::MAX].  This holds for
    every heap and every hash iteration order. *)
Theorem find_shortest_path_optimal
    {HP : Heap} {HL : HeapLaws HP} {NO : NeighbourOrder} {NL : NeighbourOrderLaws NO}
    (g : RouteGraph) (start target : PeerId) (fuel : nat) :
  graph_ok g → (edge_count g + 2 ≤ fuel)%nat →
  (∃ p c, find_shortest_path fuel g start target = Some (Some p) ∧
     walk g start target c p ∧ NoDup p ∧
     ∀ c' p', walk g start target c' p' → f64_le c c' = true) ∨
  (find_shortest_path fuel g start target = Some None ∧
     ∀ c' p', walk g start target c' p' → f64_lt c' f64_MAX = false).
Proof.
  intros Hg Hf.
  destruct (find_shortest_path_total g start target fuel Hg Hf) as ([p|] & -> & Hok);
    [left|by right].
  destruct Hok as (c & Hw & Hnd & _ & Hmin). by exists p, c.
Qed.

(** The diamond of the unit test: [a -> d] directly, or cheaper through [b]. *)
Definition link_ms (ms : Z) : LinkMetrics :=
  mkLinkMetrics (f64_of_Z ms) (f64_of_Z 10000) f64_zero f64_zero.

Definition diamond : RouteGraph :=
  add_link (peer Byte.x01) (peer Byte.x04) (link_ms 100)
    (add_link (peer Byte.x02) (peer Byte.x04) (link_ms 10)
      (add_link (peer Byte.x01) (peer Byte.x02) (link_ms 10) graph_new)).

Lemma diamond_ok : graph_ok diamond.
Proof. repeat apply graph_ok_add; try apply graph_ok_new; by apply cost_wf. Qed.

Lemma find_shortest_path_optimal_witness :
  @find_shortest_path list_heap default_order 5 diamond (peer Byte.x01) (peer Byte.x04) =
    Some (Some [peer Byte.x01; peer Byte.x02; peer Byte.x04]) ∧
  ∃ c, walk diamond (peer Byte.x01) (peer Byte.x04) c
         [peer Byte.x01; peer Byte.x02; peer Byte.x04] ∧
       ∀ c' p', walk diamond (peer Byte.x01) (peer Byte.x04) c' p' → f64_le c c' = true.
Proof.
  assert (E : @find_shortest_path list_heap default_order 5 diamond
    (peer Byte.x01) (peer Byte.x04) =
    Some (Some [peer Byte.x01; peer Byte.x02; peer Byte.x04])) by (vm_compute; reflexivity).
  split; [exact E|].
  destruct (@find_shortest_path_optimal list_heap list_heap_laws default_order
    default_order_laws diamond (peer Byte.x01) (peer Byte.x04) 5 diamond_ok)
    as [(p & c & Hp & Hw & _ & Hmin)|[Hn _]].
  - vm_compute. lia.
  - rewrite E in Hp. injection Hp as <-. exists c. split; assumption.
  - rewrite E in Hn. discriminate Hn.
Defined.

(** Two costs that no comparison of the code tells apart. *)
Definition same_cost (c d : f64) : Prop := f64_le c d = true ∧ f64_le d c = true.

(** C31: Hash iteration order and heap tie-breaking influence nothing but the
    choice among equally cheap routes: two runs on the same graph, with any two
    heaps and any two iteration orders, either both find no route or find routes
    of the same cost. *)
Theorem route_cost_order_independent
    {HP1 HP2 : Heap} {HL1 : HeapLaws HP1} {HL2 : HeapLaws HP2}
    {NO1 NO2 : NeighbourOrder} {NL1 : NeighbourOrderLaws NO1} {NL2 : NeighbourOrderLaws NO2}
    (g : RouteGraph) (start target : PeerId) (fuel : nat) :
  graph_ok g → (edge_count g + 2 ≤ fuel)%nat →
  match find_shortest_path (HP:=HP1) (NO:=NO1) fuel g start target,
        find_shortest_path (HP:=HP2) (NO:=NO2) fuel g start target with
  | Some (Some p1), Some (Some p2) => ∃ c1 c2,
      walk g start target c1 p1 ∧ walk g start target c2 p2 ∧ same_cost c1 c2
  | Some None, Some None => True
  | _, _ => False
  end.
Proof.
  intros Hg Hf.
  destruct (find_shortest_path_total (HP:=HP1) (NO:=NO1) g start target fuel Hg Hf)
    as ([p1|] & -> & H1),
    (find_shortest_path_total (HP:=HP2) (NO:=NO2) g start target fuel Hg Hf)
    as ([p2|] & -> & H2); [|..|done].
  - destruct H1 as (c1 & ? & _ & _ & ?), H2 as (c2 & ? & _ & _ & ?).
    exists c1, c2. split_and!; [done..|]. split; eauto.
  - destruct H1 as (c1 & Hw & _ & Hlt & _). specialize (H2 _ _ Hw). congruence.
  - destruct H2 as (c2 & Hw & _ & Hlt & _). specialize (H1 _ _ Hw). congruence.
Qed.

(** Neighbours in the opposite order. *)
Definition reverse_order : NeighbourOrder := λ _ m, reverse (map_to_list m).

#[global] Instance reverse_order_laws : NeighbourOrderLaws reverse_order.
Proof. intros u m. apply reverse_Permutation. Qed.

Lemma route_cost_order_independent_witness :
  match @find_shortest_path list_heap default_order 5 diamond (peer Byte.x01) (peer Byte.x04),
        @find_shortest_path list_heap reverse_order 5 diamond (peer Byte.x01) (peer Byte.x04) with
  | Some (Some p1), Some (Some p2) => ∃ c1 c2,
      walk diamond (peer Byte.x01) (peer Byte.x04) c1 p1 ∧
      walk diamond (peer Byte.x01) (peer Byte.x04) c2 p2 ∧ same_cost c1 c2
  | Some None, Some None => True
  | _, _ => False
  end.
Proof.
  apply (@route_cost_order_independent list_heap list_heap list_heap_laws list_heap_laws
    default_order reverse_order default_order_laws reverse_order_laws).
  - apply diamond_ok.
  - vm_compute. lia.
Defined.

(** ** Links with a negative cost *)

Lemma walk_back_self_loop fuel preds v u path :
  preds !! v = Some u → preds !! u = Some u → walk_back fuel preds v path = None.
Proof.
  intros Hv Hu. revert v Hv path. induction fuel as [|fuel IH]; intros v Hv path; [done|].
  cbn [walk_back]. rewrite Hv. by apply IH.
Qed.

(** A node with a self-link of cost minus infinity and one ordinary link. *)
Definition poisoned : RouteGraph :=
  add_link (peer Byte.x01) (peer Byte.x02) LinkMetrics_default
    (add_link (peer Byte.x01) (peer Byte.x01)
      (mkLinkMetrics (f64_of_Z 10) (f64_of_Z 10000) f64_zero (S754_infinity true)) graph_new).

(** One iteration that expands its node. *)
Lemma search_expand {HP : Heap} {NO : NeighbourOrder} w n g t vars c v q nb :
  heap_pop (queue vars) = Some (mkState c v, q) → v ≠ t →
  (∀ d, distances vars !! v = Some d → f64_gt c d = false) →
  edges g !! v = Some nb →
  search w (S n) g t vars =
  search w n g t (relax_links c v (neighbours_iter v nb)
                    (mkVars (distances vars) (predecessors vars) q)).
Proof.
  intros Hpop Hv Hs Hnb. cbn [search]. rewrite Hpop, decide_False, Hnb by done.
  cbn [distances]. destruct (distances vars !! v) as [d|]; [|done]. by rewrite (Hs d).
Qed.

(** The states of the search after its first two iterations: the start node
    becomes its own predecessor. *)
Definition poisoned_links : gmap PeerId LinkMetrics :=
  default ∅ (edges poisoned !! peer Byte.x01).

Lemma poisoned_links_eq : edges poisoned !! peer Byte.x01 = Some poisoned_links.
Proof.
  unfold poisoned_links, poisoned, add_link. cbn [edges]. by rewrite lookup_insert_eq.
Qed.

Definition poisoned_next (c : f64) (v : @SearchVars list_heap) : @SearchVars list_heap :=
  relax_links c (peer Byte.x01)
    (@neighbours_iter default_order (peer Byte.x01) poisoned_links)
    (mkVars (distances v) (predecessors v)
       (match heap_pop (queue v) with Some (_, q) => q | None => heap_new end)).

Definition poisoned_state0 : @SearchVars list_heap :=
  mkVars {[peer Byte.x01 := f64_zero]} ∅ (heap_push (mkState f64_zero (peer Byte.x01)) heap_new).

Definition poisoned_state1 : @SearchVars list_heap := poisoned_next f64_zero poisoned_state0.

Definition poisoned_state2 : @SearchVars list_heap :=
  poisoned_next (S754_infinity true) poisoned_state1.

Lemma poisoned_iteration w fuel c vars :
  fst <$> heap_pop (queue vars) = Some (mkState c (peer Byte.x01)) →
  (∀ d, distances vars !! peer Byte.x01 = Some d → f64_gt c d = false) →
  @search list_heap default_order w (S fuel) poisoned (peer Byte.x02) vars =
  @search list_heap default_order w fuel poisoned (peer Byte.x02) (poisoned_next c vars).
Proof.
  intros E Hd. destruct (heap_pop (queue vars)) as [[x q]|] eqn:Hpop; [|done].
  injection E as ->.
  rewrite (search_expand _ _ _ _ _ c (peer Byte.x01) q poisoned_links); [|done..|done|].
  - unfold poisoned_next. by rewrite Hpop.
  - apply poisoned_links_eq.
Qed.

(** Non-negative costs are necessary.  The graph accepts any metrics, and one
    self-link of the start node with [relay_cost] minus infinity makes the
    predecessor walk follow [start -> start] for ever: [find_shortest_path] does
    not return for any amount of fuel. *)
Theorem negative_link_diverges fuel :
  @find_shortest_path list_heap default_order fuel poisoned
    (peer Byte.x01) (peer Byte.x02) = None.
Proof.
  unfold find_shortest_path. destruct fuel as [|[|[|fuel]]]; [vm_compute; reflexivity..|].
  fold poisoned_state0.
  rewrite (poisoned_iteration _ _ f64_zero), (poisoned_iteration _ _ (S754_infinity true)).
  - fold poisoned_state1 poisoned_state2. cbn [search].
    destruct (heap_pop (queue poisoned_state2)) as [[[c v] q]|] eqn:E.
    2:{ exfalso. revert E. vm_compute. discriminate. }
    assert (v = peer Byte.x02) as ->
      by (apply (f_equal (fmap (λ p, st_node p.1))) in E; vm_compute in E; by injection E).
    rewrite decide_True by done. cbn [predecessors].
    rewrite (walk_back_self_loop _ _ _ (peer Byte.x01)); [done|vm_compute; reflexivity..].
  - vm_compute. reflexivity.
  - intros d Hd. vm_compute in Hd. by injection Hd as <-.
  - vm_compute. reflexivity.
  - intros d Hd. vm_compute in Hd. by injection Hd as <-.
Qed.
