(* ===== verification/Router.v ===== *)
(** * omnimesh-routing: the router ([router.rs])

    The coordinator state of one node: the trackers of its direct neighbours, the
    route graph and the gossip sequence numbers, with every operation of
    [Router] as a function on that state.  Gossip holds the shard lock
    of its map entry while it writes the graph, so it is one atomic step; recording a
    measurement is two, which interleave ([recording_step]).

    Theorems: gossip converges (the resulting topology depends only on the set of
    updates delivered, not on order or repetition), no update is accepted twice,
    a sender's updates are all accepted in order, every reachable router computes
    optimal routes, a next hop is a direct neighbour on such a route, and the own links are
    what was measured, also under concurrent recordings. *)

From Stdlib Require Import Sorted.
From S2P Require Import Prelude Float64 Error Types Metrics Graph Dijkstra.

Local Open Scope Z_scope.

(** ** State *)

Record LinkStateUpdate := mkUpdate {
  lsu_source : PeerId;
  lsu_destination : PeerId;
  lsu_metrics : LinkMetrics;
  lsu_sequence : Z;
  lsu_timestamp : Z;
}.

Record Router := mkRouter {
  local_peer_id : PeerId;
  local_trackers : gmap PeerId LinkMetricTracker;
  graph : RouteGraph;
  gossip_sequences : gmap (PeerId * PeerId) Z;
  sequence_generator : Z;
}.

(** ** Operations *)

Definition router_new (local : PeerId) : Router :=
  mkRouter local ∅ graph_new ∅ 1.

Definition update_graph_link (peer : PeerId) (r : Router) : Router :=
  match local_trackers r !! peer with
  | Some tracker =>
      mkRouter (local_peer_id r) (local_trackers r)
        (add_link (local_peer_id r) peer (metrics tracker) (graph r))
        (gossip_sequences r) (sequence_generator r)
  | None => r
  end.

(** [local_trackers.entry(peer).or_insert_with(..).value_mut()]. *)
Definition update_tracker (f : LinkMetricTracker → LinkMetricTracker) (peer : PeerId)
    (r : Router) : Router :=
  let t := default (tracker_new LinkMetrics_default) (local_trackers r !! peer) in
  mkRouter (local_peer_id r) (<[peer := f t]> (local_trackers r)) (graph r)
    (gossip_sequences r) (sequence_generator r).

Definition router_record_latency (peer : PeerId) (latency : f64) (r : Router) : Router :=
  update_graph_link peer (update_tracker (record_latency latency) peer r).

Definition router_record_bandwidth (peer : PeerId) (bandwidth : f64) (r : Router) : Router :=
  update_graph_link peer (update_tracker (record_bandwidth bandwidth) peer r).

Definition router_record_loss_rate (peer : PeerId) (loss : f64) (r : Router) : Router :=
  update_graph_link peer (update_tracker (record_loss_rate loss) peer r).

(** [now]: seconds since the epoch, [None] when the clock is before it. *)
Definition get_link_state_update (now : option Z) (peer : PeerId) (r : Router)
    : option LinkStateUpdate * Router :=
  match local_trackers r !! peer with
  | None => (None, r)
  | Some tracker =>
      let sequence := sequence_generator r in
      (Some (mkUpdate (local_peer_id r) peer (metrics tracker) sequence (default 0 now)),
       mkRouter (local_peer_id r) (local_trackers r) (graph r) (gossip_sequences r)
         (u64_wrapping_add sequence 1))
  end.

Definition process_link_state_update (update : LinkStateUpdate) (r : Router)
    : bool * Router :=
  let key := (lsu_source update, lsu_destination update) in
  let current_seq := default 0 (gossip_sequences r !! key) in
  let seqs := <[key := current_seq]> (gossip_sequences r) in
  if decide (lsu_sequence update ≤ current_seq) then
    (false, mkRouter (local_peer_id r) (local_trackers r) (graph r) seqs
              (sequence_generator r))
  else
    (true, mkRouter (local_peer_id r) (local_trackers r)
             (add_link (lsu_source update) (lsu_destination update) (lsu_metrics update)
                (graph r))
             (<[key := lsu_sequence update]> seqs)
             (sequence_generator r)).

Section routes.
Context `{HP : Heap, NO : NeighbourOrder}.

Definition find_route (fuel : nat) (r : Router) (target : PeerId)
    : option (option (list PeerId)) :=
  find_shortest_path fuel (graph r) (local_peer_id r) target.

Definition next_hop (fuel : nat) (r : Router) (target : PeerId) : option (option PeerId) :=
  res ← find_route fuel r target;
  Some (route ← res; if decide (1 < length route)%nat then route !! 1%nat else None).

End routes.

(** ** Gossip *)

Definition lsu_key (u : LinkStateUpdate) : PeerId * PeerId := (lsu_source u, lsu_destination u).

(** The stored sequence number of a link, 0 when none is. *)
Definition seq_of (r : Router) (k : PeerId * PeerId) : Z := default 0 (gossip_sequences r !! k).

(** A delivery of updates, one after the other. *)
Definition deliver (us : list LinkStateUpdate) (r : Router) : Router :=
  foldl (λ r u, (process_link_state_update u r).2) r us.

(** The updates of a delivery that were accepted (and so passed on). *)
Fixpoint accepted (us : list LinkStateUpdate) (r : Router) : list LinkStateUpdate :=
  match us with
  | [] => []
  | u :: us =>
      let '(fresh, r') := process_link_state_update u r in
      if fresh then u :: accepted us r' else accepted us r'
  end.

Section process_facts.
Implicit Types (r : Router) (u : LinkStateUpdate) (k : PeerId * PeerId).

(** Everything [process_link_state_update] does, by the outcome of its test. *)
Lemma process_spec u r :
  let r' := (process_link_state_update u r).2 in
  (process_link_state_update u r).1 = bool_decide (seq_of r (lsu_key u) < lsu_sequence u) ∧
  (∀ k, seq_of r' k = if decide (k = lsu_key u) then Z.max (seq_of r k) (lsu_sequence u)
                      else seq_of r k) ∧
  (∀ k, is_Some (gossip_sequences r' !! k) ↔ is_Some (gossip_sequences r !! k) ∨ k = lsu_key u) ∧
  (∀ s d, get_link (graph r') s d =
     if decide ((s, d) = lsu_key u ∧ seq_of r (s, d) < lsu_sequence u)
     then Some (lsu_metrics u) else get_link (graph r) s d) ∧
  local_peer_id r' = local_peer_id r ∧ local_trackers r' = local_trackers r ∧
  sequence_generator r' = sequence_generator r.
Proof.
  destruct u as [src dst m n ts]. unfold process_link_state_update, seq_of, lsu_key.
  cbn [lsu_source lsu_destination lsu_sequence lsu_metrics].
  set (old := default 0 (gossip_sequences r !! (src, dst))).
  case_decide as Hs; cbn [fst snd gossip_sequences graph local_peer_id local_trackers
    sequence_generator]; split_and!; try done.
  - by rewrite bool_decide_false by lia.
  - intros k. rewrite lookup_insert. destruct (decide (k = (src, dst))) as [->|Hk].
    + rewrite decide_True by done. cbn. fold old. lia.
    + by rewrite decide_False by congruence.
  - intros k. rewrite lookup_insert_is_Some'. by intuition.
  - intros s d. rewrite decide_False; [done|]. intros [[= -> ->] Hlt]. fold old in Hlt. lia.
  - by rewrite bool_decide_true by lia.
  - intros k. rewrite insert_insert_eq, lookup_insert.
    destruct (decide (k = (src, dst))) as [->|Hk].
    + rewrite decide_True by done. cbn. fold old. lia.
    + by rewrite decide_False by congruence.
  - intros k. rewrite insert_insert_eq, lookup_insert_is_Some'. by intuition.
  - intros s d. rewrite get_add_link. apply decide_ext. split.
    + intros [-> ->]. fold old. split; [done|lia].
    + by intros [[= -> ->] _].
Qed.

(** What a delivery leaves behind, for one link: the stored number is the
    greatest delivered one (or the old one), and the link carries the metrics of an
    update with that number (or the old metrics). *)
Lemma deliver_spec us r s d :
  let r' := deliver us r in
  let k := (s, d) in
  (∀ u, u ∈ us → lsu_key u = k → lsu_sequence u ≤ seq_of r' k) ∧
  (is_Some (gossip_sequences r' !! k) ↔
     is_Some (gossip_sequences r !! k) ∨ ∃ u, u ∈ us ∧ lsu_key u = k) ∧
  ((seq_of r' k = seq_of r k ∧ get_link (graph r') s d = get_link (graph r) s d) ∨
   (seq_of r k < seq_of r' k ∧ ∃ u, u ∈ us ∧ lsu_key u = k ∧ lsu_sequence u = seq_of r' k ∧
      get_link (graph r') s d = Some (lsu_metrics u))).
Proof.
  induction us as [|u us IH] using rev_ind; cbn zeta in *.
  { split_and!; [by intros u ?%elem_of_nil| |by left].
    split; [by left|]. intros [?|(u & ?%elem_of_nil & _)]; done. }
  unfold deliver. rewrite foldl_snoc. fold (deliver us r).
  destruct IH as (Hmax & Hdom & Hlink).
  destruct (process_spec u (deliver us r)) as (_ & Hseq & Hdom' & Hget & _).
  rewrite Hseq, Hdom', Hdom, Hget. split_and!.
  - intros v [Hv| ->%list_elem_of_singleton]%elem_of_app Hk.
    + specialize (Hmax v Hv Hk). case_decide; lia.
    + rewrite decide_True by done. lia.
  - setoid_rewrite elem_of_app. setoid_rewrite list_elem_of_singleton.
    split; [intros [[?|(v & ? & ?)]| ->]|intros [?|(v & [?| ->] & ?)]]; eauto 8.
  - destruct (decide ((s, d) = lsu_key u)) as [Hk|Hk].
    + destruct (decide (seq_of (deliver us r) (s, d) < lsu_sequence u)) as [Hn|Hn].
      * right. rewrite decide_True by done. split.
        { destruct Hlink as [[E _]|[? _]]; lia. }
        exists u. rewrite elem_of_app, list_elem_of_singleton. split_and!; [by right|done|lia|done].
      * rewrite decide_False by (by intros []). rewrite Z.max_l by lia.
        destruct Hlink as [?|(? & v & ? & ?)]; [by left|right]. split; [done|].
        exists v. rewrite elem_of_app. auto.
    + rewrite decide_False by (by intros []).
      destruct Hlink as [?|(? & v & ? & ?)]; [by left|right]. split; [done|].
      exists v. rewrite elem_of_app. auto.
Qed.

Lemma deliver_compact us r :
  graph_compact (graph r) → graph_compact (graph (deliver us r)).
Proof.
  revert r. induction us as [|u us IH]; intros r Hc; [done|]. apply IH.
  unfold process_link_state_update. case_decide; cbn [snd graph]; [done|].
  by apply graph_compact_add.
Qed.

Lemma deliver_frame us r :
  local_peer_id (deliver us r) = local_peer_id r ∧
  local_trackers (deliver us r) = local_trackers r ∧
  sequence_generator (deliver us r) = sequence_generator r.
Proof.
  revert r. induction us as [|u us IH]; intros r; [done|].
  destruct (IH (process_link_state_update u r).2) as (H1 & H2 & H3).
  destruct (process_spec u r) as (_ & _ & _ & _ & E1 & E2 & E3). change (deliver (u :: us) r) with (deliver us (process_link_state_update u r).2).
  by rewrite H1, H2, H3.
Qed.

Lemma deliver_nonneg us r k :
  (∀ k, 0 ≤ seq_of r k) → 0 ≤ seq_of (deliver us r) k.
Proof.
  intros Hr. destruct k as [s d], (deliver_spec us r s d) as (_ & _ & [[-> _]|[? _]]); [done|].
  specialize (Hr (s, d)). lia.
Qed.

(** Updates of one link with one sequence number carry the same metrics. *)
Definition consistent (us : list LinkStateUpdate) : Prop :=
  ∀ u v, u ∈ us → v ∈ us → lsu_key u = lsu_key v → lsu_sequence u = lsu_sequence v →
    lsu_metrics u = lsu_metrics v.

Lemma deliver_seq_le us vs r k :
  (∀ u, u ∈ us → u ∈ vs) → seq_of (deliver us r) k ≤ seq_of (deliver vs r) k.
Proof.
  intros Hsub. destruct k as [s d].
  destruct (deliver_spec us r s d) as (_ & _ & [[-> _]|(_ & u & Hu & Hk & <- & _)]).
  - destruct (deliver_spec vs r s d) as (_ & _ & [[-> _]|[? _]]); lia.
  - by apply (deliver_spec vs r s d); [apply Hsub|].
Qed.

Lemma deliver_links us vs r s d :
  consistent us → (∀ u, u ∈ us ↔ u ∈ vs) →
  get_link (graph (deliver us r)) s d = get_link (graph (deliver vs r)) s d.
Proof.
  intros Hc Heq.
  assert (Hseq : seq_of (deliver us r) (s, d) = seq_of (deliver vs r) (s, d))
    by (apply Z.le_antisymm; apply deliver_seq_le; intros; by apply Heq).
  destruct (deliver_spec us r s d) as (_ & _ & [[E1 ->]|(L1 & u & Hu & Ku & Su & ->)]),
    (deliver_spec vs r s d) as (_ & _ & [[E2 ->]|(L2 & v & Hv & Kv & Sv & ->)]); try lia; [done|].
  f_equal. apply Hc; [done|by apply Heq|congruence|congruence].
Qed.

Lemma deliver_sequences us vs r :
  (∀ u, u ∈ us ↔ u ∈ vs) →
  gossip_sequences (deliver us r) = gossip_sequences (deliver vs r).
Proof.
  intros Heq. apply map_eq. intros [s d].
  assert (Hseq : seq_of (deliver us r) (s, d) = seq_of (deliver vs r) (s, d))
    by (apply Z.le_antisymm; apply deliver_seq_le; intros; by apply Heq).
  destruct (deliver_spec us r s d) as (_ & D1 & _), (deliver_spec vs r s d) as (_ & D2 & _).
  assert (D : is_Some (gossip_sequences (deliver us r) !! (s, d)) ↔
              is_Some (gossip_sequences (deliver vs r) !! (s, d))).
  { rewrite D1, D2. by setoid_rewrite Heq. }
  unfold seq_of in Hseq.
  destruct (gossip_sequences (deliver us r) !! (s, d)), (gossip_sequences (deliver vs r) !! (s, d));
    cbn in Hseq; [by subst| | |done].
  - by destruct (proj1 D (mk_is_Some _ _ eq_refl)).
  - by destruct (proj2 D (mk_is_Some _ _ eq_refl)).
Qed.

End process_facts.

(** C6: Gossip converges.  Two routers in the same state that are delivered the same
    set of link-state updates, in whatever order and with whatever repetitions,
    end in the same state: the same topology, metrics and sequence numbers.  (Two
    updates of one link with one sequence number are assumed to be the same
    measurement.) *)
Theorem gossip_convergence us vs r :
  graph_compact (graph r) → consistent us → (∀ u, u ∈ us ↔ u ∈ vs) →
  deliver us r = deliver vs r.
Proof.
  intros Hg Hc Heq.
  destruct (deliver_frame us r) as (A1 & A2 & A3), (deliver_frame vs r) as (B1 & B2 & B3).
  pose proof (deliver_sequences us vs r Heq) as Hs.
  assert (G : graph (deliver us r) = graph (deliver vs r)).
  { apply graph_ext; [by apply deliver_compact..|]. intros. by apply deliver_links. }
  destruct (deliver us r), (deliver vs r). cbn in *. congruence.
Qed.

(** Updates for the examples. *)
Definition sample (src dst : byte) (ms seq : Z) : LinkStateUpdate :=
  mkUpdate (peer src) (peer dst) (link_ms ms) seq 0.

Lemma gossip_convergence_witness :
  deliver [sample Byte.x02 Byte.x03 5 1; sample Byte.x02 Byte.x03 9 2] (router_new (peer Byte.x01)) =
  deliver [sample Byte.x02 Byte.x03 9 2; sample Byte.x02 Byte.x03 5 1; sample Byte.x02 Byte.x03 9 2]
    (router_new (peer Byte.x01)).
Proof.
  apply gossip_convergence.
  - intros u. cbn. by rewrite lookup_empty.
  - intros u v. rewrite !elem_of_cons, !elem_of_nil.
    intros [->|[->|[]]] [->|[->|[]]] _ E; try discriminate E; reflexivity.
  - intros u. rewrite !elem_of_cons, !elem_of_nil. tauto.
Defined.

(** ** Acceptance *)

(** No update is accepted twice.  Whatever is delivered, the accepted updates
    of one link have strictly increasing sequence numbers, all above the number
    stored before; so each update is passed on at most once and flooding stops. *)
Theorem accepted_increasing us r k :
  StronglySorted Z.lt
    (seq_of r k :: map lsu_sequence (filter (λ u, lsu_key u = k) (accepted us r))).
Proof.
  revert r. induction us as [|u us IH]; intros r; [repeat constructor|].
  cbn [accepted]. destruct (process_spec u r) as (Hacc & Hseq & _).
  destruct (process_link_state_update u r) as [fresh r'] eqn:E. cbn [fst snd] in *.
  specialize (IH r'). specialize (Hseq k). subst fresh.
  case_bool_decide as Hlt.
  - rewrite filter_cons. destruct (decide (lsu_key u = k)) as [<-|Hk].
    + rewrite decide_True in Hseq by done. rewrite Z.max_r in Hseq by lia.
      rewrite Hseq in IH. cbn [map]. constructor; [done|]. constructor; [done|].
      apply StronglySorted_inv in IH as [_ IH]. eapply Forall_impl; [exact IH|].
      cbn. intros. lia.
    + rewrite decide_False in Hseq by congruence. by rewrite <- Hseq.
  - destruct (decide (lsu_key u = k)) as [<-|Hk].
    + rewrite decide_True, Z.max_l in Hseq by (done || lia). by rewrite <- Hseq.
    + rewrite decide_False in Hseq by congruence. by rewrite <- Hseq.
Qed.

(** The updates a node emits for a list of its neighbours. *)
Fixpoint announce (now : option Z) (peers : list PeerId) (r : Router)
    : list LinkStateUpdate * Router :=
  match peers with
  | [] => ([], r)
  | p :: peers =>
      let '(u, r) := get_link_state_update now p r in
      let '(us, r) := announce now peers r in
      (match u with Some u => u :: us | None => us end, r)
  end.

(** A sender whose next sequence number is above what the receiver holds for its
    links, with enough numbers left before the counter wraps. *)
Definition in_step (n : nat) (sender receiver : Router) : Prop :=
  sequence_generator sender + Z.of_nat n ≤ U64_MAX ∧ 0 ≤ sequence_generator sender ∧
  ∀ d, seq_of receiver (local_peer_id sender, d) < sequence_generator sender.

Lemma get_update_cases now p r :
  (local_trackers r !! p = None ∧ get_link_state_update now p r = (None, r)) ∨
  ∃ t, local_trackers r !! p = Some t ∧
    get_link_state_update now p r =
      (Some (mkUpdate (local_peer_id r) p (metrics t) (sequence_generator r) (default 0 now)),
       mkRouter (local_peer_id r) (local_trackers r) (graph r) (gossip_sequences r)
         (u64_wrapping_add (sequence_generator r) 1)).
Proof.
  unfold get_link_state_update. destruct (local_trackers r !! p) as [t|]; eauto.
Qed.

Lemma in_step_next n p t now sender receiver :
  in_step (S n) sender receiver →
  let u := mkUpdate (local_peer_id sender) p (metrics t) (sequence_generator sender) now in
  process_link_state_update u receiver = (true, (process_link_state_update u receiver).2) ∧
  in_step n (mkRouter (local_peer_id sender) (local_trackers sender) (graph sender)
               (gossip_sequences sender) (u64_wrapping_add (sequence_generator sender) 1))
    (process_link_state_update u receiver).2.
Proof.
  intros (Hmax & H0 & Hlt) u. destruct (process_spec u receiver) as (Hacc & Hseq & _).
  rewrite bool_decide_true in Hacc by apply Hlt. split.
  - destruct (process_link_state_update u receiver). cbn in *. by subst.
  - unfold in_step. cbn [sequence_generator local_peer_id].
    unfold u64_wrapping_add, U64_MAX in *. rewrite Z.mod_small by lia.
    split_and!; [lia..|]. intros d. rewrite Hseq. cbn [lsu_sequence u]. specialize (Hlt d).
    case_decide; lia.
Qed.

Lemma announce_step now ps : ∀ sender receiver,
  in_step (length ps) sender receiver →
  accepted (announce now ps sender).1 receiver = (announce now ps sender).1.
Proof.
  induction ps as [|p ps IH]; intros sender receiver Hstep; [done|]. cbn [announce].
  destruct (get_update_cases now p sender) as [[_ ->]|(t & _ & ->)].
  - assert (H : in_step (length ps) sender receiver).
    { destruct Hstep as (H1 & H2 & H3). unfold in_step. cbn [length] in H1. split_and!; auto; lia. }
    specialize (IH _ _ H). by destruct (announce now ps sender).
  - destruct (in_step_next (length ps) p t (default 0 now) sender receiver Hstep) as [Ha Hs].
    specialize (IH _ _ Hs). destruct (announce now ps _) as [us r']. cbn [fst] in *.
    cbn [accepted]. rewrite Ha. by f_equal.
Qed.

Lemma announce_length now ps : ∀ r, (length (announce now ps r).1 ≤ length ps)%nat.
Proof.
  induction ps as [|p ps IH]; intros r; [done|]. cbn [announce].
  destruct (get_link_state_update now p r) as [u r1]. specialize (IH r1).
  destruct (announce now ps r1) as [us r2]. destruct u; cbn in *; lia.
Qed.

Lemma announce_sound now ps : ∀ sender u,
  u ∈ (announce now ps sender).1 →
  ∃ t, local_trackers sender !! lsu_destination u = Some t ∧
    lsu_metrics u = metrics t ∧ lsu_source u = local_peer_id sender.
Proof.
  induction ps as [|p ps IH]; intros sender u Hu; [by apply elem_of_nil in Hu|].
  cbn [announce] in Hu.
  destruct (get_update_cases now p sender) as [[_ E]|(t & Ht & E)]; rewrite E in Hu.
  - specialize (IH sender u). destruct (announce now ps sender). by apply IH.
  - specialize (IH (mkRouter (local_peer_id sender) (local_trackers sender) (graph sender)
         (gossip_sequences sender) (u64_wrapping_add (sequence_generator sender) 1)) u).
    destruct (announce now ps _) as [us r']. cbn [fst] in *.
    apply elem_of_cons in Hu as [->|Hu]; [by exists t|by apply IH].
Qed.

Lemma announce_complete now ps : ∀ sender p t,
  p ∈ ps → local_trackers sender !! p = Some t →
  ∃ u, u ∈ (announce now ps sender).1 ∧ lsu_key u = (local_peer_id sender, p).
Proof.
  induction ps as [|q ps IH]; intros sender p t Hp Ht; [by apply elem_of_nil in Hp|].
  cbn [announce].
  destruct (get_update_cases now q sender) as [[Hn ->]|(t' & Ht' & ->)].
  - apply elem_of_cons in Hp as [->|Hp]; [congruence|].
    specialize (IH sender p t Hp Ht). by destruct (announce now ps sender).
  - apply elem_of_cons in Hp as [->|Hp].
    + destruct (announce now ps _). eexists. split; [left|done].
    + set (s' := mkRouter _ _ _ _ _). specialize (IH s' p t Hp Ht).
      destruct (announce now ps s') as [us r']. destruct IH as (u & Hu & Hk).
      exists u. split; [by right|done].
Qed.

(** The newest sequence number wins, so an accepted delivery shows its metrics. *)
Lemma deliver_accepted_link us r s d :
  accepted us r = us → (∃ u, u ∈ us ∧ lsu_key u = (s, d)) →
  ∃ u, u ∈ us ∧ lsu_key u = (s, d) ∧ get_link (graph (deliver us r)) s d = Some (lsu_metrics u).
Proof.
  revert r. induction us as [|u us IH]; intros r Ha (v & Hv & Hk); [by apply elem_of_nil in Hv|].
  cbn [accepted] in Ha. destruct (process_spec u r) as (Hacc & _ & _ & Hget & _).
  change (deliver (u :: us) r) with (deliver us (process_link_state_update u r).2).
  destruct (process_link_state_update u r) as [fresh r']. cbn [fst snd] in *.
  destruct fresh.
  2:{ assert (Hl : ∀ us r, (length (accepted us r) ≤ length us)%nat).
      { clear. induction us as [|u us IH]; intros r; [done|]. cbn.
        destruct (process_link_state_update u r) as [[] r']; cbn; specialize (IH r'); lia. }
      specialize (Hl us r'). rewrite Ha in Hl. cbn in Hl. lia. }
  injection Ha as Ha. symmetry in Hacc. apply bool_decide_eq_true in Hacc.
  destruct (deliver_spec us r' s d) as (_ & _ & [[_ E]|(_ & w & Hw & Kw & _ & E)]).
  - apply elem_of_cons in Hv as [->|Hv].
    + exists u. split_and!; [left|done|]. rewrite E, Hget, decide_True; [done|].
      by rewrite <- Hk.
    + destruct (IH r' Ha) as (w & ? & ? & ?); [by eauto|]. exists w. split_and!; [by right|done..].
  - exists w. split_and!; [by right|done..].
Qed.

(** A receiver in step holds what the sender announced. *)
Lemma announce_delivered now ps sender receiver :
  in_step (length ps) sender receiver →
  let us := (announce now ps sender).1 in
  accepted us receiver = us ∧
  ∀ p t, p ∈ ps → local_trackers sender !! p = Some t →
    get_link (graph (deliver us receiver)) (local_peer_id sender) p = Some (metrics t).
Proof.
  intros Hs us. pose proof (announce_step now ps sender receiver Hs) as Ha. split; [done|].
  intros p t Hp Ht.
  destruct (deliver_accepted_link us receiver (local_peer_id sender) p Ha) as (u & Hu & Hk & ->).
  { by eapply announce_complete. }
  destruct (announce_sound now ps sender u Hu) as (t' & Ht' & -> & _).
  injection Hk as _ Hd. congruence.
Qed.

(** C30: Announcements get through.  While the 64-bit counter has not wrapped, a
    receiver that is in step with a sender accepts every update the sender emits,
    in emission order, and then holds for each announced neighbour exactly the
    metrics the sender tracks. *)
Theorem announcements_accepted now ps sender receiver :
  in_step (length ps) sender receiver →
  let us := (announce now ps sender).1 in
  accepted us receiver = us ∧
  ∀ p t, p ∈ ps → local_trackers sender !! p = Some t →
    get_link (graph (deliver us receiver)) (local_peer_id sender) p = Some (metrics t).
Proof. apply announce_delivered. Qed.

Lemma announcements_accepted_witness :
  let sender := router_record_latency (peer Byte.x02) (f64_of_Z 30) (router_new (peer Byte.x01)) in
  let receiver := router_new (peer Byte.x03) in
  let us := (announce None [peer Byte.x02; peer Byte.x02] sender).1 in
  length us = 2%nat ∧ accepted us receiver = us.
Proof.
  intros sender receiver us. split; [vm_compute; reflexivity|].
  apply (announcements_accepted None [peer Byte.x02; peer Byte.x02] sender receiver).
  split; [vm_compute; discriminate|]. split; [vm_compute; discriminate|].
  intros d. unfold seq_of. cbn [gossip_sequences receiver router_new].
  rewrite lookup_empty. reflexivity.
Defined.

(** The numbers of a run of announcements about one neighbour. *)
Lemma announce_sequences now b n : ∀ sender u,
  0 ≤ sequence_generator sender →
  sequence_generator sender + Z.of_nat n ≤ U64_MAX + 1 →
  u ∈ (announce now (replicate n b) sender).1 →
  lsu_key u = (local_peer_id sender, b) ∧
  lsu_sequence u < sequence_generator sender + Z.of_nat n.
Proof.
  induction n as [|n IH]; intros sender u H0 Hmax Hu; [by apply elem_of_nil in Hu|].
  cbn [replicate announce] in Hu.
  destruct (get_update_cases now b sender) as [[_ E]|(t & _ & E)]; rewrite E in Hu.
  - specialize (IH sender u H0 ltac:(lia)). destruct (announce now _ sender).
    destruct (IH Hu). split; [done|lia].
  - set (s' := mkRouter _ _ _ _ _) in Hu.
    assert (Hs : n = 0%nat ∨ sequence_generator s' = sequence_generator sender + 1).
    { destruct n; [by left|right]. cbn. unfold u64_wrapping_add, U64_MAX in *.
      apply Z.mod_small. lia. }
    specialize (IH s' u). destruct (announce now _ s') eqn:Ea. cbn [fst] in *.
    apply elem_of_cons in Hu as [->|Hu]; [cbn; split; [done|lia]|].
    destruct Hs as [->|Hs]; [injection Ea as <- _; by apply elem_of_nil in Hu|].
    destruct IH; [lia..|done|]. split; [done|lia].
Qed.

(** Old updates change nothing but the bookkeeping. *)
Lemma deliver_rejected us : ∀ r,
  (∀ u, u ∈ us → lsu_sequence u ≤ seq_of r (lsu_key u)) →
  accepted us r = [] ∧ ∀ s d, get_link (graph (deliver us r)) s d = get_link (graph r) s d.
Proof.
  induction us as [|u us IH]; intros r Hr; [done|]. cbn [accepted].
  destruct (process_spec u r) as (Hacc & Hseq & _ & Hget & _).
  change (deliver (u :: us) r) with (deliver us (process_link_state_update u r).2).
  assert (Hle := Hr u ltac:(left)). rewrite bool_decide_false in Hacc by lia.
  destruct (process_link_state_update u r) as [fresh r']. cbn [fst snd] in *. subst fresh.
  destruct (IH r') as [-> IH2].
  - intros v Hv. rewrite Hseq. specialize (Hr v ltac:(by right)). case_decide; lia.
  - split; [done|]. intros s d. rewrite IH2, Hget, decide_False; [done|].
    intros [E Hlt]. rewrite E in Hlt. lia.
Qed.

(** Sequence numbers restart from 1 with the process, while receivers keep the
    greatest number seen: after a restart, the first updates of a node about a
    link, as many as the number its peers remember, are all dropped and leave the
    topology as it was. *)
Theorem restarted_sender_ignored n sender receiver b now :
  sequence_generator sender = 1 →
  Z.of_nat n ≤ seq_of receiver (local_peer_id sender, b) ≤ U64_MAX →
  let us := (announce now (replicate n b) sender).1 in
  accepted us receiver = [] ∧
  ∀ s d, get_link (graph (deliver us receiver)) s d = get_link (graph receiver) s d.
Proof.
  intros Hg Hn us. apply deliver_rejected. intros u Hu.
  destruct (announce_sequences now b n sender u) as [-> Hlt]; [lia..|done|]. lia.
Qed.

Lemma restarted_sender_ignored_witness :
  let sender := router_record_latency (peer Byte.x02) (f64_of_Z 30) (router_new (peer Byte.x01)) in
  let receiver := deliver [sample Byte.x01 Byte.x02 10 7] (router_new (peer Byte.x03)) in
  let us := (announce None (replicate 7 (peer Byte.x02)) sender).1 in
  length us = 7%nat ∧ accepted us receiver = [].
Proof.
  intros sender receiver us. split; [vm_compute; reflexivity|].
  apply (restarted_sender_ignored 7 sender receiver (peer Byte.x02) None); [reflexivity|].
  split; vm_compute; discriminate.
Defined.

(** ** Reachable routers *)

(** The states of a router of [local]: measurements are finite non-negative
    numbers (loss rates any number but NaN), gossip is any update that satisfies
    [admissible]. *)
Inductive router_reachable (admissible : LinkStateUpdate → Prop) (local : PeerId)
    : Router → Prop :=
| rr_new : router_reachable admissible local (router_new local)
| rr_latency p x r :
    f64_wf x → f64_finite x = true → router_reachable admissible local r →
    router_reachable admissible local (router_record_latency p x r)
| rr_bandwidth p x r :
    f64_wf x → f64_finite x = true → router_reachable admissible local r →
    router_reachable admissible local (router_record_bandwidth p x r)
| rr_loss p x r :
    f64_valid x = true → f64_is_nan x = false → router_reachable admissible local r →
    router_reachable admissible local (router_record_loss_rate p x r)
| rr_announce now p r :
    router_reachable admissible local r →
    router_reachable admissible local (get_link_state_update now p r).2
| rr_gossip u r :
    admissible u → router_reachable admissible local r →
    router_reachable admissible local (process_link_state_update u r).2.

Record router_ok (local : PeerId) (r : Router) : Prop := {
  ok_local : local_peer_id r = local;
  ok_trackers p t : local_trackers r !! p = Some t → tracker_reachable t;
  ok_graph : graph_ok (graph r);
  ok_compact : graph_compact (graph r);
  ok_links p t : local_trackers r !! p = Some t → is_Some (get_link (graph r) local p);
}.

Lemma tracker_reachable_wf t : tracker_reachable t → f64_wf (cost (metrics t)).
Proof. intros Ht. by apply cost_wf, tracker_ok_sane, tracker_reachable_inv. Qed.

(** A measurement: the tracker is updated, then its metrics enter the graph. *)
Lemma measure_spec f p r :
  let t := f (default (tracker_new LinkMetrics_default) (local_trackers r !! p)) in
  let r' := update_graph_link p (update_tracker f p r) in
  local_peer_id r' = local_peer_id r ∧
  local_trackers r' = <[p := t]> (local_trackers r) ∧
  graph r' = add_link (local_peer_id r) p (metrics t) (graph r) ∧
  gossip_sequences r' = gossip_sequences r ∧
  sequence_generator r' = sequence_generator r.
Proof.
  cbn zeta. unfold update_graph_link, update_tracker.
  cbn [local_trackers local_peer_id graph gossip_sequences sequence_generator].
  by rewrite lookup_insert_eq.
Qed.

Lemma measure_ok local f p r :
  (∀ t, tracker_reachable t → tracker_reachable (f t)) →
  router_ok local r → router_ok local (update_graph_link p (update_tracker f p r)).
Proof.
  intros Hf [<- Ht Hg Hc Hl]. destruct (measure_spec f p r) as (E1 & E2 & E3 & _).
  set (t := f _) in *. assert (Hr : tracker_reachable t).
  { apply Hf. destruct (local_trackers r !! p) as [t'|] eqn:E; [by eapply Ht|].
    apply reach_default. }
  constructor; rewrite ?E1, ?E2, ?E3; [done|..].
  - intros q t'. rewrite lookup_insert. case_decide; [by intros [= <-]|apply Ht].
  - apply graph_ok_add; [done|]. by apply tracker_reachable_wf.
  - by apply graph_compact_add.
  - intros q t'. rewrite lookup_insert, get_add_link. case_decide as Hq.
    + intros _. rewrite decide_True by done. by eauto.
    + intros Hq'. case_decide; [by eauto|]. by eapply Hl.
Qed.

Lemma router_reachable_ok admissible local r :
  (∀ u, admissible u → f64_wf (cost (lsu_metrics u))) →
  router_reachable admissible local r → router_ok local r.
Proof.
  intros Ha. induction 1 as [|p x r W F _ IH|p x r W F _ IH|p x r V N _ IH|now p r _ IH|u r Hu _ IH].
  - constructor; cbn; [done|by intros p t; rewrite lookup_empty|apply graph_ok_new| |].
    + intros u. cbn. by rewrite lookup_empty.
    + intros p t. by rewrite lookup_empty.
  - apply measure_ok; [by constructor|done].
  - apply measure_ok; [by constructor|done].
  - apply measure_ok; [by constructor|done].
  - destruct IH. destruct (get_update_cases now p r) as [[_ ->]|(t & _ & ->)]; by constructor.
  - destruct IH as [<- Ht Hg Hc Hl].
    destruct (process_spec u r) as (_ & _ & _ & Hget & E1 & E2 & _).
    constructor; rewrite ?E1, ?E2; [done|done|..].
    + intros s d m. rewrite Hget. case_decide; [intros [= <-]; by apply Ha|apply Hg].
    + by apply (deliver_compact [u]).
    + intros p t Hp. rewrite Hget. case_decide; [by eauto|by eapply Hl].
Qed.

(** The links of the local node read as its trackers' metrics. *)
Definition links_tracked (local : PeerId) (r : Router) : Prop :=
  local_peer_id r = local ∧
  ∀ p, get_link (graph r) local p = metrics <$> local_trackers r !! p.

Lemma measure_links_tracked local f p r :
  links_tracked local r → links_tracked local (update_graph_link p (update_tracker f p r)).
Proof.
  intros [<- IH]. destruct (measure_spec f p r) as (E1 & E2 & E3 & _). split; [done|].
  intros q. rewrite E2, E3, get_add_link, lookup_insert, IH. case_decide as Hc.
  - destruct Hc as [_ ->]. by rewrite decide_True.
  - rewrite decide_False; [done|]. intros ->. by apply Hc.
Qed.

(** A node's own links are what it measures.  As long as no peer gossips links on
    behalf of the node itself, in every reachable state the links from the local
    node in the route graph are exactly the metrics of its trackers. *)
Theorem local_links_tracked local r p :
  router_reachable (λ u, lsu_source u ≠ local) local r →
  get_link (graph r) local p = metrics <$> local_trackers r !! p.
Proof.
  intros H. enough (E : links_tracked local r) by apply E. clear p.
  induction H as [|p x r W F _ IH|p x r W F _ IH|p x r V N _ IH|now p r _ IH|u r Hu _ IH];
    [|by apply measure_links_tracked..| |].
  - split; [done|]. intros p. unfold get_link. cbn. by rewrite !lookup_empty.
  - by destruct (get_update_cases now p r) as [[_ ->]|(t & _ & ->)].
  - unfold links_tracked in *.
    destruct (process_spec u r) as (_ & _ & _ & Hget & -> & -> & _). destruct IH as [-> IH].
    split; [done|]. intros q. rewrite Hget, decide_False; [apply IH|].
    intros [[= E _] _]. by apply Hu.
Qed.

Lemma local_links_tracked_witness :
  let r := (process_link_state_update (sample Byte.x02 Byte.x03 9 1)
             (router_record_latency (peer Byte.x02) (f64_of_Z 30) (router_new (peer Byte.x01)))).2 in
  get_link (graph r) (peer Byte.x01) (peer Byte.x02) =
    metrics <$> local_trackers r !! peer Byte.x02.
Proof.
  apply local_links_tracked. apply rr_gossip; [vm_compute; discriminate|].
  apply rr_latency; [split; reflexivity|reflexivity|apply rr_new].
Defined.

(** *** Several threads

    Recording a measurement is two steps: the tracker is updated under its lock, and then
    the graph link is refreshed from the tracker, with the tracker locked for reading.
    Other threads run in between.  A thread is idle ([None]) or about to refresh the link
    of a peer.  Generating and processing updates are one step each: they keep the lock of
    the tracker, or of the sequence number, to the end. *)
Inductive recording_step (admissible : LinkStateUpdate → Prop)
    : Router * list (option PeerId) → Router * list (option PeerId) → Prop :=
| rec_tracker k f p r ts :
    ts !! k = Some None →
    recording_step admissible (r, ts) (update_tracker f p r, <[k := Some p]> ts)
| rec_refresh k p r ts :
    ts !! k = Some (Some p) →
    recording_step admissible (r, ts) (update_graph_link p r, <[k := None]> ts)
| rec_announce now p r ts :
    recording_step admissible (r, ts) ((get_link_state_update now p r).2, ts)
| rec_gossip u r ts :
    admissible u → recording_step admissible (r, ts) ((process_link_state_update u r).2, ts).

(** A link is what its tracker says, or some thread is about to make it so. *)
Definition links_tracked_but (local : PeerId) (s : Router * list (option PeerId)) : Prop :=
  local_peer_id s.1 = local ∧
  (∀ k p, s.2 !! k = Some (Some p) → is_Some (local_trackers s.1 !! p)) ∧
  ∀ p, (∃ k, s.2 !! k = Some (Some p)) ∨
       get_link (graph s.1) local p = metrics <$> local_trackers s.1 !! p.

Lemma update_graph_link_spec p r t :
  local_trackers r !! p = Some t →
  let r' := update_graph_link p r in
  local_peer_id r' = local_peer_id r ∧ local_trackers r' = local_trackers r ∧
  ∀ q, get_link (graph r') (local_peer_id r) q =
    if decide (q = p) then Some (metrics t) else get_link (graph r) (local_peer_id r) q.
Proof.
  intros E. unfold update_graph_link. rewrite E. cbn. split_and!; [done..|].
  intros q. rewrite get_add_link. repeat case_decide; naive_solver.
Qed.

Lemma recording_step_tracked local s s' :
  links_tracked_but local s → recording_step (λ u, lsu_source u ≠ local) s s' → links_tracked_but local s'.
Proof.
  intros (Hl & Ht & IH) Hs.
  inversion Hs as [k f p r ts Hk|k p r ts Hk|now p r ts|u r ts Hu]; subst; unfold links_tracked_but; cbn [fst snd] in *.
  - cbn [update_tracker local_peer_id local_trackers graph]. split; [done|]. split.
    + intros k' q. rewrite list_lookup_insert. case_decide; [intros [= <-]|intros Hq%Ht];
        rewrite lookup_insert; case_decide; naive_solver.
    + intros q. destruct (decide (q = p)) as [->|Hq].
      * left. exists k. apply list_lookup_insert_eq. by eapply lookup_lt_Some.
      * rewrite lookup_insert_ne by done. destruct (IH q) as [[k' Hk']|E]; [left|by right].
        exists k'. rewrite list_lookup_insert_ne; [done|]. intros ->. by rewrite Hk in Hk'.
  - destruct (Ht _ _ Hk) as [t Et]. destruct (update_graph_link_spec p r t Et) as (E1 & E2 & E3).
    rewrite E1, E2. split; [done|]. split.
    + intros k' q. rewrite list_lookup_insert. case_decide; [done|apply Ht].
    + intros q. rewrite E3. case_decide as Hq; [right; subst q; by rewrite Et|].
      destruct (IH q) as [[k' Hk']|E]; [left|by right].
      exists k'. rewrite list_lookup_insert_ne; [done|]. intros ->. rewrite Hk in Hk'. congruence.
  - by destruct (get_update_cases now p r) as [[_ ->]|(t & _ & ->)].
  - destruct (process_spec u r) as (_ & _ & _ & Hget & -> & -> & _). split; [done|]. split; [done|].
    intros q. rewrite Hget, decide_False; [apply IH|]. intros [[= E _] _]. by apply Hu.
Qed.

(** C22: A node's own links are what it measures, also when its sessions measure at the same
    time.  However the threads that record measurements interleave with each other and
    with gossip (about links of other nodes), whenever no thread is between its two steps
    for a peer, the link to that peer in the route graph is exactly what its tracker says;
    and until then some thread is about to make it so. *)
Theorem concurrent_links_tracked local ts r ts' :
  Forall (λ t, t = None) ts →
  rtc (recording_step (λ u, lsu_source u ≠ local)) (router_new local, ts) (r, ts') →
  ∀ p, (∃ k, ts' !! k = Some (Some p)) ∨
       get_link (graph r) local p = metrics <$> local_trackers r !! p.
Proof.
  intros Hts Hr. change r with (r, ts').1. change ts' with (r, ts').2 at 1.
  assert (H0 : links_tracked_but local (router_new local, ts)).
  { split_and!; [done|..].
    - intros k p Hk. by apply (Forall_lookup_1 _ _ _ _ Hts) in Hk.
    - intros p. right. unfold get_link. cbn. by rewrite !lookup_empty. }
  enough (H : links_tracked_but local (r, ts')) by apply H.
  remember (router_new local, ts) as s eqn:E. clear E Hts. remember (r, ts') as s' eqn:E'. clear E'.
  induction Hr as [|s s1 s' Hs _ IH]; [done|]. apply IH. by eapply recording_step_tracked.
Qed.

Lemma concurrent_links_tracked_witness :
  let local := peer Byte.x01 in let p := peer Byte.x02 in
  let f := record_latency (f64_of_Z 30) in let g := record_latency (f64_of_Z 50) in
  let r := update_graph_link p (update_graph_link p (update_tracker g p (update_tracker f p (router_new local)))) in
  get_link (graph r) local p = metrics <$> local_trackers r !! p.
Proof.
  intros local p f g r.
  destruct (concurrent_links_tracked local [None; None] r [None; None]) with p as [[k Hk]|H].
  - repeat constructor.
  - eapply rtc_l; [by apply (rec_tracker _ 0 f p)|]. eapply rtc_l; [by apply (rec_tracker _ 1 g p)|].
    eapply rtc_l; [by apply (rec_refresh _ 0 p)|]. apply rtc_once. by apply (rec_refresh _ 1 p).
  - destruct k as [|[|k]]; discriminate Hk.
  - exact H.
Defined.

(** ** Routes and next hops *)

Lemma walk_head g s v c p : walk g s v c p → ∃ q, p = s :: q ∧ last p = Some v.
Proof.
  induction 1 as [|u v m c p _ (q & -> & _) _]; [by eexists|].
  exists (q ++ [v]). split; [done|]. by rewrite last_snoc.
Qed.

Lemma walk_first_link g s v c p : walk g s v c p →
  ∀ h q, p = s :: h :: q → is_Some (get_link g s h).
Proof.
  induction 1 as [|u v m c p Hw IH Hl]; intros h q E; [done|].
  destruct (walk_head _ _ _ _ _ Hw) as (q' & -> & Hlast). destruct q' as [|h' q'].
  - cbn in Hlast. injection Hlast as <-. injection E as <- _. by eauto.
  - injection E as <- _. by eapply IH.
Qed.

(** C32: Forwarding is sound.  In every state a router reaches from sane
    measurements and gossip with non-negative costs, [next_hop] returns.  A hop it
    returns is a direct neighbour of the local node and the second node of the
    route [find_route] returns, which is loop free and of least cost; it returns
    no hop only for the local node itself or for a target that no walk of cost
    below [f64::MAX] reaches. *)
Theorem next_hop_sound {HP : Heap} {HL : HeapLaws HP} {NO : NeighbourOrder}
    {NL : NeighbourOrderLaws NO} local r target fuel :
  router_reachable (λ u, f64_wf (cost (lsu_metrics u))) local r →
  (edge_count (graph r) + 2 ≤ fuel)%nat →
  (∃ h q c, next_hop fuel r target = Some (Some h) ∧
     is_Some (get_link (graph r) local h) ∧
     find_route fuel r target = Some (Some (local :: h :: q)) ∧
     NoDup (local :: h :: q) ∧ walk (graph r) local target c (local :: h :: q) ∧
     ∀ c' p', walk (graph r) local target c' p' → f64_le c c' = true) ∨
  (next_hop fuel r target = Some None ∧
     (target = local ∨
      ∀ c' p', walk (graph r) local target c' p' → f64_lt c' f64_MAX = false)).
Proof.
  intros Hr Hf. destruct (router_reachable_ok _ _ _ (λ u H, H) Hr) as [<- _ Hg _ _].
  destruct (find_shortest_path_total (graph r) (local_peer_id r) target fuel Hg Hf)
    as (res & E & Hok).
  unfold next_hop. change (find_route fuel r target) with
    (find_shortest_path fuel (graph r) (local_peer_id r) target). rewrite E.
  destruct res as [p|]; [|right; split; [done|by right]].
  destruct Hok as (c & Hw & Hnd & _ & Hmin). destruct (walk_head _ _ _ _ _ Hw) as (q & -> & Hlast).
  destruct q as [|h q]; [right|left].
  - split; [done|left]. cbn in Hlast. congruence.
  - exists h, q, c. split_and!; try done. by eapply walk_first_link.
Qed.

Lemma next_hop_sound_witness :
  let r := (process_link_state_update (sample Byte.x02 Byte.x03 9 1)
             (router_record_latency (peer Byte.x02) (f64_of_Z 30) (router_new (peer Byte.x01)))).2 in
  @next_hop list_heap default_order 4 r (peer Byte.x03) = Some (Some (peer Byte.x02)) ∧
  is_Some (get_link (graph r) (peer Byte.x01) (peer Byte.x02)).
Proof.
  intros r.
  assert (E : @next_hop list_heap default_order 4 r (peer Byte.x03) = Some (Some (peer Byte.x02)))
    by (vm_compute; reflexivity).
  split; [exact E|].
  destruct (@next_hop_sound list_heap list_heap_laws default_order default_order_laws
    (peer Byte.x01) r (peer Byte.x03) 4) as [(h & q & c & Hh & Hl & _)|[Hn _]].
  - apply rr_gossip; [split; vm_compute; reflexivity|].
    apply rr_latency; [split; reflexivity|reflexivity|apply rr_new].
  - vm_compute. lia.
  - rewrite E in Hh. injection Hh as <-. exact Hl.
  - rewrite E in Hn. discriminate Hn.
Defined.
