(* ===== verification/Kdf.v ===== *)
(** * omnimesh-crypto: key derivation ([kdf.rs])

    HKDF-SHA256 with domain separation.  The [hkdf] crate is a parameter; the code
    relies on its documented bound: expansion to at most [255 * 32] bytes
    succeeds and fills the output. *)

From S2P Require Import Prelude Error.

(** [Hkdf::<Sha256>::new(salt, ikm).expand(info, out)] with [out] of the given
    length. *)
Class Hkdf := hkdf_expand :
  option (list byte) → list byte → list byte → nat → string + list byte.

Class HkdfLaws (K : Hkdf) : Prop := hkdf_expand_ok : ∀ salt ikm info n,
  n ≤ 255 * 32 → ∃ out, hkdf_expand salt ikm info n = inr out ∧ length out = n.

(** [b"..."] *)
Definition label (s : string) : list byte := String.list_byte_of_string s.

(** ** Domain separation labels *)

Definition TRANSPORT : list byte := label "omnimesh-transport-v1".
Definition SESSION_RATCHET : list byte := label "omnimesh-session-ratchet-v1".
Definition KEYSTORE : list byte := label "omnimesh-keystore-v1".
Definition NOISE_PROLOGUE : list byte := label "omnimesh-noise-prologue-v1".
Definition MESSAGE_AUTH : list byte := label "omnimesh-message-auth-v1".

Section kdf.
Context `{K : Hkdf}.

Definition derive_key (ikm : list byte) (salt : option (list byte)) (info : list byte)
    (output_len : nat) : Result (list byte) :=
  if decide (output_len = 0) then Err (KeyDerivation "output length must be > 0")
  else if decide (255 * 32 < output_len) then
    Err (KeyDerivation ("output length " +:+ pretty output_len +:+
                        " exceeds HKDF-SHA256 maximum (8160)"))
  else of_lib (λ e, KeyDerivation ("HKDF expand failed: " +:+ e))
         (hkdf_expand salt ikm info output_len).

Definition derive_key_256 (ikm : list byte) (salt : option (list byte)) (info : list byte)
    : Result (vec byte 32) :=
  derived ← derive_key ikm salt info 32;
  or_panic (array_of_list 32 derived).

Definition derive_key_pair (ikm : list byte) (salt : option (list byte)) (info : list byte)
    : Result (vec byte 32 * vec byte 32) :=
  derived ← derive_key ikm salt info 64;
  enc_key ← or_panic (array_of_list 32 (take 32 derived));
  auth_key ← or_panic (array_of_list 32 (drop 32 derived));
  Ok (enc_key, auth_key).

Definition ratchet_key (current_key : vec byte 32) : Result (vec byte 32) :=
  derive_key_256 (vec_to_list current_key) None SESSION_RATCHET.

End kdf.

(** ** Properties *)

(** No label is a prefix of another, so no two purposes ever share an [info]. *)
Lemma labels_prefix_free i j l m :
  [TRANSPORT; SESSION_RATCHET; KEYSTORE; NOISE_PROLOGUE; MESSAGE_AUTH] !! i = Some l →
  [TRANSPORT; SESSION_RATCHET; KEYSTORE; NOISE_PROLOGUE; MESSAGE_AUTH] !! j = Some m →
  l `prefix_of` m → i = j.
Proof.
  intros Hi Hj Hp.
  destruct i as [|[|[|[|[|i]]]]], j as [|[|[|[|[|j]]]]]; cbn in Hi, Hj; try done;
    injection Hi as <-; injection Hj as <-; exfalso; revert Hp;
    apply (bool_decide_eq_false _); vm_compute; reflexivity.
Qed.

Section kdf_facts.
Context `{K : Hkdf, !HkdfLaws K}.

Lemma derive_key_spec ikm salt info n :
  if decide (1 ≤ n ≤ 255 * 32)
  then ∃ out, derive_key ikm salt info n = Ok out ∧
         hkdf_expand salt ikm info n = inr out ∧ length out = n
  else ∃ msg, derive_key ikm salt info n = Err (KeyDerivation msg).
Proof.
  unfold derive_key. case_decide as Hn.
  - rewrite !decide_False by lia.
    destruct (hkdf_expand_ok salt ikm info n) as (out & E & L); [lia|].
    rewrite E. by exists out.
  - case_decide; [by eexists|]. rewrite decide_True by lia. by eexists.
Qed.

Lemma derive_key_ok ikm salt info n :
  1 ≤ n ≤ 255 * 32 → ∃ out, derive_key ikm salt info n = Ok out ∧ length out = n.
Proof.
  intros Hn. pose proof (derive_key_spec ikm salt info n) as H.
  rewrite decide_True in H by done. destruct H as (out & ? & _ & ?). eauto.
Qed.

Lemma derive_key_256_ok ikm salt info : ∃ k, derive_key_256 ikm salt info = Ok k.
Proof.
  unfold derive_key_256. destruct (derive_key_ok ikm salt info 32) as (out & -> & L); [lia|].
  destruct (array_of_list_length 32 out L) as [k E]. exists k. cbn. by rewrite E.
Qed.

Lemma derive_key_pair_ok ikm salt info :
  ∃ a b, derive_key_pair ikm salt info = Ok (a, b) ∧
    derive_key ikm salt info 64 = Ok (vec_to_list a ++ vec_to_list b).
Proof.
  unfold derive_key_pair. destruct (derive_key_ok ikm salt info 64) as (out & -> & L); [lia|].
  destruct (array_of_list_length 32 (take 32 out)) as [a Ea]; [rewrite length_take; lia|].
  destruct (array_of_list_length 32 (drop 32 out)) as [b Eb]; [rewrite length_drop; lia|].
  exists a, b. cbn. rewrite Ea. cbn. rewrite Eb. split; [done|].
  apply array_of_list_Some in Ea as ->. apply array_of_list_Some in Eb as ->.
  by rewrite take_drop.
Qed.

Lemma ratchet_key_ok k : ∃ k', ratchet_key k = Ok k'.
Proof. apply derive_key_256_ok. Qed.

(** Key derivation is total.  [derive_key] succeeds exactly for 1 to 8160 bytes,
    with output of exactly that length, and reports a [KeyDerivation] error
    otherwise; the fixed-size variants and the ratchet never fail and never
    panic, and [derive_key_pair] splits one 64-byte expansion into its halves. *)
Theorem key_derivation_total ikm salt info :
  (∀ n, if decide (1 ≤ n ≤ 255 * 32)
        then ∃ out, derive_key ikm salt info n = Ok out ∧
               hkdf_expand salt ikm info n = inr out ∧ length out = n
        else ∃ msg, derive_key ikm salt info n = Err (KeyDerivation msg)) ∧
  is_ok (derive_key_256 ikm salt info) = true ∧
  (∃ a b, derive_key_pair ikm salt info = Ok (a, b) ∧
     derive_key ikm salt info 64 = Ok (vec_to_list a ++ vec_to_list b)) ∧
  (∀ k, is_ok (ratchet_key k) = true).
Proof.
  split_and!.
  - intros n. apply derive_key_spec.
  - by destruct (derive_key_256_ok ikm salt info) as [k ->].
  - apply derive_key_pair_ok.
  - intros k. by destruct (ratchet_key_ok k) as [k' ->].
Qed.

End kdf_facts.

(** ** A toy expansion, for the witnesses *)

(** Every output byte is the successor of the first byte of the key material. *)
Definition toy_hkdf : Hkdf := λ _ ikm _ n,
  inr (replicate n (default Byte.x00 (Byte.of_N ((Byte.to_N (hd Byte.x00 ikm) + 1) mod 256)))).

#[global] Instance toy_hkdf_laws : HkdfLaws toy_hkdf.
Proof. intros salt ikm info n _. eexists. split; [done|]. apply length_replicate. Qed.

Lemma key_derivation_total_witness :
  is_ok (@derive_key_256 toy_hkdf [Byte.x07] None TRANSPORT) = true ∧
  ∃ a b, @derive_key_pair toy_hkdf [Byte.x07] None TRANSPORT = Ok (a, b) ∧
    @derive_key toy_hkdf [Byte.x07] None TRANSPORT 64 = Ok (vec_to_list a ++ vec_to_list b).
Proof.
  destruct (@key_derivation_total toy_hkdf toy_hkdf_laws [Byte.x07] None TRANSPORT)
    as (_ & H1 & H2 & _). split; assumption.
Defined.
