(* ===== verification/Aead.v ===== *)
(** * omnimesh-crypto: authenticated encryption ([aead.rs])

    ChaCha20-Poly1305 with the nonce in front of the ciphertext.  The
    [chacha20poly1305] crate is a parameter, random nonces are arguments. *)

From S2P Require Import Prelude Error.

Definition NONCE_SIZE : nat := 12.
Definition TAG_SIZE : nat := 16.

(** [ChaCha20Poly1305]. *)
Class Cipher := {
  cipher : Type;
  new_from_slice : list byte → string + cipher;
  cipher_encrypt : cipher → vec byte NONCE_SIZE → list byte → string + list byte;
  cipher_decrypt : cipher → vec byte NONCE_SIZE → list byte → string + list byte;
}.

(** RFC 8439: a 32-byte key is accepted; a plaintext of at most [2^38 - 64] bytes
    encrypts to its length and a 16-byte tag; decryption accepts exactly the
    encryptions under the same key and nonce. *)
Definition MAX_PLAINTEXT : Z := 2 ^ 38 - 64.

Class CipherLaws (C : Cipher) : Prop := {
  new_from_slice_ok : ∀ key : vec byte 32, ∃ c, new_from_slice (vec_to_list key) = inr c;
  cipher_encrypt_ok : ∀ c n pt, (Z.of_nat (length pt) ≤ MAX_PLAINTEXT)%Z →
    ∃ ct, cipher_encrypt c n pt = inr ct;
  cipher_encrypt_length : ∀ c n pt ct, cipher_encrypt c n pt = inr ct →
    length ct = length pt + TAG_SIZE;
  cipher_decrypt_iff : ∀ c n ct pt,
    cipher_decrypt c n ct = inr pt ↔ cipher_encrypt c n pt = inr ct;
}.

Section aead.
Context `{C : Cipher}.

Definition encrypt_with_nonce (key : vec byte 32) (nonce_bytes : vec byte NONCE_SIZE)
    (plaintext : list byte) : Result (list byte) :=
  c ← of_lib (λ e, Crypto ("cipher init: " +:+ e)) (new_from_slice (vec_to_list key));
  ciphertext ← of_lib (λ e, Crypto ("encryption failed: " +:+ e))
                 (cipher_encrypt c nonce_bytes plaintext);
  Ok (vec_to_list nonce_bytes ++ ciphertext).

(** [nonce_bytes]: what [thread_rng().fill_bytes] produced. *)
Definition aead_encrypt (nonce_bytes : vec byte NONCE_SIZE) (key : vec byte 32)
    (plaintext : list byte) : Result (list byte) :=
  c ← of_lib (λ e, Crypto ("cipher init: " +:+ e)) (new_from_slice (vec_to_list key));
  ciphertext ← of_lib (λ e, Crypto ("encryption failed: " +:+ e))
                 (cipher_encrypt c nonce_bytes plaintext);
  Ok (vec_to_list nonce_bytes ++ ciphertext).

Definition aead_decrypt (key : vec byte 32) (data : list byte) : Result (list byte) :=
  if decide (length data < NONCE_SIZE + TAG_SIZE) then
    Err (Crypto ("ciphertext too short: " +:+ pretty (length data) +:+ " bytes (minimum "
                 +:+ pretty (NONCE_SIZE + TAG_SIZE) +:+ ")"))
  else
    let nonce_bytes := take NONCE_SIZE data in
    let ciphertext := drop NONCE_SIZE data in
    nonce ← or_panic (array_of_list NONCE_SIZE nonce_bytes);
    c ← of_lib (λ e, Crypto ("cipher init: " +:+ e)) (new_from_slice (vec_to_list key));
    of_lib (λ _, Crypto "decryption failed: invalid key or corrupted data")
      (cipher_decrypt c nonce ciphertext).

End aead.

(** ** Properties *)

Section aead_facts.
Context `{C : Cipher, !CipherLaws C}.

(** A plaintext within the limit of the cipher. *)
Definition fits (pt : list byte) : Prop := (Z.of_nat (length pt) ≤ MAX_PLAINTEXT)%Z.

Lemma aead_encrypt_ok nonce key pt :
  fits pt → ∃ ct, aead_encrypt nonce key pt = Ok ct ∧
    length ct = NONCE_SIZE + length pt + TAG_SIZE.
Proof.
  intros Hf. unfold aead_encrypt. destruct (new_from_slice_ok key) as [c ->]. cbn.
  destruct (cipher_encrypt_ok c nonce pt Hf) as (ct & E).
  assert (L := cipher_encrypt_length _ _ _ _ E). rewrite E. cbn. eexists. split; [done|].
  rewrite length_app, length_vec_to_list, L. unfold NONCE_SIZE, TAG_SIZE in *; lia.
Qed.

Lemma aead_decrypt_encrypt nonce key pt ct :
  aead_encrypt nonce key pt = Ok ct → aead_decrypt key ct = Ok pt.
Proof.
  unfold aead_encrypt, aead_decrypt. destruct (new_from_slice_ok key) as [c ->].
  cbn [of_lib mbind result_bind].
  destruct (cipher_encrypt c nonce pt) as [|ct'] eqn:E; cbn [of_lib mbind result_bind]; [done|].
  intros [= <-]. assert (L := cipher_encrypt_length _ _ _ _ E).
  rewrite decide_False by (rewrite length_app, length_vec_to_list, L; lia).
  rewrite take_app_length', drop_app_length' by (by rewrite length_vec_to_list).
  rewrite array_of_vec. cbn [or_panic mbind result_bind].
  by rewrite (proj2 (cipher_decrypt_iff c nonce ct' pt) E).
Qed.

Lemma aead_decrypt_sound key data pt :
  aead_decrypt key data = Ok pt → ∃ nonce, aead_encrypt nonce key pt = Ok data.
Proof.
  unfold aead_decrypt, aead_encrypt. case_decide as Hl; [done|]. intros H.
  destruct (array_of_list NONCE_SIZE (take NONCE_SIZE data)) as [nonce|] eqn:En;
    cbn [or_panic mbind result_bind] in H; [|done].
  destruct (new_from_slice_ok key) as [c Ec]. rewrite Ec in *.
  cbn [of_lib mbind result_bind] in H.
  destruct (cipher_decrypt c nonce _) as [|pt'] eqn:Ed; [done|]. injection H as ->.
  apply cipher_decrypt_iff in Ed. exists nonce. cbn [of_lib mbind result_bind].
  rewrite Ed. cbn [of_lib mbind result_bind].
  apply array_of_list_Some in En. by rewrite En, take_drop.
Qed.

Lemma aead_decrypt_no_panic key data : aead_decrypt key data ≠ Panic.
Proof.
  unfold aead_decrypt. case_decide as Hl; [done|].
  destruct (array_of_list_length NONCE_SIZE (take NONCE_SIZE data)) as [n ->];
    [rewrite length_take; lia|].
  destruct (new_from_slice_ok key) as [c ->]. cbn [or_panic of_lib mbind result_bind].
  by destruct (cipher_decrypt _ _ _).
Qed.

(** Sealing round trips and decryption accepts nothing else.  Every plaintext
    within the limit of the cipher encrypts, under every key and nonce, to nonce,
    ciphertext and tag (28 bytes more), which decrypts to the plaintext;
    decryption never panics, rejects inputs shorter than 28 bytes with an error,
    and whatever it accepts is the encryption of its result under the same key. *)
Theorem aead_roundtrip key :
  (∀ nonce pt, fits pt →
     ∃ ct, aead_encrypt nonce key pt = Ok ct ∧ length ct = length pt + 28 ∧
       aead_decrypt key ct = Ok pt) ∧
  (∀ data, aead_decrypt key data ≠ Panic) ∧
  (∀ data, length data < 28 → is_err (aead_decrypt key data) = true) ∧
  (∀ data pt, aead_decrypt key data = Ok pt → ∃ nonce, aead_encrypt nonce key pt = Ok data).
Proof.
  split_and!.
  - intros nonce pt Hf. destruct (aead_encrypt_ok nonce key pt Hf) as (ct & E & L).
    exists ct. split_and!; [done|unfold NONCE_SIZE, TAG_SIZE in L; lia|].
    by eapply aead_decrypt_encrypt.
  - apply aead_decrypt_no_panic.
  - intros data Hl. unfold aead_decrypt. by rewrite decide_True.
  - intros data pt. apply aead_decrypt_sound.
Qed.

End aead_facts.

(** ** A toy cipher, for the witnesses *)

(** The "ciphertext" is the plaintext and sixteen copies of the first key byte. *)
Definition toy_cipher : Cipher := {|
  cipher := byte;
  new_from_slice := λ key, inr (hd Byte.x00 key);
  cipher_encrypt := λ k _ pt, inr (pt ++ replicate TAG_SIZE k);
  cipher_decrypt := λ k _ ct,
    let pt := take (length ct - TAG_SIZE) ct in
    if decide (ct = pt ++ replicate TAG_SIZE k) then inr pt else inl "tag"%string;
|}.

#[global] Instance toy_cipher_laws : CipherLaws toy_cipher.
Proof.
  split.
  - intros key. by eexists.
  - intros c n pt _. by eexists.
  - intros c n pt ct E. change byte in (type of c).
    assert (ct = pt ++ replicate TAG_SIZE c) as -> by by injection E.
    by rewrite length_app, length_replicate.
  - intros c n ct pt. change byte in (type of c). cbn [cipher_decrypt cipher_encrypt toy_cipher]. split.
    + case_decide as H; [|done]. intros [= <-]. by rewrite <- H.
    + intros E. assert (ct = pt ++ replicate TAG_SIZE c) as -> by by injection E.
      rewrite length_app, (length_replicate TAG_SIZE c), Nat.add_sub, take_app_length.
      by rewrite decide_True.
Qed.

Lemma aead_roundtrip_witness :
  ∃ ct, @aead_encrypt toy_cipher (vreplicate 12 Byte.x05) (vreplicate 32 Byte.x09) [Byte.x41] =
          Ok ct ∧ length ct = 29 ∧
        @aead_decrypt toy_cipher (vreplicate 32 Byte.x09) ct = Ok [Byte.x41].
Proof.
  apply (@aead_roundtrip toy_cipher toy_cipher_laws (vreplicate 32 Byte.x09)).
  vm_compute. discriminate.
Defined.
