(* ===== verification/Channel.v ===== *)
(** * omnimesh-crypto: the secure channel ([channel.rs])

    [SecureChannel] ratchets its key after each message.  Each operation returns its
    result and the channel it leaves behind.  A [Session] is the two ends of one
    shared secret with the ciphertexts in flight in each direction; its steps
    interleave sends, receives and forged inputs in any order. *)

From S2P Require Import Prelude Text Error Kdf Aead.

Local Open Scope Z_scope.

Definition REKEY_THRESHOLD : Z := 1000000.

Record SecureChannel := mkChannel {
  send_key : vec byte 32;
  recv_key : vec byte 32;
  send_counter : Z;
  recv_counter : Z;
}.

Section channel.
Context `{K : Hkdf, C : Cipher, O : OverflowChecks}.

Definition channel_new (shared_secret : vec byte 32) (is_initiator : bool)
    : Result SecureChannel :=
  '(key_a, key_b) ← derive_key_pair (vec_to_list shared_secret) None TRANSPORT;
  let '(sk, rk) := if is_initiator then (key_a, key_b) else (key_b, key_a) in
  Ok (mkChannel sk rk 0 0).

Definition channel_encrypt (nonce : vec byte NONCE_SIZE) (plaintext : list byte)
    (ch : SecureChannel) : Result (list byte) * SecureChannel :=
  if decide (REKEY_THRESHOLD ≤ send_counter ch) then
    (Err (Crypto "send key exhausted — rekeying required"), ch)
  else
    attempt (aead_encrypt nonce (send_key ch) plaintext) ch (λ ciphertext,
    attempt (ratchet_key (send_key ch)) ch (λ key,
    let ch := mkChannel key (recv_key ch) (send_counter ch) (recv_counter ch) in
    attempt (u64_add (send_counter ch) 1) ch (λ counter,
    (Ok ciphertext, mkChannel (send_key ch) (recv_key ch) counter (recv_counter ch))))).

Definition channel_decrypt (ciphertext : list byte) (ch : SecureChannel)
    : Result (list byte) * SecureChannel :=
  if decide (REKEY_THRESHOLD ≤ recv_counter ch) then
    (Err (Crypto "receive key exhausted — rekeying required"), ch)
  else
    attempt (aead_decrypt (recv_key ch) ciphertext) ch (λ plaintext,
    attempt (ratchet_key (recv_key ch)) ch (λ key,
    let ch := mkChannel (send_key ch) key (send_counter ch) (recv_counter ch) in
    attempt (u64_add (recv_counter ch) 1) ch (λ counter,
    (Ok plaintext, mkChannel (send_key ch) (recv_key ch) (send_counter ch) counter)))).

Definition messages_remaining (ch : SecureChannel) : Z :=
  u64_saturating_sub REKEY_THRESHOLD (Z.max (send_counter ch) (recv_counter ch)).

(** [Drop for SecureChannel] *)
Definition channel_drop (ch : SecureChannel) : SecureChannel :=
  mkChannel (vreplicate 32 Byte.x00) (vreplicate 32 Byte.x00) (send_counter ch)
    (recv_counter ch).

Definition send_count (ch : SecureChannel) : Z := send_counter ch.
Definition recv_count (ch : SecureChannel) : Z := recv_counter ch.

(** [Debug for SecureChannel] *)
Definition channel_debug (ch : SecureChannel) : string :=
  debug_struct "SecureChannel"
    [("send_counter", pretty (send_counter ch)); ("recv_counter", pretty (recv_counter ch));
     ("messages_remaining", pretty (messages_remaining ch)); ("keys", quoted "[REDACTED]")]%string.

End channel.

(** The debug text shows the counters and nothing of the keys. *)
Lemma channel_debug_redacted ch sk rk :
  channel_debug (mkChannel sk rk (send_counter ch) (recv_counter ch)) = channel_debug ch.
Proof. done. Qed.

(** ** Sessions *)

Record Session := mkSession {
  alice : SecureChannel;
  bob : SecureChannel;
  wire_ab : list (list byte);
  wire_ba : list (list byte);
  sent_a : list (list byte);
  got_b : list (list byte);
  sent_b : list (list byte);
  got_a : list (list byte);
}.

Section session.
Context `{K : Hkdf, C : Cipher, O : OverflowChecks}.

Inductive session_step : Session → Session → Prop :=
| send_ab nonce pt ct a' a b wab wba sa gb sb ga :
    channel_encrypt nonce pt a = (Ok ct, a') →
    session_step (mkSession a b wab wba sa gb sb ga)
                 (mkSession a' b (wab ++ [ct]) wba (sa ++ [pt]) gb sb ga)
| send_ba nonce pt ct b' a b wab wba sa gb sb ga :
    channel_encrypt nonce pt b = (Ok ct, b') →
    session_step (mkSession a b wab wba sa gb sb ga)
                 (mkSession a b' wab (wba ++ [ct]) sa gb (sb ++ [pt]) ga)
| recv_ab ct pt b' a b wab wba sa gb sb ga :
    channel_decrypt ct b = (Ok pt, b') →
    session_step (mkSession a b (ct :: wab) wba sa gb sb ga)
                 (mkSession a b' wab wba sa (gb ++ [pt]) sb ga)
| recv_ba ct pt a' a b wab wba sa gb sb ga :
    channel_decrypt ct a = (Ok pt, a') →
    session_step (mkSession a b wab (ct :: wba) sa gb sb ga)
                 (mkSession a' b wab wba sa gb sb (ga ++ [pt]))
| forged_b data e b' a b wab wba sa gb sb ga :
    channel_decrypt data b = (Err e, b') →
    session_step (mkSession a b wab wba sa gb sb ga) (mkSession a b' wab wba sa gb sb ga)
| forged_a data e a' a b wab wba sa gb sb ga :
    channel_decrypt data a = (Err e, a') →
    session_step (mkSession a b wab wba sa gb sb ga) (mkSession a' b wab wba sa gb sb ga).

Inductive session_reachable (secret : vec byte 32) : Session → Prop :=
| session_init a b :
    channel_new secret true = Ok a → channel_new secret false = Ok b →
    session_reachable secret (mkSession a b [] [] [] [] [] [])
| session_next s s' :
    session_reachable secret s → session_step s s' → session_reachable secret s'.

End session.

(** ** One channel *)

Section channel_facts.
Context `{K : Hkdf, !HkdfLaws K, C : Cipher, !CipherLaws C, O : OverflowChecks}.
Implicit Types (ch : SecureChannel).

Definition next_key (k : vec byte 32) : vec byte 32 :=
  match ratchet_key k with Ok k' => k' | _ => k end.

Lemma ratchet_next k : ratchet_key k = Ok (next_key k).
Proof. unfold next_key. by destruct (ratchet_key_ok k) as [k' ->]. Qed.

(** The invariant of one end: counters within the threshold. *)
Definition channel_ok ch : Prop :=
  0 ≤ send_counter ch ≤ REKEY_THRESHOLD ∧ 0 ≤ recv_counter ch ≤ REKEY_THRESHOLD.

Definition sent_state ch : SecureChannel :=
  mkChannel (next_key (send_key ch)) (recv_key ch) (send_counter ch + 1) (recv_counter ch).

Definition received_state ch : SecureChannel :=
  mkChannel (send_key ch) (next_key (recv_key ch)) (send_counter ch) (recv_counter ch + 1).

Lemma u64_add_small {E} n : 0 ≤ n < REKEY_THRESHOLD → u64_add (E:=E) n 1 = Ok (n + 1).
Proof. intros Hn. unfold u64_add, REKEY_THRESHOLD, U64_MAX in *. by rewrite decide_True by lia. Qed.

(** Encryption, on every branch. *)
Lemma channel_encrypt_cases nonce pt ch :
  channel_ok ch →
  (send_counter ch = REKEY_THRESHOLD ∧
     channel_encrypt nonce pt ch = (Err (Crypto "send key exhausted — rekeying required"), ch)) ∨
  (send_counter ch < REKEY_THRESHOLD ∧
     channel_encrypt nonce pt ch =
       match aead_encrypt nonce (send_key ch) pt with
       | Ok ct => (Ok ct, sent_state ch) | Err e => (Err e, ch) | Panic => (Panic, ch)
       end).
Proof.
  intros [Hs Hr]. unfold channel_encrypt. case_decide as Ht; [left|right]; split; [lia|done|lia|].
  destruct (aead_encrypt nonce (send_key ch) pt); cbn [attempt]; [|done..].
  rewrite ratchet_next. cbn [attempt send_counter]. rewrite u64_add_small by lia. done.
Qed.

Lemma channel_decrypt_cases ct ch :
  channel_ok ch →
  (recv_counter ch = REKEY_THRESHOLD ∧
     channel_decrypt ct ch = (Err (Crypto "receive key exhausted — rekeying required"), ch)) ∨
  (recv_counter ch < REKEY_THRESHOLD ∧
     channel_decrypt ct ch =
       match aead_decrypt (recv_key ch) ct with
       | Ok pt => (Ok pt, received_state ch) | Err e => (Err e, ch) | Panic => (Panic, ch)
       end).
Proof.
  intros [Hs Hr]. unfold channel_decrypt. case_decide as Ht; [left|right]; split; [lia|done|lia|].
  destruct (aead_decrypt (recv_key ch) ct); cbn [attempt]; [|done..].
  rewrite ratchet_next. cbn [attempt recv_counter]. rewrite u64_add_small by lia. done.
Qed.

Lemma channel_new_spec secret :
  ∃ a b, channel_new secret true = Ok (mkChannel a b 0 0) ∧
         channel_new secret false = Ok (mkChannel b a 0 0).
Proof.
  unfold channel_new.
  destruct (derive_key_pair_ok (vec_to_list secret) None TRANSPORT) as (a & b & -> & _).
  by exists a, b.
Qed.

(** C37: Every operation of a channel is total and its failures are harmless.  On a
    channel within its limits, encryption of a plaintext that fits and decryption
    of any input return [Ok] or [Err], never a panic or counter overflow; an error
    leaves the channel exactly as it was; a success advances exactly the key and
    the counter of its direction; encryption is refused exactly when the send
    counter has reached the rekey threshold; and the limits are preserved. *)
Theorem channel_operations_total ch nonce pt data :
  channel_ok ch → fits pt →
  match channel_encrypt nonce pt ch with
  | (Ok ct, ch') => send_counter ch < REKEY_THRESHOLD ∧ ch' = sent_state ch ∧ channel_ok ch' ∧
      aead_decrypt (send_key ch) ct = Ok pt
  | (Err _, ch') => send_counter ch = REKEY_THRESHOLD ∧ ch' = ch
  | (Panic, _) => False
  end ∧
  match channel_decrypt data ch with
  | (Ok pt, ch') => recv_counter ch < REKEY_THRESHOLD ∧ ch' = received_state ch ∧ channel_ok ch' ∧
      ∃ nonce, aead_encrypt nonce (recv_key ch) pt = Ok data
  | (Err _, ch') => ch' = ch
  | (Panic, _) => False
  end.
Proof.
  intros Hok Hf. split.
  - destruct (channel_encrypt_cases nonce pt ch Hok) as [[Hc ->]|[Hc ->]]; [done|].
    destruct (aead_encrypt_ok nonce (send_key ch) pt Hf) as (ct & E & _). rewrite E.
    destruct Hok as [Hs Hr]. split_and!; [done|done| |by eapply aead_decrypt_encrypt].
    unfold channel_ok, sent_state. cbn. lia.
  - destruct (channel_decrypt_cases data ch Hok) as [[Hc ->]|[Hc ->]]; [done|].
    pose proof (aead_decrypt_no_panic (recv_key ch) data) as Hp.
    destruct (aead_decrypt (recv_key ch) data) as [pt'|e|] eqn:E; [|done..].
    destruct Hok as [Hs Hr]. split_and!; [done|done| |by apply aead_decrypt_sound].
    unfold channel_ok, received_state. cbn. lia.
Qed.

End channel_facts.

Lemma channel_operations_total_witness :
  let ch := mkChannel (vreplicate 32 Byte.x01) (vreplicate 32 Byte.x02) 999999 0 in
  let ch' := mkChannel (vreplicate 32 Byte.x02) (vreplicate 32 Byte.x02) 1000000 0 in
  let ct := vreplicate 12 Byte.x05 ++ [Byte.x41] ++ replicate 16 Byte.x01 in
  @channel_encrypt toy_hkdf toy_cipher true (vreplicate 12 Byte.x05) [Byte.x41] ch =
    (Ok ct, ch') ∧
  @aead_decrypt toy_cipher (send_key ch) ct = Ok [Byte.x41].
Proof.
  intros ch ch' ct.
  pose proof (@channel_operations_total toy_hkdf toy_hkdf_laws toy_cipher toy_cipher_laws true
    ch (vreplicate 12 Byte.x05) [Byte.x41] []) as H.
  assert (E : @channel_encrypt toy_hkdf toy_cipher true (vreplicate 12 Byte.x05) [Byte.x41] ch =
    (Ok ct, ch')) by (vm_compute; reflexivity).
  rewrite E in H. destruct H as [H _].
  - split; split; vm_compute; discriminate.
  - vm_compute. discriminate.
  - split; [exact E|]. apply H.
Defined.

(** ** Both directions of a session *)

Section session_facts.
Context `{K : Hkdf, !HkdfLaws K, C : Cipher, !CipherLaws C, O : OverflowChecks}.

(** [wire] holds the encryptions of [pending] under successive keys from [k]. *)
Fixpoint sealed (k : vec byte 32) (pending wire : list (list byte)) : Prop :=
  match pending, wire with
  | [], [] => True
  | pt :: pending, ct :: wire =>
      (∃ nonce, aead_encrypt nonce k pt = Ok ct) ∧ sealed (next_key k) pending wire
  | _, _ => False
  end.

Lemma sealed_snoc k pending wire nonce pt ct :
  sealed k pending wire →
  aead_encrypt nonce (Nat.iter (length pending) next_key k) pt = Ok ct →
  sealed k (pending ++ [pt]) (wire ++ [ct]).
Proof.
  revert k wire. induction pending as [|p pending IH]; intros k [|c wire] Hs He; try done.
  - split; [by exists nonce|done].
  - destruct Hs as [Hp Hs]. cbn. split; [done|]. apply IH; [done|].
    cbn [length] in He. by rewrite Nat.iter_succ_r in He.
Qed.

(** One direction: what the sender sent is what the receiver got and what is still
    sealed on the wire; keys and counters follow. *)
Definition direction_inv (sk rk : vec byte 32) (sc rc : Z)
    (wire sent got : list (list byte)) : Prop :=
  ∃ pending, sent = got ++ pending ∧ sealed rk pending wire ∧
    sk = Nat.iter (length pending) next_key rk ∧
    sc = Z.of_nat (length sent) ∧ rc = Z.of_nat (length got) ∧ sc ≤ REKEY_THRESHOLD.

Lemma direction_send nonce pt ct sk rk sc rc wire sent got :
  direction_inv sk rk sc rc wire sent got → aead_encrypt nonce sk pt = Ok ct →
  sc < REKEY_THRESHOLD →
  direction_inv (next_key sk) rk (sc + 1) rc (wire ++ [ct]) (sent ++ [pt]) got.
Proof.
  intros (pending & -> & Hs & -> & -> & -> & _) He Hc. exists (pending ++ [pt]).
  rewrite app_assoc. split_and!; [done|by eapply sealed_snoc| | |done|lia].
  - by rewrite length_app, Nat.add_1_r.
  - rewrite (length_app (got ++ pending)). cbn [length]. lia.
Qed.

(** The next ciphertext on the wire decrypts to the next plaintext. *)
Lemma direction_next sk rk sc rc ct wire sent got :
  direction_inv sk rk sc rc (ct :: wire) sent got →
  rc < REKEY_THRESHOLD ∧ ∃ pt, sent !! length got = Some pt ∧ aead_decrypt rk ct = Ok pt ∧
  direction_inv sk (next_key rk) sc (rc + 1) wire sent (got ++ [pt]).
Proof.
  intros (pending & -> & Hs & -> & -> & -> & Hc).
  destruct pending as [|pt pending]; [done|]. destruct Hs as [[nonce He] Hs].
  rewrite length_app in Hc. cbn [length] in Hc. split; [lia|]. exists pt. split_and!.
  - by rewrite lookup_app_r, Nat.sub_diag by lia.
  - by eapply aead_decrypt_encrypt.
  - exists pending. rewrite <- app_assoc. split_and!; [done|done| |done| |].
    + cbn [length]. by rewrite Nat.iter_succ_r.
    + rewrite length_app. cbn [length]. lia.
    + rewrite length_app. cbn [length]. lia.
Qed.

Definition session_inv (s : Session) : Prop :=
  direction_inv (send_key (alice s)) (recv_key (bob s)) (send_counter (alice s))
    (recv_counter (bob s)) (wire_ab s) (sent_a s) (got_b s) ∧
  direction_inv (send_key (bob s)) (recv_key (alice s)) (send_counter (bob s))
    (recv_counter (alice s)) (wire_ba s) (sent_b s) (got_a s).

Lemma direction_counters sk rk sc rc wire sent got :
  direction_inv sk rk sc rc wire sent got → 0 ≤ rc ≤ sc ∧ sc ≤ REKEY_THRESHOLD.
Proof. intros (pending & -> & _ & _ & -> & -> & ?). rewrite length_app in *. lia. Qed.

Lemma session_channels_ok s :
  session_inv s → channel_ok (alice s) ∧ channel_ok (bob s).
Proof.
  intros [H1%direction_counters H2%direction_counters]. unfold channel_ok. lia.
Qed.

(** What a successful or failing channel operation did. *)
Lemma encrypt_inv nonce pt ct ch ch' :
  channel_ok ch → channel_encrypt nonce pt ch = (Ok ct, ch') →
  send_counter ch < REKEY_THRESHOLD ∧ aead_encrypt nonce (send_key ch) pt = Ok ct ∧
  ch' = sent_state ch.
Proof.
  intros Hok. destruct (channel_encrypt_cases nonce pt ch Hok) as [[_ ->]|[Hc ->]]; [done|].
  destruct (aead_encrypt _ _ _); [|done..]. by intros [= -> <-].
Qed.

Lemma decrypt_inv ct pt ch ch' :
  channel_ok ch → channel_decrypt ct ch = (Ok pt, ch') →
  aead_decrypt (recv_key ch) ct = Ok pt ∧ ch' = received_state ch.
Proof.
  intros Hok. destruct (channel_decrypt_cases ct ch Hok) as [[_ ->]|[Hc ->]]; [done|].
  destruct (aead_decrypt _ _); [|done..]. by intros [= -> <-].
Qed.

Lemma decrypt_err_inv ct e ch ch' :
  channel_ok ch → channel_decrypt ct ch = (Err e, ch') → ch' = ch.
Proof.
  intros Hok. destruct (channel_decrypt_cases ct ch Hok) as [[_ ->]|[Hc ->]]; [congruence|].
  destruct (aead_decrypt _ _); congruence.
Qed.

Lemma session_step_inv s s' : session_step s s' → session_inv s → session_inv s'.
Proof.
  intros Hstep I. destruct (session_channels_ok s I) as [Ha Hb]. destruct I as [I1 I2].
  destruct Hstep as [nonce pt ct a' a b wab wba sa gb sb ga E
    |nonce pt ct b' a b wab wba sa gb sb ga E|ct pt b' a b wab wba sa gb sb ga E
    |ct pt a' a b wab wba sa gb sb ga E|data e b' a b wab wba sa gb sb ga E
    |data e a' a b wab wba sa gb sb ga E];
    cbn [alice bob wire_ab wire_ba sent_a got_b sent_b got_a] in *.
  - apply encrypt_inv in E as (Hc & He & ->); [|done]. split; [|done].
    by eapply direction_send.
  - apply encrypt_inv in E as (Hc & He & ->); [|done]. split; [done|].
    by eapply direction_send.
  - apply decrypt_inv in E as [Hd ->]; [|done]. split; [|done].
    destruct (direction_next _ _ _ _ _ _ _ _ I1) as (_ & pt' & _ & Hd' & I).
    rewrite Hd in Hd'. by injection Hd' as <-.
  - apply decrypt_inv in E as [Hd ->]; [|done]. split; [done|].
    destruct (direction_next _ _ _ _ _ _ _ _ I2) as (_ & pt' & _ & Hd' & I).
    rewrite Hd in Hd'. by injection Hd' as <-.
  - apply decrypt_err_inv in E as ->; done.
  - apply decrypt_err_inv in E as ->; done.
Qed.

Lemma session_reachable_inv secret s : session_reachable secret s → session_inv s.
Proof.
  induction 1 as [a b Ea Eb|s s' _ IH Hstep]; [|by eapply session_step_inv].
  destruct (channel_new_spec secret) as (ka & kb & E1 & E2).
  rewrite Ea in E1. rewrite Eb in E2. injection E1 as ->. injection E2 as ->.
  split; exists []; unfold REKEY_THRESHOLD; cbn; split_and!; done || lia.
Qed.

(** A receiver [ch] with [wire] before it: it got a prefix of what was sent, and
    the next ciphertext decrypts to the next message. *)
Definition delivers (ch : SecureChannel) (wire sent got : list (list byte)) : Prop :=
  got `prefix_of` sent ∧ length sent = (length got + length wire)%nat ∧
  match wire with
  | [] => got = sent
  | ct :: _ => ∃ pt, sent !! length got = Some pt ∧
      channel_decrypt ct ch = (Ok pt, received_state ch)
  end.

Lemma sealed_length k pending wire : sealed k pending wire → length pending = length wire.
Proof.
  revert k wire. induction pending as [|p pending IH]; intros k [|c wire] Hs; try done.
  cbn. f_equal. by eapply IH, Hs.
Qed.

Lemma direction_delivers sk sc wire sent got ch :
  channel_ok ch →
  direction_inv sk (recv_key ch) sc (recv_counter ch) wire sent got →
  delivers ch wire sent got.
Proof.
  intros Hok I. split_and!.
  - destruct I as (pending & -> & _). by eexists.
  - destruct I as (pending & -> & Hs%sealed_length & _). by rewrite length_app, Hs.
  - destruct wire as [|ct wire].
    + destruct I as (pending & -> & Hs & _). destruct pending; [by rewrite app_nil_r|done].
    + destruct (direction_next _ _ _ _ _ _ _ _ I) as (Hc & pt & Hl & Hd & _).
      exists pt. split; [done|].
      destruct (channel_decrypt_cases ct ch Hok) as [[? _]|[_ ->]]; [lia|]. by rewrite Hd.
Qed.

(** C8: A session delivers each direction in order, exactly once and completely.
    Starting from the two channels of one shared secret, under every interleaving
    of sends, receives and rejected forgeries, what each side received is a prefix
    of what the other sent, the rest is on the wire, the next ciphertext on the
    wire decrypts to exactly the next message (so neither side is ever stuck or
    out of step), and no counter passes the rekey threshold. *)
Theorem session_delivery secret s :
  session_reachable secret s →
  delivers (bob s) (wire_ab s) (sent_a s) (got_b s) ∧
  delivers (alice s) (wire_ba s) (sent_b s) (got_a s) ∧
  channel_ok (alice s) ∧ channel_ok (bob s).
Proof.
  intros I%session_reachable_inv. destruct (session_channels_ok s I) as [Ha Hb].
  destruct I as [I1 I2]. split_and!; [by eapply direction_delivers..|done|done].
Qed.

End session_facts.

Lemma session_delivery_witness :
  let a := mkChannel (vreplicate 32 Byte.x08) (vreplicate 32 Byte.x08) 0 0 in
  let a1 := mkChannel (vreplicate 32 Byte.x09) (vreplicate 32 Byte.x08) 1 0 in
  let ct := vreplicate 12 Byte.x05 ++ [Byte.x41] ++ replicate 16 Byte.x08 in
  @delivers toy_hkdf toy_cipher false a [ct] [[Byte.x41]] [].
Proof.
  intros a a1 ct.
  apply (@session_delivery toy_hkdf toy_hkdf_laws toy_cipher toy_cipher_laws false
    (vreplicate 32 Byte.x07) (mkSession a1 a [ct] [] [[Byte.x41]] [] [] [])).
  apply session_next with (mkSession a a [] [] [] [] [] []).
  - apply session_init; vm_compute; reflexivity.
  - apply (@send_ab toy_hkdf toy_cipher false (vreplicate 12 Byte.x05) [Byte.x41] ct a1 a a
      [] [] [] [] [] []).
    vm_compute. reflexivity.
Defined.

(** The budget of a channel.  [messages_remaining] is what is left of the rekey
    threshold after the busier direction; it never underflows, a fresh channel has
    the whole threshold, each message lowers it by at most one, and while it is
    positive neither direction is refused for exhaustion. *)
Theorem messages_remaining_budget `{K : Hkdf, !HkdfLaws K, C : Cipher, !CipherLaws C,
    O : OverflowChecks} ch nonce pt ct ch' :
  channel_ok ch → channel_encrypt nonce pt ch = (Ok ct, ch') →
  0 ≤ messages_remaining ch' ≤ messages_remaining ch ∧
  messages_remaining ch ≤ messages_remaining ch' + 1 ∧
  (0 < messages_remaining ch →
     send_counter ch < REKEY_THRESHOLD ∧ recv_counter ch < REKEY_THRESHOLD) ∧
  (messages_remaining ch = 0 ↔
     send_counter ch = REKEY_THRESHOLD ∨ recv_counter ch = REKEY_THRESHOLD).
Proof.
  intros Hok (Hc & _ & ->)%encrypt_inv; [|done]. destruct Hok as [Hs Hr].
  unfold messages_remaining, u64_saturating_sub, sent_state, REKEY_THRESHOLD in *. cbn. lia.
Qed.

Lemma messages_remaining_budget_witness :
  let ch := mkChannel (vreplicate 32 Byte.x08) (vreplicate 32 Byte.x08) 999999 5 in
  let ch' := mkChannel (vreplicate 32 Byte.x09) (vreplicate 32 Byte.x08) 1000000 5 in
  0 ≤ messages_remaining ch' ≤ messages_remaining ch ∧
  messages_remaining ch ≤ messages_remaining ch' + 1.
Proof.
  intros ch ch'.
  destruct (@messages_remaining_budget toy_hkdf toy_hkdf_laws toy_cipher toy_cipher_laws true
    ch (vreplicate 12 Byte.x05) [Byte.x41]
    (vreplicate 12 Byte.x05 ++ [Byte.x41] ++ replicate 16 Byte.x08) ch') as (H1 & H2 & _).
  - split; split; vm_compute; discriminate.
  - vm_compute. reflexivity.
  - split; assumption.
Defined.
