(* ===== verification/Transport.v ===== *)
(** * omnimesh-transport: the interface of transports ([traits.rs]; [DynConnection] and
      [DynTransport] of [sdk/src/lib.rs])

    A transport and its connections act on a world [W] that both ends share (a network, a
    store of channels); a call is a computation on it that may also still be waiting.
    [Duplex] is what the rest of the program relies on: the two ends of a connection are
    a pair of message queues.  The handshake and the sessions are verified against
    [Duplex]; the mock transport and QUIC are proved to provide it. *)

From S2P Require Import Prelude Error Types.

(** ** Computations on a world; [None] while they wait *)

Definition io (W A : Type) : Type := W → option (A * W).

#[global] Instance io_ret {W} : MRet (io W) := λ A a w, Some (a, w).
#[global] Instance io_bind {W} : MBind (io W) := λ A B f m w,
  match m w with Some (a, w) => f a w | None => None end.

(** A question to the world. *)
Definition io_gets {W A} (f : W → A) : io W A := λ w, Some (f w, w).

(** The [?] operator in a computation. *)
Definition io_try {W E A B} (r : result E A) (k : A → io W (result E B)) : io W (result E B) :=
  match r with Ok a => k a | Err e => mret (Err e) | Panic => mret Panic end.

(** Run a computation one bind further. *)
Ltac run_io := unfold mbind, io_bind, mret, io_ret.

(** ** The traits *)

Inductive TransportEvent :=
| IncomingConnection (peer_id : option PeerId) (remote_addr : SocketAddr)
| ConnectionClosed (peer_id : PeerId) (reason : string).

(** [trait Connection]; a method that takes [&mut self] returns the new connection.
    Dropping a connection is a call too: the world may notice it. *)
Class DynConnection (W : Type) := {
  conn : Type;
  conn_send : list byte → conn → io W (Result unit * conn);
  conn_recv : conn → io W (Result (option (list byte)) * conn);
  conn_close : conn → io W (Result unit * conn);
  conn_drop : conn → W → W;
  conn_remote_addr : conn → SocketAddr;
  conn_is_connected : conn → W → bool;
}.

(** [trait Transport] *)
Class DynTransport {W : Type} (C : DynConnection W) := {
  transport : Type;
  transport_listen : SocketAddr → transport → io W (Result unit * transport);
  transport_accept : transport → io W (Result conn * transport);
  transport_connect : SocketAddr → transport → io W (Result conn * transport);
  transport_shutdown : transport → io W (Result unit * transport);
  transport_local_addr : transport → option SocketAddr;
}.

(** ** The promise: two ends, two queues

    [linked a b ab ba w]: in the world [w], [a] and [b] are the ends of one connection,
    [ab] are the messages on their way from [a] to [b] and [ba] those from [b] to [a].
    [opening a b ab w]: the same just after [a] dialled, when [b] has neither sent nor
    received yet.  [sendable]: the messages the connection can carry; [room q]: a queue
    that can grow to [q] without waiting for the receiver. *)
Class Duplex {W : Type} (C : DynConnection W) := {
  sendable : list byte → Prop;
  room : list (list byte) → Prop;
  opening : conn → conn → list (list byte) → W → Prop;
  linked : conn → conn → list (list byte) → list (list byte) → W → Prop;
  room_one : ∀ m, sendable m → room [m];
  opening_send : ∀ a b ab w m r a' w', opening a b ab w → sendable m →
    conn_send m a w = Some (r, a', w') → r = Ok tt ∧ opening a' b (ab ++ [m]) w';
  opening_room : ∀ a b ab w m, opening a b ab w → sendable m → room (ab ++ [m]) →
    is_Some (conn_send m a w);
  opening_recv : ∀ a b m ab w, opening a b (m :: ab) w →
    ∃ b' w', conn_recv b w = Some (Ok (Some m), b', w') ∧ linked a b' ab [] w';
  opening_wait : ∀ a b w, opening a b [] w → conn_recv b w = None;
  opening_wait_reply : ∀ a b m ab w, opening a b (m :: ab) w → conn_recv a w = None;
  linked_sym : ∀ a b ab ba w, linked a b ab ba w → linked b a ba ab w;
  linked_send : ∀ a b ab ba w m r a' w', linked a b ab ba w → sendable m →
    conn_send m a w = Some (r, a', w') → r = Ok tt ∧ linked a' b (ab ++ [m]) ba w';
  linked_room : ∀ a b ab ba w m, linked a b ab ba w → sendable m → room (ab ++ [m]) →
    is_Some (conn_send m a w);
  linked_recv : ∀ a b ab m ba w, linked a b ab (m :: ba) w →
    ∃ a' w', conn_recv a w = Some (Ok (Some m), a', w') ∧ linked a' b ab ba w';
  linked_wait : ∀ a b ab w, linked a b ab [] w → conn_recv a w = None;
}.

(** ** The promise: connections do not disturb each other

    [moved a w a' w']: the connection [a] has sent or received, or done nothing.
    [apart a c]: [a] and [c] belong to different connections. *)
Inductive moved {W : Type} {C : DynConnection W} (a : conn) (w : W) : conn → W → Prop :=
| moved_not : moved a w a w
| moved_sent m r a' w' : conn_send m a w = Some (r, a', w') → moved a w a' w'
| moved_received r a' w' : conn_recv a w = Some (r, a', w') → moved a w a' w'.

Class Separate {W : Type} {C : DynConnection W} (D : Duplex C) := {
  apart : conn → conn → Prop;
  apart_sym : ∀ a c, apart a c → apart c a;
  apart_peer : ∀ a c d cd dc w, linked c d cd dc w → apart a c → apart a d;
  moved_apart : ∀ a b c ab ba w a' w', linked a b ab ba w → moved a w a' w' →
    apart a c → apart a' c;
  moved_linked : ∀ a b c d ab ba cd dc w a' w', linked a b ab ba w → linked c d cd dc w →
    apart a c → moved a w a' w' → linked c d cd dc w';
}.

Section duplex_facts.
Context {W : Type} {C : DynConnection W} {D : Duplex C}.

(** Sending when there is room. *)
Lemma opening_send_room a b ab w m :
  opening a b ab w → sendable m → room (ab ++ [m]) →
  ∃ a' w', conn_send m a w = Some (Ok tt, a', w') ∧ opening a' b (ab ++ [m]) w'.
Proof.
  intros Ho Hm Hr. destruct (opening_room _ _ _ _ _ Ho Hm Hr) as [[[r a'] w'] E].
  destruct (opening_send _ _ _ _ _ _ _ _ Ho Hm E) as [-> H]. by exists a', w'.
Qed.

Lemma linked_send_room a b ab ba w m :
  linked a b ab ba w → sendable m → room (ab ++ [m]) →
  ∃ a' w', conn_send m a w = Some (Ok tt, a', w') ∧ linked a' b (ab ++ [m]) ba w'.
Proof.
  intros Hl Hm Hr. destruct (linked_room _ _ _ _ _ _ Hl Hm Hr) as [[[r a'] w'] E].
  destruct (linked_send _ _ _ _ _ _ _ _ _ Hl Hm E) as [-> H]. by exists a', w'.
Qed.

End duplex_facts.
