(* ===== verification/Pool.v ===== *)
(** * omnimesh-transport: the connection pool ([connection.rs])

    [ConnectionPool] over its [DashMap], each method as a function on the map.
    [insert] reads the length and inserts in two separate operations of the map;
    the second half of the file lets several threads interleave them. *)

From S2P Require Import Prelude Error Types.

Record ConnectionInfo := mkInfo {
  ci_peer_id : PeerId;
  ci_remote_addr : SocketAddr;
  ci_state : ConnectionState;
  ci_connected_at : Z;
  ci_bytes_sent : Z;
  ci_bytes_received : Z;
}.

Record ConnectionPool := mkPool {
  connections : gmap PeerId ConnectionInfo;
  max_connections : nat;
}.

Definition pool_new (max : nat) : ConnectionPool := mkPool ∅ max.

Definition pool_full (size max : nat) : OmniMeshError :=
  Connection ("connection pool full (" +:+ pretty size +:+ "/" +:+ pretty max +:+ ")").

Definition pool_insert (info : ConnectionInfo) (p : ConnectionPool)
    : Result unit * ConnectionPool :=
  if decide (max_connections p ≤ size (connections p)) then
    (Err (pool_full (size (connections p)) (max_connections p)), p)
  else
    (Ok tt, mkPool (<[ci_peer_id info := info]> (connections p)) (max_connections p)).

Definition pool_remove (peer_id : PeerId) (p : ConnectionPool)
    : option ConnectionInfo * ConnectionPool :=
  (connections p !! peer_id, mkPool (delete peer_id (connections p)) (max_connections p)).

Definition pool_get (p : ConnectionPool) (peer_id : PeerId) : option ConnectionInfo :=
  connections p !! peer_id.

Definition pool_is_connected (p : ConnectionPool) (peer_id : PeerId) : bool :=
  default false
    ((λ entry, bool_decide (ci_state entry = Connected)) <$> connections p !! peer_id).

Definition pool_len (p : ConnectionPool) : nat := size (connections p).

Definition pool_is_empty (p : ConnectionPool) : bool := bool_decide (connections p = ∅).

Definition connected_peers `{!MapIter PeerId ConnectionInfo} (p : ConnectionPool) : list PeerId :=
  (filter (λ e, ci_state e.2 = Connected) (map_iter (connections p))).*1.

Definition with_state (st : ConnectionState) (i : ConnectionInfo) : ConnectionInfo :=
  mkInfo (ci_peer_id i) (ci_remote_addr i) st (ci_connected_at i) (ci_bytes_sent i)
    (ci_bytes_received i).

Definition update_state (peer_id : PeerId) (st : ConnectionState) (p : ConnectionPool)
    : ConnectionPool :=
  match connections p !! peer_id with
  | Some entry => mkPool (<[peer_id := with_state st entry]> (connections p)) (max_connections p)
  | None => p
  end.

Section bytes.
Context `{O : OverflowChecks}.

Definition record_bytes_sent (peer_id : PeerId) (bytes : Z) (p : ConnectionPool)
    : Result unit * ConnectionPool :=
  match connections p !! peer_id with
  | Some e =>
      attempt (u64_add (ci_bytes_sent e) bytes) p (λ n,
      (Ok tt, mkPool (<[peer_id := mkInfo (ci_peer_id e) (ci_remote_addr e) (ci_state e)
                          (ci_connected_at e) n (ci_bytes_received e)]> (connections p))
                (max_connections p)))
  | None => (Ok tt, p)
  end.

Definition record_bytes_received (peer_id : PeerId) (bytes : Z) (p : ConnectionPool)
    : Result unit * ConnectionPool :=
  match connections p !! peer_id with
  | Some e =>
      attempt (u64_add (ci_bytes_received e) bytes) p (λ n,
      (Ok tt, mkPool (<[peer_id := mkInfo (ci_peer_id e) (ci_remote_addr e) (ci_state e)
                          (ci_connected_at e) (ci_bytes_sent e) n]> (connections p))
                (max_connections p)))
  | None => (Ok tt, p)
  end.

(** ** One thread *)

Inductive pool_op :=
| OpInsert (info : ConnectionInfo)
| OpRemove (peer_id : PeerId)
| OpState (peer_id : PeerId) (st : ConnectionState)
| OpSent (peer_id : PeerId) (bytes : Z)
| OpReceived (peer_id : PeerId) (bytes : Z).

Definition pool_exec (op : pool_op) (p : ConnectionPool) : ConnectionPool :=
  match op with
  | OpInsert info => (pool_insert info p).2
  | OpRemove peer_id => (pool_remove peer_id p).2
  | OpState peer_id st => update_state peer_id st p
  | OpSent peer_id bytes => (record_bytes_sent peer_id bytes p).2
  | OpReceived peer_id bytes => (record_bytes_received peer_id bytes p).2
  end.

(** The pool is filed by peer, within its capacity. *)
Record pool_ok (p : ConnectionPool) : Prop := {
  pool_keyed k i : connections p !! k = Some i → ci_peer_id i = k;
  pool_bounded : size (connections p) ≤ max_connections p;
}.

(** Overwriting an entry that exists, with the same peer in it. *)
Lemma pool_ok_overwrite p k i j :
  pool_ok p → connections p !! k = Some i → ci_peer_id j = ci_peer_id i →
  pool_ok (mkPool (<[k := j]> (connections p)) (max_connections p)).
Proof.
  intros [Hk Hb] Hi Hj. split; cbn.
  - intros k' i'. rewrite lookup_insert. case_decide as E; [|apply Hk].
    intros [= <-]. subst k'. rewrite Hj. by apply Hk.
  - by rewrite map_size_insert_Some by by eexists.
Qed.

Lemma pool_insert_ok info p : pool_ok p → pool_ok (pool_insert info p).2.
Proof.
  intros [Hk Hb]. unfold pool_insert. case_decide as Hm; cbn; [by split|]. split; cbn.
  - intros k i. rewrite lookup_insert. case_decide; [by intros [= <-]|apply Hk].
  - rewrite map_size_insert. destruct (connections p !! _); cbn; lia.
Qed.

Lemma pool_exec_ok op p : pool_ok p → pool_ok (pool_exec op p).
Proof.
  intros Hp. destruct op as [info|k|k st|k n|k n]; cbn [pool_exec].
  - by apply pool_insert_ok.
  - destruct Hp as [Hk Hb]. split; cbn.
    + intros k' i. rewrite lookup_delete. case_decide; [done|apply Hk].
    + rewrite map_size_delete. destruct (connections p !! k); cbn; lia.
  - unfold update_state. destruct (connections p !! k) eqn:E; [|done].
    by eapply pool_ok_overwrite.
  - unfold record_bytes_sent. destruct (connections p !! k) as [i|] eqn:E; [|done].
    destruct (u64_add _ _); cbn; [|done..]. by eapply pool_ok_overwrite.
  - unfold record_bytes_received. destruct (connections p !! k) as [i|] eqn:E; [|done].
    destruct (u64_add _ _); cbn; [|done..]. by eapply pool_ok_overwrite.
Qed.

Lemma pool_exec_max op p : max_connections (pool_exec op p) = max_connections p.
Proof.
  destruct op; cbn [pool_exec].
  - unfold pool_insert. by case_decide.
  - done.
  - unfold update_state. by destruct (connections p !! _).
  - unfold record_bytes_sent, attempt. destruct (connections p !! _); [|done].
    by destruct (u64_add _ _).
  - unfold record_bytes_received, attempt. destruct (connections p !! _); [|done].
    by destruct (u64_add _ _).
Qed.

(** One thread at a time, the pool keeps its promise.  After any sequence of
    operations from an empty pool, it holds at most [max_connections] entries, each
    filed under its own peer; [insert] fails exactly when the pool is full, leaving
    it unchanged (also for a peer that is already in it), and otherwise makes
    exactly that entry the peer's. *)
Theorem pool_capacity ops max info :
  let p := foldl (λ p op, pool_exec op p) (pool_new max) ops in
  size (connections p) ≤ max ∧
  (∀ k i, connections p !! k = Some i → ci_peer_id i = k) ∧
  (pool_len p = max → ∃ msg, pool_insert info p = (Err (Connection msg), p)) ∧
  (pool_len p < max → ∃ p', pool_insert info p = (Ok tt, p') ∧
     ∀ k, pool_get p' k = if decide (k = ci_peer_id info) then Some info else pool_get p k).
Proof.
  intros p. assert (Hp : pool_ok p ∧ max_connections p = max).
  { subst p. induction ops as [|op ops [IH Hm]] using rev_ind; [split; [|done]; split; cbn|].
    - intros k i. by rewrite lookup_empty.
    - rewrite map_size_empty. lia.
    - rewrite foldl_snoc, pool_exec_max. by split; [apply pool_exec_ok|]. }
  destruct Hp as [[Hk Hb] Hm]. rewrite Hm in Hb. split_and!; [done..| |];
    unfold pool_insert, pool_len; intros Hl; rewrite Hm.
  - rewrite decide_True by lia. by eexists.
  - rewrite decide_False by lia. eexists. split; [done|]. intros k. unfold pool_get. cbn.
    rewrite lookup_insert. by apply decide_ext.
Qed.

End bytes.

Lemma pool_capacity_witness :
  let i k := mkInfo (mkPeerId (vreplicate 32 k)) (mkSocketAddr (IPv4 (vreplicate 4 Byte.x01)) 9)
               Connected 0 0 0 in
  let p := (pool_insert (i Byte.x01) (pool_new 1)).2 in
  ∃ msg, pool_insert (i Byte.x01) p = (Err (Connection msg), p).
Proof.
  intros i p.
  apply (@pool_capacity true [OpInsert (i Byte.x01)] 1 (i Byte.x01)). vm_compute. reflexivity.
Defined.

(** ** Several threads

    [insert] is the length test and then the map insertion; other threads run in
    between.  A thread is idle or has passed the test with its entry. *)

Record Shared := mkShared {
  sh_pool : gmap PeerId ConnectionInfo;
  sh_threads : list (option ConnectionInfo);
}.

Inductive thread_step (max : nat) : Shared → Shared → Prop :=
| t_check t info m ts :
    ts !! t = Some None → size m < max →
    thread_step max (mkShared m ts) (mkShared m (<[t := Some info]> ts))
| t_refused m ts :
    max ≤ size m → thread_step max (mkShared m ts) (mkShared m ts)
| t_insert t info m ts :
    ts !! t = Some (Some info) →
    thread_step max (mkShared m ts)
      (mkShared (<[ci_peer_id info := info]> m) (<[t := None]> ts))
| t_remove k m ts :
    thread_step max (mkShared m ts) (mkShared (delete k m) ts).

Definition checked (ts : list (option ConnectionInfo)) : nat := length (filter is_Some ts).

Lemma checked_insert ts t o o' :
  ts !! t = Some o →
  checked (<[t := o']> ts) + (if decide (is_Some o) then 1 else 0) =
  checked ts + (if decide (is_Some o') then 1 else 0).
Proof.
  intros Ht. unfold checked. rewrite (insert_take_drop ts t o') by by eapply lookup_lt_Some.
  rewrite <- (take_drop_middle ts t o Ht) at 3.
  rewrite !filter_app, !filter_cons, !length_app. repeat case_decide; cbn; lia.
Qed.

Lemma checked_le ts : checked ts ≤ length ts.
Proof. apply length_filter. Qed.

(** C29: Under concurrency the limit holds up to the number of threads.  When [n]
    threads interleave the two halves of [insert] with removals in any order, and each
    reads the size of the map in one step, the pool holds at most
    [max_connections + n - 1] entries. *)
Theorem pool_race_bound max n s :
  1 ≤ n → rtc (thread_step max) (mkShared ∅ (replicate n None)) s →
  size (sh_pool s) ≤ max + n - 1.
Proof.
  intros Hn H.
  enough (Hi : size (sh_pool s) + checked (sh_threads s) ≤ max + n - 1 ∧
          length (sh_threads s) = n) by lia.
  revert H. apply (rtc_ind_r (λ s, size (sh_pool s) + checked (sh_threads s) ≤ max + n - 1 ∧
          length (sh_threads s) = n)).
  - cbn [sh_pool sh_threads]. rewrite map_size_empty, length_replicate. split; [|done].
    replace (checked (replicate n None)) with 0; [lia|]. clear. unfold checked.
    induction n as [|n IH]; [done|]. cbn [replicate]. rewrite filter_cons, decide_False by (by intros [? ?]). done.
  - intros s1 s2 _ Hstep [IH Hl].
    destruct Hstep as [t info m ts Ht Hm|m ts Hm|t info m ts Ht|k m ts];
      cbn [sh_pool sh_threads] in *; [| done| |]; rewrite ?length_insert; (split; [|done]).
    + pose proof (checked_le (<[t:=Some info]> ts)) as Hc. rewrite length_insert in Hc. lia.
    + pose proof (checked_insert ts t _ None Ht) as Hc.
      rewrite decide_True in Hc by by eexists. rewrite decide_False in Hc by by intros [? ?].
      rewrite map_size_insert. destruct (m !! _); cbn; lia.
    + rewrite map_size_delete. destruct (m !! k); cbn; lia.
Qed.

(** Two threads, one slot. *)
Definition info_of (k : byte) : ConnectionInfo :=
  mkInfo (mkPeerId (vreplicate 32 k)) (mkSocketAddr (IPv4 (vreplicate 4 Byte.x01)) 9)
    Connected 0 0 0.

Lemma race_run :
  rtc (thread_step 1) (mkShared ∅ [None; None])
    (mkShared {[ci_peer_id (info_of Byte.x02) := info_of Byte.x02;
                ci_peer_id (info_of Byte.x01) := info_of Byte.x01]} [None; None]).
Proof.
  eapply rtc_l; [apply (t_check 1 0 (info_of Byte.x01)); [done|]|]; [vm_compute; lia|].
  eapply rtc_l; [apply (t_check 1 1 (info_of Byte.x02)); [done|]|]; [vm_compute; lia|].
  eapply rtc_l; [by apply (t_insert 1 0 (info_of Byte.x01))|].
  eapply rtc_l; [by apply (t_insert 1 1 (info_of Byte.x02))|]. apply rtc_refl.
Qed.

Lemma pool_race_bound_witness :
  size (sh_pool (mkShared {[ci_peer_id (info_of Byte.x02) := info_of Byte.x02;
                ci_peer_id (info_of Byte.x01) := info_of Byte.x01]} [None; None])) ≤ 1 + 2 - 1.
Proof. apply (pool_race_bound 1 2 _); [lia|exact race_run]. Defined.

(** The overshoot is real: two threads that both pass the length test of a pool
    with capacity 1 leave it with two connections. *)
Theorem pool_race_exceeds :
  ∃ s, rtc (thread_step 1) (mkShared ∅ [None; None]) s ∧ size (sh_pool s) = 2.
Proof. eexists. split; [apply race_run|]. vm_compute. reflexivity. Qed.
