(* ===== verification/Mock.v ===== *)
(** * omnimesh-transport: the in-memory transport ([mock.rs])

    [MockTransport] and [MockConnection] over tokio's bounded channels.  The channels and
    the registry the transports share are a store; a channel end that is dropped is
    recorded there, since the other end notices it.  A connection is two byte channels; a
    listener is a channel of connections. *)

From S2P Require Import Prelude Error Types Transport.

(** ** The store *)

(** An [mpsc] channel with one sender: the queue, and whether its ends are alive. *)
Record ByteChan := mkByteChan { bc_queue : list (list byte); bc_tx : bool; bc_rx : bool }.

Record MockConnection := mkMockConn {
  mc_local_addr : SocketAddr;
  mc_remote_addr : SocketAddr;
  mc_tx : nat;
  mc_rx : nat;
  mc_connected : bool;
}.

(** A listener's channel; its sender is cloned, so the live senders are counted. *)
Record ListenChan := mkListenChan {
  lc_queue : list MockConnection; lc_senders : nat; lc_rx : bool }.

(** The channels, by identity, and [MockRegistry]. *)
Record MockWorld := mkMockWorld {
  byte_chans : gmap nat ByteChan;
  listen_chans : gmap nat ListenChan;
  listeners : gmap SocketAddr nat;
  next_chan : nat;
}.

Definition world_new : MockWorld := mkMockWorld ∅ ∅ ∅ 0.

Definition with_byte (m : gmap nat ByteChan) (w : MockWorld) : MockWorld :=
  mkMockWorld m (listen_chans w) (listeners w) (next_chan w).

Definition with_listen (m : gmap nat ListenChan) (w : MockWorld) : MockWorld :=
  mkMockWorld (byte_chans w) m (listeners w) (next_chan w).

Definition with_listeners (m : gmap SocketAddr nat) (w : MockWorld) : MockWorld :=
  mkMockWorld (byte_chans w) (listen_chans w) m (next_chan w).

(** [mpsc::channel(n)] for bytes: both ends alive. *)
Definition byte_channel (w : MockWorld) : nat * MockWorld :=
  (next_chan w,
   mkMockWorld (<[next_chan w := mkByteChan [] true true]> (byte_chans w)) (listen_chans w)
     (listeners w) (next_chan w + 1)).

(** Dropping the sender, and the receiver with what is queued. *)
Definition drop_tx (i : nat) (w : MockWorld) : MockWorld :=
  with_byte (alter (λ c, mkByteChan (bc_queue c) false (bc_rx c)) i (byte_chans w)) w.

Definition drop_rx (i : nat) (w : MockWorld) : MockWorld :=
  with_byte (alter (λ c, mkByteChan [] (bc_tx c) false) i (byte_chans w)) w.

(** Dropping a connection drops its sender and its receiver. *)
Definition drop_conn (c : MockConnection) (w : MockWorld) : MockWorld :=
  drop_rx (mc_rx c) (drop_tx (mc_tx c) w).

(** Dropping one sender of a listener, and its receiver with the connections queued. *)
Definition drop_listen_tx (l : nat) (w : MockWorld) : MockWorld :=
  with_listen (alter (λ c, mkListenChan (lc_queue c) (lc_senders c - 1) (lc_rx c)) l
                 (listen_chans w)) w.

Definition drop_listen_rx (l : nat) (w : MockWorld) : MockWorld :=
  match listen_chans w !! l with
  | Some c =>
      foldl (λ w conn, drop_conn conn w)
        (with_listen (<[l := mkListenChan [] (lc_senders c) false]> (listen_chans w)) w)
        (lc_queue c)
  | None => w
  end.

(** Assigning to an [Option] drops what was in it. *)
Definition drop_opt (drop : nat → MockWorld → MockWorld) (o : option nat) (w : MockWorld)
    : MockWorld := match o with Some l => drop l w | None => w end.

(** ** The transport *)

Record MockTransport := mkMock {
  mt_local_addr : option SocketAddr;
  incoming_tx : option nat;
  incoming_rx : option nat;
}.

Definition mock_new : MockTransport := mkMock None None None.

(** Two transports that share a new registry. *)
Definition create_pair : MockWorld * MockTransport * MockTransport :=
  (world_new, mock_new, mock_new).

Definition mock_listen (addr : SocketAddr) (t : MockTransport)
    : io MockWorld (Result unit * MockTransport) := λ w,
  let l := next_chan w in
  let w := mkMockWorld (byte_chans w) (<[l := mkListenChan [] 2 true]> (listen_chans w))
             (listeners w) (next_chan w + 1) in
  let w := drop_opt drop_listen_tx (incoming_tx t) w in
  let w := drop_opt drop_listen_rx (incoming_rx t) w in
  let w := drop_opt drop_listen_tx (listeners w !! addr) w in
  let w := with_listeners (<[addr := l]> (listeners w)) w in
  Some (Ok tt, mkMock (Some addr) (Some l) (Some l), w).

Definition mock_accept (t : MockTransport) : io MockWorld (Result MockConnection * MockTransport) :=
  λ w,
  match incoming_rx t with
  | None => Some (Err (Transport "not listening"), t, w)
  | Some l =>
      match listen_chans w !! l with
      | Some (mkListenChan (conn :: q) n rx) =>
          Some (Ok conn, t, with_listen (<[l := mkListenChan q n rx]> (listen_chans w)) w)
      | Some (mkListenChan [] O _) => Some (Err (Transport "listener closed"), t, w)
      | _ => None
      end
  end.

(** ["127.0.0.1:0".parse().unwrap()] *)
Definition unbound_addr : SocketAddr :=
  mkSocketAddr (IPv4 [# Byte.x7f; Byte.x00; Byte.x00; Byte.x01]) 0.

Definition LISTEN_CAPACITY : nat := 32.
Definition CONN_CAPACITY : nat := 256.

Definition mock_connect (addr : SocketAddr) (t : MockTransport)
    : io MockWorld (Result MockConnection * MockTransport) := λ w,
  let local := default unbound_addr (mt_local_addr t) in
  let '(a, w1) := byte_channel w in
  let '(b, w1) := byte_channel w1 in
  let our_conn := mkMockConn local addr a b true in
  let their_conn := mkMockConn addr local b a true in
  let dropped := drop_conn our_conn (drop_conn their_conn w1) in
  match listeners w1 !! addr with
  | None => Some (Err (Connection ("no listener at " +:+ socket_to_string addr)), t, dropped)
  | Some l =>
      match listen_chans w1 !! l with
      | Some (mkListenChan q n true) =>
          if decide (length q < LISTEN_CAPACITY) then
            Some (Ok our_conn, t,
                  with_listen (<[l := mkListenChan (q ++ [their_conn]) n true]> (listen_chans w1)) w1)
          else None
      | _ => Some (Err (Connection "listener dropped"), t, dropped)
      end
  end.

Definition mock_shutdown (t : MockTransport) : io MockWorld (Result unit * MockTransport) := λ w,
  let w :=
    match mt_local_addr t with
    | Some addr =>
        let w' := drop_opt drop_listen_tx (listeners w !! addr) w in
        with_listeners (delete addr (listeners w')) w'
    | None => w
    end in
  let w := drop_opt drop_listen_tx (incoming_tx t) w in
  let w := drop_opt drop_listen_rx (incoming_rx t) w in
  Some (Ok tt, mkMock None None None, w).

Definition mock_local_addr (t : MockTransport) : option SocketAddr := mt_local_addr t.

(** ** Connections *)

(** [Sender::send]: fails when the receiver is gone, waits while the channel is full. *)
Definition mock_send (data : list byte) (c : MockConnection)
    : io MockWorld (Result unit * MockConnection) := λ w,
  if negb (mc_connected c) then Some (Err (Connection "not connected"), c, w)
  else
    match byte_chans w !! mc_tx c with
    | Some (mkByteChan q tx true) =>
        if decide (length q < CONN_CAPACITY) then
          Some (Ok tt, c, with_byte (<[mc_tx c := mkByteChan (q ++ [data]) tx true]> (byte_chans w)) w)
        else None
    | _ => Some (Err (Connection "send channel closed"), c, w)
    end.

(** [Receiver::recv]: [None] once the sender is gone and the queue is drained. *)
Definition mock_recv (c : MockConnection)
    : io MockWorld (Result (option (list byte)) * MockConnection) := λ w,
  if negb (mc_connected c) then Some (Ok None, c, w)
  else
    match byte_chans w !! mc_rx c with
    | Some (mkByteChan (m :: q) tx rx) =>
        Some (Ok (Some m), c, with_byte (<[mc_rx c := mkByteChan q tx rx]> (byte_chans w)) w)
    | Some (mkByteChan [] true _) => None
    | _ => Some (Ok None, c, w)
    end.

Definition mock_close (c : MockConnection) : io MockWorld (Result unit * MockConnection) := λ w,
  Some (Ok tt, mkMockConn (mc_local_addr c) (mc_remote_addr c) (mc_tx c) (mc_rx c) false, w).

#[global] Instance mock_connection : DynConnection MockWorld := {|
  conn := MockConnection;
  conn_send := mock_send;
  conn_recv := mock_recv;
  conn_close := mock_close;
  conn_drop := drop_conn;
  conn_remote_addr := mc_remote_addr;
  conn_is_connected c _ := mc_connected c;
|}.

#[global] Instance mock_transport : DynTransport mock_connection := {|
  transport := MockTransport;
  transport_listen := mock_listen;
  transport_accept := mock_accept;
  transport_connect := mock_connect;
  transport_shutdown := mock_shutdown;
  transport_local_addr := mock_local_addr;
|}.

(** ** The two ends of a connection *)

Definition mock_linked (a b : MockConnection) (ab ba : list (list byte)) (w : MockWorld) : Prop :=
  mc_connected a = true ∧ mc_connected b = true ∧
  mc_rx b = mc_tx a ∧ mc_rx a = mc_tx b ∧ mc_tx a ≠ mc_tx b ∧
  byte_chans w !! mc_tx a = Some (mkByteChan ab true true) ∧
  byte_chans w !! mc_tx b = Some (mkByteChan ba true true).

Lemma mock_linked_sym a b ab ba w : mock_linked a b ab ba w → mock_linked b a ba ab w.
Proof. intros (?&?&?&?&?&?&?). by split_and!. Qed.

Lemma mock_linked_send a b ab ba w m :
  mock_linked a b ab ba w →
  if decide (length ab < CONN_CAPACITY) then
    ∃ w', mock_send m a w = Some (Ok tt, a, w') ∧ mock_linked a b (ab ++ [m]) ba w'
  else mock_send m a w = None.
Proof.
  intros (Ca & Cb & Rb & Ra & Hne & Ea & Eb). unfold mock_send. rewrite Ca, Ea. cbn [negb].
  case_decide; [|done]. eexists. split; [done|]. unfold mock_linked, with_byte. cbn [byte_chans].
  split_and!; try done; [by rewrite lookup_insert_eq|by rewrite lookup_insert_ne].
Qed.

Lemma mock_linked_recv a b ab m ba w :
  mock_linked a b ab (m :: ba) w →
  ∃ w', mock_recv a w = Some (Ok (Some m), a, w') ∧ mock_linked a b ab ba w'.
Proof.
  intros (Ca & Cb & Rb & Ra & Hne & Ea & Eb). unfold mock_recv. rewrite Ca, Ra, Eb. cbn [negb].
  eexists. split; [done|]. unfold mock_linked, with_byte. cbn [byte_chans].
  split_and!; try done; [by rewrite lookup_insert_ne|by rewrite lookup_insert_eq].
Qed.

Lemma mock_linked_wait a b ab w : mock_linked a b ab [] w → mock_recv a w = None.
Proof.
  intros (Ca & Cb & Rb & Ra & Hne & Ea & Eb). unfold mock_recv. by rewrite Ca, Ra, Eb.
Qed.

(** The mock transport provides the interface: up to 256 messages in flight each way. *)
#[global] Program Instance mock_duplex : Duplex mock_connection := {|
  sendable _ := True;
  room q := length q ≤ CONN_CAPACITY;
  opening a b ab w := mock_linked a b ab [] w;
  linked := mock_linked;
|}.
Next Obligation. intros m _. cbn. unfold CONN_CAPACITY. lia. Qed.
Next Obligation.
  intros a b ab w m r a' w' Hl _ E. cbn in *. pose proof (mock_linked_send _ _ _ _ _ m Hl) as H.
  case_decide; [|congruence]. destruct H as (w'' & E' & Hl'). rewrite E' in E. by simplify_eq.
Qed.
Next Obligation.
  intros a b ab w m Hl _ Hr. cbn in *. pose proof (mock_linked_send _ _ _ _ _ m Hl) as H.
  rewrite length_app in Hr. cbn in Hr. rewrite decide_True in H by lia.
  destruct H as (w' & -> & _). by eexists.
Qed.
Next Obligation.
  intros a b m ab w [w' [E Hl]]%mock_linked_sym%mock_linked_recv. exists b, w'.
  split; [done|]. by apply mock_linked_sym.
Qed.
Next Obligation. intros a b w Hl. by apply (mock_linked_wait b a []), mock_linked_sym. Qed.
Next Obligation. intros a b m ab w Hl. exact (mock_linked_wait _ _ _ _ Hl). Qed.
Next Obligation. apply mock_linked_sym. Qed.
Next Obligation.
  intros a b ab ba w m r a' w' Hl _ E. cbn in *. pose proof (mock_linked_send _ _ _ _ _ m Hl) as H.
  case_decide; [|congruence]. destruct H as (w'' & E' & Hl'). rewrite E' in E. by simplify_eq.
Qed.
Next Obligation.
  intros a b ab ba w m Hl _ Hr. cbn in *. pose proof (mock_linked_send _ _ _ _ _ m Hl) as H.
  rewrite length_app in Hr. cbn in Hr. rewrite decide_True in H by lia.
  destruct H as (w' & -> & _). by eexists.
Qed.
Next Obligation. intros a b ab m ba w [w' [E Hl]]%mock_linked_recv. by exists a, w'. Qed.
Next Obligation. apply mock_linked_wait. Qed.

(** Connections over different channels do not disturb each other. *)
Definition mock_apart (a c : MockConnection) : Prop :=
  mc_tx a ≠ mc_tx c ∧ mc_tx a ≠ mc_rx c ∧ mc_rx a ≠ mc_tx c ∧ mc_rx a ≠ mc_rx c.

Lemma mock_moved a w a' w' :
  moved (C := mock_connection) a w a' w' →
  a' = a ∧ ∀ i, i ≠ mc_tx a → i ≠ mc_rx a → byte_chans w' !! i = byte_chans w !! i.
Proof.
  intros [|m r k' v E|r k' v E]; [done|..]; revert E; cbn; unfold mock_send, mock_recv;
    repeat case_match; intros; simplify_eq; split; try done;
    intros i Ht Hr; cbn; by rewrite lookup_insert_ne.
Qed.

#[global] Program Instance mock_separate : Separate mock_duplex := {| apart := mock_apart |}.
Next Obligation. unfold mock_apart. intros. naive_solver. Qed.
Next Obligation. intros a c d cd dc w (?&?&Hd&Hc&?) (?&?&?&?). unfold mock_apart. by rewrite Hd, <- Hc. Qed.
Next Obligation. intros a b c ab ba w a' w' _ [-> _]%mock_moved. done. Qed.
Next Obligation.
  intros a b c d ab ba cd dc w a' w' _ (?&?&Hd&Hc&?&E1&E2) (?&?&?&?) [_ Hf]%mock_moved. cbn.
  rewrite Hc in *. unfold mock_linked. rewrite !Hf by done. by split_and!.
Qed.

(** ** Dialling and accepting *)

(** Channels are allocated below [next_chan]. *)
Definition world_ok (w : MockWorld) : Prop :=
  ∀ i, next_chan w ≤ i → byte_chans w !! i = None ∧ listen_chans w !! i = None.

(** [t] listens on [addr], with the connections [q] waiting to be accepted. *)
Definition listening (t : MockTransport) (addr : SocketAddr) (q : list MockConnection)
    (w : MockWorld) : Prop :=
  ∃ l n, incoming_rx t = Some l ∧ listeners w !! addr = Some l ∧
    listen_chans w !! l = Some (mkListenChan q (S n) true).

Definition on_line (w : MockWorld) (a b : MockConnection) : Prop := mock_linked a b [] [] w.

Lemma world_ok_new : world_ok world_new.
Proof. intros i _. done. Qed.

Lemma mock_connect_ok addr t srv q w :
  world_ok w → listening srv addr q w → length q < LISTEN_CAPACITY →
  ∃ ca cb w', mock_connect addr t w = Some (Ok ca, t, w') ∧
    world_ok w' ∧ listening srv addr (q ++ [cb]) w' ∧ on_line w' ca cb ∧
    (∀ a b, on_line w a b → on_line w' a b).
Proof.
  intros Hw (l & n & Hrx & Hreg & Hl) Hq. unfold mock_connect, byte_channel. cbn.
  rewrite Hreg, Hl. rewrite decide_True by done. eexists _, _, _. split; [done|].
  set (k := next_chan w) in *. split_and!.
  - intros i Hi. cbn in *. destruct (Hw i) as [Hb Hc]; [lia|].
    rewrite !lookup_insert_ne by lia. split; [done|]. rewrite lookup_insert_ne; [done|].
    intros ->. congruence.
  - exists l, n. cbn. by rewrite lookup_insert_eq.
  - unfold on_line, mock_linked. cbn. split_and!; [done..|lia| |].
    + rewrite lookup_insert_ne by lia. by rewrite lookup_insert_eq.
    + by rewrite lookup_insert_eq.
  - intros a b (?&?&?&?&?& Ea & Eb). unfold on_line, mock_linked. cbn.
    assert (Hlt : ∀ i c, byte_chans w !! i = Some c → i < k).
    { intros i c Hi. destruct (le_lt_dec k i) as [Hk|]; [|done].
      destruct (Hw i Hk) as [Hn _]. congruence. }
    pose proof (Hlt _ _ Ea). pose proof (Hlt _ _ Eb).
    rewrite !lookup_insert_ne by lia. by split_and!.
Qed.

Lemma mock_accept_ok t addr c q w :
  listening t addr (c :: q) w →
  ∃ w', mock_accept t w = Some (Ok c, t, w') ∧ listening t addr q w' ∧
    (∀ a b, on_line w a b → on_line w' a b).
Proof.
  intros (l & n & Hrx & Hreg & Hl). unfold mock_accept. rewrite Hrx, Hl. eexists. split; [done|].
  split; [|done]. exists l, n. cbn. by rewrite lookup_insert_eq.
Qed.

(** Transports [ts] dial one after another; [n] connections are accepted. *)
Fixpoint dial_all (addr : SocketAddr) (ts : list MockTransport)
    : io MockWorld (list (Result MockConnection)) :=
  match ts with
  | [] => mret []
  | t :: ts => '(r, _) ← mock_connect addr t; rs ← dial_all addr ts; mret (r :: rs)
  end.

Fixpoint accept_n (n : nat) (t : MockTransport) : io MockWorld (list (Result MockConnection)) :=
  match n with
  | O => mret []
  | S n => '(r, t) ← mock_accept t; rs ← accept_n n t; mret (r :: rs)
  end.

Lemma dial_all_ok addr srv ts : ∀ q w,
  world_ok w → listening srv addr q w → length q + length ts ≤ LISTEN_CAPACITY →
  ∃ cas cbs w', dial_all addr ts w = Some (Ok <$> cas, w') ∧ listening srv addr (q ++ cbs) w' ∧
    Forall2 (on_line w') cas cbs ∧ length cas = length ts ∧
    (∀ a b, on_line w a b → on_line w' a b).
Proof.
  induction ts as [|t ts IH]; intros q w Hw Hs Hq.
  { exists [], [], w. rewrite app_nil_r. by split_and!. }
  cbn [length] in Hq.
  destruct (mock_connect_ok addr t srv q w Hw Hs) as (ca & cb & w1 & E & Hw1 & Hs1 & Hl & Hf); [lia|].
  destruct (IH (q ++ [cb]) w1 Hw1 Hs1) as (cas & cbs & w2 & E2 & Hs2 & Hl2 & Hlen & Hf2).
  { rewrite length_app. cbn. lia. }
  exists (ca :: cas), (cb :: cbs), w2. cbn [dial_all]. run_io. rewrite E, E2.
  rewrite <- app_assoc in Hs2. split_and!; [done|done|constructor; auto|cbn; lia|auto].
Qed.

Lemma accept_n_ok t addr cs : ∀ q w,
  listening t addr (cs ++ q) w →
  ∃ w', accept_n (length cs) t w = Some (Ok <$> cs, w') ∧ listening t addr q w' ∧
    (∀ a b, on_line w a b → on_line w' a b).
Proof.
  induction cs as [|c cs IH]; intros q w Hs; [by exists w|].
  destruct (mock_accept_ok t addr c (cs ++ q) w Hs) as (w1 & E & Hs1 & Hf).
  destruct (IH q w1 Hs1) as (w2 & E2 & Hs2 & Hf2). exists w2. cbn [length accept_n].
  run_io. rewrite E, E2. split_and!; [done|done|auto].
Qed.

(** Each dial takes two new channels. *)
Lemma mock_connect_channels addr t w c t' w' :
  mock_connect addr t w = Some (Ok c, t', w') →
  mc_tx c = next_chan w ∧ mc_rx c = next_chan w + 1 ∧ next_chan w' = next_chan w + 2.
Proof.
  unfold mock_connect, byte_channel. cbn. repeat case_match; try done. intros. simplify_eq. cbn. lia.
Qed.

Lemma dial_all_apart addr ts : ∀ cas w w',
  dial_all addr ts w = Some (Ok <$> cas, w') →
  Forall (λ c, next_chan w ≤ mc_tx c ∧ next_chan w ≤ mc_rx c) cas ∧
  ∀ m n a c, cas !! m = Some a → cas !! n = Some c → m < n → mock_apart a c.
Proof.
  induction ts as [|t ts IH]; intros cas w w'; cbn [dial_all]; run_io.
  { intros [= E _]. by destruct cas. }
  destruct (mock_connect addr t w) as [[[r t'] w1]|] eqn:Ec; [|done].
  destruct (dial_all addr ts w1) as [[rs w2]|] eqn:Ed; [|done].
  intros [= E _]. destruct cas as [|a cas]; [done|]. injection E as -> ->.
  destruct (mock_connect_channels _ _ _ _ _ _ Ec) as (Ht & Hr & Hn), (IH _ _ _ Ed) as [Hf Hp]. split.
  - constructor; [lia|]. eapply Forall_impl; [exact Hf|]. intros c [? ?]. lia.
  - intros [|m] [|n] b c; cbn; intros Hb Hc Hmn; [lia| |lia|by eapply (Hp m n); [..|lia]].
    injection Hb as <-. destruct (Forall_lookup_1 _ _ _ _ Hf Hc). unfold mock_apart. lia.
Qed.

(** C26: The mock transport connects the right ends.  When a transport listens, up to 32
    dials from any transports succeed without being accepted; accepting then yields
    exactly their counterparts, in the order of the dials; each dialled connection
    and its counterpart are the two ends of an open connection with nothing in flight; and
    no two of these pairs share a channel, so that each stays as it is whatever is sent and
    received on another one. *)
Theorem mock_dial_accept srv addr ts w :
  world_ok w → listening srv addr [] w → length ts ≤ LISTEN_CAPACITY →
  ∃ cas cbs w1 w2, dial_all addr ts w = Some (Ok <$> cas, w1) ∧
    accept_n (length ts) srv w1 = Some (Ok <$> cbs, w2) ∧
    Forall2 (λ a b, opening a b [] w2) cas cbs ∧ listening srv addr [] w2 ∧
    ∀ m n a b c d, cas !! m = Some a → cbs !! m = Some b → cas !! n = Some c → cbs !! n = Some d →
      m ≠ n →
      (apart a c ∧ apart a d ∧ apart b c ∧ apart b d) ∧
      ∀ w ab ba cd dc a' w', linked a b ab ba w → linked c d cd dc w → moved a w a' w' →
        linked c d cd dc w'.
Proof.
  intros Hw Hs Hn.
  destruct (dial_all_ok addr srv ts [] w Hw Hs) as (cas & cbs & w1 & E1 & Hs1 & Hl & Hlen & _); [done|].
  rewrite app_nil_l, <- (app_nil_r cbs) in Hs1.
  destruct (accept_n_ok srv addr cbs [] w1 Hs1) as (w2 & E2 & Hs2 & Hf).
  rewrite <- (Forall2_length _ _ _ Hl), Hlen in E2.
  exists cas, cbs, w1, w2. split_and!; [done..| |done|].
  { eapply Forall2_impl; [exact Hl|]. exact Hf. }
  intros m n a b c d Ha Hb Hc Hd Hmn.
  assert (Hap : apart a c).
  { destruct (dial_all_apart _ _ _ _ _ E1) as [_ Hap]. destruct (decide (m < n)); [by eapply (Hap m n)|].
    apply apart_sym. eapply (Hap n m); [done..|lia]. }
  pose proof (Forall2_lookup_lr _ _ _ _ _ _ Hl Ha Hb) as Lab.
  pose proof (Forall2_lookup_lr _ _ _ _ _ _ Hl Hc Hd) as Lcd.
  split; [|intros; by eapply (moved_linked a b c d)].
  assert (apart c b) by (eapply (apart_peer c a b); [exact Lab|by apply apart_sym]).
  split_and!; [done|by eapply (apart_peer a c d)|by apply apart_sym|].
  eapply (apart_peer b c d); [exact Lcd|by apply apart_sym].
Qed.

(** [listen] on a fresh transport. *)
Lemma mock_listen_fresh addr w :
  world_ok w → listeners w !! addr = None →
  ∃ t w', mock_listen addr mock_new w = Some (Ok tt, t, w') ∧ world_ok w' ∧
    listening t addr [] w' ∧ mock_local_addr t = Some addr ∧
    ∀ a, a ≠ addr → listeners w' !! a = listeners w !! a.
Proof.
  intros Hw Hn. unfold mock_listen. cbn. rewrite Hn. cbn. eexists _, _. split; [done|].
  split_and!; [|exists (next_chan w), 1; cbn; by rewrite !lookup_insert_eq|done|].
  2: { intros a Ha. cbn. by rewrite lookup_insert_ne. }
  intros i Hi. cbn in *. destruct (Hw i) as [Hb Hc]; [lia|]. rewrite lookup_insert_ne by lia. done.
Qed.

(** A new listener and a dial leave other listeners as they are. *)
Lemma mock_listen_others addr w r t w' t' a q :
  world_ok w → listeners w !! addr = None → mock_listen addr mock_new w = Some (r, t, w') →
  a ≠ addr → listening t' a q w → listening t' a q w' ∧ incoming_rx t' ≠ incoming_rx t.
Proof.
  intros Hw Hn. unfold mock_listen. cbn. rewrite Hn. cbn. intros [= _ <- <-] Ha (l & n & Hrx & Hr & Hl).
  assert (Hlt : l ≠ next_chan w) by (intros ->; destruct (Hw (next_chan w)) as [_ E]; [lia|congruence]).
  split; [|cbn; congruence]. exists l, n. cbn. by rewrite !lookup_insert_ne.
Qed.

Lemma mock_connect_others addr t w c t' w' srv q0 t1 a q :
  mock_connect addr t w = Some (Ok c, t', w') → listening srv addr q0 w →
  incoming_rx t1 ≠ incoming_rx srv → listening t1 a q w → listening t1 a q w'.
Proof.
  intros E (l & n & Hrx & Hr & Hl) Hne (l1 & n1 & Hrx1 & Hr1 & Hl1). revert E.
  unfold mock_connect, byte_channel. cbn. rewrite Hr, Hl. case_decide; [|done]. intros [= _ _ <-].
  exists l1, n1. cbn. split_and!; [done|done|]. rewrite lookup_insert_ne; [done|]. intros ->. congruence.
Qed.

(** ** Closing *)

(** The other end of a connection notices a drop, after what was sent before it. *)
Lemma mock_drop_noticed a b ab ba w :
  mock_linked a b ab ba w →
  let w' := drop_conn a w in
  byte_chans w' !! mc_rx b = Some (mkByteChan ab false true) ∧
  (∀ m, mock_send m b w' = Some (Err (Connection "send channel closed"), b, w')) ∧
  (ab = [] → mock_recv b w' = Some (Ok None, b, w')).
Proof.
  intros (Ca & Cb & Rb & Ra & Hne & Ea & Eb) w'.
  assert (E1 : byte_chans w' !! mc_rx b = Some (mkByteChan ab false true)).
  { unfold w', drop_conn, drop_rx, drop_tx. cbn. rewrite Rb, Ra.
    rewrite lookup_alter_ne by done. by rewrite lookup_alter_eq, Ea. }
  assert (E2 : byte_chans w' !! mc_tx b = Some (mkByteChan [] true false)).
  { unfold w', drop_conn, drop_rx, drop_tx. cbn. rewrite Ra. rewrite lookup_alter_eq.
    rewrite lookup_alter_ne by done. by rewrite Eb. }
  split_and!; [done|intros m|intros ->].
  - unfold mock_send. by rewrite Cb, E2.
  - unfold mock_recv. by rewrite Cb, E1.
Qed.

(** [close] is not noticed.  It only marks the own end: the other end, instead of the end
    of the connection, sees a connection on which nothing arrives, and can go on sending
    into it. *)
Lemma mock_close_unnoticed a b ba w :
  mock_linked a b [] ba w →
  ∃ a', mock_close a w = Some (Ok tt, a', w) ∧ mc_connected a' = false ∧
    mock_recv b w = None ∧
    (length ba < CONN_CAPACITY → ∀ m, ∃ w', mock_send m b w = Some (Ok tt, b, w')).
Proof.
  intros Hl. eexists. split; [done|]. split; [done|]. split.
  - by apply (mock_linked_wait b a ba), mock_linked_sym.
  - intros Hc m. pose proof (mock_linked_send b a ba [] w m) as H.
    rewrite decide_True in H by done. destruct H as (w' & -> & _); [by apply mock_linked_sym|].
    by eexists.
Qed.

(** A transport that listens a second time, on another address, leaves its first
    registration behind: dialling it fails with a listener that is gone, and no
    [shutdown] removes it. *)
Lemma mock_relisten_stale x y :
  x ≠ y →
  ∃ t1 w1 t2 w2, mock_listen x mock_new world_new = Some (Ok tt, t1, w1) ∧
    mock_listen y t1 w1 = Some (Ok tt, t2, w2) ∧
    (∃ w3, mock_connect x mock_new w2 = Some (Err (Connection "listener dropped"), mock_new, w3)) ∧
    ∃ t3 w4, mock_shutdown t2 w2 = Some (Ok tt, t3, w4) ∧ listeners w4 !! x = Some 0.
Proof.
  intros Hxy. do 4 eexists. unfold mock_listen. cbn -[lookup insert alter delete].
  split; [by rewrite lookup_empty|]. cbn -[lookup insert alter delete].
  split; [by reflexivity|]. unfold drop_listen_rx, drop_listen_tx, mock_connect, mock_shutdown.
  cbn -[lookup insert alter delete]. simplify_map_eq.
  split; [by eexists|]. do 2 eexists. split; [done|].
  unfold drop_listen_rx, drop_listen_tx. cbn -[lookup insert alter delete]. by simplify_map_eq.
Qed.

(** ** Witness: two clients of one server *)

Lemma mock_dial_accept_witness :
  let addr := mkSocketAddr (IPv4 [# Byte.x0a; Byte.x00; Byte.x00; Byte.x01]) 4001 in
  ∃ srv w, mock_listen addr mock_new world_new = Some (Ok tt, srv, w) ∧
  ∃ cas cbs w1 w2, dial_all addr [mock_new; mock_new] w = Some (Ok <$> cas, w1) ∧
    accept_n 2 srv w1 = Some (Ok <$> cbs, w2) ∧
    Forall2 (λ a b, opening a b [] w2) cas cbs ∧
    ∀ a c, cas !! 0 = Some a → cas !! 1 = Some c → apart a c.
Proof.
  intros addr.
  destruct (mock_listen_fresh addr world_new) as (t & w & E & Hw & Hl & _); [|reflexivity|].
  - intros i _. split; reflexivity.
  - exists t, w. split; [exact E|].
    destruct (mock_dial_accept t addr [mock_new; mock_new] w Hw Hl)
      as (cas & cbs & w1 & w2 & E1 & E2 & Hf & _ & Hap); [cbn; unfold LISTEN_CAPACITY; lia|].
    exists cas, cbs, w1, w2. split_and!; [exact E1|exact E2|exact Hf|]. intros a c Ha Hc.
    destruct (Forall2_lookup_l _ _ _ _ _ Hf Ha) as (b & Hb & _), (Forall2_lookup_l _ _ _ _ _ Hf Hc) as (d & Hd & _).
    apply (Hap 0 1 a b c d Ha Hb Hc Hd). lia.
Defined.
