(* ===== verification/Quic.v ===== *)
(** * omnimesh-transport: QUIC ([quic.rs])

    [QuicTransport] and [QuicConnection] over the [quinn] and [rcgen] crates, which are
    parameters: every call is a computation on a network state that may also
    still be pending ([None]).  The connection's own logic is the lazily opened
    bidirectional stream and the length-prefixed framing; the theorems show that
    framing loses, merges and reorders nothing, for messages below 4 GiB, and that two live
    connections provide [Duplex]; [quic_recv_cancelled] shows where that ends. *)

From S2P Require Import Prelude Error Types Transport.

(** ** Big-endian 32-bit lengths *)

(** [u32::to_be_bytes] *)
Definition to_be_bytes (n : Z) : list byte :=
  [byte_of_Z (n / 2 ^ 24); byte_of_Z (n / 2 ^ 16); byte_of_Z (n / 2 ^ 8); byte_of_Z n].

(** [u32::from_be_bytes] *)
Definition from_be_bytes (bs : vec byte 4) : Z :=
  foldl (λ acc b, (acc * 256 + Z_of_byte b)%Z) 0%Z (vec_to_list bs).

(** [data.len() as u32] *)
Definition len_as_u32 (data : list byte) : Z := (Z.of_nat (length data) mod 2 ^ 32)%Z.

(** ** The quinn crate *)

Inductive ReadExactError := FinishedEarly (n : nat) | ReadError (msg : string).

Class Quinn := {
  net : Type;
  Endpoint : Type;
  ServerConfig : Type;
  ClientConfig : Type;
  QConnection : Type;
  SendStream : Type;
  RecvStream : Type;
  (** certificate generation and server configuration ([rcgen], [rustls]); each
      step fails with its own message *)
  generate_simple_self_signed : list string → net → option ((string + (list byte * list byte)) * net);
  private_key_try_from : list byte → string + list byte;
  with_single_cert : list byte → list byte → string + ServerConfig;
  quic_client_config : string + ClientConfig;
  endpoint_server : ServerConfig → SocketAddr → net → option ((string + Endpoint) * net);
  endpoint_client : net → option ((string + Endpoint) * net);
  endpoint_local_addr : Endpoint → net → string + SocketAddr;
  endpoint_accept : Endpoint → net → option (option (string + QConnection) * net);
  endpoint_connect_init : ClientConfig → Endpoint → SocketAddr → string → net → string + unit;
  endpoint_connect : ClientConfig → Endpoint → SocketAddr → string → net →
    option ((string + QConnection) * net);
  endpoint_close : Endpoint → net → option (unit * net);
  open_bi : QConnection → net → option ((string + (SendStream * RecvStream)) * net);
  accept_bi : QConnection → net → option ((string + (SendStream * RecvStream)) * net);
  write_all : SendStream → list byte → net → option ((string + unit) * net);
  read_exact : RecvStream → nat → net → option ((ReadExactError + list byte) * net);
  qconn_close : QConnection → net → net;
  (** dropping the handles of a connection and of its streams *)
  qconn_drop : QConnection → option SendStream → option RecvStream → net → net;
  close_reason : QConnection → net → option string;
  remote_address : QConnection → SocketAddr;
}.

(** Ordered reliable streams: [buffered r w] is what was written to the other end
    of [r] and not read yet. *)
Class QuinnLaws (Q : Quinn) := {
  buffered : RecvStream → net → list byte;
  sink : SendStream → RecvStream;
  write_all_appends : ∀ s d w w',
    write_all s d w = Some (inr tt, w') → buffered (sink s) w' = buffered (sink s) w ++ d;
  read_exact_takes : ∀ r k w, k ≤ length (buffered r w) →
    ∃ w', read_exact r k w = Some (inr (take k (buffered r w)), w') ∧
      buffered r w' = drop k (buffered r w);
}.

(** Connections that stay up.  [alive r w]: the stream read at [r] is open at both ends;
    [bi_fresh a b w]: [a] and [b] are the ends of a connection without streams, [a]'s the
    dialling one; [bi_opened b s r w]: the other end has opened the stream [s], [r], which
    [b] has not accepted.  A stream is only announced to the other end with its first
    bytes; a write waits for flow control, but not while at most [window] bytes are
    unread; a read waits for the bytes it asks for. *)
Class QuinnLive (Q : Quinn) (L : QuinnLaws Q) := {
  alive : RecvStream → net → Prop;
  window : nat;
  bi_fresh : QConnection → QConnection → net → Prop;
  bi_opened : QConnection → SendStream → RecvStream → net → Prop;
  open_bi_fresh : ∀ a b w, bi_fresh a b w →
    ∃ s r w', open_bi a w = Some (inr (s, r), w') ∧ bi_opened b s r w' ∧ sink s ≠ r ∧
      alive (sink s) w' ∧ alive r w' ∧ buffered (sink s) w' = [] ∧ buffered r w' = [];
  accept_bi_fresh : ∀ a b w, bi_fresh a b w → accept_bi b w = None;
  accept_bi_opened : ∀ b s r w, bi_opened b s r w → buffered (sink s) w ≠ [] →
    ∃ s' w', accept_bi b w = Some (inr (s', sink s), w') ∧ sink s' = r ∧
      (∀ r', buffered r' w' = buffered r' w) ∧ (∀ r', alive r' w → alive r' w');
  write_all_alive : ∀ s d w res w', alive (sink s) w → write_all s d w = Some (res, w') →
    res = inr tt ∧ (∀ r, alive r w → alive r w') ∧
    (∀ r, r ≠ sink s → buffered r w' = buffered r w) ∧
    (∀ b s' r, bi_opened b s' r w → bi_opened b s' r w');
  write_all_room : ∀ s d w, alive (sink s) w →
    length (buffered (sink s) w) + length d ≤ window → is_Some (write_all s d w);
  read_exact_alive : ∀ r k w res w', alive r w → read_exact r k w = Some (res, w') →
    (∀ r', alive r' w → alive r' w') ∧ (∀ r', r' ≠ r → buffered r' w' = buffered r' w);
  read_exact_waits : ∀ r k w, alive r w → length (buffered r w) < k → read_exact r k w = None;
}.

(** ** Connections *)

Section quic.
Context `{Q : Quinn}.

Record QuicConnection := mkQuicConn {
  connection : QConnection;
  send_stream : option SendStream;
  recv_stream : option RecvStream;
  connected : bool;
}.

(** The stream to send on, opened on first use. *)
Definition ensure_send (c : QuicConnection) : io net (Result SendStream * QuicConnection) :=
  match send_stream c with
  | Some s => mret (Ok s, c)
  | None =>
      r ← (open_bi (connection c) : io net _);
      match r with
      | inl e => mret (Err (Connection ("open stream: " +:+ e)), c)
      | inr (s, r) => mret (Ok s, mkQuicConn (connection c) (Some s) (Some r) (connected c))
      end
  end.

Definition ensure_recv (c : QuicConnection) : io net (Result RecvStream * QuicConnection) :=
  match recv_stream c with
  | Some r => mret (Ok r, c)
  | None =>
      r ← (accept_bi (connection c) : io net _);
      match r with
      | inl e => mret (Err (Connection ("accept stream: " +:+ e)), c)
      | inr (s, r) => mret (Ok r, mkQuicConn (connection c) (Some s) (Some r) (connected c))
      end
  end.

Definition write_frame (s : SendStream) (data : list byte) : io net (Result unit) :=
  r ← (write_all s (to_be_bytes (len_as_u32 data)) : io net _);
  match r with
  | inl e => mret (Err (Transport ("write len: " +:+ e)))
  | inr _ =>
      r ← (write_all s data : io net _);
      mret (of_lib (λ e, Transport ("write data: " +:+ e)) r)
  end.

Definition quic_send (data : list byte) (c : QuicConnection) : io net (Result unit * QuicConnection) :=
  if negb (connected c) then mret (Err (Connection "not connected"), c)
  else
    '(rs, c) ← ensure_send c;
    match rs with
    | Ok s => r ← write_frame s data; mret (r, c)
    | Err e => mret (Err e, c)
    | Panic => mret (Panic, c)
    end.

Definition read_error_string (e : ReadExactError) : string :=
  match e with FinishedEarly _ => "stream finished early" | ReadError msg => msg end.

Definition read_frame (r : RecvStream) : io net (Result (option (list byte))) :=
  l ← (read_exact r 4 : io net _);
  match l with
  | inl (FinishedEarly _) => mret (Ok None)
  | inl e => mret (Err (Transport ("read len: " +:+ read_error_string e)))
  | inr len_buf =>
      match array_of_list 4 len_buf with
      | None => mret Panic
      | Some len_buf =>
          let len := Z.to_nat (from_be_bytes len_buf) in
          d ← (read_exact r len : io net _);
          match d with
          | inl e => mret (Err (Transport ("read data: " +:+ read_error_string e)))
          | inr data => mret (Ok (Some data))
          end
      end
  end.

Definition quic_recv (c : QuicConnection) : io net (Result (option (list byte)) * QuicConnection) :=
  if negb (connected c) then mret (Ok None, c)
  else
    '(rr, c) ← ensure_recv c;
    match rr with
    | Ok r => res ← read_frame r; mret (res, c)
    | Err e => mret (Err e, c)
    | Panic => mret (Panic, c)
    end.

Definition quic_close (c : QuicConnection) : io net (Result unit * QuicConnection) := λ w,
  Some (Ok tt, mkQuicConn (connection c) (send_stream c) (recv_stream c) false,
        qconn_close (connection c) w).

Definition quic_remote_addr (c : QuicConnection) : SocketAddr := remote_address (connection c).

Definition quic_is_connected (c : QuicConnection) (w : net) : bool :=
  connected c && bool_decide (close_reason (connection c) w = None).

(** ** The transport *)

Record QuicTransport := mkQuic {
  endpoint : option Endpoint;
  quic_local : option SocketAddr;
}.

Definition quic_new : QuicTransport := mkQuic None None.

Definition make_server_config : io net (Result ServerConfig) :=
  r ← (generate_simple_self_signed ["omnimesh"] : io net _);
  mret ('(cert, key) ← of_lib (λ e, Transport ("cert generation: " +:+ e)) r;
        key_der ← of_lib (λ e, Transport ("key serialization: " +:+ e)) (private_key_try_from key);
        of_lib (λ e, Transport ("server config: " +:+ e)) (with_single_cert cert key_der)).

Definition make_client_config : Result ClientConfig :=
  match quic_client_config with inl _ => Panic | inr c => Ok c end.

Definition quic_listen (addr : SocketAddr) (t : QuicTransport)
    : io net (Result unit * QuicTransport) :=
  cfg ← make_server_config;
  match cfg with
  | Err e => mret (Err e, t)
  | Panic => mret (Panic, t)
  | Ok cfg =>
      r ← (endpoint_server cfg addr : io net _);
      match r with
      | inl e => mret (Err (Transport ("bind failed: " +:+ e)), t)
      | inr ep =>
          l ← io_gets (endpoint_local_addr ep);
          match l with
          | inl e => mret (Err (Transport ("local addr: " +:+ e)), t)
          | inr local => mret (Ok tt, mkQuic (Some ep) (Some local))
          end
      end
  end.

Definition fresh_connection (q : QConnection) : QuicConnection := mkQuicConn q None None true.

Definition quic_accept (t : QuicTransport) : io net (Result QuicConnection) :=
  match endpoint t with
  | None => mret (Err (Transport "not listening"))
  | Some ep =>
      r ← (endpoint_accept ep : io net _);
      match r with
      | None => mret (Err (Transport "endpoint closed"))
      | Some (inl e) => mret (Err (Connection ("accept failed: " +:+ e)))
      | Some (inr q) => mret (Ok (fresh_connection q))
      end
  end.

(** The endpoint to connect with: the listening one, or a client endpoint that is kept. *)
Definition client_endpoint (t : QuicTransport) : io net (Result Endpoint * QuicTransport) :=
  match endpoint t with
  | Some ep => mret (Ok ep, t)
  | None =>
      r ← (endpoint_client : io net _);
      match r with
      | inl e => mret (Err (Transport ("client bind: " +:+ e)), t)
      | inr ep => mret (Ok ep, mkQuic (Some ep) (quic_local t))
      end
  end.

Definition dial (cfg : ClientConfig) (ep : Endpoint) (addr : SocketAddr)
    : io net (Result QuicConnection) :=
  i ← io_gets (endpoint_connect_init cfg ep addr "omnimesh");
  match i with
  | inl e => mret (Err (Connection ("connect init: " +:+ e)))
  | inr _ =>
      r ← (endpoint_connect cfg ep addr "omnimesh" : io net _);
      mret (q ← of_lib (λ e, Connection ("connect failed: " +:+ e)) r;
            Ok (fresh_connection q))
  end.

Definition quic_connect (addr : SocketAddr) (t : QuicTransport)
    : io net (Result QuicConnection * QuicTransport) :=
  '(rep, t) ← client_endpoint t;
  match rep with
  | Err e => mret (Err e, t)
  | Panic => mret (Panic, t)
  | Ok ep =>
      match make_client_config with
      | Ok cfg => r ← dial cfg ep addr; mret (r, t)
      | Err e => mret (Err e, t)
      | Panic => mret (Panic, t)
      end
  end.

Definition quic_shutdown (t : QuicTransport) : io net (Result unit * QuicTransport) :=
  match endpoint t with
  | Some ep => _ ← (endpoint_close ep : io net _); mret (Ok tt, mkQuic None None)
  | None => mret (Ok tt, mkQuic None None)
  end.

Definition quic_local_addr (t : QuicTransport) : option SocketAddr := quic_local t.

#[global] Instance quic_connection : DynConnection net := {|
  conn := QuicConnection;
  conn_send := quic_send;
  conn_recv := quic_recv;
  conn_close := quic_close;
  conn_drop c := qconn_drop (connection c) (send_stream c) (recv_stream c);
  conn_remote_addr := quic_remote_addr;
  conn_is_connected := quic_is_connected;
|}.

#[global] Instance quic_transport : DynTransport quic_connection := {|
  transport := QuicTransport;
  transport_listen := quic_listen;
  transport_accept t := r ← quic_accept t; mret (r, t);
  transport_connect := quic_connect;
  transport_shutdown := quic_shutdown;
  transport_local_addr := quic_local_addr;
|}.

(** [SkipServerVerification]: every certificate and every signature is accepted. *)
Inductive Verified := Assertion.

Inductive SignatureScheme :=
| ECDSA_NISTP256_SHA256 | ECDSA_NISTP384_SHA384 | RSA_PSS_SHA256 | RSA_PSS_SHA384 | RSA_PSS_SHA512 | ED25519.

Definition verify_server_cert (end_entity : list byte) (intermediates : list (list byte))
    (server_name : string) (ocsp_response : list byte) (now : Z) : string + Verified :=
  inr Assertion.

Definition verify_tls12_signature (message cert dss : list byte) : string + Verified :=
  inr Assertion.

Definition verify_tls13_signature (message cert dss : list byte) : string + Verified :=
  inr Assertion.

Definition supported_verify_schemes : list SignatureScheme :=
  [ECDSA_NISTP256_SHA256; ECDSA_NISTP384_SHA384; RSA_PSS_SHA256; RSA_PSS_SHA384; RSA_PSS_SHA512; ED25519].

End quic.

(** ** Lengths *)

Lemma byte_of_Z_mod n : byte_of_Z n = byte_of_Z (n mod 256).
Proof. unfold byte_of_Z. by rewrite Z.mod_mod. Qed.

(** The four bytes of a 32-bit length read back as the length. *)
Lemma be_roundtrip n :
  (0 ≤ n < 2 ^ 32)%Z →
  ∃ v, array_of_list 4 (to_be_bytes n) = Some v ∧ from_be_bytes v = n.
Proof.
  intros Hn. destruct (array_of_list_length 4 (to_be_bytes n) eq_refl) as [v Ev].
  exists v. split; [done|]. unfold from_be_bytes. apply array_of_list_Some in Ev as ->.
  unfold to_be_bytes. cbn [foldl].
  rewrite (byte_of_Z_mod (n / 2 ^ 24)), (byte_of_Z_mod (n / 2 ^ 16)), (byte_of_Z_mod (n / 2 ^ 8)),
    (byte_of_Z_mod n).
  rewrite !byte_of_Z_small by (apply Z.mod_pos_bound; lia).
  rewrite (Z.mod_small (n / 2 ^ 24)) by (split; [apply Z.div_pos; lia|apply Z.div_lt_upper_bound; lia]).
  assert (E1 : (n / 2 ^ 8 = 256 * (n / 2 ^ 16) + n / 2 ^ 8 mod 256)%Z).
  { replace (n / 2 ^ 16)%Z with (n / 2 ^ 8 / 256)%Z by by rewrite Z.div_div.
    by apply Z.div_mod. }
  assert (E2 : (n / 2 ^ 16 = 256 * (n / 2 ^ 24) + n / 2 ^ 16 mod 256)%Z).
  { replace (n / 2 ^ 24)%Z with (n / 2 ^ 16 / 256)%Z by by rewrite Z.div_div.
    by apply Z.div_mod. }
  assert (E3 : (n = 256 * (n / 2 ^ 8) + n mod 256)%Z) by by apply Z.div_mod.
  lia.
Qed.

(** ** Framing *)

Section framing.
Context `{Q : Quinn, L : !QuinnLaws Q}.

Definition frame (data : list byte) : list byte := to_be_bytes (len_as_u32 data) ++ data.
#[local] Arguments frame : simpl never.

(** A connection whose stream to [r] is open, and one that reads from [r]. *)
Definition sends_to (c : QuicConnection) (r : RecvStream) : Prop :=
  connected c = true ∧ ∃ s, send_stream c = Some s ∧ sink s = r.

Definition reads_from (c : QuicConnection) (r : RecvStream) : Prop :=
  connected c = true ∧ recv_stream c = Some r.

Lemma quic_send_open data c r w res c' w' :
  sends_to c r → quic_send data c w = Some (res, c', w') →
  c' = c ∧ (res = Ok tt → buffered r w' = buffered r w ++ frame data).
Proof.
  intros (Hc & s & Hs & <-). unfold quic_send, ensure_send. rewrite Hc, Hs. cbn [negb].
  unfold write_frame, mbind, io_bind, mret, io_ret.
  destruct (write_all s (to_be_bytes (len_as_u32 data)) w) as [[[e|[]] w1]|] eqn:E1; [|..|done].
  { intros [= <- <- <-]. done. }
  destruct (write_all s data w1) as [[[e|[]] w2]|] eqn:E2; [|..|done]; cbn [of_lib].
  { intros [= <- <- <-]. done. }
  intros [= <- <- <-]. split; [done|]. intros _.
  rewrite (write_all_appends _ _ _ _ E2), (write_all_appends _ _ _ _ E1).
  unfold frame. by rewrite app_assoc.
Qed.

(** Reading in front of a header that announces [n] available bytes. *)
Lemma quic_recv_header c r w n rest :
  reads_from c r → (0 ≤ n < 2 ^ 32)%Z → (n ≤ Z.of_nat (length rest))%Z →
  buffered r w = to_be_bytes n ++ rest →
  ∃ w', quic_recv c w = Some (Ok (Some (take (Z.to_nat n) rest)), c, w') ∧
    buffered r w' = drop (Z.to_nat n) rest.
Proof.
  intros [Hc Hr] Hn Hl Hb. unfold quic_recv, ensure_recv. rewrite Hc, Hr. cbn [negb].
  unfold mbind, io_bind, mret, io_ret, read_frame, mbind, io_bind.
  destruct (read_exact_takes r 4 w) as (w1 & E1 & B1); [rewrite Hb; cbn; lia|].
  rewrite Hb in E1, B1.
  change (take 4 (to_be_bytes n ++ rest)) with (to_be_bytes n) in E1.
  change (drop 4 (to_be_bytes n ++ rest)) with rest in B1. rewrite E1.
  destruct (be_roundtrip n Hn) as (v & Ev & Hv). rewrite Ev, Hv.
  destruct (read_exact_takes r (Z.to_nat n) w1) as (w2 & E2 & B2); [rewrite B1; lia|].
  rewrite B1 in E2, B2. rewrite E2. by exists w2.
Qed.

Lemma quic_recv_frame c r w data rest :
  reads_from c r → (Z.of_nat (length data) < 2 ^ 32)%Z → buffered r w = frame data ++ rest →
  ∃ w', quic_recv c w = Some (Ok (Some data), c, w') ∧ buffered r w' = rest.
Proof.
  intros Hc Hd Hb. unfold frame in Hb. rewrite <- app_assoc in Hb.
  assert (Hlen : len_as_u32 data = Z.of_nat (length data))
    by (unfold len_as_u32; apply Z.mod_small; lia).
  rewrite Hlen in Hb.
  destruct (quic_recv_header c r w (Z.of_nat (length data)) (data ++ rest)) as (w' & E & B);
    [done|lia|rewrite length_app; lia|done|].
  rewrite Nat2Z.id, take_app_length in E. rewrite Nat2Z.id, drop_app_length in B. by exists w'.
Qed.

(** All messages sent; all messages received. *)
Fixpoint send_all (ds : list (list byte)) (c : QuicConnection) : io net (list (Result unit) * QuicConnection) :=
  match ds with
  | [] => mret ([], c)
  | d :: ds => '(r, c) ← quic_send d c; '(rs, c) ← send_all ds c; mret (r :: rs, c)
  end.

Fixpoint recv_n (n : nat) (c : QuicConnection)
    : io net (list (Result (option (list byte))) * QuicConnection) :=
  match n with
  | O => mret ([], c)
  | S n => '(r, c) ← quic_recv c; '(rs, c) ← recv_n n c; mret (r :: rs, c)
  end.

Lemma send_all_frames ds : ∀ c r w rs c' w',
  sends_to c r → send_all ds c w = Some (rs, c', w') → Forall (λ x, x = Ok tt) rs →
  buffered r w' = buffered r w ++ concat (frame <$> ds).
Proof.
  induction ds as [|d ds IH]; intros c r w rs c' w' Hc; cbn [send_all].
  { intros [= <- <- <-] _. cbn. by rewrite app_nil_r. }
  run_io.
  destruct (quic_send d c w) as [[[r1 c1] w1]|] eqn:E1; [|done].
  destruct (send_all ds c1 w1) as [[[rs2 c2] w2]|] eqn:E2; [|done].
  intros [= <- <- <-] [Hr1 Hrs]%Forall_cons.
  destruct (quic_send_open _ _ _ _ _ _ _ Hc E1) as [-> Hb]. rewrite (IH _ _ _ _ _ _ Hc E2 Hrs).
  rewrite (Hb Hr1). cbn. by rewrite app_assoc.
Qed.

Lemma recv_n_frames ds : ∀ c r w,
  reads_from c r → Forall (λ d, Z.of_nat (length d) < 2 ^ 32)%Z ds →
  buffered r w = concat (frame <$> ds) →
  ∃ w', recv_n (length ds) c w = Some ((λ d, Ok (Some d)) <$> ds, c, w') ∧ buffered r w' = [].
Proof.
  induction ds as [|d ds IH]; intros c r w Hc Hd Hb; cbn [recv_n length].
  { by exists w. }
  apply Forall_cons in Hd as [Hd Hds]. cbn in Hb.
  destruct (quic_recv_frame c r w d _ Hc Hd Hb) as (w1 & E1 & B1).
  destruct (IH c r w1 Hc Hds B1) as (w2 & E2 & B2).
  exists w2. run_io. rewrite E1, E2. done.
Qed.

(** C25: The length-prefixed framing is a faithful message channel.  Over an ordered
    reliable stream, whatever messages of less than 4 GiB one end sends
    successfully, the other end receives exactly these messages, in order, with
    their boundaries, and nothing is left on the stream. *)
Theorem quic_framing_roundtrip ds ca cb r w rs ca' w1 :
  sends_to ca r → reads_from cb r → buffered r w = [] →
  Forall (λ d, Z.of_nat (length d) < 2 ^ 32)%Z ds →
  send_all ds ca w = Some (rs, ca', w1) → Forall (λ x, x = Ok tt) rs →
  ∃ w2, recv_n (length ds) cb w1 = Some ((λ d, Ok (Some d)) <$> ds, cb, w2) ∧
    buffered r w2 = [].
Proof.
  intros Ha Hb H0 Hd Hs Hr. apply (recv_n_frames ds cb r); [done..|].
  by rewrite (send_all_frames _ _ _ _ _ _ _ Ha Hs Hr), H0.
Qed.

(** The 32-bit length prefix truncates.  A message of [2^32 + k] bytes is sent
    without an error, but the receiver gets a message of its first [k] bytes only,
    and reads the other 4 GiB as further frames. *)
Theorem quic_length_truncated data k ca cb r w w1 ca' :
  sends_to ca r → reads_from cb r → buffered r w = [] →
  (Z.of_nat (length data) = 2 ^ 32 + Z.of_nat k)%Z → (Z.of_nat k < 2 ^ 32)%Z →
  quic_send data ca w = Some (Ok tt, ca', w1) →
  ∃ w2, quic_recv cb w1 = Some (Ok (Some (take k data)), cb, w2) ∧
    buffered r w2 = drop k data.
Proof.
  intros Ha Hb H0 Hl Hk Hs.
  destruct (quic_send_open _ _ _ _ _ _ _ Ha Hs) as [_ B]. specialize (B eq_refl).
  rewrite H0 in B. cbn in B.
  assert (El : len_as_u32 data = Z.of_nat k).
  { unfold len_as_u32. rewrite Hl. rewrite <- (Z.mul_1_l (2 ^ 32)) at 1.
    rewrite Z.add_comm, Z.mod_add by done. by apply Z.mod_small; lia. }
  unfold frame in B. rewrite El in B.
  destruct (quic_recv_header cb r w1 (Z.of_nat k) data) as (w2 & E & B2); [done|lia|lia|done|].
  rewrite Nat2Z.id in E, B2. by exists w2.
Qed.

End framing.

(** ** QUIC provides the interface *)

Section quic_duplex.
Context `{Q : Quinn, L : !QuinnLaws Q, LL : !QuinnLive Q L}.

Definition frames (q : list (list byte)) : list byte := concat (frame <$> q).

Lemma frames_app p q : frames (p ++ q) = frames p ++ frames q.
Proof. unfold frames. by rewrite fmap_app, concat_app. Qed.

Lemma frames_one m : frames [m] = frame m.
Proof. unfold frames. cbn. by rewrite app_nil_r. Qed.

Lemma frames_cons m q : frames (m :: q) = frame m ++ frames q.
Proof. done. Qed.

Lemma length_frame m : length (frame m) = 4 + length m.
Proof. done. Qed.

(** Messages the length prefix and the flow-control window can carry. *)
Definition quic_sendable (m : list byte) : Prop :=
  (Z.of_nat (length m) < 2 ^ 32)%Z ∧ 4 + length m ≤ window.

(** Both streams are open; [sa] and [sb] are the two sending ends. *)
Definition quic_linked (a b : QuicConnection) (ab ba : list (list byte)) (w : net) : Prop :=
  ∃ sa sb, sends_to a (sink sa) ∧ sends_to b (sink sb) ∧ sink sa ≠ sink sb ∧
    reads_from a (sink sb) ∧ reads_from b (sink sa) ∧ alive (sink sa) w ∧ alive (sink sb) w ∧
    Forall quic_sendable ab ∧ Forall quic_sendable ba ∧
    buffered (sink sa) w = frames ab ∧ buffered (sink sb) w = frames ba.

Definition quic_opening (a b : QuicConnection) (ab : list (list byte)) (w : net) : Prop :=
  b = fresh_connection (connection b) ∧
  match ab with
  | [] => bi_fresh (connection a) (connection b) w ∧ a = fresh_connection (connection a)
  | _ =>
      ∃ sa r, bi_opened (connection b) sa r w ∧ sends_to a (sink sa) ∧ reads_from a r ∧
        sink sa ≠ r ∧ alive (sink sa) w ∧ alive r w ∧ Forall quic_sendable ab ∧
        buffered (sink sa) w = frames ab ∧ buffered r w = []
  end.

(** What a frame written to a live stream leaves unchanged. *)
Lemma write_frame_alive s m w res w' :
  alive (sink s) w → write_frame s m w = Some (res, w') →
  res = Ok tt ∧ buffered (sink s) w' = buffered (sink s) w ++ frame m ∧
  (∀ r, alive r w → alive r w') ∧ (∀ r, r ≠ sink s → buffered r w' = buffered r w) ∧
  (∀ b s' r, bi_opened b s' r w → bi_opened b s' r w').
Proof.
  intros Ha. unfold write_frame, mbind, io_bind, mret, io_ret.
  destruct (write_all s (to_be_bytes _) w) as [[x w1]|] eqn:E1; [|done].
  destruct (write_all_alive _ _ _ _ _ Ha E1) as (-> & Ha1 & Hb1 & Ho1).
  destruct (write_all s m w1) as [[x w2]|] eqn:E2; [|done].
  destruct (write_all_alive _ _ _ _ _ (Ha1 _ Ha) E2) as (-> & Ha2 & Hb2 & Ho2).
  intros [= <- <-]. split_and!; [done| |auto|intros r Hr; by rewrite Hb2, Hb1|auto].
  by rewrite (write_all_appends _ _ _ _ E2), (write_all_appends _ _ _ _ E1), <- app_assoc.
Qed.

Lemma write_frame_room s m w :
  alive (sink s) w → length (buffered (sink s) w ++ frame m) ≤ window →
  is_Some (write_frame s m w).
Proof.
  intros Ha. rewrite length_app, length_frame. intros Hw.
  unfold write_frame, mbind, io_bind, mret, io_ret.
  destruct (write_all_room s (to_be_bytes (len_as_u32 m)) w Ha) as [[x w1] E1]; [cbn; lia|].
  destruct (write_all_alive _ _ _ _ _ Ha E1) as (-> & Ha1 & _). rewrite E1.
  destruct (write_all_room s m w1 (Ha1 _ Ha)) as [[x w2] E2].
  { rewrite (write_all_appends _ _ _ _ E1), length_app. cbn. lia. }
  rewrite E2. by eexists.
Qed.

(** Sending on an open stream is writing a frame. *)
Lemma quic_send_frame m a r w :
  sends_to a r → ∃ s, sink s = r ∧
  quic_send m a w = match write_frame s m w with Some (x, w') => Some (x, a, w') | None => None end.
Proof.
  intros (Hc & s & Hs & <-). exists s. split; [done|]. unfold quic_send, ensure_send.
  by rewrite Hc, Hs.
Qed.

Lemma quic_recv_frame_alive c r w data rest :
  reads_from c r → alive r w → (Z.of_nat (length data) < 2 ^ 32)%Z →
  buffered r w = frame data ++ rest →
  ∃ w', quic_recv c w = Some (Ok (Some data), c, w') ∧ buffered r w' = rest ∧
    (∀ r', alive r' w → alive r' w') ∧ (∀ r', r' ≠ r → buffered r' w' = buffered r' w).
Proof.
  intros Hc Ha Hd Hb. destruct (quic_recv_frame c r w data rest Hc Hd Hb) as (w' & E & B).
  exists w'. split; [done|]. split; [done|]. revert E. destruct Hc as [Hc Hr].
  unfold quic_recv, ensure_recv. rewrite Hc, Hr. cbn [negb].
  unfold mbind, io_bind, mret, io_ret, read_frame, mbind, io_bind.
  destruct (read_exact r 4 w) as [[[[]|lb] w1]|] eqn:E1; try done.
  destruct (read_exact_alive _ _ _ _ _ Ha E1) as [Ha1 Hb1].
  destruct (array_of_list 4 lb); [|done].
  destruct (read_exact r _ w1) as [[[|db] w2]|] eqn:E2; try done.
  destruct (read_exact_alive _ _ _ _ _ (Ha1 _ Ha) E2) as [Ha2 Hb2].
  intros [= _ <-]. split; [auto|]. intros r' Hr'. by rewrite Hb2, Hb1.
Qed.

Lemma quic_recv_waits c r w :
  reads_from c r → alive r w → buffered r w = [] → quic_recv c w = None.
Proof.
  intros [Hc Hr] Ha Hb. unfold quic_recv, ensure_recv. rewrite Hc, Hr. cbn [negb].
  unfold mbind, io_bind, mret, io_ret, read_frame, mbind, io_bind.
  by rewrite read_exact_waits by (rewrite ?Hb; cbn; auto with lia).
Qed.

Lemma quic_linked_sym a b ab ba w : quic_linked a b ab ba w → quic_linked b a ba ab w.
Proof. intros (sa & sb & ?&?&?&?&?&?&?&?&?&?&?). exists sb, sa. by split_and!. Qed.

Lemma quic_linked_send a b ab ba w m r a' w' :
  quic_linked a b ab ba w → quic_sendable m → quic_send m a w = Some (r, a', w') →
  r = Ok tt ∧ quic_linked a' b (ab ++ [m]) ba w'.
Proof.
  intros (sa & sb & Sa & Sb & Hne & Ra & Rb & Aa & Ab & Fa & Fb & Ba & Bb) Hm.
  destruct (quic_send_frame m a _ w Sa) as (s & Es & ->). rewrite <- Es in *.
  destruct (write_frame s m w) as [[x w1]|] eqn:E; [|done]. intros [= <- <- <-].
  destruct (write_frame_alive _ _ _ _ _ Aa E) as (-> & B & Al & Bo & _). split; [done|].
  exists s, sb. split_and!; auto; [apply Forall_app; auto|by rewrite B, Ba, frames_app, frames_one|].
  by rewrite Bo.
Qed.

Lemma quic_linked_room a b ab ba w m :
  quic_linked a b ab ba w → length (frames (ab ++ [m])) ≤ window → is_Some (quic_send m a w).
Proof.
  intros (sa & sb & Sa & _ & _ & _ & _ & Aa & _ & _ & _ & Ba & _) Hw.
  destruct (quic_send_frame m a _ w Sa) as (s & Es & ->). rewrite <- Es in *.
  destruct (write_frame_room s m w Aa) as [[x w1] ->]; [|by eexists].
  by rewrite Ba, <- frames_one, <- frames_app.
Qed.

Lemma quic_linked_recv a b ab m ba w :
  quic_linked a b ab (m :: ba) w →
  ∃ a' w', quic_recv a w = Some (Ok (Some m), a', w') ∧ quic_linked a' b ab ba w'.
Proof.
  intros (sa & sb & Sa & Sb & Hne & Ra & Rb & Aa & Ab & Fa & [[Hm Hm'] Fb]%Forall_cons & Ba & Bb).
  destruct (quic_recv_frame_alive a _ w m _ Ra Ab Hm Bb) as (w' & E & B & Al & Bo).
  exists a, w'. split; [done|]. exists sa, sb. split_and!; auto. by rewrite Bo.
Qed.

(** The first message opens the stream. *)
Lemma quic_opening_open m a b w :
  bi_fresh (connection a) (connection b) w → a = fresh_connection (connection a) →
  ∃ s r w1 a', bi_opened (connection b) s r w1 ∧ sends_to a' (sink s) ∧ reads_from a' r ∧
    sink s ≠ r ∧ alive (sink s) w1 ∧ alive r w1 ∧ buffered (sink s) w1 = [] ∧ buffered r w1 = [] ∧
    quic_send m a w =
      match write_frame s m w1 with Some (x, w') => Some (x, a', w') | None => None end.
Proof.
  intros Hf Ha. destruct (open_bi_fresh _ _ _ Hf) as (s & r & w1 & E & Ho & Hne & As & Ar & Bs & Br).
  exists s, r, w1, (mkQuicConn (connection a) (Some s) (Some r) true). split_and!; try done; [split; [done|by exists s]|].
  rewrite Ha. unfold quic_send, ensure_send. cbn. run_io. by rewrite E.
Qed.

Lemma quic_opening_send a b ab w m r a' w' :
  quic_opening a b ab w → quic_sendable m → quic_send m a w = Some (r, a', w') →
  r = Ok tt ∧ quic_opening a' b (ab ++ [m]) w'.
Proof.
  intros [Hb Ho] Hm E. destruct ab as [|m0 ab].
  - destruct Ho as [Hf Ha]. destruct (quic_opening_open m a b w Hf Ha)
      as (s & r1 & w1 & a1 & Ho & Sa & Ra & Hne & As & Ar & Bs & Br & E'). rewrite E' in E.
    destruct (write_frame s m w1) as [[x w2]|] eqn:Ew; [|done]. injection E as <- <- <-.
    destruct (write_frame_alive _ _ _ _ _ As Ew) as (-> & B & Al & Bo & Hop).
    split; [done|]. split; [done|]. exists s, r1. rewrite Bs in B.
    split_and!; eauto; [by apply Forall_singleton|by rewrite B; cbn [app]; rewrite frames_one|by rewrite Bo].
  - destruct Ho as (s0 & r1 & Ho & Sa & Ra & Hne & As & Ar & F & B & Br).
    destruct (quic_send_frame m a _ w Sa) as (s & Es & E'). rewrite E' in E. rewrite <- Es in *.
    destruct (write_frame s m w) as [[x w1]|] eqn:Ew; [|done]. injection E as <- <- <-.
    destruct (write_frame_alive _ _ _ _ _ As Ew) as (-> & B' & Al & Bo & Hop).
    split; [done|]. split; [done|]. exists s0, r1. rewrite <- Es.
    split_and!; eauto; [apply Forall_app; auto| |by rewrite Bo].
    by rewrite B', B, <- frames_one, <- frames_app.
Qed.

Lemma quic_opening_room a b ab w m :
  quic_opening a b ab w → length (frames (ab ++ [m])) ≤ window → is_Some (quic_send m a w).
Proof.
  intros [Hb Ho] Hw. destruct ab as [|m0 ab].
  - destruct Ho as [Hf Ha]. destruct (quic_opening_open m a b w Hf Ha)
      as (s & r1 & w1 & a1 & _ & _ & _ & _ & As & _ & Bs & _ & ->).
    destruct (write_frame_room s m w1 As) as [[x w2] ->]; [|by eexists].
    by rewrite Bs, <- frames_one.
  - destruct Ho as (s0 & r1 & _ & Sa & _ & _ & As & _ & _ & B & _).
    destruct (quic_send_frame m a _ w Sa) as (s & Es & ->). rewrite <- Es in *.
    destruct (write_frame_room s m w As) as [[x w1] ->]; [|by eexists].
    by rewrite B, <- frames_one, <- frames_app.
Qed.

(** The first message accepts it at the other end. *)
Lemma quic_opening_recv a b m ab w :
  quic_opening a b (m :: ab) w →
  ∃ b' w', quic_recv b w = Some (Ok (Some m), b', w') ∧ quic_linked a b' ab [] w'.
Proof.
  intros (Hb & sa & r & Ho & Sa & Ra & Hne & As & Ar & [[Hm Hm'] F]%Forall_cons & B & Br).
  destruct (accept_bi_opened _ _ _ _ Ho) as (sb & w1 & E & Er & B1 & A1); [by rewrite B|].
  set (b' := mkQuicConn (connection b) (Some sb) (Some (sink sa)) true).
  destruct (quic_recv_frame_alive b' (sink sa) w1 m (frames ab)) as (w2 & E2 & B2 & A2 & Bo2);
    [done|auto|done|by rewrite B1|].
  exists b', w2. split.
  - rewrite Hb. unfold quic_recv at 1, ensure_recv. cbn. run_io. rewrite E. exact E2.
  - subst r. exists sa, sb. split_and!; eauto; [by split; eauto|done|by rewrite Bo2, B1].
Qed.

#[global] Program Instance quic_duplex : Duplex quic_connection := {|
  sendable := quic_sendable;
  room q := length (frames q) ≤ window;
  opening := quic_opening;
  linked := quic_linked;
|}.
Next Obligation. intros m [_ Hm]. by rewrite frames_one. Qed.
Next Obligation. exact quic_opening_send. Qed.
Next Obligation. intros a b ab w m Ho _. by apply (quic_opening_room a b). Qed.
Next Obligation. exact quic_opening_recv. Qed.
Next Obligation.
  intros a b w (Hb & Hf & Ha). cbn. rewrite Hb. unfold quic_recv, ensure_recv. cbn.
  run_io. by rewrite (accept_bi_fresh _ _ _ Hf).
Qed.
Next Obligation.
  intros a b m ab w (Hb & sa & r & Ho & Sa & Ra & Hne & As & Ar & F & B & Br).
  by apply (quic_recv_waits a r).
Qed.
Next Obligation. exact quic_linked_sym. Qed.
Next Obligation. exact quic_linked_send. Qed.
Next Obligation. intros a b ab ba w m Hl _. by apply (quic_linked_room a b ab ba). Qed.
Next Obligation. exact quic_linked_recv. Qed.
Next Obligation.
  intros a b ab w (sa & sb & Sa & Sb & Hne & Ra & Rb & Aa & Ab & Fa & Fb & Ba & Bb).
  by apply (quic_recv_waits a (sink sb)).
Qed.

(** Connections over different streams do not disturb each other. *)
Definition quic_uses (c : QuicConnection) (r : RecvStream) : Prop :=
  (∃ s, send_stream c = Some s ∧ sink s = r) ∨ recv_stream c = Some r.

Definition quic_apart (a c : QuicConnection) : Prop := ∀ r, quic_uses a r → ¬ quic_uses c r.

Lemma quic_linked_uses a b ab ba w :
  quic_linked a b ab ba w → ∃ ra rb, (∀ r, quic_uses a r ↔ r = ra ∨ r = rb) ∧
    (∀ r, quic_uses b r ↔ r = ra ∨ r = rb).
Proof.
  intros (sa & sb & (_ & s1 & E1 & F1) & (_ & s2 & E2 & F2) & _ & (_ & R1) & (_ & R2) & _).
  exists (sink sa), (sink sb). unfold quic_uses. split; intros r; split.
  - intros [(s & Es & <-)|Er]; [left; congruence|right; congruence].
  - intros [->| ->]; [left; eauto|right; congruence].
  - intros [(s & Es & <-)|Er]; [right; congruence|left; congruence].
  - intros [->| ->]; [right; congruence|left; eauto].
Qed.

Lemma quic_moved a b ab ba w a' w' :
  quic_linked a b ab ba w → moved (C := quic_connection) a w a' w' →
  a' = a ∧ (∀ r, alive r w → alive r w') ∧ (∀ r, ¬ quic_uses a r → buffered r w' = buffered r w).
Proof.
  intros (sa & sb & Sa & Sb & Hne & Ra & Rb & Aa & Ab & Fa & Fb & Ba & Bb) [|m r k v E|r k v E]; [done|..].
  - destruct (quic_send_frame m a _ w Sa) as (s & Es & E'). cbn in E. rewrite E' in E. rewrite <- Es in *.
    destruct (write_frame s m w) as [[x w1]|] eqn:Ew; [|done]. injection E as _ <- <-.
    destruct (write_frame_alive _ _ _ _ _ Aa Ew) as (_ & _ & Al & Bo & _). split_and!; [done..|].
    intros r' Hr. apply Bo. intros ->. apply Hr. left. by destruct Sa as (_ & s' & ? & ?); exists s'.
  - destruct ba as [|m ba].
    { cbn in E. by rewrite (quic_recv_waits a (sink sb)) in E. }
    apply Forall_cons in Fb as [[Hm _] _].
    destruct (quic_recv_frame_alive a _ w m _ Ra Ab Hm Bb) as (w1 & E' & _ & Al & Bo).
    cbn in E. rewrite E' in E. injection E as _ <- <-. split_and!; [done..|].
    intros r' Hr. apply Bo. intros ->. apply Hr. right. apply Ra.
Qed.

#[global] Program Instance quic_separate : Separate quic_duplex := {| apart := quic_apart |}.
Next Obligation. intros a c H r Hc Ha. by apply (H r). Qed.
Next Obligation.
  intros a c d cd dc w (ra & rb & Hc & Hd)%quic_linked_uses H r Ha Hr. apply (H r Ha).
  apply Hc. by apply Hd.
Qed.
Next Obligation. intros a b c ab ba w a' w' Hl Hm. by destruct (quic_moved _ _ _ _ _ _ _ Hl Hm) as [-> _]. Qed.
Next Obligation.
  intros a b c d ab ba cd dc w a' w' Hl Hc Ha Hm. destruct (quic_moved _ _ _ _ _ _ _ Hl Hm) as (_ & Al & Bo).
  destruct Hc as (sc & sd & (Cc & s1 & E1 & F1) & Sd & Hne & (_ & R1) & Rd & A1 & A2 & Fc & Fd & Bc & Bd).
  exists sc, sd. split_and!; eauto; try (by split; eauto).
  - rewrite Bo; [done|]. intros Hu. apply (Ha _ Hu). left. eauto.
  - rewrite Bo; [done|]. intros Hu. apply (Ha _ Hu). by right.
Qed.

(** An established connection is an opening one. *)
Lemma quic_fresh_opening qa qb w :
  bi_fresh qa qb w → opening (fresh_connection qa) (fresh_connection qb) [] w.
Proof. by intros H. Qed.

(** [recv] is not cancellation-safe.  When only the length of a message [m] has arrived,
    [recv] consumes it and waits for the data; a [select!] that takes another branch drops
    the call there.  When the data has arrived, the next [recv] takes its first four bytes
    for a length: if [m] starts with what looks like a frame, it is this that is received. *)
Lemma quic_recv_cancelled c r w m data rest :
  reads_from c r → alive r w → quic_sendable m → m = frame data ++ rest → quic_sendable data →
  buffered r w = to_be_bytes (len_as_u32 m) →
  quic_recv c w = None ∧
  ∃ w1, read_exact r 4 w = Some (inr (to_be_bytes (len_as_u32 m)), w1) ∧ buffered r w1 = [] ∧
    ∀ w2, buffered r w2 = m → ∃ w3, quic_recv c w2 = Some (Ok (Some data), c, w3).
Proof.
  intros Hc Ha [Hm _] Em [Hd _] Hb.
  assert (Hn : len_as_u32 m = Z.of_nat (length m)) by (unfold len_as_u32; apply Z.mod_small; lia).
  rewrite Hn in *. set (n := Z.of_nat (length m)) in *.
  assert (Hn4 : (4 ≤ n)%Z) by (unfold n; rewrite Em, length_app, length_frame; lia).
  destruct (read_exact_takes r 4 w) as (w1 & E1 & B1); [rewrite Hb; cbn; lia|].
  rewrite Hb in E1, B1. change (take 4 (to_be_bytes n)) with (to_be_bytes n) in E1.
  change (drop 4 (to_be_bytes n)) with (@nil byte) in B1. split.
  - destruct Hc as [Hc Hr]. unfold quic_recv, ensure_recv. rewrite Hc, Hr. cbn [negb].
    unfold mbind, io_bind, mret, io_ret, read_frame, mbind, io_bind. rewrite E1.
    destruct (be_roundtrip n) as (v & Ev & Hv); [lia|]. rewrite Ev, Hv.
    destruct (read_exact_alive _ _ _ _ _ Ha E1) as [Ha1 _].
    by rewrite read_exact_waits by (rewrite ?B1; cbn; auto; lia).
  - exists w1. split_and!; [done..|]. intros w2 B2. rewrite Em in B2.
    destruct (quic_recv_frame c r w2 data rest Hc) as (w3 & E & _); [lia|done|]. by exists w3.
Qed.

End quic_duplex.

(** ** A single stream in memory, for the witnesses *)

(** One connection with one stream: whether it is open, and the bytes each way.  [true] is
    the dialling end, and the stream it sends on. *)
Record ToyNet := mkToyNet { toy_open : bool; toy_ab : list byte; toy_ba : list byte }.

Definition toy_get (r : bool) (w : ToyNet) : list byte := if r then toy_ab w else toy_ba w.

Definition toy_set (r : bool) (bs : list byte) (w : ToyNet) : ToyNet :=
  if r then mkToyNet (toy_open w) bs (toy_ba w) else mkToyNet (toy_open w) (toy_ab w) bs.

#[local] Instance toy_quinn : Quinn := {|
  net := ToyNet; Endpoint := unit; ServerConfig := unit; ClientConfig := unit;
  QConnection := bool; SendStream := bool; RecvStream := bool;
  generate_simple_self_signed _ w := Some (inr ([], []), w);
  private_key_try_from k := inr k;
  with_single_cert _ _ := inr tt;
  quic_client_config := inr tt;
  endpoint_server _ _ w := Some (inr tt, w);
  endpoint_client w := Some (inr tt, w);
  endpoint_local_addr _ _ := inr (mkSocketAddr (IPv4 (vreplicate 4 Byte.x00)) 4433);
  endpoint_accept _ w := Some (Some (inr false), w);
  endpoint_connect_init _ _ _ _ _ := inr tt;
  endpoint_connect _ _ _ _ w := Some (inr true, w);
  endpoint_close _ w := Some (tt, w);
  open_bi q w := Some (inr (q, negb q), mkToyNet true (toy_ab w) (toy_ba w));
  accept_bi q w :=
    if decide (toy_get (negb q) w = []) then None else Some (inr (q, negb q), w);
  write_all s d w := Some (inr tt, toy_set s (toy_get s w ++ d) w);
  read_exact r k w :=
    if decide (k ≤ length (toy_get r w)) then
      Some (inr (take k (toy_get r w)), toy_set r (drop k (toy_get r w)) w)
    else None;
  qconn_close _ w := w;
  qconn_drop _ _ _ w := w;
  close_reason _ _ := None;
  remote_address _ := mkSocketAddr (IPv4 (vreplicate 4 Byte.x00)) 4433;
|}.

#[local] Program Instance toy_quinn_laws : QuinnLaws toy_quinn := {|
  buffered := toy_get; sink := λ s, s;
|}.
Next Obligation. by intros [] d w w' [= <-]. Qed.
Next Obligation.
  intros [] k w Hk; cbn in *; rewrite decide_True by done; by eexists.
Qed.

#[local] Program Instance toy_quinn_live : QuinnLive toy_quinn toy_quinn_laws := {|
  alive _ _ := True;
  window := Z.to_nat 131072;
  bi_fresh a b w := a = true ∧ b = false ∧ w = mkToyNet false [] [];
  bi_opened b s r w := b = false ∧ s = true ∧ r = false;
|}.
Next Obligation. intros a b w (-> & -> & ->). by exists true, false, (mkToyNet true [] []). Qed.
Next Obligation. by intros a b w (-> & -> & ->). Qed.
Next Obligation.
  intros b s r w (-> & -> & ->) Hb. exists false, w. cbn in *. by rewrite decide_False.
Qed.
Next Obligation.
  intros s d w res w' _ [= <- <-]. split_and!; [done|done|by intros []; destruct s|done].
Qed.
Next Obligation. intros s d w _ _. by eexists. Qed.
Next Obligation.
  intros r k w res w' _ E. cbn in *. case_decide; [|done]. injection E as <- <-.
  split; [done|]. by intros []; destruct r.
Qed.
Next Obligation. intros r k w _ Hk. cbn in *. rewrite decide_False by lia. done. Qed.

Definition toy_a : QuicConnection := mkQuicConn true (Some true) (Some false) true.
Definition toy_b : QuicConnection := mkQuicConn false (Some false) (Some true) true.
Definition toy_sent (bs : list byte) : ToyNet := mkToyNet true bs [].

Lemma quic_framing_roundtrip_witness :
  ∃ w2, recv_n 2 toy_b (toy_sent (frame [Byte.x41; Byte.x42] ++ frame [])) =
    Some ([Ok (Some [Byte.x41; Byte.x42]); Ok (Some [])], toy_b, w2) ∧ buffered true w2 = [].
Proof.
  apply (quic_framing_roundtrip [[Byte.x41; Byte.x42]; []] toy_a toy_b true (toy_sent [])
    [Ok tt; Ok tt] toy_a).
  - split; [reflexivity|exists true; split; reflexivity].
  - split; reflexivity.
  - reflexivity.
  - repeat constructor.
  - reflexivity.
  - repeat constructor.
Defined.

Lemma toy_send d : quic_send d toy_a (toy_sent []) = Some (Ok tt, toy_a, toy_sent (frame d)).
Proof. reflexivity. Qed.

Lemma quic_length_truncated_witness :
  let data := replicate (Z.to_nat (2 ^ 32 + 5)) Byte.x00 in
  ∃ w2, quic_recv toy_b (toy_sent (frame data)) = Some (Ok (Some (take 5 data)), toy_b, w2) ∧
    buffered true w2 = drop 5 data.
Proof.
  intros data.
  assert (Hl : Z.of_nat (length data) = (2 ^ 32 + 5)%Z)
    by (unfold data; rewrite length_replicate, Z2Nat.id; lia).
  apply (quic_length_truncated data 5 toy_a toy_b true (toy_sent []) _ toy_a).
  - split; [reflexivity|exists true; split; reflexivity].
  - split; reflexivity.
  - reflexivity.
  - exact Hl.
  - lia.
  - apply toy_send.
Defined.

(** ** Life cycle *)

Section lifecycle.
Context `{Q : Quinn}.

(** A closed connection is inert: sending fails with an error, receiving reports
    the end of the stream, neither touches the network nor changes the connection,
    and it is reported as not connected. *)
Theorem quic_closed_inert c c' r w w' data w2 :
  quic_close c w = Some (r, c', w') →
  r = Ok tt ∧
  quic_send data c' w2 = Some (Err (Connection "not connected"), c', w2) ∧
  quic_recv c' w2 = Some (Ok None, c', w2) ∧
  quic_is_connected c' w2 = false ∧
  (∃ w3, quic_close c' w2 = Some (Ok tt, c', w3)).
Proof. intros [= <- <- <-]. split_and!; try done. by eexists. Qed.

(** The life cycle of the transport: a transport that is neither listening nor
    connecting refuses to accept; a successful [listen] publishes the bound address
    and a failed one changes nothing; [connect] never replaces a listening endpoint
    and never changes the published address; [shutdown] forgets both, so that
    accepting is refused again. *)
Theorem quic_transport_lifecycle t addr w :
  (endpoint t = None → quic_accept t w = Some (Err (Transport "not listening"), w)) ∧
  (∀ r t' w', quic_listen addr t w = Some (r, t', w') →
     match r with
     | Ok _ => is_Some (endpoint t') ∧ is_Some (quic_local_addr t')
     | _ => t' = t
     end) ∧
  (∀ r t' w', quic_connect addr t w = Some (r, t', w') →
     quic_local_addr t' = quic_local_addr t ∧
     (is_Some (endpoint t) → endpoint t' = endpoint t) ∧
     (is_ok r = true → is_Some (endpoint t'))) ∧
  (∀ r t' w', quic_shutdown t w = Some (r, t', w') →
     r = Ok tt ∧ t' = quic_new ∧ ∀ w2, quic_accept t' w2 = Some (Err (Transport "not listening"), w2)).
Proof.
  split_and!.
  - intros H. unfold quic_accept. by rewrite H.
  - intros r t' w'. unfold quic_listen, make_server_config, mbind, io_bind, mret, io_ret, io_gets.
    repeat case_match; intros; simplify_eq/=; eauto.
  - intros r t' w'. unfold quic_connect, client_endpoint, mbind, io_bind, mret, io_ret.
    repeat case_match; intros; simplify_eq/=; eauto.
    all: split_and!; eauto; intros Hs; first [discriminate Hs | by destruct Hs].
  - intros r t' w'. unfold quic_shutdown, mbind, io_bind, mret, io_ret.
    repeat case_match; intros; simplify_eq/=; done.
Qed.

End lifecycle.

Lemma quic_closed_inert_witness :
  let c' := mkQuicConn true (Some true) (Some false) false in
  quic_recv c' (toy_sent []) = Some (Ok None, c', toy_sent []).
Proof.
  apply (quic_closed_inert toy_a _ (Ok tt) (toy_sent []) (toy_sent []) [] (toy_sent [])).
  reflexivity.
Defined.

Lemma quic_transport_lifecycle_witness :
  quic_accept quic_new (toy_sent []) = Some (Err (Transport "not listening"), toy_sent []).
Proof.
  apply (@quic_transport_lifecycle toy_quinn quic_new
    (mkSocketAddr (IPv4 (vreplicate 4 Byte.x00)) 0) (toy_sent [])).
  reflexivity.
Defined.
