(* ===== verification/Identity.v ===== *)
(** * omnimesh-identity: keypairs, peer identifiers, virtual addresses
      ([keypair.rs], [peer_id.rs], [virtual_ip.rs])

    The [ed25519-dalek] crate is a parameter.  A peer identifier is the public key
    itself, so it is enough to verify its owner's signatures; a virtual address
    carries the first twelve of its bytes. *)

From S2P Require Import Prelude Text Error Types.

(** ** Ed25519 *)

Class Ed25519 := {
  SigningKey : Type;
  VerifyingKey : Type;
  sk_from_bytes : vec byte 32 → SigningKey;
  sk_to_bytes : SigningKey → vec byte 32;
  verifying_key : SigningKey → VerifyingKey;
  vk_to_bytes : VerifyingKey → vec byte 32;
  vk_from_bytes : vec byte 32 → string + VerifyingKey;
  sk_sign : SigningKey → list byte → vec byte 64;
  vk_verify : VerifyingKey → list byte → vec byte 64 → string + unit;
}.

(** RFC 8032 through the crate: keys read back from their bytes, and a key verifies
    what it signed. *)
Class Ed25519Laws (D : Ed25519) : Prop := {
  sk_to_from : ∀ seed, sk_to_bytes (sk_from_bytes seed) = seed;
  sk_from_to : ∀ k, sk_from_bytes (sk_to_bytes k) = k;
  vk_from_to : ∀ k, vk_from_bytes (vk_to_bytes (verifying_key k)) = inr (verifying_key k);
  sign_verifies : ∀ k m, vk_verify (verifying_key k) m (sk_sign k m) = inr tt;
}.

Section identity.
Context `{D : Ed25519}.

Record Keypair := mkKeypair { kp_inner : SigningKey }.

Record PublicKey := mkPublicKey { pk_bytes : vec byte 32 }.

Record Signature := mkSignature { sig_bytes : vec byte 64 }.

Definition pk_from_bytes (bytes : vec byte 32) : PublicKey := mkPublicKey bytes.

Definition pk_as_bytes (p : PublicKey) : vec byte 32 := pk_bytes p.

Definition sig_from_bytes (bytes : vec byte 64) : Signature := mkSignature bytes.

Definition sig_as_bytes (s : Signature) : vec byte 64 := sig_bytes s.

(** [seed] is what [OsRng] produced. *)
Definition kp_generate (random : vec byte 32) : Keypair := mkKeypair (sk_from_bytes random).

Definition kp_from_seed (seed : vec byte 32) : Keypair := mkKeypair (sk_from_bytes seed).

Definition kp_seed (k : Keypair) : vec byte 32 := sk_to_bytes (kp_inner k).

Definition kp_public_key (k : Keypair) : PublicKey :=
  mkPublicKey (vk_to_bytes (verifying_key (kp_inner k))).

Definition kp_sign (k : Keypair) (message : list byte) : Signature :=
  mkSignature (sk_sign (kp_inner k) message).

Definition pk_verify (p : PublicKey) (message : list byte) (signature : Signature)
    : Result unit :=
  vk ← of_lib (λ e, Identity ("invalid public key: " +:+ e)) (vk_from_bytes (pk_bytes p));
  of_lib (λ e, Identity ("signature verification failed: " +:+ e))
    (vk_verify vk message (sig_bytes signature)).

Definition kp_verify (k : Keypair) (message : list byte) (signature : Signature)
    : Result unit :=
  pk_verify (kp_public_key k) message signature.

Definition pk_to_hex `{T : TextCodecs} (p : PublicKey) : string :=
  hex_encode (vec_to_list (pk_bytes p)).

(** [Debug], derived. *)
Definition pk_debug (p : PublicKey) : string :=
  debug_struct "PublicKey"
    [("bytes"%string,
      "[" +:+ String.concat ", " (map (λ b, pretty (Byte.to_N b)) (vec_to_list (pk_bytes p))) +:+ "]")].

(** [Debug for Keypair] *)
Definition kp_debug (k : Keypair) : string :=
  debug_struct "Keypair"
    [("public_key", pk_debug (kp_public_key k)); ("secret", quoted "[REDACTED]")]%string.

(** [Drop for Keypair]: the key it leaves in memory, and its local copy of the seed. *)
Definition kp_drop (k : Keypair) : Keypair * vec byte 32 := (k, vreplicate 32 Byte.x00).

(** [Deserialize for Signature], after the byte vector was read. *)
Definition signature_of_bytes (bytes : list byte) : result string Signature :=
  if decide (length bytes ≠ 64) then
    Err ("expected 64 bytes for Signature, got " +:+ pretty (length bytes))
  else arr ← or_panic (array_of_list 64 bytes); Ok (mkSignature arr).

Definition signature_to_bytes (s : Signature) : list byte := vec_to_list (sig_bytes s).

(** ** Peer identifiers *)

Definition pk_to_peer_id (p : PublicKey) : PeerId := from_bytes (pk_as_bytes p).

Definition kp_to_peer_id (k : Keypair) : PeerId := pk_to_peer_id (kp_public_key k).

Definition peer_id_from_public_key_bytes (public_key : vec byte 32) : PeerId :=
  from_bytes public_key.

End identity.

(** ** Virtual addresses *)

Record VirtualIp := mkVirtualIp { vip_addr : vec byte 16 }.

Definition ULA_PREFIX : vec byte 4 := [# Byte.xfd; Byte.x4f; Byte.x4d; Byte.x00].

(** The octet buffer, filled by two [copy_from_slice]. *)
Definition from_peer_id (peer_id : PeerId) : Result VirtualIp :=
  octets ← or_panic (array_of_list 16
    (vec_to_list ULA_PREFIX ++ take 12 (vec_to_list (as_bytes peer_id))));
  Ok (mkVirtualIp octets).

Definition is_omnimesh_address (addr : vec byte 16) : bool :=
  bool_decide (take 4 (vec_to_list addr) = vec_to_list ULA_PREFIX).

(** [Display for VirtualIp] *)
Definition vip_display (v : VirtualIp) : string := ipv6_to_string (vip_addr v).

#[global] Instance PublicKey_eq_dec : EqDecision PublicKey.
Proof. solve_decision. Defined.

#[global] Instance Signature_eq_dec : EqDecision Signature.
Proof. solve_decision. Defined.

#[global] Instance VirtualIp_eq_dec : EqDecision VirtualIp.
Proof. solve_decision. Defined.

(** ** Properties *)

(** The debug text of a keypair is a function of its public key. *)
Lemma kp_debug_public `{D : Ed25519} k k' :
  kp_public_key k = kp_public_key k' → kp_debug k = kp_debug k'.
Proof. unfold kp_debug. by intros ->. Qed.

(** Dropping a keypair clears the copy of the seed it makes, and not the key it was copied
    from. *)
Lemma kp_drop_keeps `{D : Ed25519} k :
  (kp_drop k).2 = vreplicate 32 Byte.x00 ∧ kp_seed (kp_drop k).1 = kp_seed k.
Proof. done. Qed.

Section identity_facts.
Context `{D : Ed25519, !Ed25519Laws D}.

Lemma kp_seed_roundtrip k : kp_from_seed (kp_seed k) = k.
Proof. destruct k as [k]. unfold kp_from_seed, kp_seed. cbn. by rewrite sk_from_to. Qed.

(** The peer identifier is the public key itself, and no hash of it: a signature verifies
    under the identifier alone. *)
Lemma peer_id_verifies k m :
  pk_verify (mkPublicKey (as_bytes (kp_to_peer_id k))) m (kp_sign k m) = Ok tt.
Proof. unfold pk_verify. cbn. rewrite vk_from_to. cbn. by rewrite sign_verifies. Qed.

End identity_facts.

Lemma from_peer_id_bytes p :
  ∃ v, from_peer_id p = Ok (mkVirtualIp v) ∧
    vec_to_list v = vec_to_list ULA_PREFIX ++ take 12 (vec_to_list (peer_bytes p)).
Proof.
  unfold from_peer_id, as_bytes.
  destruct (array_of_list_length 16
    (vec_to_list ULA_PREFIX ++ take 12 (vec_to_list (peer_bytes p)))) as [v E].
  { rewrite length_app, length_take, !length_vec_to_list. lia. }
  exists v. rewrite E. split; [done|]. by apply array_of_list_Some in E.
Qed.

Lemma from_peer_id_total p : ∃ v, from_peer_id p = Ok v.
Proof. destruct (from_peer_id_bytes p) as (v & E & _). by exists (mkVirtualIp v). Qed.

(** Every peer gets an address in the OmniMesh range, and the address tells
    peers apart exactly as far as their first twelve bytes do: the derivation
    never panics, its result carries the prefix, and two peers share an address if
    and only if they agree on those bytes. *)
Theorem virtual_ip_range p q :
  ∃ a b, from_peer_id p = Ok a ∧ from_peer_id q = Ok b ∧
    is_omnimesh_address (vip_addr a) = true ∧
    (a = b ↔ take 12 (vec_to_list (peer_bytes p)) = take 12 (vec_to_list (peer_bytes q))).
Proof.
  destruct (from_peer_id_bytes p) as (v & Ep & Hv), (from_peer_id_bytes q) as (w & Eq & Hw).
  exists (mkVirtualIp v), (mkVirtualIp w). split_and!; [done..| |].
  - unfold is_omnimesh_address. cbn [vip_addr]. rewrite Hv. by apply bool_decide_eq_true.
  - split.
    + intros [= ->]. rewrite Hv in Hw. by apply app_inv_head in Hw.
    + intros E. f_equal. apply vec_to_list_inj2. by rewrite Hv, Hw, E.
Qed.

(** ** A toy signature scheme, for the witnesses *)

(** The key is its seed, and a signature is a constant that always verifies. *)
#[local] Instance toy_ed25519 : Ed25519 := {|
  SigningKey := vec byte 32; VerifyingKey := vec byte 32;
  sk_from_bytes s := s; sk_to_bytes k := k; verifying_key k := k; vk_to_bytes k := k;
  vk_from_bytes b := inr b; sk_sign _ _ := vreplicate 64 Byte.x00;
  vk_verify _ _ _ := inr tt;
|}.

#[local] Instance toy_ed25519_laws : Ed25519Laws toy_ed25519.
Proof. by split. Qed.
