(* ===== verification/Keystore.v ===== *)
(** * omnimesh-identity: encrypted key storage ([keystore.rs])

    [FileKeyStore] over a file system that maps paths to contents.  Storing is a program
    of file-system calls ([fs_io]): [fs_run] runs it, with the failures of the file
    system as inputs ([Faults]); [crashes] gives the states in which it can stop when the
    process dies, between any two calls or in the middle of a write.  The JSON format ([serde_json]) and the two crypto
    crates are parameters. *)

From S2P Require Import Prelude Text Error Kdf Aead Identity.

(** ** Paths and files *)

(** [PathBuf], split the way [Path::parent], [file_stem] and [extension] do. *)
Record Path := mkPath { p_parent : option string; p_stem : string; p_ext : option string }.

#[global] Instance Path_eq_dec : EqDecision Path.
Proof. solve_decision. Defined.

#[global] Program Instance Path_countable : Countable Path :=
  inj_countable' (λ p, (p_parent p, p_stem p, p_ext p))
                 (λ t, mkPath t.1.1 t.1.2 t.2) _.
Next Obligation. by intros []. Qed.

Definition with_extension (p : Path) (ext : string) : Path :=
  mkPath (p_parent p) (p_stem p) (Some ext).

Abbreviation files := (gmap Path (list byte)).

(** The faults one operation may meet: an error of [create_dir_all], a failed
    [write] with what it left in the file, an error of [rename] or [remove_file]. *)
Record Faults := mkFaults {
  mkdir_fault : option string;
  write_fault : option (string * option (list byte));
  rename_fault : option string;
  remove_fault : option string;
}.

Definition no_faults : Faults := mkFaults None None None None.

Definition fs_write (f : Faults) (p : Path) (data : list byte) (fs : files)
    : (string + unit) * files :=
  match write_fault f with
  | None => (inr tt, <[p := data]> fs)
  | Some (e, None) => (inl e, fs)
  | Some (e, Some partial) => (inl e, <[p := partial]> fs)
  end.

Definition fs_rename (f : Faults) (src dst : Path) (fs : files) : (string + unit) * files :=
  match rename_fault f, fs !! src with
  | Some e, _ => (inl e, fs)
  | None, None => (inl "No such file or directory"%string, fs)
  | None, Some data => (inr tt, <[dst := data]> (delete src fs))
  end.

Definition fs_remove (f : Faults) (p : Path) (fs : files) : (string + unit) * files :=
  match remove_fault f with
  | Some e => (inl e, fs)
  | None => (inr tt, delete p fs)
  end.

Definition fs_mkdir (f : Faults) : string + unit :=
  match mkdir_fault f with Some e => inl e | None => inr tt end.

(** A program of file-system calls, each continued with its outcome. *)
Inductive fs_io : Type :=
| FDone (r : Result unit)
| FMkdir (k : string + unit → fs_io)
| FWrite (p : Path) (data : list byte) (k : string + unit → fs_io)
| FRename (src dst : Path) (k : string + unit → fs_io).

(** The [?] operator. *)
Definition ftry {A} (r : Result A) (k : A → fs_io) : fs_io :=
  match r with Ok a => k a | Err e => FDone (Err e) | Panic => FDone Panic end.

(** One call. *)
Definition fs_step (f : Faults) (io : fs_io) (fs : files) : option (fs_io * files) :=
  match io with
  | FDone _ => None
  | FMkdir k => Some (k (fs_mkdir f), fs)
  | FWrite p data k => let '(r, fs) := fs_write f p data fs in Some (k r, fs)
  | FRename src dst k => let '(r, fs) := fs_rename f src dst fs in Some (k r, fs)
  end.

Fixpoint fs_run (f : Faults) (io : fs_io) (fs : files) : Result unit * files :=
  match io with
  | FDone r => (r, fs)
  | FMkdir k => fs_run f (k (fs_mkdir f)) fs
  | FWrite p data k => let '(r, fs) := fs_write f p data fs in fs_run f (k r) fs
  | FRename src dst k => let '(r, fs) := fs_rename f src dst fs in fs_run f (k r) fs
  end.

(** What a crash may leave: the process dies before the next call, in the middle of a
    write, or after further calls, any of which may have failed.  A rename happens or
    does not (POSIX). *)
Inductive crashes : fs_io → files → files → Prop :=
| crash_here io fs : crashes io fs fs
| crash_writing p data k fs part :
    part `prefix_of` data → crashes (FWrite p data k) fs (<[p := part]> fs)
| crash_later f io io' fs fs' fs'' :
    fs_step f io fs = Some (io', fs') → crashes io' fs' fs'' → crashes io fs fs''.

(** ** The record on disk *)

Record EncryptedKey := mkEncryptedKey {
  ek_version : Z;
  ek_nonce : vec byte 12;
  ek_ciphertext : list byte;
  ek_salt : vec byte 32;
  ek_created_at : string;
}.

(** [serde_json]. *)
Class KeyJson := {
  to_string_pretty : EncryptedKey → string + list byte;
  from_str : list byte → string + EncryptedKey;
}.

Class KeyJsonLaws (J : KeyJson) : Prop := {
  json_total : ∀ r, ∃ s, to_string_pretty r = inr s;
  json_roundtrip : ∀ r s, to_string_pretty r = inr s → from_str s = inr r ∧ utf8_valid s = true;
}.

(** ** Operations *)

Section keystore.
Context `{K : Hkdf, C : Cipher, D : Ed25519, J : KeyJson}.

Record FileKeyStore := mkKeyStore { ks_path : Path }.

(** [expect] on the expansion. *)
Definition ks_derive_key (passphrase : list byte) (salt : vec byte 32) : Result (vec byte 32) :=
  match hkdf_expand (Some (vec_to_list salt)) passphrase (label "omnimesh-keystore-v1") 32 with
  | inl _ => Panic
  | inr out => or_panic (array_of_list 32 out)
  end.

(** The record to write: everything before the file system is touched. *)
Definition seal_record (salt : vec byte 32) (nonce : vec byte 12) (created_at : string)
    (keypair : Keypair) (passphrase : list byte) : Result EncryptedKey :=
  enc_key ← ks_derive_key passphrase salt;
  c ← of_lib (λ e, KeyStoreError ("cipher init failed: " +:+ e))
        (new_from_slice (vec_to_list enc_key));
  ciphertext ← of_lib (λ e, KeyStoreError ("encryption failed: " +:+ e))
                 (cipher_encrypt c nonce (vec_to_list (kp_seed keypair)));
  Ok (mkEncryptedKey 1 nonce ciphertext salt created_at).

Definition tmp_path (ks : FileKeyStore) : Path := with_extension (ks_path ks) "tmp".

Definition ks_store_io (salt : vec byte 32) (nonce : vec byte 12) (created_at : string)
    (ks : FileKeyStore) (keypair : Keypair) (passphrase : list byte) : fs_io :=
  ftry (seal_record salt nonce created_at keypair passphrase) (λ record,
  let write :=
    ftry (of_lib (λ e, KeyStoreError ("serialization failed: " +:+ e))
            (to_string_pretty record)) (λ json,
    FWrite (tmp_path ks) json (λ r,
    ftry (of_lib (λ e, KeyStoreError ("failed to write key file: " +:+ e)) r) (λ _,
    FRename (tmp_path ks) (ks_path ks) (λ r,
    ftry (of_lib (λ e, KeyStoreError ("failed to rename key file: " +:+ e)) r) (λ _,
    FDone (Ok tt)))))) in
  match p_parent (ks_path ks) with
  | Some _ =>
      FMkdir (λ r,
      ftry (of_lib (λ e, KeyStoreError ("failed to create key directory: " +:+ e)) r) (λ _,
      write))
  | None => write
  end).

Definition ks_store (salt : vec byte 32) (nonce : vec byte 12) (created_at : string)
    (f : Faults) (ks : FileKeyStore) (keypair : Keypair) (passphrase : list byte) (fs : files)
    : Result unit * files :=
  fs_run f (ks_store_io salt nonce created_at ks keypair passphrase) fs.

Definition open_record (record : EncryptedKey) (passphrase : list byte) : Result Keypair :=
  if decide (ek_version record ≠ 1%Z) then
    Err (KeyStoreError ("unsupported key format version: " +:+ pretty (ek_version record)))
  else
    enc_key ← ks_derive_key passphrase (ek_salt record);
    c ← of_lib (λ e, KeyStoreError ("cipher init failed: " +:+ e))
          (new_from_slice (vec_to_list enc_key));
    seed_bytes ← of_lib (λ _, KeyStoreError "decryption failed — wrong passphrase or corrupted file")
                   (cipher_decrypt c (ek_nonce record) (ek_ciphertext record));
    if decide (length seed_bytes ≠ 32) then
      Err (KeyStoreError ("invalid seed length: expected 32, got " +:+ pretty (length seed_bytes)))
    else
      seed ← or_panic (array_of_list 32 seed_bytes);
      Ok (kp_from_seed seed).

Definition ks_load (ks : FileKeyStore) (passphrase : list byte) (fs : files) : Result Keypair :=
  json ← match fs !! ks_path ks with
         | None => Err (KeyStoreError "failed to read key file: No such file or directory")
         | Some bytes =>
             if utf8_valid bytes then Ok bytes
             else Err (KeyStoreError "failed to read key file: stream did not contain valid UTF-8")
         end;
  record ← of_lib (λ e, KeyStoreError ("invalid key file format: " +:+ e)) (from_str json);
  open_record record passphrase.

Definition ks_exists (ks : FileKeyStore) (fs : files) : bool :=
  bool_decide (is_Some (fs !! ks_path ks)).

Definition ks_delete (f : Faults) (ks : FileKeyStore) (fs : files) : Result unit * files :=
  if ks_exists ks fs then
    let fs := (fs_write f (ks_path ks) (replicate 512 Byte.x00) fs).2 in
    let '(r, fs) := fs_remove f (ks_path ks) fs in
    attempt (of_lib (λ e, KeyStoreError ("failed to delete key file: " +:+ e)) r) fs (λ _,
    (Ok tt, fs))
  else (Ok tt, fs).

End keystore.

(** ** Properties *)

Section keystore_facts.
Context `{K : Hkdf, !HkdfLaws K, C : Cipher, !CipherLaws C, D : Ed25519, !Ed25519Laws D,
          J : KeyJson, !KeyJsonLaws J}.

Lemma ks_derive_key_ok passphrase salt : ∃ k, ks_derive_key passphrase salt = Ok k.
Proof.
  unfold ks_derive_key.
  destruct (hkdf_expand_ok (Some (vec_to_list salt)) passphrase (label "omnimesh-keystore-v1") 32)
    as (out & -> & L); [lia|].
  destruct (array_of_list_length 32 out L) as [k ->]. by exists k.
Qed.

(** Sealing always succeeds, and what is sealed opens with the same passphrase. *)
Lemma seal_open salt nonce now kp pass :
  ∃ r, seal_record salt nonce now kp pass = Ok r ∧ open_record r pass = Ok kp.
Proof.
  unfold seal_record. destruct (ks_derive_key_ok pass salt) as [k Hk]. rewrite Hk.
  cbn [mbind result_bind]. destruct (new_from_slice_ok k) as [c Hc]. rewrite Hc.
  cbn [mbind result_bind of_lib].
  destruct (cipher_encrypt_ok c nonce (vec_to_list (kp_seed kp))) as [ct He].
  { rewrite length_vec_to_list. by unfold MAX_PLAINTEXT. }
  rewrite He. cbn [mbind result_bind of_lib]. eexists. split; [done|].
  unfold open_record. cbn [ek_version ek_salt ek_nonce ek_ciphertext].
  rewrite decide_False by lia. rewrite Hk. cbn [mbind result_bind]. rewrite Hc.
  cbn [mbind result_bind of_lib]. rewrite (proj2 (cipher_decrypt_iff _ _ _ _) He).
  cbn [mbind result_bind of_lib]. rewrite length_vec_to_list, decide_False by lia.
  rewrite array_of_vec. cbn. by rewrite kp_seed_roundtrip.
Qed.

Lemma open_record_no_panic r pass : open_record r pass ≠ Panic.
Proof.
  unfold open_record. case_decide; [done|]. destruct (ks_derive_key_ok pass (ek_salt r)) as [k ->].
  cbn [mbind result_bind]. destruct (new_from_slice_ok k) as [c ->]. cbn [mbind result_bind of_lib].
  destruct (cipher_decrypt _ _ _) as [|s]; cbn [mbind result_bind of_lib]; [done|].
  case_decide as Hl; [done|].
  destruct (array_of_list_length 32 s) as [v ->]; [|done]. by destruct (decide (length s = 32)).
Qed.

Lemma ks_load_file ks pass fs json r :
  fs !! ks_path ks = Some json → to_string_pretty r = inr json →
  ks_load ks pass fs = open_record r pass.
Proof.
  intros Hf Hj. unfold ks_load. rewrite Hf. destruct (json_roundtrip r json Hj) as [Hr Hu].
  rewrite Hu. cbn [mbind result_bind]. by rewrite Hr.
Qed.

(** The path and its temporary neighbour differ. *)
Definition proper_path (ks : FileKeyStore) : Prop := tmp_path ks ≠ ks_path ks.

(** [store], on every branch: what becomes of the key file. *)
Lemma ks_store_cases salt nonce now f ks kp pass fs :
  ∃ r json, seal_record salt nonce now kp pass = Ok r ∧ to_string_pretty r = inr json ∧
  let '(res, fs') := ks_store salt nonce now f ks kp pass fs in
  (res = Ok tt ∧ fs' !! ks_path ks = Some json) ∨
  (is_err res = true ∧ (proper_path ks → fs' !! ks_path ks = fs !! ks_path ks)).
Proof.
  destruct (seal_open salt nonce now kp pass) as (r & Hs & _).
  destruct (json_total r) as [json Hj]. exists r, json. split_and!; [done|done|].
  unfold ks_store, ks_store_io. rewrite Hs. cbn [ftry]. rewrite Hj. cbn [ftry of_lib].
  destruct (p_parent (ks_path ks)); [cbn [fs_run]; unfold fs_mkdir;
    destruct (mkdir_fault f); cbn [of_lib ftry]; [by right|]|];
    cbn [fs_run]; unfold fs_write;
    (destruct (write_fault f) as [[e [part|]]|]; cbn [fs_run ftry of_lib];
      [right; split; [done|]; intros Hp; by rewrite lookup_insert_ne
      |by right
      |unfold fs_rename; rewrite lookup_insert_eq; destruct (rename_fault f);
        cbn [fs_run ftry of_lib];
        [right; split; [done|]; intros Hp; by rewrite lookup_insert_ne
        |left; split; [done|]; by rewrite lookup_insert_eq]]).
Qed.

(** After a successful [store], the key file opens as the keypair stored. *)
Lemma ks_store_sealed salt nonce now f ks kp pass fs fs' :
  ks_store salt nonce now f ks kp pass fs = (Ok tt, fs') →
  ∃ json r, fs' !! ks_path ks = Some json ∧ to_string_pretty r = inr json ∧
    open_record r pass = Ok kp.
Proof.
  intros E. destruct (seal_open salt nonce now kp pass) as (r & Hs & Ho).
  pose proof (ks_store_cases salt nonce now f ks kp pass fs) as (r' & json & Hs' & Hj & H).
  rewrite E in H. rewrite Hs in Hs'. injection Hs' as <-.
  destruct H as [[_ Hf]|[H _]]; [|done]. by exists json, r.
Qed.

Lemma ks_exists_lookup ks fs json : fs !! ks_path ks = Some json → ks_exists ks fs = true.
Proof. intros E. unfold ks_exists. rewrite E. by apply bool_decide_eq_true. Qed.

(** ** Crashes *)

Lemma crashes_done r fs fs' : crashes (FDone r) fs fs' → fs' = fs.
Proof. intros H. by inv H. Qed.

Lemma crashes_try {X} (g : string → OmniMeshError) (r : string + X) k fs fs' :
  crashes (ftry (of_lib g r) k) fs fs' → fs' = fs ∨ ∃ x, r = inr x ∧ crashes (k x) fs fs'.
Proof. destruct r as [e|x]; cbn; [intros ->%crashes_done; by left|]. right. by exists x. Qed.

Lemma crashes_mkdir k fs fs' :
  crashes (FMkdir k) fs fs' → fs' = fs ∨ ∃ r, crashes (k r) fs fs'.
Proof. intros H. inv H; [by left|]. simplify_eq/=. right. by eexists. Qed.

Lemma crashes_rename src dst k fs fs' :
  crashes (FRename src dst k) fs fs' →
  fs' = fs ∨ ∃ f, crashes (k (fs_rename f src dst fs).1) (fs_rename f src dst fs).2 fs'.
Proof.
  intros H. inv H; [by left|]. cbn in *. right. exists f.
  destruct (fs_rename f src dst fs). by simplify_eq/=.
Qed.

(** A write leaves every other file alone, and its own torn or whole. *)
Lemma crashes_write p data k fs fs' :
  crashes (FWrite p data k) fs fs' →
  (∀ q, q ≠ p → fs' !! q = fs !! q) ∨
  ∃ f, crashes (k (fs_write f p data fs).1) (fs_write f p data fs).2 fs'.
Proof.
  intros H. inv H.
  - by left.
  - left. intros q Hq. by rewrite lookup_insert_ne.
  - right. exists f. cbn in *. destruct (fs_write f p data fs). by simplify_eq/=.
Qed.

Lemma fs_write_other f p data fs q : q ≠ p → (fs_write f p data fs).2 !! q = fs !! q.
Proof.
  intros Hq. unfold fs_write. destruct (write_fault f) as [[e [part|]]|]; cbn; [|done|];
    by rewrite lookup_insert_ne.
Qed.

(** Wherever [store] stops, the key file is the old one or the complete new one. *)
Lemma ks_store_crash salt nonce now ks kp pass fs fs' r json :
  proper_path ks → seal_record salt nonce now kp pass = Ok r → to_string_pretty r = inr json →
  crashes (ks_store_io salt nonce now ks kp pass) fs fs' →
  fs' !! ks_path ks = fs !! ks_path ks ∨ fs' !! ks_path ks = Some json.
Proof.
  intros Hp Hs Hj. unfold ks_store_io. rewrite Hs. cbn [ftry]. rewrite Hj. cbn [ftry of_lib].
  set (w := FWrite _ _ _).
  assert (Hw : crashes w fs fs' → fs' !! ks_path ks = fs !! ks_path ks ∨ fs' !! ks_path ks = Some json).
  { intros [H|[f H]]%crashes_write; [left; by apply H|].
    pose proof (fs_write_other f (tmp_path ks) json fs (ks_path ks) (not_eq_sym Hp)) as Ho.
    apply crashes_try in H as [->|([] & Ew & H)]; [by left|].
    assert (Et : (fs_write f (tmp_path ks) json fs).2 !! tmp_path ks = Some json).
    { revert Ew. unfold fs_write. destruct (write_fault f) as [[e [part|]]|]; cbn; [done..|].
      by rewrite lookup_insert_eq. }
    apply crashes_rename in H as [->|[f' H]]; [by left|].
    unfold fs_rename in H. rewrite Et in H. destruct (rename_fault f');
      apply crashes_try in H as [->|([] & Er & ->%crashes_done)]; try done;
      cbn [fst snd]; [by left|right; by rewrite lookup_insert_eq..]. }
  destruct (p_parent (ks_path ks)); [|exact Hw].
  intros [->|[x H]]%crashes_mkdir; [by left|].
  by apply crashes_try in H as [->|([] & _ & H)]; [left|apply Hw].
Qed.

(** C38: What is stored can be loaded.  When [store] succeeds, [load] with the same
    passphrase returns the very same keypair; without file-system faults [store]
    does succeed; and [load] never panics, whatever the file holds and whatever the
    passphrase. *)
Theorem keystore_roundtrip salt nonce now f ks kp pass fs :
  (∀ fs', ks_store salt nonce now f ks kp pass fs = (Ok tt, fs') →
     ks_load ks pass fs' = Ok kp ∧ ks_exists ks fs' = true) ∧
  (∃ fs', ks_store salt nonce now no_faults ks kp pass fs = (Ok tt, fs')) ∧
  ks_load ks pass fs ≠ Panic.
Proof.
  split_and!.
  - intros fs' (json & r & Hf & Hj & Ho)%ks_store_sealed. split; [|by eapply ks_exists_lookup].
    by rewrite (ks_load_file _ _ _ _ _ Hf Hj).
  - pose proof (ks_store_cases salt nonce now no_faults ks kp pass fs) as (r & json & Hs & Hj & _).
    unfold ks_store, ks_store_io. rewrite Hs. cbn [ftry]. rewrite Hj. cbn [ftry of_lib].
    destruct (p_parent (ks_path ks)); cbn; unfold fs_rename; rewrite lookup_insert_eq; by eexists.
  - unfold ks_load. destruct (fs !! ks_path ks) as [bytes|]; [|done].
    destruct (utf8_valid bytes); [|done]. cbn [mbind result_bind].
    destruct (from_str bytes) as [|r]; [done|]. apply open_record_no_panic.
Qed.

(** C9: Storing is atomic.  For a key path that does not itself end in [.tmp]: when
    [store] fails at any point, the previous key file is untouched; and whatever
    moment the process crashes at, [load] gives either what it gave before or the
    new keypair, never a torn file. *)
Theorem keystore_atomic salt nonce now f ks kp pass fs :
  proper_path ks →
  (∀ e fs', ks_store salt nonce now f ks kp pass fs = (Err e, fs') →
     fs' !! ks_path ks = fs !! ks_path ks) ∧
  (∀ fs', crashes (ks_store_io salt nonce now ks kp pass) fs fs' →
     ks_load ks pass fs' = ks_load ks pass fs ∨ ks_load ks pass fs' = Ok kp).
Proof.
  intros Hp. split.
  - intros e fs' E. pose proof (ks_store_cases salt nonce now f ks kp pass fs) as (r & json & _ & _ & H).
    rewrite E in H. destruct H as [[H _]|[_ H]]; [done|]. by apply H.
  - intros fs' Hc. destruct (seal_open salt nonce now kp pass) as (r & Hs & Ho).
    destruct (json_total r) as [json Hj].
    destruct (ks_store_crash _ _ _ _ _ _ _ _ _ _ Hp Hs Hj Hc) as [E|E].
    + left. unfold ks_load. by rewrite E.
    + right. rewrite <- Ho. by apply (ks_load_file _ _ _ json).
Qed.

(** A deleted key is gone: when [delete] succeeds, the key file does not exist and
    [load] fails with any passphrase; it fails only if the file could not be
    removed, deleting a missing key succeeds, and no other file is touched. *)
Theorem keystore_delete f ks pass fs fs' r :
  ks_delete f ks fs = (r, fs') →
  match r with
  | Ok _ => ks_exists ks fs' = false ∧ is_err (ks_load ks pass fs') = true
  | Err _ => ks_exists ks fs = true ∧ is_Some (remove_fault f)
  | Panic => False
  end ∧
  (ks_exists ks fs = false → r = Ok tt) ∧
  (∀ p, p ≠ ks_path ks → fs' !! p = fs !! p).
Proof.
  unfold ks_delete, fs_write, fs_remove.
  assert (Hgone : ∀ fs : files, fs !! ks_path ks = None →
    ks_exists ks fs = false ∧ is_err (ks_load ks pass fs) = true).
  { intros m Hm. unfold ks_exists, ks_load. rewrite Hm. split; [|done].
    apply bool_decide_eq_false. by intros [? ?]. }
  destruct (ks_exists ks fs) eqn:Ex.
  - destruct (write_fault f) as [[e [part|]]|], (remove_fault f) as [e'|]; cbn [attempt of_lib snd];
      intros [= <- <-]; (split; [|split; [done|intros p Hp; by simplify_map_eq]]);
      first [by split; [done|eexists] | apply Hgone; by simplify_map_eq].
  - intros [= <- <-]. split; [|done]. apply Hgone.
    unfold ks_exists in Ex. apply bool_decide_eq_false in Ex. by apply eq_None_not_Some.
Qed.

End keystore_facts.

(** ** A toy file format, for the witnesses *)

#[local] Instance toy_json : KeyJson := {|
  to_string_pretty r := inr (bits_of_pos (encode
    (ek_version r, ek_nonce r, ek_ciphertext r, ek_salt r, ek_created_at r)));
  from_str l := match decode (A := Z * vec byte 12 * list byte * vec byte 32 * string)
                  (pos_of_bits l) with
                | Some (v, n, c, s, t) => inr (mkEncryptedKey v n c s t)
                | None => inl "format"%string
                end;
|}.

#[local] Instance toy_json_laws : KeyJsonLaws toy_json.
Proof.
  split; [by eexists|]. intros [v n c s t] l [= <-]. split.
  - cbn [from_str toy_json]. by rewrite pos_of_bits_of_pos, decode_encode.
  - apply utf8_valid_ascii, bits_of_pos_ascii.
Qed.

Definition toy_store : FileKeyStore := mkKeyStore (mkPath None "identity" (Some "key"%string)).
Definition toy_key : @Keypair toy_ed25519 := mkKeypair (D := toy_ed25519) (vreplicate 32 Byte.x07).

Lemma keystore_roundtrip_witness :
  ∃ fs', @ks_store toy_hkdf toy_cipher toy_ed25519 toy_json (vreplicate 32 Byte.x01)
    (vreplicate 12 Byte.x02) "now" no_faults toy_store toy_key [Byte.x70] ∅ = (Ok tt, fs').
Proof.
  apply (@keystore_roundtrip toy_hkdf toy_hkdf_laws toy_cipher toy_cipher_laws toy_ed25519
    toy_ed25519_laws toy_json toy_json_laws (vreplicate 32 Byte.x01) (vreplicate 12 Byte.x02)
    "now" no_faults toy_store toy_key [Byte.x70] ∅).
Defined.

Lemma keystore_atomic_witness :
  let f := mkFaults None (Some ("disk full"%string, Some [Byte.x7b])) None None in
  let old : files := {[ks_path toy_store := [Byte.x01]]} in
  (@ks_store toy_hkdf toy_cipher toy_ed25519 toy_json (vreplicate 32 Byte.x01)
    (vreplicate 12 Byte.x02) "now" f toy_store toy_key [Byte.x70] old).2 !! ks_path toy_store =
  Some [Byte.x01].
Proof.
  intros f old.
  destruct (@keystore_atomic toy_hkdf toy_hkdf_laws toy_cipher toy_cipher_laws toy_ed25519
    toy_ed25519_laws toy_json toy_json_laws (vreplicate 32 Byte.x01) (vreplicate 12 Byte.x02)
    "now" f toy_store toy_key [Byte.x70] old) as [H _].
  - discriminate.
  - assert (Hr : is_err (@ks_store toy_hkdf toy_cipher toy_ed25519 toy_json
      (vreplicate 32 Byte.x01) (vreplicate 12 Byte.x02) "now" f toy_store toy_key [Byte.x70] old).1
      = true) by (vm_compute; reflexivity).
    destruct (ks_store _ _ _ f toy_store toy_key _ old) as [res fs'].
    destruct res as [u|e|]; [discriminate Hr| |discriminate Hr].
    cbn [snd]. rewrite (H e fs' eq_refl). vm_compute. reflexivity.
Defined.

Lemma keystore_delete_witness :
  let old : files := {[ks_path toy_store := [Byte.x01]]} in
  ks_exists toy_store (ks_delete no_faults toy_store old).2 = false.
Proof.
  intros old.
  destruct (ks_delete no_faults toy_store old) as [r fs'] eqn:E.
  pose proof (@keystore_delete toy_hkdf toy_cipher toy_ed25519 toy_json
    no_faults toy_store [] old fs' r E) as [H _].
  destruct r as [u|e|]; [|destruct H as [_ [x Hx]]; discriminate Hx|destruct H].
  apply H.
Defined.
