(* ===== verification/Cache.v ===== *)
(** * omnimesh-discovery: the peer address cache ([cache.rs])

    [PeerAddressCache] with its clock as an argument: [Instant]s and [Duration]s are
    nanosecond counts.  The abstract view of a cache is [cache_lookup] as a function of
    time; the theorems describe every operation through it. *)

From S2P Require Import Prelude Error Types.

Local Open Scope Z_scope.

(** 1800 seconds. *)
Definition DEFAULT_TTL : Z := 1800 * 1000000000.

Record CachedAddress := mkCached { ca_addr : SocketAddr; ca_expires_at : Z }.

Abbreviation cache := (gmap PeerId (list CachedAddress)).

Definition cache_new : cache := ∅.

Definition insert_with_ttl (now : Z) (peer_id : PeerId) (addr : SocketAddr) (ttl : Z)
    (c : cache) : cache :=
  let expires_at := now + ttl in
  let entry := mkCached addr expires_at in
  let list := default [] (c !! peer_id) in
  let list := filter (λ x, ca_addr x ≠ addr) list in
  <[peer_id := list ++ [entry]]> c.

Definition cache_insert (now : Z) (peer_id : PeerId) (addr : SocketAddr) (c : cache) : cache :=
  insert_with_ttl now peer_id addr DEFAULT_TTL c.

(** Each insertion reads the clock again. *)
Definition insert_many (peer_id : PeerId) (addrs : list (Z * SocketAddr)) (c : cache) : cache :=
  foldl (λ c a, cache_insert a.1 peer_id a.2 c) c addrs.

Definition active (now : Z) (l : list CachedAddress) : list SocketAddr :=
  ca_addr <$> filter (λ x, now < ca_expires_at x) l.

Definition cache_lookup (now : Z) (peer_id : PeerId) (c : cache) : list SocketAddr :=
  match c !! peer_id with
  | Some entry => active now entry
  | None => []
  end.

Definition cache_remove (peer_id : PeerId) (c : cache) : cache := delete peer_id c.

Definition prune_entry (now : Z) (l : list CachedAddress) : option (list CachedAddress) :=
  let l := filter (λ x, now < ca_expires_at x) l in
  if decide (l = []) then None else Some l.

Definition prune (now : Z) (c : cache) : cache := omap (prune_entry now) c.

Definition all_peers `{I : !MapIter PeerId (list CachedAddress)} (now : Z) (c : cache)
    : list (PeerId * list SocketAddr) :=
  filter (λ e, e.2 ≠ []) ((λ e, (e.1, active now e.2)) <$> map_iter c).

(** ** Properties *)

(** A peer's list names each address once. *)
Definition cache_ok (c : cache) : Prop :=
  ∀ p l, c !! p = Some l → NoDup (ca_addr <$> l).

Lemma active_app now l k : active now (l ++ k) = active now l ++ active now k.
Proof. unfold active. by rewrite filter_app, fmap_app. Qed.

Lemma active_one now a e :
  active now [mkCached a e] = if decide (now < e) then [a] else [].
Proof.
  unfold active. rewrite filter_cons. cbn [ca_expires_at]. by case_decide.
Qed.

(** Dropping an address drops it from the active list. *)
Lemma active_drop now a l :
  active now (filter (λ x, ca_addr x ≠ a) l) = filter (λ b, b ≠ a) (active now l).
Proof.
  unfold active. induction l as [|x l IH]; [done|].
  rewrite (filter_cons _ x l), (filter_cons (λ x, now < ca_expires_at x) x l).
  destruct (decide (ca_addr x ≠ a)) as [Ha|Ha].
  - rewrite filter_cons. case_decide; [|done]. rewrite !fmap_cons, filter_cons, decide_True by done.
    by rewrite IH.
  - case_decide; [|done]. by rewrite fmap_cons, filter_cons, decide_False by done.
Qed.

(** Pruning at an earlier time does not change what is active later. *)
Lemma active_prune now t l :
  now ≤ t → active t (filter (λ x, now < ca_expires_at x) l) = active t l.
Proof.
  intros Ht. unfold active. f_equal. induction l as [|x l IH]; [done|].
  rewrite (filter_cons _ x l). case_decide as Hn.
  - rewrite !(filter_cons (λ x, t < ca_expires_at x)). by rewrite IH.
  - rewrite (filter_cons (λ x, t < ca_expires_at x)), decide_False by lia. done.
Qed.

Lemma lookup_insert_ttl now t p q a ttl c :
  cache_lookup t q (insert_with_ttl now p a ttl c) =
    if decide (q = p)
    then filter (λ b, b ≠ a) (cache_lookup t p c) ++ (if decide (t < now + ttl) then [a] else [])
    else cache_lookup t q c.
Proof.
  unfold cache_lookup, insert_with_ttl. cbn zeta. case_decide as Hq.
  - subst q. rewrite lookup_insert_eq, active_app, active_one, active_drop.
    by destruct (c !! p).
  - by rewrite lookup_insert_ne by done.
Qed.

Lemma insert_ttl_ok now p a ttl c : cache_ok c → cache_ok (insert_with_ttl now p a ttl c).
Proof.
  intros Hc r l. unfold insert_with_ttl. cbn zeta. rewrite lookup_insert.
  case_decide; [intros [= <-]|apply Hc]. rewrite fmap_app. apply NoDup_app. split_and!.
  - apply NoDup_fmap_filter. destruct (c !! p) eqn:E; [by apply (Hc p)|constructor].
  - intros b (x & -> & [Hx _]%list_elem_of_filter)%list_elem_of_fmap.
    cbn. by rewrite list_elem_of_singleton.
  - apply NoDup_singleton.
Qed.

(** An address is found from its insertion until it expires.  After
    [insert_with_ttl] at time [now], looking up the peer at time [t] gives its other
    active addresses in their order and then the new address exactly while
    [t < now + ttl], once; other peers are unaffected; and no peer's list ever
    holds an address twice. *)
Theorem cache_insert_lookup now t p q a ttl c :
  cache_ok c →
  cache_ok (insert_with_ttl now p a ttl c) ∧
  cache_lookup t q (insert_with_ttl now p a ttl c) =
    (if decide (q = p)
     then filter (λ b, b ≠ a) (cache_lookup t p c) ++ (if decide (t < now + ttl) then [a] else [])
     else cache_lookup t q c) ∧
  NoDup (cache_lookup t q (insert_with_ttl now p a ttl c)).
Proof.
  intros Hc. assert (Hok := insert_ttl_ok now p a ttl c Hc).
  split_and!; [done|apply lookup_insert_ttl|].
  unfold cache_lookup. destruct (insert_with_ttl now p a ttl c !! q) as [l|] eqn:E; [|constructor].
  by apply NoDup_fmap_filter, (Hok q).
Qed.

Lemma cache_insert_lookup_witness :
  let p := mkPeerId (vreplicate 32 Byte.x01) in
  let a := mkSocketAddr (IPv4 (vreplicate 4 Byte.x01)) 9 in
  let c := insert_with_ttl 0 p a 50 cache_new in
  cache_lookup 49 p (insert_with_ttl 10 p a 30 c) = [] ∧ cache_lookup 39 p (insert_with_ttl 10 p a 30 c) = [a].
Proof.
  intros p a c.
  assert (Hc : cache_ok c).
  { apply insert_ttl_ok. intros q l. unfold cache_new. by rewrite lookup_empty. }
  split.
  - rewrite (proj1 (proj2 (cache_insert_lookup 10 49 p p a 30 c Hc))). vm_compute. reflexivity.
  - rewrite (proj1 (proj2 (cache_insert_lookup 10 39 p p a 30 c Hc))). vm_compute. reflexivity.
Defined.

Lemma prune_lookup now t p c : now ≤ t → cache_lookup t p (prune now c) = cache_lookup t p c.
Proof.
  intros Ht. unfold cache_lookup, prune. rewrite lookup_omap.
  destruct (c !! p) as [l|]; [|done]. cbn. unfold prune_entry.
  pose proof (active_prune now t l Ht) as E. case_decide as Hl; [|done].
  rewrite <- E, Hl. done.
Qed.

Lemma all_peers_lookup `{I : !MapIter PeerId (list CachedAddress), !MapIterLaws I} t p l c :
  (p, l) ∈ all_peers t c ↔ l = cache_lookup t p c ∧ l ≠ [].
Proof.
  unfold all_peers. rewrite list_elem_of_filter, list_elem_of_fmap. cbn. split.
  - intros [Hl ([q k] & [= -> ->] & Hin)]. split; [|done].
    apply elem_of_map_iter in Hin. unfold cache_lookup. cbn. by rewrite Hin.
  - intros [-> Hl]. split; [done|]. unfold cache_lookup in *.
    destruct (c !! p) as [k|] eqn:E; [|done]. exists (p, k). split; [done|].
    by apply elem_of_map_iter.
Qed.

(** Pruning is invisible and [all_peers] is complete.  From the time of the
    pruning on, every lookup gives the same answer with and without it; what is
    left has no expired address and no peer without addresses; [all_peers] lists
    exactly the peers that have an active address, each once, with exactly what
    [cache_lookup] gives; [cache_remove] forgets exactly its peer. *)
Theorem cache_prune_invisible `{I : !MapIter PeerId (list CachedAddress), !MapIterLaws I}
    now t p c :
  now ≤ t →
  cache_lookup t p (prune now c) = cache_lookup t p c ∧
  (∀ l, prune now c !! p = Some l → l ≠ [] ∧ Forall (λ x, now < ca_expires_at x) l) ∧
  (∀ l, (p, l) ∈ all_peers t c ↔ l = cache_lookup t p c ∧ l ≠ []) ∧
  NoDup (all_peers t c).*1 ∧
  (∀ q, cache_lookup t q (cache_remove p c) = if decide (q = p) then [] else cache_lookup t q c).
Proof.
  intros Ht. split_and!.
  - by apply prune_lookup.
  - intros l. unfold prune. rewrite lookup_omap. destruct (c !! p) as [k|]; [|done].
    cbn. unfold prune_entry. case_decide as Hl; [done|]. intros [= <-].
    split; [done|]. apply Forall_forall. by intros x [? _]%list_elem_of_filter.
  - intros l. apply all_peers_lookup.
  - unfold all_peers. apply NoDup_fmap_filter. rewrite <- list_fmap_compose.
    apply NoDup_map_iter.
  - intros q. unfold cache_lookup, cache_remove. case_decide as Hq.
    + subst. by rewrite lookup_delete_eq.
    + by rewrite lookup_delete_ne.
Qed.

Lemma cache_prune_invisible_witness :
  let p := mkPeerId (vreplicate 32 Byte.x01) in
  let a := mkSocketAddr (IPv4 (vreplicate 4 Byte.x01)) 9 in
  let c := insert_with_ttl 0 p a 50 cache_new in
  cache_lookup 30 p (prune 20 c) = cache_lookup 30 p c.
Proof.
  intros p a c.
  destruct (@cache_prune_invisible default_map_iter default_map_iter_laws 20 30 p c) as [H _];
    [lia|exact H].
Defined.
