(* ===== verification/Retry.v ===== *)
(** * omnimesh-core: retries with exponential backoff ([retry.rs])

    [retry_async] with its operation as the sequence of outcomes of successive
    calls, and a record of the calls made and the sleeps taken.  [Duration] is a
    nanosecond count; its conversions from and to binary64 seconds are those of
    the standard library. *)

From Stdlib Require Import SpecFloat.
From S2P Require Import Prelude Float64 Error.

Local Open Scope Z_scope.

(** ** [std::time::Duration] *)

Definition NANOS_PER_SEC : Z := 1000000000.

Definition from_millis (ms : Z) : Z := ms * 1000000.
Definition from_secs (s : Z) : Z := s * NANOS_PER_SEC.

(** [Duration::as_secs_f64] *)
Definition as_secs_f64 (d : Z) : f64 :=
  f64_add (f64_of_Z (d / NANOS_PER_SEC))
          (f64_div (f64_of_Z (d mod NANOS_PER_SEC)) (f64_of_Z NANOS_PER_SEC)).

(** Nearest integer to [n / d], ties to even. *)
Definition div_half_even (n d : Z) : Z :=
  let q := n / d in
  match 2 * (n mod d) ?= d with
  | Lt => q
  | Gt => q + 1
  | Eq => if Z.even q then q else q + 1
  end.

(** [Duration::from_secs_f64]: the nearest number of nanoseconds; panics on a
    negative, infinite or NaN argument and from [2^64] seconds on. *)
Definition from_secs_f64 (x : f64) : Result Z :=
  match x with
  | S754_zero _ => Ok 0
  | S754_finite false m e =>
      let n := if decide (0 ≤ e) then Z.pos m * 2 ^ e * NANOS_PER_SEC
               else div_half_even (Z.pos m * NANOS_PER_SEC) (2 ^ (- e)) in
      if decide (n < 2 ^ 64 * NANOS_PER_SEC) then Ok n else Panic
  | _ => Panic
  end.

(** ** Policies *)

Record RetryPolicy := mkPolicy {
  max_retries : nat;
  initial_interval : Z;
  max_interval : Z;
  multiplier : f64;
}.

Definition policy_default : RetryPolicy :=
  mkPolicy 5 (from_millis 100) (from_secs 30) (f64_of_Z 2).

Definition aggressive : RetryPolicy :=
  mkPolicy 10 (from_millis 50) (from_secs 5) (f64_lit 3 2).

Definition conservative : RetryPolicy :=
  mkPolicy 3 (from_secs 1) (from_secs 60) (f64_of_Z 3).

Definition policy_none : RetryPolicy :=
  mkPolicy 0 (initial_interval policy_default) (max_interval policy_default)
    (multiplier policy_default).

(** [backoff::ExponentialBackoff], of which only the first three fields are read. *)
Record ExponentialBackoff := mkBackoff {
  bo_initial_interval : Z;
  bo_max_interval : Z;
  bo_multiplier : f64;
  bo_max_elapsed_time : option Z;
}.

Definition to_backoff (p : RetryPolicy) : ExponentialBackoff :=
  mkBackoff (initial_interval p) (max_interval p) (multiplier p) None.

(** [Duration::from_secs_f64(current.as_secs_f64() * multiplier).min(max_interval)] *)
Definition next_interval (p : RetryPolicy) (current : Z) : Result Z :=
  let backoff := to_backoff p in
  d ← from_secs_f64 (f64_mul (as_secs_f64 current) (bo_multiplier backoff));
  Ok (Z.min d (bo_max_interval backoff)).

(** ** The loop *)

(** What a run did: its result, the number of calls, the sleeps in order. *)
Record Run (A : Type) := mkRun { run_result : Result A; run_calls : nat; run_sleeps : list Z }.
Arguments mkRun {A}.
Arguments run_result {A}.
Arguments run_calls {A}.
Arguments run_sleeps {A}.

Section retry.
Context {A : Type}.

(** [op n] is the outcome of call number [n]. *)
Fixpoint retry_loop (fuel : nat) (p : RetryPolicy) (op : nat → Result A) (attempts : nat)
    (current_interval : Z) (calls : nat) (sleeps : list Z) : option (Run A) :=
  match fuel with
  | O => None
  | S fuel =>
      match op calls with
      | Ok value => Some (mkRun (Ok value) (S calls) sleeps)
      | Panic => Some (mkRun Panic (S calls) sleeps)
      | Err err =>
          if is_retryable err && bool_decide (attempts < max_retries p)%nat then
            let sleeps := sleeps ++ [current_interval] in
            match next_interval p current_interval with
            | Ok current_interval =>
                retry_loop fuel p op (S attempts) current_interval (S calls) sleeps
            | _ => Some (mkRun Panic (S calls) sleeps)
            end
          else Some (mkRun (Err err) (S calls) sleeps)
      end
  end.

Definition retry_async (fuel : nat) (p : RetryPolicy) (op : nat → Result A) : option (Run A) :=
  if decide (max_retries p = 0%nat) then Some (mkRun (op 0%nat) 1 [])
  else retry_loop fuel p op 0 (bo_initial_interval (to_backoff p)) 0 [].

End retry.

(** ** Properties *)

(** The sleeps of a run that uses [n] retries, from interval [d] on; [None] when a
    conversion would panic. *)
Fixpoint schedule (n : nat) (p : RetryPolicy) (d : Z) : option (list Z) :=
  match n with
  | O => Some []
  | S n => d' ← result_ok (next_interval p d); rest ← schedule n p d'; Some (d :: rest)
  end.

Definition policy_schedule (p : RetryPolicy) : option (list Z) :=
  schedule (max_retries p) p (initial_interval p).

Lemma schedule_capped n p d ss :
  schedule n p d = Some ss → Forall (λ s, s ≤ max_interval p) (tail ss).
Proof.
  assert (H : ∀ n d ss, d ≤ max_interval p → schedule n p d = Some ss →
    Forall (λ s, s ≤ max_interval p) ss).
  { clear. induction n as [|n IH]; intros d ss Hd E; cbn in E; [by injection E as <-|].
    destruct (next_interval p d) as [d'| |] eqn:En; [|done..]. cbn in E.
    destruct (schedule n p d') as [rest|] eqn:Es; [|done]. injection E as <-.
    constructor; [done|]. apply (IH d'); [|done].
    unfold next_interval in En. destruct (from_secs_f64 _); [|done..]. injection En as <-. lia. }
  intros E. destruct n as [|n]; [by injection E as <-|]. cbn in E.
  destruct (next_interval p d) as [d'| |] eqn:En; [|done..]. cbn in E.
  destruct (schedule n p d') as [rest|] eqn:Es; [|done]. injection E as <-. cbn.
  apply (H n d'); [|done].
  unfold next_interval in En. destruct (from_secs_f64 _); [|done..]. injection En as <-. lia.
Qed.

Section retry_facts.
Context {A : Type}.
Implicit Types (op : nat → Result A).

Lemma retry_loop_spec p op n : ∀ fuel attempts d calls sleeps ss,
  (attempts + n = max_retries p)%nat → schedule n p d = Some ss → (n < fuel)%nat →
  ∃ r k, retry_loop fuel p op attempts d calls sleeps =
           Some (mkRun r (S (calls + k)) (sleeps ++ take k ss)) ∧
    (k ≤ n)%nat ∧ r = op (calls + k)%nat ∧
    (∀ i, (calls ≤ i < calls + k)%nat → ∃ e, op i = Err e ∧ is_retryable e = true) ∧
    (∀ e, r = Err e → is_retryable e = true → k = n).
Proof.
  induction n as [|n IH]; intros fuel attempts d calls sleeps ss Hn Hs Hf;
    (destruct fuel as [|fuel]; [lia|]); cbn [retry_loop].
  - assert (Hd : bool_decide (attempts < max_retries p)%nat = false)
      by (apply bool_decide_eq_false; lia).
    exists (op calls), 0%nat. rewrite Nat.add_0_r, app_nil_r.
    split_and!; [|lia|done|lia|done].
    destruct (op calls); [done| |done]. by rewrite Hd, andb_false_r.
  - cbn [schedule] in Hs. destruct (next_interval p d) as [d'| |] eqn:En; [|done..].
    cbn in Hs. destruct (schedule n p d') as [rest|] eqn:Es; [|done]. injection Hs as <-.
    assert (Hd : bool_decide (attempts < max_retries p)%nat = true)
      by (apply bool_decide_eq_true; lia).
    assert (Hstop : ∀ r, r = op calls →
      (∀ e, r = Err e → is_retryable e = false) →
      ∃ r' k, Some (mkRun r (S calls) sleeps) =
          Some (mkRun r' (S (calls + k)) (sleeps ++ take k (d :: rest))) ∧
        (k ≤ S n)%nat ∧ r' = op (calls + k)%nat ∧
        (∀ i, (calls ≤ i < calls + k)%nat → ∃ e, op i = Err e ∧ is_retryable e = true) ∧
        (∀ e, r' = Err e → is_retryable e = true → k = S n)).
    { intros r Hr He. exists r, 0%nat. rewrite Nat.add_0_r, app_nil_r.
      split_and!; [done|lia|done|lia|]. intros e E. rewrite (He e E). done. }
    destruct (op calls) as [v|e|] eqn:Eo; [by apply Hstop| |by apply Hstop].
    rewrite Hd, andb_true_r.
    destruct (is_retryable e) eqn:Er; [|apply Hstop; [done|by intros e' [= <-]]].
    destruct (IH fuel (S attempts) d' (S calls) (sleeps ++ [d]) rest) as
      (r & k & E & Hk & Hr & Hp & Hl); [lia|done|lia|].
    exists r, (S k). rewrite E. rewrite <- app_assoc. cbn [take app].
    replace (calls + S k)%nat with (S calls + k)%nat by lia.
    split_and!; [done|lia|done| |intros e' ??; rewrite (Hl e') by done; done].
    intros i Hi. destruct (decide (i = calls)) as [->|]; [by eauto|]. apply Hp. lia.
Qed.

(** C24: Retries are bounded and stop for the right reason.  For every policy whose
    intervals stay representable, and every operation, [retry_async] returns; it
    makes at most [max_retries + 1] calls and its result is that of the last call;
    every earlier call failed with a retryable error; a retryable error is returned
    only when the retries are used up; between calls it sleeps exactly the intervals of the
    policy's schedule, and every sleep after the first is at most [max_interval]. *)
Theorem retry_bounded fuel p op ss :
  policy_schedule p = Some ss → (max_retries p < fuel)%nat →
  ∃ r k, retry_async fuel p op = Some (mkRun r (S k) (take k ss)) ∧
    (k ≤ max_retries p)%nat ∧ r = op k ∧
    (∀ i, (i < k)%nat → ∃ e, op i = Err e ∧ is_retryable e = true) ∧
    (∀ e, r = Err e → is_retryable e = true → k = max_retries p) ∧
    Forall (λ s, s ≤ max_interval p) (tail ss).
Proof.
  intros Hs Hf. unfold retry_async. case_decide as H0.
  - exists (op 0%nat), 0%nat. split_and!; [done|lia|done|lia|by intros; rewrite H0|].
    by eapply schedule_capped.
  - destruct (retry_loop_spec p op (max_retries p) fuel 0 (initial_interval p) 0 [] ss)
      as (r & k & E & Hk & Hr & Hp & Hl); [done..|].
    exists r, k. cbn in E. cbn [to_backoff bo_initial_interval]. rewrite E. split_and!; [done|done|done| |done|].
    + intros i Hi. apply Hp. lia.
    + by eapply schedule_capped.
Qed.

End retry_facts.

(** The four built-in policies never panic, and their schedules are the documented
    ones, rounded to the nanosecond by binary64: 100 ms doubling five times, 50 ms
    growing by half ten times (capped at 5 s), 1 s tripling three times, and none. *)
Theorem builtin_schedules :
  policy_schedule policy_default =
    Some [100000000; 200000000; 400000000; 800000000; 1600000000] ∧
  policy_schedule aggressive =
    Some [50000000; 75000000; 112500000; 168750000; 253125000; 379687500; 569531250;
          854296875; 1281445312; 1922167968] ∧
  policy_schedule conservative = Some [1000000000; 3000000000; 9000000000] ∧
  policy_schedule policy_none = Some [].
Proof. vm_compute. done. Qed.

(** Two timeouts, then success. *)
Lemma retry_bounded_witness :
  let op n := if decide (n < 2)%nat then Err (Timeout 3000) else Ok n in
  ∃ r k, retry_async 6 policy_default op =
    Some (mkRun r (S k) (take k [100000000; 200000000; 400000000; 800000000; 1600000000])) ∧
    (k ≤ max_retries policy_default)%nat ∧ r = op k.
Proof.
  intros op.
  destruct (retry_bounded 6 policy_default op
    [100000000; 200000000; 400000000; 800000000; 1600000000]) as (r & k & E & H1 & H2 & _).
  - vm_compute. reflexivity.
  - vm_compute. lia.
  - exists r, k. auto.
Defined.

(** The first sleep is not capped: with an initial interval above [max_interval],
    the first retry waits the initial interval. *)
Theorem first_sleep_not_capped :
  let p := mkPolicy 1 (from_secs 10) (from_secs 1) (f64_of_Z 2) in
  retry_async 2 p (λ _, Err (Transport "x"%string) : Result unit) =
    Some (mkRun (Err (Transport "x"%string)) 2 [from_secs 10]) ∧ max_interval p < from_secs 10.
Proof. vm_compute. done. Qed.
