(* ===== verification/Services.v ===== *)
(** * omnimesh-service: chat, RPC and publish/subscribe ([service/src/lib.rs])

    The services over two interfaces: [MessageSender], which the SDK implements, and
    [Bincode], the serialization crate.  What a service hands to a local receiver
    (a broadcast, one-shot or unbounded channel) is the list of events it emits. *)

From S2P Require Import Prelude Error Types Transport.

(** ** Interfaces *)

(** [bincode::serialize] and [bincode::deserialize] for one type. *)
Class Bincode (A : Type) := {
  serialize : A → string + list byte;
  deserialize : list byte → string + A;
}.

(** A value of these plain data types serializes, and reads back. *)
Class BincodeLaws {A} (B : Bincode A) : Prop := {
  serialize_total : ∀ a, ∃ bs, serialize a = inr bs;
  deserialize_serialize : ∀ a bs, serialize a = inr bs → deserialize bs = inr a;
}.

(** [bincode::serialize(..).unwrap()] *)
Definition serialize_unwrap `{Bincode A} (a : A) : Result (list byte) :=
  match serialize a with inl _ => Panic | inr bs => Ok bs end.

Lemma serialize_unwrap_ok `{B : Bincode A, !BincodeLaws B} a :
  ∃ bs, serialize_unwrap a = Ok bs ∧ deserialize bs = inr a.
Proof.
  unfold serialize_unwrap. destruct (serialize_total a) as [bs E]. exists bs. rewrite E.
  split; [done|]. by apply deserialize_serialize.
Qed.

(** [trait MessageSender], on the state of the implementation; a send may have to wait. *)
Class MessageSender (S : Type) := {
  send_message : PeerId → string → list byte → io S (Result unit);
  broadcast_message : string → list byte → io S (Result unit);
}.

(** ** Chat *)

Record ChatMessage := mkChat { chat_text : string }.

Section chat.
Context `{B : Bincode ChatMessage} {S : Type} `{MS : !MessageSender S}.

Definition format_message (text : string) : Result (list byte) :=
  serialize_unwrap (mkChat text).

Definition send_chat (text : string) : io S (Result unit) :=
  io_try (format_message text) (λ payload, broadcast_message "chat" payload).

(** The events are what [message_tx.send] publishes to the subscribers. *)
Definition chat_handle_message (from : PeerId) (payload : list byte)
    : Result unit * list (PeerId * string) :=
  attempt (of_lib (λ e, Serialization ("chat deserialize: " +:+ e)) (deserialize payload)) []
    (λ msg, (Ok tt, [(from, chat_text msg)])).

End chat.

(** ** RPC *)

Inductive RpcMessage :=
| Request (request_id : Z) (method : string) (payload : list byte)
| Response (request_id : Z) (payload : string + list byte).

(** The state of [RpcService]: the requests whose one-shot sender is stored, the
    counter, and what was sent into one-shot channels so far. *)
Record RpcService := mkRpc {
  pending_requests : gset Z;
  next_request_id : Z;
  completed : list (Z * (string + list byte));
}.

Definition rpc_new : RpcService := mkRpc ∅ 1 [].

Section rpc.
Context `{B : Bincode RpcMessage} {S : Type} `{MS : !MessageSender S}.

(** [handler.handle_request] *)
Context (handle_request : PeerId → string → list byte → Result (list byte)).

Definition create_request (method : string) (request : list byte) (r : RpcService)
    : Result (Z * list byte) * RpcService :=
  let request_id := next_request_id r in
  let msg := Request request_id method request in
  let r := mkRpc ({[request_id]} ∪ pending_requests r) (u64_wrapping_add request_id 1)
             (completed r) in
  attempt (serialize_unwrap msg) r (λ bytes, (Ok (request_id, bytes), r)).

(** [call] up to its [rx.await]: the id whose response it waits for. *)
Definition call_start (to : PeerId) (method : string) (request : list byte) (r : RpcService)
    : io S (Result Z * RpcService) :=
  match create_request method request r with
  | (Ok (request_id, bytes), r) =>
      res ← send_message to "rpc" bytes;
      mret (match res with Ok _ => Ok request_id | Err e => Err e | Panic => Panic end, r)
  | (Err e, r) => mret (Err e, r)
  | (Panic, r) => mret (Panic, r)
  end.

(** The rest of [call]: [None] when the sender was dropped. *)
Definition call_finish (response : option (string + list byte)) : Result (list byte) :=
  match response with
  | None => Err (Connection "RPC response channel closed")
  | Some (inl e) => Err (ServiceError ("RPC error: " +:+ e))
  | Some (inr bytes) => Ok bytes
  end.

(** The task spawned for a request: its answer, to be sent to [from]. *)
Definition answer_request (from : PeerId) (request_id : Z) (method : string)
    (payload : list byte) : io S (Result unit) :=
  let response :=
    match handle_request from method payload with
    | Ok res => Ok (Response request_id (inr res))
    | Err err => Ok (Response request_id (inl (error_to_string err)))
    | Panic => Panic
    end in
  io_try response (λ response,
  io_try (serialize_unwrap response) (λ bytes,
  _ ← send_message from "rpc" bytes; mret (Ok tt))).

(** [handle_message]; a request only spawns [answer_request]. *)
Definition rpc_handle_message (from : PeerId) (payload : list byte) (r : RpcService)
    : Result (option (io S (Result unit))) * RpcService :=
  attempt (of_lib (λ e, Serialization ("rpc deserialize: " +:+ e)) (deserialize payload)) r
    (λ msg,
     match msg with
     | Request request_id method req_payload =>
         (Ok (Some (answer_request from request_id method req_payload)), r)
     | Response request_id res_payload =>
         (Ok None,
          if decide (request_id ∈ pending_requests r) then
            mkRpc (pending_requests r ∖ {[request_id]}) (next_request_id r)
              (completed r ++ [(request_id, res_payload)])
          else r)
     end).

End rpc.

(** ** Publish/subscribe *)

Record PubSubMessage := mkPub { pub_topic : string; pub_payload : list byte }.

(** Subscribers are numbered in the order of their subscription. *)
Record PubSubService := mkPubSub {
  subscriptions : gmap string (list nat);
  next_subscriber : nat;
}.

Definition pubsub_new : PubSubService := mkPubSub ∅ 0.

Section pubsub.
Context `{B : Bincode PubSubMessage} {S : Type} `{MS : !MessageSender S}.

Definition pubsub_subscribe (topic : string) (p : PubSubService) : nat * PubSubService :=
  (next_subscriber p,
   mkPubSub (<[topic := default [] (subscriptions p !! topic) ++ [next_subscriber p]]>
               (subscriptions p))
            (next_subscriber p + 1)).

Definition format_publish (topic : string) (payload : list byte) : Result (list byte) :=
  serialize_unwrap (mkPub topic payload).

Definition publish (topic : string) (payload : list byte) : io S (Result unit) :=
  io_try (format_publish topic payload) (λ wire, broadcast_message "pubsub" wire).

(** The events: which subscriber is sent what. *)
Definition pubsub_handle_message (from : PeerId) (payload : list byte) (p : PubSubService)
    : Result unit * list (nat * list byte) :=
  attempt (of_lib (λ e, Serialization ("pubsub deserialize: " +:+ e)) (deserialize payload)) []
    (λ msg,
     (Ok tt,
      match subscriptions p !! pub_topic msg with
      | Some subs => map (λ sub, (sub, pub_payload msg)) subs
      | None => []
      end)).

End pubsub.

(** ** Chat: properties *)

(** A chat message arrives as it was sent.  [send_chat] broadcasts one payload on
    the chat service, and a peer that handles that payload publishes exactly that
    text with the sender it came from; a payload that is no chat message is
    rejected with a serialization error and publishes nothing. *)
Theorem chat_delivery `{B : Bincode ChatMessage, !BincodeLaws B} {S} `{MS : !MessageSender S}
    from text (s : S) :
  (∃ payload, format_message text = Ok payload ∧
     send_chat text s = broadcast_message "chat" payload s ∧
     chat_handle_message from payload = (Ok tt, [(from, text)])) ∧
  (∀ payload e, deserialize (A := ChatMessage) payload = inl e →
     chat_handle_message from payload =
       (Err (Serialization ("chat deserialize: " +:+ e)), [])).
Proof.
  split.
  - destruct (serialize_unwrap_ok (mkChat text)) as (bs & E & D). exists bs.
    unfold send_chat, format_message, chat_handle_message. rewrite E, D. done.
  - intros payload e E. unfold chat_handle_message. by rewrite E.
Qed.

(** ** RPC: properties *)

Section rpc_facts.
Context `{B : Bincode RpcMessage, BL : !BincodeLaws B} {S : Type} `{MS : !MessageSender S}.
Context (handle_request : PeerId → string → list byte → Result (list byte)).

(** Requests issued and messages handled, while the 64-bit counter has not wrapped. *)
Inductive rpc_reachable : RpcService → Prop :=
| rpc_reach_new : rpc_reachable rpc_new
| rpc_reach_request method request r :
    (next_request_id r < U64_MAX)%Z → rpc_reachable r →
    rpc_reachable (create_request method request r).2
| rpc_reach_message from payload r :
    rpc_reachable r →
    rpc_reachable (rpc_handle_message (S := S) handle_request from payload r).2.

Record rpc_inv (r : RpcService) : Prop := {
  rpc_next : (1 ≤ next_request_id r ≤ U64_MAX)%Z;
  rpc_issued id :
    (1 ≤ id < next_request_id r)%Z ↔ id ∈ pending_requests r ∨ id ∈ (completed r).*1;
  rpc_once : NoDup (completed r).*1;
  rpc_disjoint id : id ∈ pending_requests r → id ∉ (completed r).*1;
}.

Lemma create_request_spec method request r :
  ∃ bs, create_request method request r =
    (Ok (next_request_id r, bs),
     mkRpc ({[next_request_id r]} ∪ pending_requests r)
       (u64_wrapping_add (next_request_id r) 1) (completed r)) ∧
    deserialize bs = inr (Request (next_request_id r) method request).
Proof.
  unfold create_request.
  destruct (serialize_unwrap_ok (Request (next_request_id r) method request)) as (bs & E & D).
  exists bs. cbn zeta. rewrite E. done.
Qed.

(** A response takes its request out of the pending set. *)
Lemma response_inv id res r :
  rpc_inv r → id ∈ pending_requests r →
  rpc_inv (mkRpc (pending_requests r ∖ {[id]}) (next_request_id r) (completed r ++ [(id, res)])).
Proof.
  intros [Hn Hi Ho Hd] Hid. split; cbn [next_request_id pending_requests completed].
  - done.
  - intros i. rewrite Hi, fmap_app, elem_of_app, elem_of_difference, elem_of_singleton.
    change ([(id, res)].*1) with [id]. rewrite list_elem_of_singleton.
    destruct (decide (i = id)) as [->|]; intuition.
  - rewrite fmap_app. apply NoDup_app. split_and!; [done| |apply NoDup_singleton].
    intros i Hc ->%list_elem_of_singleton. by eapply Hd.
  - intros i [Hp Hne]%elem_of_difference. rewrite fmap_app, elem_of_app.
    change ([(id, res)].*1) with [id]. rewrite list_elem_of_singleton.
    rewrite elem_of_singleton in Hne. intros [?|?]; [by eapply Hd|done].
Qed.

Lemma rpc_reachable_inv r : rpc_reachable r → rpc_inv r.
Proof.
  induction 1 as [|method request r Hlt _ [Hn Hi Ho Hd]|from payload r _ IH].
  - split; cbn; [unfold U64_MAX; lia| |constructor|by intros id ?%elem_of_empty].
    intros id. rewrite elem_of_nil, elem_of_empty. lia.
  - destruct (create_request_spec method request r) as (bs & -> & _). cbn [snd].
    unfold u64_wrapping_add. rewrite Z.mod_small by (unfold U64_MAX in *; lia).
    assert (Hfresh : next_request_id r ∉ (completed r).*1).
    { intros Hc. assert (1 ≤ next_request_id r < next_request_id r)%Z; [|lia].
      apply Hi. by right. }
    split; cbn [next_request_id pending_requests completed]; [lia| |done|].
    + intros id. rewrite elem_of_union, elem_of_singleton. specialize (Hi id).
      assert (Hsplit : (1 ≤ id < next_request_id r + 1)%Z ↔
        id = next_request_id r ∨ (1 ≤ id < next_request_id r)%Z) by lia.
      rewrite Hsplit, Hi. tauto.
    + intros id [->%elem_of_singleton|Hp]%elem_of_union; [done|by apply Hd].
  - unfold rpc_handle_message.
    destruct (deserialize payload) as [e|[id m p|id res]]; cbn [of_lib attempt snd]; [done..|].
    case_decide; [by apply response_inv|done].
Qed.

(** C33: Every RPC gets at most one answer.  In every reachable state (in which the 64-bit
    counter of the ids has not wrapped around), the ids issued so far are split between pending and completed, no id is completed twice, and
    no pending id has an answer; a response to an id that is not pending changes
    nothing; so each call returns at most once, with the first response to its
    id, and late or repeated responses are ignored. *)
Theorem rpc_at_most_once r from payload id res :
  rpc_reachable r → deserialize payload = inr (Response id res) →
  (∀ i, (1 ≤ i < next_request_id r)%Z ↔ i ∈ pending_requests r ∨ i ∈ (completed r).*1) ∧
  NoDup (completed r).*1 ∧
  (∀ i, i ∈ pending_requests r → i ∉ (completed r).*1) ∧
  rpc_handle_message (S := S) handle_request from payload r =
    (Ok None,
     if decide (id ∈ pending_requests r) then
       mkRpc (pending_requests r ∖ {[id]}) (next_request_id r) (completed r ++ [(id, res)])
     else r).
Proof.
  intros [_ Hi Ho Hd]%rpc_reachable_inv E. split_and!; [done..|].
  unfold rpc_handle_message. rewrite E. done.
Qed.

(** What the answer to a request carries, and what [call] makes of it. *)
Definition answer_payload (res : Result (list byte)) : string + list byte :=
  match res with
  | Ok bytes => inr bytes
  | Err e => inl (error_to_string e)
  | Panic => inl String.EmptyString
  end.

Definition call_outcome (res : Result (list byte)) : Result (list byte) :=
  match res with
  | Err e => Err (ServiceError ("RPC error: " +:+ error_to_string e))
  | other => other
  end.

(** A request and its answer, from the client to the server and back. *)
Lemma rpc_exchange client server method request r rs :
  handle_request client method request ≠ Panic →
  ∃ req_bytes r1 task resp_bytes,
    let id := next_request_id r in
    let payload := answer_payload (handle_request client method request) in
    serialize (Request id method request) = inr req_bytes ∧
    serialize (Response id payload) = inr resp_bytes ∧
    create_request method request r = (Ok (id, req_bytes), r1) ∧
    rpc_handle_message (S := S) handle_request client req_bytes rs = (Ok (Some task), rs) ∧
    (∀ s, task s = (_ ← send_message client "rpc" resp_bytes; mret (Ok tt)) s) ∧
    (rpc_handle_message (S := S) handle_request server resp_bytes r1).2 =
      mkRpc (pending_requests r1 ∖ {[id]}) (next_request_id r1) (completed r1 ++ [(id, payload)]) ∧
    call_finish (Some payload) = call_outcome (handle_request client method request).
Proof.
  intros Hh. set (res := handle_request client method request) in *.
  destruct (serialize_total (Request (next_request_id r) method request)) as [bs Es].
  destruct (serialize_total (Response (next_request_id r) (answer_payload res))) as [rb Er].
  pose proof (deserialize_serialize _ _ Es) as Ds. pose proof (deserialize_serialize _ _ Er) as Dr.
  eexists bs, _, (answer_request handle_request client (next_request_id r) method request), rb.
  cbn zeta. split_and!; [done|done| | | | |by destruct res].
  - unfold create_request, serialize_unwrap. cbn zeta. rewrite Es. done.
  - unfold rpc_handle_message. by rewrite Ds.
  - intros s. unfold answer_request, serialize_unwrap. fold res.
    destruct res as [b|e|]; [| |done]; cbn [io_try answer_payload] in *; by rewrite Er.
  - unfold rpc_handle_message. rewrite Dr. cbn [of_lib attempt snd].
    rewrite decide_True; [done|]. cbn. set_solver.
Qed.

(** A remote procedure call returns what the handler returned.  The request of a
    client, handled by a server, spawns a task that sends one response back to the
    client; when the client handles that response, the call completes with the
    handler's value, or with a service error that carries the handler's error
    message. *)
Theorem rpc_end_to_end client server method request r rs :
  handle_request client method request ≠ Panic →
  ∃ id req_bytes r1 task resp_bytes payload,
    create_request method request r = (Ok (id, req_bytes), r1) ∧
    rpc_handle_message (S := S) handle_request client req_bytes rs = (Ok (Some task), rs) ∧
    (∀ s, task s = (_ ← send_message client "rpc" resp_bytes; mret (Ok tt)) s) ∧
    (rpc_handle_message (S := S) handle_request server resp_bytes r1).2 =
      mkRpc (pending_requests r1 ∖ {[id]}) (next_request_id r1) (completed r1 ++ [(id, payload)]) ∧
    call_finish (Some payload) = call_outcome (handle_request client method request).
Proof.
  intros Hh. destruct (rpc_exchange client server method request r rs Hh)
    as (bs & r1 & task & rb & _ & _ & H).
  by exists (next_request_id r), bs, r1, task, rb,
    (answer_payload (handle_request client method request)).
Qed.

(** A request whose sending fails stays in [pending_requests]: the call returns the
    error, but nothing removes its entry, and the map grows with every failed call. *)
Theorem rpc_failed_send_leaks to method request r s e s' :
  (∀ bs, send_message to "rpc" bs s = Some (Err e, s')) →
  ∃ r', call_start to method request r s = Some (Err e, r', s') ∧
    next_request_id r ∈ pending_requests r'.
Proof.
  intros Hs. unfold call_start. destruct (create_request_spec method request r) as (bs & -> & _).
  run_io. rewrite Hs. eexists. split; [done|]. cbn. by apply elem_of_union_l, elem_of_singleton.
Qed.

End rpc_facts.

(** ** Publish/subscribe: properties *)

Section pubsub_facts.
Context `{B : Bincode PubSubMessage, !BincodeLaws B}.

(** Subscribe to the given topics, one after the other. *)
Definition subscribe_all (topics : list string) : PubSubService :=
  foldl (λ p t, (pubsub_subscribe t p).2) pubsub_new topics.

(** The subscribers of a topic, by their position among the subscriptions. *)
Definition positions (topic : string) (topics : list string) : list nat :=
  filter (λ i, topics !! i = Some topic) (seq 0 (length topics)).

Lemma positions_snoc topic topics t :
  positions topic (topics ++ [t]) =
    positions topic topics ++ (if decide (t = topic) then [length topics] else []).
Proof.
  unfold positions. rewrite length_app, Nat.add_1_r, seq_S, filter_app, Nat.add_0_l. f_equal.
  - apply filter_ext_elem. intros i Hi%elem_of_seq. rewrite lookup_app_l by lia. done.
  - rewrite filter_cons, lookup_app_r, Nat.sub_diag by lia. cbn.
    case_decide as H1; case_decide as H2; congruence.
Qed.

Lemma subscribe_all_spec topics topic :
  next_subscriber (subscribe_all topics) = length topics ∧
  default [] (subscriptions (subscribe_all topics) !! topic) = positions topic topics.
Proof.
  induction topics as [|t topics [IHn IH]] using rev_ind; [done|].
  unfold subscribe_all. rewrite foldl_snoc. fold (subscribe_all topics).
  cbn [pubsub_subscribe snd next_subscriber subscriptions].
  rewrite IHn, length_app. split; [done|]. rewrite positions_snoc, lookup_insert.
  case_decide as Ht; [subst; cbn; by rewrite IH|]. by rewrite app_nil_r.
Qed.

(** A publication reaches exactly the subscribers of its topic.  After any
    sequence of subscriptions, handling a published message sends its payload once
    to each subscriber of that topic, in the order of subscription, and to no one
    else; a payload that is no publication is rejected and reaches nobody. *)
Theorem pubsub_delivery topics topic payload from :
  (∃ wire, format_publish topic payload = Ok wire ∧
     pubsub_handle_message from wire (subscribe_all topics) =
       (Ok tt, map (λ i, (i, payload)) (positions topic topics))) ∧
  (∀ wire e p, deserialize (A := PubSubMessage) wire = inl e →
     pubsub_handle_message from wire p =
       (Err (Serialization ("pubsub deserialize: " +:+ e)), [])).
Proof.
  split.
  - destruct (serialize_unwrap_ok (mkPub topic payload)) as (wire & E & D). exists wire.
    split; [done|]. unfold pubsub_handle_message. rewrite D. cbn [of_lib attempt pub_topic pub_payload].
    destruct (subscribe_all_spec topics topic) as [_ <-].
    by destruct (subscriptions (subscribe_all topics) !! topic).
  - intros wire e p E. unfold pubsub_handle_message. by rewrite E.
Qed.

End pubsub_facts.

(** ** A codec and a sender for the witnesses *)

Definition toy_bincode `{Countable A} : Bincode A := {|
  serialize a := inr (bits_of_pos (encode a));
  deserialize l := match decode (pos_of_bits l) with Some a => inr a | None => inl "eof"%string end;
|}.

Lemma toy_bincode_laws `{Countable A} : BincodeLaws (@toy_bincode A _ _).
Proof.
  split; [by eexists|]. intros a bs [= <-]. cbn.
  by rewrite pos_of_bits_of_pos, decode_encode.
Qed.

#[global] Instance ChatMessage_eq_dec : EqDecision ChatMessage.
Proof. solve_decision. Defined.

#[global] Program Instance ChatMessage_countable : Countable ChatMessage :=
  inj_countable' chat_text mkChat _.
Next Obligation. by intros []. Qed.

#[global] Instance PubSubMessage_eq_dec : EqDecision PubSubMessage.
Proof. solve_decision. Defined.

#[global] Program Instance PubSubMessage_countable : Countable PubSubMessage :=
  inj_countable' (λ m, (pub_topic m, pub_payload m)) (λ p, mkPub p.1 p.2) _.
Next Obligation. by intros []. Qed.

#[global] Instance RpcMessage_eq_dec : EqDecision RpcMessage.
Proof. solve_decision. Defined.

#[global] Program Instance RpcMessage_countable : Countable RpcMessage :=
  inj_countable' (λ m, match m with Request i s p => inl (i, s, p) | Response i p => inr (i, p) end)
    (λ s, match s with inl (i, s, p) => Request i s p | inr (i, p) => Response i p end) _.
Next Obligation. by intros []. Qed.

(** The sender is the log of what was sent. *)
#[local] Instance toy_sender : MessageSender (list (list byte)) := {|
  send_message _ _ bs s := Some (Ok tt, s ++ [bs]);
  broadcast_message _ bs s := Some (Ok tt, s ++ [bs]);
|}.

(** A sender that is down. *)
Definition dead_sender : MessageSender unit := {|
  send_message _ _ _ s := Some (Err (Connection "down"), s);
  broadcast_message _ _ s := Some (Ok tt, s);
|}.

Lemma chat_delivery_witness :
  ∃ payload, @send_chat toy_bincode (list (list byte)) toy_sender "hi" [] = Some (Ok tt, [payload]) ∧
    @chat_handle_message toy_bincode (mkPeerId (vreplicate 32 Byte.x01)) payload =
      (Ok tt, [(mkPeerId (vreplicate 32 Byte.x01), "hi"%string)]).
Proof.
  destruct (@chat_delivery toy_bincode toy_bincode_laws (list (list byte)) toy_sender
    (mkPeerId (vreplicate 32 Byte.x01)) "hi" []) as [(payload & _ & E & H) _].
  exists payload. split; [rewrite E; reflexivity|exact H].
Defined.

Lemma rpc_at_most_once_witness :
  let r := (@create_request toy_bincode "add" [] rpc_new).2 in
  NoDup (completed r).*1 ∧ (∀ i, i ∈ pending_requests r → i ∉ (completed r).*1).
Proof.
  intros r.
  destruct (@rpc_at_most_once toy_bincode toy_bincode_laws (list (list byte)) toy_sender
    (λ _ _ _, Ok []) r (mkPeerId (vreplicate 32 Byte.x01))
    (bits_of_pos (encode (Response 1 (inr []))))  1 (inr [])) as (_ & H1 & H2 & _).
  - apply rpc_reach_request; [reflexivity|apply rpc_reach_new].
  - apply (deserialize_serialize (BincodeLaws := toy_bincode_laws) (Response 1 (inr []))).
    reflexivity.
  - split; assumption.
Defined.

Lemma rpc_end_to_end_witness :
  let p := mkPeerId (vreplicate 32 Byte.x01) in
  ∃ id req_bytes r1 task resp_bytes payload,
    @create_request toy_bincode "echo" [Byte.x07] rpc_new = (Ok (id, req_bytes), r1) ∧
    @rpc_handle_message toy_bincode (list (list byte)) toy_sender (λ _ _ x, Ok x) p req_bytes rpc_new =
      (Ok (Some task), rpc_new) ∧
    (∀ s, task s = Some (Ok tt, s ++ [resp_bytes])) ∧
    (@rpc_handle_message toy_bincode (list (list byte)) toy_sender (λ _ _ x, Ok x) p resp_bytes r1).2 =
      mkRpc (pending_requests r1 ∖ {[id]}) (next_request_id r1) (completed r1 ++ [(id, payload)]) ∧
    call_finish (Some payload) = Ok [Byte.x07].
Proof.
  intros p.
  exact (@rpc_end_to_end toy_bincode toy_bincode_laws (list (list byte)) toy_sender
    (λ _ _ x, Ok x) p p "echo" [Byte.x07] rpc_new rpc_new ltac:(discriminate)).
Defined.

Lemma rpc_failed_send_leaks_witness :
  ∃ r', @call_start toy_bincode unit dead_sender (mkPeerId (vreplicate 32 Byte.x01)) "m" [] rpc_new tt =
    Some (Err (Connection "down"), r', tt) ∧ 1%Z ∈ pending_requests r'.
Proof.
  apply (@rpc_failed_send_leaks toy_bincode toy_bincode_laws unit dead_sender
    (mkPeerId (vreplicate 32 Byte.x01)) "m" [] rpc_new tt). reflexivity.
Defined.

Lemma pubsub_delivery_witness :
  ∃ wire, @format_publish toy_bincode "news" [Byte.x09] = Ok wire ∧
    @pubsub_handle_message toy_bincode (mkPeerId (vreplicate 32 Byte.x01)) wire
      (subscribe_all ["news"; "sport"; "news"]) = (Ok tt, [(0, [Byte.x09]); (2, [Byte.x09])]).
Proof.
  apply (@pubsub_delivery toy_bincode toy_bincode_laws ["news"; "sport"; "news"] "news"
    [Byte.x09] (mkPeerId (vreplicate 32 Byte.x01))).
Defined.
