(* ===== verification/Noise.v ===== *)
(** * omnimesh-crypto: the Noise handshake wrapper ([noise.rs])

    [NoiseHandshake] and [NoiseTransport] over the [snow] crate, which is a parameter.
    Its laws are the documented behaviour of the XX pattern: three messages,
    initiator first, after which both sides are finished, know each other's static
    key and hold transport states in step.  The ephemeral keys [snow] draws are part of
    its states. *)

From S2P Require Import Prelude Error Types.

Definition NOISE_PATTERN : string := "Noise_XX_25519_ChaChaPoly_BLAKE2s".

Definition MAX_HANDSHAKE_MSG : nat := Z.to_nat 65535.

Inductive Role := Initiator | Responder.

#[global] Instance Role_eq_dec : EqDecision Role.
Proof. solve_decision. Defined.

(** [snow]: reads and writes take the size of the buffer they may fill. *)
Class Snow := {
  NoiseParams : Type;
  HandshakeState : Type;
  TransportState : Type;
  parse_params : string → string + NoiseParams;
  build_initiator : NoiseParams → vec byte 32 → string + HandshakeState;
  build_responder : NoiseParams → vec byte 32 → string + HandshakeState;
  hs_write : HandshakeState → list byte → nat → (string + list byte) * HandshakeState;
  hs_read : HandshakeState → list byte → nat → (string + list byte) * HandshakeState;
  hs_finished : HandshakeState → bool;
  hs_remote_static : HandshakeState → option (list byte);
  into_transport_mode : HandshakeState → string + TransportState;
  ts_write : TransportState → list byte → nat → (string + list byte) * TransportState;
  ts_read : TransportState → list byte → nat → (string + list byte) * TransportState;
}.

Section noise.
Context `{N : Snow}.

Record NoiseHandshake := mkHandshake { hs_state : HandshakeState; hs_role : Role }.

Record NoiseTransport := mkTransport {
  nt_state : TransportState;
  nt_remote_static : option (vec byte 32);
}.

Definition with_keypair (role : Role) (private_key : vec byte 32) : Result NoiseHandshake :=
  params ← of_lib (λ e, Handshake ("invalid noise params: " +:+ e)) (parse_params NOISE_PATTERN);
  state ← of_lib (λ e, Handshake ("init failed: " +:+ e))
            (match role with
             | Initiator => build_initiator params private_key
             | Responder => build_responder params private_key
             end);
  Ok (mkHandshake state role).

(** [random]: the freshly generated private key. *)
Definition handshake_new (random : vec byte 32) (role : Role) : Result NoiseHandshake :=
  with_keypair role random.

Definition write_message (payload : list byte) (h : NoiseHandshake)
    : Result (list byte) * NoiseHandshake :=
  let '(r, state) := hs_write (hs_state h) payload MAX_HANDSHAKE_MSG in
  (of_lib (λ e, Handshake ("write failed: " +:+ e)) r, mkHandshake state (hs_role h)).

Definition read_message (message : list byte) (h : NoiseHandshake)
    : Result (list byte) * NoiseHandshake :=
  let '(r, state) := hs_read (hs_state h) message MAX_HANDSHAKE_MSG in
  (of_lib (λ e, Handshake ("read failed: " +:+ e)) r, mkHandshake state (hs_role h)).

Definition is_finished (h : NoiseHandshake) : bool := hs_finished (hs_state h).

(** [copy_from_slice] of the remote key panics unless it has 32 bytes. *)
Definition remote_static_array (rs : option (list byte)) : Result (option (vec byte 32)) :=
  match rs with
  | None => Ok None
  | Some rs => key ← or_panic (array_of_list 32 rs); Ok (Some key)
  end.

Definition into_transport (h : NoiseHandshake) : Result NoiseTransport :=
  if negb (hs_finished (hs_state h)) then Err (Handshake "handshake not yet complete")
  else
    remote_static ← remote_static_array (hs_remote_static (hs_state h));
    transport ← of_lib (λ e, Handshake ("transport mode failed: " +:+ e))
                  (into_transport_mode (hs_state h));
    Ok (mkTransport transport remote_static).

Definition noise_encrypt (plaintext : list byte) (t : NoiseTransport)
    : Result (list byte) * NoiseTransport :=
  let '(r, state) := ts_write (nt_state t) plaintext (length plaintext + 16) in
  (of_lib (λ e, Crypto ("noise encrypt: " +:+ e)) r, mkTransport state (nt_remote_static t)).

Definition noise_decrypt (ciphertext : list byte) (t : NoiseTransport)
    : Result (list byte) * NoiseTransport :=
  let '(r, state) := ts_read (nt_state t) ciphertext (length ciphertext) in
  (of_lib (λ e, Crypto ("noise decrypt: " +:+ e)) r, mkTransport state (nt_remote_static t)).

Definition remote_static_key (t : NoiseTransport) : option (vec byte 32) := nt_remote_static t.

End noise.

(** The XX pattern.  [xx_progress s n]: a side that wrote or read [n] messages, with
    whatever peer; [xx ka kr n i r]: an initiator with private key [ka] and a responder
    with [kr] have exchanged [n] messages.  A transport state holds two independent cipher
    states, one for each direction ([ts_out], [ts_in]); [matched o i]: what the cipher
    state [o] encrypts next, [i] decrypts next.  (A cipher state serves [2^64 - 1]
    messages; the laws are about sessions below that.) *)
Class SnowLaws (N : Snow) := {
  static_public : vec byte 32 → vec byte 32;
  xx_progress : HandshakeState → nat → Prop;
  xx : vec byte 32 → vec byte 32 → nat → HandshakeState → HandshakeState → Prop;
  CipherOut : Type;
  CipherIn : Type;
  ts_out : TransportState → CipherOut;
  ts_in : TransportState → CipherIn;
  matched : CipherOut → CipherIn → Prop;
  xx_start : ∃ p, parse_params NOISE_PATTERN = inr p ∧ ∀ ka kr, ∃ i r,
    build_initiator p ka = inr i ∧ build_responder p kr = inr r ∧ xx ka kr 0 i r;
  xx_build : ∀ p k s, parse_params NOISE_PATTERN = inr p →
    build_initiator p k = inr s ∨ build_responder p k = inr s → xx_progress s 0;
  xx_wrote : ∀ s n payload len msg s', xx_progress s n →
    hs_write s payload len = (inr msg, s') → xx_progress s' (S n);
  xx_has_read : ∀ s n msg len payload s', xx_progress s n →
    hs_read s msg len = (inr payload, s') → xx_progress s' (S n);
  hs_write_fits : ∀ s payload len msg s', hs_write s payload len = (inr msg, s') →
    length msg ≤ len;
  xx_three : ∀ s n, xx_progress s n → hs_finished s = bool_decide (3 ≤ n);
  xx_both : ∀ ka kr n i r, xx ka kr n i r → xx_progress i n ∧ xx_progress r n;
  xx_initiator_writes : ∀ ka kr n i r payload, xx ka kr n i r → n = 0 ∨ n = 2 →
    (Z.of_nat (length payload) ≤ 65439)%Z →
    ∃ msg i' r', hs_write i payload MAX_HANDSHAKE_MSG = (inr msg, i') ∧
      hs_read r msg MAX_HANDSHAKE_MSG = (inr payload, r') ∧ xx ka kr (S n) i' r';
  xx_responder_writes : ∀ ka kr i r payload, xx ka kr 1 i r →
    (Z.of_nat (length payload) ≤ 65439)%Z →
    ∃ msg i' r', hs_write r payload MAX_HANDSHAKE_MSG = (inr msg, r') ∧
      hs_read i msg MAX_HANDSHAKE_MSG = (inr payload, i') ∧ xx ka kr 2 i' r';
  xx_transport : ∀ ka kr i r, xx ka kr 3 i r →
    hs_remote_static i = Some (vec_to_list (static_public kr)) ∧
    hs_remote_static r = Some (vec_to_list (static_public ka)) ∧
    ∃ ti tr, into_transport_mode i = inr ti ∧ into_transport_mode r = inr tr ∧
      matched (ts_out ti) (ts_in tr) ∧ matched (ts_out tr) (ts_in ti);
  write_keeps_in : ∀ t pt len r t', ts_write t pt len = (r, t') → ts_in t' = ts_in t;
  read_keeps_out : ∀ t ct len r t', ts_read t ct len = (r, t') → ts_out t' = ts_out t;
  read_local : ∀ t u ct len, ts_in t = ts_in u →
    (ts_read t ct len).1 = (ts_read u ct len).1 ∧
    ts_in (ts_read t ct len).2 = ts_in (ts_read u ct len).2;
  matched_message : ∀ a b pt, matched (ts_out a) (ts_in b) → (Z.of_nat (length pt) ≤ 65519)%Z →
    ∃ ct a' b', ts_write a pt (length pt + 16) = (inr ct, a') ∧
      ts_read b ct (length ct) = (inr pt, b') ∧ matched (ts_out a') (ts_in b');
}.

Section noise_facts.
Context `{N : Snow, L : !SnowLaws N}.

(** What [a] encrypts next, [b] decrypts next. *)
Definition flows (a b : NoiseTransport) : Prop :=
  matched (ts_out (nt_state a)) (ts_in (nt_state b)).

Definition transports_in_step (a b : NoiseTransport) : Prop := flows a b ∧ flows b a.

Lemma transports_in_step_sym a b : transports_in_step a b → transports_in_step b a.
Proof. unfold transports_in_step. tauto. Qed.

(** Encrypting leaves the receiving direction alone, decrypting the sending one. *)
Lemma encrypt_keeps_in pt t r t' : noise_encrypt pt t = (r, t') → ts_in (nt_state t') = ts_in (nt_state t).
Proof.
  unfold noise_encrypt. destruct (ts_write _ _ _) as [x st] eqn:E. intros [= _ <-].
  by eapply write_keeps_in.
Qed.

Lemma decrypt_keeps_out ct t r t' : noise_decrypt ct t = (r, t') → ts_out (nt_state t') = ts_out (nt_state t).
Proof.
  unfold noise_decrypt. destruct (ts_read _ _ _) as [x st] eqn:E. intros [= _ <-].
  by eapply read_keeps_out.
Qed.

(** Decryption depends on the receiving direction only. *)
Lemma decrypt_local ct t u r t' :
  ts_in (nt_state t) = ts_in (nt_state u) → noise_decrypt ct t = (r, t') →
  ∃ u', noise_decrypt ct u = (r, u') ∧ ts_in (nt_state u') = ts_in (nt_state t').
Proof.
  intros Hi. unfold noise_decrypt. pose proof (read_local _ _ ct (length ct) Hi) as [H1 H2].
  destruct (ts_read (nt_state t) _ _) as [x st], (ts_read (nt_state u) _ _) as [y su]. cbn in *.
  subst. intros [= <- <-]. eexists. split; [done|]. by cbn.
Qed.

(** One message in one direction. *)
Lemma flow_message a b pt :
  flows a b → (Z.of_nat (length pt) ≤ 65519)%Z →
  ∃ ct a' b', noise_encrypt pt a = (Ok ct, a') ∧ noise_decrypt ct b = (Ok pt, b') ∧ flows a' b'.
Proof.
  intros Hs Hl. destruct (matched_message _ _ pt Hs Hl) as (ct & a' & b' & Ew & Er & Hs').
  exists ct, (mkTransport a' (nt_remote_static a)), (mkTransport b' (nt_remote_static b)).
  unfold noise_encrypt, noise_decrypt. by rewrite Ew, Er.
Qed.

(** One encrypted message between transports in step. *)
Lemma noise_message a b pt :
  transports_in_step a b → (Z.of_nat (length pt) ≤ 65519)%Z →
  ∃ ct a' b', noise_encrypt pt a = (Ok ct, a') ∧ noise_decrypt ct b = (Ok pt, b') ∧
    transports_in_step a' b'.
Proof.
  intros [Hab Hba] Hl. destruct (flow_message a b pt Hab Hl) as (ct & a' & b' & Ee & Ed & H).
  exists ct, a', b'. split_and!; [done..|]. split; [done|]. unfold flows.
  by rewrite (decrypt_keeps_out _ _ _ _ Ed), (encrypt_keeps_in _ _ _ _ Ee).
Qed.

Lemma xx_finished ka kr n i r : xx ka kr n i r →
  hs_finished i = bool_decide (3 ≤ n) ∧ hs_finished r = bool_decide (3 ≤ n).
Proof. intros [Hi Hr]%xx_both. split; by apply xx_three. Qed.

(** Two sides with their keys, before the first message. *)
Lemma with_keypair_ok ka kb :
  ∃ i r, with_keypair Initiator ka = Ok (mkHandshake i Initiator) ∧
    with_keypair Responder kb = Ok (mkHandshake r Responder) ∧ xx ka kb 0 i r.
Proof.
  destruct xx_start as (p & Ep & Hp). destruct (Hp ka kb) as (i & r & Ei & Er & Hxx).
  exists i, r. unfold with_keypair. rewrite Ep. cbn. by rewrite Ei, Er.
Qed.

Definition as_initiator (s : HandshakeState) : NoiseHandshake := mkHandshake s Initiator.
Definition as_responder (s : HandshakeState) : NoiseHandshake := mkHandshake s Responder.

(** A message of the initiator, and one of the responder, through the wrapper. *)
Lemma initiator_message ka kr n i r payload :
  xx ka kr n i r → n = 0 ∨ n = 2 → (Z.of_nat (length payload) ≤ 65439)%Z →
  ∃ msg i' r', write_message payload (as_initiator i) = (Ok msg, as_initiator i') ∧
    read_message msg (as_responder r) = (Ok payload, as_responder r') ∧ xx ka kr (S n) i' r'.
Proof.
  intros Hxx Hn Hp. destruct (xx_initiator_writes _ _ _ _ _ _ Hxx Hn Hp) as (msg & i' & r' & Ew & Er & Hxx').
  exists msg, i', r'. unfold write_message, read_message. cbn [hs_state as_initiator as_responder].
  by rewrite Ew, Er.
Qed.

Lemma responder_message ka kr i r payload :
  xx ka kr 1 i r → (Z.of_nat (length payload) ≤ 65439)%Z →
  ∃ msg i' r', write_message payload (as_responder r) = (Ok msg, as_responder r') ∧
    read_message msg (as_initiator i) = (Ok payload, as_initiator i') ∧ xx ka kr 2 i' r'.
Proof.
  intros Hxx Hp. destruct (xx_responder_writes _ _ _ _ _ Hxx Hp) as (msg & i' & r' & Ew & Er & Hxx').
  exists msg, i', r'. unfold write_message, read_message. cbn [hs_state as_initiator as_responder].
  by rewrite Ew, Er.
Qed.

Lemma xx_is_finished ka kr i r : xx ka kr 3 i r →
  is_finished (as_initiator i) = true ∧ is_finished (as_responder r) = true.
Proof. intros H. unfold is_finished. cbn. destruct (xx_finished _ _ _ _ _ H) as [-> ->]. done. Qed.

(** The end of a finished exchange. *)
Lemma into_transport_ok ka kr i r :
  xx ka kr 3 i r →
  ∃ ti tr, into_transport (mkHandshake i Initiator) = Ok ti ∧
    into_transport (mkHandshake r Responder) = Ok tr ∧ transports_in_step ti tr ∧
    remote_static_key ti = Some (static_public kr) ∧
    remote_static_key tr = Some (static_public ka).
Proof.
  intros Hxx. destruct (xx_finished _ _ _ _ _ Hxx) as [Fi Fr].
  destruct (xx_transport _ _ _ _ Hxx) as (Si & Sr & ti & tr & Ti & Tr & Hs & Hs').
  exists (mkTransport ti (Some (static_public kr))), (mkTransport tr (Some (static_public ka))).
  unfold into_transport. cbn [hs_state]. rewrite Fi, Fr, Si, Sr. cbn [negb bool_decide decide_rel].
  unfold remote_static_array. rewrite !array_of_vec. cbn. by rewrite Ti, Tr.
Qed.

End noise_facts.

(** ** A toy Noise, for the witnesses *)

(** Strip the nonce [n], in unary and ended by a zero byte, from a ciphertext. *)
Fixpoint strip_nonce (n : nat) (l : list byte) : option (list byte) :=
  match n, l with
  | O, Byte.x00 :: l => Some l
  | S n, Byte.x01 :: l => strip_nonce n l
  | _, _ => None
  end.

Definition put_nonce (n : nat) (l : list byte) : list byte := replicate n Byte.x01 ++ Byte.x00 :: l.

Lemma strip_put n l : strip_nonce n (put_nonce n l) = Some l.
Proof. by induction n. Qed.

(** Handshake messages carry the sender's key in the clear; a handshake state is the own
    key, the number of messages seen and the peer's key.  A transport state is the pair
    of its nonces; a ciphertext is accepted under its own nonce only, and a rejected one
    does not advance the nonce. *)
#[local] Instance toy_snow : Snow := {|
  NoiseParams := unit;
  HandshakeState := vec byte 32 * nat * option (vec byte 32);
  TransportState := nat * nat;
  parse_params _ := inr tt;
  build_initiator _ k := inr (k, 0, None);
  build_responder _ k := inr (k, 0, None);
  hs_write s payload len :=
    if decide (32 + length payload ≤ len) then
      (inr (vec_to_list s.1.1 ++ payload), (s.1.1, S s.1.2, s.2))
    else (inl "input error"%string, s);
  hs_read s msg _ := (inr (drop 32 msg), (s.1.1, S s.1.2, array_of_list 32 (take 32 msg)));
  hs_finished s := bool_decide (3 ≤ s.1.2);
  hs_remote_static s := vec_to_list <$> s.2;
  into_transport_mode _ := inr (0, 0);
  ts_write s pt _ := (inr (put_nonce s.1 pt), (S s.1, s.2));
  ts_read s ct _ := match strip_nonce s.2 ct with
                    | Some pt => (inr pt, (s.1, S s.2))
                    | None => (inl "decrypt error"%string, s)
                    end;
|}.

Lemma toy_read k (payload : list byte) :
  array_of_list 32 (take 32 (vec_to_list k ++ payload)) = Some k ∧
  drop 32 (vec_to_list k ++ payload) = payload.
Proof.
  rewrite take_app_length', drop_app_length' by by rewrite length_vec_to_list.
  split; [apply array_of_vec|done].
Qed.

#[local] Program Instance toy_snow_laws : SnowLaws toy_snow := {|
  static_public k := k;
  xx_progress s n := s.1.2 = n;
  xx ka kr n i r := i.1 = (ka, n) ∧ r.1 = (kr, n) ∧ (2 ≤ n → i.2 = Some kr) ∧
                    (1 ≤ n → r.2 = Some ka);
  CipherOut := nat;
  CipherIn := nat;
  ts_out := fst;
  ts_in := snd;
  matched := eq;
|}.
Next Obligation. exists tt. split; [done|]. intros ka kr. eexists _, _. split_and!; done || lia. Qed.
Next Obligation. by intros p k s _ [[= <-]|[= <-]]. Qed.
Next Obligation.
  intros s n payload len msg s' <- E. cbn in E. case_decide; [|done]. by injection E as _ <-.
Qed.
Next Obligation. by intros s n msg len payload s' <- [= _ <-]. Qed.
Next Obligation.
  intros s payload len msg s' E. cbn in E. case_decide; [|done]. injection E as <- _.
  by rewrite length_app, length_vec_to_list.
Qed.
Next Obligation. by intros s n <-. Qed.
Next Obligation. intros ka kr n [[] ?] [[] ?] (E1 & E2 & _). cbn in *. by simplify_eq. Qed.
Next Obligation.
  intros ka kr n [[k n1] o] [[k' n2] o'] payload (E1 & E2 & H1 & H2) Hn Hl. cbn in E1, E2, H1, H2. simplify_eq.
  destruct (toy_read ka payload) as [Ea Ed].
  eexists _, _, _. cbn [hs_write hs_read toy_snow fst snd].
  rewrite decide_True by (unfold MAX_HANDSHAKE_MSG; lia). split; [done|]. rewrite Ea, Ed. split_and!; try done. cbn. intros Hn'. apply H1. lia.
Qed.
Next Obligation.
  intros ka kr [[k n1] o] [[k' n2] o'] payload (E1 & E2 & H1 & H2) Hl. cbn in E1, E2, H1, H2. simplify_eq.
  destruct (toy_read kr payload) as [Ea Ed].
  eexists _, _, _. cbn [hs_write hs_read toy_snow fst snd].
  rewrite decide_True by (unfold MAX_HANDSHAKE_MSG; lia). split; [done|]. rewrite Ea, Ed. split_and!; try done. cbn. intros _. apply H2. lia.
Qed.
Next Obligation.
  intros ka kr [[k n1] o] [[k' n2] o'] (E1 & E2 & H1 & H2). cbn in *. simplify_eq.
  rewrite H1, H2 by lia. split_and!; [done|done|]. by exists (0, 0), (0, 0).
Qed.
Next Obligation. by intros [] pt len r t' [= _ <-]. Qed.
Next Obligation. intros [] ct len r t'. cbn. destruct (strip_nonce _ _); by intros [= _ <-]. Qed.
Next Obligation. intros [o i] [o' i'] ct len [= ->]. cbn. by destruct (strip_nonce _ _). Qed.
Next Obligation.
  intros [o i] [o' i'] pt Hm _. cbn in Hm. subst i'. eexists _, _, _. split; [done|].
  cbn [ts_read toy_snow fst snd]. by rewrite strip_put.
Qed.

(** The same with the nonce in one byte, for connections that bound their messages. *)
Definition strip_tag (n : nat) (l : list byte) : option (list byte) :=
  match l with
  | b :: l => if decide (b = byte_of_Z (Z.of_nat n)) then Some l else None
  | [] => None
  end.

#[local] Instance tag_snow : Snow := {|
  NoiseParams := unit;
  HandshakeState := vec byte 32 * nat * option (vec byte 32);
  TransportState := nat * nat;
  parse_params := parse_params (Snow := toy_snow);
  build_initiator := build_initiator (Snow := toy_snow);
  build_responder := build_responder (Snow := toy_snow);
  hs_write := hs_write (Snow := toy_snow);
  hs_read := hs_read (Snow := toy_snow);
  hs_finished := hs_finished (Snow := toy_snow);
  hs_remote_static := hs_remote_static (Snow := toy_snow);
  into_transport_mode := into_transport_mode (Snow := toy_snow);
  ts_write s pt _ := (inr (byte_of_Z (Z.of_nat s.1) :: pt), (S s.1, s.2));
  ts_read s ct _ := match strip_tag s.2 ct with
                    | Some pt => (inr pt, (s.1, S s.2))
                    | None => (inl "decrypt error"%string, s)
                    end;
|}.

#[local] Program Instance tag_snow_laws : SnowLaws tag_snow := {|
  static_public := static_public (SnowLaws := toy_snow_laws);
  xx_progress := xx_progress (SnowLaws := toy_snow_laws);
  xx := xx (SnowLaws := toy_snow_laws);
  CipherOut := nat;
  CipherIn := nat;
  ts_out := fst;
  ts_in := snd;
  matched := eq;
  xx_start := xx_start (SnowLaws := toy_snow_laws);
  xx_build := xx_build (SnowLaws := toy_snow_laws);
  xx_wrote := xx_wrote (SnowLaws := toy_snow_laws);
  xx_has_read := xx_has_read (SnowLaws := toy_snow_laws);
  hs_write_fits := hs_write_fits (SnowLaws := toy_snow_laws);
  xx_three := xx_three (SnowLaws := toy_snow_laws);
  xx_both := xx_both (SnowLaws := toy_snow_laws);
  xx_initiator_writes := xx_initiator_writes (SnowLaws := toy_snow_laws);
  xx_responder_writes := xx_responder_writes (SnowLaws := toy_snow_laws);
  xx_transport := xx_transport (SnowLaws := toy_snow_laws);
|}.
Next Obligation. by intros [] pt len r t' [= _ <-]. Qed.
Next Obligation. intros [] ct len r t'. cbn. destruct (strip_tag _ _); by intros [= _ <-]. Qed.
Next Obligation. intros [o i] [o' i'] ct len [= ->]. cbn. by destruct (strip_tag _ _). Qed.
Next Obligation.
  intros [o i] [o' i'] pt Hm _. cbn in Hm. subst i'. eexists _, _, _. split; [done|].
  cbn [ts_read tag_snow fst snd strip_tag]. by rewrite decide_True.
Qed.
