(* ===== verification/Handshake.v ===== *)
(** * omnimesh-sdk: the connection handshake ([perform_handshake] of [sdk/src/lib.rs])

    The handshake is a program that sends and receives on its connection ([proto]);
    its loop takes fuel, and two rounds are always enough.  [run] runs it on a
    connection, whatever the other end does; [joint_step] interleaves the programs of the
    two ends of a connection, over any transport that provides [Duplex]. *)

From S2P Require Import Prelude Error Types Transport Mock Services Noise.

Record HandshakePayload := mkPayload { hp_version : ProtocolVersion; hp_peer_id : PeerId }.

(** ** Programs on a connection *)

Inductive proto (A : Type) : Type :=
| Ret (r : Result A)
| Send (msg : list byte) (k : Result unit → proto A)
| Recv (k : Result (option (list byte)) → proto A)
| NoFuel.
Arguments Ret {A} r.
Arguments Send {A} msg k.
Arguments Recv {A} k.
Arguments NoFuel {A}.

(** The [?] operator. *)
Definition try {A B} (r : Result A) (k : A → proto B) : proto B :=
  match r with Ok a => k a | Err e => Ret (Err e) | Panic => Ret Panic end.

Section handshake.
Context `{N : Snow, B : Bincode HandshakePayload}.

Definition local_payload (local_peer_id : PeerId) : Result (list byte) :=
  serialize_unwrap (mkPayload CURRENT local_peer_id).

(** Decode the peer's payload and check its version. *)
Definition check_payload (bytes : list byte) : Result PeerId :=
  remote_payload ← of_lib (λ e, Serialization ("handshake payload: " +:+ e)) (deserialize bytes);
  if negb (is_compatible_with CURRENT (hp_version remote_payload)) then
    Err (ProtocolMismatch (version_to_string CURRENT)
           (version_to_string (hp_version remote_payload)))
  else Ok (hp_peer_id remote_payload).

(** After the loop. *)
Definition finish (h : NoiseHandshake) (remote_peer_id : option PeerId)
    : proto (NoiseTransport * PeerId) :=
  try (into_transport h) (λ transport,
  try (ok_or remote_peer_id (Handshake "handshake completed without remote peer id"))
    (λ remote_id, Ret (Ok (transport, remote_id)))).

(** Receive one message; the end of the connection is an error here. *)
Definition recv_message {A} (k : list byte → proto A) : proto A :=
  Recv (λ r, try r (λ m,
    match m with
    | Some bytes => k bytes
    | None => Ret (Err (Handshake "closed during handshake"))
    end)).

Fixpoint handshake_loop (fuel : nat) (local_peer_id : PeerId) (h : NoiseHandshake)
    (remote_peer_id : option PeerId) : proto (NoiseTransport * PeerId) :=
  match fuel with
  | O => NoFuel
  | S fuel =>
      if is_finished h then finish h remote_peer_id
      else
        match hs_role h with
        | Initiator =>
            try (local_payload local_peer_id) (λ payload,
            let '(msg, h) := write_message payload h in
            try msg (λ msg,
            Send msg (λ r, try r (λ _,
            if is_finished h then finish h remote_peer_id
            else
              recv_message (λ reply,
              let '(reply_payload, h) := read_message reply h in
              try reply_payload (λ reply_payload,
              try (check_payload reply_payload) (λ remote_id,
              handshake_loop fuel local_peer_id h (Some remote_id))))))))
        | Responder =>
            recv_message (λ incoming,
            let '(inc_payload, h) := read_message incoming h in
            try inc_payload (λ inc_payload,
            try (check_payload inc_payload) (λ remote_id,
            if is_finished h then finish h (Some remote_id)
            else
              try (local_payload local_peer_id) (λ payload,
              let '(reply, h) := write_message payload h in
              try reply (λ reply,
              Send reply (λ r, try r (λ _,
              handshake_loop fuel local_peer_id h (Some remote_id))))))))
        end
  end.

Definition perform_handshake (fuel : nat) (h : NoiseHandshake) (local_peer_id : PeerId)
    : proto (NoiseTransport * PeerId) :=
  handshake_loop fuel local_peer_id h None.

End handshake.

(** ** One end, on a connection *)

Fixpoint run `{C : DynConnection W} {A} (p : proto A) (c : conn)
    : io W (option (Result A) * conn) :=
  match p with
  | Ret r => mret (Some r, c)
  | Send msg k => '(r, c) ← conn_send msg c; run (k r) c
  | Recv k => '(r, c) ← conn_recv c; run (k r) c
  | NoFuel => mret (None, c)
  end.

(** No answer of the other end makes the program run out of fuel. *)
Fixpoint returns {A} (p : proto A) : Prop :=
  match p with
  | Ret _ => True
  | Send _ k => ∀ r, returns (k r)
  | Recv k => ∀ r, returns (k r)
  | NoFuel => False
  end.

(** A connection on which no call waits for ever. *)
Definition answering `(C : DynConnection W) : Prop :=
  ∀ (c : conn) (w : W), (∀ m, is_Some (conn_send m c w)) ∧ is_Some (conn_recv c w).

(** ** Two ends *)

(** One call of a program; [None] when it has returned, or has to wait. *)
Definition pstep `{C : DynConnection W} {A} (p : proto A) (c : conn) : io W (proto A * conn) :=
  match p with
  | Send msg k => '(r, c) ← conn_send msg c; mret (k r, c)
  | Recv k => '(r, c) ← conn_recv c; mret (k r, c)
  | Ret _ | NoFuel => λ _, None
  end.

Record ends `{C : DynConnection W} (A B : Type) := mkEnds {
  end_a : proto A * conn;
  end_b : proto B * conn;
  shared : W;
}.
Arguments mkEnds {W C A B} end_a end_b shared.
Arguments end_a {W C A B} e.
Arguments end_b {W C A B} e.
Arguments shared {W C A B} e.

(** Either end makes its next call. *)
Inductive joint_step `{C : DynConnection W} {A B : Type} : ends A B → ends A B → Prop :=
| joint_a p c b w p' c' w' : pstep p c w = Some (p', c', w') →
    joint_step (mkEnds (p, c) b w) (mkEnds (p', c') b w')
| joint_b a p c w p' c' w' : pstep p c w = Some (p', c', w') →
    joint_step (mkEnds a (p, c) w) (mkEnds a (p', c') w').

Section two_ends.
Context {W : Type} {C : DynConnection W} {X Y : Type} (J P : ends X Y → Prop).

(** The other end waits, or has returned. *)
Lemma inevitably_a p c p' c' w w' b :
  J (mkEnds (p, c) b w) → pstep p c w = Some (p', c', w') → pstep b.1 b.2 w = None →
  inevitably_in J joint_step P (mkEnds (p', c') b w') → inevitably_in J joint_step P (mkEnds (p, c) b w).
Proof.
  intros HJ E Hw. apply inevitably_in_det; [done|by apply joint_a|]. intros t Ht.
  inversion Ht; simplify_eq; [done|]. cbn in Hw. congruence.
Qed.

Lemma inevitably_b p c p' c' w w' a :
  J (mkEnds a (p, c) w) → pstep p c w = Some (p', c', w') → pstep a.1 a.2 w = None →
  inevitably_in J joint_step P (mkEnds a (p', c') w') → inevitably_in J joint_step P (mkEnds a (p, c) w).
Proof.
  intros HJ E Hw. apply inevitably_in_det; [done|by apply joint_b|]. intros t Ht.
  inversion Ht; simplify_eq; [cbn in Hw; congruence|done].
Qed.

Context {D : Duplex C}.

(** The exchange of one message, at the start of a connection and later. *)
Lemma first_message_step ca cb m k k' w :
  J (mkEnds (Send m k, ca) (Recv k', cb) w) → opening ca cb [] w → sendable m →
  (∀ ca' cb' w', linked ca' cb' [] [] w' →
     inevitably_in J joint_step P (mkEnds (k (Ok tt), ca') (k' (Ok (Some m)), cb') w')) →
  (∀ ca' w', opening ca' cb [m] w' → J (mkEnds (k (Ok tt), ca') (Recv k', cb) w')) →
  (∀ ca' w', opening ca' cb [m] w' → pstep (k (Ok tt)) ca' w' = None) →
  inevitably_in J joint_step P (mkEnds (Send m k, ca) (Recv k', cb) w).
Proof.
  intros HJ Ho Hm Hk HJ' Hw. destruct (opening_send_room _ _ _ _ m Ho Hm) as (ca' & w1 & E1 & Ho1);
    [by apply room_one|].
  eapply inevitably_a; [done|cbn; unfold mbind, io_bind; by rewrite E1| |].
  { cbn. run_io. by rewrite (opening_wait _ _ _ Ho). }
  destruct (opening_recv _ _ _ _ _ Ho1) as (cb' & w2 & E2 & Hl).
  eapply inevitably_b; [by apply HJ'|cbn; unfold mbind, io_bind; by rewrite E2|by eapply Hw|by apply Hk].
Qed.

Lemma reply_step ca cb m k k' w :
  J (mkEnds (Recv k', ca) (Send m k, cb) w) → linked ca cb [] [] w → sendable m →
  (∀ ca' cb' w', linked ca' cb' [] [] w' →
     inevitably_in J joint_step P (mkEnds (k' (Ok (Some m)), ca') (k (Ok tt), cb') w')) →
  (∀ cb' w', linked ca cb' [] [m] w' → J (mkEnds (Recv k', ca) (k (Ok tt), cb') w')) →
  (∀ cb' w', linked ca cb' [] [m] w' → pstep (k (Ok tt)) cb' w' = None) →
  inevitably_in J joint_step P (mkEnds (Recv k', ca) (Send m k, cb) w).
Proof.
  intros HJ Hl Hm Hk HJ' Hw.
  destruct (linked_send_room _ _ _ _ _ m (linked_sym _ _ _ _ _ Hl) Hm) as (cb' & w1 & E1 & Hl1);
    [by apply room_one|]. apply linked_sym in Hl1.
  eapply inevitably_b; [done|cbn; unfold mbind, io_bind; by rewrite E1| |].
  { cbn. run_io. by rewrite (linked_wait _ _ _ _ Hl). }
  destruct (linked_recv _ _ _ _ _ _ Hl1) as (ca' & w2 & E2 & Hl2).
  eapply inevitably_a; [by apply HJ'|cbn; unfold mbind, io_bind; by rewrite E2|by eapply Hw|by apply Hk].
Qed.

Lemma message_step ca cb m k k' w :
  J (mkEnds (Send m k, ca) (Recv k', cb) w) → linked ca cb [] [] w → sendable m →
  (∀ ca' cb' w', linked ca' cb' [] [] w' →
     inevitably_in J joint_step P (mkEnds (k (Ok tt), ca') (k' (Ok (Some m)), cb') w')) →
  (∀ ca' w', linked ca' cb [m] [] w' → J (mkEnds (k (Ok tt), ca') (Recv k', cb) w')) →
  (∀ ca' w', linked ca' cb [m] [] w' → pstep (k (Ok tt)) ca' w' = None) →
  inevitably_in J joint_step P (mkEnds (Send m k, ca) (Recv k', cb) w).
Proof.
  intros HJ Hl Hm Hk HJ' Hw.
  destruct (linked_send_room _ _ _ _ _ m Hl Hm) as (ca' & w1 & E1 & Hl1); [by apply room_one|].
  eapply inevitably_a; [done|cbn; unfold mbind, io_bind; by rewrite E1| |].
  { cbn. run_io. by rewrite (linked_wait _ _ _ _ (linked_sym _ _ _ _ _ Hl)). }
  destruct (linked_recv _ _ _ _ _ _ (linked_sym _ _ _ _ _ Hl1)) as (cb' & w2 & E2 & Hl2).
  apply linked_sym in Hl2.
  eapply inevitably_b; [by apply HJ'|cbn; unfold mbind, io_bind; by rewrite E2|by eapply Hw|by apply Hk].
Qed.

End two_ends.

(** ** Properties *)

Section handshake_facts.
Context `{N : Snow, L : !SnowLaws N, B : Bincode HandshakePayload, BL : !BincodeLaws B}.

Lemma returns_try {X Y} (r : Result X) (k : X → proto Y) :
  (∀ x, r = Ok x → returns (k x)) → returns (try r k).
Proof. by destruct r; cbn; auto. Qed.

Lemma returns_finish h remote : returns (finish h remote).
Proof. unfold finish. do 2 (apply returns_try; intros ? _). exact I. Qed.

Lemma returns_recv {X} (k : list byte → proto X) :
  (∀ m, returns (k m)) → returns (recv_message k).
Proof. intros H r. apply returns_try. intros [m|] _; [apply H|exact I]. Qed.

Lemma write_progress payload h n m h' :
  xx_progress (hs_state h) n → write_message payload h = (Ok m, h') →
  xx_progress (hs_state h') (S n).
Proof.
  intros Hp. unfold write_message. destruct (hs_write _ _ _) as [[e|msg] st] eqn:E; [done|].
  intros [= <- <-]. by eapply xx_wrote.
Qed.

Lemma read_progress bytes h n m h' :
  xx_progress (hs_state h) n → read_message bytes h = (Ok m, h') →
  xx_progress (hs_state h') (S n).
Proof.
  intros Hp. unfold read_message. destruct (hs_read _ _ _) as [[e|msg] st] eqn:E; [done|].
  intros [= <- <-]. by eapply xx_has_read.
Qed.

Lemma finished_progress h n : xx_progress (hs_state h) n → is_finished h = bool_decide (3 ≤ n).
Proof. apply xx_three. Qed.

(** Every round reads and writes one message each, and the third message is the last. *)
Lemma handshake_loop_returns fuel : ∀ local h remote n,
  xx_progress (hs_state h) n → 4 ≤ n + 2 * fuel → 0 < fuel →
  returns (handshake_loop fuel local h remote).
Proof.
  induction fuel as [|fuel IH]; intros local h remote n Hp Hn Hf; [lia|]. cbn [handshake_loop].
  rewrite (finished_progress _ _ Hp). case_bool_decide as H3; [apply returns_finish|].
  destruct (hs_role h).
  - apply returns_try. intros payload _. destruct (write_message payload h) as [m h1] eqn:Ew.
    apply returns_try. intros msg ->. intros r. apply returns_try. intros _ _.
    assert (Hp1 := write_progress _ _ _ _ _ Hp Ew). rewrite (finished_progress _ _ Hp1).
    case_bool_decide as H3'; [apply returns_finish|]. apply returns_recv. intros reply.
    destruct (read_message reply h1) as [m' h2] eqn:Er. apply returns_try. intros p ->.
    apply returns_try. intros id _. apply (IH _ _ _ (S (S n))); [by eapply read_progress|lia..].
  - apply returns_recv. intros inc. destruct (read_message inc h) as [m h1] eqn:Er.
    apply returns_try. intros p ->. apply returns_try. intros id _.
    assert (Hp1 := read_progress _ _ _ _ _ Hp Er). rewrite (finished_progress _ _ Hp1).
    case_bool_decide as H3'; [apply returns_finish|]. apply returns_try. intros payload _.
    destruct (write_message payload h1) as [m' h2] eqn:Ew. apply returns_try. intros reply ->.
    intros r. apply returns_try. intros _ _.
    apply (IH _ _ _ (S (S n))); [by eapply write_progress|lia..].
Qed.

Lemma with_keypair_progress role key h :
  with_keypair role key = Ok h → xx_progress (hs_state h) 0.
Proof.
  unfold with_keypair. destruct (parse_params NOISE_PATTERN) as [e|p] eqn:Ep; [done|].
  destruct role; cbn [of_lib mbind result_bind];
    [destruct (build_initiator p key) as [e|st] eqn:E|destruct (build_responder p key) as [e|st] eqn:E];
    cbn; try done; intros [= <-]; (eapply xx_build; [done|]); eauto.
Qed.

Lemma returns_run `{C : DynConnection W} {X} (p : proto X) :
  returns p → ∀ c w r c' w', run p c w = Some (r, c', w') → is_Some r.
Proof.
  induction p as [r|m k IH|k IH|]; cbn; intros Hp c w r' c' w'; [by intros [= <- <- <-]| | |done];
    unfold mbind, io_bind;
    [destruct (conn_send m c w) as [[[x c1] w1]|]|destruct (conn_recv c w) as [[[x c1] w1]|]];
    intros E; first [discriminate E|by eapply IH in E].
Qed.

Lemma answering_run `{C : DynConnection W} {X} (p : proto X) :
  answering C → ∀ c w, is_Some (run p c w).
Proof.
  intros Ha. induction p as [r|m k IH|k IH|]; cbn; intros c w; [by eexists| | |by eexists];
    unfold mbind, io_bind; destruct (Ha c w) as [Hs Hr].
  - destruct (Hs m) as [[[x c1] w1] ->]. apply IH.
  - destruct Hr as [[[x c1] w1] ->]. apply IH.
Qed.

Lemma handshake_returns role key h local f :
  with_keypair role key = Ok h → returns (perform_handshake (2 + f) h local).
Proof.
  intros H%with_keypair_progress. apply (handshake_loop_returns _ _ _ _ 0); [done|lia..].
Qed.

(** C23: The handshake terminates against any peer.  In either role, with any key and on
    any connection, however the other end misbehaves (closes, fails, sends anything),
    [perform_handshake] is done within two rounds of its loop: it returns as soon as the
    calls it makes on the connection do, and on a connection that answers it returns. *)
Theorem handshake_terminates `{C : DynConnection W} role key h local f (c : conn) (w : W) :
  with_keypair role key = Ok h →
  (∀ r c' w', run (perform_handshake (2 + f) h local) c w = Some (r, c', w') → is_Some r) ∧
  (answering C → ∃ r c' w', run (perform_handshake (2 + f) h local) c w = Some (Some r, c', w')).
Proof.
  intros H. pose proof (handshake_returns role key h local f H) as Hr. split.
  - by apply returns_run.
  - intros Ha. destruct (answering_run (perform_handshake (2 + f) h local) Ha c w)
      as [[[r c'] w'] E]. destruct (returns_run _ Hr _ _ _ _ _ E) as [x ->]. by exists x, c', w'.
Qed.

(** A serialized payload is far below the Noise limit. *)
Hypothesis payload_small : ∀ id bs, serialize (mkPayload CURRENT id) = inr bs →
  (Z.of_nat (length bs) ≤ 65439)%Z.

Lemma local_payload_ok local :
  ∃ bs, local_payload local = Ok bs ∧ check_payload bs = Ok local ∧
    (Z.of_nat (length bs) ≤ 65439)%Z.
Proof.
  unfold local_payload, serialize_unwrap.
  destruct (serialize_total (mkPayload CURRENT local)) as [bs E]. rewrite E. exists bs.
  split_and!; [done| |by eapply payload_small].
  unfold check_payload. rewrite (deserialize_serialize _ _ E). done.
Qed.

(** The first program of the loop, for each role. *)
Lemma initiator_step f local h remote payload msg h' :
  hs_role h = Initiator → is_finished h = false → local_payload local = Ok payload →
  write_message payload h = (Ok msg, h') →
  handshake_loop (S f) local h remote =
    Send msg (λ r, try r (λ _,
      if is_finished h' then finish h' remote
      else recv_message (λ reply,
        let '(p, h) := read_message reply h' in
        try p (λ p, try (check_payload p) (λ id, handshake_loop f local h (Some id)))))).
Proof. intros Hr Hf Hp Hw. cbn [handshake_loop]. rewrite Hf, Hr, Hp. cbn [try]. by rewrite Hw. Qed.

Lemma responder_step f local h remote :
  hs_role h = Responder → is_finished h = false →
  handshake_loop (S f) local h remote =
    recv_message (λ incoming,
      let '(p, h) := read_message incoming h in
      try p (λ p, try (check_payload p) (λ id,
      if is_finished h then finish h (Some id)
      else try (local_payload local) (λ payload,
        let '(reply, h) := write_message payload h in
        try reply (λ reply, Send reply (λ r, try r (λ _, handshake_loop f local h (Some id)))))))).
Proof. intros Hr Hf. cbn [handshake_loop]. by rewrite Hf, Hr. Qed.

(** One handshake message: written by one side, read by the other. *)
Lemma write_ok payload msg st st' role :
  hs_write st payload MAX_HANDSHAKE_MSG = (inr msg, st') →
  write_message payload (mkHandshake st role) = (Ok msg, mkHandshake st' role).
Proof. intros E. unfold write_message. cbn [hs_state hs_role]. by rewrite E. Qed.

Lemma read_ok payload msg st st' role :
  hs_read st msg MAX_HANDSHAKE_MSG = (inr payload, st') →
  read_message msg (mkHandshake st role) = (Ok payload, mkHandshake st' role).
Proof. intros E. unfold read_message. cbn [hs_state hs_role]. by rewrite E. Qed.

Lemma finish_ok h t id : into_transport h = Ok t → finish h (Some id) = Ret (Ok (t, id)).
Proof. intros E. unfold finish. by rewrite E. Qed.

Lemma write_message_fits payload h msg h' :
  write_message payload h = (Ok msg, h') → length msg ≤ MAX_HANDSHAKE_MSG.
Proof.
  unfold write_message. destruct (hs_write _ _ _) as [[e|m] st] eqn:E; [done|].
  intros [= <- _]. by eapply hs_write_fits.
Qed.

(** Both ends have returned, with transports in step and nothing in flight. *)
Definition agreed `{C : DynConnection W, D : !Duplex C} (ka kb : vec byte 32) (pa pb : PeerId)
    (e : ends (NoiseTransport * PeerId) (NoiseTransport * PeerId)) : Prop :=
  ∃ ta tb ca cb w, e = mkEnds (Ret (Ok (ta, pb)), ca) (Ret (Ok (tb, pa)), cb) w ∧
    linked ca cb [] [] w ∧ transports_in_step ta tb ∧
    remote_static_key ta = Some (static_public kb) ∧
    remote_static_key tb = Some (static_public ka).

(** An end that has returned has succeeded, with the peer id of the other end, and nothing has
    arrived for it since. *)
Definition rests `{C : DynConnection W} (q : PeerId) (p : proto (NoiseTransport * PeerId)) (c : conn) (w : W)
    : Prop :=
  p ≠ NoFuel ∧ ∀ r, p = Ret r → (∃ t, r = Ok (t, q)) ∧ conn_recv c w = None.

Definition at_rest `{C : DynConnection W} (pa pb : PeerId)
    (e : ends (NoiseTransport * PeerId) (NoiseTransport * PeerId)) : Prop :=
  rests pb (end_a e).1 (end_a e).2 (shared e) ∧ rests pa (end_b e).1 (end_b e).2 (shared e).

(** The exchange of the two loops. *)
Lemma handshake_exchange_in `{C : DynConnection W, D : !Duplex C} ka kb i r pa pb f ca cb w :
  (∀ m, length m ≤ MAX_HANDSHAKE_MSG → sendable m) →
  xx ka kb 0 i r → opening ca cb [] w →
  inevitably_in (at_rest pa pb) joint_step (agreed ka kb pa pb)
    (mkEnds (perform_handshake (2 + f) (mkHandshake i Initiator) pa, ca)
       (perform_handshake (2 + f) (mkHandshake r Responder) pb, cb) w).
Proof.
  intros Hsend H0 Ho. destruct (local_payload_ok pa) as (ba & Ea & Ca & La),
    (local_payload_ok pb) as (bb & Eb & Cb & Lb).
  destruct (xx_initiator_writes _ _ _ _ _ ba H0 (or_introl eq_refl) La)
    as (m1 & i1 & r1 & W1%(write_ok _ _ _ _ Initiator) & R1%(read_ok _ _ _ _ Responder) & H1).
  destruct (xx_responder_writes _ _ _ _ bb H1 Lb)
    as (m2 & i2 & r2 & W2%(write_ok _ _ _ _ Responder) & R2%(read_ok _ _ _ _ Initiator) & H2).
  destruct (xx_initiator_writes _ _ _ _ _ ba H2 (or_intror eq_refl) La)
    as (m3 & i3 & r3 & W3%(write_ok _ _ _ _ Initiator) & R3%(read_ok _ _ _ _ Responder) & H3).
  destruct (into_transport_ok _ _ _ _ H3) as (ta & tb & Ta & Tb & Hs & Sa & Sb).
  destruct (xx_finished _ _ _ _ _ H0) as [Fi0 Fr0], (xx_finished _ _ _ _ _ H1) as [Fi1 Fr1],
    (xx_finished _ _ _ _ _ H2) as [Fi2 Fr2], (xx_finished _ _ _ _ _ H3) as [Fi3 Fr3].
  change (bool_decide (3 ≤ 0)) with false in *. change (bool_decide (3 ≤ 1)) with false in *.
  change (bool_decide (3 ≤ 2)) with false in *. change (bool_decide (3 ≤ 3)) with true in *.
  unfold perform_handshake. cbn [Nat.add].
  rewrite (initiator_step _ _ (mkHandshake i Initiator) _ _ _ _ eq_refl Fi0 Ea W1).
  rewrite (responder_step _ _ (mkHandshake r Responder) _ eq_refl Fr0). cbn [try].
  unfold is_finished at 1. cbn [hs_state]. rewrite Fi1.
  apply (first_message_step (D := D) _ _); [done|done|by eapply Hsend, write_message_fits|clear ca cb w Ho|done|].
  2:{ intros ca' w' Ho'. cbn. run_io. by rewrite (opening_wait_reply _ _ _ _ _ Ho'). }
  intros ca cb w Hl. cbn [try]. rewrite R1. cbn [try]. rewrite Ca. cbn [try].
  unfold is_finished at 1. cbn [hs_state]. rewrite Fr1, Eb. cbn [try]. rewrite W2. cbn [try].
  apply (reply_step (D := D) _ _); [done|done|by eapply Hsend, write_message_fits|clear ca cb w Hl|..].
  2:{ intros cb' w' _. cbn [try].
      by rewrite (responder_step _ _ (mkHandshake r2 Responder) _ eq_refl Fr2). }
  2:{ intros cb' w' Hl'. cbn [try].
      rewrite (responder_step _ _ (mkHandshake r2 Responder) _ eq_refl Fr2). cbn.
      run_io. by rewrite (linked_wait _ _ _ _ (linked_sym _ _ _ _ _ Hl')). }
  intros ca cb w Hl. cbn [try]. rewrite R2. cbn [try]. rewrite Cb. cbn [try].
  rewrite (initiator_step _ _ (mkHandshake i2 Initiator) _ _ _ _ eq_refl Fi2 Ea W3). cbn [try].
  unfold is_finished at 1. cbn [hs_state]. rewrite Fi3, (finish_ok _ _ _ Ta).
  rewrite (responder_step _ _ (mkHandshake r2 Responder) _ eq_refl Fr2).
  apply (message_step (D := D) _ _); [done|done|by eapply Hsend, write_message_fits|clear ca cb w Hl| |done].
  2:{ intros ca' w' Hl'. split; [|done]. split; [done|]. intros r' [= <-]. cbn.
      split; [by eexists|]. by apply (linked_wait _ _ _ _ Hl'). }
  intros ca cb w Hl. cbn [try]. rewrite R3. cbn [try]. rewrite Ca. cbn [try].
  unfold is_finished at 1. cbn [hs_state]. rewrite Fr3, (finish_ok _ _ _ Tb).
  apply inin_here; [|by exists ta, tb, ca, cb, w].
  split; (split; [done|]); intros r' [= <-]; cbn; (split; [by eexists|]).
  - by apply (linked_wait _ _ _ _ Hl).
  - by apply (linked_wait _ _ _ _ (linked_sym _ _ _ _ _ Hl)).
Qed.

Lemma handshake_exchange `{C : DynConnection W, D : !Duplex C} ka kb i r pa pb f ca cb w :
  (∀ m, length m ≤ MAX_HANDSHAKE_MSG → sendable m) →
  xx ka kb 0 i r → opening ca cb [] w →
  inevitably joint_step (agreed ka kb pa pb)
    (mkEnds (perform_handshake (2 + f) (mkHandshake i Initiator) pa, ca)
       (perform_handshake (2 + f) (mkHandshake r Responder) pb, cb) w).
Proof. intros. eapply inevitably_in_out. by apply handshake_exchange_in. Qed.

(** C5: The handshake succeeds and both ends agree.  Two nodes with any keys and peer
    ids run [perform_handshake] in the two roles on the two ends of a new connection, of
    any transport that keeps the promise of [Duplex] and carries messages of up to 64 KiB
    (and the encoded payload, a version and a peer id, fits a handshake message).  However
    their calls interleave,
    both return, within two rounds of their loops: each learns the peer id the other
    presented and the static key the other holds, their transports are in step, so that
    messages either side encrypts decrypt on the other, and no handshake message is left
    on the connection. *)
Theorem handshake_agreement `{C : DynConnection W, D : !Duplex C} ka kb pa pb f ca cb w :
  (∀ m, length m ≤ MAX_HANDSHAKE_MSG → sendable m) → opening ca cb [] w →
  ∃ ha hb,
    with_keypair Initiator ka = Ok ha ∧ with_keypair Responder kb = Ok hb ∧
    inevitably joint_step (agreed ka kb pa pb)
      (mkEnds (perform_handshake (2 + f) ha pa, ca) (perform_handshake (2 + f) hb pb, cb) w).
Proof.
  intros Hs Ho. destruct (with_keypair_ok ka kb) as (i & r & Ei & Er & Hxx).
  exists (mkHandshake i Initiator), (mkHandshake r Responder).
  split_and!; [done|done|by apply handshake_exchange].
Qed.

(** The presented peer id is not tied to the key.  A node with one static key can
    complete the handshake under any peer id: with the same two keys the responder ends
    with whatever id the initiator presents, and the same authenticated static key. *)
Theorem handshake_identity_unchecked `{C : DynConnection W, D : !Duplex C} ka kb pb ca cb w :
  (∀ m, length m ≤ MAX_HANDSHAKE_MSG → sendable m) → opening ca cb [] w →
  ∃ ha hb,
    with_keypair Initiator ka = Ok ha ∧ with_keypair Responder kb = Ok hb ∧
    ∀ victim, inevitably joint_step
      (λ e, ∃ tb, (end_b e).1 = Ret (Ok (tb, victim)) ∧
         remote_static_key tb = Some (static_public ka))
      (mkEnds (perform_handshake 2 ha victim, ca) (perform_handshake 2 hb pb, cb) w).
Proof.
  intros Hs Ho. destruct (with_keypair_ok ka kb) as (i & r & Ei & Er & Hxx).
  exists (mkHandshake i Initiator), (mkHandshake r Responder). split_and!; [done|done|].
  intros victim. eapply inevitably_weaken; [|by apply (handshake_exchange ka kb i r victim pb 0)].
  intros e (ta & tb & ca' & cb' & w' & -> & _ & _ & _ & Sb). by exists tb.
Qed.

(** C39: An incompatible or garbled peer is turned away.  Whatever the first message of an
    initiator decrypts to, the responder ends with an error and sends nothing unless
    it is a handshake payload with the same major version; a mismatch is reported
    with both versions; a closed connection and a failed read are errors. *)
Theorem handshake_rejects f local h incoming payload h' :
  hs_role h = Responder → is_finished h = false →
  read_message incoming h = (Ok payload, h') →
  ∃ k, perform_handshake (S f) h local = Recv k ∧
    k (Ok None) = Ret (Err (Handshake "closed during handshake")) ∧
    (∀ err, k (Err err) = Ret (Err err)) ∧
    (∀ err, deserialize (A := HandshakePayload) payload = inl err →
       k (Ok (Some incoming)) = Ret (Err (Serialization ("handshake payload: " +:+ err)))) ∧
    (∀ v p, deserialize payload = inr (mkPayload v p) → major v ≠ major CURRENT →
       k (Ok (Some incoming)) =
         Ret (Err (ProtocolMismatch (version_to_string CURRENT) (version_to_string v)))).
Proof.
  intros Hr Hf Hread. unfold perform_handshake. rewrite (responder_step f local h None Hr Hf).
  unfold recv_message. eexists. split_and!; [done|done|done| |].
  - intros err Ed. cbn [try]. rewrite Hread. cbn [try]. unfold check_payload. by rewrite Ed.
  - intros v p Ed Hv. cbn [try]. rewrite Hread. cbn [try]. unfold check_payload. rewrite Ed.
    cbn [of_lib mbind result_bind hp_version]. unfold is_compatible_with.
    by rewrite bool_decide_false by congruence.
Qed.

End handshake_facts.

(** ** A toy payload codec, for the witnesses *)

#[local] Existing Instance toy_snow.
#[local] Existing Instance toy_snow_laws.

#[local] Instance toy_payload : Bincode HandshakePayload := {|
  serialize p := inr (vec_to_list (peer_bytes (hp_peer_id p)) ++
    bits_of_pos (encode (major (hp_version p), minor (hp_version p), patch (hp_version p))));
  deserialize l :=
    match array_of_list 32 (take 32 l),
          decode (A := Z * Z * Z) (pos_of_bits (drop 32 l)) with
    | Some id, Some (a, b, c) => inr (mkPayload (mkVersion a b c) (mkPeerId id))
    | _, _ => inl "eof"%string
    end;
|}.

#[local] Instance toy_payload_laws : BincodeLaws toy_payload.
Proof.
  split; [by eexists|]. intros [[a b c] [id]] bs [= <-]. cbn [deserialize toy_payload].
  destruct (toy_read id (bits_of_pos (encode (a, b, c)))) as [Ea Ed].
  cbn [hp_peer_id hp_version peer_bytes major minor patch]. rewrite Ea, Ed.
  by rewrite pos_of_bits_of_pos, decode_encode.
Qed.

Lemma toy_payload_small id bs :
  serialize (mkPayload CURRENT id) = inr bs → (Z.of_nat (length bs) ≤ 65439)%Z.
Proof.
  intros [= <-]. rewrite length_app, length_vec_to_list. vm_compute. discriminate.
Qed.

(** The two ends of a new mock connection. *)
Definition toy_ca : MockConnection := mkMockConn unbound_addr unbound_addr 0 1 true.
Definition toy_cb : MockConnection := mkMockConn unbound_addr unbound_addr 1 0 true.
Definition toy_world : MockWorld := (byte_channel (byte_channel world_new).2).2.

Lemma toy_opening : opening toy_ca toy_cb [] toy_world.
Proof. by split_and!. Qed.

Lemma handshake_agreement_witness :
  ∃ ha hb,
    with_keypair Initiator (vreplicate 32 Byte.x01) = Ok ha ∧
    with_keypair Responder (vreplicate 32 Byte.x02) = Ok hb ∧
    inevitably joint_step
      (agreed (vreplicate 32 Byte.x01) (vreplicate 32 Byte.x02)
         (mkPeerId (vreplicate 32 Byte.x03)) (mkPeerId (vreplicate 32 Byte.x04)))
      (mkEnds (perform_handshake 2 ha (mkPeerId (vreplicate 32 Byte.x03)), toy_ca)
         (perform_handshake 2 hb (mkPeerId (vreplicate 32 Byte.x04)), toy_cb) toy_world).
Proof.
  apply (handshake_agreement (C := mock_connection) toy_payload_small _ _ _ _ 0);
    [intros m _; exact I|exact toy_opening].
Defined.

(** A connection whose other end sends the same bytes for ever. *)
Definition echo_connection : DynConnection unit := {|
  conn := list byte;
  conn_send _ c w := Some (Ok tt, c, w);
  conn_recv c w := Some (Ok (Some c), c, w);
  conn_close c w := Some (Ok tt, c, w);
  conn_drop _ w := w;
  conn_remote_addr _ := unbound_addr;
  conn_is_connected _ _ := true;
|}.

Lemma handshake_terminates_witness :
  ∃ r c' w', run (C := echo_connection)
    (perform_handshake 2 (mkHandshake (vreplicate 32 Byte.x02, 0, None) Responder)
       (mkPeerId (vreplicate 32 Byte.x04))) (replicate 7 Byte.x2a) tt = Some (Some r, c', w').
Proof.
  apply (handshake_terminates (C := echo_connection) Responder (vreplicate 32 Byte.x02) _ _ 0).
  - reflexivity.
  - intros c w. split; [intros m|]; eexists; reflexivity.
Defined.

Lemma handshake_identity_unchecked_witness :
  ∃ ha hb,
    with_keypair Initiator (vreplicate 32 Byte.x01) = Ok ha ∧
    with_keypair Responder (vreplicate 32 Byte.x02) = Ok hb ∧
    ∀ victim, inevitably joint_step
      (λ e, ∃ tb, (end_b e).1 = Ret (Ok (tb, victim)) ∧
         remote_static_key tb = Some (static_public (vreplicate 32 Byte.x01)))
      (mkEnds (perform_handshake 2 ha victim, toy_ca)
         (perform_handshake 2 hb (mkPeerId (vreplicate 32 Byte.x04)), toy_cb) toy_world).
Proof.
  apply (handshake_identity_unchecked (C := mock_connection) toy_payload_small
    (vreplicate 32 Byte.x01) (vreplicate 32 Byte.x02) _ toy_ca toy_cb toy_world);
    [intros m _; exact I|exact toy_opening].
Defined.

Lemma handshake_rejects_witness :
  let h := mkHandshake (vreplicate 32 Byte.x02, 0, None) Responder in
  ∃ k, perform_handshake 1 h (mkPeerId (vreplicate 32 Byte.x04)) = Recv k ∧
    k (Ok None) = Ret (Err (Handshake "closed during handshake")).
Proof.
  intros h.
  destruct (handshake_rejects 0 (mkPeerId (vreplicate 32 Byte.x04)) h [] []
    (read_message [] h).2) as (k & E & H & _); [reflexivity..|].
  exists k. split; assumption.
Defined.
