(* ===== verification/Wire.v ===== *)
(** * omnimesh-sdk: wire packets ([sdk/src/lib.rs])

    The packet format, the packets a node builds (data, ping, gossip) and
    [handle_wire_packet], which decrypts a packet and dispatches it to a service, the
    router or a reply.  The handler is a function on the state it can touch: the
    session's Noise transport, the router, and the log of what services were handed. *)

From S2P Require Import Prelude Float64 Error Types Metrics Graph Router Services Noise.

(** [b"OMSH"] *)
Definition MAGIC : vec byte 4 := [# Byte.x4f; Byte.x4d; Byte.x53; Byte.x48].

Record WirePacket := mkPacket {
  magic : vec byte 4;
  version : vec byte 3;
  packet_type : byte;
  payload : list byte;
}.

Record ServicePayload := mkService { service_id : string; service_payload : list byte }.

Section wire.
Context `{SN : Snow, BP : Bincode WirePacket, BS : Bincode ServicePayload,
          BU : Bincode LinkStateUpdate, BT : Bincode N}.

(** What [handle_wire_packet] may change: the transport of the session, the router,
    and what the services were handed so far. *)
Record WireState := mkWire {
  w_transport : NoiseTransport;
  w_router : Router;
  w_delivered : list (string * PeerId * list byte);
}.

(** The registered services: the outcome of [handle_message] for each. *)
Abbreviation services := (gmap string (PeerId → list byte → Result unit)).

Definition make_packet (packet_type : Z) (payload : list byte) : WirePacket :=
  mkPacket MAGIC [# Byte.x00; Byte.x01; Byte.x00] (byte_of_Z packet_type) payload.

(** Encrypt a plaintext and wrap it; every sender of the SDK ends with this. *)
Definition seal_packet (ptype : Z) (plain : list byte) (t : NoiseTransport)
    : Result (list byte) * NoiseTransport :=
  let '(encrypted, t) := noise_encrypt plain t in
  attempt encrypted t (λ encrypted,
  attempt (serialize_unwrap (make_packet ptype encrypted)) t (λ wire_bytes,
  (Ok wire_bytes, t))).

(** [send_to_peer], once the session is found. *)
Definition seal_data (id : string) (data : list byte) (t : NoiseTransport)
    : Result (list byte) * NoiseTransport :=
  attempt (serialize_unwrap (mkService id data)) t (λ plain_bytes, seal_packet 2 plain_bytes t).

(** The ping of [run_probing_loop]; the time is a [u64]. *)
Definition seal_ping (now_ms : N) (t : NoiseTransport) : Result (list byte) * NoiseTransport :=
  attempt (serialize_unwrap now_ms) t (λ payload, seal_packet 6 payload t).

(** The update of [run_gossip_loop]. *)
Definition seal_gossip (update : LinkStateUpdate) (t : NoiseTransport)
    : Result (list byte) * NoiseTransport :=
  attempt (serialize_unwrap update) t (λ payload, seal_packet 3 payload t).

Definition with_transport (t : NoiseTransport) (s : WireState) : WireState :=
  mkWire t (w_router s) (w_delivered s).

Definition with_router (r : Router) (s : WireState) : WireState :=
  mkWire (w_transport s) r (w_delivered s).

(** [as_millis() as u64] of the time since the epoch. *)
Definition now_u64 (now_ms : option Z) : Z := (default 0 now_ms mod 2 ^ 64)%Z.

Definition handle_data (from : PeerId) (svcs : services) (decrypted : list byte) (s : WireState)
    : Result (option (list byte)) * WireState :=
  attempt (of_lib (λ e, Serialization ("service payload deserialize: " +:+ e))
             (deserialize decrypted)) s (λ sp,
  match svcs !! service_id sp with
  | Some service =>
      let s := mkWire (w_transport s) (w_router s)
                 (w_delivered s ++ [(service_id sp, from, service_payload sp)]) in
      attempt (service from (service_payload sp)) s (λ _, (Ok None, s))
  | None => (Ok None, s)
  end).

Definition handle_gossip (decrypted : list byte) (s : WireState)
    : Result (option (list byte)) * WireState :=
  match deserialize decrypted with
  | inr update => (Ok None, with_router (process_link_state_update update (w_router s)).2 s)
  | inl _ => (Ok None, s)
  end.

Definition handle_ping (decrypted : list byte) (s : WireState)
    : Result (option (list byte)) * WireState :=
  let '(encrypted, t) := noise_encrypt decrypted (w_transport s) in
  let s := with_transport t s in
  attempt encrypted s (λ encrypted,
  attempt (serialize_unwrap (make_packet 7 encrypted)) s (λ wire_bytes,
  (Ok (Some wire_bytes), s))).

Definition handle_pong (from : PeerId) (now_ms : option Z) (decrypted : list byte)
    (s : WireState) : Result (option (list byte)) * WireState :=
  match deserialize (A := N) decrypted with
  | inr sent_time_ms =>
      let sent_time_ms := Z.of_N sent_time_ms in
      let now_ms := now_u64 now_ms in
      if decide (sent_time_ms ≤ now_ms)%Z then
        let rtt := f64_of_Z (now_ms - sent_time_ms) in
        (Ok None, with_router (router_record_latency from rtt (w_router s)) s)
      else (Ok None, s)
  | inl _ => (Ok None, s)
  end.

(** Decrypt the payload, then go on. *)
Definition decrypted_then (packet : WirePacket) (s : WireState)
    (k : list byte → WireState → Result (option (list byte)) * WireState)
    : Result (option (list byte)) * WireState :=
  let '(decrypted, t) := noise_decrypt (payload packet) (w_transport s) in
  let s := with_transport t s in
  attempt decrypted s (λ decrypted, k decrypted s).

Definition handle_wire_packet (now_ms : option Z) (from : PeerId) (svcs : services)
    (bytes : list byte) (s : WireState) : Result (option (list byte)) * WireState :=
  attempt (of_lib (λ e, Serialization ("packet deserialize: " +:+ e)) (deserialize bytes)) s
    (λ packet : WirePacket,
     if decide (magic packet ≠ MAGIC) then (Err (InvalidPacket "invalid packet magic"), s)
     else if decide (packet_type packet = Byte.x02) then decrypted_then packet s (handle_data from svcs)
     else if decide (packet_type packet = Byte.x03) then decrypted_then packet s handle_gossip
     else if decide (packet_type packet = Byte.x06) then decrypted_then packet s handle_ping
     else if decide (packet_type packet = Byte.x07) then
       decrypted_then packet s (handle_pong from now_ms)
     else (Ok None, s)).

End wire.

(** ** Properties *)

Section wire_facts.
Context `{SN : Snow, L : !SnowLaws SN, BP : Bincode WirePacket, BPL : !BincodeLaws BP,
          BS : Bincode ServicePayload, BSL : !BincodeLaws BS,
          BU : Bincode LinkStateUpdate, BUL : !BincodeLaws BU,
          BT : Bincode N, BTL : !BincodeLaws BT}.

(** A plaintext one Noise message can carry. *)
Definition fits_noise (plain : list byte) : Prop := (Z.of_nat (length plain) ≤ 65519)%Z.

(** Sealing on one side and decrypting on the other. *)
Lemma seal_packet_ok ptype plain a b :
  transports_in_step a b → fits_noise plain →
  ∃ wire ct a' b', seal_packet ptype plain a = (Ok wire, a') ∧
    deserialize wire = inr (make_packet ptype ct) ∧ noise_decrypt ct b = (Ok plain, b') ∧
    transports_in_step a' b'.
Proof.
  intros Hs Hf. destruct (noise_message a b plain Hs Hf) as (ct & a' & b' & Ee & Ed & Hs').
  destruct (serialize_unwrap_ok (make_packet ptype ct)) as (wire & Es & Dw).
  exists wire, ct, a', b'. unfold seal_packet. rewrite Ee. cbn [attempt]. by rewrite Es.
Qed.

(** Handling a sealed packet runs the handler of its type on the plaintext. *)
Lemma handle_sealed now from svcs ptype ct plain b' wire s :
  deserialize wire = inr (make_packet ptype ct) →
  noise_decrypt ct (w_transport s) = (Ok plain, b') →
  (ptype = 2 ∨ ptype = 3 ∨ ptype = 6 ∨ ptype = 7)%Z →
  handle_wire_packet now from svcs wire s =
    (let s := with_transport b' s in
     if decide (ptype = 2)%Z then handle_data from svcs plain s
     else if decide (ptype = 3)%Z then handle_gossip plain s
     else if decide (ptype = 6)%Z then handle_ping plain s
     else if decide (ptype = 7)%Z then handle_pong from now plain s
     else (Ok None, s)).
Proof.
  intros Ed Ec Ht.
  unfold handle_wire_packet. rewrite Ed. cbn [of_lib attempt magic make_packet packet_type].
  rewrite decide_False by (intros H; by apply H). unfold decrypted_then.
  cbn [payload make_packet]. rewrite Ec. cbn [attempt].
  by destruct Ht as [->|[->|[->| ->]]].
Qed.

(** C15: A message reaches the service it is addressed to.  What [send_to_peer] puts on
    the wire for a service, the peer's packet handler decrypts and hands to exactly that
    service, byte for byte and with the sender's id, once; an unregistered service
    drops it silently; a failing service makes the handler fail with its error; and in
    every case the two transports stay in step, so later messages are not affected. *)
Theorem data_reaches_service now from svcs id data plain a s :
  transports_in_step a (w_transport s) →
  serialize (mkService id data) = inr plain → fits_noise plain →
  ∃ wire a' res s',
    seal_data id data a = (Ok wire, a') ∧
    handle_wire_packet now from svcs wire s = (res, s') ∧
    transports_in_step a' (w_transport s') ∧ w_router s' = w_router s ∧
    match svcs !! id with
    | Some service =>
        w_delivered s' = w_delivered s ++ [(id, from, data)] ∧
        res = match service from data with Ok _ => Ok None | Err e => Err e | Panic => Panic end
    | None => w_delivered s' = w_delivered s ∧ res = Ok None
    end.
Proof.
  intros Hs Hser Hf.
  destruct (seal_packet_ok 2 plain a (w_transport s) Hs Hf) as (wire & ct & a' & b' & Es & Ed & Ec & Hs').
  exists wire, a'.
  rewrite (handle_sealed now from svcs 2 ct plain b' wire s Ed Ec) by lia.
  rewrite decide_True by done. unfold handle_data.
  rewrite (deserialize_serialize _ _ Hser). cbn [of_lib attempt service_id service_payload].
  unfold seal_data, serialize_unwrap. rewrite Hser. cbn [attempt]. rewrite Es.
  destruct (svcs !! id) as [service|]; [|by eexists _, _].
  destruct (service from data); cbn [attempt]; by eexists _, _.
Qed.

(** Probing measures the round trip.  A ping sealed at [t0] makes the peer answer with
    one pong and change nothing else; when the pong is handled at [t1 >= t0], exactly the
    latency [t1 - t0] is recorded for that peer, and a clock that went backwards
    records nothing; the transports stay in step throughout. *)
Theorem ping_measures_latency now_b a_id b_id svcs t0 t1 plain sa sb :
  transports_in_step (w_transport sa) (w_transport sb) →
  serialize t0 = inr plain → fits_noise plain → (0 ≤ t1 < 2 ^ 64)%Z →
  ∃ ping ta pong sb' sa',
    seal_ping t0 (w_transport sa) = (Ok ping, ta) ∧
    handle_wire_packet now_b a_id svcs ping sb = (Ok (Some pong), sb') ∧
    w_router sb' = w_router sb ∧ w_delivered sb' = w_delivered sb ∧
    handle_wire_packet (Some t1) b_id svcs pong (with_transport ta sa) = (Ok None, sa') ∧
    w_router sa' = (if decide (Z.of_N t0 ≤ t1)%Z
                    then router_record_latency b_id (f64_of_Z (t1 - Z.of_N t0)) (w_router sa)
                    else w_router sa) ∧
    transports_in_step (w_transport sa') (w_transport sb').
Proof.
  intros Hs Hser Hf Ht1.
  destruct (seal_packet_ok 6 plain (w_transport sa) (w_transport sb) Hs Hf)
    as (ping & ct & ta & tb & Es & Ed & Ec & Hs1).
  destruct (seal_packet_ok 7 plain tb ta (transports_in_step_sym _ _ Hs1) Hf)
    as (pong & ct' & tb' & ta' & Es' & Ed' & Ec' & Hs2).
  assert (Hb : handle_wire_packet now_b a_id svcs ping sb =
    (Ok (Some pong), with_transport tb' (with_transport tb sb))).
  { rewrite (handle_sealed now_b a_id svcs 6 ct plain tb ping sb Ed Ec) by lia.
    rewrite !decide_False by lia. rewrite decide_True by done.
    unfold handle_ping. cbn [w_transport with_transport]. unfold seal_packet in Es'.
    destruct (noise_encrypt plain tb) as [enc t2]. destruct enc as [enc| |]; cbn [attempt] in *; [|done..].
    destruct (serialize_unwrap (make_packet 7 enc)); cbn [attempt] in *; [|done..].
    by injection Es' as -> ->. }
  set (sa1 := with_transport ta sa).
  assert (Ha : handle_wire_packet (Some t1) b_id svcs pong sa1 =
    handle_pong b_id (Some t1) plain (with_transport ta' sa1)).
  { rewrite (handle_sealed (Some t1) b_id svcs 7 ct' plain ta' pong sa1 Ed' Ec') by lia.
    rewrite !decide_False by lia. by rewrite decide_True by done. }
  unfold handle_pong in Ha. rewrite (deserialize_serialize _ _ Hser) in Ha.
  unfold now_u64 in Ha. cbn [default from_option id] in Ha. rewrite Z.mod_small in Ha by lia.
  exists ping, ta, pong, (with_transport tb' (with_transport tb sb)).
  unfold seal_ping, serialize_unwrap. rewrite Hser. cbn [attempt].
  fold sa1. rewrite Ha.
  destruct (decide (Z.of_N t0 ≤ t1)%Z); eexists; split_and!; try done; by apply transports_in_step_sym.
Qed.

(** Gossip packets feed the router.  A link-state update sealed by one node is
    handed by the peer's packet handler to [process_link_state_update] unchanged, and
    touches nothing but the router; the handler's answer does not depend on whether
    the update was new. *)
Theorem gossip_reaches_router now from svcs update plain a s :
  transports_in_step a (w_transport s) →
  serialize update = inr plain → fits_noise plain →
  ∃ wire a' s',
    seal_gossip update a = (Ok wire, a') ∧
    handle_wire_packet now from svcs wire s = (Ok None, s') ∧
    w_router s' = (process_link_state_update update (w_router s)).2 ∧
    w_delivered s' = w_delivered s ∧ transports_in_step a' (w_transport s').
Proof.
  intros Hs Hser Hf.
  destruct (seal_packet_ok 3 plain a (w_transport s) Hs Hf) as (wire & ct & a' & b' & Es & Ed & Ec & Hs').
  exists wire, a'.
  rewrite (handle_sealed now from svcs 3 ct plain b' wire s Ed Ec) by lia.
  rewrite decide_False by lia. rewrite decide_True by done. unfold handle_gossip.
  rewrite (deserialize_serialize _ _ Hser). unfold seal_gossip, serialize_unwrap. rewrite Hser.
  cbn [attempt]. rewrite Es. by eexists.
Qed.

(** The states a handler leaves behind differ from the one it was given in at most one
    place, besides the transport: the router, given an update in [P] or a latency,
    or the log. *)
Definition touches (P : LinkStateUpdate → Prop) (s s' : WireState) : Prop :=
  (w_router s' = w_router s ∧ w_delivered s' = w_delivered s) ∨
  (w_router s' = w_router s ∧ ∃ x, w_delivered s' = w_delivered s ++ [x]) ∨
  (w_delivered s' = w_delivered s ∧
     ((∃ u, P u ∧ w_router s' = (process_link_state_update u (w_router s)).2) ∨
      ∃ p n, (0 ≤ n < 2 ^ 64)%Z ∧ w_router s' = router_record_latency p (f64_of_Z n) (w_router s))).

Lemma handle_data_touches P from svcs plain s : touches P s (handle_data from svcs plain s).2.
Proof.
  unfold handle_data. destruct (deserialize plain) as [|sp]; cbn [of_lib attempt snd]; [by left|].
  destruct (svcs !! service_id sp) as [service|]; [|by left].
  destruct (service from (service_payload sp)); cbn [attempt snd]; right; left; (split; [done|by eexists]).
Qed.

Lemma handle_gossip_touches (P : LinkStateUpdate → Prop) plain s :
  (∀ u, deserialize plain = inr u → P u) → touches P s (handle_gossip plain s).2.
Proof.
  intros HP. unfold handle_gossip. destruct (deserialize plain) as [|u]; [by left|].
  right; right. split; [done|]. left. exists u. by split; [apply HP|].
Qed.

Lemma handle_ping_touches P plain s : touches P s (handle_ping plain s).2.
Proof.
  unfold handle_ping. destruct (noise_encrypt plain (w_transport s)) as [[enc|e|] t];
    cbn [attempt snd]; [|by left..].
  destruct (serialize_unwrap (make_packet 7 enc)); by left.
Qed.

Lemma handle_pong_touches P from now plain s :
  touches P s (handle_pong from now plain s).2.
Proof.
  unfold handle_pong. destruct (deserialize plain) as [|t0]; [by left|].
  cbn zeta. case_decide as Ht; [|by left]. right; right. split; [done|]. right.
  exists from, (now_u64 now - Z.of_N t0)%Z. split; [|done].
  unfold now_u64 in *. pose proof (Z.mod_pos_bound (default 0%Z now) (2 ^ 64) ltac:(lia)). lia.
Qed.

(** The update a gossip packet carries. *)
Definition carries (bytes : list byte) (s : WireState) (u : LinkStateUpdate) : Prop :=
  ∃ p plain t, deserialize bytes = inr p ∧ packet_type p = Byte.x03 ∧
    noise_decrypt (payload p) (w_transport s) = (Ok plain, t) ∧ deserialize plain = inr u.

Lemma handle_touches now from svcs bytes s :
  touches (carries bytes s) s (handle_wire_packet now from svcs bytes s).2.
Proof.
  unfold handle_wire_packet. destruct (deserialize bytes) as [|packet] eqn:Ep;
    cbn [of_lib attempt snd]; [by left|].
  assert (Hk : ∀ k, (∀ plain s,
      touches (λ u, packet_type packet = Byte.x03 ∧ deserialize plain = inr u) s (k plain s).2) →
    touches (carries bytes s) s (decrypted_then packet s k).2).
  { intros k Hk. unfold decrypted_then.
    destruct (noise_decrypt (payload packet) (w_transport s)) as [[plain|e|] t] eqn:Ed;
      cbn [attempt snd]; [|by left..].
    destruct (Hk plain (with_transport t s)) as [H|[H|[Hd [(u & [Ht Hu] & Hr)|H]]]];
      [by left|by right; left|right; right; split; [done|left]|by right; right; split; [|right]].
    exists u. split; [|done]. by exists packet, plain, t. }
  repeat case_decide; try (by left); apply Hk; intros.
  - apply handle_data_touches.
  - by apply handle_gossip_touches.
  - apply handle_ping_touches.
  - apply handle_pong_touches.
Qed.

(** C35: Malformed packets are harmless.  Bytes that are no packet, a wrong magic number and
    an unknown packet type leave the state exactly as it was, the first two with an
    error; a payload that does not decrypt is an error and reaches neither services
    nor the router; and no packet whatever does more than hand one message to one
    service, or give the router one update or one latency between 0 and [2^64] ms. *)
Theorem malformed_packets_harmless now from svcs bytes s :
  (∀ e, deserialize (A := WirePacket) bytes = inl e →
     handle_wire_packet now from svcs bytes s =
       (Err (Serialization ("packet deserialize: " +:+ e)), s)) ∧
  (∀ p, deserialize bytes = inr p → magic p ≠ MAGIC →
     handle_wire_packet now from svcs bytes s = (Err (InvalidPacket "invalid packet magic"), s)) ∧
  (∀ p, deserialize bytes = inr p → magic p = MAGIC →
     ¬ (packet_type p = Byte.x02 ∨ packet_type p = Byte.x03 ∨ packet_type p = Byte.x06 ∨
        packet_type p = Byte.x07) →
     handle_wire_packet now from svcs bytes s = (Ok None, s)) ∧
  (∀ p e t, deserialize bytes = inr p → magic p = MAGIC →
     (packet_type p = Byte.x02 ∨ packet_type p = Byte.x03 ∨ packet_type p = Byte.x06 ∨
        packet_type p = Byte.x07) →
     noise_decrypt (payload p) (w_transport s) = (Err e, t) →
     handle_wire_packet now from svcs bytes s = (Err e, with_transport t s)) ∧
  touches (carries bytes s) s (handle_wire_packet now from svcs bytes s).2.
Proof.
  unfold handle_wire_packet, decrypted_then. split_and!.
  - intros e E. by rewrite E.
  - intros p E Hm. rewrite E. cbn [of_lib attempt]. by rewrite decide_True.
  - intros p E Hm Ht. rewrite E. cbn [of_lib attempt].
    rewrite decide_False by (intros H; by apply H). by rewrite !decide_False by tauto.
  - intros p e t E Hm Ht Ed. rewrite E. cbn [of_lib attempt].
    rewrite decide_False by (intros H; by apply H). rewrite Ed. cbn [attempt].
    by destruct Ht as [->|[->|[->| ->]]].
  - apply handle_touches.
Qed.

(** C36: The wire keeps the router sound.  Whatever packets a node handles, from whatever
    peers, its router stays in the reachable states for which routing is proved correct,
    provided the link-state update a packet carries (if any) is admissible: pongs only
    ever record finite non-negative latencies. *)
Theorem wire_preserves_router admissible local now from svcs bytes s :
  (∀ u, carries bytes s u → admissible u) → router_reachable admissible local (w_router s) →
  router_reachable admissible local (w_router (handle_wire_packet now from svcs bytes s).2).
Proof.
  intros Ha Hr. destruct (handle_touches now from svcs bytes s)
    as [[-> _]|[[-> _]|[_ [(u & Hu & ->)|(p & n & Hn & ->)]]]]; [done|done|by apply rr_gossip; [apply Ha|]|].
  apply rr_latency; [|apply f64_of_Z_finite; lia|done]. apply f64_of_Z_wf. lia.
Qed.

End wire_facts.

(** ** Codecs for the witnesses *)

#[global] Instance f64_eq_dec : EqDecision f64.
Proof. unfold f64. solve_decision. Defined.

#[global] Program Instance f64_countable : Countable f64 :=
  inj_countable'
    (λ x, match x with
          | SpecFloat.S754_zero s => inl (inl s)
          | SpecFloat.S754_infinity s => inl (inr s)
          | SpecFloat.S754_nan => inr (inl tt)
          | SpecFloat.S754_finite s m e => inr (inr (s, m, e))
          end)
    (λ c, match c with
          | inl (inl s) => SpecFloat.S754_zero s
          | inl (inr s) => SpecFloat.S754_infinity s
          | inr (inl _) => SpecFloat.S754_nan
          | inr (inr (s, m, e)) => SpecFloat.S754_finite s m e
          end) _.
Next Obligation. by intros []. Qed.

#[global] Instance LinkMetrics_eq_dec : EqDecision LinkMetrics.
Proof. solve_decision. Defined.

#[global] Program Instance LinkMetrics_countable : Countable LinkMetrics :=
  inj_countable' (λ m, (latency_ms m, bandwidth_kbps m, loss_rate m, relay_cost m))
    (λ t, mkLinkMetrics t.1.1.1 t.1.1.2 t.1.2 t.2) _.
Next Obligation. by intros []. Qed.

#[global] Instance LinkStateUpdate_eq_dec : EqDecision LinkStateUpdate.
Proof. solve_decision. Defined.

#[global] Program Instance LinkStateUpdate_countable : Countable LinkStateUpdate :=
  inj_countable' (λ u, (lsu_source u, lsu_destination u, lsu_metrics u, lsu_sequence u, lsu_timestamp u))
    (λ t, mkUpdate t.1.1.1.1 t.1.1.1.2 t.1.1.2 t.1.2 t.2) _.
Next Obligation. by intros []. Qed.

#[global] Instance WirePacket_eq_dec : EqDecision WirePacket.
Proof. solve_decision. Defined.

#[global] Program Instance WirePacket_countable : Countable WirePacket :=
  inj_countable' (λ p, (magic p, version p, packet_type p, payload p))
    (λ t, mkPacket t.1.1.1 t.1.1.2 t.1.2 t.2) _.
Next Obligation. by intros []. Qed.

#[global] Instance ServicePayload_eq_dec : EqDecision ServicePayload.
Proof. solve_decision. Defined.

#[global] Program Instance ServicePayload_countable : Countable ServicePayload :=
  inj_countable' (λ p, (service_id p, service_payload p)) (λ t, mkService t.1 t.2) _.
Next Obligation. by intros []. Qed.

(** Packets as their bytes, one after another. *)
#[local] Instance packed_packet : Bincode WirePacket := {|
  serialize p := inr (vec_to_list (magic p) ++ vec_to_list (version p) ++ packet_type p :: payload p);
  deserialize bs :=
    match array_of_list 4 (take 4 bs), array_of_list 3 (take 3 (drop 4 bs)), drop 7 bs with
    | Some m, Some v, t :: pl => inr (mkPacket m v t pl)
    | _, _, _ => inl "too short"%string
    end;
|}.

#[local] Instance packed_packet_laws : BincodeLaws packed_packet.
Proof.
  split; [intros p; by eexists|]. intros [m v t pl] bs [= <-]. cbn [deserialize packed_packet].
  cbn [magic version packet_type payload].
  pose proof (length_vec_to_list m) as Hm. pose proof (length_vec_to_list v) as Hv.
  rewrite take_app_length' by done. rewrite drop_app_length' by done. rewrite take_app_length' by done.
  replace (drop 7 (vec_to_list m ++ vec_to_list v ++ t :: pl)) with (t :: pl).
  { by rewrite !array_of_vec. }
  rewrite app_assoc. symmetry. apply drop_app_length'. by rewrite length_app, Hm, Hv.
Qed.

Section wire_witnesses.

#[local] Existing Instance toy_snow.
#[local] Existing Instance toy_snow_laws.
#[local] Existing Instance toy_bincode.
#[local] Existing Instance toy_bincode_laws.

Definition toy_transport : NoiseTransport := mkTransport (N := toy_snow) (0, 0) None.
Definition toy_state : WireState := mkWire toy_transport (router_new (peer Byte.x01)) [].

Lemma data_reaches_service_witness :
  let svcs := {["chat"%string := λ _ _, Ok tt]} in
  ∃ wire a' res s',
    seal_data "chat" [Byte.x41] toy_transport = (Ok wire, a') ∧
    handle_wire_packet None (peer Byte.x02) svcs wire toy_state = (res, s') ∧
    w_delivered s' = [("chat"%string, peer Byte.x02, [Byte.x41])].
Proof.
  intros svcs.
  destruct (data_reaches_service None (peer Byte.x02) svcs "chat" [Byte.x41]
    (bits_of_pos (encode (mkService "chat" [Byte.x41]))) toy_transport toy_state)
    as (wire & a' & res & s' & E1 & E2 & _ & _ & H).
  - split; reflexivity.
  - reflexivity.
  - vm_compute. discriminate.
  - exists wire, a', res, s'. split; [exact E1|]. split; [exact E2|]. apply H.
Defined.

Lemma ping_measures_latency_witness :
  ∃ ping ta pong sb' sa',
    seal_ping 1000 toy_transport = (Ok ping, ta) ∧
    handle_wire_packet None (peer Byte.x01) ∅ ping toy_state = (Ok (Some pong), sb') ∧
    handle_wire_packet (Some 1042%Z) (peer Byte.x02) ∅ pong (with_transport ta toy_state) =
      (Ok None, sa') ∧
    w_router sa' = router_record_latency (peer Byte.x02) (f64_of_Z 42) (router_new (peer Byte.x01)).
Proof.
  destruct (ping_measures_latency None (peer Byte.x01) (peer Byte.x02) ∅ 1000 1042
    (bits_of_pos (encode 1000%N)) toy_state toy_state)
    as (ping & ta & pong & sb' & sa' & E1 & E2 & _ & _ & E3 & E4 & _).
  - split; reflexivity.
  - reflexivity.
  - vm_compute. discriminate.
  - lia.
  - exists ping, ta, pong, sb', sa'. split; [exact E1|]. split; [exact E2|].
    split; [exact E3|exact E4].
Defined.

Lemma gossip_reaches_router_witness :
  let u := mkUpdate (peer Byte.x02) (peer Byte.x03) LinkMetrics_default 1 0 in
  ∃ wire a' s',
    seal_gossip u toy_transport = (Ok wire, a') ∧
    handle_wire_packet None (peer Byte.x02) ∅ wire toy_state = (Ok None, s') ∧
    w_router s' = (process_link_state_update u (router_new (peer Byte.x01))).2.
Proof.
  intros u.
  destruct (gossip_reaches_router None (peer Byte.x02) ∅ u (bits_of_pos (encode u))
    toy_transport toy_state) as (wire & a' & s' & E1 & E2 & E3 & _).
  - split; reflexivity.
  - reflexivity.
  - vm_compute. discriminate.
  - exists wire, a', s'. split; [exact E1|]. split; [exact E2|exact E3].
Defined.

(** An update and a pong, as the peer sends them. *)
Definition toy_update : LinkStateUpdate :=
  mkUpdate (peer Byte.x02) (peer Byte.x03) LinkMetrics_default 1 0.

Definition sealed (r : Result (list byte) * NoiseTransport) : list byte :=
  match r.1 with Ok wire => wire | _ => [] end.

Definition toy_gossip_wire : list byte := sealed (seal_gossip toy_update toy_transport).

Definition toy_pong_wire : list byte :=
  sealed (seal_packet 7 (bits_of_pos (encode 1000%N)) (seal_gossip toy_update toy_transport).2).

Definition toy_gossiped : WireState :=
  (handle_wire_packet None (peer Byte.x02) ∅ toy_gossip_wire toy_state).2.

Lemma toy_gossip_carries v : carries toy_gossip_wire toy_state v → v = toy_update.
Proof.
  intros (p & plain & t & Ep & _ & En & Ev).
  assert (H : match deserialize (A := WirePacket) toy_gossip_wire with
              | inr p => match noise_decrypt (payload p) (w_transport toy_state) with
                         | (Ok plain, _) => deserialize plain = inr toy_update
                         | _ => False
                         end
              | inl _ => False
              end) by (vm_compute; reflexivity).
  rewrite Ep, En, Ev in H. by injection H.
Qed.

Lemma toy_pong_carries v : carries toy_pong_wire toy_gossiped v → False.
Proof.
  intros (p & plain & t & Ep & Ht & _).
  assert (H : match deserialize (A := WirePacket) toy_pong_wire with
              | inr p => packet_type p = Byte.x07 | inl _ => False end) by (vm_compute; reflexivity).
  rewrite Ep, Ht in H. discriminate H.
Qed.

(** The node handles the peer's update, the only admissible one here, and then its pong: the
    link is in the graph, the latency is tracked, and the router is reachable. *)
Lemma wire_preserves_router_witness :
  let s := (handle_wire_packet (Some 1042%Z) (peer Byte.x02) ∅ toy_pong_wire toy_gossiped).2 in
  router_reachable (λ v, v = toy_update) (peer Byte.x01) (w_router s) ∧
  get_link (graph (w_router s)) (peer Byte.x02) (peer Byte.x03) = Some LinkMetrics_default ∧
  is_Some (local_trackers (w_router s) !! peer Byte.x02).
Proof.
  intros s. split; [|split; [vm_compute; reflexivity|vm_compute; by eexists]].
  apply wire_preserves_router; [intros v Hv; destruct (toy_pong_carries v Hv)|].
  apply wire_preserves_router; [exact toy_gossip_carries|apply rr_new].
Defined.

End wire_witnesses.
