(* ===== verification/Config.v ===== *)
(** * omnimesh-core: configuration ([config.rs])

    The configuration records with their defaults, loading and the environment
    overrides.  The process environment, the target platform, the random node name and
    the parser of socket addresses are inputs; the [toml] crate is a parameter. *)

From S2P Require Import Prelude Error Types.

(** A path as the components it was joined from. *)
Abbreviation PathBuf := (list string).

Record NodeConfig := mkNodeConfig {
  nc_name : string;
  nc_data_dir : PathBuf;
  nc_relay_enabled : bool;
  nc_max_connections : nat;
}.

Record TransportConfig := mkTransportConfig {
  tc_listen_addr : SocketAddr;
  tc_bootstrap_nodes : list string;
  tc_connect_timeout_ms : Z;
  tc_keepalive_secs : Z;
}.

Record IdentityConfig := mkIdentityConfig {
  ic_key_path : PathBuf;
  ic_auto_rotate : bool;
  ic_rotation_interval_hours : Z;
}.

Record TelemetryConfig := mkTelemetryConfig {
  tel_log_level : string;
  tel_json_logs : bool;
  tel_metrics_enabled : bool;
  tel_metrics_endpoint : option string;
}.

Record StorageConfig := mkStorageConfig { sc_db_path : PathBuf; sc_max_size_mb : Z }.

Record Config := mkConfig {
  cfg_node : NodeConfig;
  cfg_transport : TransportConfig;
  cfg_identity : IdentityConfig;
  cfg_telemetry : TelemetryConfig;
  cfg_storage : StorageConfig;
}.

(** ** The surroundings *)

Inductive TargetOs := Windows | MacOs | OtherOs.

(** [std::env::var], [cfg!(target_os)], [str::parse::<SocketAddr>], and the text of a
    fresh version-4 UUID. *)
Record Surroundings := mkSurroundings {
  env_var : string → option string;
  target_os : TargetOs;
  parse_socket_addr : string → option SocketAddr;
  uuid_v4 : string;
}.

(** The [toml] crate. *)
Class Toml := {
  toml_from_str : string → string + Config;
  toml_to_string : Config → string + string;
}.

(** ** Defaults *)

Section config.
Context (E : Surroundings).

Definition dirs_default (app : string) : PathBuf :=
  match target_os E with
  | Windows => [default "."%string (env_var E "APPDATA"); app]
  | MacOs => [default "."%string (env_var E "HOME"); "Library"; "Application Support"; app]%string
  | OtherOs => [default "."%string (env_var E "HOME"); ".local"; "share"; app]%string
  end.

Definition default_node_name : Result string :=
  p ← str_prefix 8 (uuid_v4 E); Ok ("omnimesh-" +:+ p).

Definition default_data_dir : PathBuf := dirs_default "omnimesh".
Definition default_max_connections : nat := 256.

Definition default_listen_addr : Result SocketAddr :=
  or_panic (parse_socket_addr E "0.0.0.0:4433").

Definition default_connect_timeout : Z := 10000.
Definition default_keepalive : Z := 15.
Definition default_key_path : PathBuf := dirs_default "omnimesh" ++ ["identity.key"%string].
Definition default_rotation_interval : Z := 720.
Definition default_log_level : string := "info".
Definition default_db_path : PathBuf := dirs_default "omnimesh" ++ ["state.redb"%string].
Definition default_max_db_size : Z := 512.

Definition NodeConfig_default : Result NodeConfig :=
  name ← default_node_name;
  Ok (mkNodeConfig name default_data_dir false default_max_connections).

Definition TransportConfig_default : Result TransportConfig :=
  addr ← default_listen_addr;
  Ok (mkTransportConfig addr [] default_connect_timeout default_keepalive).

Definition IdentityConfig_default : IdentityConfig :=
  mkIdentityConfig default_key_path false default_rotation_interval.

Definition TelemetryConfig_default : TelemetryConfig :=
  mkTelemetryConfig default_log_level false false None.

Definition StorageConfig_default : StorageConfig :=
  mkStorageConfig default_db_path default_max_db_size.

(** [Config::default] *)
Definition Config_default : Result Config :=
  node ← NodeConfig_default;
  transport ← TransportConfig_default;
  Ok (mkConfig node transport IdentityConfig_default TelemetryConfig_default
        StorageConfig_default).

(** ** Loading *)

(** The contents of a file, or why it cannot be read. *)
Definition config_from_file `{Toml} (path : string) (file : string + string) : Result Config :=
  content ← of_lib (λ e, ConfigError ("failed to read config file " +:+ path +:+ ": " +:+ e)) file;
  of_lib (λ e, ConfigError ("invalid config TOML: " +:+ e)) (toml_from_str content).

Definition set_name (val : string) (c : Config) : Config :=
  mkConfig (mkNodeConfig val (nc_data_dir (cfg_node c)) (nc_relay_enabled (cfg_node c))
              (nc_max_connections (cfg_node c)))
    (cfg_transport c) (cfg_identity c) (cfg_telemetry c) (cfg_storage c).

Definition set_listen_addr (addr : SocketAddr) (c : Config) : Config :=
  mkConfig (cfg_node c)
    (mkTransportConfig addr (tc_bootstrap_nodes (cfg_transport c))
       (tc_connect_timeout_ms (cfg_transport c)) (tc_keepalive_secs (cfg_transport c)))
    (cfg_identity c) (cfg_telemetry c) (cfg_storage c).

Definition set_log_level (val : string) (c : Config) : Config :=
  mkConfig (cfg_node c) (cfg_transport c) (cfg_identity c)
    (mkTelemetryConfig val (tel_json_logs (cfg_telemetry c)) (tel_metrics_enabled (cfg_telemetry c))
       (tel_metrics_endpoint (cfg_telemetry c))) (cfg_storage c).

Definition set_data_dir (dir : PathBuf) (c : Config) : Config :=
  mkConfig (mkNodeConfig (nc_name (cfg_node c)) dir (nc_relay_enabled (cfg_node c))
              (nc_max_connections (cfg_node c)))
    (cfg_transport c) (cfg_identity c) (cfg_telemetry c) (cfg_storage c).

Definition apply_env_overrides (c : Config) : Config :=
  let c := match env_var E "OMNIMESH_NODE_NAME" with Some val => set_name val c | None => c end in
  let c := match env_var E "OMNIMESH_TRANSPORT_LISTEN_ADDR" with
           | Some val =>
               match parse_socket_addr E val with
               | Some addr => set_listen_addr addr c
               | None => c
               end
           | None => c
           end in
  let c := match env_var E "OMNIMESH_LOG_LEVEL" with Some val => set_log_level val c | None => c end in
  match env_var E "OMNIMESH_DATA_DIR" with Some val => set_data_dir [val] c | None => c end.

(** [path]: the path given, with its contents when the file exists. *)
Definition config_load `{Toml} (path : option (string * option (string + string)))
    : Result Config :=
  config ← match path with
           | Some (p, Some file) => config_from_file p file
           | _ => Config_default
           end;
  Ok (apply_env_overrides config).

Definition to_toml `{Toml} (c : Config) : Result string :=
  of_lib (λ e, ConfigError ("failed to serialize config: " +:+ e)) (toml_to_string c).

End config.

(** ** Properties *)

(** [base] with the environment's values where it has them. *)
Definition overridden (E : Surroundings) (base : Config) : Config :=
  mkConfig
    (mkNodeConfig
       (default (nc_name (cfg_node base)) (env_var E "OMNIMESH_NODE_NAME"))
       (default (nc_data_dir (cfg_node base)) ((λ v, [v]) <$> env_var E "OMNIMESH_DATA_DIR"))
       (nc_relay_enabled (cfg_node base)) (nc_max_connections (cfg_node base)))
    (mkTransportConfig
       (default (tc_listen_addr (cfg_transport base))
          (env_var E "OMNIMESH_TRANSPORT_LISTEN_ADDR" ≫= parse_socket_addr E))
       (tc_bootstrap_nodes (cfg_transport base)) (tc_connect_timeout_ms (cfg_transport base))
       (tc_keepalive_secs (cfg_transport base)))
    (cfg_identity base)
    (mkTelemetryConfig
       (default (tel_log_level (cfg_telemetry base)) (env_var E "OMNIMESH_LOG_LEVEL"))
       (tel_json_logs (cfg_telemetry base)) (tel_metrics_enabled (cfg_telemetry base))
       (tel_metrics_endpoint (cfg_telemetry base)))
    (cfg_storage base).

Lemma apply_env_overrides_spec E c : apply_env_overrides E c = overridden E c.
Proof.
  destruct c as [[] [] ? [] ?]. unfold apply_env_overrides, overridden.
  destruct (env_var E "OMNIMESH_NODE_NAME"), (env_var E "OMNIMESH_LOG_LEVEL"),
    (env_var E "OMNIMESH_DATA_DIR"), (env_var E "OMNIMESH_TRANSPORT_LISTEN_ADDR") as [v|];
    try destruct (parse_socket_addr E v) eqn:Ep; cbn; rewrite ?Ep; done.
Qed.

(** Configuration sources have the documented priority.  A file that is there is
    used, field by field, except where one of the four environment variables overrides
    its own setting (an unparsable listen address overrides nothing); a file that is
    there but cannot be read or parsed is an error, never a silent default; without a
    file the defaults take its place; and loading does not panic as long as the
    default address parses and a UUID has eight characters. *)
Theorem config_priority `{Toml} E path :
  (∀ p text c, path = Some (p, Some (inr text)) → toml_from_str text = inr c →
     config_load E path = Ok (overridden E c)) ∧
  (∀ p file e, path = Some (p, Some file) →
     (file = inl e ∨ ∃ s, file = inr s ∧ toml_from_str s = inl e) →
     ∃ msg, config_load E path = Err (ConfigError msg)) ∧
  (∀ addr, (∀ p file, path ≠ Some (p, Some file)) →
     parse_socket_addr E "0.0.0.0:4433" = Some addr →
     (8 ≤ String.length (uuid_v4 E))%nat →
     ∃ c, Config_default E = Ok c ∧ config_load E path = Ok (overridden E c) ∧
       tc_listen_addr (cfg_transport c) = addr).
Proof.
  unfold config_load, config_from_file. split_and!.
  - intros p text c -> Hc. cbn. rewrite Hc. cbn. by rewrite apply_env_overrides_spec.
  - intros p file e -> [->|(s & -> & Hs)]; cbn; [by eexists|]. rewrite Hs. by eexists.
  - intros addr Hp Ha Hu.
    assert (∃ c, Config_default E = Ok c ∧ tc_listen_addr (cfg_transport c) = addr) as (c & Hc & Hl).
    { unfold Config_default, NodeConfig_default, TransportConfig_default, default_node_name,
        default_listen_addr, str_prefix. rewrite Ha.
      destruct (le_dec 8 (String.length (uuid_v4 E))) as [Hle|]; [|done].
      rewrite ?decide_True by done. cbn. by eexists. }
    exists c. split_and!; [done| |done].
    rewrite <- (apply_env_overrides_spec E c).
    destruct path as [[p [file|]]|]; [by destruct (Hp p file)|..]; by rewrite Hc.
Qed.

(** ** A setting for the witness *)

Definition toy_toml : Toml := {|
  toml_from_str _ := inl "unused"%string;
  toml_to_string _ := inl "unused"%string;
|}.

Definition toy_surroundings : Surroundings := {|
  env_var v := if decide (v = "OMNIMESH_LOG_LEVEL"%string) then Some "debug"%string else None;
  target_os := OtherOs;
  parse_socket_addr _ := Some (mkSocketAddr (IPv4 (vreplicate 4 Byte.x00)) 4433);
  uuid_v4 := "01234567-89ab";
|}.

Lemma config_priority_witness :
  ∃ c, Config_default toy_surroundings = Ok c ∧
    @config_load toy_surroundings toy_toml None = Ok (overridden toy_surroundings c) ∧
    tel_log_level (cfg_telemetry (overridden toy_surroundings c)) = "debug"%string.
Proof.
  destruct (proj2 (proj2 (@config_priority toy_toml toy_surroundings None))
    (mkSocketAddr (IPv4 (vreplicate 4 Byte.x00)) 4433)) as (c & Hc & Hl & _).
  - discriminate.
  - reflexivity.
  - vm_compute. lia.
  - exists c. split; [exact Hc|]. split; [exact Hl|reflexivity].
Defined.
