(* ===== verification/Telemetry.v ===== *)
(** * omnimesh-core: logging and tracing ([core/src/telemetry.rs])

    [init] installs the process-wide subscriber and [span] opens a span and keeps it open.
    The filter language of [tracing_subscriber::EnvFilter] is a parameter; the global
    default of [tracing] and the spans of its registry are the state. *)

From S2P Require Import Prelude Error Types Config.

(** ** Interface *)

Inductive Level := ERROR | WARN | INFO | DEBUG | TRACE.

#[export] Instance level_eq_dec : EqDecision Level.
Proof. solve_decision. Defined.

(** [EnvFilter]: the strict reading of a directive text, which fails on a malformed
    directive; the lenient one of [EnvFilter::new], which skips such directives; and what
    a filter lets through at a level, for a target. *)
Class EnvFilters := {
  EnvFilter : Type;
  filter_parse : string → option EnvFilter;
  filter_new : string → EnvFilter;
  filter_enabled : EnvFilter → Level → string → bool;
}.

(** ** Operations *)

Section telemetry.
Context `{F : EnvFilters}.

(** [fmt::Subscriber], with what its builder sets. *)
Record Subscriber := mkSubscriber {
  sub_filter : EnvFilter;
  sub_json : bool;
  sub_flatten_event : bool;
  sub_target : bool;
  sub_thread_ids : bool;
  sub_file : bool;
  sub_line_number : bool;
}.

(** A span: its fields, and how many handles to it are left. *)
Record SpanData := mkSpan { span_subsystem : string; span_operation : string; span_handles : nat }.

(** The process: the global default subscriber, its registry of spans by number, and the
    spans entered on this thread, the innermost first. *)
Record Tracing := mkTracing {
  global_default : option Subscriber;
  registry : gmap nat SpanData;
  entered : list nat;
}.

Definition tracing_start : Tracing := mkTracing None ∅ [].

(** [EnvFilter::try_from_default_env()] *)
Definition try_from_default_env (E : Surroundings) : option EnvFilter :=
  s ← env_var E "RUST_LOG"; filter_parse s.

(** [tracing::subscriber::set_global_default]: refused once one is set. *)
Definition set_global_default (s : Subscriber) (g : Tracing) : option Tracing :=
  match global_default g with
  | Some _ => None
  | None => Some (mkTracing (Some s) (registry g) (entered g))
  end.

Definition subscriber_of (filter : EnvFilter) (json : bool) : Subscriber :=
  if json then mkSubscriber filter true true true true true true
  else mkSubscriber filter false false true false false false.

Definition init (E : Surroundings) (log_level : string) (json : bool) (g : Tracing)
    : Result unit * Tracing :=
  let filter := default (filter_new log_level) (try_from_default_env E) in
  match set_global_default (subscriber_of filter json) g with
  | Some g => (Ok tt, g)
  | None => (Panic, g)
  end.

(** The target of the span macro in [telemetry.rs]. *)
Definition span_target : string := "omnimesh_core::telemetry".

(** [span]: the guard is the number of the entered span, or none for a span the filter
    disables.  The handle moves into a leaked box and is never dropped. *)
Definition span (subsystem operation : string) (g : Tracing) : option nat * Tracing :=
  match global_default g with
  | Some s =>
      if filter_enabled (sub_filter s) INFO span_target then
        let id := fresh (dom (registry g)) in
        (Some id, mkTracing (global_default g)
                    (<[id := mkSpan subsystem operation 1]> (registry g)) (id :: entered g))
      else (None, g)
  | None => (None, g)
  end.

(** [Drop for Entered]: the latest entry of that span is left. *)
Fixpoint leave (id : nat) (stack : list nat) : list nat :=
  match stack with
  | [] => []
  | i :: stack => if decide (i = id) then stack else i :: leave id stack
  end.

Definition drop_entered (guard : option nat) (g : Tracing) : Tracing :=
  match guard with
  | Some id => mkTracing (global_default g) (registry g) (leave id (entered g))
  | None => g
  end.

(** ** Properties *)

(** The first call to [init] installs a subscriber in the asked format, whose filter is the
    one of [RUST_LOG] when that is set and well formed and the configured level otherwise;
    every later call panics and leaves the first subscriber in place. *)
Theorem telemetry_init E log_level json g :
  match global_default g with
  | None =>
      let s := subscriber_of (match env_var E "RUST_LOG" ≫= filter_parse with
                              | Some f => f
                              | None => filter_new log_level
                              end) json in
      ∃ g', init E log_level json g = (Ok tt, g') ∧ global_default g' = Some s ∧
        registry g' = registry g ∧ entered g' = entered g ∧
        ∀ E' log_level' json', init E' log_level' json' g' = (Panic, g')
  | Some s => init E log_level json g = (Panic, g)
  end.
Proof.
  destruct g as [[s|] r st]; [done|]. cbn. eexists. split; [reflexivity|]. cbn. done.
Qed.

(** Every span stays registered with its handle, also after its guard is dropped: [n]
    enabled calls leave [n] spans open for the rest of the process. *)
Lemma span_leaks s calls g :
  global_default g = Some s → filter_enabled (sub_filter s) INFO span_target = true →
  let run (g : Tracing) (call : string * string) :=
    let '(guard, g) := span call.1 call.2 g in drop_entered guard g in
  let g' := foldl run g calls in
  size (registry g') = (length calls + size (registry g))%nat ∧ entered g' = entered g.
Proof.
  revert g. induction calls as [|[a b] calls IH]; [done|]. intros g Hg Hs. cbn [foldl fst snd].
  unfold span. rewrite Hg, Hs. cbn [drop_entered global_default registry entered leave].
  rewrite decide_True by done.
  match goal with |- context [foldl _ ?m _] => destruct (IH m) as [E1 E2]; [done..|] end.
  cbn in E1, E2 |- *. unfold span in E1, E2. rewrite E1, E2. split; [|done]. rewrite map_size_insert_None; [lia|].
  apply not_elem_of_dom, is_fresh.
Qed.

End telemetry.
