(* ===== verification/Discovery.v ===== *)
(** * omnimesh-discovery: the discovery service ([key_conv.rs], [service.rs])

    Conversions between OmniMesh and libp2p identities and addresses; starting the service
    and its commands; and the background task, as a step relation: which addresses enter
    the cache and what is asked of the swarm.  [libp2p]'s identities and its swarm are
    parameters; a multiaddress is the sequence of protocols its iterator yields.  The
    contract of the service is [known]: the addresses reported in the last half hour. *)

From S2P Require Import Prelude Error Types Identity Cache Config.

(** ** Identities *)

Class Libp2p := {
  LKeypair : Type;
  LPublicKey : Type;
  LPeerId : Type;
  (** [ed25519::Keypair::try_from_bytes] and the conversion into [identity::Keypair] *)
  keypair_try_from_bytes : vec byte 64 → string + LKeypair;
  (** [ed25519::PublicKey::try_from_bytes] and [identity::PublicKey::from] *)
  public_try_from_bytes : vec byte 32 → string + LPublicKey;
  peer_id_of_public : LPublicKey → LPeerId;
  multihash_code : LPeerId → Z;
  multihash_digest : LPeerId → list byte;
  try_decode_protobuf : list byte → string + LPublicKey;
  try_into_ed25519 : LPublicKey → string + vec byte 32;
}.

(** The peer id of an Ed25519 key, which is short, is the identity multihash of its
    protobuf encoding; larger keys (RSA) are hashed, and nothing is assumed of them. *)
Class Libp2pLaws (P : Libp2p) : Prop := {
  identity_multihash : ∀ b k,
    public_try_from_bytes b = inr k → multihash_code (peer_id_of_public k) = 0%Z;
  protobuf_roundtrip : ∀ b k,
    public_try_from_bytes b = inr k →
    try_decode_protobuf (multihash_digest (peer_id_of_public k)) = inr k;
  ed25519_roundtrip : ∀ b k, public_try_from_bytes b = inr k → try_into_ed25519 k = inr b;
}.

Section key_conv.
Context `{P : Libp2p, D : Ed25519}.

Definition to_libp2p_keypair (keypair : Keypair) : Result LKeypair :=
  let seed := kp_seed keypair in
  let public_bytes := pk_bytes (kp_public_key keypair) in
  raw_bytes ← or_panic (array_of_list 64 (vec_to_list seed ++ vec_to_list public_bytes));
  of_lib (λ e, Error.Identity ("failed to decode libp2p ed25519 keypair: " +:+ e))
    (keypair_try_from_bytes raw_bytes).

Definition to_libp2p_peer_id (peer_id : PeerId) : Result LPeerId :=
  ed_pk ← of_lib (λ e, Error.Identity ("invalid ed25519 public key bytes: " +:+ e))
            (public_try_from_bytes (as_bytes peer_id));
  Ok (peer_id_of_public ed_pk).

Definition from_libp2p_peer_id (peer_id : LPeerId) : Result PeerId :=
  if decide (multihash_code peer_id ≠ 0%Z) then
    Err (Error.Identity ("cannot extract public key from non-identity libp2p PeerId (code: " +:+
                   pretty (multihash_code peer_id) +:+ ")"))
  else
    libp2p_pk ← of_lib (λ e, Error.Identity ("failed to decode libp2p public key protobuf: " +:+ e))
                  (try_decode_protobuf (multihash_digest peer_id));
    ed_pk ← of_lib (λ _, Error.Identity "libp2p public key is not Ed25519") (try_into_ed25519 libp2p_pk);
    Ok (from_bytes ed_pk).

End key_conv.

(** ** Addresses *)

Section addresses.
Context `{P : Libp2p}.

Inductive Protocol :=
| Ip4 (ip : vec byte 4)
| Ip6 (ip : vec byte 16)
| Tcp (port : Z)
| Udp (port : Z)
| P2p (peer_id : LPeerId)
| OtherProtocol (name : string).

Definition Multiaddr : Type := list Protocol.

(** One round of the loop over [addr.iter()]. *)
Definition scan_protocol (acc : option IpAddr * option Z) (proto : Protocol)
    : option IpAddr * option Z :=
  let '(ip, port) := acc in
  match proto with
  | Ip4 ipv4 => (Some (IPv4 ipv4), port)
  | Ip6 ipv6 => (Some (IPv6 ipv6), port)
  | Tcp p => (ip, Some p)
  | Udp p => (ip, Some p)
  | P2p _ | OtherProtocol _ => (ip, port)
  end.

Definition multiaddr_to_socket_addr (addr : Multiaddr) : option SocketAddr :=
  match foldl scan_protocol (None, None) addr with
  | (Some ip, Some port) => Some (mkSocketAddr ip port)
  | _ => None
  end.

Definition socket_addr_to_multiaddr (addr : SocketAddr) : Multiaddr :=
  [match sock_ip addr with IPv4 ip => Ip4 ip | IPv6 ip => Ip6 ip end; Udp (sock_port addr)].

End addresses.

(** ** The background task *)

Inductive DiscoveryCommand := Bootstrap | RegisterLocalAddr (addr : SocketAddr).

Section task.
Context `{P : Libp2p}.

(** The swarm events the task acts on. *)
Inductive SwarmEvent :=
| MdnsDiscovered (found : list (LPeerId * Multiaddr))
| IdentifyReceived (peer_id : LPeerId) (listen_addrs : list Multiaddr)
| GetClosestPeers (peers : list (LPeerId * list Multiaddr))
| OtherEvent.

(** What the task asks of the swarm. *)
Inductive SwarmAction :=
| KadAddAddress (peer_id : LPeerId) (addr : Multiaddr)
| Dial (peer_id : LPeerId)
| KadBootstrap
| AddExternalAddress (addr : Multiaddr).

(** The bootstrap nodes of the configuration seed Kademlia's routing table; [parse] is
    [str::parse::<Multiaddr>].  A node that does not parse, or whose address does not end
    in a peer id, is skipped with a warning. *)
Definition seed_bootstrap (parse : string → option Multiaddr) (bootstrap_nodes : list string)
    : list SwarmAction :=
  concat (map (λ s,
    match parse s with
    | Some multiaddr =>
        match last multiaddr with
        | Some (P2p peer_id) => [KadAddAddress peer_id multiaddr]
        | _ => []
        end
    | None => []
    end) bootstrap_nodes).

(** Cache an address when both it and the peer id convert. *)
Definition cache_found (now : Z) (c : cache) (found : LPeerId * Multiaddr) : cache :=
  match multiaddr_to_socket_addr found.2 with
  | Some addr =>
      match from_libp2p_peer_id found.1 with
      | Ok omni_peer_id => cache_insert now omni_peer_id addr c
      | _ => c
      end
  | None => c
  end.

(** The pairs of peer and address an event reports. *)
Definition reported (e : SwarmEvent) : list (LPeerId * Multiaddr) :=
  match e with
  | MdnsDiscovered found => found
  | IdentifyReceived peer_id addrs => map (pair peer_id) addrs
  | GetClosestPeers peers => concat (map (λ p, map (pair p.1) p.2) peers)
  | OtherEvent => []
  end.

Definition handle_event (now : Z) (e : SwarmEvent) (c : cache) : list SwarmAction * cache :=
  (match e with
   | MdnsDiscovered found =>
       concat (map (λ f, [KadAddAddress f.1 f.2; Dial f.1]) found)
   | IdentifyReceived peer_id addrs => map (KadAddAddress peer_id) addrs
   | GetClosestPeers _ | OtherEvent => []
   end,
   foldl (cache_found now) c (reported e)).

Definition handle_command (cmd : DiscoveryCommand) : list SwarmAction :=
  match cmd with
  | Bootstrap => [KadBootstrap]
  | RegisterLocalAddr addr => [AddExternalAddress (socket_addr_to_multiaddr addr)]
  end.

End task.

(** ** The service *)

(** The [libp2p] swarm: how it is built, what is asked of it, and the events it yields. *)
Class Swarm `(P : Libp2p) := {
  swarm_builder : Type;
  swarm : Type;
  keypair_public : LKeypair → LPublicKey;
  with_tcp : LKeypair → string + swarm_builder;
  (** Kademlia and mDNS for the local peer, and Identify with its protocol version *)
  with_behaviour : LPeerId → string → LPublicKey → swarm_builder → string + swarm;
  parse_multiaddr : string → string + Multiaddr;
  listen_on : Multiaddr → swarm → string + swarm;
  swarm_act : SwarmAction → swarm → swarm;
  (** [select_next_some]; [None] while there is nothing to report *)
  next_event : swarm → option (SwarmEvent * swarm);
}.

Section service.
Context `{P : Libp2p, SW : !Swarm P, D : Ed25519}.

(** The cache, the [mpsc::channel(64)] of commands, the swarm the task owns, and whether
    the task is still there. *)
Record DiscoveryService := mkDiscovery {
  ds_cache : cache;
  ds_commands : list DiscoveryCommand;
  ds_swarm : swarm;
  ds_task : bool;
}.

Definition COMMAND_CAPACITY : nat := 64.

Definition act_all (actions : list SwarmAction) (sw : swarm) : swarm :=
  foldl (λ sw a, swarm_act a sw) sw actions.

(** [cmd_tx.send(cmd).await]: fails when the task is gone, waits while the queue is full. *)
Definition send_command (cmd : DiscoveryCommand) (s : DiscoveryService)
    : option ((string + unit) * DiscoveryService) :=
  if negb (ds_task s) then Some (inl "channel closed"%string, s)
  else if decide (length (ds_commands s) < COMMAND_CAPACITY) then
    Some (inr tt, mkDiscovery (ds_cache s) (ds_commands s ++ [cmd]) (ds_swarm s) (ds_task s))
  else None.

Definition discovery_new (config : Config) (keypair : Keypair) (discovery_port : Z)
    : Result DiscoveryService :=
  libp2p_kp ← to_libp2p_keypair keypair;
  let local_peer_id := peer_id_of_public (keypair_public libp2p_kp) in
  builder ← of_lib (λ e, Discovery ("failed to configure TCP transport: " +:+ e))
              (with_tcp libp2p_kp);
  sw ← of_lib (λ e, Discovery ("failed to construct behaviour: " +:+ e))
         (with_behaviour local_peer_id "/omnimesh/1.0.0" (keypair_public libp2p_kp) builder);
  listen_addr ← of_lib (λ e, Discovery ("invalid listen multiaddr: " +:+ e))
                  (parse_multiaddr ("/ip4/0.0.0.0/tcp/" +:+ pretty discovery_port));
  sw ← of_lib (λ e, Discovery ("failed to listen on discovery port: " +:+ e))
         (listen_on listen_addr sw);
  let parse s := match parse_multiaddr s with inr m => Some m | inl _ => None end in
  let sw := act_all (seed_bootstrap parse (tc_bootstrap_nodes (cfg_transport config))) sw in
  let service := mkDiscovery cache_new [] sw true in
  (** [let _ =]: the outcome is ignored; the queue is empty, so it does not wait *)
  Ok (match send_command Bootstrap service with Some (_, s) => s | None => service end).

Definition discovery_bootstrap (s : DiscoveryService) : option (Result unit * DiscoveryService) :=
  '(r, s) ← send_command Bootstrap s;
  Some (of_lib (λ _, Discovery "failed to send bootstrap command") r, s).

Definition register_local_address (addr : SocketAddr) (s : DiscoveryService)
    : option (Result unit * DiscoveryService) :=
  '(r, s) ← send_command (RegisterLocalAddr addr) s;
  Some (of_lib (λ _, Discovery "failed to send registration command") r, s).

Definition discovery_lookup (now : Z) (s : DiscoveryService) (peer_id : PeerId) : list SocketAddr :=
  cache_lookup now peer_id (ds_cache s).

Definition discovery_all_peers `{I : !MapIter PeerId (list CachedAddress)} (now : Z)
    (s : DiscoveryService) : list (PeerId * list SocketAddr) :=
  all_peers now (ds_cache s).

(** The branches of the task's [select!], at the time [now]. *)
Definition prune_tick (now : Z) (s : DiscoveryService) : DiscoveryService :=
  mkDiscovery (prune now (ds_cache s)) (ds_commands s) (ds_swarm s) (ds_task s).

Definition task_command (s : DiscoveryService) : option DiscoveryService :=
  match ds_commands s with
  | cmd :: q =>
      Some (mkDiscovery (ds_cache s) q (act_all (handle_command cmd) (ds_swarm s)) (ds_task s))
  | [] => None
  end.

Definition task_event (now : Z) (s : DiscoveryService) : option (SwarmEvent * DiscoveryService) :=
  '(e, sw) ← next_event (ds_swarm s);
  let '(actions, c) := handle_event now e (ds_cache s) in
  Some (e, mkDiscovery c (ds_commands s) (act_all actions sw) (ds_task s)).

(** [Drop]: the task is aborted. *)
Definition discovery_drop (s : DiscoveryService) : DiscoveryService :=
  mkDiscovery (ds_cache s) (ds_commands s) (ds_swarm s) false.

(** A run of the service from [s0]: the clock, the events the swarm reported with their
    times, and the state; the task's branches and the callers' commands in any order. *)
Inductive discovery_run (s0 : DiscoveryService)
    : Z → list (Z * SwarmEvent) → DiscoveryService → Prop :=
| run_start now : discovery_run s0 now [] s0
| run_prune now log s now' : discovery_run s0 now log s → (now ≤ now')%Z →
    discovery_run s0 now' log (prune_tick now' s)
| run_command now log s s' now' : discovery_run s0 now log s → (now ≤ now')%Z →
    task_command s = Some s' → discovery_run s0 now' log s'
| run_event now log s e s' now' : discovery_run s0 now log s → (now ≤ now')%Z →
    task_event now' s = Some (e, s') → discovery_run s0 now' (log ++ [(now', e)]) s'
| run_send now log s cmd r s' now' : discovery_run s0 now log s → (now ≤ now')%Z →
    send_command cmd s = Some (r, s') → discovery_run s0 now' log s'.

End service.

(** ** Properties *)

Section discovery_facts.
Context `{P : Libp2p, PL : !Libp2pLaws P}.

Lemma peer_id_roundtrip p l : to_libp2p_peer_id p = Ok l → from_libp2p_peer_id l = Ok p.
Proof.
  unfold to_libp2p_peer_id, from_libp2p_peer_id.
  destruct (public_try_from_bytes (as_bytes p)) as [|k] eqn:E; [done|].
  cbn [of_lib mbind result_bind]. intros [= <-].
  rewrite (identity_multihash _ _ E), (protobuf_roundtrip _ _ E).
  rewrite decide_False by (by intros H; apply H). cbn [of_lib mbind result_bind].
  rewrite (ed25519_roundtrip _ _ E). by destruct p.
Qed.

(** Exactly the well-formed bootstrap nodes are seeded, under the peer id they end in. *)
Lemma seed_bootstrap_spec parse nodes l m :
  KadAddAddress l m ∈ seed_bootstrap parse nodes ↔
    ∃ s, s ∈ nodes ∧ parse s = Some m ∧ last m = Some (P2p l).
Proof.
  unfold seed_bootstrap. rewrite list_elem_of_In, in_concat. setoid_rewrite in_map_iff.
  split.
  - intros (acts & (s & <- & Hs%list_elem_of_In) & Hin). exists s. split; [done|].
    destruct (parse s) as [m'|]; [|done].
    destruct (last m') as [[]|] eqn:E; try done.
    destruct Hin as [[= -> ->]|[]]. done.
  - intros (s & Hs & Hp & Hl). eexists. split; [exists s; split; [done|by apply list_elem_of_In]|].
    rewrite Hp, Hl. by left.
Qed.

Lemma address_roundtrip a : multiaddr_to_socket_addr (socket_addr_to_multiaddr a) = Some a.
Proof. by destruct a as [[ip|ip] port]. Qed.

(** Identities and addresses survive the trip through libp2p.  A peer id that converts
    to libp2p converts back to itself; the address a node advertises for its data port
    reads back as that address at every peer; and converting a foreign peer id never
    panics. *)
Theorem discovery_conversions :
  (∀ p l, to_libp2p_peer_id p = Ok l → from_libp2p_peer_id l = Ok p) ∧
  (∀ a, multiaddr_to_socket_addr (socket_addr_to_multiaddr a) = Some a) ∧
  (∀ l, from_libp2p_peer_id l ≠ Panic).
Proof.
  split_and!; [apply peer_id_roundtrip|apply address_roundtrip|].
  intros l. unfold from_libp2p_peer_id. case_decide; [done|].
  destruct (try_decode_protobuf _) as [|k]; [done|]. cbn. by destruct (try_into_ed25519 k).
Qed.

Lemma cache_found_lookup now t c f p a :
  (now ≤ t < now + DEFAULT_TTL)%Z →
  a ∈ cache_lookup t p (cache_found now c f) ↔
    (a ∈ cache_lookup t p c ∨
     (multiaddr_to_socket_addr f.2 = Some a ∧ from_libp2p_peer_id f.1 = Ok p)).
Proof.
  intros Ht. unfold cache_found.
  destruct (multiaddr_to_socket_addr f.2) as [a'|]; [|split; [by left|by intros [?|[? _]]]].
  destruct (from_libp2p_peer_id f.1) as [p'| |];
    [|split; [by left|by intros [?|[_ ?]]]..].
  unfold cache_insert. rewrite lookup_insert_ttl. rewrite (decide_True (P := t < now + DEFAULT_TTL)%Z) by lia.
  destruct (decide (p = p')) as [->|Hne].
  - rewrite elem_of_app, list_elem_of_filter, list_elem_of_singleton.
    destruct (decide (a = a')) as [->|]; [by intuition|]. split; [intros [[_ ?]|?]; [by left|done]|].
    intros [?|[[= ?] _]]; [by left|done].
  - split; [by left|]. intros [?|[_ [= ?]]]; congruence.
Qed.

(** What one event adds to the answers of the next half hour. *)
Lemma handle_event_lookup now t e c p a :
  (now ≤ t < now + DEFAULT_TTL)%Z →
  a ∈ cache_lookup t p (handle_event now e c).2 ↔
    (a ∈ cache_lookup t p c ∨
     ∃ l m, (l, m) ∈ reported e ∧ multiaddr_to_socket_addr m = Some a ∧
            from_libp2p_peer_id l = Ok p).
Proof.
  intros Ht. unfold handle_event. cbn [snd].
  revert c. induction (reported e) as [|[l m] fs IH]; intros c; cbn [foldl].
  { split; [by left|]. intros [?|(l & m & ?%elem_of_nil & _)]; done. }
  rewrite IH, (cache_found_lookup now t c (l, m) p a Ht). cbn [fst snd].
  split.
  - intros [[?|[? ?]]|(l' & m' & ? & ?)]; [by left|right; exists l, m; split; [left|done]|].
    right. exists l', m'. split; [by right|done].
  - intros [?|(l' & m' & Hin & ? & ?)]; [by left; left|].
    apply elem_of_cons in Hin as [[= -> ->]|Hin]; [by left; right|right; by exists l', m'].
Qed.

(** After that half hour, it has at most refreshed addresses that expired with it. *)
Lemma cache_found_late now t c f p a :
  (now + DEFAULT_TTL ≤ t)%Z → (∀ b, b ∉ cache_lookup t p c) → a ∉ cache_lookup t p (cache_found now c f).
Proof.
  intros Ht Hc. unfold cache_found. destruct (multiaddr_to_socket_addr f.2); [|done].
  destruct (from_libp2p_peer_id f.1); [|done..]. unfold cache_insert. rewrite lookup_insert_ttl.
  case_decide; [subst|done]. rewrite decide_False by lia. rewrite app_nil_r.
  intros [_ Hin]%list_elem_of_filter. by apply (Hc a).
Qed.

Lemma handle_event_late now t e c p :
  (now + DEFAULT_TTL ≤ t)%Z → (∀ b, b ∉ cache_lookup t p c) →
  ∀ a, a ∉ cache_lookup t p (handle_event now e c).2.
Proof.
  intros Ht. unfold handle_event. cbn [snd]. revert c.
  induction (reported e) as [|f fs IH]; intros c Hc a; cbn [foldl]; [by apply Hc|].
  apply IH. intros b. by apply cache_found_late.
Qed.

Lemma handle_event_ok now e c : cache_ok c → cache_ok (handle_event now e c).2.
Proof.
  unfold handle_event. cbn [snd]. revert c. induction (reported e) as [|f fs IH]; intros c Hc; [done|].
  apply IH. unfold cache_found. destruct (multiaddr_to_socket_addr f.2); [|done].
  destruct (from_libp2p_peer_id f.1); [|done..]. by apply insert_ttl_ok.
Qed.

Lemma prune_ok now c : cache_ok c → cache_ok (prune now c).
Proof.
  intros Hc p l. unfold prune. rewrite lookup_omap. destruct (c !! p) as [k|] eqn:E; [|done].
  cbn. unfold prune_entry. case_decide; [done|]. intros [= <-]. by apply NoDup_fmap_filter, (Hc p).
Qed.

(** The contract: the addresses reported for the peer in the half hour before [t]. *)
Definition known (log : list (Z * SwarmEvent)) (t : Z) (p : PeerId) (a : SocketAddr) : Prop :=
  ∃ now e l m, (now, e) ∈ log ∧ (t < now + DEFAULT_TTL)%Z ∧ (l, m) ∈ reported e ∧
    multiaddr_to_socket_addr m = Some a ∧ from_libp2p_peer_id l = Ok p.

Lemma known_snoc log now e t p a :
  known (log ++ [(now, e)]) t p a ↔
    known log t p a ∨ ((t < now + DEFAULT_TTL)%Z ∧ ∃ l m, (l, m) ∈ reported e ∧
      multiaddr_to_socket_addr m = Some a ∧ from_libp2p_peer_id l = Ok p).
Proof.
  unfold known. setoid_rewrite elem_of_app. setoid_rewrite list_elem_of_singleton. split.
  - intros (now' & e' & l & m & [Hin|[= -> ->]] & Ht & Hr); [left|right]; [|eauto].
    by exists now', e', l, m; auto.
  - intros [(now' & e' & l & m & Hin & Hr)|(Ht & l & m & Hr)]; [exists now', e', l, m; auto|].
    exists now, e, l, m. auto.
Qed.

Context {SW : Swarm P} {D : Ed25519}.

Lemma discovery_new_ok config kp port s :
  discovery_new config kp port = Ok s →
  ds_cache s = cache_new ∧ ds_commands s = [Bootstrap] ∧ ds_task s = true.
Proof.
  unfold discovery_new. destruct (to_libp2p_keypair kp) as [lk| |]; [|done..]. cbn [mbind result_bind].
  destruct (with_tcp lk) as [|bd]; [done|]. cbn [of_lib mbind result_bind].
  destruct (with_behaviour _ _ _ bd) as [|sw]; [done|]. cbn [of_lib mbind result_bind].
  destruct (parse_multiaddr _) as [|m]; [done|]. cbn [of_lib mbind result_bind].
  destruct (listen_on m sw) as [|sw']; [done|]. cbn [of_lib mbind result_bind].
  by intros [= <-].
Qed.

Lemma send_command_cache cmd s r s' :
  send_command cmd s = Some (r, s') → ds_cache s' = ds_cache s.
Proof. unfold send_command. repeat case_match; by intros [= _ <-]. Qed.

(** The events are logged in the order of their times. *)
Lemma run_clock s0 now log s :
  discovery_run s0 now log s → Forall (λ x, x.1 ≤ now)%Z log.
Proof.
  assert (Hle : ∀ now now' (log : list (Z * SwarmEvent)), (now ≤ now')%Z →
    Forall (λ x, x.1 ≤ now)%Z log → Forall (λ x, x.1 ≤ now')%Z log).
  { intros n n' l Hn Hf. eapply Forall_impl; [exact Hf|]. cbn. intros x. lia. }
  induction 1 as [|? ? ? ? ? IH|? ? ? ? ? ? IH|? ? ? ? ? ? ? IH|? ? ? ? ? ? ? ? IH]; eauto.
  apply Forall_app. eauto using Forall_cons, Z.le_refl.
Qed.

Lemma run_known s0 now log s :
  discovery_run s0 now log s → ds_cache s0 = cache_new →
  cache_ok (ds_cache s) ∧
  ∀ t, (now ≤ t)%Z → ∀ p a, a ∈ cache_lookup t p (ds_cache s) ↔ known log t p a.
Proof.
  intros Hrun H0. induction Hrun as [now|now log s now' _ [IHo IH] Hn|now log s s' now' _ [IHo IH] Hn E|
    now log s e s' now' Hr [IHo IH] Hn E|now log s cmd r s' now' _ [IHo IH] Hn E].
  - rewrite H0. split; [by intros p l; unfold cache_new; rewrite lookup_empty|]. intros t _ p a.
    unfold cache_lookup, cache_new. rewrite lookup_empty. split; [by intros ?%elem_of_nil|].
    by intros (? & ? & ? & ? & ?%elem_of_nil & _).
  - split; [by apply prune_ok|]. intros t Ht p a. cbn. rewrite prune_lookup by done. apply IH. lia.
  - unfold task_command in E. destruct (ds_commands s); [done|]. injection E as <-.
    split; [done|]. intros t Ht. apply IH. lia.
  - unfold task_event in E. destruct (next_event (ds_swarm s)) as [[e' sw]|]; [|done].
    cbn [mbind option_bind] in E.
    destruct (handle_event now' e' (ds_cache s)) as [acts c] eqn:Ec. injection E as <- <-. cbn [ds_cache].
    assert (Hc : c = (handle_event now' e' (ds_cache s)).2) by by rewrite Ec.
    split; [rewrite Hc; by apply handle_event_ok|]. intros t Ht p a. rewrite known_snoc, Hc.
    destruct (decide (t < now' + DEFAULT_TTL)%Z) as [Hl|Hl].
    + rewrite handle_event_lookup by lia. rewrite IH by lia. tauto.
    + assert (Hno : ∀ b, ¬ known log t p b).
      { intros b (n & e & l & m & Hin & Hlt & _). pose proof (run_clock _ _ _ _ Hr) as Hf.
        rewrite Forall_forall in Hf. apply Hf in Hin. cbn in Hin. lia. }
      split; [|intros [Hk|[? _]]; [by apply Hno in Hk|lia]]. intros Hin. exfalso. revert Hin.
      apply handle_event_late; [lia|]. intros b. rewrite IH by lia. apply Hno.
  - rewrite (send_command_cache _ _ _ _ E). split; [done|]. intros t Ht. apply IH. lia.
Qed.

(** C14: Discovery serves what was reported.  From the start of the service on, through
    every interleaving of swarm events, commands and prunings, a lookup of a peer gives
    exactly the addresses that the swarm reported for it, in a convertible form, within
    the last half hour, each of them once; addresses or peer ids that do not convert are
    skipped without disturbing the others; and [all_peers] lists exactly the peers that
    have such an address. *)
Theorem discovery_serves_recent `{I : !MapIter PeerId (list CachedAddress), !MapIterLaws I}
    config kp port s0 now log s t p :
  discovery_new config kp port = Ok s0 → discovery_run s0 now log s → (now ≤ t)%Z →
  (∀ a, a ∈ discovery_lookup t s p ↔ known log t p a) ∧ NoDup (discovery_lookup t s p) ∧
  (∀ l, (p, l) ∈ discovery_all_peers t s ↔ l = discovery_lookup t s p ∧ l ≠ []).
Proof.
  intros H0%discovery_new_ok Hr Ht. destruct H0 as [H0 _].
  destruct (run_known _ _ _ _ Hr H0) as [Hok Hk]. split_and!.
  - intros a. by apply Hk.
  - unfold discovery_lookup, cache_lookup. destruct (ds_cache s !! p) eqn:E; [|constructor].
    by apply NoDup_fmap_filter, (Hok p).
  - intros l. apply all_peers_lookup.
Qed.

End discovery_facts.

(** ** Witnesses: a peer id that is the key itself *)

Definition key_libp2p : Libp2p := {|
  LKeypair := vec byte 64; LPublicKey := vec byte 32; LPeerId := vec byte 32;
  keypair_try_from_bytes := inr; public_try_from_bytes := inr; peer_id_of_public := id;
  multihash_code := λ _, 0%Z; multihash_digest := vec_to_list;
  try_decode_protobuf := λ bs, match array_of_list 32 bs with
                               | Some k => inr k
                               | None => inl "bad length"%string
                               end;
  try_into_ed25519 := inr |}.

Lemma key_libp2p_laws : Libp2pLaws key_libp2p.
Proof.
  split; cbn; [done| |by intros b k [= ->]].
  intros b k _. by rewrite array_of_vec.
Qed.

Lemma discovery_conversions_witness :
  ∃ p l, to_libp2p_peer_id (P := key_libp2p) p = Ok l ∧
         from_libp2p_peer_id (P := key_libp2p) l = Ok p.
Proof.
  exists (from_bytes (vreplicate 32 Byte.x07)), (vreplicate 32 Byte.x07).
  assert (H : to_libp2p_peer_id (P := key_libp2p) (from_bytes (vreplicate 32 Byte.x07))
              = Ok (vreplicate 32 Byte.x07)) by reflexivity.
  split; [exact H|]. exact (proj1 (discovery_conversions (P := key_libp2p) (PL := key_libp2p_laws)) _ _ H).
Defined.

Definition toy_addr : SocketAddr := mkSocketAddr (IPv4 (vreplicate 4 Byte.x01)) 9000.

Definition toy_event : SwarmEvent (P := key_libp2p) :=
  MdnsDiscovered (P := key_libp2p)
    [(vreplicate 32 Byte.x07, socket_addr_to_multiaddr (P := key_libp2p) toy_addr)].

(** A swarm that reports [toy_event] once for every address that is registered. *)
#[local] Instance toy_swarm : Swarm key_libp2p := {|
  swarm_builder := unit; swarm := nat;
  keypair_public _ := (vreplicate 32 Byte.x00 : LPublicKey (Libp2p := key_libp2p));
  with_tcp _ := inr tt;
  with_behaviour _ _ _ _ := inr 0;
  parse_multiaddr _ := inr [];
  listen_on _ sw := inr sw;
  swarm_act a sw := match a with AddExternalAddress _ => S sw | _ => sw end;
  next_event sw := match sw with S sw => Some (toy_event, sw) | O => None end;
|}.

#[local] Instance toy_ed25519 : Ed25519 := {|
  SigningKey := vec byte 32; VerifyingKey := vec byte 32;
  sk_from_bytes := id; sk_to_bytes := id; verifying_key := id; vk_to_bytes := id;
  vk_from_bytes := inr; sk_sign _ _ := vreplicate 64 Byte.x00; vk_verify _ _ _ := inr tt;
|}.

Definition toy_config : Config :=
  mkConfig (mkNodeConfig "n" [] false 1) (mkTransportConfig toy_addr [] 1 1)
    (mkIdentityConfig [] false 1) (mkTelemetryConfig "info" false false None)
    (mkStorageConfig [] 1).

Definition toy_keypair : Keypair := mkKeypair (D := toy_ed25519) (vreplicate 32 Byte.x01).

Lemma discovery_serves_recent_witness :
  ∃ s0 s, discovery_new (P := key_libp2p) toy_config toy_keypair 0 = Ok s0 ∧
    discovery_run s0 10 [(10%Z, toy_event)] s ∧
    toy_addr ∈ discovery_lookup 100 s (from_bytes (vreplicate 32 Byte.x07)).
Proof.
  destruct (discovery_new (P := key_libp2p) toy_config toy_keypair 0) as [s0| |] eqn:E0;
    [|vm_compute in E0; discriminate E0..].
  pose proof E0 as E0'. vm_compute in E0'. injection E0' as Es0.
  assert (Hrun : ∃ s, discovery_run s0 10 [(10%Z, toy_event)] s).
  { eexists. change [(10%Z, toy_event)] with ([] ++ [(10%Z, toy_event)]).
    eapply (run_event s0 9); [|lia|].
    - eapply (run_command s0 9); [|lia|].
      + eapply (run_command s0 9); [|lia|].
        * eapply (run_send s0 9 _ _ (RegisterLocalAddr toy_addr)); [apply run_start|lia|].
          rewrite <- Es0. vm_compute. reflexivity.
        * vm_compute. reflexivity.
      + vm_compute. reflexivity.
    - vm_compute. reflexivity. }
  destruct Hrun as [s Hrun]. exists s0, s. split; [reflexivity|]. split; [exact Hrun|].
  refine (proj2 (proj1 (discovery_serves_recent (I := default_map_iter)
    (MapIterLaws0 := default_map_iter_laws) toy_config _ 0 s0 10 _ s 100
    (from_bytes (vreplicate 32 Byte.x07)) E0 Hrun _) toy_addr) _).
  - lia.
  - exists 10%Z, toy_event, (vreplicate 32 Byte.x07), (socket_addr_to_multiaddr (P := key_libp2p) toy_addr).
    split_and!; [left|vm_compute; reflexivity|left|reflexivity|reflexivity].
Defined.
