(* ===== verification/Node.v ===== *)
(** * omnimesh-sdk: the node ([OmniMesh] and [OmniMeshBuilder] of [sdk/src/lib.rs])

    Building a node, connecting and accepting, sending, broadcasting, the probing and
    gossip ticks and shutdown, as computations on the node and the world of its transport.
    What the code shares through [Arc]s is shared here: the session table holds handles,
    and the channel and the Noise transport a handle stands for ([SessionCell]) are also
    those of the session's loop (file Session).  A computation is [None] while it waits: for
    the transport's mutex, for a full channel, or for the other end of a connection. *)

From S2P Require Import Prelude Float64 Error Types Metrics Graph Router Transport.
From S2P Require Import Identity Services Noise Handshake Wire Cache Config Discovery.

(** ** Waiting computations *)

(** A step without effect on the world. *)
Definition io_lift {W A} (o : option A) : io W A := λ w,
  match o with Some a => Some (a, w) | None => None end.

(** [attempt] in a computation: a failing step returns early, with the state reached. *)
Definition io_attempt {W E A B S} (r : result E A) (s : S) (k : A → io W (result E B * S))
    : io W (result E B * S) :=
  match r with Ok a => k a | Err e => mret (Err e, s) | Panic => mret (Panic, s) end.

(** ** The state *)

Section node.
Context {W : Type} {C : DynConnection W} {TR : DynTransport C}.
Context `{SN : Snow, D : Ed25519, P : Libp2p, SW : !Swarm P,
          BH : Bincode HandshakePayload, BP : Bincode WirePacket, BS : Bincode ServicePayload,
          BU : Bincode LinkStateUpdate, BT : Bincode N, T : TextCodecs}.

(** What a [Session] refers to: its [mpsc::channel(100)] (the queue, and whether the
    receiver is there) and its Noise transport. *)
Record SessionCell := mkCell {
  cell_queue : list (list byte);
  cell_rx : bool;
  cell_transport : NoiseTransport;
}.

Definition SESSION_CAPACITY : nat := 100.

(** [write_tx.send(bytes).await] *)
Definition cell_send (bytes : list byte) (c : SessionCell)
    : option ((string + unit) * SessionCell) :=
  if negb (cell_rx c) then Some (inl "channel closed"%string, c)
  else if decide (length (cell_queue c) < SESSION_CAPACITY) then
    Some (inr tt, mkCell (cell_queue c ++ [bytes]) true (cell_transport c))
  else None.

Definition cell_set_transport (t : NoiseTransport) (c : SessionCell) : SessionCell :=
  mkCell (cell_queue c) (cell_rx c) t.

(** A background worker: spawned but not subscribed to the shutdown signal yet, running
    (with or without the signal in its receiver), or ended. *)
Inductive Task := Spawned | Running (notified : bool) | Stopped.

Definition notify (t : Task) : Task :=
  match t with Running _ => Running true | t => t end.

(** A running [run_session_loop]: its peer, its connection, the message it is in the middle
    of sending, and whether the shutdown signal is in its receiver. *)
Record SessionLoop := mkLoop {
  loop_peer : PeerId;
  loop_conn : conn;
  loop_sending : option (list byte);
  loop_notified : bool;
}.

(** The node, and its workers.  [sessions] and [session_loops] refer to [cells] by index;
    [transport_held]: the accept worker holds the transport's mutex; [delivered]: what was
    handed to services so far. *)
Record OmniMesh := mkNode {
  node_keypair : Keypair;
  node_peer_id : PeerId;
  node_vip : VirtualIp;
  node_transport : transport;
  transport_held : bool;
  node_discovery : DiscoveryService;
  node_router : Router;
  sessions : gmap PeerId nat;
  cells : list SessionCell;
  session_loops : gmap nat SessionLoop;
  node_services : gmap string (PeerId → list byte → Result unit);
  delivered : list (string * PeerId * list byte);
  accept_task : Task;
  probing_task : Task;
  gossip_task : Task;
  running : bool;
}.

Definition set_transport (tr : transport) (n : OmniMesh) : OmniMesh :=
  mkNode (node_keypair n) (node_peer_id n) (node_vip n) tr (transport_held n) (node_discovery n)
    (node_router n) (sessions n) (cells n) (session_loops n) (node_services n) (delivered n)
    (accept_task n) (probing_task n) (gossip_task n) (running n).

Definition set_accept (held : bool) (t : Task) (n : OmniMesh) : OmniMesh :=
  mkNode (node_keypair n) (node_peer_id n) (node_vip n) (node_transport n) held (node_discovery n)
    (node_router n) (sessions n) (cells n) (session_loops n) (node_services n) (delivered n)
    t (probing_task n) (gossip_task n) (running n).

Definition set_tickers (probing gossip : Task) (n : OmniMesh) : OmniMesh :=
  mkNode (node_keypair n) (node_peer_id n) (node_vip n) (node_transport n) (transport_held n)
    (node_discovery n) (node_router n) (sessions n) (cells n) (session_loops n) (node_services n)
    (delivered n) (accept_task n) probing gossip (running n).

Definition set_discovery (d : DiscoveryService) (n : OmniMesh) : OmniMesh :=
  mkNode (node_keypair n) (node_peer_id n) (node_vip n) (node_transport n) (transport_held n) d
    (node_router n) (sessions n) (cells n) (session_loops n) (node_services n) (delivered n)
    (accept_task n) (probing_task n) (gossip_task n) (running n).

Definition set_router (r : Router) (n : OmniMesh) : OmniMesh :=
  mkNode (node_keypair n) (node_peer_id n) (node_vip n) (node_transport n) (transport_held n)
    (node_discovery n) r (sessions n) (cells n) (session_loops n) (node_services n) (delivered n)
    (accept_task n) (probing_task n) (gossip_task n) (running n).

Definition set_sessions (ss : gmap PeerId nat) (cs : list SessionCell)
    (ls : gmap nat SessionLoop) (n : OmniMesh) : OmniMesh :=
  mkNode (node_keypair n) (node_peer_id n) (node_vip n) (node_transport n) (transport_held n)
    (node_discovery n) (node_router n) ss cs ls (node_services n) (delivered n)
    (accept_task n) (probing_task n) (gossip_task n) (running n).

Definition set_cells (cs : list SessionCell) (n : OmniMesh) : OmniMesh :=
  set_sessions (sessions n) cs (session_loops n) n.

Definition register_service (id : string) (service : PeerId → list byte → Result unit)
    (n : OmniMesh) : OmniMesh :=
  mkNode (node_keypair n) (node_peer_id n) (node_vip n) (node_transport n) (transport_held n)
    (node_discovery n) (node_router n) (sessions n) (cells n) (session_loops n)
    (<[id := service]> (node_services n)) (delivered n)
    (accept_task n) (probing_task n) (gossip_task n) (running n).

(** The cell of the session to a peer. *)
Definition session_cell (n : OmniMesh) (p : PeerId) : option (nat * SessionCell) :=
  i ← sessions n !! p; c ← cells n !! i; Some (i, c).

(** ** Connecting *)

(** [perform_handshake] on a connection.  Two rounds are enough
    ([handshake_terminates]); running out of them is kept apart from every outcome of
    the code by making it a panic. *)
Definition run_handshake (handshake : NoiseHandshake) (local_peer_id : PeerId) (c : conn)
    : io W (Result (NoiseTransport * PeerId) * conn) :=
  '(r, c) ← run (perform_handshake 2 handshake local_peer_id) c; mret (default Panic r, c).

(** A handshake succeeded: enter the session and start its loop.  A session of the same
    peer is replaced in the table. *)
Definition add_session (remote_peer_id : PeerId) (t : NoiseTransport) (c : conn) (n : OmniMesh)
    : OmniMesh :=
  let i := length (cells n) in
  set_sessions (<[remote_peer_id := i]> (sessions n)) (cells n ++ [mkCell [] true t])
    (<[i := mkLoop remote_peer_id c None false]> (session_loops n)) n.

(** A result that leaves the connection behind: it is dropped. *)
Definition abandon {A} (c : conn) (r : Result A) : io W (Result A) := λ w, Some (r, conn_drop c w).

(** Shake hands on a new connection; the connection is dropped when that fails. *)
Definition shake (h : Result NoiseHandshake) (local_peer_id : PeerId) (c : conn)
    : io W (Result (NoiseTransport * PeerId * conn)) :=
  match h with
  | Ok handshake =>
      '(r, c) ← run_handshake handshake local_peer_id c;
      match r with
      | Ok (t, remote_peer_id) => mret (Ok (t, remote_peer_id, c))
      | Err e => abandon c (Err e)
      | Panic => abandon c Panic
      end
  | Err e => abandon c (Err e)
  | Panic => abandon c Panic
  end.

(** Connect the transport and shake hands as the initiator. *)
Definition dial (keypair : Keypair) (local_peer_id : PeerId) (addr : SocketAddr) (tr : transport)
    : io W (Result (NoiseTransport * PeerId * conn) * transport) :=
  '(r, tr) ← transport_connect addr tr;
  io_attempt r tr (λ c,
  r ← shake (with_keypair Initiator (kp_seed keypair)) local_peer_id c;
  mret (r, tr)).

(** [connect_addr] starts with the transport's mutex. *)
Definition connect_addr (addr : SocketAddr) (n : OmniMesh) : io W (Result PeerId * OmniMesh) :=
  if transport_held n then λ _, None
  else
    '(r, tr) ← dial (node_keypair n) (node_peer_id n) addr (node_transport n);
    let n := set_transport tr n in
    io_attempt r n (λ '(t, remote_peer_id, c),
    mret (Ok remote_peer_id, add_session remote_peer_id t c n)).

Fixpoint connect_any (addrs : list SocketAddr) (last_err : option OmniMeshError) (n : OmniMesh)
    : io W (Result unit * OmniMesh) :=
  match addrs with
  | [] => mret (Err (default (Connection "failed to connect to peer addresses") last_err), n)
  | addr :: addrs =>
      '(r, n) ← connect_addr addr n;
      match r with
      | Ok _ => mret (Ok tt, n)
      | Err e => connect_any addrs (Some e) n
      | Panic => mret (Panic, n)
      end
  end.

(** [now]: the time of the lookup. *)
Definition connect_peer (now : Z) (peer : PeerId) (n : OmniMesh) : io W (Result unit * OmniMesh) :=
  if decide (is_Some (sessions n !! peer)) then mret (Ok tt, n)
  else
    let addrs := discovery_lookup now (node_discovery n) peer in
    if decide (addrs = []) then
      mret (Err (Discovery ("no addresses found for peer " +:+ to_hex peer)), n)
    else connect_any addrs None n.

(** One round of [run_accept_loop], in two parts: the worker takes the mutex, and later
    [accept] resolves and the mutex is released; the task that is spawned for the
    connection is run here to the point where its session loop starts.  Failures are
    logged, and a panic ends only that task. *)
Definition accept_lock (n : OmniMesh) : option OmniMesh :=
  match accept_task n with
  | Running _ => if transport_held n then None else Some (set_accept true (accept_task n) n)
  | _ => None
  end.

Definition accept_resolve (n : OmniMesh) : io W OmniMesh :=
  if negb (transport_held n) then λ _, None
  else
    '(r, tr) ← transport_accept (node_transport n);
    let n := set_transport tr (set_accept false (accept_task n) n) in
    match r with
    | Ok c =>
        let h := match with_keypair Responder (kp_seed (node_keypair n)) with
                 | Err _ => Panic | h => h end in
        r ← shake h (kp_to_peer_id (node_keypair n)) c;
        match r with
        | Ok (t, remote_peer_id, c) => mret (add_session remote_peer_id t c n)
        | _ => mret n
        end
    | _ => mret n
    end.

(** ** Sending *)

(** Resolve the target peer, connecting if needed. *)
Definition ensure_session (now : Z) (to : PeerId) (n : OmniMesh) : io W (Result unit * OmniMesh) :=
  if decide (is_Some (sessions n !! to)) then mret (Ok tt, n) else connect_peer now to n.

Definition send_to_peer (now : Z) (to : PeerId) (id : string) (data : list byte) (n : OmniMesh)
    : io W (Result unit * OmniMesh) :=
  '(ready, n) ← ensure_session now to n;
  io_attempt ready n (λ _,
  match session_cell n to with
  | None => mret (Err (Connection ("no active session to peer " +:+ peer_display to)), n)
  | Some (i, c) =>
      let '(wire, t) := seal_data id data (cell_transport c) in
      let c := cell_set_transport t c in
      io_attempt wire (set_cells (<[i := c]> (cells n)) n) (λ wire_bytes,
      '(r, c) ← io_lift (cell_send wire_bytes c);
      mret (of_lib (λ _, Connection "session write channel closed") r,
            set_cells (<[i := c]> (cells n)) n))
  end).

(** The two parts of a send on a session that exists, between which other tasks run: the
    packet is sealed under the transport's mutex, and is queued once the mutex is free. *)
Definition send_seal (to : PeerId) (id : string) (data : list byte) (n : OmniMesh)
    : Result (nat * list byte) * OmniMesh :=
  match session_cell n to with
  | None => (Err (Connection ("no active session to peer " +:+ peer_display to)), n)
  | Some (i, c) =>
      let '(wire, t) := seal_data id data (cell_transport c) in
      (wire_bytes ← wire; Ok (i, wire_bytes), set_cells (<[i := cell_set_transport t c]> (cells n)) n)
  end.

Definition send_queue (i : nat) (wire_bytes : list byte) (n : OmniMesh)
    : option (Result unit * OmniMesh) :=
  match cells n !! i with
  | Some c =>
      '(r, c) ← cell_send wire_bytes c;
      Some (of_lib (λ _, Connection "session write channel closed") r,
            set_cells (<[i := c]> (cells n)) n)
  | None => None
  end.

(** Encrypt for one session and send, ignoring failures of both. *)
Definition post (seal : NoiseTransport → Result (list byte) * NoiseTransport) (c : SessionCell)
    : option SessionCell :=
  let '(wire, t) := seal (cell_transport c) in
  let c := cell_set_transport t c in
  match wire with
  | Ok wire_bytes => '(_, c) ← cell_send wire_bytes c; Some c
  | _ => Some c
  end.

(** [for entry in sessions.iter()]: the entries, in the map's own order. *)
Fixpoint post_entries (seal : NoiseTransport → Result (list byte) * NoiseTransport)
    (entries : list (PeerId * nat)) (cs : list SessionCell) : option (list SessionCell) :=
  match entries with
  | [] => Some cs
  | (_, i) :: entries =>
      match cs !! i with
      | Some c => c ← post seal c; post_entries seal entries (<[i := c]> cs)
      | None => post_entries seal entries cs
      end
  end.

Definition post_all `{I : !MapIter PeerId nat}
    (seal : NoiseTransport → Result (list byte) * NoiseTransport) (n : OmniMesh)
    : option OmniMesh :=
  cs ← post_entries seal (map_iter (sessions n)) (cells n); Some (set_cells cs n).

Definition broadcast_to_peers `{I : !MapIter PeerId nat} (id : string) (data : list byte)
    (n : OmniMesh) : option (Result unit * OmniMesh) :=
  match serialize_unwrap (mkService id data) with
  | Ok plain_bytes => n ← post_all (seal_packet 2 plain_bytes) n; Some (Ok tt, n)
  | Err e => Some (Err e, n)
  | Panic => Some (Panic, n)
  end.

(** [impl MessageSender for OmniMesh]; [now]: the time of the lookups. *)
Definition node_sender `{I : !MapIter PeerId nat} (now : Z) : MessageSender (OmniMesh * W) := {|
  send_message to id data '(n, w) :=
    '(r, n, w) ← send_to_peer now to id data n w; Some (r, (n, w));
  broadcast_message id data '(n, w) :=
    '(r, n) ← broadcast_to_peers id data n; Some (r, (n, w));
|}.

(** One tick of [run_probing_loop]; a panic ends the worker. *)
Definition probing_tick `{I : !MapIter PeerId nat} (now_ms : N) (n : OmniMesh)
    : option (Result unit * OmniMesh) :=
  match serialize_unwrap now_ms with
  | Ok payload => n ← post_all (seal_packet 6 payload) n; Some (Ok tt, n)
  | Err e => Some (Err e, n)
  | Panic => Some (Panic, n)
  end.

(** One tick of [run_gossip_loop]: for every session, an update about that peer goes to
    all sessions. *)
Fixpoint gossip_entries `{I : !MapIter PeerId nat} (now : option Z)
    (entries : list (PeerId * nat)) (n : OmniMesh) : option (Result unit * OmniMesh) :=
  match entries with
  | [] => Some (Ok tt, n)
  | (peer_id, _) :: entries =>
      let '(update, router) := get_link_state_update now peer_id (node_router n) in
      let n := set_router router n in
      match update with
      | Some update =>
          match serialize_unwrap update with
          | Ok payload => n ← post_all (seal_packet 3 payload) n; gossip_entries now entries n
          | Err e => Some (Err e, n)
          | Panic => Some (Panic, n)
          end
      | None => gossip_entries now entries n
      end
  end.

Definition gossip_tick `{I : !MapIter PeerId nat} (now : option Z) (n : OmniMesh)
    : option (Result unit * OmniMesh) :=
  gossip_entries now (map_iter (sessions n)) n.

(** ** Shutdown *)

(** [shutdown] up to the transport's mutex: the running flag, the signal to everybody who
    has subscribed, and the session table.  [None]: the node was shut down before. *)
Definition shutdown_signal (n : OmniMesh) : option OmniMesh :=
  if negb (running n) then None
  else
    Some (mkNode (node_keypair n) (node_peer_id n) (node_vip n) (node_transport n)
            (transport_held n) (node_discovery n) (node_router n) ∅ (cells n)
            ((λ l, mkLoop (loop_peer l) (loop_conn l) (loop_sending l) true) <$> session_loops n)
            (node_services n) (delivered n)
            (notify (accept_task n)) (notify (probing_task n)) (notify (gossip_task n)) false).

(** The rest: the mutex, and the transport. *)
Definition shutdown_transport (n : OmniMesh) : io W (Result unit * OmniMesh) :=
  if transport_held n then λ _, None
  else '(r, tr) ← transport_shutdown (node_transport n); mret (r, set_transport tr n).

(** A worker that finds the signal in its receiver ends; the accept worker sees it only
    while it waits with the mutex, which it gives up. *)
Definition stop (t : Task) : option Task :=
  match t with Running true => Some Stopped | _ => None end.

Definition accept_stop (n : OmniMesh) : option OmniMesh :=
  if transport_held n then t ← stop (accept_task n); Some (set_accept false t n) else None.

(** ** Building *)

Record OmniMeshBuilder := mkBuilder {
  b_config : Config;
  b_keypair : option Keypair;
  b_transport : option transport;
}.

(** [OmniMeshBuilder::new()]: the default configuration, which depends on the
    surroundings. *)
Definition builder_new (E : Surroundings) : Result OmniMeshBuilder :=
  config ← Config_default E; Ok (mkBuilder config None None).

Definition builder_config (config : Config) (b : OmniMeshBuilder) : OmniMeshBuilder :=
  mkBuilder config (b_keypair b) (b_transport b).

Definition builder_keypair (keypair : Keypair) (b : OmniMeshBuilder) : OmniMeshBuilder :=
  mkBuilder (b_config b) (Some keypair) (b_transport b).

Definition builder_transport (tr : transport) (b : OmniMeshBuilder) : OmniMeshBuilder :=
  mkBuilder (b_config b) (b_keypair b) (Some tr).

(** [random]: the bytes a fresh key pair is generated from.  (What dropping a transport
    does to the world, when a later step fails, is not modelled.) *)
Definition build (random : vec byte 32) (b : OmniMeshBuilder) : io W (Result OmniMesh) :=
  let keypair := default (kp_generate random) (b_keypair b) in
  let peer_id := kp_to_peer_id keypair in
  match from_peer_id peer_id, b_transport b with
  | Ok vip, Some tr =>
      '(r, tr) ← transport_listen (tc_listen_addr (cfg_transport (b_config b))) tr;
      match r with
      | Err e => mret (Err e)
      | Panic => mret Panic
      | Ok _ =>
          match discovery_new (b_config b) keypair 0 with
          | Err e => mret (Err e)
          | Panic => mret Panic
          | Ok discovery =>
              discovery ← (match transport_local_addr tr with
                           | Some local_addr =>
                               '(_, d) ← io_lift (register_local_address local_addr discovery);
                               mret d
                           | None => mret discovery
                           end);
              mret (Ok (mkNode keypair peer_id vip tr false discovery (router_new peer_id) ∅ [] ∅
                          ∅ [] (Running false) Spawned Spawned true))
          end
      end
  | Ok vip, None => mret (Err (ConfigError "missing required transport layer configuration"))
  | Err e, _ => mret (Err e)
  | Panic, _ => mret Panic
  end.

End node.

(** ** Well-formedness *)

Section node_facts.
Context {W : Type} {C : DynConnection W} {TR : DynTransport C}.
Context `{SN : Snow, D : Ed25519, P : Libp2p, SW : !Swarm P,
          BH : Bincode HandshakePayload, BP : Bincode WirePacket, BS : Bincode ServicePayload,
          BU : Bincode LinkStateUpdate, BT : Bincode N, T : TextCodecs}.

(** The node's names all derive from its key; the session table is one-to-one into the
    cells; a cell's receiver is there exactly while its loop runs; a session's loop serves
    the peer the session is listed under; no channel is over its capacity; and only a
    running accept worker holds the mutex. *)
Record node_ok (n : OmniMesh) : Prop := {
  ok_id : node_peer_id n = kp_to_peer_id (node_keypair n);
  ok_vip : from_peer_id (node_peer_id n) = Ok (node_vip n);
  ok_router : local_peer_id (node_router n) = node_peer_id n;
  ok_range : ∀ p i, sessions n !! p = Some i → i < length (cells n);
  ok_inj : ∀ p q i, sessions n !! p = Some i → sessions n !! q = Some i → p = q;
  ok_loop : ∀ i, is_Some (session_loops n !! i) ↔ cell_rx <$> cells n !! i = Some true;
  ok_peer : ∀ p i l, sessions n !! p = Some i → session_loops n !! i = Some l → loop_peer l = p;
  ok_queue : Forall (λ c, length (cell_queue c) ≤ SESSION_CAPACITY) (cells n);
  ok_held : transport_held n = true → ∃ b, accept_task n = Running b;
}.

(** Changes to the parts that the invariant does not relate. *)
Lemma set_transport_ok tr n : node_ok n → node_ok (set_transport tr n).
Proof. by intros []; split. Qed.

Lemma set_discovery_ok d n : node_ok n → node_ok (set_discovery d n).
Proof. by intros []; split. Qed.

Lemma set_tickers_ok p g n : node_ok n → node_ok (set_tickers p g n).
Proof. by intros []; split. Qed.

Lemma register_service_ok id svc n : node_ok n → node_ok (register_service id svc n).
Proof. by intros []; split. Qed.

Lemma set_accept_ok held t n :
  node_ok n → (held = true → ∃ b, t = Running b) → node_ok (set_accept held t n).
Proof. by intros []; split. Qed.

Lemma set_router_ok r n :
  node_ok n → local_peer_id r = local_peer_id (node_router n) → node_ok (set_router r n).
Proof. intros [] Hr. split; try done. cbn. congruence. Qed.

(** Cells that keep their receivers. *)
Definition same_rx (cs cs' : list SessionCell) : Prop := cell_rx <$> cs' = cell_rx <$> cs.

Lemma set_cells_ok cs n :
  node_ok n → same_rx (cells n) cs →
  Forall (λ c, length (cell_queue c) ≤ SESSION_CAPACITY) cs → node_ok (set_cells cs n).
Proof.
  intros [] Hrx Hq. assert (Hl : length cs = length (cells n)).
  { apply (f_equal length) in Hrx. by rewrite !length_fmap in Hrx. }
  split; try done; cbn.
  - intros p i Hp. rewrite Hl. by eapply ok_range0.
  - intros i. rewrite ok_loop0, <- !list_lookup_fmap. by rewrite Hrx.
Qed.

Lemma insert_cell_ok i c c' n :
  node_ok n → cells n !! i = Some c → cell_rx c' = cell_rx c →
  length (cell_queue c') ≤ SESSION_CAPACITY → node_ok (set_cells (<[i := c']> (cells n)) n).
Proof.
  intros Hn Hi Hr Hq. apply set_cells_ok; [done| |].
  - unfold same_rx. rewrite list_fmap_insert, Hr. apply list_insert_id. by rewrite list_lookup_fmap, Hi.
  - apply Forall_insert; [apply Hn|done].
Qed.

Lemma cell_send_spec bytes c r c' :
  cell_send bytes c = Some (r, c') →
  cell_rx c' = cell_rx c ∧ cell_transport c' = cell_transport c ∧
  (length (cell_queue c) ≤ SESSION_CAPACITY → length (cell_queue c') ≤ SESSION_CAPACITY).
Proof.
  unfold cell_send. destruct (cell_rx c) eqn:E; cbn [negb]; [|by intros [= <- <-]].
  case_decide; [|done]. intros [= <- <-]. cbn. rewrite length_app. cbn. split_and!; done || lia.
Qed.

Lemma post_spec seal c c' :
  post seal c = Some c' →
  cell_rx c' = cell_rx c ∧
  (length (cell_queue c) ≤ SESSION_CAPACITY → length (cell_queue c') ≤ SESSION_CAPACITY).
Proof.
  unfold post. destruct (seal _) as [[wire| |] t]; [|by intros [= <-]..].
  destruct (cell_send _ _) as [[r c1]|] eqn:E; [|done]. intros [= <-].
  by apply cell_send_spec in E as (? & _ & ?).
Qed.

Lemma add_session_ok p t c n : node_ok n → node_ok (add_session p t c n).
Proof.
  intros []. assert (Hl : session_loops n !! length (cells n) = None).
  { apply eq_None_not_Some. rewrite ok_loop0, lookup_ge_None_2; done. }
  split; try done; cbn.
  - intros q i. rewrite length_app, lookup_insert. cbn.
    case_decide; [intros [= <-]; lia|]. intros Hq%ok_range0. lia.
  - intros q q' i. rewrite !lookup_insert. repeat case_decide; subst; try done.
    + intros [= <-] Hq%ok_range0. lia.
    + intros Hq%ok_range0 [= <-]. lia.
    + apply ok_inj0.
  - intros i. rewrite lookup_insert. case_decide as Hi.
    + subst i. rewrite lookup_app_r, Nat.sub_diag by lia. cbn. split; [done|by eexists].
    + rewrite ok_loop0. destruct (decide (i < length (cells n))) as [H|H].
      * by rewrite lookup_app_l.
      * rewrite lookup_app_r, (lookup_ge_None_2 (cells n)) by lia.
        by rewrite (lookup_ge_None_2 [_]) by (cbn; lia).
  - intros q i l. rewrite !lookup_insert. repeat case_decide; subst; try done.
    + by intros _ [= <-].
    + intros [= <-]. done.
    + intros Hq%ok_range0. lia.
    + apply ok_peer0.
  - apply Forall_app. split; [done|]. apply Forall_singleton. cbn. unfold SESSION_CAPACITY. lia.
Qed.

Lemma connect_addr_ok addr n w r n' w' :
  node_ok n → connect_addr addr n w = Some (r, n', w') → node_ok n'.
Proof.
  intros Hn. unfold connect_addr. destruct (transport_held n); [done|].
  run_io. destruct (dial _ _ _ _ w) as [[[[[[t p] c]| |] tr] w1]|]; [| | |done];
    intros [= <- <- <-]; [|by apply set_transport_ok..]. by apply add_session_ok, set_transport_ok.
Qed.

Lemma connect_any_ok addrs : ∀ e n w r n' w',
  node_ok n → connect_any addrs e n w = Some (r, n', w') → node_ok n'.
Proof.
  induction addrs as [|a addrs IH]; intros e n w r n' w' Hn; cbn [connect_any].
  { by intros [= _ <- _]. }
  run_io. destruct (connect_addr a n w) as [[[[x|x|] n1] w1]|] eqn:E; [| | |done];
    apply (connect_addr_ok _ _ _ _ _ _ Hn) in E; [by intros [= _ <- _]|by apply IH|by intros [= _ <- _]].
Qed.

Lemma connect_peer_ok now peer n w r n' w' :
  node_ok n → connect_peer now peer n w = Some (r, n', w') → node_ok n'.
Proof.
  intros Hn. unfold connect_peer. repeat case_decide; [by intros [= _ <- _]..|by apply connect_any_ok].
Qed.

Lemma accept_resolve_ok n w n' w' :
  node_ok n → accept_resolve n w = Some (n', w') → node_ok n'.
Proof.
  intros Hn. unfold accept_resolve. destruct (transport_held n); [|done]. cbn [negb].
  run_io. destruct (transport_accept (node_transport n) w) as [[[[c| |] tr] w1]|]; [| | |done].
  2-3: intros [= <- _]; by apply set_transport_ok, set_accept_ok.
  destruct (shake _ _ _ w1) as [[[[[t p] c']| |] w2]|]; [| | |done]; intros [= <- _];
    [apply add_session_ok|..]; by apply set_transport_ok, set_accept_ok.
Qed.

Lemma accept_lock_ok n n' : node_ok n → accept_lock n = Some n' → node_ok n'.
Proof.
  intros Hn. unfold accept_lock. destruct (accept_task n) as [|b|] eqn:E; try done.
  destruct (transport_held n); [done|]. intros [= <-]. apply set_accept_ok; [done|by eexists].
Qed.

Lemma accept_stop_ok n n' : node_ok n → accept_stop n = Some n' → node_ok n'.
Proof.
  intros Hn. unfold accept_stop. destruct (transport_held n); [|done]. destruct (stop _); [|done]. intros [= <-]. by apply set_accept_ok.
Qed.

Lemma session_cell_Some n p i c :
  session_cell n p = Some (i, c) ↔ sessions n !! p = Some i ∧ cells n !! i = Some c.
Proof.
  unfold session_cell. destruct (sessions n !! p) as [j|]; cbn; [|by split; [|intros []]].
  destruct (cells n !! j) eqn:E; cbn; split.
  - by intros [= <- <-].
  - intros [[= <-] ?]. congruence.
  - done.
  - intros [[= <-] ?]. congruence.
Qed.

Lemma queue_ok n i c : node_ok n → cells n !! i = Some c → length (cell_queue c) ≤ SESSION_CAPACITY.
Proof. intros Hn Hi. pose proof (ok_queue _ Hn) as Hf. by eapply Forall_lookup_1 in Hf. Qed.

Lemma send_to_peer_ok now to id data n w r n' w' :
  node_ok n → send_to_peer now to id data n w = Some (r, n', w') → node_ok n'.
Proof.
  intros Hn. unfold send_to_peer, mbind, io_bind.
  destruct (ensure_session now to n w) as [[[ready n1] w1]|] eqn:E; [|done].
  assert (Hn1 : node_ok n1).
  { revert E. unfold ensure_session. case_decide; [by intros [= _ <- _]|by apply connect_peer_ok]. }
  destruct ready; cbn [io_attempt]; [|by intros [= _ <- _]..].
  destruct (session_cell n1 to) as [[i c]|] eqn:Ec; [|by intros [= _ <- _]].
  apply session_cell_Some in Ec as [_ Hi]. assert (Hq := queue_ok _ _ _ Hn1 Hi).
  destruct (seal_data id data (cell_transport c)) as [[wire|e|] t]; cbn [io_attempt];
    [|by intros [= _ <- _]; eapply insert_cell_ok..].
  unfold io_lift. destruct (cell_send wire _) as [[x c']|] eqn:Es; [|done]. intros [= _ <- _].
  apply cell_send_spec in Es as (Hr & _ & Hq'). by eapply insert_cell_ok; [..|apply Hq'].
Qed.

Lemma post_entries_ok seal es : ∀ cs cs',
  post_entries seal es cs = Some cs' →
  Forall (λ c, length (cell_queue c) ≤ SESSION_CAPACITY) cs →
  same_rx cs cs' ∧ Forall (λ c, length (cell_queue c) ≤ SESSION_CAPACITY) cs'.
Proof.
  induction es as [|[p i] es IH]; intros cs cs'; cbn [post_entries]; [by intros [= <-]|].
  destruct (cs !! i) as [c|] eqn:Ei; [|by apply IH].
  destruct (post seal c) as [c'|] eqn:Ep; [|done]. cbn. intros E Hf.
  destruct (post_spec _ _ _ Ep) as [Hr Hq]. destruct (IH _ _ E) as [Hs Hf'].
  - apply Forall_insert; [done|]. apply Hq. by eapply Forall_lookup_1 in Hf.
  - split; [|done]. unfold same_rx in *. rewrite Hs, list_fmap_insert, Hr. apply list_insert_id.
    by rewrite list_lookup_fmap, Ei.
Qed.

Lemma post_all_ok `{I : !MapIter PeerId nat} seal n n' :
  node_ok n → post_all seal n = Some n' → node_ok n'.
Proof.
  intros Hn. unfold post_all. destruct (post_entries _ _ _) as [cs|] eqn:E; [|done].
  cbn. intros [= <-]. apply post_entries_ok in E as [Hs Hf]; [|apply Hn]. by apply set_cells_ok.
Qed.

Lemma broadcast_ok `{I : !MapIter PeerId nat} id data n r n' :
  node_ok n → broadcast_to_peers id data n = Some (r, n') → node_ok n'.
Proof.
  intros Hn. unfold broadcast_to_peers. destruct (serialize_unwrap _); [|by intros [= _ <-]..].
  destruct (post_all _ n) as [n1|] eqn:E; [|done]. intros [= _ <-]. by eapply post_all_ok.
Qed.

Lemma probing_tick_ok `{I : !MapIter PeerId nat} now n r n' :
  node_ok n → probing_tick now n = Some (r, n') → node_ok n'.
Proof.
  intros Hn. unfold probing_tick. destruct (serialize_unwrap _); [|by intros [= _ <-]..].
  destruct (post_all _ n) as [n1|] eqn:E; [|done]. intros [= _ <-]. by eapply post_all_ok.
Qed.

Lemma get_update_local now p r : local_peer_id (get_link_state_update now p r).2 = local_peer_id r.
Proof. unfold get_link_state_update. by repeat case_match. Qed.

Lemma gossip_entries_ok `{I : !MapIter PeerId nat} now es : ∀ n r n',
  node_ok n → gossip_entries now es n = Some (r, n') → node_ok n'.
Proof.
  induction es as [|[p i] es IH]; intros n r n' Hn; cbn [gossip_entries]; [by intros [= _ <-]|].
  pose proof (get_update_local now p (node_router n)) as Hl.
  destruct (get_link_state_update now p (node_router n)) as [[u|] rt]; cbn [snd] in Hl;
    (assert (Hn1 : node_ok (set_router rt n)) by by apply set_router_ok); [|by apply IH].
  destruct (serialize_unwrap u); [|by intros [= _ <-]..].
  destruct (post_all _ _) as [n1|] eqn:E; [|done]. cbn. apply IH. by eapply post_all_ok.
Qed.

Lemma gossip_tick_ok `{I : !MapIter PeerId nat} now n r n' :
  node_ok n → gossip_tick now n = Some (r, n') → node_ok n'.
Proof. apply gossip_entries_ok. Qed.

Lemma shutdown_signal_ok n n' : node_ok n → shutdown_signal n = Some n' → node_ok n'.
Proof.
  intros []. unfold shutdown_signal. destruct (running n); [|done]. intros [= <-].
  split; try done; cbn.
  - intros i. rewrite lookup_fmap, fmap_is_Some. apply ok_loop0.
  - intros H. destruct (ok_held0 H) as [b ->]. by exists true.
Qed.

Lemma shutdown_transport_ok n w r n' w' :
  node_ok n → shutdown_transport n w = Some (r, n', w') → node_ok n'.
Proof.
  intros Hn. unfold shutdown_transport. destruct (transport_held n); [done|].
  run_io. destruct (transport_shutdown (node_transport n) w) as [[[x tr] w1]|]; [|done].
  intros [= _ <- _]. by apply set_transport_ok.
Qed.

Lemma new_node_ok kp vip tr d at' pt gt svcs del run :
  from_peer_id (kp_to_peer_id kp) = Ok vip →
  node_ok (mkNode kp (kp_to_peer_id kp) vip tr false d (router_new (kp_to_peer_id kp)) ∅ [] ∅
             svcs del at' pt gt run).
Proof.
  intros Hv. split; try done; cbn.
  intros i. rewrite lookup_empty. split; [by intros []|by destruct i].
Qed.

Lemma build_node_ok random b w n w' : build random b w = Some (Ok n, w') → node_ok n.
Proof.
  unfold build. cbn zeta. set (kp := default (kp_generate random) (b_keypair b)).
  destruct (from_peer_id (kp_to_peer_id kp)) as [vip| |] eqn:Ev; [|done..].
  destruct (b_transport b) as [tr|]; [|done]. run_io.
  destruct (transport_listen _ tr w) as [[[[[]|e|] tr'] w1]|]; [| | |done]; [|done..].
  destruct (discovery_new _ kp 0) as [d| |]; [|done..].
  destruct (transport_local_addr tr') as [a|]; [|intros [= <- _]; by apply new_node_ok].
  unfold io_lift. destruct (register_local_address a d) as [[r d']|]; [|done].
  intros [= <- _]. by apply new_node_ok.
Qed.

(** Nothing is discovered before the discovery task runs. *)
Lemma build_no_address random b w n w' :
  build random b w = Some (Ok n, w') → ds_cache (node_discovery n) = cache_new.
Proof.
  unfold build. destruct (from_peer_id _) as [vip| |]; [|done..].
  destruct (b_transport b) as [tr|]; [|done]. run_io.
  destruct (transport_listen _ tr w) as [[[[[]|e|] tr'] w1]|]; [| | |done]; [|done..].
  destruct (discovery_new _ _ 0) as [d| |] eqn:Ed; [|done..]. apply discovery_new_ok in Ed as [Ed _].
  destruct (transport_local_addr tr') as [a|]; [|by intros [= <- _]].
  unfold io_lift. destruct (register_local_address a d) as [[r d']|] eqn:Er; [|done].
  intros [= <- _]. cbn. rewrite <- Ed. revert Er. unfold register_local_address.
  destruct (send_command _ d) as [[r' d'']|] eqn:Er; [|done]. intros [= _ <-]. by eapply send_command_cache.
Qed.

(** C28: A built node is well formed, and set up as configured.  [build] fails first when no
    transport was given, then with the transport's or the discovery service's own error;
    otherwise the node has the configured key (or the generated one), its peer id and
    virtual address derive from it, its transport listens on the configured address, the
    address the transport reports is queued for advertisement behind the bootstrap
    command (the discovery task, spawned by then, has not read its commands yet), and it has
    no sessions, no services and an empty router of its own. *)
Theorem build_well_formed random b w :
  (b_transport b = None →
     build random b w = Some (Err (ConfigError "missing required transport layer configuration"), w)) ∧
  (∀ tr, b_transport b = Some tr → ∀ r tr' w',
     transport_listen (tc_listen_addr (cfg_transport (b_config b))) tr w = Some (r, tr', w') →
     ∃ res, build random b w = Some (res, w') ∧
     let kp := default (kp_generate random) (b_keypair b) in
     match r, discovery_new (b_config b) kp 0 with
     | Err e, _ | Ok _, Err e => res = Err e
     | Panic, _ | Ok _, Panic => res = Panic
     | Ok _, Ok d =>
         ∃ n, res = Ok n ∧ node_ok n ∧ node_keypair n = kp ∧ node_transport n = tr' ∧
           ds_commands (node_discovery n) =
             Bootstrap :: (RegisterLocalAddr <$> option_list (transport_local_addr tr')) ∧
           node_router n = router_new (kp_to_peer_id kp) ∧ sessions n = ∅ ∧ cells n = [] ∧
           node_services n = ∅ ∧ running n = true
     end).
Proof.
  unfold build. cbn zeta. set (kp := default (kp_generate random) (b_keypair b)).
  destruct (from_peer_id_total (kp_to_peer_id kp)) as [vip Ev]. rewrite Ev. split.
  { by intros ->. }
  intros tr -> r tr' w' E. run_io. rewrite E.
  destruct r as [[]|e|]; [|by eexists..].
  destruct (discovery_new (b_config b) kp 0) as [d| |] eqn:Ed; [|by eexists..].
  destruct (discovery_new_ok _ _ _ _ Ed) as (_ & Hc & Ht).
  destruct (transport_local_addr tr') as [a|].
  - unfold register_local_address, send_command. rewrite Ht, Hc. cbn [negb length].
    rewrite decide_True by (unfold COMMAND_CAPACITY; lia). cbn. eexists. split; [done|].
    eexists. split_and!; [done|by apply new_node_ok|done..].
  - eexists. split; [done|]. eexists.
    split_and!; [done|by apply new_node_ok|done|done|by cbn; rewrite Hc|done..].
Qed.

(** ** Sending to all sessions *)

(** The cells the session table refers to. *)
Definition held (n : OmniMesh) (i : nat) : Prop := i ∈ (map_to_list (sessions n)).*2.

#[global] Instance held_dec n i : Decision (held n i).
Proof. unfold held. apply _. Defined.

Lemma held_iff n i : held n i ↔ ∃ p, sessions n !! p = Some i.
Proof.
  unfold held. rewrite list_elem_of_fmap. split.
  - intros ([p j] & -> & Hin). apply elem_of_map_to_list in Hin. by exists p.
  - intros [p Hp]. exists (p, i). by rewrite elem_of_map_to_list.
Qed.

Lemma held_map_iter `{I : !MapIter PeerId nat, IL : !MapIterLaws I} n i :
  i ∈ (map_iter (sessions n)).*2 ↔ held n i.
Proof.
  rewrite held_iff, list_elem_of_fmap. split.
  - intros ([p j] & -> & Hin). apply elem_of_map_iter in Hin. by exists p.
  - intros [p Hp]. exists (p, i). by rewrite elem_of_map_iter.
Qed.

Lemma entries_NoDup `{I : !MapIter PeerId nat, IL : !MapIterLaws I} n :
  node_ok n → NoDup (map_iter (sessions n)).*2.
Proof.
  intros Hn. assert (Hk : NoDup (map_iter (sessions n)).*1) by apply NoDup_map_iter.
  assert (Hin : ∀ p i, (p, i) ∈ map_iter (sessions n) → sessions n !! p = Some i)
    by (intros p i; apply elem_of_map_iter).
  revert Hk Hin. induction (map_iter (sessions n)) as [|[p i] l IH]; cbn; [constructor|].
  intros [Hp Hk]%NoDup_cons Hin. apply NoDup_cons. split.
  - intros ([q j] & -> & Hq)%list_elem_of_fmap. apply Hp.
    rewrite (ok_inj _ Hn p q j (Hin _ _ ltac:(left)) (Hin _ _ ltac:(by right))).
    by apply (list_elem_of_fmap_2 fst _ (q, j)).
  - apply IH; [done|]. intros q j Hq. apply Hin. by right.
Qed.

(** Each listed cell is posted to once, whatever the order. *)
Lemma post_entries_lookup seal es : ∀ cs cs',
  NoDup es.*2 → post_entries seal es cs = Some cs' →
  ∀ i, cs' !! i = (c ← cs !! i; if decide (i ∈ es.*2) then post seal c else Some c).
Proof.
  induction es as [|[p j] es IH]; intros cs cs' Hn; cbn [post_entries].
  { intros [= <-] i. destruct (cs !! i); [|done]. cbn [mbind option_bind].
    by rewrite decide_False by apply not_elem_of_nil. }
  cbn in Hn. apply NoDup_cons in Hn as [Hj Hn]. destruct (cs !! j) as [c|] eqn:Ej.
  - destruct (post seal c) as [c'|] eqn:Ep; [|done]. cbn [mbind option_bind]. intros E i.
    rewrite (IH _ _ Hn E). destruct (decide (i = j)) as [->|Hne].
    + rewrite list_lookup_insert_eq by by eapply lookup_lt_Some. rewrite Ej. cbn.
      rewrite decide_False by done. by rewrite decide_True by left.
    + rewrite list_lookup_insert_ne by done. destruct (cs !! i); [|done]. cbn.
      apply decide_ext. rewrite elem_of_cons. intuition congruence.
  - intros E i. rewrite (IH _ _ Hn E). destruct (decide (i = j)) as [->|Hne].
    + by rewrite Ej.
    + destruct (cs !! i); [|done]. cbn. apply decide_ext. rewrite elem_of_cons. intuition congruence.
Qed.

Lemma post_entries_ready seal es : ∀ cs,
  NoDup es.*2 → (∀ i c, i ∈ es.*2 → cs !! i = Some c → is_Some (post seal c)) →
  is_Some (post_entries seal es cs).
Proof.
  induction es as [|[p j] es IH]; intros cs Hn Hr; cbn [post_entries]; [by eexists|].
  cbn in Hn. apply NoDup_cons in Hn as [Hj Hn].
  destruct (cs !! j) as [c|] eqn:Ej; [|apply IH; [done|intros i c Hi; apply Hr; by right]].
  destruct (Hr j c ltac:(left) Ej) as [c' ->]. cbn. apply IH; [done|]. intros i c1 Hi.
  rewrite list_lookup_insert_ne by (intros ->; done). apply Hr. by right.
Qed.

(** Room for [k] more messages in a channel, or nobody to read them. *)
Definition room_for (k : nat) (c : SessionCell) : Prop :=
  cell_rx c = true → length (cell_queue c) + k ≤ SESSION_CAPACITY.

Definition all_room (k : nat) (n : OmniMesh) : Prop :=
  ∀ i c, held n i → cells n !! i = Some c → room_for k c.

Lemma post_room seal c k :
  room_for (S k) c → ∃ c', post seal c = Some c' ∧ room_for k c'.
Proof.
  unfold post, room_for. intros Hr.
  destruct (seal (cell_transport c)) as [[wire|e|] t]; [|eexists; split; [done|cbn; intros ?%Hr; lia]..].
  unfold cell_send, cell_set_transport. cbn [cell_rx cell_queue].
  destruct (cell_rx c) eqn:E; cbn [negb].
  - specialize (Hr eq_refl). rewrite decide_True by lia. eexists. split; [done|]. cbn.
    rewrite length_app. cbn. lia.
  - eexists. split; [done|]. cbn. done.
Qed.

Lemma post_all_nodup `{I : !MapIter PeerId nat, IL : !MapIterLaws I} seal n k :
  NoDup (map_iter (sessions n)).*2 → all_room (S k) n →
  ∃ cs, post_all seal n = Some (set_cells cs n) ∧ all_room k (set_cells cs n) ∧
    ∀ i, cs !! i = (c ← cells n !! i; if decide (held n i) then post seal c else Some c).
Proof.
  intros Hnd Hr. unfold post_all.
  destruct (post_entries_ready seal (map_iter (sessions n)) (cells n) Hnd) as [cs E].
  { intros i c Hi%held_map_iter Hc. destruct (post_room seal c k (Hr _ _ Hi Hc)) as (c' & -> & _).
    by eexists. }
  rewrite E. exists cs. split; [done|].
  assert (Hl : ∀ i, cs !! i = (c ← cells n !! i; if decide (held n i) then post seal c else Some c)).
  { intros i. rewrite (post_entries_lookup _ _ _ _ Hnd E). destruct (cells n !! i); [|done]. cbn.
    apply decide_ext, held_map_iter. }
  split; [|done]. intros i c Hi. cbn [cells set_cells set_sessions]. rewrite Hl.
  change (held n i) in Hi. destruct (cells n !! i) as [c0|] eqn:Ec; [|done]. cbn.
  rewrite decide_True by done. intros Hc.
  destruct (post_room seal c0 k (Hr _ _ Hi Ec)) as (c' & E' & Hr').
  rewrite E' in Hc. by injection Hc as <-.
Qed.

Lemma post_all_spec `{I : !MapIter PeerId nat, IL : !MapIterLaws I} seal n k :
  node_ok n → all_room (S k) n →
  ∃ cs, post_all seal n = Some (set_cells cs n) ∧ all_room k (set_cells cs n) ∧
    ∀ i, cs !! i = (c ← cells n !! i; if decide (held n i) then post seal c else Some c).
Proof. intros Hn. apply post_all_nodup, entries_NoDup, Hn. Qed.

(** A broadcast reaches every session once, in any order.  Whatever order the session
    map iterates in, when no channel is full broadcasting seals the message for each
    session with that session's own transport and puts it on that session's own channel,
    exactly once; a session that cannot encrypt or whose loop has ended does not keep the
    others from getting theirs, nothing else changes, and the result is [Ok]. *)
Theorem broadcast_reaches_all `{I : !MapIter PeerId nat, IL : !MapIterLaws I}
    `{BSL : !BincodeLaws BS} id data n :
  node_ok n → all_room 1 n →
  ∃ plain cs, serialize (mkService id data) = inr plain ∧
    broadcast_to_peers id data n = Some (Ok tt, set_cells cs n) ∧
    ∀ i, cs !! i = (c ← cells n !! i;
                    if decide (held n i) then post (seal_packet 2 plain) c else Some c).
Proof.
  intros Hn Hr. destruct (serialize_total (mkService id data)) as [plain E]. exists plain.
  destruct (post_all_spec (seal_packet 2 plain) n 0 Hn Hr) as (cs & Ep & _ & Hl).
  exists cs. split; [done|]. split; [|done].
  unfold broadcast_to_peers, serialize_unwrap. by rewrite E, Ep.
Qed.

(** What no session can seal is dropped: no queue changes, and nobody hears of it. *)
Lemma post_entries_unsealed seal es : (∀ t, ∃ e t', seal t = (Err e, t')) → ∀ cs,
  ∃ cs', post_entries seal es cs = Some cs' ∧ cell_queue <$> cs' = cell_queue <$> cs.
Proof.
  intros Hs. induction es as [|[p i] es IH]; intros cs; cbn [post_entries]; [by eexists|].
  destruct (cs !! i) as [c|] eqn:Ec; [|apply IH]. unfold post.
  destruct (Hs (cell_transport c)) as (e & t & ->). cbn [mbind option_bind].
  destruct (IH (<[i := cell_set_transport t c]> cs)) as (cs' & -> & Hq). exists cs'.
  split; [done|]. rewrite Hq, list_fmap_insert. apply list_insert_id.
  by rewrite list_lookup_fmap, Ec.
Qed.

(** A broadcast that cannot be encrypted, one above Noise's 65519 bytes for instance, is
    reported as sent: the result is [Ok] and every session's channel is as before. *)
Lemma broadcast_unsealed `{I : !MapIter PeerId nat} id data plain n :
  serialize (mkService id data) = inr plain →
  (∀ t, ∃ e t', seal_packet 2 plain t = (Err e, t')) →
  ∃ cs, broadcast_to_peers id data n = Some (Ok tt, set_cells cs n) ∧
    cell_queue <$> cs = cell_queue <$> cells n.
Proof.
  intros Hp Hs. destruct (post_entries_unsealed _ (map_iter (sessions n)) Hs (cells n))
    as (cs & E & Hq). exists cs. split; [|done].
  unfold broadcast_to_peers, serialize_unwrap, post_all. by rewrite Hp, E.
Qed.

(** A send is its two parts. *)
Lemma send_parts now to id data n w :
  send_to_peer now to id data n w =
    ('(ready, n) ← ensure_session now to n;
     io_attempt ready n (λ _,
       let '(r, n) := send_seal to id data n in
       io_attempt r n (λ '(i, wire_bytes), io_lift (send_queue i wire_bytes n)))) w.
Proof.
  unfold send_to_peer. run_io. destruct (ensure_session now to n w) as [[[ready n1] w1]|]; [|done].
  destruct ready as [u|e|]; cbn [io_attempt]; [|done..]. unfold send_seal, session_cell.
  destruct (sessions n1 !! to) as [i|]; [|done]. cbn [mbind option_bind].
  destruct (cells n1 !! i) as [c|] eqn:Ec; [|done]. cbn [mbind option_bind].
  destruct (seal_data id data (cell_transport c)) as [[wire|e|] t]; cbn [mbind result_bind io_attempt]; [|done..].
  unfold send_queue, io_lift. cbn [cells set_cells set_sessions].
  rewrite list_lookup_insert_eq by (by eapply lookup_lt_Some). cbn.
  destruct (cell_send wire (cell_set_transport t c)) as [[r c']|]; [|done]. cbn.
  by rewrite list_insert_insert_eq.
Qed.

(** Several messages for one session, in order. *)
Fixpoint post_many (seals : list (NoiseTransport → Result (list byte) * NoiseTransport))
    (c : SessionCell) : option SessionCell :=
  match seals with
  | [] => Some c
  | seal :: seals => c ← post seal c; post_many seals c
  end.

Lemma gossip_entries_announce `{I : !MapIter PeerId nat, IL : !MapIterLaws I}
    `{BUL : !BincodeLaws BU} now l : ∀ n,
  node_ok n → all_room (length l) n →
  let '(us, r) := announce now l.*1 (node_router n) in
  ∃ cs, gossip_entries now l n = Some (Ok tt, set_cells cs (set_router r n)) ∧
    ∀ i, cs !! i = (c ← cells n !! i;
                    if decide (held n i) then post_many (seal_gossip <$> us) c else Some c).
Proof.
  induction l as [|[p j] l IH]; intros n Hn Hr; cbn [fmap list_fmap announce fst gossip_entries].
  { exists (cells n). split; [by destruct n|]. intros i. destruct (cells n !! i); [|done]. cbn.
    by case_decide. }
  change (list_fmap _ _ fst l) with (l.*1) in *. cbn [length] in Hr.
  pose proof (get_update_local now p (node_router n)) as Hl.
  destruct (get_link_state_update now p (node_router n)) as [[u|] r]; cbn [snd] in Hl;
    (assert (Hn1 : node_ok (set_router r n)) by by apply set_router_ok).
  - destruct (serialize_total u) as [payload E]. unfold serialize_unwrap. rewrite E.
    destruct (post_all_spec (seal_packet 3 payload) (set_router r n) (length l) Hn1 Hr)
      as (cs & Ep & Hr1 & Hc).
    rewrite Ep. cbn [mbind option_bind].
    specialize (IH _ (post_all_ok _ _ _ Hn1 Ep) Hr1).
    cbn [node_router cells set_cells set_sessions set_router] in IH.
    destruct (announce now l.*1 r) as [us r']. destruct IH as (cs' & E' & Hc'). exists cs'.
    split; [exact E'|]. intros i. rewrite Hc'. change (held (set_cells cs (set_router r n)) i) with (held n i).
    rewrite Hc. change (cells (set_router r n)) with (cells n).
    change (held (set_router r n) i) with (held n i).
    destruct (cells n !! i) as [c|]; [|done]. cbn [mbind option_bind].
    destruct (decide (held n i)) as [Hh|Hh];
      [|by cbn [mbind option_bind]; rewrite ?decide_False].
    change (seal_gossip <$> u :: us) with (seal_gossip u :: (seal_gossip <$> us)).
    cbn [post_many]. assert (Hp : post (seal_gossip u) c = post (seal_packet 3 payload) c)
      by (unfold post, seal_gossip, serialize_unwrap; by rewrite E). by rewrite Hp.
  - assert (Hr1 : all_room (length l) (set_router r n)).
    { intros i c Hi Hc Hx. specialize (Hr i c Hi Hc Hx). lia. }
    specialize (IH _ Hn1 Hr1). cbn [node_router set_router] in IH.
    by destruct (announce now l.*1 r) as [us r'].
Qed.

(** A gossip tick announces every neighbour to every neighbour.  In whatever order the
    sessions are visited, when the channels have room the router emits the updates of
    [announce] for the session peers in that order, with consecutive sequence numbers, and
    every session is sent all of them in that order; which is what makes its receiver
    accept them all. *)
Theorem gossip_tick_announces `{I : !MapIter PeerId nat, IL : !MapIterLaws I}
    `{BUL : !BincodeLaws BU} now n :
  node_ok n → all_room (size (sessions n)) n →
  let '(us, r) := announce now (map_iter (sessions n)).*1 (node_router n) in
  ∃ cs, gossip_tick now n = Some (Ok tt, set_cells cs (set_router r n)) ∧
    ∀ i, cs !! i = (c ← cells n !! i;
                    if decide (held n i) then post_many (seal_gossip <$> us) c else Some c).
Proof.
  intros Hn Hr. apply gossip_entries_announce; [done|].
  by rewrite (Permutation_length (map_iter_perm (sessions n))), length_map_to_list.
Qed.

(** ** Sending to one peer *)

(** The outcome of sealing a message and sending it on a session. *)
Definition sent_cell (id : string) (data : list byte) (c : SessionCell)
    : option (Result unit * SessionCell) :=
  let '(wire, t) := seal_data id data (cell_transport c) in
  let c := cell_set_transport t c in
  match wire with
  | Ok bytes =>
      '(r, c) ← cell_send bytes c;
      Some (of_lib (λ _, Connection "session write channel closed") r, c)
  | Err e => Some (Err e, c)
  | Panic => Some (Panic, c)
  end.

(** Sending touches one session.  With a session to the peer, [send_to_peer] seals the
    message with that session's transport and puts exactly that packet on its channel,
    with the outcome of the channel as its result; no other cell changes, nothing is
    dialled, and the world is left alone. *)
Lemma send_existing now to id data n w i c :
  sessions n !! to = Some i → cells n !! i = Some c →
  send_to_peer now to id data n w =
    match sent_cell id data c with
    | Some (r, c') => Some (r, set_cells (<[i := c']> (cells n)) n, w)
    | None => None
    end.
Proof.
  intros Hs Hc. unfold send_to_peer, ensure_session, sent_cell.
  rewrite decide_True by by rewrite Hs; eexists. run_io.
  cbn [io_attempt].
  assert (Hsc : session_cell n to = Some (i, c)) by by apply session_cell_Some. rewrite Hsc.
  destruct (seal_data id data (cell_transport c)) as [[wire|e|] t]; cbn [io_attempt]; [|done..].
  unfold io_lift. by destruct (cell_send wire _) as [[r c']|].
Qed.

(** A dead session is never replaced.  Once the loop of a session has ended, every later
    send to that peer fails with a connection error, whatever addresses are known for it,
    because the stale entry stays in the session table and keeps [connect_peer] from
    dialling. *)
Lemma stale_session_blocks now to id data n w i c wire t :
  sessions n !! to = Some i → cells n !! i = Some c → cell_rx c = false →
  seal_data id data (cell_transport c) = (Ok wire, t) →
  ∃ n', send_to_peer now to id data n w =
      Some (Err (Connection "session write channel closed"), n', w) ∧
    connect_peer now to n' w = Some (Ok tt, n', w) ∧
    sessions n' !! to = Some i ∧ cell_rx <$> cells n' !! i = Some false.
Proof.
  intros Hs Hc Hrx Hseal. eexists. rewrite (send_existing _ _ _ _ _ _ _ _ Hs Hc).
  unfold sent_cell. rewrite Hseal. unfold cell_send. cbn [cell_rx cell_set_transport].
  rewrite Hrx. cbn [negb of_lib mbind option_bind]. split; [done|].
  cbn [sessions cells set_cells set_sessions]. split; [|split; [done|]].
  - unfold connect_peer. cbn [sessions set_cells set_sessions]. by rewrite decide_True by by rewrite Hs; eexists.
  - rewrite list_lookup_insert_eq by by eapply lookup_lt_Some. cbn. by rewrite Hrx.
Qed.

(** Dialling waits for the accept worker.  While it waits for a connection it holds the
    transport's mutex, and every call that dials waits; only an incoming connection or
    the shutdown signal makes it let go. *)
Lemma dial_waits_for_accept addr n w :
  transport_held n = true → connect_addr addr n w = None.
Proof. intros H. unfold connect_addr. by rewrite H. Qed.

(** ** Connecting *)

(** Dialling the addresses in turn, every one refused with an error. *)
Inductive refused (n : OmniMesh)
    : list SocketAddr → transport → W → list OmniMeshError → transport → W → Prop :=
| refused_nil tr w : refused n [] tr w [] tr w
| refused_cons a addrs tr w e tr' w' es tr'' w'' :
    dial (node_keypair n) (node_peer_id n) a tr w = Some (Err e, tr', w') →
    refused n addrs tr' w' es tr'' w'' → refused n (a :: addrs) tr w (e :: es) tr'' w''.

Lemma connect_refused addrs : ∀ n0 n before es w tr w' post,
  refused n0 addrs (node_transport n) w es tr w' → transport_held n = false →
  node_keypair n = node_keypair n0 → node_peer_id n = node_peer_id n0 →
  connect_any (addrs ++ post) before n w =
    connect_any post (match last es with Some e => Some e | None => before end)
      (set_transport tr n) w'.
Proof.
  induction addrs as [|a addrs IH]; intros n0 n before es w tr w' post Hr Hh Hk Hp; inv Hr.
  { by destruct n. }
  cbn [app connect_any]. unfold connect_addr. rewrite Hh, Hk, Hp. unfold mbind at 1, io_bind at 1.
  unfold mbind at 1, io_bind at 1.
  match goal with H : dial _ _ _ _ _ = _ |- _ => rewrite H end. cbn [io_attempt].
  unfold mret, io_ret. erewrite IH; [|done..]. rewrite last_cons. destruct (last _) eqn:E; [done|].
  by destruct es0; [|rewrite last_cons in E; destruct (last es0)].
Qed.

(** C34: Connecting to a peer uses the first address that answers.  With a session,
    [connect_peer] does nothing.  Without one it dials the discovered addresses in
    order: when some are refused and the next one answers, there is exactly one new
    session, for the node that answered, with its loop on the new connection, and no
    trace of the failed attempts; when all are refused, or none is known, it reports
    the last refusal, or that none is known, and no session changes.  (The dials need the
    transport mutex, which nobody holds meanwhile.) *)
Theorem connect_peer_first_answer now peer n w :
  (is_Some (sessions n !! peer) → connect_peer now peer n w = Some (Ok tt, n, w)) ∧
  (∀ pre a post es tr w1 t p c tr' w2,
     sessions n !! peer = None → transport_held n = false →
     discovery_lookup now (node_discovery n) peer = pre ++ a :: post →
     refused n pre (node_transport n) w es tr w1 →
     dial (node_keypair n) (node_peer_id n) a tr w1 = Some (Ok (t, p, c), tr', w2) →
     connect_peer now peer n w = Some (Ok tt, add_session p t c (set_transport tr' n), w2)) ∧
  (∀ es tr w1,
     sessions n !! peer = None → transport_held n = false →
     refused n (discovery_lookup now (node_discovery n) peer) (node_transport n) w es tr w1 →
     connect_peer now peer n w =
       Some (Err match last es with
                 | Some e => e
                 | None => Discovery ("no addresses found for peer " +:+ to_hex peer)
                 end, set_transport tr n, w1)).
Proof.
  unfold connect_peer. split_and!.
  - intros Hs. by rewrite decide_True.
  - intros pre a post es tr w1 t p c tr' w2 Hs Hh Hd Hr Ha.
    rewrite decide_False by by rewrite Hs; intros []. rewrite Hd, decide_False by by destruct pre.
    erewrite connect_refused by done. cbn [connect_any]. unfold connect_addr. cbn.
    rewrite Hh. run_io. by rewrite Ha.
  - intros es tr w1 Hs Hh Hr. rewrite decide_False by by rewrite Hs; intros [].
    destruct (discovery_lookup now (node_discovery n) peer) as [|a0 as0] eqn:Hd.
    { inv Hr. rewrite decide_True by done. by destruct n. }
    rewrite decide_False by done. rewrite <- (app_nil_r (a0 :: as0)).
    erewrite connect_refused by done. cbn [connect_any].
    destruct es as [|e es]; [by inv Hr|]. rewrite last_cons. by destruct (last es).
Qed.

(** ** Shutdown *)

(** Shutdown happens once.  The first call clears the session table, stops the node, and
    leaves its signal with every worker and loop that has subscribed; later calls do
    nothing. *)
Lemma shutdown_once n :
  running n = true →
  ∃ n', shutdown_signal n = Some n' ∧ running n' = false ∧ sessions n' = ∅ ∧
    cells n' = cells n ∧ shutdown_signal n' = None ∧
    (∀ i l, session_loops n' !! i = Some l → loop_notified l = true) ∧
    (∀ b, accept_task n = Running b →
       ∃ n'', (if transport_held n' then Some n' else accept_lock n') = Some n'' ∧
         is_Some (accept_stop n'')).
Proof.
  intros Hr. unfold shutdown_signal. rewrite Hr. eexists. split; [done|]. cbn.
  split_and!; [done..| |].
  - intros i l. rewrite lookup_fmap. by destruct (session_loops n !! i); intros [= <-].
  - intros b Hb. cbn. unfold accept_lock, accept_stop. cbn. rewrite Hb. cbn.
    destruct (transport_held n) eqn:Eh; eexists; (split; [done|]); cbn; rewrite ?Eh, ?Hb; cbn; by eexists.
Qed.

End node_facts.

#[export] Hint Resolve set_transport_ok set_discovery_ok set_tickers_ok register_service_ok
  add_session_ok connect_addr_ok connect_peer_ok accept_lock_ok accept_resolve_ok accept_stop_ok
  send_to_peer_ok broadcast_ok probing_tick_ok gossip_tick_ok shutdown_signal_ok
  shutdown_transport_ok : mesh.

(** ** A node for the witnesses *)

Section node_witnesses.

#[local] Existing Instance toy_snow.
#[local] Existing Instance toy_bincode.
#[local] Existing Instance toy_bincode_laws.
#[local] Existing Instance toy_payload.
#[local] Existing Instance default_map_iter.
#[local] Existing Instance default_map_iter_laws.
#[local] Existing Instance Discovery.toy_ed25519.
#[local] Existing Instance key_libp2p.
#[local] Existing Instance toy_swarm.

#[local] Instance toy_text : TextCodecs := {|
  hex_encode _ := "00"%string;
  hex_decode _ := inl "unused"%string;
  base64_encode _ := String.EmptyString;
|}.

(** The other end answers every handshake message with its own, from the peer [3]. *)
Definition toy_answer : list byte :=
  match serialize (mkPayload CURRENT (peer Byte.x03)) with
  | inr bs => replicate 32 Byte.x03 ++ bs
  | inl _ => []
  end.

#[local] Instance answer_connection : DynConnection unit := {|
  conn := unit;
  conn_send _ c w := Some (Ok tt, c, w);
  conn_recv c w := Some (Ok (Some toy_answer), c, w);
  conn_close c w := Some (Ok tt, c, w);
  conn_drop _ w := w;
  conn_remote_addr _ := toy_addr;
  conn_is_connected _ _ := true;
|}.

(** A transport that refuses its first connection. *)
#[local] Instance answer_transport : DynTransport answer_connection := {|
  transport := bool;
  transport_listen _ up w := Some (Ok tt, up, w);
  transport_accept up w := Some (Ok tt, up, w);
  transport_connect _ up w := if up then Some (Ok tt, true, w)
                              else Some (Err (Error.Transport "refused"), true, w);
  transport_shutdown up w := Some (Ok tt, up, w);
  transport_local_addr _ := Some toy_addr;
|}.

Definition toy_port (port : Z) : SocketAddr := mkSocketAddr (IPv4 (vreplicate 4 Byte.x01)) port.

(** A node with a session to the peer [2], which has discovered the peer [3]. *)
Definition toy_cache : cache :=
  cache_insert 0 (peer Byte.x03) (toy_port 2) (cache_insert 0 (peer Byte.x03) (toy_port 1) cache_new).

Definition toy_vip : VirtualIp :=
  match from_peer_id (peer Byte.x01) with Ok v => v | _ => mkVirtualIp (vreplicate 16 Byte.x00) end.

Definition toy_node : OmniMesh (C := answer_connection) :=
  mkNode toy_keypair (peer Byte.x01) toy_vip (false : transport) false
    (mkDiscovery toy_cache [] (0 : swarm) true) (router_new (peer Byte.x01))
    {[peer Byte.x02 := 0]} [mkCell [] true toy_transport]
    {[0 := mkLoop (peer Byte.x02) (tt : conn) None false]} ∅ [] (Running false) Spawned Spawned true.

Lemma toy_node_ok : node_ok toy_node.
Proof.
  split; cbn; try reflexivity.
  - intros p i [<- <-]%lookup_singleton_Some. lia.
  - intros p q i [<- <-]%lookup_singleton_Some [<- _]%lookup_singleton_Some. reflexivity.
  - intros [|i]; [split; [reflexivity|by eexists]|]. rewrite lookup_singleton_ne by done.
    split; [by intros []|]. by destruct i.
  - intros p i l [<- <-]%lookup_singleton_Some [_ <-]%lookup_singleton_Some. reflexivity.
  - constructor; [cbn; unfold SESSION_CAPACITY; lia|constructor].
  - discriminate.
Qed.

Lemma toy_node_room : all_room 1 toy_node.
Proof.
  intros i c _. destruct i as [|i]; cbn; [intros [= <-] _; cbn; unfold SESSION_CAPACITY; lia|done].
Qed.

Lemma broadcast_reaches_all_witness :
  ∃ plain cs, serialize (mkService "chat" []) = inr plain ∧
    broadcast_to_peers "chat" [] toy_node = Some (Ok tt, set_cells cs toy_node) ∧
    cs !! 0 = post (seal_packet 2 plain) (mkCell [] true toy_transport).
Proof.
  destruct (broadcast_reaches_all "chat" [] toy_node toy_node_ok toy_node_room)
    as (plain & cs & E & Eb & Hc).
  exists plain, cs. split; [exact E|]. split; [exact Eb|]. rewrite (Hc 0). reflexivity.
Defined.

Lemma gossip_tick_announces_witness :
  ∃ r n', gossip_tick None toy_node = Some (r, n') ∧ r = Ok tt.
Proof.
  pose proof (gossip_tick_announces None toy_node toy_node_ok toy_node_room) as H.
  destruct (announce None _ (node_router toy_node)) as [us r] eqn:E.
  destruct H as (cs & H & _). exists (Ok tt), (set_cells cs (set_router r toy_node)).
  split; [exact H|reflexivity].
Defined.

(** The first address is refused, the second answers as the peer [3]. *)
Lemma connect_peer_first_answer_witness :
  ∃ t, connect_peer 1 (peer Byte.x03) toy_node tt =
    Some (Ok tt, add_session (peer Byte.x03) t tt (set_transport (true : transport) toy_node), tt).
Proof.
  eexists.
  refine (proj1 (proj2 (connect_peer_first_answer 1 (peer Byte.x03) toy_node tt))
    [toy_port 1] (toy_port 2) [] [Error.Transport "refused"] (true : transport) tt _ _ _ _ _ _ _ _ _ _).
  - vm_compute. reflexivity.
  - reflexivity.
  - vm_compute. reflexivity.
  - eapply refused_cons; [vm_compute; reflexivity|apply refused_nil].
  - vm_compute. reflexivity.
Defined.

Lemma build_well_formed_witness :
  let b := mkBuilder (C := answer_connection) toy_config (Some toy_keypair) (Some (true : transport)) in
  ∃ n, build (vreplicate 32 Byte.x00) b tt = Some (Ok n, tt) ∧ node_ok n ∧
    ds_commands (node_discovery n) = [Bootstrap; RegisterLocalAddr toy_addr].
Proof.
  intros b.
  pose proof (proj2 (build_well_formed (TR := answer_transport) (vreplicate 32 Byte.x00) b tt)) as H.
  destruct (H true eq_refl (Ok tt) true tt eq_refl) as (res & E & H').
  clear H. rename H' into H.
  change (match discovery_new toy_config toy_keypair 0 with
          | Ok d => ∃ n, res = Ok n ∧ node_ok n ∧ node_keypair n = toy_keypair ∧
              node_transport n = true ∧
              ds_commands (node_discovery n) = [Bootstrap; RegisterLocalAddr toy_addr] ∧
              node_router n = router_new (kp_to_peer_id toy_keypair) ∧ sessions n = ∅ ∧
              cells n = [] ∧ node_services n = ∅ ∧ running n = true
          | Err e => res = Err e
          | Panic => res = Panic
          end) in H.
  destruct (discovery_new toy_config toy_keypair 0) as [d| |] eqn:Ed;
    [|vm_compute in Ed; discriminate Ed..].
  destruct H as (n & -> & Hn & _ & _ & Hc & _).
  exists n. split; [exact E|]. split; [exact Hn|exact Hc].
Defined.

End node_witnesses.
