(* ===== verification/Session.v ===== *)
(** * omnimesh-sdk: sessions ([run_session_loop] of [sdk/src/lib.rs])

    The loop of a session as step functions, one for each branch of its [select!] and one
    for the send it may be in the middle of; and the two ends of a session together, over
    any transport that provides [Duplex].  The contract of a session is a pair of queues of
    plaintext messages ([Abstract]): the theorems show that the two loops, the two Noise
    transports and the connection implement it as long as no pong overtakes queued
    messages, that then everything that was queued is handled, under every schedule, if the
    connection can hold the messages of one direction ([unclogged]; [clogged_stuck] shows why),
    and that a pong that does overtake them, or two sends that are queued in the opposite order
    of their sealing, cut the session off. *)

From S2P Require Import Prelude Float64 Error Types Metrics Graph Router Transport Mock.
From S2P Require Import Identity Services Noise Handshake Wire Cache Config Discovery Node.

Section session.
Context {W : Type} {C : DynConnection W} {TR : DynTransport C}.
Context `{SN : Snow, D : Ed25519, P : Libp2p, SW : !Swarm P,
          BP : Bincode WirePacket, BS : Bincode ServicePayload,
          BU : Bincode LinkStateUpdate, BT : Bincode N}.

(** ** The loop *)

(** What [handle_wire_packet] sees of the node, and what it leaves behind. *)
Definition wire_state (c : SessionCell) (n : OmniMesh) : WireState :=
  mkWire (cell_transport c) (node_router n) (delivered n).

Definition put_wire_state (i : nat) (c : SessionCell) (s : WireState) (n : OmniMesh) : OmniMesh :=
  mkNode (node_keypair n) (node_peer_id n) (node_vip n) (node_transport n) (transport_held n)
    (node_discovery n) (w_router s) (sessions n)
    (<[i := cell_set_transport (w_transport s) c]> (cells n)) (session_loops n)
    (node_services n) (w_delivered s) (accept_task n) (probing_task n) (gossip_task n) (running n).

Definition put_loop (i : nat) (l : SessionLoop) (n : OmniMesh) : OmniMesh :=
  set_sessions (sessions n) (cells n) (<[i := l]> (session_loops n)) n.

Definition set_conn (k : conn) (sending : option (list byte)) (l : SessionLoop) : SessionLoop :=
  mkLoop (loop_peer l) k sending (loop_notified l).

(** The task is gone: its receiver with the messages in it, and its connection. *)
Definition drop_loop (i : nat) (k : conn) (n : OmniMesh) : io W OmniMesh := λ w,
  Some (set_sessions (sessions n) (alter (λ c, mkCell [] false (cell_transport c)) i (cells n))
          (delete i (session_loops n)) n, conn_drop k w).

(** After the loop: [let _ = conn.close().await], and the task returns. *)
Definition end_loop (i : nat) (k : conn) (n : OmniMesh) : io W OmniMesh :=
  '(_, k) ← conn_close k; drop_loop i k n.

(** Go on, leave the loop, or panic, after a [send]. *)
Definition after_send (i : nat) (l : SessionLoop) (r : Result unit) (k : conn) (n : OmniMesh)
    : io W OmniMesh :=
  match r with
  | Ok _ => mret (put_loop i (set_conn k None l) n)
  | Err _ => end_loop i k n
  | Panic => drop_loop i k n
  end.

(** [conn.send(bytes).await], of a queued message or of a reply: until it returns the loop
    does nothing else. *)
Definition session_send (i : nat) (n : OmniMesh) : io W OmniMesh :=
  match session_loops n !! i with
  | Some l =>
      match loop_sending l with
      | Some bytes =>
          '(r, k) ← conn_send bytes (loop_conn l); after_send i l r k n
      | None => λ _, None
      end
  | None => λ _, None
  end.

(** [outgoing = write_rx.recv()]; [None] comes when the queue is empty and no session holds
    the sender. *)
Definition session_outgoing (i : nat) (n : OmniMesh) : io W OmniMesh :=
  match session_loops n !! i, cells n !! i with
  | Some (mkLoop p k None s), Some c =>
      match cell_queue c with
      | bytes :: q =>
          mret (put_loop i (mkLoop p k (Some bytes) s)
                  (set_cells (<[i := mkCell q (cell_rx c) (cell_transport c)]> (cells n)) n))
      | [] => if decide (held n i) then λ _, None else end_loop i k n
      end
  | _, _ => λ _, None
  end.

(** [res = conn.recv()] and the packet handler; errors of the handler are logged. *)
Definition session_incoming (i : nat) (now : option Z) (n : OmniMesh) : io W OmniMesh :=
  match session_loops n !! i, cells n !! i with
  | Some (mkLoop p k None s), Some c =>
      '(r, k) ← conn_recv k;
      match r with
      | Ok (Some bytes) =>
          let '(res, st) := handle_wire_packet now p (node_services n) bytes (wire_state c n) in
          let n := put_wire_state i c st n in
          match res with
          | Ok reply => mret (put_loop i (mkLoop p k reply s) n)
          | Err _ => mret (put_loop i (mkLoop p k None s) n)
          | Panic => drop_loop i k n
          end
      | Ok None | Err _ => end_loop i k n
      | Panic => drop_loop i k n
      end
  | _, _ => λ _, None
  end.

(** [shutdown_rx.recv()] *)
Definition session_shutdown (i : nat) (n : OmniMesh) : io W OmniMesh :=
  match session_loops n !! i with
  | Some (mkLoop _ k None true) => end_loop i k n
  | _ => λ _, None
  end.

(** One step of the loop of session [i]; [select!] takes any branch that is ready.  The
    clock, when the packet handler reads it, shows a time in [K]. *)
Inductive session_step_at (K : option Z → Prop) (i : nat) : OmniMesh * W → OmniMesh * W → Prop :=
| step_send n w s' : session_send i n w = Some s' → session_step_at K i (n, w) s'
| step_outgoing n w s' : session_outgoing i n w = Some s' → session_step_at K i (n, w) s'
| step_incoming now n w s' : session_incoming i now n w = Some s' → K now →
    session_step_at K i (n, w) s'
| step_shutdown n w s' : session_shutdown i n w = Some s' → session_step_at K i (n, w) s'.

(** The clock may show any time. *)
Definition session_step : nat → OmniMesh * W → OmniMesh * W → Prop := session_step_at (λ _, True).

Lemma session_step_any K i z z' : session_step_at K i z z' → session_step i z z'.
Proof. by destruct 1; econstructor. Qed.

End session.

(** ** The loop keeps the node well formed *)

Section session_ok.
Context {W : Type} {C : DynConnection W} {TR : DynTransport C}.
Context `{SN : Snow, D : Ed25519, P : Libp2p, SW : !Swarm P,
          BP : Bincode WirePacket, BS : Bincode ServicePayload,
          BU : Bincode LinkStateUpdate, BT : Bincode N}.

Lemma put_loop_ok i l l0 n :
  node_ok n → session_loops n !! i = Some l0 → loop_peer l = loop_peer l0 → node_ok (put_loop i l n).
Proof.
  intros [Hid Hvip Hrt Hra Hinj Hlo Hpe Hq Hh] Hi Hp. split; try done; cbn.
  - intros j. rewrite <- Hlo, lookup_insert. case_decide; [subst|done].
    rewrite Hi. split; by eexists.
  - intros p j l1 Hj. rewrite lookup_insert. case_decide; [subst|by apply Hpe].
    intros [= <-]. rewrite Hp. by eapply Hpe.
Qed.

Lemma drop_loop_ok i k l n w n' w' :
  node_ok n → session_loops n !! i = Some l → drop_loop i k n w = Some (n', w') → node_ok n'.
Proof.
  intros [Hid Hvip Hrt Hra Hinj Hlo Hpe Hq Hh] Hi [= <- _]. split; try done; cbn.
  - intros p j. rewrite length_alter. apply Hra.
  - intros j. rewrite lookup_delete. case_decide as Hj.
    + subst j. rewrite list_lookup_alter_eq. split; [by intros []|].
      destruct (cells n !! i); done.
    + rewrite list_lookup_alter_ne by done. apply Hlo.
  - intros p j l1 Hj. rewrite lookup_delete. case_decide; [done|]. by apply Hpe.
  - apply Forall_alter; [done|]. intros c _ _. cbn. unfold SESSION_CAPACITY. lia.
Qed.

Lemma end_loop_ok i k l n w n' w' :
  node_ok n → session_loops n !! i = Some l → end_loop i k n w = Some (n', w') → node_ok n'.
Proof.
  intros Hn Hi. unfold end_loop, mbind, io_bind. destruct (conn_close k w) as [[[r k'] w1]|]; [|done].
  by eapply drop_loop_ok.
Qed.

Lemma put_wire_state_ok i c s n :
  node_ok n → cells n !! i = Some c → local_peer_id (w_router s) = local_peer_id (node_router n) →
  node_ok (put_wire_state i c s n).
Proof.
  intros Hn Hi Hr.
  pose proof (insert_cell_ok i c (cell_set_transport (w_transport s) c) n Hn Hi eq_refl
    (queue_ok _ _ _ Hn Hi)) as []. destruct Hn. split; try done. cbn. congruence.
Qed.

Lemma handle_router_local now from svcs bytes s :
  local_peer_id (w_router (handle_wire_packet now from svcs bytes s).2) = local_peer_id (w_router s).
Proof.
  destruct (handle_touches now from svcs bytes s)
    as [[-> _]|[[-> _]|[_ [(u & _ & ->)|(p & m & _ & ->)]]]]; [done..| |].
  - apply (process_spec u (w_router s)).
  - unfold router_record_latency, update_graph_link. by destruct (local_trackers _ !! p).
Qed.

Lemma session_step_ok i n w n' w' :
  node_ok n → session_step i (n, w) (n', w') → node_ok n'.
Proof.
  intros Hn Hs. inversion Hs as [? ? ? E|? ? ? E|? ? ? ? E|? ? ? E]; subst; clear Hs; revert E.
  - unfold session_send. destruct (session_loops n !! i) as [l|] eqn:El; [|done].
    destruct (loop_sending l); [|done]. run_io.
    destruct (conn_send _ _ w) as [[[[[]|e|] k] w1]|]; cbn [after_send]; [| | |done].
    + intros [= <- _]. by eapply put_loop_ok.
    + by eapply end_loop_ok.
    + by eapply drop_loop_ok.
  - unfold session_outgoing. destruct (session_loops n !! i) as [[p k [b|] s]|] eqn:El; [done| |done].
    destruct (cells n !! i) as [c|] eqn:Ec; [|done]. pose proof (queue_ok _ _ _ Hn Ec) as Hq.
    destruct (cell_queue c) as [|bytes q] eqn:Eq.
    + case_decide; [done|]. by eapply end_loop_ok.
    + intros [= <- _]. eapply (put_loop_ok i _ (mkLoop p k None s)); [|done|done].
      eapply insert_cell_ok; [done|done|done|]. cbn in *. lia.
  - unfold session_incoming. destruct (session_loops n !! i) as [[p k [b|] s]|] eqn:El; [done| |done].
    destruct (cells n !! i) as [c|] eqn:Ec; [|done]. run_io.
    destruct (conn_recv k w) as [[[[[bytes|]|e|] k'] w1]|]; [| | | |done];
      [|by eapply end_loop_ok|by eapply end_loop_ok|by eapply drop_loop_ok].
    pose proof (handle_router_local now p (node_services n) bytes (wire_state c n)) as Hr.
    destruct (handle_wire_packet _ _ _ _ _) as [res st]. cbn [snd] in Hr.
    assert (Hn1 : node_ok (put_wire_state i c st n)) by by apply put_wire_state_ok.
    destruct res; [intros [= <- _]; by eapply put_loop_ok..|by eapply drop_loop_ok].
  - unfold session_shutdown. destruct (session_loops n !! i) as [[p k [b|] []]|] eqn:El; try done.
    by eapply end_loop_ok.
Qed.

End session_ok.

(** ** The contract of a session *)

(** A message: its packet type and its plaintext. *)
Abbreviation message := (Z * list byte)%type.

(** What the messages of a session act on: the router, and what services were handed. *)
Abbreviation AppState := (Router * list (string * PeerId * list byte))%type.

Section contract.
Context `{BS : Bincode ServicePayload, BU : Bincode LinkStateUpdate, BT : Bincode N}.

(** Handling a message, with the reply it asks for. *)
Definition abs_handle (now : option Z) (from : PeerId)
    (svcs : gmap string (PeerId → list byte → Result unit)) (m : message) (a : AppState)
    : Result (option message) * AppState :=
  let '(ty, plain) := m in
  let '(r, log) := a in
  if decide (ty = 2)%Z then
    match deserialize plain with
    | inr sp =>
        match svcs !! service_id sp with
        | Some service =>
            (_ ← service from (service_payload sp); Ok None,
             (r, log ++ [(service_id sp, from, service_payload sp)]))
        | None => (Ok None, a)
        end
    | inl e => (Err (Serialization ("service payload deserialize: " +:+ e)), a)
    end
  else if decide (ty = 3)%Z then
    match deserialize plain with
    | inr u => (Ok None, ((process_link_state_update u r).2, log))
    | inl _ => (Ok None, a)
    end
  else if decide (ty = 6)%Z then (Ok (Some (7%Z, plain)), a)
  else if decide (ty = 7)%Z then
    match deserialize (A := N) plain with
    | inr t0 =>
        if decide (Z.of_N t0 ≤ now_u64 now)%Z then
          (Ok None, (router_record_latency from (f64_of_Z (now_u64 now - Z.of_N t0)) r, log))
        else (Ok None, a)
    | inl _ => (Ok None, a)
    end
  else (Ok None, a).

(** The two nodes and the messages between them. *)
Record Abstract := mkAbs {
  abs_a : AppState;
  abs_b : AppState;
  abs_ab : list message;
  abs_ba : list message;
}.

Definition abs_swap (s : Abstract) : Abstract :=
  mkAbs (abs_b s) (abs_a s) (abs_ba s) (abs_ab s).

(** [a] queues a message for [b], or handles the next message from [b] and queues its
    reply; a failing handler changes nothing else. *)
Inductive abs_step_a (from : PeerId) (svcs : gmap string (PeerId → list byte → Result unit))
    : Abstract → Abstract → Prop :=
| abs_send a b ab ba m :
    abs_step_a from svcs (mkAbs a b ab ba) (mkAbs a b (ab ++ [m]) ba)
| abs_receive now a b ab ba m r a' :
    abs_handle now from svcs m a = (r, a') → r ≠ Panic →
    abs_step_a from svcs (mkAbs a b ab (m :: ba))
      (mkAbs a' b (ab ++ match r with Ok (Some reply) => [reply] | _ => [] end) ba).

End contract.

(** ** The two ends *)

(** The peer a session's loop serves, and the services it hands messages to. *)
Abbreviation party := (PeerId * gmap string (PeerId → list byte → Result unit))%type.

Section link.
Context {W : Type} {C : DynConnection W} {DX : Duplex C} {TR : DynTransport C}.
Context `{SN : Snow, L : !SnowLaws SN, D : Ed25519, P : Libp2p, SW : !Swarm P,
          BP : Bincode WirePacket, BPL : !BincodeLaws BP, BS : Bincode ServicePayload,
          BU : Bincode LinkStateUpdate, BT : Bincode N}.

(** What sessions seal fits the connection. *)
Hypothesis packets_sendable : ∀ ty plain t w t',
  fits_noise plain → seal_packet ty plain t = (Ok w, t') → sendable w.

Definition wire_type (ty : Z) : Prop := (ty = 2 ∨ ty = 3 ∨ ty = 6 ∨ ty = 7)%Z.

Definition good_message (m : message) : Prop := wire_type m.1 ∧ fits_noise m.2.

(** A packet that some transport seals for the message, and the connection can carry. *)
Definition packet_of (m : message) (w : list byte) : Prop :=
  sendable w ∧ ∃ t t', seal_packet m.1 m.2 t = (Ok w, t').

(** The packets [ws] on their way from [a] to [b] carry, in this order, the messages [ms];
    what [a] seals next comes after them. *)
Fixpoint pipe (a b : NoiseTransport) (ws : list (list byte)) (ms : list message) : Prop :=
  match ws, ms with
  | [], [] => flows a b
  | w :: ws, m :: ms =>
      good_message m ∧ packet_of m w ∧
      ∃ ct b', deserialize w = inr (make_packet m.1 ct) ∧ noise_decrypt ct b = (Ok m.2, b') ∧
        pipe a b' ws ms
  | _, _ => False
  end.

Lemma pipe_length ws : ∀ a b ms, pipe a b ws ms → length ws = length ms.
Proof.
  induction ws as [|w ws IH]; intros a b [|m ms]; cbn; try done.
  intros (_ & _ & ct & b' & _ & _ & H). f_equal. by eapply IH.
Qed.

Lemma pipe_packets ws : ∀ a b ms, pipe a b ws ms → Forall2 packet_of ms ws.
Proof.
  induction ws as [|w ws IH]; intros a b [|m ms]; cbn; try done.
  intros (_ & ? & ct & b' & _ & _ & H). constructor; [done|]. by eapply IH.
Qed.

Lemma pipe_sendable ws a b ms : pipe a b ws ms → Forall sendable ws.
Proof.
  intros H%pipe_packets. eapply Forall2_Forall_r; [exact H|]. apply Forall_true. by intros m w [? _].
Qed.

Lemma pipe_good ws : ∀ a b ms, pipe a b ws ms → Forall good_message ms.
Proof.
  induction ws as [|w ws IH]; intros a b [|m ms]; cbn; try done.
  intros (? & _ & ct & b' & _ & _ & H). constructor; [done|]. by eapply IH.
Qed.

(** Only the sending direction of [a] and the receiving direction of [b] matter. *)
Lemma pipe_local ws : ∀ a a' b b' ms,
  ts_out (nt_state a') = ts_out (nt_state a) → ts_in (nt_state b') = ts_in (nt_state b) →
  pipe a b ws ms → pipe a' b' ws ms.
Proof.
  induction ws as [|w ws IH]; intros a a' b b' [|m ms] Ha Hb; cbn; try done.
  - unfold flows. by rewrite Ha, Hb.
  - intros (Hg & Hs & ct & b1 & Ed & Ec & H). split_and!; [done..|].
    destruct (decrypt_local ct b b' _ _ (eq_sym Hb) Ec) as (b2 & Ec' & Hb').
    exists ct, b2. split_and!; [done..|]. by apply (IH a a' b1 b2).
Qed.

(** Sealing appends to the pipe. *)
Lemma pipe_seal ws : ∀ a b ms m,
  pipe a b ws ms → good_message m →
  ∃ w a', seal_packet m.1 m.2 a = (Ok w, a') ∧ pipe a' b (ws ++ [w]) (ms ++ [m]) ∧
    ts_in (nt_state a') = ts_in (nt_state a).
Proof.
  intros a b ms m Hp Hm.
  assert (H : ∃ ct a', noise_encrypt m.2 a = (Ok ct, a') ∧
    ∀ w, deserialize w = inr (make_packet m.1 ct) → packet_of m w → pipe a' b (ws ++ [w]) (ms ++ [m])).
  { revert b ms Hp. induction ws as [|w0 ws IH]; intros b [|m0 ms]; cbn; try done.
    - intros Hf. destruct (flow_message a b m.2 Hf (proj2 Hm)) as (ct & a' & b' & Ee & Ed & Hf').
      exists ct, a'. split; [done|]. intros w Hw Hs. split_and!; [done..|]. by exists ct, b'.
    - intros (Hg & Hs & ct0 & b1 & Ed & Ec & H). destruct (IH _ _ H) as (ct & a' & Ee & Hk).
      exists ct, a'. split; [done|]. intros w Hw Hsw. split_and!; [done..|]. exists ct0, b1. auto. }
  destruct H as (ct & a' & Ee & Hk).
  destruct (serialize_unwrap_ok (make_packet m.1 ct)) as (w & Es & Dw).
  assert (E : seal_packet m.1 m.2 a = (Ok w, a')).
  { unfold seal_packet. rewrite Ee. cbn [attempt]. by rewrite Es. }
  exists w, a'. split_and!; [done| |by eapply encrypt_keeps_in].
  apply Hk; [done|]. split; [eapply packets_sendable; [apply Hm|done]|by eauto].
Qed.

(** The messages of a node that are not on the connection yet. *)
Definition outbox (l : SessionLoop) (c : SessionCell) : list (list byte) :=
  option_list (loop_sending l) ++ cell_queue c.

Definition end_at (n : OmniMesh) (i : nat) (l : SessionLoop) (c : SessionCell) : Prop :=
  session_loops n !! i = Some l ∧ cells n !! i = Some c ∧ cell_rx c = true.

Definition node_app (n : OmniMesh) : AppState := (node_router n, delivered n).

Definition serves (x : party) (n : OmniMesh) (l : SessionLoop) : Prop :=
  loop_peer l = x.1 ∧ node_services n = x.2.

(** The loops [i] of [na] and [j] of [nb] are the ends of a session that is in the state
    [s] of the contract, with the packets [ab] and [ba] on the connection. *)
Definition link_at (x y : party) (i j : nat) (na nb : OmniMesh) (w : W) (s : Abstract)
    (la : SessionLoop) (ca : SessionCell) (lb : SessionLoop) (cb : SessionCell)
    (ab ba : list (list byte)) : Prop :=
  end_at na i la ca ∧ end_at nb j lb cb ∧ serves x na la ∧ serves y nb lb ∧
  linked (loop_conn la) (loop_conn lb) ab ba w ∧
  pipe (cell_transport ca) (cell_transport cb) (ab ++ outbox la ca) (abs_ab s) ∧
  pipe (cell_transport cb) (cell_transport ca) (ba ++ outbox lb cb) (abs_ba s) ∧
  node_app na = abs_a s ∧ node_app nb = abs_b s.

Definition link (x y : party) (i j : nat) (na nb : OmniMesh) (w : W) (s : Abstract) : Prop :=
  ∃ la ca lb cb ab ba, link_at x y i j na nb w s la ca lb cb ab ba.

Lemma link_at_sym x y i j na nb w s la ca lb cb ab ba :
  link_at x y i j na nb w s la ca lb cb ab ba →
  link_at y x j i nb na w (abs_swap s) lb cb la ca ba ab.
Proof.
  intros (Ha & Hb & Sa & Sb & Hl & Hp & Hq & Ea & Eb). split_and!; try done. by apply linked_sym.
Qed.

Lemma link_sym x y i j na nb w s : link x y i j na nb w s → link y x j i nb na w (abs_swap s).
Proof. intros (la & ca & lb & cb & ab & ba & H%link_at_sym). by exists lb, cb, la, ca, ba, ab. Qed.

Lemma link_app x y i j na nb w s :
  link x y i j na nb w s → node_app na = abs_a s ∧ node_app nb = abs_b s.
Proof. by intros (la & ca & lb & cb & ab & ba & (_ & _ & _ & _ & _ & _ & _ & Ea & Eb)). Qed.

Lemma end_at_put_loop n i l c l' : end_at n i l c → end_at (put_loop i l' n) i l' c.
Proof. intros (Hl & Hc & Hr). by split_and!; [apply lookup_insert_eq|..]. Qed.

Lemma end_at_set_cell n i l c c' :
  end_at n i l c → cell_rx c' = true → end_at (set_cells (<[i := c']> (cells n)) n) i l c'.
Proof.
  intros (Hl & Hc & Hr) Hr'. split_and!; [done| |done]. cbn.
  apply list_lookup_insert_eq. by eapply lookup_lt_Some.
Qed.

Lemma end_at_put_wire n i l c st :
  end_at n i l c →
  end_at (put_wire_state i c st n) i l (cell_set_transport (w_transport st) c).
Proof.
  intros (Hl & Hc & Hr). split_and!; [done| |done]. cbn.
  apply list_lookup_insert_eq. by eapply lookup_lt_Some.
Qed.

(** The packet handler implements [abs_handle]: on a packet that decrypts it has the same
    effect on router and services, and it seals the reply. *)
Lemma handle_implements now from svcs w ty ct plain t st :
  wire_type ty → deserialize w = inr (make_packet ty ct) →
  noise_decrypt ct (w_transport st) = (Ok plain, t) →
  let '(res, st') := handle_wire_packet now from svcs w st in
  let '(r, a) := abs_handle now from svcs (ty, plain) (w_router st, w_delivered st) in
  (w_router st', w_delivered st') = a ∧
  match r with
  | Ok (Some (ty', plain')) =>
      ty' = 7%Z ∧ plain' = plain ∧
      (∀ b t', seal_packet ty' plain' t = (Ok b, t') → res = Ok (Some b) ∧ w_transport st' = t')
  | Ok None => res = Ok None ∧ w_transport st' = t
  | Err e => res = Err e ∧ w_transport st' = t
  | Panic => res = Panic ∧ w_transport st' = t
  end.
Proof.
  intros Ht Ed Ec. rewrite (handle_sealed now from svcs ty ct plain t w st Ed Ec Ht).
  destruct st as [t0 r0 d0]. cbn [w_router w_delivered with_transport w_transport].
  unfold abs_handle. cbn zeta. case_decide as H2.
  - unfold handle_data. destruct (deserialize plain) as [e|sp]; cbn [of_lib attempt]; [done|].
    destruct (svcs !! service_id sp) as [service|]; [|done].
    by destruct (service from (service_payload sp)).
  - case_decide as H3; [unfold handle_gossip; by destruct (deserialize plain)|].
    case_decide as H6.
    + unfold handle_ping, seal_packet. cbn [w_transport with_transport w_router w_delivered].
      destruct (noise_encrypt plain t) as [[enc|e|] t1]; cbn; [|split_and!; by intros..].
      destruct (serialize_unwrap (make_packet 7 enc)) as [wb|e|]; cbn; split_and!; try done.
      by intros b t' [= <- <-].
    + case_decide as H7; [|destruct Ht as [?|[?|[?|?]]]; done].
      unfold handle_pong. destruct (deserialize plain) as [e|t1]; [done|]. by case_decide.
Qed.

(** The send a loop is in the middle of. *)
Lemma session_send_linked i n l c b k ab ba w n' w' :
  end_at n i l c → loop_sending l = Some b → sendable b → linked (loop_conn l) k ab ba w →
  session_send i n w = Some (n', w') →
  ∃ k', n' = put_loop i (set_conn k' None l) n ∧ linked k' k (ab ++ [b]) ba w'.
Proof.
  intros (Hl & Hc & Hr) Hs Hb Hk. unfold session_send. rewrite Hl, Hs. run_io.
  destruct (conn_send b (loop_conn l) w) as [[[r k'] w1]|] eqn:E; [|done].
  destruct (linked_send _ _ _ _ _ _ _ _ _ Hk Hb E) as [-> Hk'].
  intros [= <- <-]. by exists k'.
Qed.

(** The packet a loop receives. *)
Lemma session_incoming_linked i now n l c k ab ba w n' w' :
  end_at n i l c → linked (loop_conn l) k ab ba w →
  session_incoming i now n w = Some (n', w') →
  loop_sending l = None ∧
  ∃ m ba' res st, ba = m :: ba' ∧
    handle_wire_packet now (loop_peer l) (node_services n) m (wire_state c n) = (res, st) ∧
    match res with
    | Panic => session_loops n' !! i = None
    | _ => ∃ k', linked k' k ab ba' w' ∧
        n' = put_loop i (set_conn k' (match res with Ok r => r | _ => None end) l)
               (put_wire_state i c st n)
    end.
Proof.
  intros (Hl & Hc & Hr) Hk. unfold session_incoming. rewrite Hl, Hc.
  destruct l as [p kl [b|] s]; [done|]. cbn [loop_conn loop_peer loop_sending] in *.
  run_io. destruct ba as [|m ba].
  { by rewrite (linked_wait _ _ _ _ Hk). }
  destruct (linked_recv _ _ _ _ _ _ Hk) as (k' & w1 & -> & Hk').
  destruct (handle_wire_packet _ _ _ _ _) as [res st] eqn:E. intros Hn. split; [done|].
  exists m, ba, res, st. split; [done|]. split; [done|].
  destruct res; [injection Hn as <- <-; by exists k'..|].
  unfold drop_loop in Hn. injection Hn as <- _. cbn. apply lookup_delete_eq.
Qed.

(** ** Refinement *)

(** Steps of a loop that goes on, in which no reply overtakes queued messages. *)
Inductive ordered_step (i : nat) : OmniMesh * W → OmniMesh * W → Prop :=
| ordered_send n w n' w' : session_send i n w = Some (n', w') →
    is_Some (session_loops n' !! i) → ordered_step i (n, w) (n', w')
| ordered_outgoing n w n' w' : session_outgoing i n w = Some (n', w') →
    is_Some (session_loops n' !! i) → ordered_step i (n, w) (n', w')
| ordered_incoming now n w n' w' : session_incoming i now n w = Some (n', w') →
    is_Some (session_loops n' !! i) →
    (∀ l, session_loops n' !! i = Some l → is_Some (loop_sending l) →
       cell_queue <$> cells n !! i = Some []) →
    ordered_step i (n, w) (n', w').

(** The messages a handler's result adds to the own direction. *)
Definition replies (r : Result (option message)) : list message :=
  match r with Ok (Some reply) => [reply] | _ => [] end.

Section step_a.
Context (x y : party) (i j : nat) (na nb : OmniMesh) (w : W) (s : Abstract).
Context (la : SessionLoop) (ca : SessionCell) (lb : SessionLoop) (cb : SessionCell).
Context (ab ba : list (list byte)).
Hypothesis (Hlink : link_at x y i j na nb w s la ca lb cb ab ba).

Lemma link_send na' w' :
  session_send i na w = Some (na', w') →
  ∃ b k, loop_sending la = Some b ∧ sessions na' = sessions na ∧
    link_at x y i j na' nb w' s (set_conn k None la) ca lb cb (ab ++ [b]) ba.
Proof.
  intros E. destruct Hlink as (Ha & Hb & Sa & Sb & Hl & Hp & Hq & Ea & Eb).
  destruct (loop_sending la) as [b|] eqn:El;
    [|unfold session_send in E; rewrite (proj1 Ha), El in E; done].
  assert (Hs : sendable b).
  { pose proof (pipe_sendable _ _ _ _ Hp) as [_ Hf]%Forall_app. unfold outbox in Hf. rewrite El in Hf.
    by inversion Hf. }
  destruct (session_send_linked _ _ _ _ _ _ _ _ _ _ _ Ha El Hs Hl E) as (k & -> & Hl').
  exists b, k. split_and!; [done|done|]. split_and!; try done; [by apply (end_at_put_loop _ _ la)|].
  unfold outbox in *. cbn. rewrite El in Hp. cbn in Hp. by rewrite <- app_assoc.
Qed.

Lemma link_outgoing na' w' :
  session_outgoing i na w = Some (na', w') → held na i ∨ is_Some (session_loops na' !! i) →
  ∃ b q, loop_sending la = None ∧ cell_queue ca = b :: q ∧ sessions na' = sessions na ∧
    link_at x y i j na' nb w' s (set_conn (loop_conn la) (Some b) la)
      (mkCell q true (cell_transport ca)) lb cb ab ba.
Proof.
  destruct Hlink as ((Hla & Hca & Hra) & Hb & Sa & Sb & Hl & Hp & Hq & Ea & Eb).
  unfold session_outgoing. rewrite Hla, Hca.
  destruct la as [p k [b|] sh] eqn:Ela; [done|]. unfold outbox in Hp.
  cbn [loop_sending option_list app] in Hp. destruct (cell_queue ca) as [|b q] eqn:Eq.
  - case_decide as Hh; [done|]. unfold end_loop, mbind, io_bind.
    destruct (conn_close k w) as [[[r k'] w1]|]; [|done]. intros [= <- _] [?|Hgo]; [done|].
    cbn in Hgo. rewrite lookup_delete_eq in Hgo. by destruct Hgo.
  - intros [= <- <-] _. exists b, q. rewrite Hra. split_and!; try done. split_and!; try done.
    by eapply end_at_put_loop, end_at_set_cell.
Qed.

(** The state after a received packet, with the packet the loop goes on to send. *)
Lemma link_received st k reply ba' a' mab mba w' :
  let n' := put_loop i (set_conn k reply la) (put_wire_state i ca st na) in
  linked k (loop_conn lb) ab ba' w' → (w_router st, w_delivered st) = a' →
  pipe (w_transport st) (cell_transport cb) (ab ++ option_list reply ++ cell_queue ca) mab →
  pipe (cell_transport cb) (w_transport st) (ba' ++ outbox lb cb) mba →
  link_at x y i j n' nb w' (mkAbs a' (abs_b s) mab mba) (set_conn k reply la)
    (cell_set_transport (w_transport st) ca) lb cb ab ba'.
Proof.
  intros n' Hl' Ha' Hp' Hq'. destruct Hlink as (Ha & Hb & Sa & Sb & Hl & Hp & Hq & Ea & Eb).
  split_and!; try done. by eapply end_at_put_loop, end_at_put_wire.
Qed.

(** A packet is received: the next message of the contract is handled. *)
Lemma link_incoming now na' w' :
  session_incoming i now na w = Some (na', w') →
  ∃ wm ba' m mba r a', ba = wm :: ba' ∧ abs_ba s = m :: mba ∧ loop_sending la = None ∧
    abs_handle now x.1 x.2 m (abs_a s) = (r, a') ∧
    match r with
    | Panic => session_loops na' !! i = None
    | _ =>
        ∃ k reply t, session_loops na' !! i = Some (set_conn k reply la) ∧
          sessions na' = sessions na ∧ length (option_list reply) = length (replies r) ∧
          (replies r = [] ∨ cell_queue ca = [] →
           link_at x y i j na' nb w' (mkAbs a' (abs_b s) (abs_ab s ++ replies r) mba)
             (set_conn k reply la) (cell_set_transport t ca) lb cb ab ba')
    end.
Proof.
  intros E. destruct Hlink as (Ha & Hb & [Sa Sa'] & Sb & Hl & Hp & Hq & Ea & Eb).
  destruct (session_incoming_linked _ _ _ _ _ _ _ _ _ _ _ Ha Hl E)
    as (Hls & wm & ba' & res & st & Eba & Eh & Hres). rewrite Eba in Hq.
  destruct (abs_ba s) as [|m mba] eqn:Em; [done|].
  destruct Hq as (Hg & Hs & ct & t & Ed & Ec & Hq).
  pose proof (handle_implements now (loop_peer la) (node_services na) wm m.1 ct m.2 t
    (wire_state ca na) (proj1 Hg) Ed Ec) as Himp.
  rewrite Eh, Sa, Sa', <- surjective_pairing in Himp.
  change (w_router (wire_state ca na), w_delivered (wire_state ca na)) with (node_app na) in Himp.
  rewrite Ea in Himp. destruct (abs_handle now x.1 x.2 m (abs_a s)) as [r a'] eqn:Er.
  exists wm, ba', m, mba, r, a'. split_and!; [done..|]. destruct Himp as [Happ Hr].
  assert (Hp' : pipe t (cell_transport cb) (ab ++ outbox la ca) (abs_ab s)).
  { apply (pipe_local _ (cell_transport ca) _ (cell_transport cb)); [|done..].
    by eapply (decrypt_keeps_out ct (cell_transport ca)). }
  unfold outbox in Hp'. rewrite Hls in Hp'. cbn [option_list app] in Hp'.
  destruct r as [[[ty plain]|]|e|]; cbn [replies].
  2,3: destruct Hr as [-> Ht]; destruct Hres as (k & Hl' & ->); exists k, None, (w_transport st);
    split_and!; [apply lookup_insert_eq|done|done|]; intros _;
    apply link_received; [done|done|by rewrite app_nil_r, Ht|by rewrite Ht].
  - destruct Hr as (-> & -> & Hseal).
    assert (Hm : good_message (7%Z, m.2)) by (split; [by right; right; right|apply Hg]).
    destruct (pipe_seal _ _ _ _ _ Hp' Hm) as (wr & t' & Es & Hp2 & Hin).
    destruct (Hseal _ _ Es) as [-> Ht]. destruct Hres as (k & Hl' & ->).
    exists k, (Some wr), (w_transport st). split_and!; [apply lookup_insert_eq|done|done|].
    intros [?|Hqe]; [done|]. apply link_received; [done|done| |].
    + rewrite Hqe, app_nil_r in Hp2. by rewrite Hqe, Ht.
    + rewrite Ht. by apply (pipe_local _ (cell_transport cb) _ t).
  - destruct Hr as [-> _]. done.
Qed.

End step_a.

(** The two nodes: their loops run, and they post messages to the session. *)
Inductive sys_step (i j : nat) : OmniMesh * OmniMesh * W → OmniMesh * OmniMesh * W → Prop :=
| sys_a na nb w na' w' : ordered_step i (na, w) (na', w') →
    sys_step i j (na, nb, w) (na', nb, w')
| sys_b na nb w nb' w' : ordered_step j (nb, w) (nb', w') →
    sys_step i j (na, nb, w) (na, nb', w')
| sys_post_a na nb w m c c' : good_message m → cells na !! i = Some c →
    post (seal_packet m.1 m.2) c = Some c' →
    sys_step i j (na, nb, w) (set_cells (<[i := c']> (cells na)) na, nb, w)
| sys_post_b na nb w m c c' : good_message m → cells nb !! j = Some c →
    post (seal_packet m.1 m.2) c = Some c' →
    sys_step i j (na, nb, w) (na, set_cells (<[j := c']> (cells nb)) nb, w).

(** The contract, for both ends. *)
Definition abs_step (x y : party) (s s' : Abstract) : Prop :=
  abs_step_a x.1 x.2 s s' ∨ abs_step_a y.1 y.2 (abs_swap s) (abs_swap s').

Lemma link_ordered x y i j na nb w s na' w' :
  link x y i j na nb w s → ordered_step i (na, w) (na', w') →
  ∃ s', (s' = s ∨ abs_step_a x.1 x.2 s s') ∧ link x y i j na' nb w' s'.
Proof.
  intros (la & ca & lb & cb & ab & ba & Hl) Hs. inversion Hs as [? ? ? ? E|? ? ? ? E Hgo|? ? ? ? ? E Hgo Hord]; subst.
  - exists s. split; [by left|].
    edestruct link_send as (b & k & _ & _ & Hl'); [done..|]. by do 6 eexists.
  - exists s. split; [by left|].
    edestruct link_outgoing as (b & q & _ & _ & _ & Hl'); [done|done|by right|]. by do 6 eexists.
  - edestruct link_incoming as (wm & ba' & m & mba & r & a' & Eba & Em & Hls & Eh & Hr); [done..|].
    assert (Hnp : r ≠ Panic) by (intros ->; rewrite Hr in Hgo; by destruct Hgo).
    assert (Hr' : ∃ k reply t, session_loops na' !! i = Some (set_conn k reply la) ∧
      length (option_list reply) = length (replies r) ∧
      (replies r = [] ∨ cell_queue ca = [] →
       link_at x y i j na' nb w' (mkAbs a' (abs_b s) (abs_ab s ++ replies r) mba)
         (set_conn k reply la) (cell_set_transport t ca) lb cb ab ba')).
    { destruct r; [..|done]; destruct Hr as (k & reply & t & ? & ? & ? & ?); by exists k, reply, t. }
    destruct Hr' as (k & reply & t & Hlo & Hlen & Hk). eexists. split; [right|do 6 eexists; apply Hk].
    + destruct s as [a b mab mba0]. cbn in *. subst mba0. by eapply abs_receive.
    + destruct (replies r); [by left|right]. destruct reply; [|done].
      specialize (Hord _ Hlo ltac:(by eexists)).
      rewrite (proj1 (proj2 (proj1 Hl))) in Hord. by injection Hord.
Qed.

Lemma link_at_post x y i j na nb w s m la ca lb cb ab ba c' :
  link_at x y i j na nb w s la ca lb cb ab ba → good_message m →
  post (seal_packet m.1 m.2) ca = Some c' →
  link_at x y i j (set_cells (<[i := c']> (cells na)) na) nb w
    (mkAbs (abs_a s) (abs_b s) (abs_ab s ++ [m]) (abs_ba s)) la c' lb cb ab ba ∧
  length (cell_queue c') = S (length (cell_queue ca)).
Proof.
  intros (Ha & Hb & Sa & Sb & Hl & Hp & Hq & Ea & Eb) Hm Hpost.
  destruct (pipe_seal _ _ _ _ _ Hp Hm) as (wr & t' & Es & Hp2 & Hin).
  revert Hpost. unfold post. rewrite Es. unfold cell_send, cell_set_transport.
  cbn [cell_rx cell_queue cell_transport]. rewrite (proj2 (proj2 Ha)). cbn [negb].
  case_decide; [|done]. intros [= <-]. split; [|cbn; rewrite length_app; cbn; lia].
  split_and!; try done.
  - by eapply end_at_set_cell.
  - unfold outbox in *. cbn. by rewrite <- !app_assoc in *.
  - by apply (pipe_local _ (cell_transport cb) _ (cell_transport ca)).
Qed.

Lemma link_post x y i j na nb w s m c c' :
  link x y i j na nb w s → good_message m → cells na !! i = Some c →
  post (seal_packet m.1 m.2) c = Some c' →
  link x y i j (set_cells (<[i := c']> (cells na)) na) nb w
    (mkAbs (abs_a s) (abs_b s) (abs_ab s ++ [m]) (abs_ba s)).
Proof.
  intros (la & ca & lb & cb & ab & ba & Hl) Hm Hc Hpost.
  rewrite (proj1 (proj2 (proj1 Hl))) in Hc. injection Hc as <-.
  destruct (link_at_post _ _ _ _ _ _ _ _ _ _ _ _ _ _ _ _ Hl Hm Hpost) as [Hl' _].
  by exists la, c', lb, cb, ab, ba.
Qed.

Lemma abs_swap_swap s : abs_swap (abs_swap s) = s.
Proof. by destruct s. Qed.

Lemma link_sys_step x y i j na nb w s na' nb' w' :
  link x y i j na nb w s → sys_step i j (na, nb, w) (na', nb', w') →
  ∃ s', (s' = s ∨ abs_step x y s s') ∧ link x y i j na' nb' w' s'.
Proof.
  intros Hl Hs. inversion Hs; subst.
  - edestruct link_ordered as (s' & [->|Hst] & Hl'); [done..|by eauto|]. exists s'.
    split; [by right; left|done].
  - edestruct link_ordered as (s' & Hst & Hl'%link_sym); [by apply link_sym|done|].
    exists (abs_swap s'). split; [|done]. destruct Hst as [->|Hst].
    + left. apply abs_swap_swap.
    + right. right. by rewrite abs_swap_swap.
  - eexists. split; [|by eapply link_post]. right. left. destruct s. apply abs_send.
  - eexists. split; [|apply link_sym; by eapply link_post; [by apply link_sym|..]].
    right. right. destruct s. apply abs_send.
Qed.

(** C4: A session is a pair of queues of plaintext messages.  Whatever the two nodes post to
    a session and however the two loops run, over any transport that keeps the promise of
    [Duplex], as long as the loops go on and no pong overtakes queued messages: the
    state of the two loops, the channels, the Noise transports and the connection is that
    of the contract, in which each end queues messages for the other and handles, one at a
    time and in order, exactly the messages the other has queued, replies included. *)
Theorem session_refines x y i j na nb w s na' nb' w' :
  link x y i j na nb w s → rtc (sys_step i j) (na, nb, w) (na', nb', w') →
  ∃ s', rtc (abs_step x y) s s' ∧ link x y i j na' nb' w' s'.
Proof.
  intros Hl Hr. remember (na, nb, w) as z eqn:Ez. remember (na', nb', w') as z' eqn:Ez'.
  revert na nb w s Hl Ez. induction Hr as [z|z [[n1 n2] w1] z' Hs _ IH]; intros na nb w s Hl ->.
  - injection Ez' as -> -> ->. exists s. split; [done|exact Hl].
  - destruct (link_sys_step _ _ _ _ _ _ _ _ _ _ _ Hl Hs) as (s1 & Hst & Hl1).
    destruct (IH Ez' _ _ _ _ Hl1 eq_refl) as (s' & Hrtc & Hl'). exists s'. split; [|done].
    destruct Hst as [->|Hst]; [done|]. by eapply rtc_l.
Qed.

(** ** Delivery *)

(** Messages that ask for no reply: application data and routing updates. *)
Definition quiet (m : message) : Prop := (m.1 = 2 ∨ m.1 = 3)%Z.

Definition no_panic (x : party) : Prop :=
  ∀ id service d, x.2 !! id = Some service → service x.1 d ≠ Panic.

Lemma quiet_handle now (x : party) m a r a' :
  quiet m → no_panic x → abs_handle now x.1 x.2 m a = (r, a') →
  replies r = [] ∧ r ≠ Panic ∧ a' = (abs_handle None x.1 x.2 m a).2.
Proof.
  destruct m as [ty plain], a as [rt log]. intros Hq Hx. unfold abs_handle. cbn [fst] in Hq.
  destruct Hq as [Hty|Hty]; cbn [fst] in Hty; subst ty.
  - rewrite !decide_True by done. destruct (deserialize plain) as [e|sp]; [by intros [= <- <-]|].
    destruct (x.2 !! service_id sp) as [service|] eqn:Es; [|by intros [= <- <-]].
    pose proof (Hx _ _ (service_payload sp) Es).
    destruct (service x.1 (service_payload sp)); by intros [= <- <-].
  - rewrite !(decide_False (P := 3%Z = 2%Z)) by done. rewrite !decide_True by done.
    destruct (deserialize plain); by intros [= <- <-].
Qed.

(** Handling messages one after another. *)
Definition abs_apply (x : party) (ms : list message) (a : AppState) : AppState :=
  foldl (λ a m, (abs_handle None x.1 x.2 m a).2) a ms.

(** What is still to be done for the messages of one end. *)
Definition load (l : SessionLoop) (c : SessionCell) (out : list (list byte)) : nat :=
  3 * length (cell_queue c) + 2 * length (option_list (loop_sending l)) + length out.

(** Either loop makes a step, at a time in [K]. *)
Inductive loops_step_at (K : option Z → Prop) (i j : nat)
    : OmniMesh * OmniMesh * W → OmniMesh * OmniMesh * W → Prop :=
| loops_a na nb w na' w' : session_step_at K i (na, w) (na', w') →
    loops_step_at K i j (na, nb, w) (na', nb, w')
| loops_b na nb w nb' w' : session_step_at K j (nb, w) (nb', w') →
    loops_step_at K i j (na, nb, w) (na, nb', w').

Definition loops_step : nat → nat → OmniMesh * OmniMesh * W → OmniMesh * OmniMesh * W → Prop :=
  loops_step_at (λ _, True).

(** A loop that is not told to end. *)
Definition undisturbed (n : OmniMesh) (i : nat) (l : SessionLoop) : Prop :=
  held n i ∧ loop_notified l = false.

(** The connection has room for the packets of the messages, all at once. *)
Definition roomy (ms : list message) : Prop :=
  ∀ l q r ws, ms = l ++ q ++ r → q ≠ [] → Forall2 packet_of q ws → room ws.

(** A loop that waits for room does not receive, so two loops that both wait do so for ever;
    it is enough that the messages of one direction never wait. *)
Definition unclogged (ab ba : list message) : Prop := roomy ab ∨ roomy ba.

Lemma roomy_nil : roomy [].
Proof. intros l q r ws E Hq. symmetry in E. by apply app_nil in E as [_ [-> _]%app_nil]. Qed.

Lemma roomy_tail m ms : roomy (m :: ms) → roomy ms.
Proof. intros H l q r ws ->. by apply (H (m :: l) q r). Qed.

Lemma roomy_upto n ms :
  (∀ q, Forall sendable q → length q ≤ n → room q) → length ms ≤ n → roomy ms.
Proof.
  intros Hroom Hn l q r ws -> _ Hf. apply Hroom.
  - eapply Forall2_Forall_r; [exact Hf|]. apply Forall_true. by intros m w [? _].
  - rewrite <- (Forall2_length _ _ _ Hf). rewrite !length_app in Hn. lia.
Qed.

(** What may be under way in the two directions of a session while it drains. *)
Definition steady (F : list message → list message → Prop) : Prop :=
  (∀ m ab ba, F (m :: ab) ba → F ab ba) ∧ (∀ m ab ba, F ab (m :: ba) → F ab ba) ∧
  ∀ ab ba, F ab ba → unclogged ab ba.

(** At most [c] messages, all in one direction. *)
Definition one_way (c : nat) (ab ba : list message) : Prop := length ab ≤ c ∧ ba = [].

Lemma unclogged_steady : steady unclogged.
Proof.
  split_and!; [intros m ab ba [H|H]|intros m ab ba [H|H]|done].
  - left. by eapply roomy_tail.
  - by right.
  - by left.
  - right. by eapply roomy_tail.
Qed.

Lemma unclogged_sym ab ba : unclogged ab ba → unclogged ba ab.
Proof. intros [?|?]; [by right|by left]. Qed.

Lemma one_way_unclogged ms : unclogged ms [].
Proof. right. apply roomy_nil. Qed.

Lemma one_way_steady c : steady (one_way c).
Proof.
  split_and!; [|by intros m ab ba []|intros ab ba [_ ->]; apply one_way_unclogged].
  intros m ab ba [Hc ->]. split; [cbn in Hc; lia|done].
Qed.

Lemma steady_flip F : steady F → steady (flip F).
Proof. intros (H1 & H2 & H3). split_and!; [intros ???; apply H2|intros ???; apply H1|]. intros ab ba ?%H3. by apply unclogged_sym. Qed.

(** A session in which [k] steps remain, what is under way satisfies [F], and handling it
    leads to [fa] and [fb]; the session tables are [sa] and [sb]. *)
Definition draining (x y : party) (i j : nat) (F : list message → list message → Prop) (sa sb : gmap PeerId nat) (fa fb : AppState)
    (k : nat)
    (z : OmniMesh * OmniMesh * W) : Prop :=
  ∃ na nb w s la ca lb cb ab ba,
    z = (na, nb, w) ∧ link_at x y i j na nb w s la ca lb cb ab ba ∧
    undisturbed na i la ∧ undisturbed nb j lb ∧ sessions na = sa ∧ sessions nb = sb ∧
    Forall quiet (abs_ab s) ∧ Forall quiet (abs_ba s) ∧
    F (abs_ab s) (abs_ba s) ∧
    abs_apply x (abs_ba s) (abs_a s) = fa ∧ abs_apply y (abs_ab s) (abs_b s) = fb ∧
    k = load la ca ab + load lb cb ba.

(** Everything was handled: the session is in place, with nothing queued or on the way. *)
Definition drained (x y : party) (i j : nat) (sa sb : gmap PeerId nat) (fa fb : AppState)
    (z : OmniMesh * OmniMesh * W) : Prop :=
  link x y i j z.1.1 z.1.2 z.2 (mkAbs fa fb [] []) ∧
  sessions z.1.1 = sa ∧ sessions z.1.2 = sb ∧
  (∀ l, session_loops z.1.1 !! i = Some l → undisturbed z.1.1 i l) ∧
  (∀ l, session_loops z.1.2 !! j = Some l → undisturbed z.1.2 j l).

Definition swap_sys (z : OmniMesh * OmniMesh * W) : OmniMesh * OmniMesh * W :=
  (z.1.2, z.1.1, z.2).

Lemma draining_sym x y i j F sa sb fa fb k z :
  draining x y i j F sa sb fa fb k z → draining y x j i (flip F) sb sa fb fa k (swap_sys z).
Proof.
  intros (na & nb & w & s & la & ca & lb & cb & ab & ba & -> & Hl%link_at_sym & H).
  exists nb, na, w, (abs_swap s), lb, cb, la, ca, ba, ab. cbn. split; [done|]. split; [done|].
  destruct H as (?&?&?&?&?&?&?&?&?&?). split_and!; try done. unfold load in *. lia.
Qed.

(** What one step of a loop does to the session: it moves own messages along, or handles
    the next message of the other end. *)
Lemma link_at_step_at K x y i j na nb w s la ca lb cb ab ba na' w' :
  link_at x y i j na nb w s la ca lb cb ab ba → undisturbed na i la →
  session_step_at K i (na, w) (na', w') →
  (∃ la' ca' ab', link_at x y i j na' nb w' s la' ca' lb cb ab' ba ∧ undisturbed na' i la' ∧
     sessions na' = sessions na ∧ load la' ca' ab' < load la ca ab) ∨
  (∃ now wm ba' m mba r a', K now ∧ ba = wm :: ba' ∧ abs_ba s = m :: mba ∧
     abs_handle now x.1 x.2 m (abs_a s) = (r, a') ∧
     (r ≠ Panic → replies r = [] ∨ cell_queue ca = [] →
      ∃ la' ca', link_at x y i j na' nb w' (mkAbs a' (abs_b s) (abs_ab s ++ replies r) mba) la' ca' lb cb ab ba' ∧
        undisturbed na' i la' ∧ sessions na' = sessions na ∧
        load la' ca' ab = load la ca ab + 2 * length (replies r))).
Proof.
  intros Hl [Hh Hno] Hs.
  assert (Hheld : ∀ n, sessions n = sessions na → held n i) by (unfold held; by intros n ->).
  inversion Hs as [? ? ? E|? ? ? E|now ? ? ? E HK|? ? ? E]; subst; clear Hs.
  - left. destruct (link_send _ _ _ _ _ _ _ _ _ _ _ _ _ _ Hl _ _ E) as (b & kk & Hsd & Hse & Hl').
    do 3 eexists. split_and!; [exact Hl'|by split; [apply Hheld|]|done|].
    unfold load. rewrite Hsd, length_app. cbn. lia.
  - left. destruct (link_outgoing _ _ _ _ _ _ _ _ _ _ _ _ _ _ Hl _ _ E (or_introl Hh))
      as (b & q & Hsd & Hq & Hse & Hl').
    do 3 eexists. split_and!; [exact Hl'|by split; [apply Hheld|]|done|].
    unfold load. rewrite Hsd, Hq. cbn. lia.
  - right. destruct (link_incoming _ _ _ _ _ _ _ _ _ _ _ _ _ _ Hl _ _ _ E)
      as (wm & ba' & m & mba & r & a' & Eba & Em & Hsd & Eh & Hr).
    exists now, wm, ba', m, mba, r, a'. split_and!; [done..|]. intros Hnp Hord.
    assert (Hr' : ∃ kk reply t, sessions na' = sessions na ∧
      length (option_list reply) = length (replies r) ∧
      link_at x y i j na' nb w' (mkAbs a' (abs_b s) (abs_ab s ++ replies r) mba)
        (set_conn kk reply la) (cell_set_transport t ca) lb cb ab ba').
    { destruct r; [..|done]; destruct Hr as (kk & reply & t & ? & ? & ? & Hk);
        exists kk, reply, t; split_and!; auto. }
    destruct Hr' as (kk & reply & t & Hse & Hlen & Hl').
    do 2 eexists. split_and!; [exact Hl'|by split; [apply Hheld|]|done|].
    unfold load. rewrite Hsd. cbn. cbn in Hlen. rewrite Hlen. lia.
  - unfold session_shutdown in E. rewrite (proj1 (proj1 Hl)) in E.
    destruct la as [p kk [|] []]; done.
Qed.

Lemma link_at_step x y i j na nb w s la ca lb cb ab ba na' w' :
  link_at x y i j na nb w s la ca lb cb ab ba → undisturbed na i la →
  session_step i (na, w) (na', w') →
  (∃ la' ca' ab', link_at x y i j na' nb w' s la' ca' lb cb ab' ba ∧ undisturbed na' i la' ∧
     sessions na' = sessions na ∧ load la' ca' ab' < load la ca ab) ∨
  (∃ now wm ba' m mba r a', ba = wm :: ba' ∧ abs_ba s = m :: mba ∧
     abs_handle now x.1 x.2 m (abs_a s) = (r, a') ∧
     (r ≠ Panic → replies r = [] ∨ cell_queue ca = [] →
      ∃ la' ca', link_at x y i j na' nb w' (mkAbs a' (abs_b s) (abs_ab s ++ replies r) mba) la' ca' lb cb ab ba' ∧
        undisturbed na' i la' ∧ sessions na' = sessions na ∧
        load la' ca' ab = load la ca ab + 2 * length (replies r))).
Proof.
  intros Hl Hu Hs. destruct (link_at_step_at _ _ _ _ _ _ _ _ _ _ _ _ _ _ _ _ _ Hl Hu Hs)
    as [?|(now & wm & ba' & m & mba & r & a' & _ & H)]; [by left|right].
  by exists now, wm, ba', m, mba, r, a'.
Qed.

(** Every step of a loop is progress. *)
Lemma draining_step_a x y i j F sa sb fa fb k na nb w na' w' :
  steady F → no_panic x → draining x y i j F sa sb fa fb k (na, nb, w) → session_step i (na, w) (na', w') →
  ∃ k', k' < k ∧ draining x y i j F sa sb fa fb k' (na', nb, w').
Proof.
  intros (_ & HF & _) Hx (na0 & nb0 & w0 & s & la & ca & lb & cb & ab & ba & [= <- <- <-] & Hl & Ua & Ub &
    Ta & Tb & Qa & Qb & Hf & Fa & Fb & ->) Hs.
  destruct (link_at_step _ _ _ _ _ _ _ _ _ _ _ _ _ _ _ _ Hl Ua Hs)
    as [(la' & ca' & ab' & Hl' & Ua' & Hse & Hk)|(now & wm & ba' & m & mba & r & a' & -> & Em & Eh & Hr)].
  - exists (load la' ca' ab' + load lb cb ba). split; [lia|].
    exists na', nb, w', s, la', ca', lb, cb, ab', ba. split_and!; try done. congruence.
  - rewrite Em in *. apply Forall_cons in Qb as [Qm Qb].
    destruct (quiet_handle _ _ _ _ _ _ Qm Hx Eh) as (Hrep & Hnp & Ea').
    destruct (Hr Hnp (or_introl Hrep)) as (la' & ca' & Hl' & Ua' & Hse & Hk).
    rewrite Hrep, app_nil_r in *. cbn [length] in Hk.
    exists (load la' ca' ab + load lb cb ba'). split; [unfold load in *; cbn; lia|].
    exists na', nb, w'. do 7 eexists. split_and!; [done|exact Hl'|..]; cbn; try done.
    + congruence.
    + by eapply HF.
    + by rewrite Ea'.
Qed.

(** While something is left to do, some step is possible: a loop that cannot move has nothing
    to send and nothing to receive, unless it waits for room. *)
Lemma link_progress (K : option Z → Prop) now x y i j na nb w s la ca lb cb ab ba :
  K now → link_at x y i j na nb w s la ca lb cb ab ba → roomy (abs_ab s) ∨ ab = [] →
  (∃ na' w', session_step_at K i (na, w) (na', w')) ∨ (ba = [] ∧ outbox la ca = []).
Proof.
  intros HK Hl Hroom.
  pose proof Hl as ((Hla & Hca & Hra) & Hb & Sa & Sb & Hk & Hp & Hq & Ea & Eb).
  destruct la as [p kk [b|] sh] eqn:Ela.
  - left. pose proof (pipe_packets _ _ _ _ Hp) as Hpk. pose proof (pipe_sendable _ _ _ _ Hp) as Hsnd.
    unfold outbox in Hpk, Hsnd. cbn [loop_sending] in Hpk, Hsnd.
    change (option_list (Some b)) with [b] in Hpk, Hsnd. rewrite app_assoc in Hpk.
    assert (Hsb : sendable b) by (apply Forall_app in Hsnd as [_ Hf]; by inversion Hf).
    destruct (linked_send_room _ _ _ _ _ b Hk Hsb) as (k' & w' & E & _).
    { destruct Hroom as [Hroom| ->]; [|by apply room_one].
      apply Forall2_app_inv_r in Hpk as (q & r & Hq1 & _ & Eq). apply (Hroom [] q r); [done| |done].
      intros ->. apply Forall2_nil_inv_l in Hq1. by destruct ab. }
    eexists _, w'. apply step_send. unfold session_send. rewrite Hla. cbn [loop_sending].
    run_io. cbn [loop_conn] in *. rewrite E. done.
  - destruct (cell_queue ca) as [|b q] eqn:Eq.
    + destruct ba as [|wm ba].
      * right. split; [done|]. unfold outbox. by rewrite Eq.
      * left. destruct (linked_recv _ _ _ _ _ _ Hk) as (k' & w' & E & _).
        destruct (handle_wire_packet now p (node_services na) wm (wire_state ca na)) as [res st] eqn:Eh.
        cbn [loop_conn] in E.
        assert (Hs : is_Some (session_incoming i now na w)).
        { unfold session_incoming. rewrite Hla, Hca. run_io. rewrite E, Eh.
          destruct res; by eexists. }
        destruct Hs as [[n' w''] Hs]. exists n', w''. by eapply step_incoming.
    + left. eexists _, w. apply step_outgoing. unfold session_outgoing. rewrite Hla, Hca, Eq. done.
Qed.

(** Both loops together: one of them moves, or nothing is left. *)
Lemma loops_progress (K : option Z → Prop) now x y i j na nb w s la ca lb cb ab ba :
  K now → link_at x y i j na nb w s la ca lb cb ab ba → unclogged (abs_ab s) (abs_ba s) →
  (∃ z', loops_step_at K i j (na, nb, w) z') ∨
  (ab = [] ∧ ba = [] ∧ outbox la ca = [] ∧ outbox lb cb = []).
Proof.
  intros HK Hl [Hr|Hr].
  - destruct (link_progress _ _ _ _ _ _ _ _ _ _ _ _ _ _ _ _ HK Hl (or_introl Hr)) as [(na' & w' & Hs)|[-> Oa]];
      [left; eexists; by apply loops_a|].
    destruct (link_progress _ _ _ _ _ _ _ _ _ _ _ _ _ _ _ _ HK (link_at_sym _ _ _ _ _ _ _ _ _ _ _ _ _ _ Hl) (or_intror eq_refl))
      as [(nb' & w' & Hs)|[-> Ob]]; [left; eexists; by apply loops_b|by right].
  - destruct (link_progress _ _ _ _ _ _ _ _ _ _ _ _ _ _ _ _ HK (link_at_sym _ _ _ _ _ _ _ _ _ _ _ _ _ _ Hl) (or_introl Hr))
      as [(nb' & w' & Hs)|[-> Ob]]; [left; eexists; by apply loops_b|].
    destruct (link_progress _ _ _ _ _ _ _ _ _ _ _ _ _ _ _ _ HK Hl (or_intror eq_refl)) as [(na' & w' & Hs)|[-> Oa]];
      [left; eexists; by apply loops_a|by right].
Qed.

(** Why one direction must fit: a loop that waits in [send] neither receives nor sees the
    shutdown signal, so two loops that wait for each other wait for ever. *)
Lemma clogged_stuck K i j na nb w la lb wa wb z' :
  session_loops na !! i = Some la → session_loops nb !! j = Some lb →
  loop_sending la = Some wa → loop_sending lb = Some wb →
  conn_send wa (loop_conn la) w = None → conn_send wb (loop_conn lb) w = None →
  ¬ loops_step_at K i j (na, nb, w) z'.
Proof.
  assert (Hone : ∀ k n l b s, session_loops n !! k = Some l → loop_sending l = Some b →
      conn_send b (loop_conn l) w = None → ¬ session_step_at K k (n, w) s).
  { intros k n [p c [b'|] nt] b s Hl [= ->] Hw Hs. cbn [loop_conn] in Hw.
    inversion Hs as [? ? ? E|? ? ? E|? ? ? ? E|? ? ? E]; subst;
      unfold session_send, session_outgoing, session_incoming, session_shutdown in E;
      rewrite Hl in E; try done.
    cbn in E. unfold mbind, io_bind in E. by rewrite Hw in E. }
  intros Ha Hb Sa Sb Wa Wb Hs.
  inversion Hs as [? ? ? na' w' Hst|? ? ? nb' w' Hst]; subst;
    [exact (Hone _ _ _ _ _ Ha Sa Wa Hst)|exact (Hone _ _ _ _ _ Hb Sb Wb Hst)].
Qed.

Lemma draining_progress x y i j F sa sb fa fb k z :
  steady F → draining x y i j F sa sb fa fb k z →
  drained x y i j sa sb fa fb z ∨ ∃ z', loops_step i j z z'.
Proof.
  intros (_ & _ & HF) (na & nb & w & s & la & ca & lb & cb & ab & ba & -> & Hl & Ua & Ub & Ta & Tb & Qa &
    Qb & Hf & Fa & Fb & ->).
  destruct (loops_progress (λ _, True) None _ _ _ _ _ _ _ _ _ _ _ _ _ _ I Hl (HF _ _ Hf)) as [?|(-> & -> & Oa & Ob)]; [by right|].
  left. destruct s as [a b mab mba]. cbn [abs_a abs_b abs_ab abs_ba] in *.
  assert (mab = [] ∧ mba = []) as [-> ->].
  { destruct Hl as (_ & _ & _ & _ & _ & Hp & Hq & _). apply pipe_length in Hp, Hq.
    rewrite Oa in Hp. rewrite Ob in Hq. by destruct mab, mba. }
  cbn in Fa, Fb. subst. split; [by exists la, ca, lb, cb, [], []|].
  destruct Hl as ((El & _) & (El' & _) & _). split_and!; try done; cbn.
  - intros l. rewrite El. intros [= <-]. apply Ua.
  - intros l. rewrite El'. intros [= <-]. apply Ub.
Qed.

Lemma draining_step x y i j F sa sb fa fb k z z' :
  steady F → no_panic x → no_panic y → draining x y i j F sa sb fa fb k z → loops_step i j z z' →
  ∃ k', k' < k ∧ draining x y i j F sa sb fa fb k' z'.
Proof.
  intros HF Hx Hy Hd Hs. inversion Hs as [? ? ? na' w' Hst|? ? ? nb' w' Hst]; subst.
  - by eapply draining_step_a.
  - destruct (draining_step_a _ _ _ _ _ _ _ _ _ _ _ _ _ _ _ (steady_flip _ HF) Hy (draining_sym _ _ _ _ _ _ _ _ _ _ _ Hd) Hst)
      as (k' & Hk & Hd'). exists k'. split; [done|]. by apply draining_sym in Hd'.
Qed.

(** Two loops with quiet messages run until everything is handled. *)
Lemma link_drains x y i j na nb w s :
  no_panic x → no_panic y → unclogged (abs_ab s) (abs_ba s) →
  link x y i j na nb w s → Forall quiet (abs_ab s) → Forall quiet (abs_ba s) →
  (∀ l, session_loops na !! i = Some l → undisturbed na i l) →
  (∀ l, session_loops nb !! j = Some l → undisturbed nb j l) →
  inevitably (loops_step i j)
    (drained x y i j (sessions na) (sessions nb)
       (abs_apply x (abs_ba s) (abs_a s)) (abs_apply y (abs_ab s) (abs_b s)))
    (na, nb, w).
Proof.
  intros Hx Hy Hroom (la & ca & lb & cb & ab & ba & Hl) Qa Qb Ua Ub.
  eapply (inevitably_measure _ _ (draining x y i j unclogged (sessions na) (sessions nb) (abs_apply x (abs_ba s) (abs_a s))
    (abs_apply y (abs_ab s) (abs_b s)))).
  - intros k z. apply draining_progress, unclogged_steady.
  - intros k z z'. by apply draining_step; [apply unclogged_steady|..].
  - exists na, nb, w, s, la, ca, lb, cb, ab, ba. split_and!; try done.
    + apply Ua, Hl.
    + apply Ub, (proj1 (proj2 Hl)).
Qed.

(** A message is posted while the session drains. *)
Lemma draining_post x y i j c sa sb fa fb k na na' nb w m ca c' :
  draining x y i j (one_way c) sa sb fa fb k (na, nb, w) → good_message m → quiet m →
  cells na !! i = Some ca → post (seal_packet m.1 m.2) ca = Some c' →
  cells na' !! i = Some c' → session_loops na' = session_loops na → sessions na' = sessions na →
  node_services na' = node_services na → node_app na' = node_app na →
  draining x y i j (one_way (S c)) sa sb fa (abs_apply y [m] fb) (3 + k) (na', nb, w).
Proof.
  intros (na0 & nb0 & w0 & s & la & ca0 & lb & cb & ab & ba & [= <- <- <-] & Hl & Ua & Ub & Ta & Tb &
    Qa & Qb & Hf & Fa & Fb & ->) Hm Hq Hc Hpost Hc' El Es Esv Eapp.
  rewrite (proj1 (proj2 (proj1 Hl))) in Hc. injection Hc as ->.
  destruct (link_at_post _ _ _ _ _ _ _ _ _ _ _ _ _ _ _ _ Hl Hm Hpost) as [Hl' Hlen].
  exists na', nb, w. do 7 eexists. split; [done|]. split_and!.
  - destruct Hl' as ((H1 & H2 & H3) & Hb & [S1 S2] & Sb & Hk & Hp & Hr & Ea & Eb).
    split_and!; [|exact Hb|split|exact Sb|exact Hk|exact Hp|exact Hr|..]; cbn in *; try congruence.
    + split_and!; [by rewrite El|done..].
    + by rewrite Eapp.
  - destruct Ua as [Hh Hn]. split; [|done]. unfold held. by rewrite Es.
  - done.
  - congruence.
  - done.
  - cbn. apply Forall_app. by split; [|apply Forall_singleton].
  - done.
  - cbn. destruct Hf as [Hf ->]. split; [rewrite length_app; cbn; lia|done].
  - done.
  - cbn. unfold abs_apply in *. by rewrite foldl_app, <- Fb.
  - unfold load. lia.
Qed.

(** What one loop leaves as it was: the other sessions, the tables. *)
Definition beside (i : nat) (n n' : OmniMesh) : Prop :=
  (∀ k, k ≠ i → cells n' !! k = cells n !! k ∧ session_loops n' !! k = session_loops n !! k) ∧
  sessions n' = sessions n ∧ node_services n' = node_services n.

Lemma drop_loop_beside i kk n w n' w' : drop_loop i kk n w = Some (n', w') → beside i n n'.
Proof.
  intros [= <- _]. split; [|done]. intros k Hk. cbn. by rewrite list_lookup_alter_ne, lookup_delete_ne by done.
Qed.

Lemma end_loop_beside i kk n w n' w' : end_loop i kk n w = Some (n', w') → beside i n n'.
Proof.
  unfold end_loop. run_io. destruct (conn_close kk w) as [[[r kk'] w2]|]; [|done]. apply drop_loop_beside.
Qed.

Lemma put_loop_beside i l n n' : beside i n n' → beside i n (put_loop i l n').
Proof.
  intros [H ?]. split; [|done]. intros k Hk. destruct (H k Hk) as [<- <-]. cbn. by rewrite lookup_insert_ne.
Qed.

Lemma set_cell_beside i c n : beside i n (set_cells (<[i := c]> (cells n)) n).
Proof. split; [|done]. intros k Hk. cbn. by rewrite list_lookup_insert_ne. Qed.

Lemma put_wire_beside i c st n : beside i n (put_wire_state i c st n).
Proof. split; [|done]. intros k Hk. cbn. by rewrite list_lookup_insert_ne. Qed.

Lemma beside_refl i n : beside i n n.
Proof. by split. Qed.

Lemma beside_trans i n n' n'' : beside i n n' → beside i n' n'' → beside i n n''.
Proof.
  intros (H & Hs & Hv) (H' & Hs' & Hv'). split; [|split; congruence].
  intros k Hk. destruct (H k Hk), (H' k Hk). split; congruence.
Qed.

(** A loop touches no other session. *)
Lemma session_step_beside i n w n' w' : session_step i (n, w) (n', w') → beside i n n'.
Proof.
  intros Hs. inversion Hs as [? ? ? E|? ? ? E|? ? ? ? E|? ? ? E]; subst; clear Hs; revert E.
  - unfold session_send, after_send. run_io.
    repeat case_match; try done; [|apply end_loop_beside|apply drop_loop_beside].
    intros [= <- _]. apply put_loop_beside, beside_refl.
  - unfold session_outgoing. repeat case_match; try done; [apply end_loop_beside|].
    intros [= <- _]. apply put_loop_beside, set_cell_beside.
  - unfold session_incoming. run_io. repeat case_match; try done;
      try apply end_loop_beside; try apply drop_loop_beside.
    1,2: intros [= <- _]; apply put_loop_beside, put_wire_beside.
    intros E. eapply beside_trans; [apply put_wire_beside|by eapply drop_loop_beside].
  - unfold session_shutdown. repeat case_match; try done. apply end_loop_beside.
Qed.

Lemma session_step_cells i n w n' w' k :
  session_step i (n, w) (n', w') → k ≠ i → cells n' !! k = cells n !! k.
Proof. intros [H _]%session_step_beside Hk. by apply H. Qed.

(** A loop that goes on has sent or received on its connection, or left it alone. *)
Lemma session_step_moved i n w n' w' l l' :
  session_step i (n, w) (n', w') → session_loops n !! i = Some l → session_loops n' !! i = Some l' →
  moved (loop_conn l) w (loop_conn l') w'.
Proof.
  assert (Hdrop : ∀ kk n w n' w', drop_loop i kk n w = Some (n', w') → session_loops n' !! i = Some l' → False).
  { intros kk n0 w0 n1 w1 [= <- _]. cbn. by rewrite lookup_delete_eq. }
  assert (Hend : ∀ kk n w n' w', end_loop i kk n w = Some (n', w') → session_loops n' !! i = Some l' → False).
  { intros kk n0 w0 n1 w1. unfold end_loop. run_io. destruct (conn_close kk w0) as [[[r kk'] w2]|]; [|done].
    apply Hdrop. }
  intros Hs Hl Hl'. inversion Hs as [? ? ? E|? ? ? E|? ? ? ? E|? ? ? E]; subst; clear Hs; revert E.
  - unfold session_send, after_send. run_io. rewrite Hl. destruct (loop_sending l) as [b|]; [|done].
    destruct (conn_send b (loop_conn l) w) as [[[r k] w1]|] eqn:Es; [|done].
    destruct r; [|intros E; by edestruct Hend|intros E; by edestruct Hdrop].
    intros [= <- <-]. cbn in Hl'. rewrite lookup_insert_eq in Hl'. injection Hl' as <-.
    by eapply moved_sent.
  - unfold session_outgoing. rewrite Hl. destruct l as [p k [] s]; [done|].
    destruct (cells n !! i) as [c|]; [|done]. destruct (cell_queue c).
    + case_decide; [done|]. intros E. by edestruct Hend.
    + intros [= <- <-]. cbn in Hl'. rewrite lookup_insert_eq in Hl'. injection Hl' as <-. apply moved_not.
  - unfold session_incoming. run_io. rewrite Hl. destruct l as [p k [] s]; [done|].
    destruct (cells n !! i) as [c|]; [|done].
    destruct (conn_recv k w) as [[[r k1] w1]|] eqn:Er; [|done].
    destruct r as [[bytes|]| |]; [|intros E; by edestruct Hend..|intros E; by edestruct Hdrop].
    destruct (handle_wire_packet _ _ _ _ _) as [res st].
    destruct res; [..|intros E; by edestruct Hdrop]; intros [= <- <-]; cbn in Hl';
      rewrite lookup_insert_eq in Hl'; injection Hl' as <-; by eapply moved_received.
  - unfold session_shutdown. rewrite Hl. destruct l as [p k [] []]; try done. intros E. by edestruct Hend.
Qed.

(** C10: Everything queued is handled.  Two linked sessions whose channels hold any mix of
    application data and routing updates, in both directions, with services that do not
    panic and a connection that can hold the messages of at least one direction at once (of
    which there may be none): however the two loops are scheduled, they reach a state in which nothing is queued or on the way any more and
    each node has handled exactly what the other had queued, in order; and the session is
    then ready for more. *)
Theorem session_delivers x y i j na nb w s :
  no_panic x → no_panic y → unclogged (abs_ab s) (abs_ba s) →
  link x y i j na nb w s → Forall quiet (abs_ab s) → Forall quiet (abs_ba s) →
  (∀ l, session_loops na !! i = Some l → undisturbed na i l) →
  (∀ l, session_loops nb !! j = Some l → undisturbed nb j l) →
  inevitably (loops_step i j)
    (λ z, link x y i j z.1.1 z.1.2 z.2
            (mkAbs (abs_apply x (abs_ba s) (abs_a s)) (abs_apply y (abs_ab s) (abs_b s)) [] []))
    (na, nb, w).
Proof.
  intros. eapply inevitably_weaken; [|by eapply (link_drains x y i j na nb w s)]. by intros z [? _].
Qed.

End link.

(** ** Two nodes in memory *)

Section session_witnesses.

#[local] Existing Instance toy_snow.
#[local] Existing Instance toy_snow_laws.
#[local] Existing Instance toy_bincode.
#[local] Existing Instance toy_bincode_laws.
#[local] Existing Instance Discovery.toy_ed25519.
#[local] Existing Instance key_libp2p.
#[local] Existing Instance toy_swarm.

Definition chat_services : gmap string (PeerId → list byte → Result unit) :=
  {["chat"%string := λ from payload, (chat_handle_message from payload).1;
    "rpc"%string := λ _ _, Ok tt; "pubsub"%string := λ _ _, Ok tt]}.

(** A node with one session, to the peer [p] over the connection [c]. *)
Definition toy_end (p : PeerId) (c : MockConnection) : OmniMesh :=
  mkNode toy_keypair (peer Byte.x01) toy_vip mock_new false
    (mkDiscovery cache_new [] (0 : swarm) true) (router_new (peer Byte.x01))
    {[p := 0]} [mkCell [] true toy_transport] {[0 := mkLoop p c None false]}
    chat_services [] (Running false) Spawned Spawned true.

Definition toy_na : OmniMesh := toy_end (peer Byte.x02) toy_ca.
Definition toy_nb : OmniMesh := toy_end (peer Byte.x01) toy_cb.
Definition toy_x : party := (peer Byte.x02, chat_services).
Definition toy_y : party := (peer Byte.x01, chat_services).

Definition toy_abs : Abstract := mkAbs (node_app toy_na) (node_app toy_nb) [] [].

Lemma toy_link : link toy_x toy_y 0 0 toy_na toy_nb toy_world toy_abs.
Proof.
  do 6 eexists. split_and!; [by split_and!|by split_and!|done|done| | | |done|done].
  - exact toy_opening.
  - done.
  - done.
Qed.

Lemma toy_sendable ty plain t w t' :
  fits_noise plain → seal_packet ty plain t = (Ok w, t') → sendable (C := mock_connection) w.
Proof. done. Qed.

(** A chat message, posted by the first node. *)
Definition toy_message : message :=
  (2%Z, bits_of_pos (encode (mkService "chat" [Byte.x41]))).

Lemma toy_message_good : good_message toy_message.
Proof. split; [by left|vm_compute; discriminate]. Qed.

Definition toy_posted : OmniMesh :=
  match post (seal_packet toy_message.1 toy_message.2) (mkCell [] true toy_transport) with
  | Some c => set_cells (<[0 := c]> (cells toy_na)) toy_na
  | None => toy_na
  end.

Lemma toy_post_step :
  sys_step 0 0 (toy_na, toy_nb, toy_world) (toy_posted, toy_nb, toy_world).
Proof.
  apply (sys_post_a 0 0 toy_na toy_nb toy_world toy_message (mkCell [] true toy_transport));
    [exact toy_message_good|reflexivity|reflexivity].
Qed.

Lemma session_refines_witness :
  ∃ s', rtc (abs_step toy_x toy_y) toy_abs s' ∧
    link toy_x toy_y 0 0 toy_posted toy_nb toy_world s'.
Proof.
  exact (session_refines toy_sendable toy_x toy_y 0 0 toy_na toy_nb toy_world toy_abs
    toy_posted toy_nb toy_world toy_link (rtc_once _ _ toy_post_step)).
Defined.

Definition toy_abs_posted : Abstract :=
  mkAbs (node_app toy_na) (node_app toy_nb) [toy_message] [].

Lemma toy_link_posted : link toy_x toy_y 0 0 toy_posted toy_nb toy_world toy_abs_posted.
Proof.
  exact (link_post toy_sendable toy_x toy_y 0 0 toy_na toy_nb toy_world toy_abs toy_message
    (mkCell [] true toy_transport) _ toy_link toy_message_good eq_refl eq_refl).
Qed.

Lemma toy_posted_undisturbed l :
  session_loops toy_posted !! 0 = Some l → undisturbed toy_posted 0 l.
Proof.
  assert (E : session_loops toy_posted = session_loops toy_na ∧
    sessions toy_posted = sessions toy_na).
  { unfold toy_posted. by destruct (post _ _). }
  destruct E as [-> E]. unfold toy_na, toy_end. cbn [session_loops].
  intros [_ <-]%lookup_singleton_Some. split; [|done].
  apply held_iff. exists (peer Byte.x02). rewrite E. apply lookup_singleton_eq.
Qed.

Lemma toy_nb_undisturbed l : session_loops toy_nb !! 0 = Some l → undisturbed toy_nb 0 l.
Proof.
  unfold toy_nb, toy_end. cbn [session_loops]. intros [_ <-]%lookup_singleton_Some.
  split; [|done]. apply held_iff. exists (peer Byte.x01). apply lookup_singleton_eq.
Qed.

Lemma chat_no_panic p : no_panic (p, chat_services).
Proof.
  intros id service d. unfold chat_services. cbn [fst snd].
  intros [[_ <-]|[_ [[_ <-]|[_ [_ <-]%lookup_singleton_Some]]%lookup_insert_Some]]%lookup_insert_Some;
    [|done..].
  unfold chat_handle_message. by destruct (deserialize d).
Qed.

Lemma session_delivers_witness :
  inevitably (loops_step 0 0)
    (λ z, link toy_x toy_y 0 0 z.1.1 z.1.2 z.2
       (mkAbs (node_app toy_na)
          (router_new (peer Byte.x01), [("chat"%string, peer Byte.x01, [Byte.x41])]) [] []))
    (toy_posted, toy_nb, toy_world).
Proof.
  assert (E : abs_apply toy_y [toy_message] (node_app toy_nb) =
    (router_new (peer Byte.x01), [("chat"%string, peer Byte.x01, [Byte.x41])]))
    by (vm_compute; reflexivity).
  rewrite <- E.
  apply (session_delivers toy_sendable toy_x toy_y 0 0 toy_posted toy_nb toy_world toy_abs_posted).
  - apply chat_no_panic.
  - apply chat_no_panic.
  - apply one_way_unclogged.
  - exact toy_link_posted.
  - repeat constructor.
  - constructor.
  - exact toy_posted_undisturbed.
  - exact toy_nb_undisturbed.
Defined.

(** *** A pong overtakes a queued message *)

Inductive action := ASend | AOutgoing | AIncoming.

Definition act (x : action) (n : OmniMesh) : io MockWorld OmniMesh :=
  match x with
  | ASend => session_send 0 n
  | AOutgoing => session_outgoing 0 n
  | AIncoming => session_incoming 0 None n
  end.

(** Steps of the first ([true]) and the second node. *)
Fixpoint script (l : list (bool * action)) (z : OmniMesh * OmniMesh * MockWorld)
    : option (OmniMesh * OmniMesh * MockWorld) :=
  match l with
  | [] => Some z
  | (true, x) :: l => '(na, w) ← act x z.1.1 z.2; script l (na, z.1.2, w)
  | (false, x) :: l => '(nb, w) ← act x z.1.2 z.2; script l (z.1.1, nb, w)
  end.

Lemma script_run l : ∀ z z', script l z = Some z' → rtc (loops_step 0 0) z z'.
Proof.
  assert (Ha : ∀ x n w z, act x n w = Some z → session_step 0 (n, w) z).
  { intros [] n w z E; [by apply step_send|by apply step_outgoing|by eapply step_incoming]. }
  induction l as [|[[] x] l IH]; intros [[na nb] w] z'; cbn [script fst snd]; [by intros [= <-]|..].
  - destruct (act x na w) as [[n' w']|] eqn:E; [|done]. intros Hs. eapply rtc_l; [|by apply IH].
    apply loops_a. by apply (Ha x).
  - destruct (act x nb w) as [[n' w']|] eqn:E; [|done]. intros Hs. eapply rtc_l; [|by apply IH].
    apply loops_b. by apply (Ha x).
Qed.

(** What a script ends with. *)
Lemma script_reaches {A} (f : OmniMesh * OmniMesh * MockWorld → A) l z v :
  f <$> script l z = Some v → ∃ na nb w, rtc (loops_step 0 0) z (na, nb, w) ∧ f (na, nb, w) = v.
Proof.
  destruct (script l z) as [[[na nb] w]|] eqn:Es; [|done]. intros [= E]. exists na, nb, w.
  split; [by eapply script_run|done].
Qed.

(** The second node has queued a ping. *)
Definition toy_pinging : OmniMesh :=
  match post (seal_packet 6 (bits_of_pos (encode 1000%N))) (mkCell [] true toy_transport) with
  | Some c => set_cells (<[0 := c]> (cells toy_nb)) toy_nb
  | None => toy_nb
  end.

Definition overtaking : list (bool * action) :=
  [(false, AOutgoing); (false, ASend); (true, AIncoming); (true, ASend); (true, AOutgoing);
   (true, ASend); (false, AIncoming); (false, AIncoming)].

(** The nonces of the session: the next one to send, and the next one expected. *)
Definition nonces (n : OmniMesh (C := mock_connection) (TR := mock_transport)) : option (nat * nat) :=
  match cells n !! 0 with
  | Some c => Some (nt_state (N := toy_snow) (cell_transport c))
  | None => None
  end.

(** The first node has a chat message in its channel when the ping arrives.  The pong is
    sealed after the chat message and sent before it.  The second node rejects the pong,
    accepts the chat message, and has then lost count: the first node is at the nonce 2,
    the second one expects the nonce 1. *)
Lemma pong_overtakes :
  ∃ na nb w, rtc (loops_step 0 0) (toy_posted, toy_pinging, toy_world) (na, nb, w) ∧
    nonces na = Some (2, 1) ∧ nonces nb = Some (1, 1) ∧ length (delivered nb) = 1 ∧
    node_router nb = router_new (peer Byte.x01).
Proof.
  destruct (script_reaches (λ z, (nonces z.1.1, nonces z.1.2, length (delivered z.1.2), node_router z.1.2))
    overtaking (toy_posted, toy_pinging, toy_world)
    (Some (2, 1), Some (1, 1), 1, router_new (peer Byte.x01))) as (na & nb & w & Hr & [= E1 E2 E3 E4]);
    [vm_compute; reflexivity|]. by exists na, nb, w.
Qed.

(** *** Two sends at once

    Two tasks of the first node send at the same time: both seal their packets, and the
    second one queues first. *)
Definition racing : option OmniMesh :=
  let '(r1, n) := send_seal (T := Node.toy_text) (peer Byte.x02) "chat" [Byte.x01] toy_na in
  let '(r2, n) := send_seal (T := Node.toy_text) (peer Byte.x02) "chat" [Byte.x02] n in
  match r1, r2 with
  | Ok (i1, wire1), Ok (i2, wire2) =>
      '(_, n) ← send_queue i2 wire2 n; '(_, n) ← send_queue i1 wire1 n; Some n
  | _, _ => None
  end.

Definition racing_sent : list (bool * action) :=
  [(true, AOutgoing); (true, ASend); (true, AOutgoing); (true, ASend); (false, AIncoming); (false, AIncoming)].

(** Of the two messages only one arrives, and the second node has then lost count: it
    expects the nonce 1 while the first node is at the nonce 2. *)
Lemma sends_overtake :
  ∃ n na nb w, racing = Some n ∧ rtc (loops_step 0 0) (n, toy_nb, toy_world) (na, nb, w) ∧
    nonces na = Some (2, 0) ∧ nonces nb = Some (0, 1) ∧ length (delivered nb) = 1.
Proof.
  set (f := λ z : OmniMesh * OmniMesh * MockWorld, (nonces z.1.1, nonces z.1.2, length (delivered z.1.2))).
  assert (E : (n ← racing; f <$> script racing_sent (n, toy_nb, toy_world)) = Some (Some (2, 0), Some (0, 1), 1))
    by (vm_compute; reflexivity).
  destruct racing as [n|]; [|discriminate E]. exists n.
  destruct (script_reaches f racing_sent (n, toy_nb, toy_world) _ E) as (na & nb & w & Hr & [= E1 E2 E3]).
  by exists na, nb, w.
Qed.

(** From then on every message of the first node is rejected, and the second node stays
    where it is: the session is cut off for good, while both ends consider it open. *)
Lemma overtaken_rejects_all ty plain (t : NoiseTransport) w t' now from svcs st o :
  wire_type ty → (nt_state t).1 = S (S o) → (nt_state (w_transport st)).2 = 1 →
  seal_packet ty plain t = (Ok w, t') →
  (nt_state t').1 = S (S (S o)) ∧
  ∃ e st', handle_wire_packet now from svcs w st = (Err e, st') ∧
    w_router st' = w_router st ∧ w_delivered st' = w_delivered st ∧
    (nt_state (w_transport st')).2 = 1.
Proof.
  intros Hty Ho Hi. destruct t as [[o1 i1] rs], st as [[[o2 i2] rs2] r d]. cbn in Ho, Hi. subst.
  unfold seal_packet, noise_encrypt. cbn [nt_state ts_write toy_snow fst snd of_lib attempt].
  destruct (serialize_unwrap_ok (make_packet ty (put_nonce (S (S o)) plain))) as (b & Es & Ed).
  rewrite Es. cbn [attempt]. intros [= <- <-]. split; [done|].
  unfold handle_wire_packet. rewrite Ed. cbn [of_lib attempt magic make_packet packet_type].
  rewrite decide_False by (intros H; by apply H). unfold decrypted_then. cbn.
  destruct Hty as [->|[->|[->| ->]]]; cbn; by eexists _, _.
Qed.

End session_witnesses.
