(* ===== verification/Mesh.v ===== *)
(** * The mesh: whole nodes, and two of them together

    [node_step] collects everything that can happen to a node: the calls of its users, its
    background workers, its session loops and its discovery service, in any order and with
    any behaviour of the world; every state it reaches is well formed.  Then the parts are
    composed: a connection is dialled, both ends shake hands and enter a session; what one
    node sends its peer's services receive, and what its router knows of its links, a
    gossip tick makes the peer's router know. *)

From S2P Require Import Prelude Float64 Error Types Metrics Graph Router Transport Mock.
From S2P Require Import Identity Services Noise Handshake Wire Cache Config Discovery Node Session.

(** ** One node *)

Section whole_node.
Context {W : Type} {C : DynConnection W} {TR : DynTransport C}.
Context `{SN : Snow, D : Ed25519, P : Libp2p, SW : !Swarm P,
          BH : Bincode HandshakePayload, BP : Bincode WirePacket, BS : Bincode ServicePayload,
          BU : Bincode LinkStateUpdate, BT : Bincode N, T : TextCodecs,
          I : !MapIter PeerId nat}.

(** The worker subscribes to the shutdown signal, ticks, or finds the signal. *)
Inductive ticker_step (tick : OmniMesh → option (Result unit * OmniMesh))
    : Task → OmniMesh → Task → OmniMesh → Prop :=
| ticker_start n : ticker_step tick Spawned n (Running false) n
| ticker_tick b n n' : tick n = Some (Ok tt, n') → ticker_step tick (Running b) n (Running b) n'
| ticker_crash b n n' : tick n = Some (Panic, n') → ticker_step tick (Running b) n Stopped n'
| ticker_stop t t' n : stop t = Some t' → ticker_step tick t n t' n.

(** The parts into which waiting cuts a call, between which other calls run: the transport
    has dialled, or accepted and the mutex is released; a handshake has succeeded and its
    session is entered; an update was drawn from the router; a packet is sealed; a packet
    is queued.  Which transport, peer, connection and packet is left open, so that these
    steps cover every such part. *)
Inductive part_step : OmniMesh → OmniMesh → Prop :=
| part_dialled tr n : transport_held n = false → part_step n (set_transport tr n)
| part_accepted tr n : transport_held n = true →
    part_step n (set_transport tr (set_accept false (accept_task n) n))
| part_entered p t c n : part_step n (add_session p t c n)
| part_announced now p n :
    part_step n (set_router (get_link_state_update now p (node_router n)).2 n)
| part_sealed i c t n : cells n !! i = Some c →
    part_step n (set_cells (<[i := cell_set_transport t c]> (cells n)) n)
| part_queued i c bytes r c' n : cells n !! i = Some c → cell_send bytes c = Some (r, c') →
    part_step n (set_cells (<[i := c']> (cells n)) n).

Inductive node_step : OmniMesh * W → OmniMesh * W → Prop :=
| ns_world n w w' : node_step (n, w) (n, w')
| ns_register id svc n w : node_step (n, w) (register_service id svc n, w)
| ns_connect_addr addr n w r n' w' :
    connect_addr addr n w = Some (r, n', w') → node_step (n, w) (n', w')
| ns_connect_peer now p n w r n' w' :
    connect_peer now p n w = Some (r, n', w') → node_step (n, w) (n', w')
| ns_send now p id data n w r n' w' :
    send_to_peer now p id data n w = Some (r, n', w') → node_step (n, w) (n', w')
| ns_broadcast id data n w r n' :
    broadcast_to_peers id data n = Some (r, n') → node_step (n, w) (n', w)
| ns_shutdown n w n' : shutdown_signal n = Some n' → node_step (n, w) (n', w)
| ns_shutdown_transport n w r n' w' :
    shutdown_transport n w = Some (r, n', w') → node_step (n, w) (n', w')
| ns_accept_lock n w n' : accept_lock n = Some n' → node_step (n, w) (n', w)
| ns_accept n w n' w' : accept_resolve n w = Some (n', w') → node_step (n, w) (n', w')
| ns_accept_stop n w n' : accept_stop n = Some n' → node_step (n, w) (n', w)
| ns_probing now n w n' t : ticker_step (probing_tick now) (probing_task n) n t n' →
    node_step (n, w) (set_tickers t (gossip_task n') n', w)
| ns_gossip now n w n' t : ticker_step (gossip_tick now) (gossip_task n) n t n' →
    node_step (n, w) (set_tickers (probing_task n') t n', w)
| ns_session i n w n' w' : session_step i (n, w) (n', w') → node_step (n, w) (n', w')
| ns_discovery d n w : node_step (n, w) (set_discovery d n, w)
| ns_part n w n' w' : part_step n n' → node_step (n, w) (n', w').

Lemma ticker_step_ok tick t n t' n' :
  (∀ n r n', node_ok n → tick n = Some (r, n') → node_ok n') →
  node_ok n → ticker_step tick t n t' n' → node_ok n'.
Proof. intros Ht Hn Hs. inversion Hs; subst; eauto. Qed.

Lemma part_step_ok n n' : node_ok n → part_step n n' → node_ok n'.
Proof.
  intros Hn Hs. inversion Hs as [| | | |i c t n0 Hc|i c bytes r c' n0 Hc E]; subst; eauto 2 with mesh.
  - by apply set_transport_ok, set_accept_ok.
  - apply set_router_ok; [done|apply get_update_local].
  - eapply insert_cell_ok; [done|exact Hc|done|]. by apply (queue_ok n i c).
  - apply cell_send_spec in E as (Hr & _ & Hq). eapply insert_cell_ok; [done|exact Hc|done|].
    by apply Hq, (queue_ok n i c).
Qed.

#[local] Hint Resolve session_step_ok part_step_ok : mesh.

Lemma node_step_ok n w n' w' : node_ok n → node_step (n, w) (n', w') → node_ok n'.
Proof.
  intros Hn Hs. inversion Hs; subst; eauto 2 with mesh;
    (eapply set_tickers_ok, ticker_step_ok; [|done..]; eauto 2 with mesh).
Qed.

(** C7: Every node is well formed, always.  From [build] on, whatever its users call, however
    the calls, the workers and the sessions are scheduled, also in the middle of calls that
    wait, and whatever the network does: the node's peer id, virtual address and router
    derive from its key; the session table is a one-to-one map into sessions; a session's
    channel has a receiver exactly while its loop runs, and that loop serves the peer the
    session is listed under; no channel holds more than its 100 messages; and only a
    running accept worker holds the transport's mutex. *)
Theorem node_always_well_formed random b w n w1 n' w' :
  build random b w = Some (Ok n, w1) → rtc node_step (n, w1) (n', w') → node_ok n'.
Proof.
  intros Hn%build_node_ok Hr.
  assert (H : ∀ z z', rtc node_step z z' → node_ok z.1 → node_ok z'.1).
  { induction 1 as [|[n1 w2] [n2 w3] z' Hs _ IH]; [done|]. intros H1. apply IH.
    by eapply node_step_ok. }
  by apply (H _ _ Hr).
Qed.

End whole_node.

(** ** Two nodes *)

Section two_nodes.
Context {W : Type} {C : DynConnection W} {DX : Duplex C} {TR : DynTransport C}.
Context `{SN : Snow, L : !SnowLaws SN, D : Ed25519, P : Libp2p, SW : !Swarm P,
          BH : Bincode HandshakePayload, BHL : !BincodeLaws BH,
          BP : Bincode WirePacket, BPL : !BincodeLaws BP,
          BS : Bincode ServicePayload, BSL : !BincodeLaws BS,
          BU : Bincode LinkStateUpdate, BUL : !BincodeLaws BU, BT : Bincode N, T : TextCodecs,
          I : !MapIter PeerId nat, IL : !MapIterLaws I}.

(** What the two layers put on a connection fits it, and handshake payloads are small. *)
Hypothesis payload_small : ∀ id bs, serialize (mkPayload CURRENT id) = inr bs →
  (Z.of_nat (length bs) ≤ 65439)%Z.
Hypothesis handshake_sendable : ∀ m, length m ≤ MAX_HANDSHAKE_MSG → sendable m.
Hypothesis packets_sendable : ∀ ty plain t w t',
  fits_noise plain → seal_packet ty plain t = (Ok w, t') → sendable w.

(** *** From the handshake to the session *)

(** Both ends have returned, and the sessions they enter are linked, with nothing on the
    way. *)
Definition connected (pa pb : PeerId) (na nb : OmniMesh) (na1 nb1 : OmniMesh) (w : W)
    (e : ends (NoiseTransport * PeerId) (NoiseTransport * PeerId)) : Prop :=
  ∃ ta tb ca cb, e = mkEnds (Ret (Ok (ta, pb)), ca) (Ret (Ok (tb, pa)), cb) w ∧
    na1 = add_session pb ta ca na ∧ nb1 = add_session pa tb cb nb ∧
    link (pb, node_services na) (pa, node_services nb) (length (cells na)) (length (cells nb))
      na1 nb1 w (mkAbs (node_app na) (node_app nb) [] []).

Lemma end_at_add_session p t c n :
  end_at (add_session p t c n) (length (cells n)) (mkLoop p c None false) (mkCell [] true t).
Proof.
  split_and!; [apply lookup_insert_eq| |done]. cbn. rewrite lookup_app_r by lia.
  by rewrite Nat.sub_diag.
Qed.

Lemma undisturbed_add_session p t c n l :
  session_loops (add_session p t c n) !! length (cells n) = Some l →
  undisturbed (add_session p t c n) (length (cells n)) l.
Proof.
  cbn. rewrite lookup_insert_eq. intros [= <-]. split; [|done].
  apply held_iff. exists p. apply lookup_insert_eq.
Qed.

Lemma agreed_connected ka kb pa pb na nb e :
  agreed ka kb pa pb e → ∃ na1 nb1 w, connected pa pb na nb na1 nb1 w e.
Proof.
  intros (ta & tb & ca & cb & w & -> & Hl & [Hf Hf'] & _). eexists _, _, w, ta, tb, ca, cb.
  split; [done|]. split; [done|]. split; [done|].
  exists (mkLoop pb ca None false), (mkCell [] true ta), (mkLoop pa cb None false),
    (mkCell [] true tb), [], [].
  split_and!; try done; apply end_at_add_session.
Qed.

(** *** Application messages *)

(** The sends of [ms], one after another. *)
Fixpoint send_messages (now : Z) (to : PeerId) (ms : list (string * list byte)) (n : OmniMesh)
    : io W (list (Result unit) * OmniMesh) :=
  match ms with
  | [] => mret ([], n)
  | (id, data) :: ms =>
      '(r, n) ← send_to_peer now to id data n;
      '(rs, n) ← send_messages now to ms n;
      mret (r :: rs, n)
  end.

Definition data_message (m : string * list byte) : message :=
  (2%Z, match serialize (mkService m.1 m.2) with inr plain => plain | inl _ => [] end).

(** A send to a linked peer queues its message. *)
Lemma send_linked now x y i j na nb w s c id data :
  link x y i j na nb w s → sessions na !! x.1 = Some i → cells na !! i = Some c →
  length (cell_queue c) < SESSION_CAPACITY → good_message (data_message (id, data)) →
  ∃ c', send_to_peer now x.1 id data na w =
      Some (Ok tt, set_cells (<[i := c']> (cells na)) na, w) ∧
    length (cell_queue c') = S (length (cell_queue c)) ∧
    link x y i j (set_cells (<[i := c']> (cells na)) na) nb w
      (mkAbs (abs_a s) (abs_b s) (abs_ab s ++ [data_message (id, data)]) (abs_ba s)).
Proof.
  intros Hl Hs Hc Hq Hm. rewrite (send_existing _ _ _ _ _ _ _ _ Hs Hc).
  destruct (serialize_total (mkService id data)) as [plain E].
  unfold data_message in *. cbn [fst snd] in *. rewrite E in *.
  assert (Hp : ∃ c', post (seal_packet 2 plain) c = Some c' ∧
    sent_cell id data c = Some (Ok tt, c') ∧ length (cell_queue c') = S (length (cell_queue c))).
  { pose proof Hl as (la & ca & lb & cb & ab & ba & (Ha & _ & _ & _ & _ & Hp & _)).
    destruct Ha as (_ & Hc' & Hr). rewrite Hc in Hc'. injection Hc' as <-.
    destruct (pipe_seal packets_sendable _ _ _ _ _ Hp Hm) as (wr & t' & Es & _ & _).
    cbn [fst snd] in Es. unfold post, sent_cell, seal_data, serialize_unwrap. rewrite E.
    cbn [attempt]. rewrite Es. unfold cell_send. cbn [cell_rx cell_set_transport cell_queue].
    rewrite Hr. cbn [negb]. rewrite decide_True by done. eexists. split; [done|]. split; [done|].
    cbn. rewrite length_app. cbn. lia. }
  destruct Hp as (c' & Hp & -> & Hlen). exists c'. split; [done|]. split; [done|].
  by apply (link_post packets_sendable x y i j na nb w s (2%Z, plain) c c').
Qed.

Lemma send_messages_linked now x y i j nb w ms : ∀ na s c,
  link x y i j na nb w s → sessions na !! x.1 = Some i → cells na !! i = Some c →
  length (cell_queue c) + length ms ≤ SESSION_CAPACITY →
  Forall good_message (data_message <$> ms) →
  ∃ na', send_messages now x.1 ms na w = Some (replicate (length ms) (Ok tt), na', w) ∧
    sessions na' = sessions na ∧ session_loops na' = session_loops na ∧
    link x y i j na' nb w
      (mkAbs (abs_a s) (abs_b s) (abs_ab s ++ (data_message <$> ms)) (abs_ba s)).
Proof.
  induction ms as [|[id data] ms IH]; intros na s c Hl Hs Hc Hq Hg; cbn [send_messages].
  { exists na. destruct s as [a b mab mba]. cbn [fmap list_fmap abs_a abs_b abs_ab abs_ba].
    rewrite app_nil_r. by split_and!. }
  cbn [length fmap list_fmap] in *. apply Forall_cons in Hg as [Hm Hg].
  destruct (send_linked now x y i j na nb w s c id data Hl Hs Hc) as (c' & E & Hlen & Hl');
    [lia|done|].
  destruct (IH _ _ c' Hl' Hs) as (na' & E' & Hse & Hlo & Hl'').
  { cbn. apply list_lookup_insert_eq. by eapply lookup_lt_Some. }
  { lia. }
  { done. }
  exists na'. run_io. rewrite E, E'. split_and!; [done..|].
  cbn [abs_a abs_b abs_ab abs_ba] in Hl''. by rewrite <- app_assoc in Hl''.
Qed.

(** The services of [y] get the messages that are for one of them. *)
Definition received (y : party) (ms : list (string * list byte))
    : list (string * PeerId * list byte) :=
  (λ m, (m.1, y.1, m.2)) <$> filter (λ m, is_Some (y.2 !! m.1)) ms.

Lemma received_all (y : party) id (ps : list (list byte)) :
  is_Some (y.2 !! id) → received y (pair id <$> ps) = (λ p, (id, y.1, p)) <$> ps.
Proof.
  intros Hid. unfold received. induction ps as [|p ps IH]; [done|]. cbn [fmap list_fmap].
  rewrite filter_cons_True by done. cbn. by f_equal.
Qed.

Lemma apply_data (y : party) ms : ∀ a : AppState,
  abs_apply y (data_message <$> ms) a = (a.1, a.2 ++ received y ms).
Proof.
  unfold received. induction ms as [|[id data] ms IH]; intros [r log].
  { cbn. by rewrite app_nil_r. }
  destruct (serialize_total (mkService id data)) as [plain E].
  assert (Eh : (abs_handle None y.1 y.2 (data_message (id, data)) (r, log)).2 =
    (r, log ++ (if decide (is_Some (y.2 !! id)) then [(id, y.1, data)] else []))).
  { unfold abs_handle, data_message. cbn [fst snd]. rewrite E. rewrite decide_True by done.
    rewrite (deserialize_serialize _ _ E). cbn [service_id service_payload].
    destruct (y.2 !! id); case_decide as Hd; cbn; rewrite ?app_nil_r; try done.
    by destruct Hd. }
  change (abs_apply y (data_message <$> ?m :: ms) ?a) with
    (abs_apply y (data_message <$> ms) (abs_handle None y.1 y.2 (data_message m) a).2).
  rewrite Eh, filter_cons. cbn [fst]. case_decide; rewrite IH; cbn; by rewrite <- ?app_assoc, ?app_nil_r.
Qed.

(** C1: Messages get through, from the connection to the service.  Two nodes connected by a
    new connection, of any transport that keeps the promise of [Duplex] and carries
    handshake messages of up to 64 KiB and whatever a session seals (no assumption on how
    many messages it buffers), with services on both nodes that do not panic: however the
    two handshakes interleave, both complete and both nodes enter the session; up to 100
    messages the dialling node then sends, each of which fits one Noise packet, are all
    accepted; and however the session loops are scheduled, they reach a state in which the
    services of the other node were handed exactly these messages (those for a registered
    service), in order and byte for byte, with the sender's id, nothing else has changed on
    either node, and nothing is left on the way. *)
Theorem messages_get_through now ka kb pa pb f ca cb w na nb ms :
  opening ca cb [] w →
  no_panic (pb, node_services na) → no_panic (pa, node_services nb) →
  length ms ≤ SESSION_CAPACITY → Forall good_message (data_message <$> ms) →
  ∃ ha hb,
    with_keypair Initiator ka = Ok ha ∧ with_keypair Responder kb = Ok hb ∧
    inevitably joint_step
      (λ e, ∃ na1 nb1 w1 na2, connected pa pb na nb na1 nb1 w1 e ∧
         send_messages now pb ms na1 w1 = Some (replicate (length ms) (Ok tt), na2, w1) ∧
         inevitably (loops_step (length (cells na)) (length (cells nb)))
           (λ z, delivered z.1.2 = delivered nb ++ received (pa, node_services nb) ms ∧
              node_router z.1.2 = node_router nb ∧ node_app z.1.1 = node_app na ∧
              link (pb, node_services na) (pa, node_services nb)
                (length (cells na)) (length (cells nb)) z.1.1 z.1.2 z.2
                (mkAbs (node_app z.1.1) (node_app z.1.2) [] []))
           (na2, nb1, w1))
      (mkEnds (perform_handshake (2 + f) ha pa, ca) (perform_handshake (2 + f) hb pb, cb) w).
Proof.
  intros Ho Hxp Hyp Hlen Hg. destruct (with_keypair_ok ka kb) as (hi & hr & Ei & Er & Hxx).
  exists (mkHandshake hi Initiator), (mkHandshake hr Responder). split; [done|]. split; [done|].
  eapply inevitably_weaken; [|by apply (handshake_exchange payload_small ka kb hi hr pa pb f)].
  intros e He. destruct (agreed_connected _ _ _ _ na nb _ He) as (na1 & nb1 & w1 & Hc).
  pose proof Hc as (ta & tb & ca' & cb' & _ & -> & -> & Hl).
  destruct (send_messages_linked now _ _ _ _ _ _ ms _ _ _ Hl (lookup_insert_eq _ _ _)
    (proj1 (proj2 (end_at_add_session pb ta ca' na)))) as (na2 & Es & Hse & Hlo & Hl2); [done..|].
  exists (add_session pb ta ca' na), (add_session pa tb cb' nb), w1, na2.
  split; [done|]. split; [exact Es|].
  cbn [abs_a abs_b abs_ab abs_ba app] in Hl2.
  eapply inevitably_weaken;
    [|eapply (link_drains packets_sendable _ _ _ _ _ _ _ (mkAbs _ _ _ []) Hxp Hyp (one_way_unclogged _) Hl2)].
  - intros [[na3 nb3] w3] Hd. cbn [fst snd abs_a abs_b abs_ab abs_ba app] in *.
    rewrite apply_data in Hd. cbn [abs_apply foldl fst snd node_app] in Hd.
    destruct Hd as [Hd _]. cbn [fst snd] in Hd. destruct (link_app _ _ _ _ _ _ _ _ Hd) as [Ea Eb].
    cbn [abs_a abs_b] in Ea, Eb. injection Eb as Eb1 Eb2.
    split_and!; try done. by rewrite Ea; unfold node_app; rewrite Eb1, Eb2.
  - cbn [abs_ab app]. apply Forall_fmap, Forall_true. intros m. by left.
  - done.
  - intros l. rewrite Hlo. intros Hl3. unfold undisturbed, held. rewrite Hse. by apply undisturbed_add_session.
  - apply undisturbed_add_session.
Qed.

(** *** Gossip *)

Definition gossip_message (u : LinkStateUpdate) : message :=
  (3%Z, match serialize u with inr plain => plain | inl _ => [] end).

(** An update that one Noise message can carry. *)
Definition small_update (u : LinkStateUpdate) : Prop := fits_noise (gossip_message u).2.

Lemma gossip_message_good u : small_update u → good_message (gossip_message u).
Proof. intros Hu. split; [by right; left|done]. Qed.

Definition seal_message (m : message) : NoiseTransport → Result (list byte) * NoiseTransport :=
  seal_packet m.1 m.2.

Lemma post_gossip_messages us : ∀ c,
  post_many (seal_gossip <$> us) c = post_many (seal_message <$> (gossip_message <$> us)) c.
Proof.
  induction us as [|u us IH]; intros c; [done|].
  cbn [fmap list_fmap post_many]. destruct (serialize_total u) as [plain E].
  assert (Hp : post (seal_gossip u) c = post (seal_message (gossip_message u)) c).
  { unfold post, seal_gossip, seal_message, gossip_message, serialize_unwrap. by rewrite E. }
  rewrite Hp. destruct (post (seal_message _) c); [apply IH|done].
Qed.

(** Only the own cell and loop, the services and the application state matter. *)
Lemma link_ext x y i j na na' nb w s :
  link x y i j na nb w s → session_loops na' !! i = session_loops na !! i →
  cells na' !! i = cells na !! i → node_services na' = node_services na →
  link x y i j na' nb w (mkAbs (node_app na') (abs_b s) (abs_ab s) (abs_ba s)).
Proof.
  intros (la & ca & lb & cb & ab & ba & ((Hl & Hc & Hr) & Hb & [Sa Sa'] & Sb & Hk & Hp & Hq & Ea & Eb))
    El Ec Es.
  exists la, ca, lb, cb, ab, ba. split_and!; try done.
  - split_and!; congruence.
  - split; congruence.
Qed.

Lemma link_post_many x y i j nb w ms : ∀ na s c c',
  link x y i j na nb w s → cells na !! i = Some c → Forall good_message ms →
  post_many (seal_message <$> ms) c = Some c' →
  link x y i j (set_cells (<[i := c']> (cells na)) na) nb w
    (mkAbs (abs_a s) (abs_b s) (abs_ab s ++ ms) (abs_ba s)).
Proof.
  induction ms as [|m ms IH]; intros na s c c' Hl Hc Hg.
  - cbn. intros [= <-]. rewrite list_insert_id by done. rewrite app_nil_r.
    destruct s, na. exact Hl.
  - apply Forall_cons in Hg as [Hm Hg]. cbn [fmap list_fmap post_many].
    destruct (post (seal_message m) c) as [c1|] eqn:E; [|done]. cbn [mbind option_bind]. intros E'.
    pose proof (link_post packets_sendable x y i j na nb w s m c c1 Hl Hm Hc E) as Hl1.
    specialize (IH _ _ c1 c' Hl1 ltac:(cbn; apply list_lookup_insert_eq; by eapply lookup_lt_Some) Hg E').
    cbn [cells set_cells set_sessions abs_a abs_b abs_ab abs_ba] in IH.
    rewrite list_insert_insert_eq, <- app_assoc in IH. exact IH.
Qed.

Lemma apply_gossip (y : party) us : ∀ a : AppState,
  abs_apply y (gossip_message <$> us) a = (deliver us a.1, a.2).
Proof.
  induction us as [|u us IH]; intros [r log]; [done|].
  change (abs_apply y (gossip_message <$> ?m :: us) ?a) with
    (abs_apply y (gossip_message <$> us) (abs_handle None y.1 y.2 (gossip_message m) a).2).
  destruct (serialize_total u) as [plain E].
  assert (Eh : (abs_handle None y.1 y.2 (gossip_message u) (r, log)).2 =
    ((process_link_state_update u r).2, log)).
  { unfold abs_handle, gossip_message. rewrite E. rewrite decide_False by done.
    rewrite decide_True by done. by rewrite (deserialize_serialize _ _ E). }
  rewrite Eh, IH. done.
Qed.

Lemma post_many_room seals : ∀ c,
  room_for (length seals) c → is_Some (post_many seals c).
Proof.
  induction seals as [|seal seals IH]; intros c Hr; [by eexists|].
  destruct (post_room seal c (length seals) Hr) as (c' & E & Hr'). cbn [post_many]. rewrite E.
  by apply IH.
Qed.

(** What was posted to an idle session is under way. *)
Lemma posted_linked x y i j na na' nb w ms ca c' :
  link x y i j na nb w (mkAbs (node_app na) (node_app nb) [] []) →
  cells na !! i = Some ca → post_many (seal_message <$> ms) ca = Some c' →
  cells na' !! i = Some c' → session_loops na' = session_loops na →
  node_services na' = node_services na → Forall good_message ms →
  link x y i j na' nb w (mkAbs (node_app na') (node_app nb) ms []).
Proof.
  intros Hl Hc Ep Hc' El Es Hg.
  pose proof (link_post_many x y i j nb w ms na _ ca c' Hl Hc Hg Ep) as Hl1.
  apply (link_ext _ _ _ _ _ na') in Hl1; [done|by rewrite El| |done].
  rewrite Hc'. symmetry. cbn. apply list_lookup_insert_eq. by eapply lookup_lt_Some.
Qed.

(** What was posted to a quiet session is handled by the other end. *)
Lemma posted_drains x y i j na na' nb w ms ca c' :
  link x y i j na nb w (mkAbs (node_app na) (node_app nb) [] []) →
  cells na !! i = Some ca → post_many (seal_message <$> ms) ca = Some c' →
  cells na' !! i = Some c' → session_loops na' = session_loops na →
  node_services na' = node_services na →
  (∀ l, session_loops na' !! i = Some l → undisturbed na' i l) →
  (∀ l, session_loops nb !! j = Some l → undisturbed nb j l) →
  no_panic x → no_panic y → Forall good_message ms → Forall quiet ms →
  inevitably (loops_step i j)
    (drained x y i j (sessions na') (sessions nb) (node_app na') (abs_apply y ms (node_app nb)))
    (na', nb, w).
Proof.
  intros Hl Hc Ep Hc' El Es Ua Ub Hx Hy Hg Hq.
  pose proof (posted_linked x y i j na na' nb w ms ca c' Hl Hc Ep Hc' El Es Hg) as Hl1.
  apply (link_drains packets_sendable _ _ _ _ _ _ _ (mkAbs _ _ _ []) Hx Hy (one_way_unclogged _) Hl1); done.
Qed.

(** C12: Gossip spreads what a node knows of its links.  When a node's gossip tick fires and
    one of its sessions is linked to a peer whose router is in step with its own (and the
    node's own channels have room for the updates, each of them fits a packet, and no service
    panics), then, however the session loops are
    scheduled, they reach a state in which the peer's routing graph holds, for every
    session of the node with a measured link, exactly the metrics the node has measured. *)
Theorem gossip_spreads now x y i j na nb w :
  node_ok na → link x y i j na nb w (mkAbs (node_app na) (node_app nb) [] []) →
  sessions na !! x.1 = Some i → all_room (size (sessions na)) na →
  (∀ l, session_loops na !! i = Some l → undisturbed na i l) →
  (∀ l, session_loops nb !! j = Some l → undisturbed nb j l) →
  no_panic x → no_panic y →
  in_step (size (sessions na)) (node_router na) (node_router nb) →
  Forall small_update (announce now (map_iter (sessions na)).*1 (node_router na)).1 →
  ∃ na', gossip_tick now na = Some (Ok tt, na') ∧
    inevitably (loops_step i j)
      (λ z, ∀ p t, is_Some (sessions na !! p) →
         local_trackers (node_router na) !! p = Some t →
         get_link (graph (node_router z.1.2)) (local_peer_id (node_router na)) p =
           Some (metrics t))
      (na', nb, w).
Proof.
  intros Hn Hl Hs Hr Ua Ub Hx Hy Hin Hsmall.
  assert (Hsize : length (map_iter (sessions na)).*1 = size (sessions na)).
  { rewrite length_fmap, (Permutation_length (map_iter_perm (sessions na))). apply length_map_to_list. }
  rewrite length_fmap in Hsize.
  pose proof (gossip_entries_announce now (map_iter (sessions na)) na Hn) as Hg.
  rewrite Hsize in Hg. specialize (Hg Hr).
  pose proof (announce_delivered now (map_iter (sessions na)).*1 (node_router na) (node_router nb)) as Hd.
  rewrite length_fmap, Hsize in Hd. specialize (Hd Hin).
  pose proof (announce_length now (map_iter (sessions na)).*1 (node_router na)) as Hlen.
  rewrite length_fmap, Hsize in Hlen.
  destruct (announce now (map_iter (sessions na)).*1 (node_router na)) as [us r]. cbn [fst] in *.
  destruct Hg as (cs & Eg & Hcs). destruct Hd as [_ Hd].
  assert (Hh : held na i) by (apply held_iff; by eexists).
  pose proof Hl as (la & ca & _ & _ & _ & _ & ((_ & Hc & _) & _)).
  destruct (post_many_room (seal_gossip <$> us) ca) as [c' Ep].
  { intros Hx'. specialize (Hr i ca Hh Hc Hx'). rewrite length_fmap. lia. }
  assert (Hci : cs !! i = Some c') by (rewrite Hcs, Hc; cbn; by rewrite decide_True).
  rewrite post_gossip_messages in Ep.
  assert (Hgood : Forall good_message (gossip_message <$> us))
    by (apply Forall_fmap; eapply Forall_impl; [exact Hsmall|exact gossip_message_good]).
  exists (set_cells cs (set_router r na)). split; [exact Eg|].
  eapply inevitably_weaken; [|by eapply (posted_drains x y i j na _ nb w (gossip_message <$> us));
    [..|apply Forall_fmap, Forall_true; intros u; by right]].
  intros [[na3 nb3] w3] [[_ Eb]%link_app _] p t [k Hp] Ht. cbn [fst snd abs_b] in *.
  rewrite apply_gossip in Eb. injection Eb as Eb _. rewrite Eb. apply Hd; [|done].
  apply list_elem_of_fmap. exists (p, k). split; [done|]. by apply elem_of_map_iter.
Qed.

End two_nodes.

(** ** Witnesses *)

Section mesh_witnesses.

#[local] Existing Instance toy_snow.
#[local] Existing Instance toy_snow_laws.
#[local] Existing Instance toy_bincode.
#[local] Existing Instance toy_bincode_laws.
#[local] Existing Instance toy_payload.
#[local] Existing Instance toy_payload_laws.
#[local] Existing Instance default_map_iter.
#[local] Existing Instance default_map_iter_laws.
#[local] Existing Instance Discovery.toy_ed25519.
#[local] Existing Instance key_libp2p.
#[local] Existing Instance toy_swarm.
#[local] Existing Instance Node.toy_text.

Lemma node_always_well_formed_witness :
  let b := mkBuilder (C := answer_connection) (TR := answer_transport) toy_config
             (Some toy_keypair) (Some true) in
  ∃ n, build (vreplicate 32 Byte.x00) b tt = Some (Ok n, tt) ∧
    node_ok (register_service "chat" (λ _ _, Ok tt) n).
Proof.
  intros b.
  assert (H : match build (vreplicate 32 Byte.x00) b tt with
              | Some (Ok _, _) => true | _ => false end = true) by (vm_compute; reflexivity).
  destruct (build (vreplicate 32 Byte.x00) b tt) as [[[n|e|] []]|] eqn:E; [|discriminate H..].
  exists n. split; [reflexivity|].
  apply (node_always_well_formed (TR := answer_transport) (vreplicate 32 Byte.x00) b tt n tt _ tt E).
  apply rtc_once, ns_register.
Defined.

(** A node without sessions. *)
Definition toy_fresh : OmniMesh (C := mock_connection) (TR := mock_transport) :=
  mkNode toy_keypair (peer Byte.x01) toy_vip mock_new false
    (mkDiscovery cache_new [] (0 : swarm) true) (router_new (peer Byte.x01))
    ∅ [] ∅ chat_services [] (Running false) Spawned Spawned true.

Lemma toy_handshake_sendable m :
  length m ≤ MAX_HANDSHAKE_MSG → sendable (C := mock_connection) m.
Proof. done. Qed.

Lemma messages_get_through_witness :
  let pa := peer Byte.x01 in
  let pb := peer Byte.x02 in
  ∃ ha hb,
    with_keypair Initiator (vreplicate 32 Byte.x01) = Ok ha ∧
    with_keypair Responder (vreplicate 32 Byte.x02) = Ok hb ∧
    inevitably joint_step
      (λ e, ∃ na1 nb1 w1 na2, connected pa pb toy_fresh toy_fresh na1 nb1 w1 e ∧
         send_messages 0 pb [("chat"%string, [Byte.x41])] na1 w1 = Some ([Ok tt], na2, w1) ∧
         inevitably (loops_step 0 0)
           (λ z, delivered z.1.2 = [("chat"%string, pa, [Byte.x41])]) (na2, nb1, w1))
      (mkEnds (perform_handshake 2 ha pa, toy_ca) (perform_handshake 2 hb pb, toy_cb) toy_world).
Proof.
  intros pa pb.
  destruct (messages_get_through (C := mock_connection) (TR := mock_transport) toy_payload_small
    toy_handshake_sendable toy_sendable 0 (vreplicate 32 Byte.x01) (vreplicate 32 Byte.x02) pa pb 0 toy_ca toy_cb
    toy_world toy_fresh toy_fresh [("chat"%string, [Byte.x41])]) as (ha & hb & Ea & Eb & Hi).
  - exact toy_opening.
  - apply chat_no_panic.
  - apply chat_no_panic.
  - cbn. unfold SESSION_CAPACITY. lia.
  - constructor; [exact toy_message_good|constructor].
  - exists ha, hb. split; [exact Ea|]. split; [exact Eb|].
    eapply inevitably_weaken; [|exact Hi].
    intros e (na1 & nb1 & w1 & na2 & Hc & Hs & Hd). exists na1, nb1, w1, na2.
    split; [exact Hc|]. split; [exact Hs|].
    eapply inevitably_weaken; [|exact Hd]. intros z (Hz & _). rewrite Hz. reflexivity.
Defined.

(** The first node has measured its link to the second one. *)
Definition toy_measured : OmniMesh (C := mock_connection) (TR := mock_transport) :=
  set_router (router_record_latency (peer Byte.x02) (f64_of_Z 30) (router_new (peer Byte.x01))) toy_na.

Lemma toy_na_ok : node_ok toy_na.
Proof.
  split; cbn; try reflexivity.
  - intros p i [<- <-]%lookup_singleton_Some. lia.
  - intros p q i [<- <-]%lookup_singleton_Some [<- _]%lookup_singleton_Some. reflexivity.
  - intros [|i]; [split; [reflexivity|by eexists]|]. rewrite lookup_singleton_ne by done.
    split; [by intros []|]. by destruct i.
  - intros p i l [<- <-]%lookup_singleton_Some [_ <-]%lookup_singleton_Some. reflexivity.
  - constructor; [cbn; unfold SESSION_CAPACITY; lia|constructor].
  - discriminate.
Qed.

Lemma gossip_spreads_witness :
  ∃ na' t, gossip_tick None toy_measured = Some (Ok tt, na') ∧
    inevitably (loops_step 0 0)
      (λ z, get_link (graph (node_router z.1.2)) (peer Byte.x01) (peer Byte.x02) =
              Some (metrics t))
      (na', toy_nb, toy_world).
Proof.
  assert (Hl : link toy_x toy_y 0 0 toy_measured toy_nb toy_world
    (mkAbs (node_app toy_measured) (node_app toy_nb) [] [])).
  { exact (link_ext toy_x toy_y 0 0 toy_na toy_measured toy_nb toy_world toy_abs toy_link
      eq_refl eq_refl eq_refl). }
  destruct (gossip_spreads (C := mock_connection) (TR := mock_transport) toy_sendable None
    toy_x toy_y 0 0 toy_measured toy_nb toy_world) as (na' & Eg & Hi).
  - apply set_router_ok; [exact toy_na_ok|reflexivity].
  - exact Hl.
  - reflexivity.
  - change (size (sessions toy_measured)) with 1. intros i c _.
    destruct i as [|i]; cbn; [intros [= <-] _; cbn; unfold SESSION_CAPACITY; lia|done].
  - unfold toy_measured, toy_na, toy_end. cbn [session_loops set_router].
    intros l [_ <-]%lookup_singleton_Some. split; [|reflexivity]. apply held_iff.
    exists (peer Byte.x02). reflexivity.
  - exact toy_nb_undisturbed.
  - apply chat_no_panic.
  - apply chat_no_panic.
  - split; [vm_compute; discriminate|]. split; [vm_compute; discriminate|].
    intros d. unfold seq_of. cbn. reflexivity.
  - vm_compute. repeat constructor; discriminate.
  - exists na'. eexists. split; [exact Eg|]. eapply inevitably_weaken; [|exact Hi].
    intros z Hz. apply Hz; [by eexists|]. vm_compute. reflexivity.
Defined.

End mesh_witnesses.
