(* ===== verification/Net.v ===== *)
(** * Networks

    Any number of nodes, with sessions between them in any pattern, all of whose loops run at
    once: [run_session_loop] of [sdk/src/lib.rs] for every session, over any transport that
    provides [Duplex] and whose connections do not disturb each other ([Separate]).  The
    theorems lift the delivery of one session to the whole network. *)

From S2P Require Import Prelude Float64 Error Types Metrics Graph Router Transport Mock.
From S2P Require Import Identity Services Noise Handshake Wire Cache Config Discovery Node Session Mesh.

(** One end of a session: the node, the session's index there, the peer it leads to and the
    services of the node. *)
Record Site := mkSite { s_node : nat; s_session : nat; s_party : party }.

Abbreviation Leg := (Site * Site)%type.

Definition swap_ends (e : Leg) : Leg := (e.2, e.1).

(** Two ends at one node are different sessions, to different peers. *)
Definition distinct (s t : Site) : Prop :=
  s_node s = s_node t → s_session s ≠ s_session t ∧ (s_party s).1 ≠ (s_party t).1.

Definition legs_distinct (e f : Leg) : Prop :=
  distinct e.1 f.1 ∧ distinct e.1 f.2 ∧ distinct e.2 f.1 ∧ distinct e.2 f.2.

(** A network of sessions between different nodes. *)
Definition legs_ok (L : list Leg) : Prop :=
  Forall (λ e, s_node e.1 ≠ s_node e.2) L ∧
  ∀ m n e f, L !! m = Some e → L !! n = Some f → m ≠ n → legs_distinct e f.

Lemma sum_list_insert (l : list nat) i x y :
  l !! i = Some x → y < x → sum_list (<[i := y]> l) < sum_list l.
Proof.
  revert i. induction l as [|z l IH]; intros [|i] E Hy; [done|done| |].
  - injection E as ->. change (y + sum_list l < x + sum_list l). lia.
  - pose proof (IH i E Hy). change (z + sum_list (<[i := y]> l) < z + sum_list l). lia.
Qed.

Section network.
Context {W : Type} {C : DynConnection W} {DX : Duplex C} {SP : Separate DX} {TR : DynTransport C}.
Context `{SN : Snow, L : !SnowLaws SN, D : Ed25519, P : Libp2p, SW : !Swarm P,
          BP : Bincode WirePacket, BPL : !BincodeLaws BP,
          BS : Bincode ServicePayload, BSL : !BincodeLaws BS,
          BU : Bincode LinkStateUpdate, BT : Bincode N}.

Hypothesis packets_sendable : ∀ ty plain t w t',
  fits_noise plain → seal_packet ty plain t = (Ok w, t') → sendable w.

Abbreviation entry := (string * PeerId * list byte)%type.
Abbreviation net := (list OmniMesh * W)%type.

(** A loop at either end of a session of the network makes a step. *)
Inductive net_step (LS : list Leg) : net → net → Prop :=
| net_move e nodes w na na' w' :
    e ∈ LS ∨ swap_ends e ∈ LS → nodes !! s_node e.1 = Some na →
    session_step (s_session e.1) (na, w) (na', w') →
    net_step LS (nodes, w) (<[s_node e.1 := na']> nodes, w').

(** ** What a node has heard from a peer *)

Definition log_from (p : PeerId) (n : OmniMesh) : list entry := filter (λ en, en.1.2 = p) (delivered n).

(** What a message adds to the log of its receiver. *)
Definition heard (y : party) (m : message) : list entry :=
  if decide (m.1 = 2%Z) then
    match deserialize m.2 with
    | inr sp => match y.2 !! service_id sp with
                | Some _ => [(service_id sp, y.1, service_payload sp)]
                | None => []
                end
    | inl _ => []
    end
  else [].

Lemma handle_heard now (y : party) m a :
  quiet m → (abs_handle now y.1 y.2 m a).2.2 = a.2 ++ heard y m.
Proof.
  destruct m as [ty plain], a as [r log]. intros [Hty|Hty]; cbn [fst] in Hty; subst ty;
    unfold abs_handle, heard; cbn [fst snd].
  - rewrite !decide_True by done. destruct (deserialize plain) as [e|sp]; cbn; [by rewrite app_nil_r|].
    destruct (y.2 !! service_id sp); cbn; by rewrite ?app_nil_r.
  - rewrite !(decide_False (P := 3%Z = 2%Z)) by done. rewrite decide_True by done.
    destruct (deserialize plain); cbn; by rewrite app_nil_r.
Qed.

Lemma heard_from y m : Forall (λ en : entry, en.1.2 = y.1) (heard y m).
Proof. unfold heard. repeat case_match; repeat constructor. Qed.

Lemma log_from_app p n n' new :
  delivered n' = delivered n ++ new →
  log_from p n' = log_from p n ++ filter (λ en, en.1.2 = p) new.
Proof. unfold log_from. intros ->. apply filter_app. Qed.

Lemma filter_from p (new : list entry) :
  Forall (λ en, en.1.2 = p) new → filter (λ en, en.1.2 = p) new = new.
Proof. induction 1; [done|]. rewrite filter_cons_True by done. by f_equal. Qed.

Lemma filter_from_other p q (new : list entry) :
  p ≠ q → Forall (λ en, en.1.2 = p) new → filter (λ en, en.1.2 = q) new = [].
Proof. intros Hpq. induction 1; [done|]. rewrite filter_cons_False by congruence. done. Qed.

(** ** One session of the network *)

(** What is under way in a session, the connection's ends, and the steps left. *)
Record Traffic := mkTraffic {
  t_ab : list message; t_ba : list message; t_ca : conn; t_cb : conn; t_load : nat }.

Definition t_flip (t : Traffic) : Traffic := mkTraffic (t_ba t) (t_ab t) (t_cb t) (t_ca t) (t_load t).

(** A session with traffic [t], of which one direction fits the connection at once, which
    ends with the logs [g]. *)
Definition leg_ok (nodes : list OmniMesh) (w : W) (g : list entry * list entry)
    (e : Leg) (t : Traffic) : Prop :=
  ∃ na nb la ca lb cb ab ba,
    nodes !! s_node e.1 = Some na ∧ nodes !! s_node e.2 = Some nb ∧
    link_at (s_party e.1) (s_party e.2) (s_session e.1) (s_session e.2) na nb w
      (mkAbs (node_app na) (node_app nb) (t_ab t) (t_ba t)) la ca lb cb ab ba ∧
    undisturbed na (s_session e.1) la ∧ undisturbed nb (s_session e.2) lb ∧
    t_ca t = loop_conn la ∧ t_cb t = loop_conn lb ∧ t_load t = load la ca ab + load lb cb ba ∧
    Forall quiet (t_ab t) ∧ Forall quiet (t_ba t) ∧ unclogged (t_ab t) (t_ba t) ∧
    log_from (s_party e.1).1 na ++ (t_ba t ≫= heard (s_party e.1)) = g.1 ∧
    log_from (s_party e.2).1 nb ++ (t_ab t ≫= heard (s_party e.2)) = g.2.

Lemma leg_ok_flip nodes w g e t :
  leg_ok nodes w g e t → leg_ok nodes w (g.2, g.1) (swap_ends e) (t_flip t).
Proof.
  intros (na & nb & la & ca & lb & cb & ab & ba & Ha & Hb & Hl%link_at_sym & Ua & Ub & Ea & Eb & Ek &
    Qa & Qb & Hu & Ga & Gb).
  exists nb, na, lb, cb, la, ca, ba, ab. cbn [t_flip t_ab t_ba t_ca t_cb t_load swap_ends fst snd].
  split_and!; try done; first [by apply unclogged_sym|rewrite Ek; apply Nat.add_comm].
Qed.

Lemma leg_linked nodes w g e t :
  leg_ok nodes w g e t → ∃ ab ba, linked (t_ca t) (t_cb t) ab ba w.
Proof.
  intros (na & nb & la & ca & lb & cb & ab & ba & _ & _ & Hl & _ & _ & -> & -> & _).
  exists ab, ba. apply Hl.
Qed.

(** The loop at the first end makes a step. *)
Lemma leg_step nodes w g e t na na' w' :
  leg_ok nodes w g e t → nodes !! s_node e.1 = Some na → s_node e.1 ≠ s_node e.2 →
  no_panic (s_party e.1) → session_step (s_session e.1) (na, w) (na', w') →
  ∃ t', leg_ok (<[s_node e.1 := na']> nodes) w' g e t' ∧ t_load t' < t_load t ∧
    t_cb t' = t_cb t ∧ moved (t_ca t) w (t_ca t') w' ∧
    ∃ new, delivered na' = delivered na ++ new ∧ Forall (λ en, en.1.2 = (s_party e.1).1) new.
Proof.
  intros (na0 & nb & la & ca & lb & cb & ab & ba & Ha & Hb & Hl & Ua & Ub & Ea & Eb & Ek &
    Qa & Qb & Hu & Ga & Gb) Ha' Hne Hp Hs.
  rewrite Ha in Ha'. injection Ha' as ->.
  assert (Hla : <[s_node e.1 := na']> nodes !! s_node e.1 = Some na')
    by (apply list_lookup_insert_eq; by eapply lookup_lt_Some).
  assert (Hlb : <[s_node e.1 := na']> nodes !! s_node e.2 = Some nb) by by rewrite list_lookup_insert_ne.
  destruct (link_at_step packets_sendable _ _ _ _ _ _ _ _ _ _ _ _ _ _ _ _ Hl Ua Hs)
    as [(la' & ca' & ab' & Hl' & Ua' & Hse & Hk)|(now & wm & ba' & m & mba & r & a' & -> & Em & Eh & Hr)].
  - assert (Eapp : node_app na' = node_app na) by apply Hl'.
    exists (mkTraffic (t_ab t) (t_ba t) (loop_conn la') (loop_conn lb) (load la' ca' ab' + load lb cb ba)).
    split_and!; [|cbn [t_load]; lia|done| |].
    + exists na', nb, la', ca', lb, cb, ab', ba. cbn [t_ab t_ba t_ca t_cb t_load]. rewrite Eapp.
      split_and!; try done. unfold log_from in *. by injection Eapp as _ ->.
    + rewrite Ea. eapply session_step_moved; [done|apply Hl|apply Hl'].
    + exists []. rewrite app_nil_r. by injection Eapp.
  - cbn [abs_ba abs_a abs_b abs_ab] in Em, Eh, Hr. rewrite Em in Qb. apply Forall_cons in Qb as [Qm Qb].
    destruct (quiet_handle _ _ _ _ _ _ Qm Hp Eh) as (Hrep & Hnp & _).
    destruct (Hr Hnp (or_introl Hrep)) as (la' & ca' & Hl' & Ua' & Hse & Hk).
    rewrite Hrep, app_nil_r in *. cbn [length] in Hk.
    assert (Eapp : node_app na' = a') by apply Hl'.
    assert (Ed : delivered na' = delivered na ++ heard (s_party e.1) m).
    { pose proof (handle_heard now (s_party e.1) m (node_app na) Qm) as Hh. rewrite Eh in Hh. cbn [snd] in Hh.
      rewrite <- Eapp in Hh. exact Hh. }
    exists (mkTraffic (t_ab t) mba (loop_conn la') (loop_conn lb) (load la' ca' ab + load lb cb ba')).
    split_and!; [|cbn [t_load]; rewrite Ek; unfold load in *; cbn [length] in *; lia|done| |].
    + exists na', nb, la', ca', lb, cb, ab, ba'. cbn [t_ab t_ba t_ca t_cb t_load]. rewrite <- Eapp in Hl'.
      split_and!; try done; [rewrite Em in Hu; by apply (proj1 (proj2 unclogged_steady)) in Hu|].
      rewrite (log_from_app _ _ _ _ Ed), filter_from by apply heard_from.
      rewrite <- app_assoc. rewrite Em in Ga. exact Ga.
    + rewrite Ea. eapply session_step_moved; [done|apply Hl|apply Hl'].
    + exists (heard (s_party e.1) m). split; [done|]. apply heard_from.
Qed.

(** ** The others stay as they are *)

(** What an end of a session depends on in its node. *)
Definition same_for (s : Site) (n n' : OmniMesh) : Prop :=
  session_loops n' !! s_session s = session_loops n !! s_session s ∧
  cells n' !! s_session s = cells n !! s_session s ∧
  sessions n' = sessions n ∧ node_services n' = node_services n ∧
  log_from (s_party s).1 n' = log_from (s_party s).1 n.

Lemma same_for_refl s n : same_for s n n.
Proof. by split_and!. Qed.

(** Another session of the node makes a step. *)
Lemma beside_same s i p n n' new :
  beside i n n' → delivered n' = delivered n ++ new → Forall (λ en, en.1.2 = p) new →
  s_session s ≠ i → (s_party s).1 ≠ p → same_for s n n'.
Proof.
  intros (H & Hs & Hv) Hd Hn Hi Hp. destruct (H _ Hi) as [Hc Hl]. split_and!; try done.
  rewrite (log_from_app _ _ _ _ Hd), (filter_from_other p) by done. apply app_nil_r.
Qed.

Lemma leg_same nodes nodes' w w' g e t :
  leg_ok nodes w g e t →
  (∀ s n, s = e.1 ∨ s = e.2 → nodes !! s_node s = Some n →
     ∃ n', nodes' !! s_node s = Some n' ∧ same_for s n n') →
  (∀ ab ba, linked (t_ca t) (t_cb t) ab ba w → linked (t_ca t) (t_cb t) ab ba w') →
  leg_ok nodes' w' g e t.
Proof.
  intros (na & nb & la & ca & lb & cb & ab & ba & Ha & Hb & Hl & [Ua Na] & [Ub Nb] & Ea & Eb & H) Hsame Hw.
  destruct (Hsame e.1 na (or_introl eq_refl) Ha) as (na' & Ha' & La & Ca & Sa & Va & Ga).
  destruct (Hsame e.2 nb (or_intror eq_refl) Hb) as (nb' & Hb' & Lb & Cb & Sb & Vb & Gb).
  exists na', nb', la, ca, lb, cb, ab, ba. rewrite Ga, Gb. unfold undisturbed, held. rewrite Sa, Sb.
  destruct Hl as ((L1 & C1 & X1) & (L2 & C2 & X2) & [P1 V1] & [P2 V2] & Hk & Hp & Hq & _).
  split_and!; try done; try apply H.
  - split_and!; try done; [by split_and!; congruence|by split_and!; congruence|by split; congruence..|].
    rewrite <- Ea, <- Eb. apply Hw. by rewrite Ea, Eb.
Qed.

(** ** The whole network *)

Definition net_inv (LS : list Leg) (goal : Leg → list entry * list entry) (k : nat) (z : net) : Prop :=
  ∃ ts, Forall2 (λ e t, leg_ok z.1 z.2 (goal e) e t) LS ts ∧
    (∀ m n t u, ts !! m = Some t → ts !! n = Some u → m ≠ n → apart (t_ca t) (t_ca u)) ∧
    k = sum_list (t_load <$> ts).

(** One session makes progress, the others stay as they are. *)
Lemma net_inv_update LS goal k nodes w nodes' w' m e t' :
  (∃ ts t, Forall2 (λ e t, leg_ok nodes w (goal e) e t) LS ts ∧
    (∀ m n t u, ts !! m = Some t → ts !! n = Some u → m ≠ n → apart (t_ca t) (t_ca u)) ∧
    k = sum_list (t_load <$> ts) ∧ ts !! m = Some t ∧ t_load t' < t_load t ∧
    (∀ c, apart (t_ca t) c → apart (t_ca t') c) ∧
    (∀ n f u, LS !! n = Some f → ts !! n = Some u → n ≠ m → leg_ok nodes' w' (goal f) f u)) →
  LS !! m = Some e → leg_ok nodes' w' (goal e) e t' →
  ∃ k', k' < k ∧ net_inv LS goal k' (nodes', w').
Proof.
  intros (ts & t & Hf & Ha & -> & Ht & Hk & Hap & Ho) He Hok.
  assert (Hm : m < length ts) by by eapply lookup_lt_Some.
  exists (sum_list (t_load <$> <[m := t']> ts)). split.
  { rewrite list_fmap_insert. eapply sum_list_insert; [|exact Hk]. by rewrite list_lookup_fmap, Ht. }
  exists (<[m := t']> ts). split_and!; [|intros a b u v Hu Hv Hab|done].
  - apply Forall2_same_length_lookup. split; [by rewrite length_insert, <- (Forall2_length _ _ _ Hf)|].
    intros n f u Hfn Hun. destruct (decide (n = m)) as [->|Hnm].
    + rewrite list_lookup_insert_eq in Hun by done. by simplify_eq.
    + rewrite list_lookup_insert_ne in Hun by done. by apply (Ho n).
  - destruct (decide (a = m)) as [->|Hnm]; destruct (decide (b = m)) as [->|Hbm]; try done;
      rewrite ?list_lookup_insert_eq in * by done; rewrite ?list_lookup_insert_ne in * by done; simplify_eq.
    + apply Hap. by eapply Ha.
    + apply apart_sym, Hap. by eapply Ha.
    + by eapply (Ha a b).
Qed.

(** The effect of a step at one end of a session on another session. *)
Lemma leg_untouched nodes w g f u p i pr na na' w' a b ab ba a' new :
  leg_ok nodes w g f u → nodes !! p = Some na → beside i na na' →
  delivered na' = delivered na ++ new → Forall (λ en, en.1.2 = pr) new →
  (∀ s, s = f.1 ∨ s = f.2 → p = s_node s → i ≠ s_session s ∧ pr ≠ (s_party s).1) →
  linked a b ab ba w → moved a w a' w' → apart a (t_ca u) →
  leg_ok (<[p := na']> nodes) w' g f u.
Proof.
  intros Hu Hna Hb Hd Hn Hs Hl Hm Ha. eapply leg_same; [exact Hu|..].
  - intros s n Hse En. destruct (decide (p = s_node s)) as [Ep|Ep].
    + exists na'. rewrite Ep, list_lookup_insert_eq by (by eapply lookup_lt_Some). split; [done|].
      rewrite <- Ep, Hna in En. injection En as <-. destruct (Hs s Hse Ep). by eapply beside_same.
    + exists n. rewrite list_lookup_insert_ne by done. split; [done|apply same_for_refl].
  - intros cd dc Hc. by eapply (moved_linked a b).
Qed.

Lemma distinct_sym s t : distinct s t → distinct t s.
Proof. unfold distinct. intros H E. destruct (H (eq_sym E)). by split; apply not_eq_sym. Qed.

Lemma net_inv_step LS goal k z z' :
  legs_ok LS → Forall (λ e, no_panic (s_party e.1) ∧ no_panic (s_party e.2)) LS →
  net_inv LS goal k z → net_step LS z z' → ∃ k', k' < k ∧ net_inv LS goal k' z'.
Proof.
  intros [Hne Hdis] Hpan (ts & Hf & Ha & ->) Hs. destruct Hs as [e nodes w na na' w' He Hna Hst].
  cbn [fst snd] in Hf.
  assert (∃ m e0 t, LS !! m = Some e0 ∧ ts !! m = Some t ∧ (e0 = e ∨ e0 = swap_ends e)) as (m & e0 & t & Hm & Ht & Ho).
  { assert (∃ e0, e0 ∈ LS ∧ (e0 = e ∨ e0 = swap_ends e)) as (e0 & [m Hm]%list_elem_of_lookup & Ho)
      by (destruct He; eauto).
    destruct (Forall2_lookup_l _ _ _ _ _ Hf Hm) as (t & Ht & _). by exists m, e0, t. }
  pose proof (Forall2_lookup_lr _ _ _ _ _ _ Hf Hm Ht) as Hok.
  pose proof (Forall_lookup_1 _ _ _ _ Hne Hm) as Hn. pose proof (Forall_lookup_1 _ _ _ _ Hpan Hm) as [Pa Pb].
  cbn beta in Hn.
  destruct (leg_linked _ _ _ _ _ Hok) as (ab & ba & Hl).
  assert (Hfar : ∀ n f, LS !! n = Some f → n ≠ m → ∀ s, s = f.1 ∨ s = f.2 → s_node e.1 = s_node s →
    s_session e.1 ≠ s_session s ∧ (s_party e.1).1 ≠ (s_party s).1).
  { intros n f Hfn Hnm s Hs. destruct (Hdis m n e0 f Hm Hfn (not_eq_sym Hnm)) as (D1 & D2 & D3 & D4).
    destruct Ho as [-> | ->], Hs as [-> | ->]; [exact D1|exact D2|exact D3|exact D4]. }
  destruct Ho as [->| ->].
  - destruct (leg_step nodes w (goal e) e t na na' w') as (t' & Hok' & Hk & Hcb & Hmv & new & Hd & Hnew); try done.
    eapply (net_inv_update _ _ _ nodes w _ _ m e t'); [|done|done].
    exists ts, t. split_and!; try done.
    + intros c Hc. by eapply (moved_apart (t_ca t) (t_cb t)).
    + intros n f u Hfn Hun Hnm. eapply leg_untouched; try done;
        [by apply (Forall2_lookup_lr _ _ _ _ _ _ Hf Hfn Hun)|by eapply session_step_beside|by eapply Hfar|].
      by eapply (Ha m n).
  - destruct (leg_step nodes w ((goal (swap_ends e)).2, (goal (swap_ends e)).1) e (t_flip t) na na' w')
      as (t' & Hok' & Hk & Hcb & Hmv & new & Hd & Hnew); try done;
      [destruct e; by apply leg_ok_flip in Hok|].
    eapply (net_inv_update _ _ _ nodes w _ _ m (swap_ends e) (t_flip t')); [|done|].
    + exists ts, t. split_and!; try done.
      * intros c. cbn in *. by rewrite Hcb.
      * intros n f u Hfn Hun Hnm. apply linked_sym in Hl. eapply leg_untouched; try done;
          [by apply (Forall2_lookup_lr _ _ _ _ _ _ Hf Hfn Hun)|by eapply session_step_beside|by eapply Hfar|].
        apply apart_sym. apply linked_sym in Hl. eapply apart_peer; [exact Hl|]. by eapply (Ha n m).
    + apply leg_ok_flip in Hok'. cbn in Hok'. by destruct (goal (swap_ends e)).
Qed.

(** A session with nothing to do has no traffic. *)
Lemma leg_progress LS nodes w g e t :
  e ∈ LS → leg_ok nodes w g e t →
  (∃ z', net_step LS (nodes, w) z') ∨ t_ab t = [] ∧ t_ba t = [].
Proof.
  intros He (na & nb & la & ca & lb & cb & ab & ba & Ha & Hb & Hl & Ua & Ub & _ & _ & _ &
    _ & _ & Hu & _ & _).
  destruct (loops_progress (λ _, True) None _ _ _ _ _ _ _ _ _ _ _ _ _ _ I Hl Hu) as [[z' Hz]|(-> & -> & Oa & Ob)].
  { left. inversion Hz; subst; eexists; [by eapply (net_move _ e); [left| |]|].
    by eapply (net_move _ (swap_ends e)); [right; destruct e| |]. }
  right. destruct Hl as (_ & _ & _ & _ & _ & Hp & Hq & _). apply pipe_length in Hp, Hq.
  rewrite Oa in Hp. rewrite Ob in Hq. cbn [abs_ab abs_ba] in *. by destruct (t_ab t), (t_ba t).
Qed.

Lemma legs_progress LS nodes w goal l ts :
  (∀ e, e ∈ l → e ∈ LS) →
  Forall2 (λ e t, leg_ok nodes w (goal e) e t) l ts →
  (∃ z', net_step LS (nodes, w) z') ∨ Forall (λ t, t_ab t = [] ∧ t_ba t = []) ts.
Proof.
  intros Hin Hf. induction Hf as [|e t l ts Ho _ IH]; [by right|].
  destruct IH as [?|IH]; [intros; apply Hin; by right|by left|].
  destruct (leg_progress LS nodes w (goal e) e t) as [?|?]; [apply Hin; by left|done|by left|].
  right. by constructor.
Qed.

(** Everything was handled: the sessions are in place, nothing is queued or on the way, and
    the logs are those of [goal]. *)
Definition net_done (LS : list Leg) (goal : Leg → list entry * list entry) (z : net) : Prop :=
  Forall (λ e, ∃ na nb, z.1 !! s_node e.1 = Some na ∧ z.1 !! s_node e.2 = Some nb ∧
    link (s_party e.1) (s_party e.2) (s_session e.1) (s_session e.2) na nb z.2
      (mkAbs (node_app na) (node_app nb) [] []) ∧
    log_from (s_party e.1).1 na = (goal e).1 ∧ log_from (s_party e.2).1 nb = (goal e).2) LS.

Lemma net_progress LS goal k z :
  net_inv LS goal k z →
  net_done LS goal z ∨ ∃ z', net_step LS z z'.
Proof.
  intros (ts & Hf & _ & _). destruct z as [nodes w]. cbn [fst snd] in *.
  destruct (legs_progress LS nodes w goal LS ts (λ _ H, H) Hf) as [?|Hd]; [by right|left].
  apply Forall_lookup_2. intros m e He.
  destruct (Forall2_lookup_l _ _ _ _ _ Hf He) as (t & Ht & Ho). destruct (Forall_lookup_1 _ _ _ _ Hd Ht) as [Ea Eb].
  destruct Ho as (na & nb & la & ca & lb & cb & ab & ba & Ha & Hb & Hl & _ & _ & _ & _ & _ & _ & _ & _ & Ga & Gb).
  rewrite Ea, Eb in *. cbn in Ga, Gb. rewrite app_nil_r in Ga, Gb.
  exists na, nb. split_and!; try done. by exists la, ca, lb, cb, ab, ba.
Qed.

(** ** Delivery *)

(** The sessions of a network, each with its queued messages [ms e], all loops running; the
    connections of different sessions are different. *)
Definition net_ready (LS : list Leg) (ms : Leg → list message * list message) (z : net) : Prop :=
  Forall (λ e, ∃ na nb, z.1 !! s_node e.1 = Some na ∧ z.1 !! s_node e.2 = Some nb ∧
    link (s_party e.1) (s_party e.2) (s_session e.1) (s_session e.2) na nb z.2
      (mkAbs (node_app na) (node_app nb) (ms e).1 (ms e).2) ∧
    (∀ l, session_loops na !! s_session e.1 = Some l → undisturbed na (s_session e.1) l) ∧
    (∀ l, session_loops nb !! s_session e.2 = Some l → undisturbed nb (s_session e.2) l) ∧
    Forall quiet (ms e).1 ∧ Forall quiet (ms e).2 ∧ unclogged (ms e).1 (ms e).2) LS ∧
  ∀ m n e f na nb la lb, LS !! m = Some e → LS !! n = Some f → m ≠ n →
    z.1 !! s_node e.1 = Some na → z.1 !! s_node f.1 = Some nb →
    session_loops na !! s_session e.1 = Some la → session_loops nb !! s_session f.1 = Some lb →
    apart (loop_conn la) (loop_conn lb).

(** What an end of a session has heard so far. *)
Definition site_log (nodes : list OmniMesh) (s : Site) : list entry :=
  match nodes !! s_node s with Some n => log_from (s_party s).1 n | None => [] end.

(** The logs of the two ends of a session, with the messages to come. *)
Definition leg_goal (nodes : list OmniMesh) (ms : Leg → list message * list message) (e : Leg)
    : list entry * list entry :=
  (site_log nodes e.1 ++ ((ms e).2 ≫= heard (s_party e.1)),
   site_log nodes e.2 ++ ((ms e).1 ≫= heard (s_party e.2))).

Lemma net_ready_inv LS ms z :
  net_ready LS ms z → ∃ k, net_inv LS (leg_goal z.1 ms) k z.
Proof.
  intros [Hr Ha].
  assert (∃ ts, Forall2 (λ e t, leg_ok z.1 z.2 (leg_goal z.1 ms e) e t) LS ts) as [ts Hf].
  { apply Forall_exists_Forall2_l. eapply Forall_impl; [exact Hr|]. cbn beta.
    intros e (na & nb & Ea & Eb & (la & ca & lb & cb & ab & ba & Hl) & Ua & Ub & Qa & Qb & Hu).
    exists (mkTraffic (ms e).1 (ms e).2 (loop_conn la) (loop_conn lb) (load la ca ab + load lb cb ba)).
    exists na, nb, la, ca, lb, cb, ab, ba. cbn [t_ab t_ba t_ca t_cb t_load]. unfold leg_goal, site_log. rewrite Ea, Eb.
    split_and!; try done; [apply Ua, Hl|apply Ub, (proj1 (proj2 Hl))]. }
  eexists. exists ts. split; [done|]. split; [|done]. intros m n t u Ht Hu Hmn.
  destruct (Forall2_lookup_r _ _ _ _ _ Hf Ht) as (e & He & Hoe).
  destruct (Forall2_lookup_r _ _ _ _ _ Hf Hu) as (f & Hfn & Hof).
  destruct Hoe as (na & ? & la & ? & ? & ? & ? & ? & Ea & _ & Hl & _ & _ & -> & _).
  destruct Hof as (nb & ? & lb & ? & ? & ? & ? & ? & Eb & _ & Hl' & _ & _ & -> & _).
  eapply (Ha m n e f na nb); try done; [apply Hl|apply Hl'].
Qed.

(** All sessions run until everything is handled. *)
Lemma network_drains LS ms nodes w :
  legs_ok LS → Forall (λ e, no_panic (s_party e.1) ∧ no_panic (s_party e.2)) LS →
  net_ready LS ms (nodes, w) →
  inevitably (net_step LS) (net_done LS (leg_goal nodes ms)) (nodes, w).
Proof.
  intros Hok Hp [k Hk]%net_ready_inv.
  eapply (inevitably_measure _ _ (net_inv LS (leg_goal nodes ms))); [..|exact Hk].
  - intros k' z. by apply net_progress.
  - intros k' z z'. by apply net_inv_step.
Qed.

(** C3: Everything queued anywhere in a network is handled.  Any number of nodes with sessions
    between them in any pattern, the channels of which hold any mix of application data and
    routing updates, in all directions; over any transport whose connections keep the promise of
    [Duplex], do not disturb each other and carry whatever a session seals.  However the loops
    of all sessions are scheduled, they reach a state in which nothing is queued or on the way
    any more, every session is in place, and each node's services were handed, from each of its
    peers, exactly the data messages that peer had queued for them, in order and after what
    they had been handed before, whatever came in from other peers in between.  (Conditions: no
    service panics; every message fits one Noise packet; no session is told to end; and of each
    connection the messages of at least one direction, of which there may be none, fit it all at
    once: without that the two loops of a session can wait for each other, [clogged_stuck].) *)
Theorem network_delivers LS ms nodes w :
  legs_ok LS → Forall (λ e, no_panic (s_party e.1) ∧ no_panic (s_party e.2)) LS →
  net_ready LS ms (nodes, w) →
  inevitably (net_step LS) (net_done LS (leg_goal nodes ms)) (nodes, w).
Proof. apply network_drains. Qed.

(** ** Broadcasts *)

Context `{I : !MapIter PeerId nat, IL : !MapIterLaws I}.

(** What a broadcast of the node [p] puts on the sessions. *)
Definition broadcast_traffic (p : nat) (m : message) (e : Leg) : list message * list message :=
  (if decide (s_node e.1 = p) then [m] else [], []).

Lemma broadcast_ready LS nodes w p na id data :
  net_ready LS (λ _, ([], [])) (nodes, w) → nodes !! p = Some na → node_ok na → all_room 1 na →
  Forall (λ e, s_node e.2 ≠ p) LS → good_message (data_message (id, data)) →
  ∃ na', broadcast_to_peers id data na = Some (Ok tt, na') ∧ delivered na' = delivered na ∧
    net_ready LS (broadcast_traffic p (data_message (id, data))) (<[p := na']> nodes, w).
Proof.
  intros [Hr Ha] Hna Hn Hrm Hor Hg. destruct (serialize_total (mkService id data)) as [plain E].
  destruct (post_all_spec (seal_packet 2 plain) na 0 Hn Hrm) as (cs & Ep & _ & Hcs).
  exists (set_cells cs na). split; [unfold broadcast_to_peers, serialize_unwrap; by rewrite E, Ep|]. split; [done|].
  assert (Hp : <[p := set_cells cs na]> nodes !! p = Some (set_cells cs na))
    by (apply list_lookup_insert_eq; by eapply lookup_lt_Some).
  assert (Hq : ∀ s n, nodes !! s_node s = Some n →
    ∃ n', <[p := set_cells cs na]> nodes !! s_node s = Some n' ∧ session_loops n' = session_loops n).
  { intros s n Hs. destruct (decide (p = s_node s)) as [Es|?].
    - rewrite <- Es, Hp in *. rewrite Hna in Hs. injection Hs as <-. by eexists.
    - rewrite list_lookup_insert_ne by done. by eexists. }
  split.
  - apply Forall_lookup_2. intros m e He. destruct (Forall_lookup_1 _ _ _ _ Hr He) as (n1 & n2 & E1 & E2 & Hl & U1 & U2 & _).
    pose proof (Forall_lookup_1 _ _ _ _ Hor He) as Hne. cbn beta in Hne. cbn [fst snd] in *.
    unfold broadcast_traffic. cbn [fst snd]. rewrite (list_lookup_insert_ne nodes p (s_node e.2)) by done.
    destruct (decide (s_node e.1 = p)) as [Es|Hep].
    + rewrite Es in *. rewrite Hna in E1. injection E1 as <-. exists (set_cells cs na), n2.
      pose proof Hl as (la & ca & lb & cb & ab & ba & Hl'). pose proof (proj1 Hl') as (Hla & Hca & _).
      assert (Hh : held na (s_session e.1)) by apply (U1 la Hla).
      destruct (post_room (seal_packet 2 plain) ca 0 (Hrm _ _ Hh Hca)) as (c' & Epost & _).
      split_and!; try done.
      * assert (Hpost : post (seal_packet (data_message (id, data)).1 (data_message (id, data)).2) ca = Some c')
          by (unfold data_message; cbn [fst snd]; by rewrite E).
        pose proof (link_post packets_sendable _ _ _ _ _ _ _ _ _ _ _ Hl Hg Hca Hpost) as Hl2.
        apply (link_ext _ _ _ _ _ (set_cells cs na)) in Hl2; [exact Hl2|done| |done].
        cbn [cells set_cells set_sessions]. rewrite Hcs, Hca. cbn. rewrite decide_True by done. rewrite Epost.
        symmetry. apply list_lookup_insert_eq. by eapply lookup_lt_Some.
      * apply Forall_singleton. by left.
      * apply one_way_unclogged.
    + exists n1, n2. rewrite list_lookup_insert_ne by done. split_and!; try done. apply one_way_unclogged.
  - intros m n e f n1 n2 la lb He Hf Hmn E1 E2 Hla Hlb. cbn [fst] in *.
    destruct (Forall_lookup_1 _ _ _ _ Hr He) as (o1 & _ & F1 & _), (Forall_lookup_1 _ _ _ _ Hr Hf) as (o2 & _ & F2 & _).
    cbn [fst] in *. destruct (Hq e.1 o1 F1) as (? & G1 & L1), (Hq f.1 o2 F2) as (? & G2 & L2).
    rewrite E1 in G1. rewrite E2 in G2. simplify_eq. rewrite L1 in Hla. rewrite L2 in Hlb.
    by eapply (Ha m n e f).
Qed.

Lemma heard_data (y : party) id data :
  is_Some (y.2 !! id) → [data_message (id, data)] ≫= heard y = [(id, y.1, data)].
Proof.
  intros [svc Hs]. destruct (serialize_total (mkService id data)) as [plain E].
  unfold data_message, heard. cbn. rewrite E. cbn. rewrite (deserialize_serialize _ _ E). cbn. by rewrite Hs.
Qed.

(** C11: A broadcast reaches the whole neighbourhood.  A node of a network whose sessions are all
    idle broadcasts a message that fits one Noise packet, for a service all its neighbours have.
    The broadcast is accepted at once; and however the loops of all sessions are scheduled, they
    reach a state in which the service of every neighbour was handed the message exactly once,
    under the id of the sender and after what the neighbour had heard from it before, the
    sessions between other nodes have carried nothing, and every session is idle again.
    (Conditions: the channels of the sender's sessions have room for one message each, no
    service panics, no session is told to end, and the transport is one as for [network_delivers].
    A message too large for a packet is accepted just the same and reaches nobody:
    [broadcast_unsealed].) *)
Theorem network_broadcast LS nodes w p na id data :
  legs_ok LS → Forall (λ e, no_panic (s_party e.1) ∧ no_panic (s_party e.2)) LS →
  net_ready LS (λ _, ([], [])) (nodes, w) → nodes !! p = Some na → node_ok na → all_room 1 na →
  Forall (λ e, s_node e.2 ≠ p) LS → good_message (data_message (id, data)) →
  Forall (λ e, is_Some ((s_party e.2).2 !! id)) LS →
  ∃ na', broadcast_to_peers id data na = Some (Ok tt, na') ∧
    inevitably (net_step LS) (λ z, Forall (λ e, ∃ n m n' m',
        nodes !! s_node e.1 = Some n ∧ nodes !! s_node e.2 = Some m ∧
        z.1 !! s_node e.1 = Some n' ∧ z.1 !! s_node e.2 = Some m' ∧
        link (s_party e.1) (s_party e.2) (s_session e.1) (s_session e.2) n' m' z.2
          (mkAbs (node_app n') (node_app m') [] []) ∧
        log_from (s_party e.1).1 n' = log_from (s_party e.1).1 n ∧
        log_from (s_party e.2).1 m' = log_from (s_party e.2).1 m ++
          if decide (s_node e.1 = p) then [(id, (s_party e.2).1, data)] else []) LS)
      (<[p := na']> nodes, w).
Proof.
  intros Hok Hp Hr Hna Hn Hrm Hor Hg Hid. pose proof Hr as [Hr0 _].
  destruct (broadcast_ready LS nodes w p na id data Hr Hna Hn Hrm Hor Hg) as (na' & Eb & Ed & Hr').
  exists na'. split; [done|]. eapply inevitably_weaken; [|by apply (network_drains _ _ _ _ Hok Hp Hr')].
  intros z Hz. apply Forall_lookup_2. intros m e He.
  destruct (Forall_lookup_1 _ _ _ _ Hz He) as (n' & m' & En' & Em' & Hl & G1 & G2).
  destruct (Forall_lookup_1 _ _ _ _ Hr0 He) as (n0 & m0 & En & Em & _). cbn [fst snd] in *.
  pose proof (Forall_lookup_1 _ _ _ _ Hor He) as Hne. pose proof (Forall_lookup_1 _ _ _ _ Hid He) as Hs. cbn beta in *.
  exists n0, m0, n', m'. split_and!; try done.
  - rewrite G1. unfold leg_goal, broadcast_traffic, site_log. cbn [fst snd]. change ([] ≫= ?f) with (@nil entry).
    rewrite app_nil_r.
    destruct (decide (s_node e.1 = p)) as [Es|Hep].
    + rewrite Es in *. rewrite list_lookup_insert_eq by (by eapply lookup_lt_Some).
      rewrite Hna in En. injection En as <-. unfold log_from. by rewrite Ed.
    + by rewrite list_lookup_insert_ne, En by done.
  - rewrite G2. unfold leg_goal, broadcast_traffic, site_log. cbn [fst snd].
    rewrite list_lookup_insert_ne, Em by done. destruct (decide (s_node e.1 = p)); [by rewrite heard_data|done].
Qed.

End network.

(** ** Three nodes in memory *)

Section network_witnesses.

#[local] Existing Instance toy_snow.
#[local] Existing Instance toy_snow_laws.
#[local] Existing Instance toy_bincode.
#[local] Existing Instance toy_bincode_laws.
#[local] Existing Instance default_map_iter.
#[local] Existing Instance default_map_iter_laws.
#[local] Existing Instance Discovery.toy_ed25519.
#[local] Existing Instance key_libp2p.
#[local] Existing Instance toy_swarm.

(** A hub with sessions to two peers, over the channels 0 and 1, and 2 and 3. *)
Definition star_conn (tx rx : nat) : MockConnection := mkMockConn unbound_addr unbound_addr tx rx true.

Definition star_world : MockWorld := (byte_channel (byte_channel toy_world).2).2.

Definition star_hub : OmniMesh :=
  mkNode toy_keypair (peer Byte.x01) toy_vip mock_new false
    (mkDiscovery cache_new [] (0 : swarm) true) (router_new (peer Byte.x01))
    {[peer Byte.x02 := 0; peer Byte.x03 := 1]} [mkCell [] true toy_transport; mkCell [] true toy_transport]
    {[0 := mkLoop (peer Byte.x02) (star_conn 0 1) None false;
      1 := mkLoop (peer Byte.x03) (star_conn 2 3) None false]}
    chat_services [] (Running false) Spawned Spawned true.

Definition star_nodes : list OmniMesh :=
  [star_hub; toy_end (peer Byte.x01) (star_conn 1 0); toy_end (peer Byte.x01) (star_conn 3 2)].

Definition star_legs : list Leg :=
  [(mkSite 0 0 (peer Byte.x02, chat_services), mkSite 1 0 (peer Byte.x01, chat_services));
   (mkSite 0 1 (peer Byte.x03, chat_services), mkSite 2 0 (peer Byte.x01, chat_services))].

Lemma star_legs_ok : legs_ok star_legs.
Proof.
  split; [by repeat constructor|].
  intros [|[|m]] [|[|n]] e f; cbn; try done; intros [= <-] [= <-] _; repeat split; cbn; try done.
Qed.

Lemma star_hub_ok : node_ok star_hub.
Proof.
  split; cbn; try reflexivity.
  - intros p i [[<- <-]|[_ [<- <-]%lookup_singleton_Some]]%lookup_insert_Some; lia.
  - intros p q i [[<- <-]|[_ [<- <-]%lookup_singleton_Some]]%lookup_insert_Some
      [[<- ?]|[_ [<- ?]%lookup_singleton_Some]]%lookup_insert_Some; done.
  - intros [|[|i]]; [split; [reflexivity|by eexists]..|].
    rewrite lookup_insert_ne, lookup_singleton_ne by done. split; [by intros []|]. by destruct i.
  - intros p i l [[<- <-]|[_ [<- <-]%lookup_singleton_Some]]%lookup_insert_Some; [by intros [= <-]|].
    rewrite lookup_insert_ne by done. by intros [_ <-]%lookup_singleton_Some.
  - repeat constructor; cbn; unfold SESSION_CAPACITY; lia.
  - discriminate.
Qed.

Lemma star_ready : net_ready (C := mock_connection) star_legs (λ _, ([], [])) (star_nodes, star_world).
Proof.
  split.
  - constructor; [|constructor; [|constructor]].
    + exists star_hub, (toy_end (peer Byte.x01) (star_conn 1 0)). split_and!; try done.
      * do 6 eexists. split_and!; [by split_and!|by split_and!|done|done|by split_and!|done|done|done|done].
      * intros l [= <-]. split; [|done]. apply held_iff. by exists (peer Byte.x02).
      * intros l [= <-]. split; [|done]. apply held_iff. by exists (peer Byte.x01).
      * apply one_way_unclogged.
    + exists star_hub, (toy_end (peer Byte.x01) (star_conn 3 2)). split_and!; try done.
      * do 6 eexists. split_and!; [by split_and!|by split_and!|done|done|by split_and!|done|done|done|done].
      * intros l [= <-]. split; [|done]. apply held_iff. by exists (peer Byte.x03).
      * intros l [= <-]. split; [|done]. apply held_iff. by exists (peer Byte.x01).
      * apply one_way_unclogged.
  - intros [|[|m]] [|[|n]] e f na nb la lb; cbn; try done; intros [= <-] [= <-] _ [= <-] [= <-] [= <-] [= <-];
      by split_and!.
Qed.

Lemma star_room : all_room (C := mock_connection) 1 star_hub.
Proof. intros [|[|i]] c _; cbn; [..|done]; intros [= <-] _; cbn; unfold SESSION_CAPACITY; lia. Qed.

Lemma star_no_panic : Forall (λ e : Leg, no_panic (s_party e.1) ∧ no_panic (s_party e.2)) star_legs.
Proof. repeat constructor; apply chat_no_panic. Qed.

Lemma network_broadcast_witness :
  ∃ na', broadcast_to_peers "chat" [Byte.x41] star_hub = Some (Ok tt, na') ∧
    inevitably (net_step star_legs) (λ z, ∃ n1 n2, z.1 !! 1 = Some n1 ∧ z.1 !! 2 = Some n2 ∧
        log_from (peer Byte.x01) n1 = [("chat"%string, peer Byte.x01, [Byte.x41])] ∧
        log_from (peer Byte.x01) n2 = [("chat"%string, peer Byte.x01, [Byte.x41])])
      (<[0 := na']> star_nodes, star_world).
Proof.
  destruct (network_broadcast (C := mock_connection) (TR := mock_transport) toy_sendable
    star_legs star_nodes star_world 0 star_hub "chat" [Byte.x41]) as (na' & Eb & H).
  - exact star_legs_ok.
  - exact star_no_panic.
  - exact star_ready.
  - reflexivity.
  - exact star_hub_ok.
  - exact star_room.
  - by repeat constructor.
  - split; [by left|vm_compute; discriminate].
  - repeat constructor; by eexists.
  - exists na'. split; [exact Eb|]. eapply inevitably_weaken; [|exact H].
    intros z [(n & m & n' & m' & _ & [= <-] & _ & Em' & _ & _ & Gm) [(o & u & o' & u' & _ & [= <-] & _ & Eu' & _ & _ & Gu) _]%Forall_cons]%Forall_cons.
    exists m', u'. split; [exact Em'|]. split; [exact Eu'|]. split; [exact Gm|exact Gu].
Defined.

Lemma network_delivers_witness :
  ∃ na', inevitably (net_step star_legs)
    (λ z, ∃ n1, z.1 !! 1 = Some n1 ∧ log_from (peer Byte.x01) n1 = [("chat"%string, peer Byte.x01, [Byte.x41])])
    (<[0 := na']> star_nodes, star_world).
Proof.
  destruct (broadcast_ready (C := mock_connection) (TR := mock_transport) toy_sendable
    star_legs star_nodes star_world 0 star_hub "chat" [Byte.x41]) as (na' & _ & _ & Hr).
  - exact star_ready.
  - reflexivity.
  - exact star_hub_ok.
  - exact star_room.
  - by repeat constructor.
  - split; [by left|vm_compute; discriminate].
  - exists na'. eapply inevitably_weaken; [|apply (network_delivers (C := mock_connection) (TR := mock_transport)
      toy_sendable _ (broadcast_traffic 0 (data_message ("chat"%string, [Byte.x41]))) _ _ star_legs_ok star_no_panic)];
      [|exact Hr].
    intros z [(n & m & _ & Em & _ & _ & Gm) _]%Forall_cons. exists m. split; [exact Em|exact Gm].
Defined.

End network_witnesses.
