(* ===== verification/Apps.v ===== *)
(** * Services between nodes

    Probing, chat, publications and remote procedure calls from one node to another: the
    workers and services ([service/src/lib.rs]) over the node's [MessageSender]
    ([sdk/src/lib.rs]), its sessions and the other node, end to end and under every schedule
    of the session loops. *)

From S2P Require Import Prelude Float64 Error Types Metrics Graph Router Transport Mock.
From S2P Require Import Identity Services Noise Handshake Wire Cache Config Discovery Node Session Mesh.

Section services.
Context {W : Type} {C : DynConnection W} {DX : Duplex C} {TR : DynTransport C}.
Context `{SN : Snow, L : !SnowLaws SN, D : Ed25519, P : Libp2p, SW : !Swarm P,
          BH : Bincode HandshakePayload,
          BP : Bincode WirePacket, BPL : !BincodeLaws BP,
          BS : Bincode ServicePayload, BSL : !BincodeLaws BS,
          BU : Bincode LinkStateUpdate, BUL : !BincodeLaws BU, BT : Bincode N, T : TextCodecs,
          I : !MapIter PeerId nat, IL : !MapIterLaws I}.

(** What a session puts on a connection fits it. *)
Hypothesis packets_sendable : ∀ ty plain t w t',
  fits_noise plain → seal_packet ty plain t = (Ok w, t') → sendable w.

(** ** Idle sessions *)

(** A session is idle: nothing is queued or on the way, and both loops go on. *)
Definition idle (x y : party) (i j : nat) (na nb : OmniMesh) (w : W) : Prop :=
  sessions na !! x.1 = Some i ∧ sessions nb !! y.1 = Some j ∧
  drained x y i j (sessions na) (sessions nb) (node_app na) (node_app nb) (na, nb, w).

Lemma idle_sym x y i j na nb w : idle x y i j na nb w → idle y x j i nb na w.
Proof.
  intros (Sa & Sb & Hl & _ & _ & Ua & Ub). split_and!; try done. by apply link_sym in Hl.
Qed.

(** A drained session is idle. *)
Lemma drained_idle x y i j na nb fa fb na' nb' w' :
  sessions na !! x.1 = Some i → sessions nb !! y.1 = Some j →
  drained x y i j (sessions na) (sessions nb) fa fb (na', nb', w') →
  idle x y i j na' nb' w' ∧ node_app na' = fa ∧ node_app nb' = fb.
Proof.
  intros Sa Sb (Hl & Ea & Eb & Ua & Ub). cbn [fst snd] in *.
  destruct (link_app _ _ _ _ _ _ _ _ Hl) as [Fa Fb]. cbn in Fa, Fb. subst fa fb.
  rewrite <- Ea in Sa. rewrite <- Eb in Sb. done.
Qed.

(** ** Broadcasts *)

(** A broadcast over an idle session: what the other end is handed. *)
Lemma broadcast_linked id data x y i j na nb w :
  NoDup (map_iter (sessions na)).*2 → all_room 1 na → idle x y i j na nb w →
  no_panic x → no_panic y →
  good_message (data_message (id, data)) →
  ∃ na', broadcast_to_peers id data na = Some (Ok tt, na') ∧ (∃ cs, na' = set_cells cs na) ∧
    inevitably (loops_step i j)
      (drained x y i j (sessions na) (sessions nb) (node_app na)
         (abs_apply y (data_message <$> [(id, data)]) (node_app nb)))
      (na', nb, w).
Proof.
  intros Hn Hr (Hs & _ & Hl & _ & _ & Ua & Ub) Hx Hy Hg. cbn [fst snd] in *.
  assert (Hh : held na i) by (apply held_iff; by eexists).
  pose proof Hl as (la & ca & _ & _ & _ & _ & ((_ & Hc & _) & _)).
  destruct (serialize_total (mkService id data)) as [plain E].
  destruct (post_all_nodup (seal_packet 2 plain) na 0 Hn Hr) as (cs & Ep & _ & Hcs).
  specialize (Hcs i). rewrite Hc in Hcs. cbn in Hcs. rewrite decide_True in Hcs by done.
  destruct (post_room (seal_packet 2 plain) ca 0 (Hr i ca Hh Hc)) as (c' & Epost & _).
  rewrite Epost in Hcs.
  exists (set_cells cs na). split; [unfold broadcast_to_peers, serialize_unwrap; by rewrite E, Ep|]. split; [by eexists|].
  apply (posted_drains packets_sendable x y i j na (set_cells cs na) nb w _ ca c'); try done.
  - cbn [fmap list_fmap post_many]. unfold seal_message, data_message. cbn [fst snd].
    rewrite E. by rewrite Epost.
  - by apply Forall_singleton.
  - apply Forall_singleton. by left.
Qed.

Lemma broadcast_received id data x y i j na nb w :
  node_ok na → all_room 1 na → idle x y i j na nb w →
  no_panic x → no_panic y →
  good_message (data_message (id, data)) → is_Some (y.2 !! id) →
  ∃ na', broadcast_to_peers id data na = Some (Ok tt, na') ∧
    inevitably (loops_step i j)
      (λ z, delivered z.1.2 = delivered nb ++ [(id, y.1, data)] ∧ node_router z.1.2 = node_router nb)
      (na', nb, w).
Proof.
  intros Hn Hr Hidle Hx Hy Hg Hid.
  destruct (broadcast_linked id data x y i j na nb w) as (na' & Eb & _ & Hi); try done;
    [by apply entries_NoDup|].
  exists na'. split; [done|]. eapply inevitably_weaken; [|exact Hi].
  intros z [[_ Hz]%link_app _]. cbn [abs_b] in Hz.
  change [(id, data)] with (pair id <$> [data]) in Hz. rewrite apply_data, received_all in Hz by done.
  by injection Hz as -> ->.
Qed.

(** A node with one session, an idle one: its broadcast goes over that session, which is
    idle again afterwards. *)
Lemma broadcast_only id data x y i j na nb w :
  sessions na = {[x.1 := i]} → idle x y i j na nb w →
  no_panic x → no_panic y →
  good_message (data_message (id, data)) → is_Some (y.2 !! id) →
  ∃ na', broadcast_to_peers id data na = Some (Ok tt, na') ∧ (∃ cs, na' = set_cells cs na) ∧
    inevitably (loops_step i j)
      (λ z, idle x y i j z.1.1 z.1.2 z.2 ∧ node_app z.1.1 = node_app na ∧
            node_app z.1.2 = (node_router nb, delivered nb ++ [(id, y.1, data)]) ∧
            sessions z.1.1 = sessions na)
      (na', nb, w).
Proof.
  intros Hs Hidle Hx Hy Hg Hid.
  destruct (broadcast_linked id data x y i j na nb w) as (na' & Eb & Hcs & Hi); try done.
  - rewrite Hs. assert (Hp := map_iter_perm {[x.1 := i]}). rewrite map_to_list_singleton in Hp.
    apply Permutation_singleton_r in Hp as ->. apply NoDup_singleton.
  - intros k c Hk Hc _. destruct Hidle as (_ & _ & Hl & _).
    destruct Hl as (la & ca & lb & cb & ab & ba & (_ & Hca & _) & _ & _ & _ & _ & Hp & _).
    apply held_iff in Hk as [p Hp']. rewrite Hs in Hp'. apply lookup_singleton_Some in Hp' as [_ <-].
    cbn [fst snd] in Hca. rewrite Hca in Hc. injection Hc as <-. apply pipe_length in Hp. unfold outbox in Hp.
    rewrite !length_app in Hp. cbn in Hp. unfold SESSION_CAPACITY. lia.
  - exists na'. split; [done|]. split; [done|]. eapply inevitably_weaken; [|exact Hi]. intros [[na1 nb1] w1] Hd.
    cbn [fst snd]. pose proof Hd as (_ & Ea & _). destruct Hidle as (Sa & Sb & _).
    apply drained_idle in Hd as (Hi' & -> & ->); [|done..].
    split; [done|]. split; [done|]. split; [|done].
    change [(id, data)] with (pair id <$> [data]). by rewrite apply_data, received_all by done.
Qed.

(** A chat line travels from one node to the other.  [send_chat] on a node with a session
    to a peer that runs the chat service is accepted at once; and however the session
    loops are scheduled, they reach a state in which the peer's chat service was handed
    one more message, which makes it publish exactly that line under the sender's peer id;
    its router is untouched. *)
Theorem chat_between_nodes `{BC : Bincode ChatMessage, BCL : !BincodeLaws BC}
    now text x y i j na nb w :
  node_ok na → all_room 1 na → idle x y i j na nb w →
  no_panic x → no_panic y →
  y.2 !! "chat"%string = Some (λ from payload, (chat_handle_message from payload).1) →
  (∀ payload, format_message text = Ok payload →
     good_message (data_message ("chat"%string, payload))) →
  ∃ payload na', send_chat (MS := node_sender now) text (na, w) = Some (Ok tt, (na', w)) ∧
    chat_handle_message y.1 payload = (Ok tt, [(y.1, text)]) ∧
    inevitably (loops_step i j)
      (λ z, delivered z.1.2 = delivered nb ++ [("chat"%string, y.1, payload)] ∧
            node_router z.1.2 = node_router nb)
      (na', nb, w).
Proof.
  intros Hn Hr Hidle Hx Hy Hchat Hg.
  destruct (chat_delivery (MS := node_sender now) y.1 text (na, w)) as [(payload & Ef & Ec & Hh) _].
  destruct (broadcast_received "chat" payload x y i j na nb w) as (na' & Eb & Hi); try done;
    [by apply Hg|].
  exists payload, na'. split; [|done]. rewrite Ec. cbn. by rewrite Eb.
Qed.

(** C21: A publication that fits one Noise packet reaches the subscribers of its topic on the
    other node.  [publish] on a node with an idle session to a peer that runs the
    publish/subscribe service, with room for one message in the channels of all its sessions,
    is accepted at once; however the session loops are scheduled, they reach a state in which
    the peer's service was handed one more message; and in whatever state of its subscriptions
    it handles that message, it sends exactly the published bytes, once, to each subscriber of
    that topic, in the order in which they subscribed, and to nobody else.  (Conditions: no
    service of the two nodes panics, and the transport carries whatever a session seals.  A
    publication too large for a packet is accepted just the same and lost, as
    [broadcast_unsealed] shows.) *)
Theorem pubsub_between_nodes `{BB : Bincode PubSubMessage, BBL : !BincodeLaws BB}
    now topic data x y i j na nb w :
  node_ok na → all_room 1 na → idle x y i j na nb w →
  no_panic x → no_panic y →
  is_Some (y.2 !! "pubsub"%string) →
  (∀ payload, format_publish topic data = Ok payload →
     good_message (data_message ("pubsub"%string, payload))) →
  ∃ payload na', publish (MS := node_sender now) topic data (na, w) = Some (Ok tt, (na', w)) ∧
    (∀ ps, pubsub_handle_message y.1 payload ps =
       (Ok tt, (λ sub, (sub, data)) <$> default [] (subscriptions ps !! topic))) ∧
    inevitably (loops_step i j)
      (λ z, delivered z.1.2 = delivered nb ++ [("pubsub"%string, y.1, payload)] ∧
            node_router z.1.2 = node_router nb)
      (na', nb, w).
Proof.
  intros Hn Hr Hidle Hx Hy Hps Hg.
  destruct (serialize_unwrap_ok (mkPub topic data)) as (payload & Ef & Ed).
  destruct (broadcast_received "pubsub" payload x y i j na nb w) as (na' & Eb & Hi); try done;
    [by apply Hg|].
  exists payload, na'. split_and!; [| |done].
  - unfold publish, format_publish. rewrite Ef. cbn. by rewrite Eb.
  - intros ps. unfold pubsub_handle_message. rewrite Ed. cbn. by destruct (subscriptions ps !! topic).
Qed.

(** ** Probing *)

Section probing.
Context (x y : party) (i j : nat) (sa sb : gmap PeerId nat) (a0 b0 : AppState) (plain : list byte).
Context (K : option Z → Prop).

(** What the pong does to the node that has sent the ping, when it is handled at [now]. *)
Definition ponged (now : option Z) : AppState := (abs_handle now x.1 x.2 (7%Z, plain) a0).2.

(** A ping is under way, or its pong is, or the pong was handled; [k] steps remain. *)
Definition probing (k : nat) (z : OmniMesh * OmniMesh * W) : Prop :=
  ∃ na nb w s la ca lb cb ab ba,
    z = (na, nb, w) ∧ link_at x y i j na nb w s la ca lb cb ab ba ∧
    undisturbed na i la ∧ undisturbed nb j lb ∧ sessions na = sa ∧ sessions nb = sb ∧
    (s = mkAbs a0 b0 [(6%Z, plain)] [] ∧ k = load la ca ab + load lb cb ba + 2 ∨
     s = mkAbs a0 b0 [] [(7%Z, plain)] ∧ k = load la ca ab + load lb cb ba ∨
     (∃ now, K now ∧ s = mkAbs (ponged now) b0 [] []) ∧ k = load la ca ab + load lb cb ba).

(** The pong was handled, and the session is idle again. *)
Definition probed (z : OmniMesh * OmniMesh * W) : Prop :=
  ∃ now, K now ∧ drained x y i j sa sb (ponged now) b0 z.

(** A session with nothing under way in a direction has nothing queued there. *)
Lemma pipe_nil a b l c ws : pipe a b (ws ++ outbox l c) [] → ws = [] ∧ loop_sending l = None ∧ cell_queue c = [].
Proof.
  intros Hp%pipe_length. unfold outbox in Hp. rewrite !length_app in Hp. cbn in Hp.
  destruct ws; [|cbn in Hp; lia]. destruct (loop_sending l); [cbn in Hp; lia|].
  destruct (cell_queue c); [done|cbn in Hp; lia].
Qed.

(** A pong is not answered. *)
Lemma pong_no_reply now (p : party) bs a r a' :
  abs_handle now p.1 p.2 (7%Z, bs) a = (r, a') → r ≠ Panic ∧ replies r = [].
Proof.
  destruct a as [rt log]. unfold abs_handle. intros E. repeat case_match; simplify_eq; done.
Qed.

Lemma pong_handled now (p : party) bs t0 a :
  deserialize bs = inr t0 →
  (abs_handle now p.1 p.2 (7%Z, bs) a).2 =
    (if decide (Z.of_N t0 ≤ now_u64 now)%Z then
       router_record_latency p.1 (f64_of_Z (now_u64 now - Z.of_N t0)) a.1
     else a.1, a.2).
Proof.
  intros E. destruct a as [rt log]. unfold abs_handle. rewrite !(decide_False (P := 7%Z = _)) by done.
  rewrite decide_True by done. rewrite E. by case_decide.
Qed.

Lemma ping_reply now (p : party) bs a : abs_handle now p.1 p.2 (6%Z, bs) a = (Ok (Some (7%Z, bs)), a).
Proof. by destruct a. Qed.

Lemma probing_progress now0 k z : K now0 → probing k z → probed z ∨ ∃ z', loops_step_at K i j z z'.
Proof.
  intros HK (na & nb & w & s & la & ca & lb & cb & ab & ba & -> & Hl & Ua & Ub & Sa & Sb & Hk).
  assert (Hs : unclogged (abs_ab s) (abs_ba s)).
  { destruct Hk as [[-> _]|[[-> _]|[(now & _ & ->) _]]]; cbn; [right|left..]; apply roomy_nil. }
  destruct (loops_progress _ _ _ _ _ _ _ _ _ _ _ _ _ _ _ _ HK Hl Hs) as [?|(-> & -> & Oa & Ob)]; [by right|].
  pose proof Hl as ((La & _) & (Lb & _) & _ & _ & _ & Hp & Hq & _). apply pipe_length in Hp, Hq.
  rewrite Oa in Hp. rewrite Ob in Hq. destruct Hk as [[-> _]|[[-> _]|[(now & Hnow & ->) _]]]; [done..|].
  left. exists now. split; [done|]. split_and!; cbn; [|done..| |].
  - by exists la, ca, lb, cb, [], [].
  - intros l. rewrite La. by intros [= <-].
  - intros l. rewrite Lb. by intros [= <-].
Qed.

Lemma probing_step k z z' :
  probing k z → loops_step_at K i j z z' → ∃ k', k' < k ∧ probing k' z'.
Proof.
  intros (na & nb & w & s & la & ca & lb & cb & ab & ba & -> & Hl & Ua & Ub & Sa & Sb & Hk) Hs.
  inversion Hs as [? ? ? na' w' Hst|? ? ? nb' w' Hst]; subst; clear Hs.
  - destruct (link_at_step_at packets_sendable _ _ _ _ _ _ _ _ _ _ _ _ _ _ _ _ _ Hl Ua Hst)
      as [(la' & ca' & ab' & Hl' & Ua' & Hse & Hlt)|(now & wm & ba' & m & mba & r & a' & Hnow & -> & Em & Eh & Hr)].
    + destruct Hk as [[-> ->]|[[-> ->]|[Hf ->]]]; eexists; (split; [|exists na', nb, w'; do 7 eexists;
        split_and!; [done|exact Hl'|done|done|congruence|done|]; eauto]); lia.
    + destruct Hk as [[-> _]|[[-> ->]|[(now' & _ & ->) _]]]; [done| |done]. injection Em as <- <-.
      cbn [abs_a] in Eh. destruct (pong_no_reply now x plain a0 r a' Eh) as [Hnp Hrep].
      destruct (Hr Hnp (or_introl Hrep)) as (la' & ca' & Hl' & Ua' & Hse & Hld).
      rewrite Hrep in *. cbn [abs_ab abs_b app length] in *. eexists. split;
        [|exists na', nb, w'; do 7 eexists; split_and!; [done|exact Hl'|done|done|congruence|done|]; right; right;
          split; [exists now; split; [done|]; unfold ponged; by rewrite Eh|reflexivity]].
      unfold load in *. cbn. lia.
  - destruct (link_at_step_at packets_sendable _ _ _ _ _ _ _ _ _ _ _ _ _ _ _ _ _ (link_at_sym _ _ _ _ _ _ _ _ _ _ _ _ _ _ Hl) Ub Hst)
      as [(lb' & cb' & ba' & Hl'%link_at_sym & Ub' & Hse & Hlt)|(now & wm & ab' & m & mab & r & b' & _ & -> & Em & Eh & Hr)].
    + rewrite abs_swap_swap in Hl'.
      destruct Hk as [[-> ->]|[[-> ->]|[Hf ->]]]; eexists; (split; [|exists na, nb', w'; do 7 eexists;
        split_and!; [done|exact Hl'|done|done|done|congruence|]; eauto]); lia.
    + destruct Hk as [[-> ->]|[[-> _]|[(now' & _ & ->) _]]]; [|done..]. injection Em as <- <-.
      cbn [abs_swap abs_a] in Eh. rewrite ping_reply in Eh. injection Eh as <- <-.
      pose proof Hl as (_ & _ & _ & _ & _ & _ & (-> & _ & Hq)%pipe_nil & _).
      destruct (Hr ltac:(done) (or_intror Hq)) as (lb' & cb' & Hl'%link_at_sym & Ub' & Hse & Hld).
      cbn [abs_swap abs_a abs_b abs_ab abs_ba app replies length] in *. eexists. split;
        [|exists na, nb', w'; do 7 eexists; split_and!; [done|exact Hl'|done|done|done|congruence|]; right; left; done].
      unfold load in *. cbn in *. lia.
Qed.

End probing.

(** C20: A probe measures the link.  Let a node's probing tick fire at [now_ms] over an idle
    session (with room for the ping in the node's channels, and a time stamp that fits one
    packet), and let [K] be any set of times the clocks may show while the loops run.  Then,
    however the two session loops are scheduled at such times, the ping is answered and the
    answer handled: they reach a state in which the session is idle again, nothing has
    changed on the other node, no service was handed anything, and the node's router is the
    old one with exactly one latency recorded, for that peer: the time of [K] at which the
    pong was handled less [now_ms] (nothing is recorded if that time is before [now_ms]).
    When [K] is one time, this is exactly that time less [now_ms]. *)
Theorem probe_between_nodes `{BTL : !BincodeLaws BT} (K : option Z → Prop) now_ms x y i j na nb w :
  (∃ now, K now) → node_ok na → all_room 1 na → idle x y i j na nb w →
  (∀ bs, serialize now_ms = inr bs → fits_noise bs) →
  ∃ na', probing_tick now_ms na = Some (Ok tt, na') ∧
    inevitably (loops_step_at K i j)
      (λ z, idle x y i j z.1.1 z.1.2 z.2 ∧ node_app z.1.2 = node_app nb ∧
         delivered z.1.1 = delivered na ∧
         ∃ now, K now ∧ node_router z.1.1 =
           if decide (Z.of_N now_ms ≤ now_u64 now)%Z then
             router_record_latency x.1 (f64_of_Z (now_u64 now - Z.of_N now_ms)) (node_router na)
           else node_router na)
      (na', nb, w).
Proof.
  intros [now0 HK] Hn Hr (Hs & Hs' & Hl & _ & _ & Ua & Ub) Hfit. cbn [fst snd] in *.
  destruct (serialize_total now_ms) as [plain E]. specialize (Hfit _ E).
  assert (Hh : held na i) by (apply held_iff; by eexists).
  pose proof Hl as (_ & ca & _ & _ & _ & _ & ((_ & Hc & _) & _)).
  destruct (post_all_spec (seal_packet 6 plain) na 0 Hn Hr) as (cs & Ep & _ & Hcs).
  specialize (Hcs i). rewrite Hc in Hcs. cbn in Hcs. rewrite decide_True in Hcs by done.
  destruct (post_room (seal_packet 6 plain) ca 0 (Hr i ca Hh Hc)) as (c' & Epost & _).
  rewrite Epost in Hcs.
  exists (set_cells cs na). split; [unfold probing_tick, serialize_unwrap; by rewrite E, Ep|].
  assert (Hl' : link x y i j (set_cells cs na) nb w (mkAbs (node_app na) (node_app nb) [(6%Z, plain)] [])).
  { apply (posted_linked packets_sendable x y i j na (set_cells cs na) nb w [(6%Z, plain)] ca c'); try done.
    - cbn [fmap list_fmap post_many]. unfold seal_message. cbn [fst snd]. by rewrite Epost.
    - apply Forall_singleton. split; [by right; right; left|done]. }
  destruct Hl' as (la & c1 & lb & cb & ab & ba & Hl').
  eapply inevitably_weaken; [|eapply (inevitably_measure _
    (probed x y i j (sessions na) (sessions nb) (node_app na) (node_app nb) plain K)
    (probing x y i j (sessions na) (sessions nb) (node_app na) (node_app nb) plain K))].
  - intros [[na1 nb1] w1] (now & Hnow & Hd). apply drained_idle in Hd as (Hi & Ea & Eb); [|done..]. cbn [fst snd].
    split; [done|]. split; [done|]. unfold ponged in Ea.
    rewrite (pong_handled now x plain now_ms (node_app na) (deserialize_serialize _ _ E)) in Ea.
    injection Ea as -> ->. split; [done|]. by exists now.
  - intros k z. by apply (probing_progress _ _ _ _ _ _ _ _ _ _ now0).
  - intros k z z'. by apply probing_step.
  - exists (set_cells cs na), nb, w. do 7 eexists. split; [done|]. split; [exact Hl'|].
    split_and!; [apply Ua, Hl'|apply Ub, (proj1 (proj2 Hl'))|done|done|]. by left.
Qed.

(** ** Calls *)

(** One message over an idle session. *)
Lemma send_idle now id data x y i j na nb w :
  idle x y i j na nb w → no_panic x → no_panic y → good_message (data_message (id, data)) → is_Some (y.2 !! id) →
  ∃ na', send_to_peer now x.1 id data na w = Some (Ok tt, na', w) ∧ (∃ cs, na' = set_cells cs na) ∧
    inevitably (loops_step i j)
      (λ z, idle x y i j z.1.1 z.1.2 z.2 ∧ node_app z.1.1 = node_app na ∧
            node_app z.1.2 = (node_router nb, delivered nb ++ [(id, y.1, data)]) ∧
            sessions z.1.1 = sessions na ∧ sessions z.1.2 = sessions nb)
      (na', nb, w).
Proof.
  intros (Sa & Sb & Hl & _ & _ & Ua & Ub) Hx Hy Hg Hid. cbn [fst snd] in *.
  pose proof Hl as (la & ca & lb & cb & ab & ba & ((_ & Hc & _) & _ & _ & _ & _ & Hp & _)).
  assert (Hq : length (cell_queue ca) < SESSION_CAPACITY).
  { apply pipe_length in Hp. unfold outbox in Hp. rewrite !length_app in Hp. cbn in Hp.
    unfold SESSION_CAPACITY. lia. }
  destruct (send_linked packets_sendable now x y i j na nb w _ ca id data Hl Sa Hc Hq Hg)
    as (c' & Es & _ & Hl').
  eexists. split; [exact Es|]. split; [by eexists|]. cbn [abs_a abs_b abs_ab abs_ba app] in Hl'.
  eapply inevitably_weaken;
    [|eapply (link_drains packets_sendable _ _ _ _ _ _ _ (mkAbs _ _ _ []) Hx Hy (one_way_unclogged _) Hl')]; try done.
  - intros [[na' nb'] w'] Hd. cbn [fst snd abs_a abs_b abs_ab abs_ba] in Hd |- *.
    pose proof Hd as (_ & Ea & Eb & _).
    apply drained_idle in Hd as (Hi & -> & ->); [|done..]. split; [done|]. split; [done|].
    split; [|done]. change [data_message (id, data)] with (data_message <$> [(id, data)]).
    rewrite apply_data. unfold received. by rewrite filter_cons_True.
  - cbn. constructor; [by left|done].
Qed.

(** The same from the second node to the first. *)
Lemma send_idle_back now id data x y i j na nb w :
  idle x y i j na nb w → no_panic x → no_panic y → good_message (data_message (id, data)) → is_Some (x.2 !! id) →
  ∃ nb', send_to_peer now y.1 id data nb w = Some (Ok tt, nb', w) ∧ (∃ cs, nb' = set_cells cs nb) ∧
    inevitably (loops_step i j)
      (λ z, idle x y i j z.1.1 z.1.2 z.2 ∧ node_app z.1.2 = node_app nb ∧
            node_app z.1.1 = (node_router na, delivered na ++ [(id, x.1, data)]) ∧
            sessions z.1.1 = sessions na ∧ sessions z.1.2 = sessions nb)
      (na, nb', w).
Proof.
  intros Hi%idle_sym Hx Hy Hg Hid.
  destruct (send_idle now id data y x j i nb na w Hi Hy Hx Hg Hid) as (nb' & Es & Hcs & H).
  exists nb'. split; [exact Es|]. split; [done|].
  eapply inevitably_weaken; [|eapply (inevitably_map swap_sys _ (loops_step j i)); [..|exact H]].
  - intros [[na' nb''] w'] (Hi' & ? & ? & ? & ?). split; [by apply idle_sym|done].
  - intros s s' Hs. inversion Hs; subst; by constructor.
  - intros [[na' nb''] w'] t Hs. inversion Hs; subst; eexists; by constructor.
Qed.

Section rpc.
Context `{BR : Bincode RpcMessage, BRL : !BincodeLaws BR}.
Context (handle_request : PeerId → string → list byte → Result (list byte)).

(** A message of the RPC service that one packet can carry. *)
Definition rpc_fits (m : RpcMessage) : Prop :=
  ∀ bs, serialize m = inr bs → good_message (data_message ("rpc"%string, bs)).

(** Sending a request completes nothing. *)
Lemma call_start_completed now to method request r s res r1 s' :
  call_start (MS := node_sender now) to method request r s = Some (res, r1, s') → completed r1 = completed r.
Proof.
  unfold call_start. destruct (create_request_spec method request r) as (bs & -> & _).
  run_io. destruct (send_message _ _ _ _) as [[]|]; [|done]. intros E. by simplify_eq/=.
Qed.

(** A call, its request and its answer over an idle session. *)
Lemma rpc_round_trip now method request x y i j na nb w r rs :
  idle x y i j na nb w → no_panic x → no_panic y →
  is_Some (x.2 !! "rpc"%string) → is_Some (y.2 !! "rpc"%string) →
  let id := next_request_id r in
  let res := handle_request y.1 method request in
  res ≠ Panic → rpc_fits (Request id method request) → rpc_fits (Response id (answer_payload res)) →
  ∃ r1 na1 req,
    call_start (MS := node_sender now) x.1 method request r (na, w) = Some (Ok id, r1, (na1, w)) ∧
    inevitably (loops_step i j)
      (λ z, delivered z.1.2 = delivered nb ++ [("rpc"%string, y.1, req)] ∧
         ∃ task nb1 resp,
           rpc_handle_message (MS := node_sender now) handle_request y.1 req rs = (Ok (Some task), rs) ∧
           task (z.1.2, z.2) = Some (Ok tt, (nb1, z.2)) ∧
           inevitably (loops_step i j)
             (λ z', delivered z'.1.1 = delivered na ++ [("rpc"%string, x.1, resp)] ∧
                (rpc_handle_message (MS := node_sender now) handle_request x.1 resp r1).2 =
                  mkRpc (pending_requests r1 ∖ {[id]}) (next_request_id r1)
                    (completed r1 ++ [(id, answer_payload res)]) ∧
                call_finish (Some (answer_payload res)) = call_outcome res ∧
                idle x y i j z'.1.1 z'.1.2 z'.2 ∧ sessions z'.1.1 = sessions na ∧
                delivered z'.1.2 = delivered nb ++ [("rpc"%string, y.1, req)])
             (z.1.1, nb1, z.2))
      (na1, nb, w).
Proof.
  intros Hi Hx Hy Rx Ry id res Hres Freq Fresp.
  destruct (rpc_exchange (MS := node_sender now) handle_request y.1 x.1 method request r rs Hres)
    as (req & r1 & task & resp & Ereq & Eresp & Ec & Eh & Et & Ea & Ef).
  destruct (send_idle now "rpc" req x y i j na nb w Hi Hx Hy (Freq _ Ereq) Ry)
    as (na1 & Es & _ & H1).
  exists r1, na1, req. split.
  { unfold call_start. rewrite Ec. run_io. cbn [send_message node_sender]. by rewrite Es. }
  eapply inevitably_weaken; [|exact H1]. intros [[na2 nb2] w2] (Hi2 & Fa & Fb & Sa2 & _).
  cbn [fst snd] in *. injection Fa as Ra Da. injection Fb as Rb Db. split; [done|].
  destruct (send_idle_back now "rpc" resp x y i j na2 nb2 w2 Hi2 Hx Hy (Fresp _ Eresp) Rx)
    as (nb1 & Es2 & _ & H2).
  exists task, nb1, resp. split; [done|]. split.
  { rewrite Et. run_io. cbn [send_message node_sender]. by rewrite Es2. }
  eapply inevitably_weaken; [|exact H2]. intros [[na3 nb3] w3] (Hi3 & Fb3 & Fa & Sa3 & _).
  injection Fa as _ Da3. injection Fb3 as _ Db3. cbn [fst snd] in *.
  rewrite Da3, Da, Sa3, Sa2, Db3, Db. by split_and!.
Qed.

(** C16: A remote procedure call goes to the other node and comes back.  Over an idle session
    between two nodes with RPC services: [call] sends its request at once; however the
    session loops are scheduled, the request is handed to the other node's RPC service,
    which spawns the task that answers it; that task can send its answer at once; however
    the loops are scheduled from there, the answer is handed to the caller's RPC service,
    which completes the call under its own id; and the call then returns what the handler
    returned, or a service error with the handler's message.  (Conditions: request and answer
    each fit one Noise packet, the handler and the services of the two nodes do not panic, and
    the transport carries whatever a session seals.) *)
Theorem rpc_between_nodes now method request x y i j na nb w r rs :
  idle x y i j na nb w → no_panic x → no_panic y →
  is_Some (x.2 !! "rpc"%string) → is_Some (y.2 !! "rpc"%string) →
  let id := next_request_id r in
  let res := handle_request y.1 method request in
  res ≠ Panic → rpc_fits (Request id method request) → rpc_fits (Response id (answer_payload res)) →
  ∃ r1 na1 req,
    call_start (MS := node_sender now) x.1 method request r (na, w) = Some (Ok id, r1, (na1, w)) ∧
    inevitably (loops_step i j)
      (λ z, delivered z.1.2 = delivered nb ++ [("rpc"%string, y.1, req)] ∧
         ∃ task nb1 resp,
           rpc_handle_message (MS := node_sender now) handle_request y.1 req rs = (Ok (Some task), rs) ∧
           task (z.1.2, z.2) = Some (Ok tt, (nb1, z.2)) ∧
           inevitably (loops_step i j)
             (λ z', delivered z'.1.1 = delivered na ++ [("rpc"%string, x.1, resp)] ∧
                (rpc_handle_message (MS := node_sender now) handle_request x.1 resp r1).2 =
                  mkRpc (pending_requests r1 ∖ {[id]}) (next_request_id r1)
                    (completed r1 ++ [(id, answer_payload res)]) ∧
                call_finish (Some (answer_payload res)) = call_outcome res ∧
                idle x y i j z'.1.1 z'.1.2 z'.2)
             (z.1.1, nb1, z.2))
      (na1, nb, w).
Proof.
  intros Hi Hx Hy Rx Ry id res Hres Freq Fresp.
  destruct (rpc_round_trip now method request x y i j na nb w r rs) as (r1 & na1 & req & Ec & H); [done..|].
  exists r1, na1, req. split; [done|]. eapply inevitably_weaken; [|exact H].
  intros z (Hd & task & nb1 & resp & Eh & Et & Hz). split; [done|]. exists task, nb1, resp.
  split; [done|]. split; [done|]. eapply inevitably_weaken; [|exact Hz].
  intros z' (Hd' & Er & Ef & Hi' & _). done.
Qed.

End rpc.

End services.

(** ** Witnesses *)

Section services_witnesses.

#[local] Existing Instance toy_snow.
#[local] Existing Instance toy_snow_laws.
#[local] Existing Instance toy_bincode.
#[local] Existing Instance toy_bincode_laws.
#[local] Existing Instance toy_payload.
#[local] Existing Instance default_map_iter.
#[local] Existing Instance default_map_iter_laws.
#[local] Existing Instance Discovery.toy_ed25519.
#[local] Existing Instance key_libp2p.
#[local] Existing Instance toy_swarm.
#[local] Existing Instance Node.toy_text.

Lemma toy_idle : idle toy_x toy_y 0 0 toy_na toy_nb toy_world.
Proof.
  split; [done|]. split; [done|]. split; [exact toy_link|]. split_and!; [done..| |].
  - intros l. unfold toy_na, toy_end. cbn [session_loops fst]. intros [_ <-]%lookup_singleton_Some.
    split; [|done]. apply held_iff. by exists (peer Byte.x02).
  - exact toy_nb_undisturbed.
Qed.

Lemma chat_between_nodes_witness :
  ∃ payload na',
    send_chat (MS := node_sender 0) "hi" (toy_na, toy_world) = Some (Ok tt, (na', toy_world)) ∧
    chat_handle_message (peer Byte.x01) payload = (Ok tt, [(peer Byte.x01, "hi"%string)]) ∧
    inevitably (loops_step 0 0)
      (λ z, delivered z.1.2 = [("chat"%string, peer Byte.x01, payload)] ∧
            node_router z.1.2 = router_new (peer Byte.x01))
      (na', toy_nb, toy_world).
Proof.
  apply (chat_between_nodes (C := mock_connection) (TR := mock_transport) toy_sendable 0 "hi"
    toy_x toy_y 0 0 toy_na toy_nb toy_world).
  - exact toy_na_ok.
  - intros i c _. destruct i as [|i]; cbn; [intros [= <-] _; cbn; unfold SESSION_CAPACITY; lia|done].
  - exact toy_idle.
  - apply chat_no_panic.
  - apply chat_no_panic.
  - reflexivity.
  - intros payload [= <-]. split; [by left|vm_compute; discriminate].
Defined.

Lemma pubsub_between_nodes_witness :
  ∃ payload na',
    publish (MS := node_sender 0) "news" [Byte.x2a] (toy_na, toy_world) = Some (Ok tt, (na', toy_world)) ∧
    pubsub_handle_message (peer Byte.x01) payload (mkPubSub {["news"%string := [0; 1]]} 2) =
      (Ok tt, [(0, [Byte.x2a]); (1, [Byte.x2a])]).
Proof.
  destruct (pubsub_between_nodes (C := mock_connection) (TR := mock_transport) toy_sendable 0 "news" [Byte.x2a]
    toy_x toy_y 0 0 toy_na toy_nb toy_world) as (payload & na' & Ep & Eh & _).
  - exact toy_na_ok.
  - intros i c _. destruct i as [|i]; cbn; [intros [= <-] _; cbn; unfold SESSION_CAPACITY; lia|done].
  - exact toy_idle.
  - apply chat_no_panic.
  - apply chat_no_panic.
  - by eexists.
  - intros payload [= <-]. split; [by left|vm_compute; discriminate].
  - exists payload, na'. split; [exact Ep|apply Eh].
Defined.

(** A probe sent at 1000 ms and answered at 1030 ms: a latency of 30 ms is recorded. *)
Lemma probe_between_nodes_witness :
  ∃ na', probing_tick 1000 toy_na = Some (Ok tt, na') ∧
    inevitably (loops_step_at (λ now, now = Some 1030%Z) 0 0)
      (λ z, node_app z.1.2 = node_app toy_nb ∧ delivered z.1.1 = [] ∧
         node_router z.1.1 = router_record_latency (peer Byte.x02) (f64_of_Z 30) (node_router toy_na))
      (na', toy_nb, toy_world).
Proof.
  destruct (probe_between_nodes (C := mock_connection) (TR := mock_transport) toy_sendable
    (λ now, now = Some 1030%Z) 1000 toy_x toy_y 0 0 toy_na toy_nb toy_world) as (na' & Et & H).
  - by eexists.
  - exact toy_na_ok.
  - intros i c _. destruct i as [|i]; cbn; [intros [= <-] _; cbn; unfold SESSION_CAPACITY; lia|done].
  - exact toy_idle.
  - intros bs [= <-]. vm_compute. discriminate.
  - exists na'. split; [exact Et|]. eapply inevitably_weaken; [|exact H].
    intros z (_ & Hb & Hd & now & -> & Hr). split; [exact Hb|]. split; [exact Hd|].
    rewrite Hr. reflexivity.
Defined.

Lemma rpc_between_nodes_witness :
  let echo (_ : PeerId) (_ : string) (request : list byte) : Result (list byte) := Ok request in
  ∃ r1 na1 req,
    call_start (MS := node_sender 0) (peer Byte.x02) "echo" [Byte.x2a] rpc_new (toy_na, toy_world) =
      Some (Ok 1%Z, r1, (na1, toy_world)) ∧
    inevitably (loops_step 0 0)
      (λ z, delivered z.1.2 = [("rpc"%string, peer Byte.x01, req)] ∧
         ∃ task nb1 resp,
           rpc_handle_message (MS := node_sender 0) echo (peer Byte.x01) req rpc_new =
             (Ok (Some task), rpc_new) ∧
           task (z.1.2, z.2) = Some (Ok tt, (nb1, z.2)) ∧
           inevitably (loops_step 0 0)
             (λ z', delivered z'.1.1 = [("rpc"%string, peer Byte.x02, resp)] ∧
                call_finish (Some (inr [Byte.x2a])) = Ok [Byte.x2a])
             (z.1.1, nb1, z.2))
      (na1, toy_nb, toy_world).
Proof.
  intros echo.
  destruct (rpc_between_nodes (C := mock_connection) (TR := mock_transport) toy_sendable echo 0
    "echo" [Byte.x2a] toy_x toy_y 0 0 toy_na toy_nb toy_world rpc_new rpc_new)
    as (r1 & na1 & req & Ec & H).
  - exact toy_idle.
  - apply chat_no_panic.
  - apply chat_no_panic.
  - by eexists.
  - by eexists.
  - discriminate.
  - intros bs [= <-]. split; [by left|vm_compute; discriminate].
  - intros bs [= <-]. split; [by left|vm_compute; discriminate].
  - exists r1, na1, req. split; [exact Ec|]. eapply inevitably_weaken; [|exact H].
    intros z (Hd & task & nb1 & resp & Eh & Et & Hz). split; [exact Hd|].
    exists task, nb1, resp. split; [exact Eh|]. split; [exact Et|].
    eapply inevitably_weaken; [|exact Hz]. intros z' (Hd' & _ & Hc & _). split; [exact Hd'|exact Hc].
Defined.

End services_witnesses.
