(* ===== verification/Meeting.v ===== *)
(** * Nodes that connect to each other

    [connect_addr] and [run_accept_loop] of [sdk/src/lib.rs] in the parts between which other
    tasks run: the call takes the transport's mutex and dials, shakes hands message by
    message, and enters the session; the accept worker takes the mutex, is woken by a
    connection and spawns a task, which shakes hands message by message and enters the
    session; and the loops of the sessions run.  [connect_addr_parts] and [accept_parts] tie
    the parts to the functions of [Node].  The rest shows what nodes do that wait for each
    other. *)

From S2P Require Import Prelude Float64 Error Types Metrics Graph Router Transport Mock.
From S2P Require Import Identity Services Noise Handshake Wire Cache Config Discovery Node Session Mesh Apps.

Section meeting.
Context {W : Type} {C : DynConnection W} {TR : DynTransport C}.
Context `{SN : Snow, D : Ed25519, P : Libp2p, SW : !Swarm P,
          BH : Bincode HandshakePayload, BP : Bincode WirePacket, BS : Bincode ServicePayload,
          BU : Bincode LinkStateUpdate, BT : Bincode N, T : TextCodecs}.

(** A handshake under way, on its connection. *)
Abbreviation shaking := (proto (NoiseTransport * PeerId) * conn)%type.

(** A call of [connect_addr]: it waits for the mutex, shakes hands, or has returned. *)
Inductive Calling :=
| NoCall
| Dialling (addr : SocketAddr)
| Shaking (s : shaking)
| Returned (r : Result PeerId).

(** A node, a call of [connect_addr] on it, and the tasks of its accept worker that have
    not entered their sessions yet. *)
Record Joiner := mkJoiner { j_node : OmniMesh; j_call : Calling; j_tasks : list shaking }.

(** What a handshake has come to; running out of fuel is kept apart as in
    [run_handshake]. *)
Definition outcome (p : proto (NoiseTransport * PeerId)) : option (Result (NoiseTransport * PeerId)) :=
  match p with
  | Ret r => Some r
  | NoFuel => Some Panic
  | _ => None
  end.

(** The program of one end, or the connection is dropped. *)
Definition begin_shake (h : Result NoiseHandshake) (local_peer_id : PeerId) (c : conn)
    : io W (Result shaking) :=
  match h with
  | Ok handshake => mret (Ok (perform_handshake 2 handshake local_peer_id, c))
  | Err e => abandon c (Err e)
  | Panic => abandon c Panic
  end.

(** The mutex, [connect], and the mutex is released. *)
Definition call_dial (j : Joiner) : io W Joiner :=
  let '(mkJoiner n call ts) := j in
  match call with
  | Dialling addr =>
      if transport_held n then λ _, None
      else
        '(r, tr) ← transport_connect addr (node_transport n);
        let n := set_transport tr n in
        match r with
        | Ok c =>
            r ← begin_shake (with_keypair Initiator (kp_seed (node_keypair n))) (node_peer_id n) c;
            mret (mkJoiner n (match r with
                              | Ok s => Shaking s
                              | Err e => Returned (Err e)
                              | Panic => Returned Panic
                              end) ts)
        | Err e => mret (mkJoiner n (Returned (Err e)) ts)
        | Panic => mret (mkJoiner n (Returned Panic) ts)
        end
  | _ => λ _, None
  end.

(** One message of the handshake. *)
Definition call_shake (j : Joiner) : io W Joiner :=
  match j_call j with
  | Shaking (p, c) => '(p, c) ← pstep p c; mret (mkJoiner (j_node j) (Shaking (p, c)) (j_tasks j))
  | _ => λ _, None
  end.

(** The rest of the call: enter the session, or drop the connection. *)
Definition call_return (j : Joiner) : io W Joiner :=
  match j_call j with
  | Shaking (p, c) =>
      match outcome p with
      | Some (Ok (t, q)) => mret (mkJoiner (add_session q t c (j_node j)) (Returned (Ok q)) (j_tasks j))
      | Some (Err e) => λ w, Some (mkJoiner (j_node j) (Returned (Err e)) (j_tasks j), conn_drop c w)
      | Some Panic => λ w, Some (mkJoiner (j_node j) (Returned Panic) (j_tasks j), conn_drop c w)
      | None => λ _, None
      end
  | _ => λ _, None
  end.

(** The accept worker takes the mutex. *)
Definition worker_lock (j : Joiner) : option Joiner :=
  n ← accept_lock (j_node j); Some (mkJoiner n (j_call j) (j_tasks j)).

(** [accept] resolves, the mutex is released, and a task is spawned. *)
Definition worker_accept (j : Joiner) : io W Joiner :=
  let '(mkJoiner n call ts) := j in
  if negb (transport_held n) then λ _, None
  else
    '(r, tr) ← transport_accept (node_transport n);
    let n := set_transport tr (set_accept false (accept_task n) n) in
    match r with
    | Ok c =>
        let h := match with_keypair Responder (kp_seed (node_keypair n)) with
                 | Err _ => Panic | h => h end in
        r ← begin_shake h (kp_to_peer_id (node_keypair n)) c;
        mret (mkJoiner n call (match r with Ok s => ts ++ [s] | _ => ts end))
    | _ => mret (mkJoiner n call ts)
    end.

(** A task of the accept worker: one message, and the end of its handshake. *)
Definition task_shake (k : nat) (j : Joiner) : io W Joiner :=
  match j_tasks j !! k with
  | Some (p, c) =>
      '(p, c) ← pstep p c; mret (mkJoiner (j_node j) (j_call j) (<[k := (p, c)]> (j_tasks j)))
  | None => λ _, None
  end.

Definition task_return (k : nat) (j : Joiner) : io W Joiner :=
  match j_tasks j !! k with
  | Some (p, c) =>
      match outcome p with
      | Some (Ok (t, q)) => mret (mkJoiner (add_session q t c (j_node j)) (j_call j) (delete k (j_tasks j)))
      | Some _ => λ w, Some (mkJoiner (j_node j) (j_call j) (delete k (j_tasks j)), conn_drop c w)
      | None => λ _, None
      end
  | None => λ _, None
  end.

(** One step of a node. *)
Inductive join_step : Joiner * W → Joiner * W → Prop :=
| js_dial j w z : call_dial j w = Some z → join_step (j, w) z
| js_shake j w z : call_shake j w = Some z → join_step (j, w) z
| js_return j w z : call_return j w = Some z → join_step (j, w) z
| js_lock j w j' : worker_lock j = Some j' → join_step (j, w) (j', w)
| js_accept j w z : worker_accept j w = Some z → join_step (j, w) z
| js_task k j w z : task_shake k j w = Some z → join_step (j, w) z
| js_enter k j w z : task_return k j w = Some z → join_step (j, w) z
| js_session i j w n' w' : session_step i (j_node j, w) (n', w') →
    join_step (j, w) (mkJoiner n' (j_call j) (j_tasks j), w').

(** Two nodes. *)
Abbreviation meeting := (Joiner * Joiner * W)%type.

Inductive meet_step : meeting → meeting → Prop :=
| meet_a a b w a' w' : join_step (a, w) (a', w') → meet_step (a, b, w) (a', b, w')
| meet_b a b w b' w' : join_step (b, w) (b', w') → meet_step (a, b, w) (a, b', w').

(** ** The parts make up the calls *)

Lemma run_call n ts p : ∀ c w o c' w',
  run p c w = Some (o, c', w') →
  ∃ p', outcome p' = Some (default Panic o) ∧
    rtc join_step (mkJoiner n (Shaking (p, c)) ts, w) (mkJoiner n (Shaking (p', c')) ts, w').
Proof.
  induction p as [r|m k IH|k IH|]; intros c w o c' w'; cbn [run]; run_io.
  - intros [= <- <- <-]. by exists (Ret r).
  - destruct (conn_send m c w) as [[[r c1] w1]|] eqn:E; [|done]. intros (p' & Ho & Hr)%IH.
    exists p'. split; [done|]. eapply rtc_l; [|exact Hr]. apply js_shake. cbn. run_io. by rewrite E.
  - destruct (conn_recv c w) as [[[r c1] w1]|] eqn:E; [|done]. intros (p' & Ho & Hr)%IH.
    exists p'. split; [done|]. eapply rtc_l; [|exact Hr]. apply js_shake. cbn. run_io. by rewrite E.
  - intros [= <- <- <-]. by exists NoFuel.
Qed.

Lemma run_task n call ts p : ∀ c w o c' w',
  run p c w = Some (o, c', w') →
  ∃ p', outcome p' = Some (default Panic o) ∧
    rtc join_step (mkJoiner n call (ts ++ [(p, c)]), w) (mkJoiner n call (ts ++ [(p', c')]), w').
Proof.
  assert (Hk : ∀ s, (ts ++ [s]) !! length ts = Some s) by (intros s; by apply list_lookup_middle).
  assert (Hi : ∀ s s', <[length ts := s']> (ts ++ [s]) = ts ++ [s'])
    by (intros s s'; rewrite insert_app_r_alt by lia; by rewrite Nat.sub_diag).
  induction p as [r|m k IH|k IH|]; intros c w o c' w'; cbn [run]; run_io.
  - intros [= <- <- <-]. by exists (Ret r).
  - destruct (conn_send m c w) as [[[r c1] w1]|] eqn:E; [|done]. intros (p' & Ho & Hr)%IH.
    exists p'. split; [done|]. eapply rtc_l; [|exact Hr]. apply (js_task (length ts)).
    unfold task_shake. cbn [j_tasks]. rewrite Hk. cbn. run_io. rewrite E. by rewrite Hi.
  - destruct (conn_recv c w) as [[[r c1] w1]|] eqn:E; [|done]. intros (p' & Ho & Hr)%IH.
    exists p'. split; [done|]. eapply rtc_l; [|exact Hr]. apply (js_task (length ts)).
    unfold task_shake. cbn [j_tasks]. rewrite Hk. cbn. run_io. rewrite E. by rewrite Hi.
  - intros [= <- <- <-]. by exists NoFuel.
Qed.

(** [connect_addr], run without interruption, is its parts one after another. *)
Lemma connect_addr_parts addr n w r n' w' ts :
  connect_addr addr n w = Some (r, n', w') →
  rtc join_step (mkJoiner n (Dialling addr) ts, w) (mkJoiner n' (Returned r) ts, w').
Proof.
  unfold connect_addr, dial. destruct (transport_held n) eqn:Eh; [done|]. run_io.
  destruct (transport_connect addr (node_transport n) w) as [[[rc tr] w1]|] eqn:Ec; [|done].
  assert (Hd : ∀ j, call_dial (mkJoiner n (Dialling addr) ts) w = Some j →
    rtc join_step (mkJoiner n (Dialling addr) ts, w) j) by (intros j E; by apply rtc_once, js_dial).
  destruct rc as [c|e|]; cbn [io_attempt].
  2,3: intros [= <- <- <-]; apply Hd; cbn; rewrite Eh; run_io; by rewrite Ec.
  unfold shake. destruct (with_keypair Initiator _) as [h|e|] eqn:Ek; cbn [io_attempt]; run_io.
  2,3: intros [= <- <- <-]; apply Hd; cbn; rewrite Eh; run_io; rewrite Ec; cbn; run_io; by rewrite Ek.
  unfold run_handshake. run_io.
  destruct (run (perform_handshake 2 h (node_peer_id n)) c w1) as [[[o c1] w2]|] eqn:Er; [|done].
  destruct (run_call (set_transport tr n) ts _ _ _ _ _ _ Er) as (p' & Ho & Hr). intros E.
  eapply rtc_l; [eapply js_dial; cbn; rewrite Eh; run_io; rewrite Ec; cbn; run_io; rewrite Ek; reflexivity|].
  eapply rtc_r; [exact Hr|]. apply js_return. unfold call_return. cbn [j_call]. rewrite Ho.
  revert E. destruct (default Panic o) as [[t q]|e|]; cbn; intros [= <- <- <-]; done.
Qed.

(** So is a round of the accept worker. *)
Lemma accept_parts n w n' w' call ts :
  accept_resolve n w = Some (n', w') →
  rtc join_step (mkJoiner n call ts, w) (mkJoiner n' call ts, w').
Proof.
  unfold accept_resolve. destruct (transport_held n) eqn:Eh; [|done]. cbn [negb]. run_io.
  destruct (transport_accept (node_transport n) w) as [[[rc tr] w1]|] eqn:Ec; [|done].
  assert (Hd : ∀ z, worker_accept (mkJoiner n call ts) w = Some z →
    join_step (mkJoiner n call ts, w) z) by (intros z E; by apply js_accept).
  destruct rc as [c|e|].
  2,3: intros [= <- <-]; apply rtc_once, Hd; cbn; rewrite Eh; cbn; run_io; by rewrite Ec.
  unfold shake. cbn [node_keypair set_transport set_accept].
  destruct (with_keypair Responder _) as [h|e|] eqn:Ek; run_io.
  2,3: intros [= <- <-]; apply rtc_once, Hd; cbn; rewrite Eh; cbn; run_io; rewrite Ec; cbn; run_io; by rewrite Ek.
  unfold run_handshake. run_io.
  destruct (run (perform_handshake 2 h _) c w1) as [[[o c1] w2]|] eqn:Er; [|done].
  destruct (run_task (set_transport tr (set_accept false (accept_task n) n)) call ts _ _ _ _ _ _ Er)
    as (p' & Ho & Hr). intros E.
  eapply rtc_l; [apply Hd; cbn; rewrite Eh; cbn; run_io; rewrite Ec; cbn; run_io; rewrite Ek; reflexivity|].
  eapply rtc_r; [exact Hr|]. apply (js_enter (length ts)). unfold task_return. cbn [j_tasks].
  rewrite list_lookup_middle by done. rewrite Ho.
  assert (Hdel : delete (length ts) (ts ++ [(p', c1)]) = ts) by by rewrite delete_middle, app_nil_r.
  revert E. destruct (default Panic o) as [[t q]|e|]; cbn; rewrite Hdel; intros [= <- <-]; done.
Qed.

(** ** What the loops have to do with the workers *)

(** A loop neither looks at the accept worker nor changes it. *)
Lemma session_functions_accept h t i now n w :
  session_send i (set_accept h t n) w = prod_map (set_accept h t) id <$> session_send i n w ∧
  session_outgoing i (set_accept h t n) w = prod_map (set_accept h t) id <$> session_outgoing i n w ∧
  session_incoming i now (set_accept h t n) w = prod_map (set_accept h t) id <$> session_incoming i now n w ∧
  session_shutdown i (set_accept h t n) w = prod_map (set_accept h t) id <$> session_shutdown i n w.
Proof.
  split_and!.
  - unfold session_send, after_send, end_loop, drop_loop. run_io. cbn [session_loops set_accept].
    repeat case_match; simplify_eq; done.
  - unfold session_outgoing, end_loop, drop_loop. run_io. cbn [session_loops cells set_accept].
    change (held (set_accept h t n)) with (held n). repeat case_match; simplify_eq; done.
  - unfold session_incoming, end_loop, drop_loop. run_io. cbn [session_loops cells set_accept node_services].
    change (wire_state ?c (set_accept h t n)) with (wire_state c n). repeat case_match; simplify_eq; done.
  - unfold session_shutdown, end_loop, drop_loop. run_io. cbn [session_loops set_accept].
    repeat case_match; simplify_eq; done.
Qed.

Lemma session_step_accept h t i n w z :
  session_step i (set_accept h t n, w) z →
  ∃ n' w', z = (set_accept h t n', w') ∧ session_step i (n, w) (n', w').
Proof.
  assert (Hm : ∀ (o : option (OmniMesh * W)), prod_map (set_accept h t) id <$> o = Some z →
    ∃ n' w', z = (set_accept h t n', w') ∧ o = Some (n', w'))
    by (intros [[n' w']|]; [intros [= <-]; by exists n', w'|done]).
  intros Hs. inversion Hs as [? ? ? E|? ? ? E|now ? ? ? E|? ? ? E]; subst.
  all: destruct (session_functions_accept h t i None n w) as (E1 & E2 & _ & E4).
  - rewrite E1 in E. apply Hm in E as (n' & w' & -> & E). exists n', w'. split; [done|by apply step_send].
  - rewrite E2 in E. apply Hm in E as (n' & w' & -> & E). exists n', w'. split; [done|by apply step_outgoing].
  - destruct (session_functions_accept h t i now n w) as (_ & _ & E3 & _). rewrite E3 in E.
    apply Hm in E as (n' & w' & -> & E). exists n', w'. split; [done|by eapply step_incoming].
  - rewrite E4 in E. apply Hm in E as (n' & w' & -> & E). exists n', w'. split; [done|by apply step_shutdown].
Qed.

Lemma session_step_accepts h t i n w n' w' :
  session_step i (n, w) (n', w') → session_step i (set_accept h t n, w) (set_accept h t n', w').
Proof.
  intros Hs. inversion Hs as [? ? ? E|? ? ? E|now ? ? ? E|? ? ? E]; subst.
  all: destruct (session_functions_accept h t i None n w) as (E1 & E2 & _ & E4).
  - apply step_send. by rewrite E1, E.
  - apply step_outgoing. by rewrite E2, E.
  - destruct (session_functions_accept h t i now n w) as (_ & _ & E3 & _).
    eapply (step_incoming _ _ now); [by rewrite E3, E|done].
  - apply step_shutdown. by rewrite E4, E.
Qed.

(** A node without loops, and a loop with nothing to do. *)
Lemma no_loop_stuck i n w z : session_loops n !! i = None → session_step i (n, w) z → False.
Proof.
  intros Hi Hs. inversion Hs as [? ? ? E|? ? ? E|now ? ? ? E|? ? ? E]; subst; revert E;
    unfold session_send, session_outgoing, session_incoming, session_shutdown; by rewrite Hi.
Qed.

Lemma idle_loop_stuck i p c t n w z :
  end_at n i (mkLoop p c None false) (mkCell [] true t) → held n i → conn_recv c w = None →
  session_step i (n, w) z → False.
Proof.
  intros (Hl & Hc & _) Hh Hr Hs. inversion Hs as [? ? ? E|? ? ? E|now ? ? ? E|? ? ? E]; subst; revert E.
  - unfold session_send. by rewrite Hl.
  - unfold session_outgoing. rewrite Hl, Hc. cbn [cell_queue]. by rewrite decide_True.
  - unfold session_incoming. rewrite Hl, Hc. run_io. by rewrite Hr.
  - unfold session_shutdown. by rewrite Hl.
Qed.

(** What no connection can change, no loop can. *)
Definition kept (Q : W → Prop) : Prop :=
  ∀ c w, Q w →
    (∀ m r c' w', conn_send m c w = Some (r, c', w') → Q w') ∧
    (∀ r c' w', conn_recv c w = Some (r, c', w') → Q w') ∧
    (∀ r c' w', conn_close c w = Some (r, c', w') → Q w') ∧ Q (conn_drop c w).

Lemma drop_loop_kept Q i c n w n' w' : kept Q → Q w → drop_loop i c n w = Some (n', w') → Q w'.
Proof. intros HQ Hw [= _ <-]. by apply (HQ c w Hw). Qed.

Lemma end_loop_kept Q i c n w n' w' : kept Q → Q w → end_loop i c n w = Some (n', w') → Q w'.
Proof.
  intros HQ Hw. unfold end_loop. run_io. destruct (conn_close c w) as [[[r c1] w1]|] eqn:E; [|done].
  apply drop_loop_kept; [done|]. exact (proj1 (proj2 (proj2 (HQ _ w Hw))) _ _ _ E).
Qed.

Lemma session_step_kept Q i n w n' w' : kept Q → Q w → session_step i (n, w) (n', w') → Q w'.
Proof.
  intros HQ Hw Hs. inversion Hs as [? ? ? E|? ? ? E|now ? ? ? E|? ? ? E]; subst; clear Hs; revert E.
  - unfold session_send, after_send. run_io. destruct (session_loops n !! i) as [l|]; [|done].
    destruct (loop_sending l); [|done].
    destruct (conn_send _ (loop_conn l) w) as [[[r c] w1]|] eqn:E; [|done].
    pose proof (proj1 (HQ _ w Hw) _ _ _ _ E).
    destruct r; [by intros [= _ <-]|by apply end_loop_kept|by apply drop_loop_kept].
  - unfold session_outgoing. repeat case_match; try done; [by apply end_loop_kept|by intros [= _ <-]].
  - unfold session_incoming. run_io. destruct (session_loops n !! i) as [[p c [] sh]|]; [done| |done].
    destruct (cells n !! i); [|done]. destruct (conn_recv c w) as [[[r c1] w1]|] eqn:E; [|done].
    pose proof (proj1 (proj2 (HQ _ w Hw)) _ _ _ E).
    destruct r as [[bytes|]| |]; [|by apply end_loop_kept..|by apply drop_loop_kept].
    destruct (handle_wire_packet _ _ _ _ _) as [res st].
    destruct res; [by intros [= _ <-]..|by apply drop_loop_kept].
  - unfold session_shutdown. repeat case_match; try done. by apply end_loop_kept.
Qed.

Lemma pstep_kept {A} Q (p : proto A) c w p' c' w' :
  kept Q → Q w → pstep p c w = Some (p', c', w') → Q w'.
Proof.
  intros HQ Hw. destruct p as [|m k|k|]; cbn; run_io; [done| | |done].
  - destruct (conn_send m c w) as [[[r c1] w1]|] eqn:E; [|done]. intros [= _ _ <-].
    exact (proj1 (HQ _ w Hw) _ _ _ _ E).
  - destruct (conn_recv c w) as [[[r c1] w1]|] eqn:E; [|done]. intros [= _ _ <-].
    exact (proj1 (proj2 (HQ _ w Hw)) _ _ _ E).
Qed.

End meeting.

(** ** Two nodes over the mock transport *)

Section mock_meeting.
Context `{SN : Snow, L : !SnowLaws SN, D : Ed25519, P : Libp2p, SW : !Swarm P,
          BH : Bincode HandshakePayload, BHL : !BincodeLaws BH,
          BP : Bincode WirePacket, BPL : !BincodeLaws BP,
          BS : Bincode ServicePayload, BSL : !BincodeLaws BS,
          BU : Bincode LinkStateUpdate, BUL : !BincodeLaws BU, BT : Bincode N, T : TextCodecs}.

Abbreviation MockMesh := (OmniMesh (TR := mock_transport)).
Abbreviation MockJoiner := (Joiner (TR := mock_transport)).
Abbreviation MockMeeting := (MockJoiner * MockJoiner * MockWorld)%type.
Abbreviation shakes := (proto (NoiseTransport * PeerId) * MockConnection)%type.

(** Connections leave the listeners alone. *)
Lemma listening_kept t addr q : kept (C := mock_connection) (listening t addr q).
Proof.
  intros c w (l & n & Hrx & Hr & Hl).
  assert (Hb : ∀ m, listening t addr q (with_byte m w)) by (intros m; by exists l, n).
  split_and!; cbn.
  - intros m r c' w'. unfold mock_send. repeat case_match; intros; simplify_eq; try apply Hb; by exists l, n.
  - intros r c' w'. unfold mock_recv. repeat case_match; intros; simplify_eq; try apply Hb; by exists l, n.
  - intros r c' w' [= _ _ <-]. by exists l, n.
  - by exists l, n.
Qed.

Lemma mock_accept_waits t addr w : listening t addr [] w → mock_accept t w = None.
Proof. intros (l & n & Hrx & Hr & Hl). unfold mock_accept. by rewrite Hrx, Hl. Qed.

(** Connections see the byte channels only. *)
Lemma mock_pstep_bytes {A} (p : proto A) (c : MockConnection) w v :
  byte_chans w = byte_chans v →
  match pstep (C := mock_connection) p c w, pstep (C := mock_connection) p c v with
  | Some (p1, c1, w1), Some (p2, c2, v2) => p1 = p2 ∧ c1 = c2 ∧ byte_chans w1 = byte_chans v2
  | None, None => True
  | _, _ => False
  end.
Proof.
  intros E. destruct p as [|m k|k|]; cbn; run_io; [done| | |done].
  - unfold mock_send. rewrite E. repeat case_match; simplify_eq; done.
  - unfold mock_recv. rewrite E. repeat case_match; simplify_eq; done.
Qed.

Lemma mock_recv_bytes (c : MockConnection) w v :
  byte_chans w = byte_chans v → mock_recv c v = None → mock_recv c w = None.
Proof. intros E. unfold mock_recv. rewrite E. repeat case_match; done. Qed.

(** *** From the dial to the session *)

Section shaking.
Context (alice bob : MockMesh) (addr_a addr_b : SocketAddr) (hb : NoiseHandshake) (cb0 : MockConnection).
Context (run_a : ∃ b, accept_task alice = Running b) (run_b : ∃ b, accept_task bob = Running b).
Context (new_a : cells alice = [] ∧ session_loops alice = ∅) (new_b : cells bob = [] ∧ session_loops bob = ∅).
Context (key_b : with_keypair Responder (kp_seed (node_keypair bob)) = Ok hb).
Context (id_b : kp_to_peer_id (node_keypair bob) = node_peer_id bob).

Abbreviation pa := (node_peer_id alice).
Abbreviation pb := (node_peer_id bob).

(** A node whose accept worker holds the mutex, or does not. *)
Definition locked (h : bool) (n : MockMesh) : MockMesh := set_accept h (accept_task n) n.

(** Alice is in her handshake, or has returned. *)
Definition side_a (a : MockJoiner) (e : shakes) : Prop :=
  ∃ h, j_tasks a = [] ∧
    (j_node a = locked h alice ∧ j_call a = Shaking e ∨
     ∃ t c, e = (Ret (Ok (t, pb)), c) ∧ j_node a = locked h (add_session pb t c alice) ∧
       j_call a = Returned (Ok pb)).

(** Bob has not accepted the connection yet, shakes hands, or has entered the session. *)
Definition side_b (b : MockJoiner) (e : shakes) (w : MockWorld) : Prop :=
  ∃ h, j_call b = NoCall ∧
    (j_node b = locked h bob ∧ j_tasks b = [] ∧ e = (perform_handshake 2 hb pb, cb0) ∧
       listening (node_transport bob) addr_b [cb0] w ∨
     j_node b = locked h bob ∧ j_tasks b = [e] ∧ listening (node_transport bob) addr_b [] w ∨
     ∃ t c, e = (Ret (Ok (t, pa)), c) ∧ j_node b = locked h (add_session pa t c bob) ∧ j_tasks b = [] ∧
       listening (node_transport bob) addr_b [] w).

(** The steps that are left besides those of the handshake. *)
Definition lock_left (n : MockMesh) : nat := if transport_held n then 0 else 1.

Definition chores_a (a : MockJoiner) : nat :=
  lock_left (j_node a) + match j_call a with Shaking _ => 1 | _ => 0 end.

Definition chores_b (b : MockJoiner) : nat :=
  lock_left (j_node b) +
  match j_tasks b, cells (j_node b) with _ :: _, _ => 1 | [], [] => 4 | [], _ => 0 end.

(** The worker of a node that listens with nobody dialling. *)
Lemma worker_lock_chores h (n : MockMesh) call ts j' :
  worker_lock (mkJoiner (locked h n) call ts) = Some j' →
  j' = mkJoiner (locked true n) call ts ∧ h = false.
Proof.
  unfold worker_lock, accept_lock. cbn. destruct (accept_task n) eqn:Et; [done| |done].
  destruct h; [done|]. intros [= <-]. split; [|done]. unfold locked. by rewrite Et.
Qed.

Lemma side_a_step a e v w z :
  rests pb e.1 e.2 v → byte_chans w = byte_chans v → side_a a e →
  listening (node_transport alice) addr_a [] w → join_step (a, w) z →
  (side_a z.1 e ∧ chores_a z.1 < chores_a a ∧ z.2 = w) ∨
  ∃ e' v', pstep e.1 e.2 v = Some (e', v') ∧ side_a z.1 e' ∧ chores_a z.1 = chores_a a ∧
    byte_chans z.2 = byte_chans v' ∧ pstep e.1 e.2 w = Some (e', z.2).
Proof.
  intros [HF HR] Ev (h & Ht & Hn) Hl Hs. destruct a as [n call ts]. cbn [j_node j_call j_tasks] in *. subst ts.
  inversion Hs as [? ? ? E|? ? ? E|? ? ? E|? ? ? E|? ? ? E|? ? ? ? E|? ? ? ? E|i ? ? n' w' Hst]; subst; clear Hs.
  - by destruct Hn as [[-> ->]|(t & c & -> & -> & ->)].
  - right. destruct Hn as [[-> ->]|(t & c & -> & -> & ->)]; [|done]. destruct e as [p c]. cbn [fst snd] in *.
    revert E. unfold call_shake. cbn [j_call j_node j_tasks]. run_io.
    pose proof (mock_pstep_bytes p c w v Ev) as Hb.
    destruct (pstep p c w) as [[[p1 c1] w1]|]; [|done]. intros [= <-].
    destruct (pstep p c v) as [[[p2 c2] v2]|]; [|done]. destruct Hb as (-> & -> & Hb).
    exists (p2, c2), v2. split_and!; try done. exists h. split; [done|]. by left.
  - left. destruct Hn as [[-> ->]|(t & c & -> & -> & ->)]; [|done]. destruct e as [p c]. cbn [fst snd] in *.
    revert E. unfold call_return. cbn [j_call j_node j_tasks].
    destruct p as [r| | |]; cbn [outcome]; [|done..].
    destruct (HR r eq_refl) as [[t ->] _]. intros [= <-]. cbn [fst snd]. split_and!; [|destruct h; vm_compute; lia|done].
    exists h. split; [done|]. right. by exists t, c.
  - left. destruct Hn as [[-> ->]|(t & c & -> & -> & ->)]; apply worker_lock_chores in E as [-> ->];
      (split_and!; [exists true; split; [done|]|unfold chores_a, lock_left; cbn; lia|done]); [by left|right; by exists t, c].
  - exfalso. revert E. unfold worker_accept. destruct Hn as [[-> _]|(t & c & -> & -> & _)];
      cbn [transport_held locked set_accept negb]; (case_match; [done|]); run_io; cbn;
      by rewrite (mock_accept_waits _ _ _ Hl).
  - done.
  - done.
  - exfalso. cbn [j_node] in Hst. destruct new_a as [Hc Hlo]. destruct Hn as [[-> _]|(t & c & -> & -> & _)].
    + eapply no_loop_stuck; [|exact Hst]. cbn. by rewrite Hlo.
    + destruct (HR _ eq_refl) as [_ Hrecv]. cbn [fst snd] in Hrecv. destruct (decide (i = 0)) as [->|Hi].
      * eapply (idle_loop_stuck (TR := mock_transport) 0 pb c t); [| | |exact Hst].
        -- pose proof (end_at_add_session (TR := mock_transport) pb t c alice) as H. rewrite Hc in H. exact H.
        -- apply held_iff. exists pb. cbn. rewrite Hc. apply lookup_insert_eq.
        -- by eapply mock_recv_bytes.
      * eapply no_loop_stuck; [|exact Hst]. cbn. rewrite Hc. by rewrite lookup_insert_ne, Hlo.
Qed.

(** Accepting the connection. *)
Lemma bob_accepts h w :
  listening (node_transport bob) addr_b [cb0] w → listening (node_transport alice) addr_a [] w →
  worker_accept (mkJoiner (locked h bob) NoCall []) w =
    (if h then mock_accept (node_transport bob) w else None) ≫=
      (λ '(_, w'), Some (mkJoiner (locked false bob) NoCall [(perform_handshake 2 hb pb, cb0)], w')) ∧
  ∃ w', mock_accept (node_transport bob) w = Some (Ok cb0, node_transport bob, w') ∧
    byte_chans w' = byte_chans w ∧ listening (node_transport bob) addr_b [] w' ∧
    listening (node_transport alice) addr_a [] w'.
Proof.
  intros Hb Ha. destruct (mock_accept_ok _ _ _ _ _ Hb) as (w' & E & Hb' & _). split.
  - unfold worker_accept. cbn [locked set_accept transport_held]. destruct h; [|done]. cbn [negb]. run_io.
    change (transport_accept (node_transport (locked true bob)) w) with (mock_accept (node_transport bob) w).
    rewrite E. cbn. unfold locked. rewrite key_b. cbn [begin_shake]. run_io. rewrite id_b. by destruct bob.
  - exists w'. split; [done|]. destruct Hb as (l & n & Hrx & Hr & Hl), Ha as (l' & n' & Hrx' & Hr' & Hl').
    revert E. unfold mock_accept. rewrite Hrx, Hl. intros [= <-]. split_and!; [done|done|].
    exists l', n'. split_and!; [done|done|]. cbn. rewrite lookup_insert_ne; [done|]. intros ->. congruence.
Qed.

Lemma side_b_world b e w w' :
  (∀ q, listening (node_transport bob) addr_b q w → listening (node_transport bob) addr_b q w') →
  side_b b e w → side_b b e w'.
Proof.
  intros Hw (h & Hc & [(?&?&?&?)|[(?&?&?)|(t & c & ?&?&?&?)]]); exists h; (split; [done|]).
  - left. by split_and!; [..|apply Hw].
  - right. left. by split_and!; [..|apply Hw].
  - right. right. exists t, c. by split_and!; [..|apply Hw].
Qed.

Lemma side_b_step b e v w z :
  rests pa e.1 e.2 v → byte_chans w = byte_chans v → side_b b e w →
  listening (node_transport alice) addr_a [] w → join_step (b, w) z →
  listening (node_transport alice) addr_a [] z.2 ∧
  ((side_b z.1 e z.2 ∧ chores_b z.1 < chores_b b ∧ byte_chans z.2 = byte_chans w) ∨
   ∃ e' v', pstep e.1 e.2 v = Some (e', v') ∧ side_b z.1 e' z.2 ∧ chores_b z.1 = chores_b b ∧
     byte_chans z.2 = byte_chans v').
Proof.
  intros [HF HR] Ev (h & Ht & Hn) Hl Hs. destruct b as [n call ts]. cbn [j_node j_call j_tasks] in *. subst call.
  destruct new_b as [Hc Hlo].
  inversion Hs as [? ? ? E|? ? ? E|? ? ? E|? ? ? E|? ? ? E|k ? ? ? E|k ? ? ? E|i ? ? n' w' Hst]; subst; clear Hs.
  - done.
  - done.
  - done.
  - split; [done|]. left. destruct Hn as [(-> & -> & -> & Hb)|[(-> & -> & Hb)|(t & c & -> & -> & -> & Hb)]];
      apply worker_lock_chores in E as [-> ->];
      (split_and!; [exists true; split; [done|]|unfold chores_b, lock_left; cbn; lia|done]);
      [by left|by right; left|right; right; by exists t, c].
  - destruct Hn as [(-> & -> & -> & Hb)|[(-> & -> & Hb)|(t & c & -> & -> & -> & Hb)]].
    + destruct (bob_accepts h w Hb Hl) as [Ea (w' & Em & Hby & Hb' & Hl')]. rewrite Ea in E.
      destruct h; [|done]. rewrite Em in E. injection E as <-. split; [done|]. left.
      split_and!; [exists false; split; [done|by right; left]|unfold chores_b, lock_left; cbn; rewrite Hc; lia|done].
    + exfalso. revert E. unfold worker_accept. cbn. destruct h; [|done]. cbn. run_io.
      by rewrite (mock_accept_waits _ _ _ Hb).
    + exfalso. revert E. unfold worker_accept. cbn. destruct h; [|done]. cbn. run_io.
      by rewrite (mock_accept_waits _ _ _ Hb).
  - destruct Hn as [(-> & -> & _)|[(-> & -> & Hb)|(t & c & _ & _ & -> & _)]]; [done| |done].
    destruct k as [|k]; [|done]. destruct e as [p c]. cbn [fst snd] in *.
    revert E. unfold task_shake. cbn [j_tasks lookup list_lookup j_node j_call]. run_io.
    pose proof (mock_pstep_bytes p c w v Ev) as Hby.
    destruct (pstep p c w) as [[[p1 c1] w1]|] eqn:Ep; [|done]. intros [= <-].
    destruct (pstep p c v) as [[[p2 c2] v2]|]; [|done]. destruct Hby as (-> & -> & Hby).
    split; [by eapply pstep_kept; [apply listening_kept| |exact Ep]|]. right.
    exists (p2, c2), v2. split_and!; try done. exists h. split; [done|]. right. left.
    split_and!; [done|done|]. by eapply pstep_kept; [apply listening_kept| |exact Ep].
  - destruct Hn as [(-> & -> & _)|[(-> & -> & Hb)|(t & c & _ & _ & -> & _)]]; [done| |done].
    destruct k as [|k]; [|done]. destruct e as [p c]. cbn [fst snd] in *.
    revert E. unfold task_return. cbn [j_tasks lookup list_lookup j_node j_call].
    destruct p as [r| | |]; cbn [outcome]; [|done..].
    destruct (HR r eq_refl) as [[t ->] _]. intros [= <-]. cbn [fst snd]. split; [done|]. left.
    split_and!; [|unfold chores_b, lock_left; cbn; rewrite Hc; cbn; lia|done].
    exists h. split; [done|]. right. right. exists t, c. by split_and!.
  - exfalso. cbn [j_node] in Hst.
    destruct Hn as [(-> & _)|[(-> & _)|(t & c & -> & -> & _)]];
      [eapply no_loop_stuck; [|exact Hst]; cbn; by rewrite Hlo..|].
    destruct (HR _ eq_refl) as [_ Hrecv]. cbn [fst snd] in Hrecv. destruct (decide (i = 0)) as [->|Hi].
    + eapply (idle_loop_stuck (TR := mock_transport) 0 pa c t); [| | |exact Hst].
      * pose proof (end_at_add_session (TR := mock_transport) pa t c bob) as H. rewrite Hc in H. exact H.
      * apply held_iff. exists pa. cbn. rewrite Hc. apply lookup_insert_eq.
      * by eapply mock_recv_bytes.
    + eapply no_loop_stuck; [|exact Hst]. cbn. rewrite Hc. by rewrite lookup_insert_ne, Hlo.
Qed.

(** The two nodes follow the two programs. *)
Definition follows (s : MockMeeting) (e : ends (NoiseTransport * PeerId) (NoiseTransport * PeerId)) : Prop :=
  byte_chans s.2 = byte_chans (shared e) ∧ side_a s.1.1 (end_a e) ∧ side_b s.1.2 (end_b e) s.2 ∧
  listening (node_transport alice) addr_a [] s.2.

Definition chores (s : MockMeeting) : nat := chores_a s.1.1 + chores_b s.1.2.

Lemma follows_step s s' e :
  at_rest pa pb e → follows s e → meet_step s s' →
  (follows s' e ∧ chores s' < chores s) ∨ ∃ e', joint_step e e' ∧ follows s' e'.
Proof.
  intros [Ra Rb] (Ev & Ha & Hb & Hl) Hs. destruct e as [[pr c] [qr d] v]. cbn [end_a end_b shared fst snd] in *.
  inversion Hs as [a b w a' w' Hst|a b w b' w' Hst]; subst; clear Hs; cbn [fst snd] in *.
  - destruct (side_a_step _ (pr, c) _ _ _ Ra Ev Ha Hl Hst) as [(Ha' & Hc & Hw)|([p' c'] & v' & Ep & Ha' & Hc & Hby & Ep')].
    + cbn [fst snd] in *. subst w'. left. split; [done|]. unfold chores. cbn [fst snd]. lia.
    + right. exists (mkEnds (p', c') (qr, d) v'). split; [by apply joint_a|]. split_and!; try done.
      * eapply side_b_world; [|exact Hb]. intros q Hq. by eapply pstep_kept; [apply listening_kept| |exact Ep'].
      * by eapply pstep_kept; [apply listening_kept| |exact Ep'].
  - destruct (side_b_step _ (qr, d) _ _ _ Rb Ev Hb Hl Hst) as [Hl' [(Hb' & Hc & Hw)|([p' c'] & v' & Ep & Hb' & Hc & Hby)]].
    + cbn [fst snd] in *. left. split; [split_and!; try done; cbn; congruence|]. unfold chores. cbn [fst snd]. lia.
    + right. exists (mkEnds (pr, c) (p', c') v'). split; [by apply joint_b|]. by split_and!.
Qed.

(** Bob's worker can always go on while the connection waits for it. *)
Lemma bob_worker_moves h w :
  listening (node_transport bob) addr_b [cb0] w → listening (node_transport alice) addr_a [] w →
  ∃ z, join_step (mkJoiner (locked h bob) NoCall [], w) z.
Proof.
  intros Hb Hl. destruct h.
  - destruct (bob_accepts true w Hb Hl) as [Ea (w' & Em & _)]. rewrite Em in Ea. eexists. by apply js_accept.
  - destruct run_b as [b Hr]. eexists. apply js_lock. unfold worker_lock, accept_lock. cbn. by rewrite Hr.
Qed.

Lemma follows_progress s e e' :
  at_rest pa pb e → follows s e → joint_step e e' → ∃ s', meet_step s s'.
Proof.
  intros _ (Ev & Ha & Hb & Hl) Hj. destruct s as [[a b] w]. cbn [fst snd] in *.
  destruct Hj as [p c [q d] v p' c' v' Ep|[q d] p c v p' c' v' Ep]; cbn [end_a end_b shared] in *.
  - destruct Ha as (h & Ht & [[Hn Hc]|(t & c1 & [= -> ->] & _)]); [|done].
    pose proof (mock_pstep_bytes p c w v Ev) as Hby. rewrite Ep in Hby.
    destruct (pstep p c w) as [[[p1 c2] w1]|] eqn:E1; [|done]. eexists. apply meet_a, js_shake.
    unfold call_shake. rewrite Hc. run_io. by rewrite E1.
  - destruct Hb as (h & Hc & [(Hn & Ht & _ & Hb)|[(Hn & Ht & Hb)|(t & c1 & [= -> ->] & _)]]); [| |done].
    + destruct b as [nb call ts]. cbn in *. subst. destruct (bob_worker_moves h w Hb Hl) as [[b' w'] Hs].
      eexists. by apply meet_b.
    + pose proof (mock_pstep_bytes p c w v Ev) as Hby. rewrite Ep in Hby.
      destruct (pstep p c w) as [[[p1 c2] w1]|] eqn:E1; [|done]. eexists. apply meet_b, (js_task 0).
      unfold task_shake. rewrite Ht. cbn [lookup list_lookup]. run_io. by rewrite E1.
Qed.

(** Both have entered the session, with nothing on the way. *)
Definition met (s : MockMeeting) : Prop :=
  ∃ h h' ta tb ca cb,
    s.1.1 = mkJoiner (locked h (add_session pb ta ca alice)) (Returned (Ok pb)) [] ∧
    s.1.2 = mkJoiner (locked h' (add_session pa tb cb bob)) NoCall [] ∧
    mock_linked ca cb [] [] s.2 ∧ transports_in_step ta tb ∧
    listening (node_transport alice) addr_a [] s.2 ∧ listening (node_transport bob) addr_b [] s.2.

Lemma agreed_meets ka kb s e :
  at_rest pa pb e → agreed (C := mock_connection) ka kb pa pb e → follows s e → inevitably meet_step met s.
Proof.
  intros Hrest (ta & tb & ca & cb & v & -> & Hl & Hst & _) Hf.
  eapply (inevitably_measure _ _ (λ k s, follows s _ ∧ chores s = k)); [| |by split].
  - clear s Hf. intros k s [(Ev & Ha & Hb & Hla) _]. destruct s as [[a b] w]. cbn [fst snd end_a end_b shared] in *.
    destruct Ha as (h & Hta & [[Hna Hca]|(t1 & c1 & [= <- <-] & Hna & Hca)]).
    { right. eexists. apply meet_a, js_return. unfold call_return. rewrite Hca. reflexivity. }
    destruct Hb as (h' & Hcb & [(Hnb & Htb & _ & Hlb)|[(Hnb & Htb & Hlb)|(t2 & c2 & [= <- <-] & Hnb & Htb & Hlb)]]).
    + right. destruct b as [nb call ts]. cbn in *. subst. destruct (bob_worker_moves h' w Hlb Hla) as [[b' w'] Hs].
      eexists. by apply meet_b.
    + right. eexists. apply meet_b, (js_enter 0). unfold task_return. rewrite Htb. reflexivity.
    + left. destruct a as [na calla tsa], b as [nb callb tsb]. cbn in *. subst.
      exists h, h', ta, tb, ca, cb. split_and!; try done. destruct Hl as (?&?&?&?&?&?&?).
      unfold mock_linked. cbn [snd]. rewrite Ev. by split_and!.
  - intros k s0 s1 [Hf0 <-] Hs. destruct (follows_step _ _ _ Hrest Hf0 Hs) as [[Hf1 Hc]|(e' & Hj & _)];
      [by exists (chores s1)|]. inversion Hj as [? ? ? ? ? ? ? Ep|? ? ? ? ? ? ? Ep]; subst; discriminate Ep.
Qed.

(** From the dial on, however everything is scheduled, the two nodes meet. *)
Lemma dialled_meets ka kb i r ca w h h' :
  (∀ id bs, serialize (mkPayload CURRENT id) = inr bs → (Z.of_nat (length bs) ≤ 65439)%Z) →
  xx ka kb 0 i r → hb = mkHandshake r Responder → mock_linked ca cb0 [] [] w →
  listening (node_transport alice) addr_a [] w → listening (node_transport bob) addr_b [cb0] w →
  inevitably meet_step met
    (mkJoiner (locked h alice) (Shaking (perform_handshake 2 (mkHandshake i Initiator) pa, ca)) [],
     mkJoiner (locked h' bob) NoCall [], w).
Proof.
  intros Hsmall Hxx Ehb Hl Hla Hlb.
  eapply (inevitably_follows follows chores meet_step joint_step (at_rest pa pb) (agreed (C := mock_connection) ka kb pa pb));
    [intros s s' e; apply follows_step|intros s e e'; apply follows_progress|intros s e; apply agreed_meets|
     apply (handshake_exchange_in (C := mock_connection) Hsmall ka kb i r pa pb 0 ca cb0 w); [done|done|exact Hl]|].
  split_and!; [done| | |done]; cbn [fst snd end_a end_b].
  - exists h. split; [done|]. by left.
  - exists h'. split; [done|]. left. by rewrite Ehb.
Qed.

(** *** Before the dial *)

(** Alice's call waits for her transport's mutex; the workers have taken theirs, or not. *)
Definition undialled (h h' : bool) (w : MockWorld) : MockMeeting :=
  (mkJoiner (locked h alice) (Dialling addr_b) [], mkJoiner (locked h' bob) NoCall [], w).

Lemma undialled_step h h' w s :
  listening (node_transport alice) addr_a [] w → listening (node_transport bob) addr_b [] w →
  meet_step (undialled h h' w) s →
  (∃ k k', s = undialled k k' w ∧ (h = true → k = true)) ∨
  h = false ∧ ∃ a' w', call_dial (mkJoiner (locked false alice) (Dialling addr_b) []) w = Some (a', w') ∧
    s = (a', mkJoiner (locked h' bob) NoCall [], w').
Proof.
  intros Hla Hlb Hs. destruct new_a as [_ La], new_b as [_ Lb].
  inversion Hs as [? ? ? a' w' Hst|? ? ? b' w' Hst]; subst; clear Hs;
    inversion Hst as [? ? ? E|? ? ? E|? ? ? E|? ? ? E|? ? ? E|k ? ? ? E|k ? ? ? E|k ? ? n' w1 Hses]; subst; clear Hst; try done.
  - right. destruct h; [done|]. split; [done|]. by exists a', w'.
  - left. apply worker_lock_chores in E as [-> ->]. by exists true, h'.
  - exfalso. revert E. unfold worker_accept. cbn. destruct h; [|done]. cbn. run_io.
    by rewrite (mock_accept_waits _ _ _ Hla).
  - exfalso. eapply no_loop_stuck; [|exact Hses]. cbn. by rewrite La.
  - left. apply worker_lock_chores in E as [-> ->]. by exists h, true.
  - exfalso. revert E. unfold worker_accept. cbn. destruct h'; [|done]. cbn. run_io.
    by rewrite (mock_accept_waits _ _ _ Hlb).
  - exfalso. eapply no_loop_stuck; [|exact Hses]. cbn. by rewrite Lb.
Qed.

(** As long as the call waits, nothing else has happened. *)
Lemma undialled_reachable w s :
  listening (node_transport alice) addr_a [] w → listening (node_transport bob) addr_b [] w →
  rtc meet_step (undialled false false w) s → j_call s.1.1 = Dialling addr_b → ∃ h h', s = undialled h h' w.
Proof.
  intros Hla Hlb Hr. cut ((∃ h h', s = undialled h h' w) ∨ ∀ addr, j_call s.1.1 ≠ Dialling addr).
  { intros [?|Hn] E; [done|]. by apply Hn in E. }
  revert s Hr. apply rtc_ind_r; [left; by eexists _, _|]. intros s s' _ Hs IH.
  destruct IH as [(h & h' & ->)|Hn].
  - destruct (undialled_step _ _ _ _ Hla Hlb Hs) as [(k & k' & -> & _)|(_ & a' & w' & E & ->)]; [left; by eexists _, _|].
    right. intros addr. cbn [fst]. revert E. cbn. run_io.
    destruct (mock_connect addr_b _ w) as [[[r tr] w1]|]; [|done].
    destruct r as [c|e|]; [|by intros [= <- _]..]. unfold begin_shake.
    destruct (with_keypair Initiator _); cbn; by intros [= <- _].
  - right. destruct Hs as [a b w1 a' w' Hst|]; [|done]. cbn [fst] in *.
    inversion Hst as [? ? ? E|? ? ? E|? ? ? E|? ? ? E|? ? ? E|k ? ? ? E|k ? ? ? E|k ? ? n' w2 Hses]; subst; try done;
      destruct a as [n call ts]; cbn [j_call] in *.
    + by destruct call; [done|edestruct Hn|done..].
    + revert E. unfold call_shake. cbn. destruct call as [| |[p c]|]; try done. run_io.
      destruct (pstep p c w1) as [[[]]|]; [|done]. by intros [= <- _].
    + revert E. unfold call_return. cbn. destruct call as [| |[p c]|]; try done.
      destruct (outcome p) as [[[]| |]|]; try done; by intros [= <- _].
    + revert E. unfold worker_lock. cbn. destruct (accept_lock n); [|done]. by intros [= <-].
    + revert E. unfold worker_accept. destruct (negb _); [done|]. run_io.
      destruct (transport_accept _ w1) as [[[r tr] w2]|]; [|done].
      destruct r as [c|e|]; [|by intros [= <- _]..].
      destruct (begin_shake _ _ _ w2) as [[]|]; [|done]. by intros [= <- _].
    + revert E. unfold task_shake. cbn [j_tasks]. destruct (ts !! k) as [[p c]|]; [|done]. run_io.
      destruct (pstep p c w1) as [[[]]|]; [|done]. by intros [= <- _].
    + revert E. unfold task_return. cbn [j_tasks]. destruct (ts !! k) as [[p c]|]; [|done].
      destruct (outcome p) as [[[]| |]|]; try done; by intros [= <- _].
Qed.

(** Once Alice's own worker has the mutex, her call waits for ever. *)
Lemma undialled_waits h' w s :
  listening (node_transport alice) addr_a [] w → listening (node_transport bob) addr_b [] w →
  rtc meet_step (undialled true h' w) s → ∃ k', s = undialled true k' w.
Proof.
  intros Hla Hlb Hr. revert s Hr. apply rtc_ind_r; [by eexists|]. intros s s' _ Hs [k' ->].
  destruct (undialled_step _ _ _ _ Hla Hlb Hs) as [(k & k1 & -> & Hk)|[? _]]; [|done].
  exists k1. by rewrite Hk.
Qed.

End shaking.

(** *** With the session in place *)

(** A node that neither dials nor is dialled, with one session. *)
Definition settled_one (i : nat) (addr : SocketAddr) (j : MockJoiner) (w : MockWorld) : Prop :=
  match j_call j with NoCall | Returned _ => True | _ => False end ∧ j_tasks j = [] ∧
  listening (node_transport (j_node j)) addr [] w ∧
  ∀ k, k ≠ i → session_loops (j_node j) !! k = None.

Lemma session_step_transport i (n n' : MockMesh) w w' :
  session_step i (n, w) (n', w') → node_transport n' = node_transport n.
Proof.
  intros Hs. inversion Hs as [? ? ? E|? ? ? E|? ? ? ? E|? ? ? E]; subst; clear Hs; revert E.
  - unfold session_send, after_send, end_loop, drop_loop. run_io. repeat case_match; intros; by simplify_eq.
  - unfold session_outgoing, end_loop, drop_loop. run_io. repeat case_match; intros; by simplify_eq.
  - unfold session_incoming, end_loop, drop_loop. run_io. repeat case_match; intros; by simplify_eq.
  - unfold session_shutdown, end_loop, drop_loop. run_io. repeat case_match; intros; by simplify_eq.
Qed.

(** Its worker takes the mutex, or its loop runs. *)
Lemma settled_step i addr j w j' w' h t (n : MockMesh) :
  settled_one i addr j w → j_node j = set_accept h t n → join_step (j, w) (j', w') →
  settled_one i addr j' w' ∧ j_call j' = j_call j ∧
  ((∃ h' t', j_node j' = set_accept h' t' n) ∧ w' = w ∧ lock_left (j_node j') < lock_left (j_node j) ∨
   ∃ n', j_node j' = set_accept h t n' ∧ session_step i (n, w) (n', w') ∧
     lock_left (j_node j') = lock_left (j_node j)).
Proof.
  destruct j as [n0 call ts]. intros (Hc & Ht & Hl & Hk) En Hs. cbn [j_node j_call j_tasks] in *. subst n0 ts.
  inversion Hs as [? ? ? E|? ? ? E|? ? ? E|? ? ? E|? ? ? E|k ? ? ? E|k ? ? ? E|k ? ? n' w1 Hses]; subst; clear Hs.
  - by destruct call.
  - by destruct call as [| |[]|].
  - by destruct call as [| |[]|].
  - revert E. unfold worker_lock, accept_lock. cbn. destruct t; [done| |done]. destruct h; [done|].
    intros [= <-]. split_and!; [by split_and!|done|]. left. split_and!; [by eexists true, _|done|].
    unfold lock_left. cbn. lia.
  - exfalso. revert E. unfold worker_accept. cbn. destruct h; [|done]. cbn. run_io.
    cbn in Hl. by rewrite (mock_accept_waits _ _ _ Hl).
  - done.
  - done.
  - cbn [j_node j_call j_tasks] in *. destruct (decide (k = i)) as [->|Hi].
    2: { exfalso. by eapply no_loop_stuck; [apply (Hk k)|]. }
    apply session_step_accept in Hses as (n1 & w2 & [= -> ->] & Hses).
    split_and!; [|done|right; by exists n1]. split_and!; [done|done| |].
    + cbn [j_node]. pose proof (session_step_transport _ _ _ _ _ Hses) as Et. cbn in *. rewrite Et.
      by eapply session_step_kept; [apply listening_kept| |exact Hses].
    + intros k1 Hk1. cbn. destruct (session_step_beside _ _ _ _ _ Hses) as [Hb _].
      destruct (Hb k1 Hk1) as [_ ->]. by apply Hk.
Qed.

Definition settled (i j : nat) (addr_a addr_b : SocketAddr) (s : MockMeeting) : Prop :=
  settled_one i addr_a s.1.1 s.2 ∧ settled_one j addr_b s.1.2 s.2.

Definition nodes_of (s : MockMeeting) : MockMesh * MockMesh * MockWorld :=
  (j_node s.1.1, j_node s.1.2, s.2).

Lemma settled_one_world i addr j w w' :
  (∀ t a q, listening t a q w → listening t a q w') → settled_one i addr j w → settled_one i addr j w'.
Proof. intros Hw (?&?&?&?). split_and!; try done. by apply Hw. Qed.

(** Whatever the session loops of settled nodes are bound to reach, they reach also when the
    workers run. *)
Lemma settled_inevitably i j addr_a addr_b Q s :
  settled i j addr_a addr_b s →
  (∀ h t h' t' na nb w, Q (na, nb, w) → Q (set_accept h t na, set_accept h' t' nb, w)) →
  inevitably (loops_step i j) Q (nodes_of s) →
  inevitably meet_step (λ s', settled i j addr_a addr_b s' ∧ Q (nodes_of s')) s.
Proof.
  intros Hs HQ Hi%inevitably_in_any.
  set (R := λ (s : MockMeeting) (z : MockMesh * MockMesh * MockWorld), settled i j addr_a addr_b s ∧ s.2 = z.2 ∧
    ∃ h t h' t', j_node s.1.1 = set_accept h t z.1.1 ∧ j_node s.1.2 = set_accept h' t' z.1.2).
  eapply (inevitably_follows R (λ s, lock_left (j_node s.1.1) + lock_left (j_node s.1.2)) _ (loops_step i j));
    [..|exact Hi|].
  - intros [[a b] w] s' [[na nb] w0] _ ([Sa Sb] & Ew & h & t & h' & t' & Ea & Eb) Hst.
    cbn [fst snd] in *. subst w0. inversion Hst as [? ? ? a' w' H|? ? ? b' w' H]; subst; clear Hst; cbn [fst snd].
    + destruct (settled_step _ _ _ _ _ _ _ _ _ Sa Ea H) as (Sa' & _ & [((h1 & t1 & E) & -> & Hlt)|(n' & E & Hses & Hlt)]).
      * left. split; [|lia]. split_and!; [done..|]. by exists h1, t1, h', t'.
      * right. exists (n', nb, w'). split; [by apply loops_a|]. split_and!; [|done|by exists h, t, h', t'].
        split; [done|]. eapply settled_one_world; [|exact Sb]. intros t0 a0 q Hq.
        by eapply session_step_kept; [apply listening_kept| |exact Hses].
    + destruct (settled_step _ _ _ _ _ _ _ _ _ Sb Eb H) as (Sb' & _ & [((h1 & t1 & E) & -> & Hlt)|(n' & E & Hses & Hlt)]).
      * left. split; [|lia]. split_and!; [done..|]. by exists h, t, h1, t1.
      * right. exists (na, n', w'). split; [by apply loops_b|]. split_and!; [|done|by exists h, t, h', t'].
        split; [|done]. eapply settled_one_world; [|exact Sa]. intros t0 a0 q Hq.
        by eapply session_step_kept; [apply listening_kept| |exact Hses].
  - intros [[a b] w] z z' _ (_ & Ew & h & t & h' & t' & Ea & Eb) Hst.
    inversion Hst as [na nb w0 na' w' H|na nb w0 nb' w' H]; subst; cbn [fst snd] in *; subst w0.
    + eexists. apply meet_a, (js_session i). rewrite Ea. by apply session_step_accepts.
    + eexists. apply meet_b, (js_session j). rewrite Eb. by apply session_step_accepts.
  - intros [[a b] w] [[na nb] w0] _ Hz (S & Ew & h & t & h' & t' & Ea & Eb). cbn [fst snd] in *. subst w0.
    apply inev_here. split; [done|]. unfold nodes_of. cbn [fst snd]. rewrite Ea, Eb. by apply HQ.
  - split_and!; [done..|]. destruct s as [[[na ca ta] [nb cb tb]] w].
    exists (transport_held na), (accept_task na), (transport_held nb), (accept_task nb). by destruct na, nb.
Qed.

End mock_meeting.
