(* ===== verification/Cli.v ===== *)
(** * omnimesh-node: the command line ([node/src/main.rs])

    The commands, on a file system (that of Keystore) and with the lines they print; [run]
    ends in the node of Node, over QUIC.  The log is set up by
    Telemetry; parsing the arguments ([clap]) is not modelled.  The clock, the random bytes and the failures of the
    file system are inputs. *)

From Stdlib Require Import Ascii.
From S2P Require Import Prelude Text Float64 Error Types Metrics Graph Router Transport Quic Kdf Aead.
From S2P Require Import Identity Keystore Services Noise Handshake Wire Config Telemetry Discovery Node.

(** ** Paths *)

(** The text after the last [c], and the text before it when there is one. *)
Fixpoint split_last (c : Ascii.ascii) (s : string) : option string * string :=
  match s with
  | String.EmptyString => (None, String.EmptyString)
  | String.String a s' =>
      match split_last c s' with
      | (Some pre, post) => (Some (String.String a pre), post)
      | (None, post) =>
          if decide (a = c) then (Some String.EmptyString, post)
          else (None, String.String a post)
      end
  end.

Definition path_display (p : PathBuf) : string := String.concat "/" p.

(** A [PathBuf] as [parent], [file_stem] and [extension] see it; a name that starts with
    its only dot has no extension.  (Paths without [..], [.] or repeated slashes.) *)
Definition path_of (p : PathBuf) : Path :=
  let '(parent, name) := split_last "/"%char (path_display p) in
  let parent := match parent with
                | Some String.EmptyString => Some "/"%string
                | Some parent => Some parent
                | None => Some String.EmptyString
                end in
  match split_last "."%char name with
  | (Some String.EmptyString, _) | (None, _) => mkPath parent name None
  | (Some stem, ext) => mkPath parent stem (Some ext)
  end.

Example path_of_key :
  path_of ["/home/me"; ".local"; "share"; "omnimesh"; "identity.key"]%string =
    mkPath (Some "/home/me/.local/share/omnimesh") "identity" (Some "key")%string.
Proof. reflexivity. Qed.

Example path_of_root : path_of ["/identity.key"%string] = mkPath (Some "/") "identity" (Some "key")%string.
Proof. reflexivity. Qed.

Example path_of_config : path_of ["config.toml"%string] = mkPath (Some "") "config" (Some "toml")%string.
Proof. reflexivity. Qed.

(** ** Commands *)

Inductive IdentityAction := ActionShow | ActionGenerate.

Inductive Commands := Init | IdentityCommand (action : IdentityAction) | Run.

Record Cli := mkCli { cli_config : PathBuf; cli_command : option Commands }.

(** [anyhow::Error]: an error of the library, or of [std::io]. *)
Inductive CliError := CliOmni (e : OmniMeshError) | CliIo (msg : string).

(** The [?] operator. *)
Definition anyhow {A} (r : Result A) : result CliError A :=
  match r with Ok a => Ok a | Err e => Err (CliOmni e) | Panic => Panic end.

(** What one command draws: a key, and the salt, nonce and date of a key file. *)
Record Draws := mkDraws {
  d_seed : vec byte 32;
  d_salt : vec byte 32;
  d_nonce : vec byte 12;
  d_created_at : string;
}.

(** The failures one command may meet. *)
Record CliFaults := mkCliFaults {
  data_dir_fault : option string;
  store_faults : Faults;
  config_faults : Faults;
}.

(** ["config.toml"] *)
Definition config_toml_path : Path := path_of ["config.toml"%string].

(** [impl RpcHandler for DefaultRpcHandler] *)
Definition default_handle_request (from : PeerId) (method : string) (request : list byte)
    : Result (list byte) := Ok request.

Section cli.
Context `{K : Hkdf, CI : Cipher, D : Ed25519, J : KeyJson, TM : Toml, T : TextCodecs}.

(** [Config::load(Some(path)).unwrap_or_default()] *)
Definition load_config (E : Surroundings) (path : PathBuf) (fs : files) : Result Config :=
  let file := match fs !! path_of path with
              | Some bytes =>
                  Some (if utf8_valid bytes then inr (String.string_of_list_byte bytes)
                        else inl "stream did not contain valid UTF-8"%string)
              | None => None
              end in
  match config_load E (Some (path_display path, file)) with
  | Err _ => Config_default E
  | r => r
  end.

Definition key_store (config : Config) : FileKeyStore :=
  mkKeyStore (path_of (ic_key_path (cfg_identity config))).

Definition cmd_init (d : Draws) (f : CliFaults) (config : Config) (fs : files)
    : result CliError unit * files * list string :=
  match data_dir_fault f with
  | Some e => (Err (CliIo e), fs, [])
  | None =>
      let kp := kp_generate (d_seed d) in
      let peer_id := kp_to_peer_id kp in
      let key_path := path_display (ic_key_path (cfg_identity config)) in
      match from_peer_id peer_id with
      | Ok vip =>
          if ks_exists (key_store config) fs then
            (Ok tt, fs, ["⚠  Identity already exists at " +:+ key_path;
                         "   PeerId: " +:+ to_hex peer_id])
          else
            let '(r, fs) := ks_store (d_salt d) (d_nonce d) (d_created_at d) (store_faults f)
                              (key_store config) kp [] fs in
            match r with
            | Ok _ =>
                let out := ["✓  Node initialized successfully!";
                            "   PeerId:     " +:+ to_hex peer_id;
                            "   Virtual IP: " +:+ vip_display vip;
                            "   Key file:   " +:+ key_path;
                            "   Data dir:   " +:+ path_display (nc_data_dir (cfg_node config))]%string in
                match to_toml config with
                | Ok toml =>
                    let '(r, fs) := fs_write (config_faults f) config_toml_path
                                      (String.list_byte_of_string toml) fs in
                    match r with
                    | inr _ => (Ok tt, fs, out ++ ["   Config:     config.toml"%string])
                    | inl e => (Err (CliIo e), fs, out)
                    end
                | Err e => (Err (CliOmni e), fs, out)
                | Panic => (Panic, fs, out)
                end
            | Err e => (Err (CliOmni e), fs, [])
            | Panic => (Panic, fs, [])
            end
      | Err e => (Err (CliOmni e), fs, [])
      | Panic => (Panic, fs, [])
      end
  end.

Definition no_identity : string := "No identity found. Run `omnimesh init` first.".

(** The key of an existing identity, as [show] and [run] load it. *)
Definition load_identity (config : Config) (fs : files)
    : result CliError (option (Keypair * PeerId * VirtualIp * string)) :=
  if ks_exists (key_store config) fs then
    anyhow (kp ← ks_load (key_store config) [] fs;
            let peer_id := kp_to_peer_id kp in
            vip ← from_peer_id peer_id;
            s ← short peer_id;
            Ok (Some (kp, peer_id, vip, s)))
  else Ok None.

Definition cmd_identity_show (config : Config) (fs : files) : result CliError unit * list string :=
  match load_identity config fs with
  | Ok None => (Ok tt, [no_identity])
  | Ok (Some (kp, peer_id, vip, s)) =>
      (Ok tt, ["Node Identity:";
               "  PeerId:      " +:+ to_hex peer_id;
               "  Short ID:    " +:+ s;
               "  Virtual IP:  " +:+ vip_display vip;
               "  Public Key:  " +:+ pk_to_hex (kp_public_key kp);
               "  Key file:    " +:+ path_display (ic_key_path (cfg_identity config))]%string)
  | Err e => (Err e, [])
  | Panic => (Panic, [])
  end.

Definition cmd_identity_generate (d : Draws) (f : CliFaults) (config : Config) (fs : files)
    : result CliError unit * files * list string :=
  let kp := kp_generate (d_seed d) in
  let peer_id := kp_to_peer_id kp in
  match from_peer_id peer_id with
  | Ok vip =>
      let '(r, fs) := ks_store (d_salt d) (d_nonce d) (d_created_at d) (store_faults f)
                        (key_store config) kp [] fs in
      match r with
      | Ok _ => (Ok tt, fs, ["✓  New identity generated!";
                             "   PeerId:     " +:+ to_hex peer_id;
                             "   Virtual IP: " +:+ vip_display vip]%string)
      | Err e => (Err (CliOmni e), fs, [])
      | Panic => (Panic, fs, [])
      end
  | Err e => (Err (CliOmni e), fs, [])
  | Panic => (Panic, fs, [])
  end.

(** ** Running *)

Context `{Q : Quinn, SN : Snow, P : Libp2p, SW : !Swarm P,
          BH : Bincode HandshakePayload, BP : Bincode WirePacket, BS : Bincode ServicePayload,
          BU : Bincode LinkStateUpdate, BT : Bincode N}.

(** A node over QUIC, as [run] builds it. *)
Abbreviation QuicMesh := (OmniMesh (TR := quic_transport)).

(** The chat, RPC and publish/subscribe services of [run].  Whether a handler accepts a
    message does not depend on the state of its service, nor on its [MessageSender], which
    serves only the task a request spawns (lemma [default_rpc_outcome]). *)
Context `{BC : Bincode ChatMessage, BR : Bincode RpcMessage, BB : Bincode PubSubMessage, EF : EnvFilters}.

Definition default_services : list (string * (PeerId → list byte → Result unit)) :=
  [("chat"%string, λ from payload, (chat_handle_message from payload).1);
   ("rpc"%string, λ from payload,
      _ ← (rpc_handle_message (S := unit) (MS := dead_sender) default_handle_request
             from payload rpc_new).1; Ok tt);
   ("pubsub"%string, λ from payload, (pubsub_handle_message from payload pubsub_new).1)].

(** [OmniMeshBuilder::new().config(config).keypair(keypair).transport(..).build()] over
    QUIC, and the services registered on the node. *)
Definition start_mesh (E : Surroundings) (random : vec byte 32) (config : Config) (kp : Keypair)
    (services : list (string * (PeerId → list byte → Result unit))) : io net (Result QuicMesh) :=
  io_try (builder_new (TR := quic_transport) E) (λ b,
  r ← build random (builder_transport (TR := quic_transport) quic_new
                      (builder_keypair kp (builder_config config b)));
  io_try r (λ mesh,
  mret (Ok (foldl (λ mesh '(id, service), register_service id service mesh) mesh services)))).

(** Build the node and register the default services. *)
Definition start_node (E : Surroundings) (d : Draws) (config : Config)
    (kp : Keypair) : io net (result CliError QuicMesh) :=
  r ← start_mesh E (d_seed d) config kp default_services; mret (anyhow r).

(** [cmd_run] up to the point where it waits for Ctrl-C. *)
Definition cmd_run (E : Surroundings) (d : Draws) (config : Config)
    (fs : files) : io net (result CliError (option QuicMesh) * list string) :=
  match load_identity config fs with
  | Ok None => mret (Ok None, [no_identity])
  | Ok (Some (kp, peer_id, vip, s)) =>
      r ← start_node E d config kp;
      match r with
      | Ok mesh =>
          mret (Ok (Some mesh),
                ["OmniMesh node running";
                 "  Name:        " +:+ nc_name (cfg_node config);
                 "  PeerId:      " +:+ s;
                 "  Virtual IP:  " +:+ vip_display vip;
                 "  Listening:   " +:+ socket_to_string (tc_listen_addr (cfg_transport config));
                 "";
                 "Press Ctrl+C to stop."]%string)
      | Err e => mret (Err e, [])
      | Panic => mret (Panic, [])
      end
  | Err e => mret (Err e, [])
  | Panic => mret (Panic, [])
  end.

(** The line printed for a chat message. *)
Definition chat_line (from : PeerId) (text : string) : Result string :=
  s ← short from; Ok (String.String "010" ("[" +:+ s +:+ "] Chat: " +:+ text)).

Definition main (E : Surroundings) (d : Draws) (f : CliFaults) (cli : Cli) (fs : files)
    (g : Tracing) : io net (result CliError (option QuicMesh) * files * list string * Tracing) :=
  match load_config E (cli_config cli) fs with
  | Ok config =>
      match init E (tel_log_level (cfg_telemetry config)) (tel_json_logs (cfg_telemetry config)) g with
      | (Ok _, g) =>
          let stop (r : result CliError unit * files * list string) :=
            let '(res, fs, out) := r in
            mret (match res with Ok _ => Ok None | Err e => Err e | Panic => Panic end, fs, out, g) in
          match cli_command cli with
          | Some Init => stop (cmd_init d f config fs)
          | Some (IdentityCommand ActionShow) =>
              let '(res, out) := cmd_identity_show config fs in stop (res, fs, out)
          | Some (IdentityCommand ActionGenerate) => stop (cmd_identity_generate d f config fs)
          | Some Run | None => '(res, out) ← cmd_run E d config fs; mret (res, fs, out, g)
          end
      | (Err e, g) => mret (Err (CliOmni e), fs, [], g)
      | (Panic, g) => mret (Panic, fs, [], g)
      end
  | Err e => mret (Err (CliOmni e), fs, [], g)
  | Panic => mret (Panic, fs, [], g)
  end.

End cli.

(** ** Properties *)

Section cli_facts.
Context `{K : Hkdf, !HkdfLaws K, CI : Cipher, !CipherLaws CI, D : Ed25519, !Ed25519Laws D,
          J : KeyJson, !KeyJsonLaws J, TM : Toml, T : TextCodecs, !TextCodecLaws T}.

(** An RPC message is accepted in every state of the service, or in none. *)
Lemma default_rpc_outcome `{BR : Bincode RpcMessage} {S S' : Type} {MS : MessageSender S}
    {MS' : MessageSender S'} from payload r r' :
  (rpc_handle_message (MS := MS) default_handle_request from payload r).1 ≫= (λ _, Ok tt) =
  (rpc_handle_message (MS := MS') default_handle_request from payload r').1 ≫= (λ _, Ok tt).
Proof.
  unfold rpc_handle_message. by destruct (deserialize payload) as [e|[]].
Qed.

(** The lines of [identity show]. *)
Definition identity_lines (config : Config) (kp : Keypair) (vip : VirtualIp) (s : string)
    : list string :=
  ["Node Identity:";
   "  PeerId:      " +:+ to_hex (kp_to_peer_id kp);
   "  Short ID:    " +:+ s;
   "  Virtual IP:  " +:+ vip_display vip;
   "  Public Key:  " +:+ to_hex (kp_to_peer_id kp);
   "  Key file:    " +:+ path_display (ic_key_path (cfg_identity config))]%string.

(** A key that [load] gives is the identity of every command. *)
Lemma load_identity_key config fs kp :
  ks_exists (key_store config) fs = true → ks_load (key_store config) [] fs = Ok kp →
  ∃ vip s, from_peer_id (kp_to_peer_id kp) = Ok vip ∧ short (kp_to_peer_id kp) = Ok s ∧
    load_identity config fs = Ok (Some (kp, kp_to_peer_id kp, vip, s)).
Proof.
  intros Ex El. destruct (from_peer_id_total (kp_to_peer_id kp)) as [vip Ev].
  destruct (short_ok (kp_to_peer_id kp)) as (s & Es & _). exists vip, s. split_and!; [done..|].
  unfold load_identity. rewrite Ex, El. cbn [mbind result_bind]. rewrite Ev. cbn [mbind result_bind].
  by rewrite Es.
Qed.

(** A successful [init] stored the key it drew, and then wrote [config.toml]. *)
Lemma cmd_init_stored d f config fs fs' out :
  ks_exists (key_store config) fs = false → cmd_init d f config fs = (Ok tt, fs', out) →
  ∃ fs1 toml, ks_store (d_salt d) (d_nonce d) (d_created_at d) (store_faults f) (key_store config)
      (kp_generate (d_seed d)) [] fs = (Ok tt, fs1) ∧
    to_toml config = Ok toml ∧ fs' = <[config_toml_path := String.list_byte_of_string toml]> fs1.
Proof.
  intros Ex. unfold cmd_init. destruct (data_dir_fault f); [done|].
  destruct (from_peer_id_total (kp_to_peer_id (kp_generate (d_seed d)))) as [vip ->]. rewrite Ex.
  destruct (ks_store _ _ _ _ _ _ _ fs) as [[[]|e|] fs1] eqn:Es; [|done..].
  destruct (to_toml config) as [toml|e|] eqn:Et; [|done..].
  unfold fs_write. destruct (write_fault (config_faults f)) as [[e [part|]]|]; [done..|].
  intros [= <- _]. by exists fs1, toml.
Qed.

(** On an existing identity, [init] changes nothing. *)
Lemma cmd_init_exists d f config fs :
  ks_exists (key_store config) fs = true → data_dir_fault f = None →
  cmd_init d f config fs =
    (Ok tt, fs, ["⚠  Identity already exists at " +:+ path_display (ic_key_path (cfg_identity config));
                 "   PeerId: " +:+ to_hex (kp_to_peer_id (kp_generate (d_seed d)))]%string).
Proof.
  intros Ex Hf. unfold cmd_init. rewrite Hf.
  destruct (from_peer_id_total (kp_to_peer_id (kp_generate (d_seed d)))) as [vip ->]. by rewrite Ex.
Qed.

Context `{Q : Quinn, SN : Snow, P : Libp2p, SW : !Swarm P,
          BH : Bincode HandshakePayload, BP : Bincode WirePacket, BS : Bincode ServicePayload,
          BU : Bincode LinkStateUpdate, BT : Bincode N, BC : Bincode ChatMessage,
          BR : Bincode RpcMessage, BB : Bincode PubSubMessage}.

(** C27: The identity [init] makes is the node's from then on.  When [init] succeeds without
    an earlier identity (and the key file is not [config.toml] itself): [identity show]
    prints the peer id, address and public key of the very key [init] drew; [run] starts
    the node with that key; another [init] changes no file; and [config.toml] then holds
    the configuration, so that a later command started without [--config] loads what its
    text parses to, with the environment's overrides. *)
Theorem cli_identity_kept d f config fs fs' out :
  ks_exists (key_store config) fs = false →
  path_of (ic_key_path (cfg_identity config)) ≠ config_toml_path →
  cmd_init d f config fs = (Ok tt, fs', out) →
  let kp := kp_generate (d_seed d) in
  ∃ vip s, from_peer_id (kp_to_peer_id kp) = Ok vip ∧ short (kp_to_peer_id kp) = Ok s ∧
    cmd_identity_show config fs' = (Ok tt, identity_lines config kp vip s) ∧
    (∀ E d' w, ∃ lines, cmd_run E d' config fs' w =
       (r ← start_node E d' config kp;
        mret match r with
             | Ok mesh => (Ok (Some mesh), lines) | Err e => (Err e, []) | Panic => (Panic, [])
             end) w) ∧
    (∀ d' f', data_dir_fault f' = None → (cmd_init d' f' config fs').1 = (Ok tt, fs')) ∧
    (∀ E toml c, to_toml config = Ok toml → toml_from_str toml = inr c →
       utf8_valid (String.list_byte_of_string toml) = true →
       load_config E ["config.toml"%string] fs' = Ok (overridden E c)).
Proof.
  intros Ex Hp Hi kp. destruct (cmd_init_stored _ _ _ _ _ _ Ex Hi) as (fs1 & toml & Hs & Ht & ->).
  destruct (ks_store_sealed _ _ _ _ _ _ _ _ _ Hs) as (json & r & Hf & Hj & Ho).
  set (fs' := <[_ := _]> fs1).
  assert (Hk : fs' !! ks_path (key_store config) = Some json) by (by unfold fs'; rewrite lookup_insert_ne).
  pose proof (ks_exists_lookup _ _ _ Hk) as Ex'.
  destruct (load_identity_key config fs' kp Ex') as (vip & s & Ev & Es & El).
  { by rewrite (ks_load_file _ _ _ _ _ Hk Hj). }
  exists vip, s. split_and!; [done..| | | |].
  - unfold cmd_identity_show. by rewrite El.
  - intros E d' w. unfold cmd_run. rewrite El. eexists. run_io.
    by destruct (start_node E d' config kp w) as [[[m|e|] w']|].
  - intros d' f' Hf'. by rewrite cmd_init_exists.
  - intros E toml' c Ht' Hc Hu. rewrite Ht in Ht'. injection Ht' as <-.
    unfold load_config, fs'. rewrite lookup_insert_eq, Hu, String.string_of_list_byte_of_string.
    unfold config_load, config_from_file. cbn. rewrite Hc. cbn. by rewrite apply_env_overrides_spec.
Qed.

(** A node started with services is well formed and serves them; a later service of the
    same name would replace an earlier one. *)
Lemma register_all_ok (services : list (string * (PeerId → list byte → Result unit)))
    (mesh : OmniMesh (TR := quic_transport)) :
  NoDup services.*1 → node_ok mesh →
  let mesh' := foldl (λ m '(id, service), register_service id service m) mesh services in
  node_ok mesh' ∧ (∀ id service, (id, service) ∈ services → node_services mesh' !! id = Some service).
Proof.
  revert mesh. induction services as [|[id svc] services IH] using rev_ind; intros mesh.
  { intros _ Hm. split; [done|]. by intros ?? ?%not_elem_of_nil. }
  rewrite fmap_app. intros (Hnd & Hx & _)%NoDup_app Hm. destruct (IH mesh Hnd Hm) as [Hok Hs].
  cbn zeta. rewrite foldl_app. cbn [foldl]. split; [by apply register_service_ok|].
  intros i s [Hi|[= -> ->]%list_elem_of_singleton]%elem_of_app.
  - cbn. rewrite lookup_insert_ne; [by apply Hs|]. intros <-.
    apply (Hx id); [|by left]. by apply (list_elem_of_fmap_2 fst) in Hi.
  - cbn. apply lookup_insert_eq.
Qed.

Lemma start_mesh_ok E random config kp services w mesh w' :
  NoDup services.*1 → start_mesh E random config kp services w = Some (Ok mesh, w') →
  node_ok mesh ∧ ∀ id service, (id, service) ∈ services → node_services mesh !! id = Some service.
Proof.
  intros Hnd. unfold start_mesh, io_try. destruct (builder_new E) as [b|e|]; [|done..]. run_io.
  destruct (build _ _ w) as [[[m|e|] w1]|] eqn:Eb; [|done..]. intros [= <- _].
  apply register_all_ok; [done|]. by apply (build_node_ok _ _ _ _ _ Eb).
Qed.

(** A node [run] starts is well formed, and serves the three default services. *)
Lemma start_node_ok E d config kp w mesh w' :
  start_node E d config kp w = Some (Ok mesh, w') →
  node_ok mesh ∧ ∀ id service, (id, service) ∈ default_services →
    node_services mesh !! id = Some service.
Proof.
  unfold start_node. run_io.
  destruct (start_mesh _ _ _ _ _ w) as [[[m|e|] w1]|] eqn:Eb; [|done..]. intros [= <- _].
  revert Eb. apply start_mesh_ok. by apply (bool_decide_unpack _).
Qed.

(** [identity generate] replaces the identity or leaves it as it was. *)
Lemma cmd_generate_atomic d f config fs :
  proper_path (key_store config) →
  let '(r, fs', out) := cmd_identity_generate d f config fs in
  match r with
  | Ok _ => ks_load (key_store config) [] fs' = Ok (kp_generate (d_seed d))
  | Err _ => fs' !! ks_path (key_store config) = fs !! ks_path (key_store config)
  | Panic => False
  end.
Proof.
  intros Hp. unfold cmd_identity_generate.
  destruct (from_peer_id_total (kp_to_peer_id (kp_generate (d_seed d)))) as [vip ->].
  pose proof (ks_store_cases (d_salt d) (d_nonce d) (d_created_at d) (store_faults f)
    (key_store config) (kp_generate (d_seed d)) [] fs) as (r & json & _ & _ & H).
  destruct (ks_store _ _ _ _ _ _ _ fs) as [[[]|e|] fs1] eqn:Es.
  - destruct (ks_store_sealed _ _ _ _ _ _ _ _ _ Es) as (? & r' & Hf & Hj & Ho).
    by rewrite (ks_load_file _ _ _ _ _ Hf Hj).
  - destruct H as [[H _]|[_ H]]; [done|by apply H].
  - by destruct H as [[H _]|[H _]].
Qed.

(** When [config.toml] cannot be written, [init] fails with the identity already stored,
    and no later [init] writes the configuration. *)
Lemma init_not_resumed d f config fs fs' e out d' f' :
  ks_exists (key_store config) fs = false →
  path_of (ic_key_path (cfg_identity config)) ≠ config_toml_path →
  cmd_init d f config fs = (Err (CliIo e), fs', out) →
  data_dir_fault f = None → data_dir_fault f' = None →
  ks_load (key_store config) [] fs' = Ok (kp_generate (d_seed d)) ∧
  (cmd_init d' f' config fs').1 = (Ok tt, fs').
Proof.
  intros Ex Hp Hi Hf Hf'. revert Hi. unfold cmd_init at 1. rewrite Hf.
  destruct (from_peer_id_total (kp_to_peer_id (kp_generate (d_seed d)))) as [vip ->]. rewrite Ex.
  destruct (ks_store _ _ _ _ _ _ _ fs) as [[[]|?|] fs1] eqn:Es; [|done..].
  destruct (ks_store_sealed _ _ _ _ _ _ _ _ _ Es) as (json & r & Hk & Hj & Ho).
  destruct (to_toml config) as [toml|?|]; [|done..].
  destruct (fs_write (config_faults f) config_toml_path _ fs1) as [[e'|[]] fs2] eqn:Ew; [|done].
  intros [= _ <- _]. apply (f_equal snd) in Ew. cbn in Ew. subst fs2.
  match goal with |- context [ks_load _ _ ?m] => set (fs2 := m) end.
  assert (Hk2 : fs2 !! ks_path (key_store config) = Some json)
    by (unfold fs2; by rewrite fs_write_other).
  rewrite (ks_load_file _ _ _ _ _ Hk2 Hj). split; [done|].
  rewrite cmd_init_exists; [done| |done]. by eapply ks_exists_lookup.
Qed.

(** A configuration file that is there but does not parse is silently replaced by the
    defaults, and the environment's overrides are lost with it. *)
Lemma bad_config_ignored E path fs bytes e :
  fs !! path_of path = Some bytes →
  (utf8_valid bytes = true → toml_from_str (String.string_of_list_byte bytes) = inl e) →
  load_config E path fs = Config_default E.
Proof.
  intros Hf Hp. unfold load_config, config_load, config_from_file. rewrite Hf.
  destruct (utf8_valid bytes); cbn; [|done]. by rewrite Hp.
Qed.

End cli_facts.

(** ** Settings for the witness *)

Definition some_config : Config :=
  mkConfig (mkNodeConfig "node" ["data"%string] false 256)
    (mkTransportConfig (mkSocketAddr (IPv4 (vreplicate 4 Byte.x00)) 4433) [] 10000 15)
    (mkIdentityConfig ["data"; "identity.key"]%string false 720)
    (mkTelemetryConfig "info" false false None) (mkStorageConfig ["data"; "state.redb"]%string 512).

(** One configuration, one text. *)
Definition one_toml : Toml := {|
  toml_from_str s := if decide (s = "toml"%string) then inr some_config else inl "bad"%string;
  toml_to_string _ := inr "toml"%string;
|}.

Definition some_draws : Draws :=
  mkDraws (vreplicate 32 Byte.x07) (vreplicate 32 Byte.x01) (vreplicate 12 Byte.x02) "now".

Definition no_cli_faults : CliFaults := mkCliFaults None no_faults no_faults.


#[local] Existing Instance Kdf.toy_hkdf.
#[local] Existing Instance Kdf.toy_hkdf_laws.
#[local] Existing Instance Aead.toy_cipher.
#[local] Existing Instance Aead.toy_cipher_laws.
#[local] Existing Instance Identity.toy_ed25519.
#[local] Existing Instance Identity.toy_ed25519_laws.
#[local] Existing Instance Keystore.toy_json.
#[local] Existing Instance Keystore.toy_json_laws.
#[local] Existing Instance lower_hex.
#[local] Existing Instance lower_hex_laws.
#[local] Existing Instance one_toml.
#[local] Existing Instance toy_quinn.
#[local] Existing Instance toy_snow.
#[local] Existing Instance key_libp2p.
#[local] Existing Instance toy_swarm.
#[local] Existing Instance toy_bincode.
#[local] Existing Instance toy_payload.

Lemma cli_identity_kept_witness :
  ∃ fs out, cmd_init some_draws no_cli_faults some_config ∅ = (Ok tt, fs, out) ∧
  (cmd_identity_show some_config fs).2 !! 1%nat =
    Some ("  PeerId:      " +:+ "0707070707070707070707070707070707070707070707070707070707070707")%string ∧
  load_config toy_surroundings ["config.toml"%string] fs = Ok (overridden toy_surroundings some_config).
Proof.
  destruct (cmd_init some_draws no_cli_faults some_config ∅) as [[r fs] out] eqn:E.
  assert (Hr : r = Ok tt).
  { change r with (r, fs, out).1.1. rewrite <- E. vm_compute. reflexivity. }
  subst r. exists fs, out. split; [reflexivity|].
  destruct (cli_identity_kept some_draws no_cli_faults some_config ∅ fs out)
    as (vip & s & _ & _ & Hs & _ & _ & Hl).
  - reflexivity.
  - discriminate.
  - exact E.
  - split.
    + rewrite Hs. reflexivity.
    + apply (Hl toy_surroundings "toml"%string); reflexivity.
Defined.
