(* ===== verification/Examples.v ===== *)
(** * omnimesh-sdk: the example programs ([sdk/examples/])

    The chat, RPC and publish/subscribe examples: their arguments, how they start a node
    over QUIC, and what they then do with it, cut at the points where they wait for input,
    an answer or Ctrl-C.  A part of a program is a computation that may print, leave the
    program early, or still be waiting ([prog]). *)

From Stdlib Require Import Ascii.
From S2P Require Import Prelude Text Float64 Error Types Metrics Graph Router Transport Mock Quic Kdf Aead.
From S2P Require Import Identity Keystore Services Noise Handshake Wire Cache Config Telemetry Discovery Node.
From S2P Require Import Session Mesh Apps Cli.

(** ** Programs *)

(** What is printed; the last with the [Debug] form of an error after it. *)
Inductive Output := Stdout (s : string) | Stderr (s : string) | StderrDebug (s : string) (e : OmniMeshError).

Definition newline : string := String.String "010" String.EmptyString.

(** [Box<dyn std::error::Error>] *)
Inductive ExampleError := ExampleOmni (e : OmniMeshError) | AddrParseError | ParseIntError | FromUtf8Error.

(** It goes on with a value, [main] returns an error, the process exits, or it panics. *)
Inductive outcome (A : Type) := Goes (a : A) | Fails (e : ExampleError) | Exits (code : Z) | Panics.
Arguments Goes {A}. Arguments Fails {A}. Arguments Exits {A}. Arguments Panics {A}.

Definition prog (S A : Type) : Type := S → option (outcome A * list Output * S).

#[global] Instance prog_ret {S} : MRet (prog S) := λ A a s, Some (Goes a, [], s).
#[global] Instance prog_bind {S} : MBind (prog S) := λ A B f m s,
  match m s with
  | Some (Goes a, out, s) =>
      match f a s with
      | Some (r, out', s) => Some (r, out ++ out', s)
      | None => None
      end
  | Some (Fails e, out, s) => Some (Fails e, out, s)
  | Some (Exits c, out, s) => Some (Exits c, out, s)
  | Some (Panics, out, s) => Some (Panics, out, s)
  | None => None
  end.

Lemma ret_bind {S A B} (a : A) (f : A → prog S B) (s : S) : (mret a ≫= f) s = f a s.
Proof. unfold mbind, prog_bind, mret, prog_ret. by destruct (f a s) as [[[]]|]. Qed.

Definition say {S} (out : list Output) : prog S unit := λ s, Some (Goes tt, out, s).
Definition leave_with {S A} (r : outcome A) : prog S A := λ s, Some (r, [], s).
Definition run {S A} (m : io S A) : prog S A := λ s,
  match m s with Some (a, s) => Some (Goes a, [], s) | None => None end.

(** The [?] operator. *)
Definition try {S A} (r : Result A) : prog S A :=
  match r with
  | Ok a => mret a
  | Err e => leave_with (Fails (ExampleOmni e))
  | Panic => leave_with Panics
  end.

Definition exit1 {S A} (lines : list string) : prog S A :=
  _ ← say (Stderr <$> lines); leave_with (Exits 1).

(** ** Arguments *)

Definition is_flag (arg long short : string) : bool := bool_decide (arg = long ∨ arg = short).

(** An option with a value: [args[i + 1]], when there is one. *)
Definition with_value {S A} (missing : string) (rest : list string)
    (k : string → list string → prog S A) : prog S A :=
  match rest with v :: rest => k v rest | [] => exit1 [missing] end.

Section args.
Context {S : Type} (E : Surroundings).

Definition parse_addr (s : string) : prog S SocketAddr :=
  match parse_socket_addr E s with Some a => mret a | None => leave_with (Fails AddrParseError) end.

Definition parse_port (s : string) : prog S Z :=
  match parse_u16 s with Some p => mret p | None => leave_with (Fails ParseIntError) end.

Record ChatArgs := mkChatArgs { ca_connect : option SocketAddr; ca_port : Z }.

(** The loops over [args[i..]]. *)
Fixpoint chat_args (o : ChatArgs) (args : list string) : prog S ChatArgs :=
  match args with
  | [] => mret o
  | arg :: rest =>
      if is_flag arg "--connect" "-c" then
        with_value "Error: Missing address after --connect" rest (λ v rest,
          a ← parse_addr v; chat_args (mkChatArgs (Some a) (ca_port o)) rest)
      else if is_flag arg "--listen-port" "-p" then
        with_value "Error: Missing port after --listen-port" rest (λ v rest,
          p ← parse_port v; chat_args (mkChatArgs (ca_connect o) p) rest)
      else exit1 ["Unknown argument: " +:+ arg;
                  "Usage: cargo run --example p2p_chat -- [-p PORT] [-c CONNECT_ADDR]"]%string
  end.

Record RpcArgs := mkRpcArgs { ra_connect : option SocketAddr; ra_server : bool; ra_port : Z }.

Fixpoint rpc_args (o : RpcArgs) (args : list string) : prog S RpcArgs :=
  match args with
  | [] => mret o
  | arg :: rest =>
      if is_flag arg "--connect" "-c" then
        with_value "Error: Missing address after --connect" rest (λ v rest,
          a ← parse_addr v; rpc_args (mkRpcArgs (Some a) (ra_server o) (ra_port o)) rest)
      else if is_flag arg "--server" "-s" then
        rpc_args (mkRpcArgs (ra_connect o) true (ra_port o)) rest
      else if is_flag arg "--listen-port" "-p" then
        with_value "Error: Missing port after --listen-port" rest (λ v rest,
          p ← parse_port v; rpc_args (mkRpcArgs (ra_connect o) (ra_server o) p) rest)
      else exit1 ["Unknown argument: " +:+ arg;
                  "Usage: cargo run --example p2p_rpc -- [--server] [-p PORT] [-c CONNECT_ADDR]"]%string
  end.

(** The check after the loop. *)
Definition rpc_check (o : RpcArgs) : prog S unit :=
  if negb (ra_server o) && bool_decide (ra_connect o = None) then
    exit1 ["Error: Must either specify --server or --connect <ADDR>"%string]
  else mret tt.

Record PubSubArgs := mkPubSubArgs {
  pa_connect : option SocketAddr;
  pa_subscriber : bool;
  pa_publish : option string;
  pa_port : Z;
}.

Fixpoint pubsub_args (o : PubSubArgs) (args : list string) : prog S PubSubArgs :=
  match args with
  | [] => mret o
  | arg :: rest =>
      if is_flag arg "--connect" "-c" then
        with_value "Error: Missing address after --connect" rest (λ v rest,
          a ← parse_addr v;
          pubsub_args (mkPubSubArgs (Some a) (pa_subscriber o) (pa_publish o) (pa_port o)) rest)
      else if is_flag arg "--subscribe" "-s" then
        pubsub_args (mkPubSubArgs (pa_connect o) true (pa_publish o) (pa_port o)) rest
      else if is_flag arg "--publish" "-p" then
        with_value "Error: Missing message content after --publish" rest (λ v rest,
          pubsub_args (mkPubSubArgs (pa_connect o) (pa_subscriber o) (Some v) (pa_port o)) rest)
      else if decide (arg = "--listen-port"%string) then
        with_value "Error: Missing port after --listen-port" rest (λ v rest,
          p ← parse_port v;
          pubsub_args (mkPubSubArgs (pa_connect o) (pa_subscriber o) (pa_publish o) p) rest)
      else exit1 ["Unknown argument: " +:+ arg;
                  "Usage: cargo run --example p2p_pubsub -- [--subscribe] [--listen-port PORT] [-c CONNECT_ADDR] [-p MSG]"]%string
  end.

Definition pubsub_check (o : PubSubArgs) : prog S unit :=
  if negb (pa_subscriber o) && bool_decide (pa_publish o = None) then
    exit1 ["Error: Must either specify --subscribe or --publish <MSG>"%string]
  else mret tt.

End args.

(** ** The RPC handler of the example *)

(** [String::from_utf8(request).unwrap_or_default()] *)
Definition from_utf8_or_default (bytes : list byte) : list byte :=
  if utf8_valid bytes then bytes else [].

(** [impl RpcHandler for StringReverseHandler]; the line it prints is left out. *)
Definition reverse_handle_request (from : PeerId) (method : string) (request : list byte)
    : Result (list byte) :=
  if decide (method = "reverse"%string) then
    let input := from_utf8_or_default request in Ok (rev_chars input)
  else Ok (String.list_byte_of_string "Unknown method").

(** ** With a node *)

Section mesh.
Context {W : Type} {C : DynConnection W} {TR : DynTransport C}.
Context `{SN : Snow, D : Ed25519, P : Libp2p, SW : !Swarm P,
          BH : Bincode HandshakePayload, BP : Bincode WirePacket, BS : Bincode ServicePayload,
          BU : Bincode LinkStateUpdate, BT : Bincode N, T : TextCodecs,
          I : !MapIter PeerId nat}.
Context `{BC : Bincode ChatMessage, BR : Bincode RpcMessage, BB : Bincode PubSubMessage}.

(** A method of the node. *)
Definition on_node {A} (f : OmniMesh → io W (A * OmniMesh)) : prog (OmniMesh * W) A := λ '(n, w),
  match f n w with Some ((a, n), w) => Some (Goes a, [], (n, w)) | None => None end.

(** [mesh.shutdown()] *)
Definition mesh_shutdown (n : OmniMesh) : io W (Result unit * OmniMesh) :=
  match shutdown_signal n with Some n => shutdown_transport n | None => mret (Ok tt, n) end.

(** The end of each [main]. *)
Definition example_stop : prog (OmniMesh * W) unit :=
  _ ← say [Stdout "Shutting down mesh node..."];
  r ← on_node mesh_shutdown; try r.

(** Connect and say so; the address and the words before it. *)
Definition connected_line (remote_id : PeerId) : Result string :=
  s ← short remote_id; Ok ("✓ Connected successfully to peer: " +:+ s).

Definition connect_or_fail (what : string) (addr : SocketAddr) : prog (OmniMesh * W) PeerId :=
  _ ← say [Stdout (what +:+ socket_to_string addr +:+ "...")];
  r ← on_node (connect_addr addr);
  remote_id ← try r;
  line ← try (connected_line remote_id);
  _ ← say [Stdout line]; mret remote_id.

(** *** Chat *)

(** [if let Some(addr) = connect_addr]: a failure is only printed. *)
Definition chat_connect (connect : option SocketAddr) : prog (OmniMesh * W) unit :=
  match connect with
  | Some addr =>
      _ ← say [Stdout ("Connecting to " +:+ socket_to_string addr +:+ "...")];
      r ← on_node (connect_addr addr);
      match r with
      | Ok remote_id => line ← try (connected_line remote_id); say [Stdout line]
      | Err e => say [StderrDebug "✗ Failed to connect: " e]
      | Panic => leave_with Panics
      end
  | None => mret tt
  end.

(** One round of the input loop, at the time [now]; [false] when it breaks.  A line that
    is not UTF-8 makes [next_line] fail, which ends the loop too. *)
Definition chat_round (now : Z) (line : string) : prog (OmniMesh * W) bool :=
  if utf8_valid (String.list_byte_of_string line) then
    let trimmed := trim line in
    if decide (trimmed = "exit"%string) then mret false
    else
      _ ← (if decide (trimmed = ""%string) then mret tt
           else
             r ← run (send_chat (MS := node_sender now) trimmed);
             match r with
             | Ok _ => mret tt
             | Err e => say [StderrDebug "Failed to send: " e]
             | Panic => leave_with Panics
             end);
      _ ← say [Stdout "> "]; mret true
  else mret false.

(** The loop, over the lines and the times they are read at, to the end of the input. *)
Fixpoint chat_loop (lines : list (Z * string)) : prog (OmniMesh * W) unit :=
  match lines with
  | [] => mret tt
  | (now, line) :: lines =>
      go ← chat_round now line; if go : bool then chat_loop lines else mret tt
  end.

(** [main] from the point where the node runs. *)
Definition chat_main (connect : option SocketAddr) (lines : list (Z * string))
    : prog (OmniMesh * W) unit :=
  _ ← chat_connect connect;
  _ ← say [Stdout ("Type messages and press Enter to send (type 'exit' to quit):" +:+ newline); Stdout "> "];
  _ ← chat_loop lines;
  example_stop.

(** What the spawned task prints for a message. *)
Definition chat_printed (event : PeerId * string) : Result (list Output) :=
  line ← chat_line event.1 event.2; Ok [Stdout line; Stdout "> "].

(** *** RPC *)

Definition greeting : list byte := String.list_byte_of_string "Hello from OmniMesh Client!".

(** The client up to the point where [call] waits for the response. *)
Definition rpc_client_start (now : Z) (addr : SocketAddr) (r : RpcService)
    : prog (OmniMesh * W) (Result Z * RpcService) :=
  remote_id ← connect_or_fail "Connecting to RPC Server at " addr;
  _ ← say [Stdout "Sending RPC Request: 'Hello from OmniMesh Client!'"];
  run (call_start (MS := node_sender now) remote_id "reverse" greeting r).

(** The rest of the client, with the result of [call]. *)
Definition rpc_client_end (res : Result (list byte)) : prog (OmniMesh * W) unit :=
  _ ← match res with
      | Ok response_bytes =>
          if utf8_valid response_bytes then
            say [Stdout ("✓ RPC Response Received: '" +:+
                         String.string_of_list_byte response_bytes +:+ "'")]
          else leave_with (Fails FromUtf8Error)
      | Err e => say [StderrDebug "✗ RPC Call Failed: " e]
      | Panic => leave_with Panics
      end;
  example_stop.

(** *** Publish/subscribe *)

(** What the subscriber's task prints for a publication. *)
Definition news_printed (msg_bytes : list byte) : list Output :=
  if utf8_valid msg_bytes then
    [Stdout (String.String "010" ("[PubSub Topic: 'news'] Received: '" +:+
                                  String.string_of_list_byte msg_bytes +:+ "'"))]
  else [].

Definition pubsub_publisher (now : Z) (connect : option SocketAddr) (msg_str : string)
    : prog (OmniMesh * W) unit :=
  match connect with
  | Some addr =>
      _ ← connect_or_fail "Connecting to subscriber at " addr;
      _ ← say [Stdout ("Publishing '" +:+ msg_str +:+ "' to topic 'news'...")];
      r ← run (publish (MS := node_sender now) "news" (String.list_byte_of_string msg_str));
      _ ← try r;
      _ ← say [Stdout "✓ Publication sent successfully!"];
      example_stop
  | None => exit1 ["Error: Publisher must specify --connect <ADDR>"%string]
  end.

End mesh.

(** ** Starting over QUIC *)

Section start.
Context `{Q : Quinn, SN : Snow, D : Ed25519, P : Libp2p, SW : !Swarm P,
          BH : Bincode HandshakePayload, BP : Bincode WirePacket, BS : Bincode ServicePayload,
          BU : Bincode LinkStateUpdate, BT : Bincode N, T : TextCodecs,
          BC : Bincode ChatMessage, BR : Bincode RpcMessage, BB : Bincode PubSubMessage,
          EF : EnvFilters}.

(** The default configuration, on a port of the loopback address. *)
Definition example_config (E : Surroundings) (port : Z) : Result Config :=
  config ← Config_default E;
  let t := cfg_transport config in
  let listen_addr := mkSocketAddr (IPv4 [# Byte.x7f; Byte.x00; Byte.x00; Byte.x01]) port in
  Ok (mkConfig (cfg_node config)
        (mkTransportConfig listen_addr (tc_bootstrap_nodes t) (tc_connect_timeout_ms t)
           (tc_keepalive_secs t))
        (cfg_identity config) (cfg_telemetry config) (cfg_storage config)).

Definition rule : string := "==================================================".

(** What is printed of the node; [help] is printed for an address of the node itself. *)
Definition banner (title : string) (short_id : string) (vip : VirtualIp) (listen_addr : SocketAddr)
    (actual_addr : list SocketAddr) (help : SocketAddr → list string) : list Output :=
  Stdout <$> [rule; title;
              "  PeerID:      " +:+ short_id;
              "  Virtual IP:  " +:+ vip_display vip;
              "  Listening:   " +:+ socket_to_string listen_addr]%string ++
             match actual_addr with addr :: _ => help addr | [] => [] end ++
             [rule +:+ newline].

(** From the configuration to the banner; [seed] are the random bytes of the key, [now] the
    time of the lookup. *)
Definition start_example (E : Surroundings) (seed : vec byte 32) (now : Z) (port : Z)
    (title : string) (services : list (string * (PeerId → list byte → Result unit)))
    (help : SocketAddr → list string) : prog net (OmniMesh (TR := quic_transport)) :=
  config ← try (example_config E port);
  let keypair := kp_generate seed in
  let peer_id := kp_to_peer_id keypair in
  r ← run (start_mesh E seed config keypair services);
  mesh ← try r;
  s ← try (short peer_id);
  _ ← say (banner title s (node_vip mesh) (tc_listen_addr (cfg_transport config))
             (discovery_lookup now (node_discovery mesh) peer_id) help);
  mret mesh.

Definition chat_service : string * (PeerId → list byte → Result unit) :=
  ("chat"%string, λ from payload, (chat_handle_message from payload).1).

Definition rpc_service : string * (PeerId → list byte → Result unit) :=
  ("rpc"%string, λ from payload,
     _ ← (rpc_handle_message (S := unit) (MS := dead_sender) reverse_handle_request
            from payload rpc_new).1; Ok tt).

Definition pubsub_service : string * (PeerId → list byte → Result unit) :=
  ("pubsub"%string, λ from payload, (pubsub_handle_message from payload pubsub_new).1).

Definition chat_start (E : Surroundings) (g : Tracing) (seed : vec byte 32) (now : Z)
    (args : list string) : prog net (OmniMesh (TR := quic_transport) * ChatArgs) :=
  _ ← try (init E "info" false g).1;
  o ← chat_args E (mkChatArgs None 0) (drop 1 args);
  mesh ← start_example E seed now (ca_port o) "OmniMesh P2P Chat Example Running" [chat_service]
           (λ addr, [newline +:+ "To connect another peer, run:";
                     "  cargo run --example p2p_chat -- --connect " +:+ socket_to_string addr]%string);
  mret (mesh, o).

Definition rpc_start (E : Surroundings) (g : Tracing) (seed : vec byte 32) (now : Z)
    (args : list string) : prog net (OmniMesh (TR := quic_transport) * RpcArgs) :=
  _ ← try (init E "info" false g).1;
  o ← rpc_args E (mkRpcArgs None false 0) (drop 1 args);
  _ ← rpc_check o;
  mesh ← start_example E seed now (ra_port o) "OmniMesh P2P RPC Example Running" [rpc_service]
           (λ addr, if ra_server o then
              [newline +:+ "Server is running. Connect a client using:";
               "  cargo run --example p2p_rpc -- --connect " +:+ socket_to_string addr]%string
              else []);
  _ ← (if ra_server o then say [Stdout "Server running. Press Ctrl+C to stop."] else mret tt);
  mret (mesh, o).

Definition pubsub_start (E : Surroundings) (g : Tracing) (seed : vec byte 32) (now : Z)
    (args : list string)
    : prog net (OmniMesh (TR := quic_transport) * PubSubArgs * PubSubService) :=
  _ ← try (init E "info" false g).1;
  o ← pubsub_args E (mkPubSubArgs None false None 0) (drop 1 args);
  _ ← pubsub_check o;
  mesh ← start_example E seed now (pa_port o) "OmniMesh P2P PubSub Example Running" [pubsub_service]
           (λ addr, if pa_subscriber o then
              [newline +:+ "Subscriber is active on topic 'news'. Run a publisher using:";
               "  cargo run --example p2p_pubsub -- --connect " +:+ socket_to_string addr +:+
               " --publish " +:+ String.String "034" "Hello PubSub" +:+ String.String "034" ""]%string
              else []);
  let '(_, pubsub) := pubsub_subscribe "news" pubsub_new in
  if pa_subscriber o then
    _ ← say [Stdout "✓ Subscribed to topic 'news'. Waiting for publications... Press Ctrl+C to stop."];
    mret (mesh, o, pubsub)
  else mret (mesh, o, pubsub_new).

End start.

(** ** Arguments: properties *)

(** The option at the head of a command line [rest] was read: go on with what follows. *)
Ltac option_read IH := rewrite ?ret_bind; apply IH; unfold ltof; cbn; lia.

Ltac read_value rest IH :=
  destruct rest as [|v rest]; [done|]; cbn [with_value app];
  try (case_match; [|done]); option_read IH.

Section args_facts.
Context {S : Type} (E : Surroundings).

(** Options are read one after the other from the left, and a later one overrides an
    earlier one: a command line that is accepted and then another one act like both. *)
Lemma chat_args_app a1 : ∀ o o' a2 out (s s' : S),
  chat_args E o a1 s = Some (Goes o', out, s') →
  out = [] ∧ s' = s ∧ chat_args E o (a1 ++ a2) s = chat_args E o' a2 s.
Proof.
  induction a1 as [[|arg rest] IH] using (induction_ltof1 _ length); intros o o' a2 out s s';
    [by intros [= <- <- <-]|].
  cbn [chat_args app]. unfold parse_addr, parse_port.
  destruct (is_flag arg "--connect" "-c"); [read_value rest IH|].
  destruct (is_flag arg "--listen-port" "-p"); [read_value rest IH|done].
Qed.

Lemma rpc_args_app a1 : ∀ o o' a2 out (s s' : S),
  rpc_args E o a1 s = Some (Goes o', out, s') →
  out = [] ∧ s' = s ∧ rpc_args E o (a1 ++ a2) s = rpc_args E o' a2 s.
Proof.
  induction a1 as [[|arg rest] IH] using (induction_ltof1 _ length); intros o o' a2 out s s';
    [by intros [= <- <- <-]|].
  cbn [rpc_args app]. unfold parse_addr, parse_port.
  destruct (is_flag arg "--connect" "-c"); [read_value rest IH|].
  destruct (is_flag arg "--server" "-s"); [option_read IH|].
  destruct (is_flag arg "--listen-port" "-p"); [read_value rest IH|done].
Qed.

Lemma pubsub_args_app a1 : ∀ o o' a2 out (s s' : S),
  pubsub_args E o a1 s = Some (Goes o', out, s') →
  out = [] ∧ s' = s ∧ pubsub_args E o (a1 ++ a2) s = pubsub_args E o' a2 s.
Proof.
  induction a1 as [[|arg rest] IH] using (induction_ltof1 _ length); intros o o' a2 out s s';
    [by intros [= <- <- <-]|].
  cbn [pubsub_args app]. unfold parse_addr, parse_port.
  destruct (is_flag arg "--connect" "-c"); [read_value rest IH|].
  destruct (is_flag arg "--subscribe" "-s"); [option_read IH|].
  destruct (is_flag arg "--publish" "-p"); [read_value rest IH|].
  destruct (decide (arg = "--listen-port"%string)); [read_value rest IH|done].
Qed.

End args_facts.

(** In two of the examples [-p] is the port, in the third the message to publish. *)
Example short_p E (s : unit) :
  chat_args E (mkChatArgs None 0) ["-p"; "7000"]%string s = Some (Goes (mkChatArgs None 7000), [], s) ∧
  pubsub_args E (mkPubSubArgs None false None 0) ["-p"; "7000"]%string s =
    Some (Goes (mkPubSubArgs None false (Some "7000"%string) 0), [], s).
Proof. done. Qed.

(** ** Starting: properties *)

Section start_facts.
Context `{Q : Quinn, SN : Snow, D : Ed25519, P : Libp2p, SW : !Swarm P,
          BH : Bincode HandshakePayload, BP : Bincode WirePacket, BS : Bincode ServicePayload,
          BU : Bincode LinkStateUpdate, BT : Bincode N, T : TextCodecs, TL : !TextCodecLaws T,
          BC : Bincode ChatMessage, BR : Bincode RpcMessage, BB : Bincode PubSubMessage,
          EF : EnvFilters}.

(** A node that was just built knows no address of its own, nor of anyone. *)
Lemma start_mesh_no_address E random config kp services w mesh w' now p :
  start_mesh E random config kp services w = Some (Ok mesh, w') →
  discovery_lookup now (node_discovery mesh) p = [].
Proof.
  unfold start_mesh, io_try. destruct (builder_new E) as [b|e|]; [|done..]. run_io.
  destruct (build _ _ w) as [[[m|e|] w1]|] eqn:Eb; [|done..]. intros [= <- _].
  assert (Hm : ds_cache (node_discovery m) = cache_new) by by eapply build_no_address.
  clear Eb. induction services as [|[id svc] services IH] in m, Hm |- *; [|by apply IH].
  unfold discovery_lookup. cbn. by rewrite Hm.
Qed.

(** The examples never print how to reach them.  Whatever help an example has for the
    address it is reached at, a started example has printed its banner without it: the
    address is looked up in the discovery cache under the own peer id, and nothing was put
    there.  With the default port 0 the listening address printed is port 0 too. *)
Theorem example_hides_address E seed now port title services help w mesh out w' :
  NoDup services.*1 →
  start_example E seed now port title services help w = Some (Goes mesh, out, w') →
  node_ok mesh ∧
  (∀ id service, (id, service) ∈ services → node_services mesh !! id = Some service) ∧
  ∃ s config, short (kp_to_peer_id (kp_generate seed)) = Ok s ∧ example_config E port = Ok config ∧
    out = Stdout <$> [rule; title; "  PeerID:      " +:+ s;
                      "  Virtual IP:  " +:+ vip_display (node_vip mesh);
                      "  Listening:   127.0.0.1:" +:+ pretty port; rule +:+ newline]%string.
Proof.
  intros Hnd. unfold start_example. destruct (example_config E port) as [config|e|] eqn:Ec; [|done..].
  cbn [try]. rewrite ret_bind. unfold run, mbind at 1, prog_bind at 1.
  destruct (start_mesh _ _ _ _ _ w) as [[r w1]|] eqn:Es; [|done].
  destruct r as [m|e|]; cbn [try]; [|done..]. rewrite ret_bind.
  destruct (short_ok (kp_to_peer_id (kp_generate seed))) as (s & Eh & _). rewrite Eh. cbn [try].
  rewrite ret_bind, (start_mesh_no_address _ _ _ _ _ _ _ _ _ _ Es). intros [= <- <- <-].
  destruct (start_mesh_ok _ _ _ _ _ _ _ _ Hnd Es) as [Hok Hs]. split; [done|]. split; [done|].
  exists s, config. split; [done|]. split; [done|]. 
  revert Ec. unfold example_config. destruct (Config_default E); [|done..]. by intros [= <-].
Qed.

End start_facts.

(** ** Chatting: properties *)



Section chat_facts.
Context {W : Type} {C : DynConnection W} {DX : Duplex C} {TR : DynTransport C}.
Context `{SN : Snow, L : !SnowLaws SN, D : Ed25519, P : Libp2p, SW : !Swarm P,
          BH : Bincode HandshakePayload,
          BP : Bincode WirePacket, BPL : !BincodeLaws BP,
          BS : Bincode ServicePayload, BSL : !BincodeLaws BS,
          BU : Bincode LinkStateUpdate, BUL : !BincodeLaws BU, BT : Bincode N, T : TextCodecs,
          I : !MapIter PeerId nat, IL : !MapIterLaws I,
          BC : Bincode ChatMessage, BCL : !BincodeLaws BC}.

(** What a session puts on a connection fits it. *)
Hypothesis packets_sendable : ∀ ty plain t w t',
  fits_noise plain → seal_packet ty plain t = (Ok w, t') → sendable w.











Section chatting.
Context (x y : party) (i j cap : nat) (sa sb : gmap PeerId nat) (fa fb : AppState).
Hypotheses (Hx : no_panic x) (Hy : no_panic y).




End chatting.


End chat_facts.


(** ** Calling: properties *)

(** The handler of the RPC example reverses text.  It never fails; a request that is UTF-8
    comes back as the same characters in the reverse order, again as UTF-8, and reversing
    that gives the request back; a request that is no UTF-8 is taken for the empty text;
    and a method other than [reverse] is answered as unknown, not refused. *)
Theorem reverse_handler from method request :
  (method = "reverse"%string →
     (utf8_valid request = true → ∃ cs, utf8_chars request = Some cs ∧ concat cs = request ∧
        reverse_handle_request from method request = Ok (concat (reverse cs)) ∧
        utf8_valid (concat (reverse cs)) = true ∧
        reverse_handle_request from method (concat (reverse cs)) = Ok request) ∧
     (utf8_valid request = false → reverse_handle_request from method request = Ok [])) ∧
  (method ≠ "reverse"%string →
     reverse_handle_request from method request = Ok (String.list_byte_of_string "Unknown method")).
Proof.
  unfold reverse_handle_request, from_utf8_or_default. split; [|by intros Hm; rewrite decide_False].
  intros ->. rewrite !decide_True by done. split; [|by intros ->]. intros Hv. rewrite Hv.
  pose proof Hv as [cs E]%bool_decide_eq_true. exists cs. pose proof E as [Hc _]%utf8_chars_spec.
  assert (Hr : rev_chars request = concat (reverse cs)) by (unfold rev_chars; by rewrite E).
  rewrite <- Hr, (rev_chars_valid _ Hv), (rev_chars_involutive _ Hv). by split_and!.
Qed.

Lemma reverse_handler_witness :
  let text := String.list_byte_of_string "pâté" in
  reverse_handle_request (peer Byte.x01) "reverse" text = Ok (String.list_byte_of_string "étâp") ∧
  reverse_handle_request (peer Byte.x01) "reverse" [Byte.xff] = Ok [].
Proof.
  intros text. split.
  - destruct (proj1 (reverse_handler (peer Byte.x01) "reverse" text) eq_refl) as [H _].
    destruct (H eq_refl) as (cs & E & _ & -> & _). injection E as <-. reflexivity.
  - by apply (proj1 (reverse_handler (peer Byte.x01) "reverse" [Byte.xff]) eq_refl).
Defined.

Section rpc_facts.
Context {W : Type} {C : DynConnection W} {DX : Duplex C} {TR : DynTransport C}.
Context `{SN : Snow, L : !SnowLaws SN, D : Ed25519, P : Libp2p, SW : !Swarm P,
          BH : Bincode HandshakePayload,
          BP : Bincode WirePacket, BPL : !BincodeLaws BP,
          BS : Bincode ServicePayload, BSL : !BincodeLaws BS,
          BU : Bincode LinkStateUpdate, BUL : !BincodeLaws BU, BT : Bincode N, T : TextCodecs,
          I : !MapIter PeerId nat, IL : !MapIterLaws I,
          BR : Bincode RpcMessage, BRL : !BincodeLaws BR}.

Hypothesis packets_sendable : ∀ ty plain t w t',
  fits_noise plain → seal_packet ty plain t = (Ok w, t') → sendable w.

(** The answer the client of the example gets, and what it prints for it. *)
Lemma client_prints from (s : OmniMesh * W) :
  rpc_client_end (call_outcome (reverse_handle_request from "reverse" greeting)) s =
    (_ ← say [Stdout "✓ RPC Response Received: '!tneilC hseMinmO morf olleH'"]; example_stop) s.
Proof. reflexivity. Qed.

(** The RPC example works.  A client node with an idle session to a server node, both with
    the example's RPC service: the client's call sends its greeting at once; however the
    session loops are scheduled, the server's service is handed it and spawns the task that
    answers; that task sends at once; however the loops are scheduled from there, the
    answer completes the client's call; and the client prints the greeting reversed and
    shuts its node down. *)
Theorem rpc_example_works now x y i j (na nb : OmniMesh) (w : W) rs :
  idle x y i j na nb w → no_panic x → no_panic y →
  is_Some (x.2 !! "rpc"%string) → is_Some (y.2 !! "rpc"%string) →
  rpc_fits (Request 1 "reverse" greeting) →
  rpc_fits (Response 1 (inr (String.list_byte_of_string "!tneilC hseMinmO morf olleH"))) →
  ∃ r1 na1 req,
    call_start (MS := node_sender now) x.1 "reverse" greeting rpc_new (na, w) =
      Some (Ok 1%Z, r1, (na1, w)) ∧
    inevitably (loops_step i j)
      (λ z, delivered z.1.2 = delivered nb ++ [("rpc"%string, y.1, req)] ∧
         ∃ task nb1 resp,
           rpc_handle_message (MS := node_sender now) reverse_handle_request y.1 req rs =
             (Ok (Some task), rs) ∧
           task (z.1.2, z.2) = Some (Ok tt, (nb1, z.2)) ∧
           inevitably (loops_step i j)
             (λ z', delivered z'.1.1 = delivered na ++ [("rpc"%string, x.1, resp)] ∧
                ∃ answer,
                completed (rpc_handle_message (MS := node_sender now) reverse_handle_request
                             x.1 resp r1).2 = [(1%Z, answer)] ∧
                ∀ s : OmniMesh * W, rpc_client_end (call_finish (Some answer)) s =
                  (_ ← say [Stdout "✓ RPC Response Received: '!tneilC hseMinmO morf olleH'"];
                   example_stop) s)
             (z.1.1, nb1, z.2))
      (na1, nb, w).
Proof.
  intros Hi Hx Hy Rx Ry Freq Fresp.
  destruct (rpc_round_trip packets_sendable reverse_handle_request now "reverse" greeting
    x y i j na nb w rpc_new rs Hi Hx Hy Rx Ry) as (r1 & na1 & req & Ec & H); [done..|].
  assert (Hr1 := call_start_completed _ _ _ _ _ _ _ _ _ Ec).
  exists r1, na1, req. split; [exact Ec|]. eapply inevitably_weaken; [|exact H].
  intros z (Hd & task & nb1 & resp & Eh & Et & Hz). split; [done|].
  exists task, nb1, resp. split; [done|]. split; [done|].
  eapply inevitably_weaken; [|exact Hz]. intros z' (Hd' & Er & Ef & _). split; [done|].
  eexists. rewrite Er. cbn [completed]. rewrite Hr1. cbn [completed rpc_new app]. split; [done|]. intros s. rewrite Ef. apply client_prints.
Qed.

End rpc_facts.

(** ** Witnesses *)

Section example_witnesses.

#[local] Existing Instance toy_snow.
#[local] Existing Instance toy_snow_laws.
#[local] Existing Instance toy_bincode.
#[local] Existing Instance toy_bincode_laws.
#[local] Existing Instance toy_payload.
#[local] Existing Instance default_map_iter.
#[local] Existing Instance default_map_iter_laws.
#[local] Existing Instance Discovery.toy_ed25519.
#[local] Existing Instance key_libp2p.
#[local] Existing Instance toy_swarm.
#[local] Existing Instance Node.toy_text.


Lemma rpc_example_works_witness :
  ∃ r1 na1,
    call_start (MS := node_sender 0) (peer Byte.x02) "reverse" greeting rpc_new (toy_na, toy_world) =
      Some (Ok 1%Z, r1, (na1, toy_world)).
Proof.
  destruct (rpc_example_works (C := mock_connection) (TR := mock_transport) toy_sendable 0
    toy_x toy_y 0 0 toy_na toy_nb toy_world rpc_new) as (r1 & na1 & req & Ec & _).
  - exact toy_idle.
  - apply chat_no_panic.
  - apply chat_no_panic.
  - by eexists.
  - by eexists.
  - intros bs [= <-]. split; [by left|vm_compute; discriminate].
  - intros bs [= <-]. split; [by left|vm_compute; discriminate].
  - exists r1, na1. exact Ec.
Defined.

End example_witnesses.

(** Two nodes that chat over QUIC. *)
Section quic_chat.

#[local] Existing Instance tag_snow.
#[local] Existing Instance tag_snow_laws.
#[local] Existing Instance toy_bincode.
#[local] Existing Instance toy_bincode_laws.
#[local] Existing Instance packed_packet.
#[local] Existing Instance packed_packet_laws.
#[local] Existing Instance toy_payload.
#[local] Existing Instance default_map_iter.
#[local] Existing Instance default_map_iter_laws.
#[local] Existing Instance toy_quinn.
#[local] Existing Instance toy_quinn_laws.
#[local] Existing Instance toy_quinn_live.
#[local] Existing Instance Discovery.toy_ed25519.
#[local] Existing Instance key_libp2p.
#[local] Existing Instance toy_swarm.
#[local] Existing Instance Node.toy_text.

Abbreviation QuicMesh := (OmniMesh (C := quic_connection) (TR := quic_transport)).








End quic_chat.

Section start_witness.

#[local] Existing Instance toy_snow.
#[local] Existing Instance toy_bincode.
#[local] Existing Instance toy_payload.
#[local] Existing Instance toy_quinn.
#[local] Existing Instance Identity.toy_ed25519.
#[local] Existing Instance key_libp2p.
#[local] Existing Instance toy_swarm.
#[local] Existing Instance lower_hex.
#[local] Existing Instance lower_hex_laws.

Definition quiet_net : @net toy_quinn := mkToyNet true [] [].

Lemma example_hides_address_witness :
  ∃ mesh out w', start_example toy_surroundings (vreplicate 32 Byte.x07) 0 0 "Chat" [chat_service]
      (λ addr, [socket_to_string addr]) quiet_net = Some (Goes mesh, out, w') ∧
    length out = 6 ∧ out !! 4 = Some (Stdout "  Listening:   127.0.0.1:0").
Proof.
  destruct (start_example toy_surroundings (vreplicate 32 Byte.x07) 0 0 "Chat" [chat_service]
      (λ addr, [socket_to_string addr]) quiet_net) as [[[r out] w']|] eqn:E; [|discriminate E].
  destruct r as [mesh|e|c|]; [|discriminate E..].
  exists mesh, out, w'. split; [reflexivity|].
  destruct (example_hides_address toy_surroundings (vreplicate 32 Byte.x07) 0 0 "Chat" [chat_service]
    (λ addr, [socket_to_string addr]) quiet_net mesh out w')
    as (_ & _ & s & config & _ & _ & ->).
  - apply NoDup_singleton.
  - exact E.
  - split; reflexivity.
Defined.

End start_witness.
