(* ===== verification/ChatRoom.v ===== *)
(** * Chat subscribers ([service/src/lib.rs], [node/src/main.rs], [sdk/examples/p2p_chat.rs])

    [ChatService] with the broadcast channel it publishes to, and the task that the node and
    the chat example spawn to print what arrives.  The channel is [tokio::sync::broadcast]: a
    receiver that falls more than its capacity behind is told so once, and goes on with the
    oldest value still kept.  The printing task takes that notice for the end. *)

From S2P Require Import Prelude Error Types Graph Transport Identity Services Noise Wire Discovery Node Cli Examples.

(** ** [tokio::sync::broadcast] *)

Inductive RecvError := Closed | Lagged (missed : nat).

(** [bc_send] returns the value when nobody is subscribed, else the number of receivers;
    [bc_recv] is [None] while it waits. *)
Class Broadcast (A : Type) := {
  BroadcastTx : Type;
  BroadcastRx : Type;
  bc_channel : nat → BroadcastTx * BroadcastRx;
  bc_subscribe : BroadcastTx → BroadcastRx * BroadcastTx;
  bc_send : A → BroadcastTx → (A + nat) * BroadcastTx;
  bc_recv : BroadcastRx → BroadcastTx → option ((RecvError + A) * BroadcastRx * BroadcastTx);
  bc_drop : BroadcastRx → BroadcastTx → BroadcastTx;
}.

(** A subscribed receiver reads what was sent since it subscribed, in order.  The channel holds
    at least as many values as asked for; a receiver that has more to read skips to the oldest
    one kept, with an error that counts what it missed. *)
Class BroadcastLaws {A} (B : Broadcast A) := {
  bc_capacity : BroadcastTx → nat;
  bc_reads : BroadcastRx → BroadcastTx → list A → Prop;
  channel_capacity n tx rx : bc_channel n = (tx, rx) → n ≤ bc_capacity tx;
  drop_capacity rx tx : bc_capacity (bc_drop rx tx) = bc_capacity tx;
  subscribe_reads tx rx tx' :
    bc_subscribe tx = (rx, tx') → bc_reads rx tx' [] ∧ bc_capacity tx' = bc_capacity tx;
  send_reads rx tx q v :
    bc_reads rx tx q → ∃ n tx', bc_send v tx = (inr n, tx') ∧ bc_reads rx tx' (q ++ [v]) ∧
      bc_capacity tx' = bc_capacity tx;
  recv_waits rx tx : bc_reads rx tx [] → bc_recv rx tx = None;
  recv_value rx tx v q :
    bc_reads rx tx (v :: q) → length (v :: q) ≤ bc_capacity tx →
    ∃ rx' tx', bc_recv rx tx = Some (inr v, rx', tx') ∧ bc_reads rx' tx' q ∧
      bc_capacity tx' = bc_capacity tx;
  recv_lagged rx tx q :
    bc_reads rx tx q → bc_capacity tx < length q →
    ∃ rx' tx', bc_recv rx tx = Some (inl (Lagged (length q - bc_capacity tx)), rx', tx') ∧
      bc_reads rx' tx' (drop (length q - bc_capacity tx) q) ∧ bc_capacity tx' = bc_capacity tx;
}.

(** ** The service *)

Abbreviation ChatEvent := (PeerId * string)%type.

Section service.
Context `{BR : Broadcast ChatEvent, BC : Bincode ChatMessage}.

(** [ChatService], without its [MessageSender]. *)
Record ChatService := mkChatService { message_tx : BroadcastTx }.

(** [let (tx, _) = channel(100)]: the first receiver is dropped at once. *)
Definition chat_new : ChatService :=
  let '(tx, rx) := bc_channel 100 in mkChatService (bc_drop rx tx).

Definition chat_subscribe (s : ChatService) : BroadcastRx * ChatService :=
  let '(rx, tx) := bc_subscribe (message_tx s) in (rx, mkChatService tx).

(** [ChatService::handle_message]; that nobody is subscribed is no error. *)
Definition chat_publish (from : PeerId) (payload : list byte) (s : ChatService) : Result unit * ChatService :=
  attempt (of_lib (λ e, Serialization ("chat deserialize: " +:+ e)) (deserialize payload)) s
    (λ msg, let '(_, tx) := bc_send (from, chat_text msg) (message_tx s) in (Ok tt, mkChatService tx)).

(** ** The printing task *)

Context {O : Type} (show : ChatEvent → Result (list O)).

(** The service, the receiver of the task while it runs, and what was printed. *)
Record Room := mkRoom { room_chat : ChatService; room_task : option BroadcastRx; room_out : list O }.

(** [let mut chat_rx = chat.subscribe()], before the task is spawned. *)
Definition room_open (s : ChatService) : Room :=
  let '(rx, s) := chat_subscribe s in mkRoom s (Some rx) [].

(** The task ends, and drops its receiver. *)
Definition room_close (rx : BroadcastRx) (tx : BroadcastTx) (out : list O) : Room :=
  mkRoom (mkChatService (bc_drop rx tx)) None out.

(** [while let Ok((from, text)) = chat_rx.recv().await]: one round of it. *)
Definition print_round (r : Room) : Room :=
  match room_task r with
  | None => r
  | Some rx =>
      match bc_recv rx (message_tx (room_chat r)) with
      | None => r
      | Some (inr event, rx, tx) =>
          match show event with
          | Ok out => mkRoom (mkChatService tx) (Some rx) (room_out r ++ out)
          | _ => room_close rx tx (room_out r)
          end
      | Some (inl _, rx, tx) => room_close rx tx (room_out r)
      end
  end.

(** A message comes in from a peer, or the task runs. *)
Inductive RoomEvent := Arrives (from : PeerId) (payload : list byte) | Prints.

Definition room_event (e : RoomEvent) (r : Room) : Room :=
  match e with
  | Arrives from payload => mkRoom (chat_publish from payload (room_chat r)).2 (room_task r) (room_out r)
  | Prints => print_round r
  end.

Definition room_run (es : list RoomEvent) (r : Room) : Room := foldl (λ r e, room_event e r) r es.

(** ** What should be printed *)

(** The texts that arrive; a payload that is no chat message is none. *)
Definition arrival (e : RoomEvent) : list ChatEvent :=
  match e with
  | Arrives from payload => (chat_handle_message from payload).2
  | Prints => []
  end.

Definition arrivals (es : list RoomEvent) : list ChatEvent := es ≫= arrival.

Definition shown (q : list ChatEvent) : list O :=
  q ≫= λ ev, match show ev with Ok out => out | _ => [] end.

(** The task keeps up when it never has more than [cap] messages to print, [n] to begin with. *)
Fixpoint keeps_up (cap n : nat) (es : list RoomEvent) : bool :=
  match es with
  | [] => true
  | Prints :: es => keeps_up cap (n - 1) es
  | e :: es => bool_decide (n + length (arrival e) ≤ cap) && keeps_up cap (n + length (arrival e)) es
  end.

End service.
Arguments Room {BR} O.
Arguments mkRoom {BR O}.

(** The two tasks: the node's, and the example's with its prompt. *)
Section tasks.
Context `{T : TextCodecs}.

Definition node_chat_printed (event : ChatEvent) : Result (list Output) :=
  line ← chat_line event.1 event.2; Ok [Stdout line].

(** What both print for a message. *)
Lemma chat_line_ok `{!TextCodecLaws T} from text : ∃ line, chat_line from text = Ok line.
Proof. unfold chat_line. destruct (short_ok from) as (s & -> & _). by eexists. Qed.

End tasks.

(** ** Printing *)

Section room_facts.
Context `{BR : Broadcast ChatEvent, BL : !BroadcastLaws BR, BC : Bincode ChatMessage}.
Context {O : Type} (show : ChatEvent → Result (list O)).
Hypothesis show_ok : ∀ ev, ∃ out, show ev = Ok out.

(** The handler publishes what [chat_handle_message] says, and answers as it does. *)
Lemma chat_publish_spec from payload s :
  chat_publish from payload s =
    ((chat_handle_message from payload).1,
     foldl (λ s ev, mkChatService (bc_send ev (message_tx s)).2) s (chat_handle_message from payload).2).
Proof.
  unfold chat_publish, chat_handle_message. destruct (deserialize payload) as [e|msg]; cbn; [done|].
  by destruct (bc_send _ _).
Qed.

Lemma shown_app q q' : shown show (q ++ q') = shown show q ++ shown show q'.
Proof. apply bind_app. Qed.

(** The task is reading, with [q] left to print of the [total] that arrived. *)
Definition reading (cap : nat) (q : list ChatEvent) (total : list ChatEvent) (r : Room O) : Prop :=
  ∃ rx, room_task r = Some rx ∧ bc_reads rx (message_tx (room_chat r)) q ∧
    bc_capacity (message_tx (room_chat r)) = cap ∧ room_out r ++ shown show q = shown show total.

Lemma reading_open :
  ∃ cap, 100 ≤ cap ∧ reading cap [] [] (room_open chat_new).
Proof.
  unfold room_open, chat_new, chat_subscribe. destruct (bc_channel 100) as [tx rx] eqn:Ec.
  cbn [message_tx]. destruct (bc_subscribe _) as [rx' tx'] eqn:Es. apply channel_capacity in Ec.
  destruct (subscribe_reads _ _ _ Es) as [Hr Hc]. rewrite drop_capacity in Hc.
  exists (bc_capacity tx'). split; [lia|]. by exists rx'.
Qed.

Lemma reading_arrives cap q total from payload r :
  reading cap q total r →
  reading cap (q ++ arrival (Arrives from payload)) (total ++ arrival (Arrives from payload))
    (room_event show (Arrives from payload) r).
Proof.
  intros (rx & Ht & Hr & Hc & Ho). cbn [room_event arrival]. rewrite chat_publish_spec. cbn [snd].
  generalize (chat_handle_message from payload).2 as new. intros new.
  destruct r as [s task out]. cbn [room_chat room_task room_out] in *. subst task.
  revert s q total Hr Hc Ho. induction new as [|ev new IH]; intros s q total Hr Hc Ho.
  { rewrite !app_nil_r. by exists rx. }
  destruct (send_reads rx _ _ ev Hr) as (n & tx' & Es & Hr' & Hc'). cbn [foldl]. rewrite Es.
  replace (q ++ ev :: new) with ((q ++ [ev]) ++ new) by by rewrite <- app_assoc.
  replace (total ++ ev :: new) with ((total ++ [ev]) ++ new) by by rewrite <- app_assoc.
  apply IH; [done|cbn; congruence|]. by rewrite !shown_app, app_assoc, Ho.
Qed.

Lemma reading_prints cap q total r :
  reading cap q total r → length q ≤ cap → reading cap (drop 1 q) total (room_event show Prints r).
Proof.
  intros (rx & Ht & Hr & Hc & Ho) Hq. cbn [room_event]. unfold print_round. rewrite Ht.
  destruct q as [|ev q]; cbn [drop].
  { rewrite recv_waits by done. by exists rx. }
  destruct (recv_value _ _ _ _ Hr) as (rx' & tx' & -> & Hr' & Hc'); [by rewrite Hc|].
  destruct (show_ok ev) as [out E]. rewrite E. exists rx'. cbn [room_task room_chat room_out message_tx].
  split_and!; [done|done|congruence|]. rewrite <- Ho. unfold shown. cbn. by rewrite E, <- app_assoc.
Qed.

Lemma reading_run n cap q total es r :
  n ≤ cap → reading cap q total r → length q ≤ n → keeps_up n (length q) es = true →
  ∃ q', length q' ≤ n ∧ reading cap q' (total ++ arrivals es) (room_run show es r).
Proof.
  intros Hn. revert q total r. induction es as [|e es IH]; intros q total r Hr Hq Hk.
  { exists q. unfold arrivals. cbn. by rewrite app_nil_r. }
  unfold room_run, arrivals in *. cbn [foldl mbind list_bind]. rewrite app_assoc.
  destruct e as [from payload|]; cbn [keeps_up] in Hk.
  - apply andb_true_iff in Hk as [Hl Hk]. apply bool_decide_eq_true in Hl. rewrite <- length_app in Hk, Hl.
    eapply IH; [by apply reading_arrives|done|done].
  - cbn [arrival]. rewrite app_nil_r. apply (IH (drop 1 q)); [apply reading_prints; [done|lia]| |].
    + rewrite length_drop. lia.
    + by rewrite length_drop.
Qed.

Lemma reading_drains cap q total r n :
  reading cap q total r → length q ≤ cap → length q ≤ n →
  room_out (room_run show (replicate n Prints) r) = shown show total.
Proof.
  revert q r. induction n as [|n IH]; intros q r Hr Hq Hn.
  - destruct q; [|cbn in Hn; lia]. destruct Hr as (rx & _ & _ & _ & Ho). cbn in *. by rewrite app_nil_r in Ho.
  - unfold room_run in *. cbn [replicate foldl]. apply (IH (drop 1 q)); [by apply reading_prints| |];
      rewrite length_drop; lia.
Qed.

End room_facts.

Section room.
Context `{BR : Broadcast ChatEvent, BL : !BroadcastLaws BR, BC : Bincode ChatMessage}.
Context `{T : TextCodecs, TL : !TextCodecLaws T}.

Lemma node_printed_ok ev : ∃ out, node_chat_printed ev = Ok out.
Proof. unfold node_chat_printed. destruct (chat_line_ok ev.1 ev.2) as [l ->]. by eexists. Qed.

Lemma chat_printed_ok ev : ∃ out, chat_printed ev = Ok out.
Proof. unfold chat_printed. destruct (chat_line_ok ev.1 ev.2) as [l ->]. by eexists. Qed.

Lemma room_keeps_up (show : ChatEvent → Result (list Output)) es :
  (∀ ev, ∃ out, show ev = Ok out) → keeps_up 100 0 es = true →
  let r := room_run show es (room_open chat_new) in
  is_Some (room_task r) ∧ room_out r `prefix_of` shown show (arrivals es) ∧
  room_out (room_run show (replicate 100 Prints) r) = shown show (arrivals es).
Proof.
  intros Hs Hk. destruct (reading_open show) as (cap & Hcap & Hr).
  destruct (reading_run show Hs 100 cap [] [] es _ Hcap Hr) as (q & Hq & Hr'); [cbn; lia|done|].
  rewrite app_nil_l in Hr'. cbn zeta. split_and!.
  - destruct Hr' as (rx & -> & _). by eexists.
  - destruct Hr' as (rx & _ & _ & _ & <-). by eexists.
  - eapply reading_drains; [done|done|lia|lia].
Qed.

(** C18: The printing task prints every chat message, in the order they arrive, as long as it is
    never more than a hundred behind: it stays subscribed, what it has printed is at any time the
    beginning of what it has to print, and a hundred more rounds print the rest.  This holds for
    the task of the node and for that of the chat example; payloads that are no chat messages
    are passed over. *)
Theorem chat_task_prints es :
  keeps_up 100 0 es = true →
  Forall (λ show : ChatEvent → Result (list Output),
    let r := room_run show es (room_open chat_new) in
    is_Some (room_task r) ∧ room_out r `prefix_of` shown show (arrivals es) ∧
    room_out (room_run show (replicate 100 Prints) r) = shown show (arrivals es))
  [node_chat_printed; chat_printed].
Proof.
  intros Hk. repeat first [apply Forall_nil_2|apply Forall_cons_2]; cbn beta.
  - by apply (room_keeps_up node_chat_printed); [apply node_printed_ok|].
  - by apply (room_keeps_up chat_printed); [apply chat_printed_ok|].
Qed.

(** *** Falling behind *)

Lemma ended_stays {O} (show : ChatEvent → Result (list O)) es r :
  room_task r = None → room_out (room_run show es r) = room_out r.
Proof.
  revert r. induction es as [|e es IH]; intros r Ht; [done|]. unfold room_run in *. cbn [foldl].
  rewrite IH; destruct e; cbn [room_event room_task room_out]; unfold print_round; rewrite ?Ht; done.
Qed.

Lemma reading_burst {O} (show : ChatEvent → Result (list O)) cap q total es r :
  reading show cap q total r → Forall (λ e, e ≠ Prints) es →
  reading show cap (q ++ arrivals es) (total ++ arrivals es) (room_run show es r) ∧
  room_out (room_run show es r) = room_out r.
Proof.
  intros Hr He. revert q total r Hr. induction He as [|e es He _ IH]; intros q total r Hr.
  { unfold arrivals. cbn. by rewrite !app_nil_r. }
  unfold room_run, arrivals in *. cbn [foldl mbind list_bind]. rewrite !app_assoc.
  destruct e as [from payload|]; [|done].
  destruct (IH _ _ _ (reading_arrives show cap q total from payload r Hr)) as [Hr' Ho]. done.
Qed.

(** A burst of messages longer than the channel holds silences the task for good: it takes the
    notice that it missed some for the end of the channel, prints none of the messages that
    were kept, and none of those that arrive later. *)
Theorem chat_task_lost_by_burst {O} (show : ChatEvent → Result (list O)) :
  ∃ cap, 100 ≤ cap ∧ ∀ burst later,
    Forall (λ e, e ≠ Prints) burst → cap < length (arrivals burst) →
    room_out (room_run show (burst ++ Prints :: later) (room_open chat_new)) = [].
Proof.
  destruct (reading_open show) as (cap & Hcap & Hr). exists cap. split; [done|].
  intros burst later Hb Hl. destruct (reading_burst show cap [] [] burst _ Hr Hb) as [Hr' Ho].
  assert (room_out (O := O) (room_open chat_new) = []) as E.
  { unfold room_open, chat_subscribe. by destruct (bc_subscribe _). }
  unfold room_run in *. rewrite foldl_app. cbn [foldl]. rewrite app_nil_l in Hr'.
  set (r := foldl _ _ burst) in *. destruct Hr' as (rx & Ht & Hx & Hc & _).
  assert (Hp : room_task (print_round show r) = None ∧ room_out (print_round show r) = room_out r).
  { unfold print_round. rewrite Ht.
    destruct (recv_lagged _ _ _ Hx) as (rx' & tx' & -> & _); [by rewrite Hc|done]. }
  destruct Hp as [Hp Hq]. pose proof (ended_stays show later _ Hp) as Hs. unfold room_run in Hs.
  cbn [room_event]. by rewrite Hs, Hq, Ho.
Qed.

End room.

(** ** The end of the node's [run] *)

Section run_end.
Context {W : Type} {C : DynConnection W} {TR : DynTransport C}.
Context `{SN : Snow, D : Ed25519, P : Libp2p, SW : !Swarm P}.

(** From [ctrl_c().await?] on. *)
Definition cmd_run_end (signal : string + unit) (n : OmniMesh) : io W (result CliError unit * OmniMesh) :=
  match signal with
  | inl e => mret (Err (CliIo e), n)
  | inr _ => '(r, n) ← mesh_shutdown n; mret (anyhow r, n)
  end.

(** After Ctrl-C the node is down: it keeps no session and has told every loop to stop. *)
Lemma ctrl_c_stops n w r n' w' :
  running n = true → cmd_run_end (inr tt) n w = Some (r, n', w') →
  running n' = false ∧ sessions n' = ∅ ∧ ∀ i l, session_loops n' !! i = Some l → loop_notified l = true.
Proof.
  intros Hr. destruct (shutdown_once n Hr) as (n1 & E & Hd & Hs & _ & _ & Hl & _).
  unfold cmd_run_end, mesh_shutdown, shutdown_transport. rewrite E. run_io.
  destruct (transport_held n1); [done|]. cbn [mbind io_bind].
  destruct (transport_shutdown (node_transport n1) w) as [[[r' tr] w1]|]; [|done].
  intros [= _ <- _]. by split_and!.
Qed.

End run_end.

(** ** A channel, for the witnesses *)

(** All values sent, the capacity and the number of receivers; a receiver is its position. *)
Record ToyChan := mkToyChan { toy_cap : nat; toy_log : list ChatEvent; toy_receivers : nat }.

#[local] Instance toy_broadcast : Broadcast ChatEvent := {|
  BroadcastTx := ToyChan;
  BroadcastRx := nat;
  bc_channel n := (mkToyChan n [] 1, 0);
  bc_subscribe c := (length (toy_log c), mkToyChan (toy_cap c) (toy_log c) (S (toy_receivers c)));
  bc_send v c :=
    match toy_receivers c with
    | O => (inl v, c)
    | n => (inr n, mkToyChan (toy_cap c) (toy_log c ++ [v]) n)
    end;
  bc_recv i c :=
    let unread := drop i (toy_log c) in
    if decide (toy_cap c < length unread) then
      let missed := length unread - toy_cap c in Some (inl (Lagged missed), i + missed, c)
    else match unread with [] => None | v :: _ => Some (inr v, S i, c) end;
  bc_drop _ c := mkToyChan (toy_cap c) (toy_log c) (toy_receivers c - 1);
|}.

#[local] Program Instance toy_broadcast_laws : BroadcastLaws toy_broadcast := {|
  bc_capacity := toy_cap;
  bc_reads i c q := 0 < toy_receivers c ∧ i ≤ length (toy_log c) ∧ drop i (toy_log c) = q;
|}.
Next Obligation. by intros n tx rx [= <- _]. Qed.
Next Obligation. done. Qed.
Next Obligation. intros tx rx tx' [= <- <-]. cbn. split_and!; [lia|done|apply drop_all|done]. Qed.
Next Obligation.
  intros i c q v (Hn & Hi & <-). cbn. destruct (toy_receivers c) as [|n] eqn:E; [lia|].
  eexists _, _. split; [done|]. cbn. rewrite length_app. split_and!; [lia|lia| |done].
  by rewrite drop_app_le.
Qed.
Next Obligation. intros i c (_ & _ & Hd). cbn. by rewrite Hd. Qed.
Next Obligation.
  intros i c v q (Hn & Hi & Hd) Hl. cbn in *. rewrite Hd. rewrite decide_False by (cbn; lia).
  eexists _, _. split; [done|]. split_and!; [done| | |done].
  - assert (length (drop i (toy_log c)) = S (length q)) by by rewrite Hd. rewrite length_drop in *. lia.
  - change (S i) with (1 + i). rewrite Nat.add_comm, <- drop_drop, Hd. done.
Qed.
Next Obligation.
  intros i c q (Hn & Hi & Hd) Hl. cbn in *. rewrite Hd, decide_True by done.
  eexists _, _. split; [done|]. split_and!; [done| | |done].
  - rewrite <- Hd, length_drop in *. lia.
  - by rewrite <- drop_drop, Hd.
Qed.

(** A chat message is its text after a marker. *)
#[local] Instance toy_chat_bincode : Bincode ChatMessage := {|
  serialize m := inr (Byte.x2a :: String.list_byte_of_string (chat_text m));
  deserialize l :=
    match l with
    | Byte.x2a :: l => inr (mkChat (String.string_of_list_byte l))
    | _ => inl "invalid"%string
    end;
|}.

Definition toy_chat (text : string) : list byte :=
  match serialize (mkChat text) with inr bs => bs | inl _ => [] end.

(** Two messages and a payload that is none. *)
Definition toy_events : list RoomEvent :=
  [Arrives (peer Byte.x01) (toy_chat "hi"); Prints; Arrives (peer Byte.x02) []; Prints;
   Arrives (peer Byte.x02) (toy_chat "there")].

Lemma chat_task_prints_witness :
  keeps_up 100 0 toy_events = true ∧
  room_out (room_run (node_chat_printed (T := lower_hex)) (toy_events ++ replicate 100 Prints) (room_open chat_new)) =
    [Stdout (newline +:+ "[01010101] Chat: hi"); Stdout (newline +:+ "[02020202] Chat: there")].
Proof.
  assert (Hk : keeps_up 100 0 toy_events = true) by (vm_compute; reflexivity). split; [exact Hk|].
  pose proof (chat_task_prints (T := lower_hex) (TL := lower_hex_laws) toy_events Hk) as H.
  apply Forall_cons in H as [(_ & _ & H) _]. unfold room_run in *. rewrite foldl_app, H. vm_compute. reflexivity.
Defined.

(** A burst of 101 messages, and nothing is printed any more. *)
Example toy_burst :
  room_out (room_run (node_chat_printed (T := lower_hex))
    (replicate 101 (Arrives (peer Byte.x01) (toy_chat "x")) ++ toy_events ++ replicate 9 Prints)
    (room_open chat_new)) = [].
Proof. vm_compute. reflexivity. Qed.
