(* ===== verification/Testing.v ===== *)
(** * Running the tests of the crates

    The unit and integration tests of the repository as programs over the definitions of
    this library (files [TestsCore], [TestsCrypto], [TestsNet] and [TestsSdk]).  A test is a computation
    that panics where an [unwrap] or an assertion of the original fails; it passes when it
    ends with [Ok tt]. *)

From S2P Require Import Prelude Error.

Definition unwrap {A} (r : Result A) : Result A := match r with Ok a => Ok a | _ => Panic end.
Definition unwrap_none {A} (o : option A) : Result A := or_panic o.
Definition assert (b : bool) : Result unit := if b then Ok tt else Panic.
Definition assert_eq `{EqDecision A} (x y : A) : Result unit := assert (bool_decide (x = y)).
Definition assert_ne `{EqDecision A} (x y : A) : Result unit := assert (bool_decide (x ≠ y)).
Definition assert_err {A} (r : Result A) : Result unit := match r with Err _ => Ok tt | _ => Panic end.

Lemma assert_refl `{EqDecision A} (x : A) : assert_eq x x = Ok tt.
Proof. unfold assert_eq. by rewrite bool_decide_true. Qed.

(** A call on a store that is not shared any further. *)
Definition step_ok {A S} (r : Result A * S) : Result S := a ← unwrap r.1; Ok r.2.

(** [unwrap] on the result of a method that also changes its object. *)
Definition unwrap_st {A S} (r : Result A * S) : Result (A * S) := a ← unwrap r.1; Ok (a, r.2).

Definition bytes_of (s : string) : list byte := String.list_byte_of_string s.

(** [str::starts_with] and [str::contains]. *)
Definition starts_with (p s : string) : bool := String.prefix p s.

Fixpoint contains (p s : string) : bool :=
  starts_with p s || match s with String.String _ s => contains p s | String.EmptyString => false end.
