(* ===== verification/TestsCore.v ===== *)
(** * Tests of omnimesh-core

    The unit tests of [config.rs], [error.rs], [retry.rs] and [types.rs]. *)

From S2P Require Import Prelude Float64 Error Types Config Retry Testing.

(** ** Errors *)

Definition test_retryable_errors : Result unit :=
  _ ← assert (is_retryable (Connection "refused"));
  _ ← assert (is_retryable (Timeout 5000));
  _ ← assert (negb (is_retryable (Crypto "bad key")));
  assert (negb (is_retryable (ConfigError "missing"))).

Definition test_security_errors : Result unit :=
  _ ← assert (is_security_error (Crypto "invalid"));
  _ ← assert (is_security_error (Handshake "failed"));
  assert (negb (is_security_error (Connection "reset"))).

Definition test_error_display : Result unit :=
  _ ← assert_eq (error_to_string (Timeout 3000)) "timeout after 3000ms"%string;
  assert_eq (error_to_string (ProtocolMismatch "1.0" "2.0"))
    "protocol version mismatch: local=1.0, remote=2.0"%string.

(** ** Types *)

Definition test_protocol_version_compatibility : Result unit :=
  let v1 := mkVersion 1 0 0 in
  let v1_1 := mkVersion 1 1 0 in
  let v2 := mkVersion 2 0 0 in
  _ ← assert (is_compatible_with v1 v1_1);
  assert (negb (is_compatible_with v1 v2)).

Definition test_protocol_version_display : Result unit :=
  assert_eq (version_to_string CURRENT) "0.1.0"%string.

Section peer_tests.
Context `{T : TextCodecs}.

Definition test_peer_id_hex_roundtrip : Result unit :=
  let peer_id := from_bytes (vreplicate 32 Byte.x2a) in
  let hex := to_hex peer_id in
  recovered ← unwrap (from_hex hex);
  assert_eq peer_id recovered.

Definition test_peer_id_short : Result unit :=
  let peer_id := from_bytes (vreplicate 32 Byte.xab) in
  s ← short peer_id;
  assert_eq (String.length s) 8.

Definition test_peer_id_debug : Result unit :=
  let peer_id := from_bytes (vreplicate 32 Byte.xff) in
  debug ← peer_debug peer_id;
  assert (starts_with "PeerId(ffffffff" debug).

End peer_tests.

Definition test_connection_state_display : Result unit :=
  _ ← assert_eq (state_to_string Connected) "connected"%string;
  assert_eq (state_to_string Disconnected) "disconnected"%string.

(** ** Configuration *)

Definition port_of (c : Config) : Z := sock_port (tc_listen_addr (cfg_transport c)).

Definition test_default_config (E : Surroundings) : Result unit :=
  config ← Config_default E;
  _ ← assert_eq (port_of config) 4433%Z;
  _ ← assert_eq (nc_max_connections (cfg_node config)) 256;
  assert_eq (tel_log_level (cfg_telemetry config)) "info"%string.

Definition test_config_round_trip `{TM : Toml} (E : Surroundings) : Result unit :=
  config ← Config_default E;
  toml_str ← unwrap (to_toml config);
  parsed ← (match toml_from_str toml_str with inr c => Ok c | inl _ => Panic end);
  assert_eq (port_of parsed) 4433%Z.

(** ** Retries *)

(** A run; [max_retries + 1] calls are enough. *)
Definition retried {A} (p : RetryPolicy) (op : nat → Result A) : Result (Run A) :=
  or_panic (retry_async (S (max_retries p)) p op).

Definition test_retry_succeeds_immediately : Result unit :=
  run ← retried policy_default (λ _, Ok 42%Z);
  result ← unwrap (run_result run);
  assert_eq result 42%Z.

(** The policy of the two tests below. *)
Definition quick_policy (retries : nat) : RetryPolicy :=
  mkPolicy retries (from_millis 1) (from_millis 10) (f64_of_Z 2).

Definition test_retry_succeeds_after_failures : Result unit :=
  run ← retried (quick_policy 3) (λ attempt,
          if decide (attempt < 2) then Err (Connection "refused") else Ok "success"%string);
  result ← unwrap (run_result run);
  _ ← assert_eq result "success"%string;
  assert_eq (run_calls run) 3.

Definition test_retry_exhausted : Result unit :=
  run ← retried (A := unit) (quick_policy 2) (λ _, Err (Connection "refused"));
  assert_err (run_result run).

Definition test_non_retryable_error_fails_immediately : Result unit :=
  run ← retried (A := unit) policy_default (λ _, Err (Crypto "bad key"));
  _ ← assert_err (run_result run);
  assert_eq (run_calls run) 1.

(** ** They pass *)

(** The tests of [error.rs], [retry.rs] and [types.rs] pass, with the lowercase hexadecimal
    text of the crate [hex]. *)
Theorem core_tests_pass :
  let T := lower_hex in
  Forall (λ t, t = Ok tt)
    [test_retryable_errors; test_security_errors; test_error_display;
     test_protocol_version_compatibility; test_protocol_version_display;
     test_peer_id_hex_roundtrip; test_peer_id_short; test_peer_id_debug;
     test_connection_state_display; test_retry_succeeds_immediately;
     test_retry_succeeds_after_failures; test_retry_exhausted;
     test_non_retryable_error_fails_immediately].
Proof. cbn zeta. repeat constructor; vm_compute; reflexivity. Qed.

(** The tests of [config.rs] pass in any environment where the default address is read as
    itself and an identifier has its eight characters, with any serialiser that reads back the
    listen address it has written. *)
Theorem config_tests_pass `{TM : Toml} E addr :
  parse_socket_addr E "0.0.0.0:4433" = Some addr → sock_port addr = 4433%Z →
  (8 ≤ String.length (uuid_v4 E))%nat →
  (∀ c, ∃ text c', toml_to_string c = inr text ∧ toml_from_str text = inr c' ∧
     tc_listen_addr (cfg_transport c') = tc_listen_addr (cfg_transport c)) →
  test_default_config E = Ok tt ∧ test_config_round_trip E = Ok tt.
Proof.
  intros Ha Hp Hu Ht.
  assert (∃ c, Config_default E = Ok c ∧ port_of c = 4433%Z ∧ nc_max_connections (cfg_node c) = 256 ∧
    tel_log_level (cfg_telemetry c) = "info"%string) as (c & Hc & Hport & Hm & Hl).
  { unfold Config_default, NodeConfig_default, TransportConfig_default, default_node_name,
      default_listen_addr, str_prefix. rewrite Ha, ?decide_True by done. cbn. by eexists. }
  unfold test_default_config, test_config_round_trip. rewrite Hc. cbn [mbind result_bind].
  rewrite Hport, Hm, Hl, !assert_refl. split; [done|].
  destruct (Ht c) as (text & c' & Hw & Hr & Hsame). unfold to_toml. rewrite Hw.
  cbn [of_lib unwrap mbind result_bind]. rewrite Hr. cbn [mbind result_bind].
  unfold port_of in *. rewrite Hsame, Hport. apply assert_refl.
Qed.
