(* ===== verification/TestsCrypto.v ===== *)
(** * Tests of the crypto and identity crates

    The unit tests of [crypto/src] and [identity/src].  What a test draws at random (keys,
    nonces, salts) is an argument.  The tests that check that something works are proved to
    pass for every draw and every lawful instance of the cryptographic crates; the tests that
    check that something is refused depend on what the crates compute, and are run with small
    instances that do tell keys, messages and directions apart. *)

From S2P Require Import Prelude Text Error Types Kdf Aead Channel Noise Identity Keystore Testing.

(** ** [kdf.rs] *)

Section kdf_tests.
Context `{K : Hkdf}.

Definition test_derive_key_deterministic : Result unit :=
  let ikm := bytes_of "input keying material" in
  let salt := bytes_of "some salt" in
  key1 ← unwrap (derive_key ikm (Some salt) TRANSPORT 32);
  key2 ← unwrap (derive_key ikm (Some salt) TRANSPORT 32);
  _ ← assert_eq key1 key2;
  assert_eq (length key1) 32.

Definition test_different_domains_different_keys : Result unit :=
  let ikm := bytes_of "same input" in
  key1 ← unwrap (derive_key_256 ikm None TRANSPORT);
  key2 ← unwrap (derive_key_256 ikm None KEYSTORE);
  assert_ne key1 key2.

Definition test_different_salts_different_keys : Result unit :=
  let ikm := bytes_of "same input" in
  key1 ← unwrap (derive_key_256 ikm (Some (bytes_of "salt-a")) TRANSPORT);
  key2 ← unwrap (derive_key_256 ikm (Some (bytes_of "salt-b")) TRANSPORT);
  assert_ne key1 key2.

Definition test_derive_key_pair : Result unit :=
  let ikm := bytes_of "key exchange result" in
  '(enc, auth) ← unwrap (derive_key_pair ikm None TRANSPORT);
  _ ← assert_ne enc auth;
  _ ← assert_eq (length (vec_to_list enc)) 32;
  assert_eq (length (vec_to_list auth)) 32.

Definition test_ratchet_key_produces_different_key : Result unit :=
  let key := vreplicate 32 Byte.x2a in
  next ← unwrap (ratchet_key key);
  assert_ne key next.

Definition test_ratchet_is_deterministic : Result unit :=
  let key := vreplicate 32 Byte.x2a in
  next1 ← unwrap (ratchet_key key);
  next2 ← unwrap (ratchet_key key);
  assert_eq next1 next2.

Definition test_ratchet_chain_is_one_way : Result unit :=
  let key0 := vreplicate 32 Byte.x01 in
  key1 ← unwrap (ratchet_key key0);
  key2 ← unwrap (ratchet_key key1);
  _ ← assert_ne key0 key1;
  _ ← assert_ne key1 key2;
  assert_ne key0 key2.

Definition test_zero_length_rejected : Result unit :=
  assert_err (derive_key (bytes_of "ikm") None (bytes_of "info") 0).

Definition test_excessive_length_rejected : Result unit :=
  assert_err (derive_key (bytes_of "ikm") None (bytes_of "info") (Z.to_nat 10000)).

Fixpoint variable_output_lengths (lens : list nat) : Result unit :=
  match lens with
  | [] => Ok tt
  | len :: lens =>
      key ← unwrap (derive_key (bytes_of "ikm") None (bytes_of "info") len);
      _ ← assert_eq (length key) len;
      variable_output_lengths lens
  end.

Definition test_variable_output_lengths : Result unit := variable_output_lengths [16; 32; 48; 64; 128].

End kdf_tests.

(** ** [aead.rs] *)

(** [b ^= 0xFF] *)
Definition flip (b : byte) : byte := default b (Byte.of_N (N.lxor (Byte.to_N b) 255)).

Section aead_tests.
Context `{C : Cipher}.

Definition test_encrypt_decrypt_roundtrip (nonce : vec byte NONCE_SIZE) (key : vec byte 32) : Result unit :=
  let plaintext := bytes_of "hello omnimesh crypto" in
  encrypted ← unwrap (aead_encrypt nonce key plaintext);
  decrypted ← unwrap (aead_decrypt key encrypted);
  assert_eq decrypted plaintext.

Definition test_different_keys_fail (nonce : vec byte NONCE_SIZE) (key1 key2 : vec byte 32) : Result unit :=
  encrypted ← unwrap (aead_encrypt nonce key1 (bytes_of "secret data"));
  assert_err (aead_decrypt key2 encrypted).

Definition test_tampered_ciphertext_fails (nonce : vec byte NONCE_SIZE) (key : vec byte 32) : Result unit :=
  encrypted ← unwrap (aead_encrypt nonce key (bytes_of "integrity check"));
  let last := length encrypted - 1 in
  b ← unwrap_none (encrypted !! last);
  assert_err (aead_decrypt key (<[last := flip b]> encrypted)).

Definition test_empty_plaintext (nonce : vec byte NONCE_SIZE) (key : vec byte 32) : Result unit :=
  encrypted ← unwrap (aead_encrypt nonce key []);
  decrypted ← unwrap (aead_decrypt key encrypted);
  assert_eq decrypted [].

Definition test_short_ciphertext_rejected (key : vec byte 32) : Result unit :=
  assert_err (aead_decrypt key (replicate 10 Byte.x00)).

Definition test_explicit_nonce_deterministic (key : vec byte 32) : Result unit :=
  let nonce := vreplicate NONCE_SIZE Byte.x2a in
  let plaintext := bytes_of "deterministic" in
  enc1 ← unwrap (encrypt_with_nonce key nonce plaintext);
  enc2 ← unwrap (encrypt_with_nonce key nonce plaintext);
  assert_eq enc1 enc2.

Definition test_output_size (nonce : vec byte NONCE_SIZE) (key : vec byte 32) : Result unit :=
  let plaintext := bytes_of "size check" in
  encrypted ← unwrap (aead_encrypt nonce key plaintext);
  assert_eq (length encrypted) (NONCE_SIZE + length plaintext + TAG_SIZE).

End aead_tests.

(** ** [channel.rs] *)

Section channel_tests.
Context `{K : Hkdf, C : Cipher, O : OverflowChecks}.

Definition create_channel_pair : Result (SecureChannel * SecureChannel) :=
  let secret := vreplicate 32 Byte.x2a in
  a ← unwrap (channel_new secret true);
  b ← unwrap (channel_new secret false);
  Ok (a, b).

(** One message, sent, received and compared. *)
Definition channel_exchange (nonce : vec byte NONCE_SIZE) (msg : list byte) (from to : SecureChannel)
    : Result (SecureChannel * SecureChannel) :=
  '(ct, from) ← unwrap_st (channel_encrypt nonce msg from);
  '(pt, to) ← unwrap_st (channel_decrypt ct to);
  _ ← assert_eq pt msg;
  Ok (from, to).

Definition test_channel_roundtrip (nonce : vec byte NONCE_SIZE) : Result unit :=
  '(a, b) ← create_channel_pair;
  _ ← channel_exchange nonce (bytes_of "hello bob") a b;
  Ok tt.

Definition test_channel_bidirectional (nonce1 nonce2 : vec byte NONCE_SIZE) : Result unit :=
  '(a, b) ← create_channel_pair;
  '(a, b) ← channel_exchange nonce1 (bytes_of "from alice") a b;
  _ ← channel_exchange nonce2 (bytes_of "from bob") b a;
  Ok tt.

Fixpoint channel_messages (nonce : nat → vec byte NONCE_SIZE) (ids : list nat) (a b : SecureChannel)
    : Result (SecureChannel * SecureChannel) :=
  match ids with
  | [] => Ok (a, b)
  | i :: ids =>
      '(a, b) ← channel_exchange (nonce i) (bytes_of ("message " +:+ pretty i)) a b;
      channel_messages nonce ids a b
  end.

Definition test_channel_ratcheting (nonce : nat → vec byte NONCE_SIZE) : Result unit :=
  '(a, b) ← create_channel_pair;
  '(a, b) ← channel_messages nonce (seq 0 5) a b;
  _ ← assert_eq (send_count a) 5%Z;
  assert_eq (recv_count b) 5%Z.

Definition test_channel_replay_fails (nonce : vec byte NONCE_SIZE) : Result unit :=
  '(a, b) ← create_channel_pair;
  '(ct, a) ← unwrap_st (channel_encrypt nonce (bytes_of "first message") a);
  '(_pt, b) ← unwrap_st (channel_decrypt ct b);
  assert_err (channel_decrypt ct b).1.

Definition test_channel_wrong_direction_fails (nonce : vec byte NONCE_SIZE) : Result unit :=
  '(a, _b) ← create_channel_pair;
  '(ct, a) ← unwrap_st (channel_encrypt nonce (bytes_of "from alice") a);
  assert_err (channel_decrypt ct a).1.

Definition test_channel_counters (nonce : vec byte NONCE_SIZE) : Result unit :=
  '(a, b) ← create_channel_pair;
  _ ← assert_eq (send_count a) 0%Z;
  _ ← assert_eq (messages_remaining a) REKEY_THRESHOLD;
  '(ct, a) ← unwrap_st (channel_encrypt nonce (bytes_of "test") a);
  '(_, b) ← unwrap_st (channel_decrypt ct b);
  _ ← assert_eq (send_count a) 1%Z;
  assert_eq (recv_count b) 1%Z.

Definition test_channel_debug_redacts_keys : Result unit :=
  '(a, _b) ← create_channel_pair;
  assert (contains "[REDACTED]" (channel_debug a)).

End channel_tests.

(** ** [noise.rs] *)

Section noise_tests.
Context `{N : Snow}.

(** A handshake message, written by one side and read by the other. *)
Definition handshake_turn (from to : NoiseHandshake) : Result (NoiseHandshake * NoiseHandshake) :=
  '(msg, from) ← unwrap_st (write_message [] from);
  '(_, to) ← unwrap_st (read_message msg to);
  Ok (from, to).

(** The three messages. *)
Definition handshake_turns (initiator responder : NoiseHandshake) : Result (NoiseHandshake * NoiseHandshake) :=
  '(initiator, responder) ← handshake_turn initiator responder;
  '(responder, initiator) ← handshake_turn responder initiator;
  '(initiator, responder) ← handshake_turn initiator responder;
  _ ← assert (is_finished initiator);
  _ ← assert (is_finished responder);
  Ok (initiator, responder).

(** [ki], [kr]: the private keys drawn. *)
Definition do_handshake (ki kr : vec byte 32) : Result (NoiseTransport * NoiseTransport) :=
  initiator ← unwrap (handshake_new ki Initiator);
  responder ← unwrap (handshake_new kr Responder);
  '(initiator, responder) ← handshake_turns initiator responder;
  i_transport ← unwrap (into_transport initiator);
  r_transport ← unwrap (into_transport responder);
  Ok (i_transport, r_transport).

Definition test_noise_handshake_completes (ki kr : vec byte 32) : Result unit :=
  '(i, r) ← do_handshake ki kr;
  _ ← assert (bool_decide (is_Some (remote_static_key i)));
  assert (bool_decide (is_Some (remote_static_key r))).

(** One message, encrypted, decrypted and compared. *)
Definition noise_exchange (msg : list byte) (from to : NoiseTransport)
    : Result (NoiseTransport * NoiseTransport) :=
  '(ct, from) ← unwrap_st (noise_encrypt msg from);
  '(pt, to) ← unwrap_st (noise_decrypt ct to);
  _ ← assert_eq pt msg;
  Ok (from, to).

Definition test_noise_encrypt_decrypt (ki kr : vec byte 32) : Result unit :=
  '(i, r) ← do_handshake ki kr;
  '(i, r) ← noise_exchange (bytes_of "hello from initiator") i r;
  _ ← noise_exchange (bytes_of "hello from responder") r i;
  Ok tt.

Fixpoint noise_messages (ids : list nat) (i r : NoiseTransport) : Result unit :=
  match ids with
  | [] => Ok tt
  | n :: ids =>
      '(i, r) ← noise_exchange (bytes_of ("message " +:+ pretty n)) i r;
      noise_messages ids i r
  end.

Definition test_noise_bidirectional_multiple_messages (ki kr : vec byte 32) : Result unit :=
  '(i, r) ← do_handshake ki kr;
  noise_messages (seq 0 10) i r.

Definition test_noise_tampered_ciphertext_fails (ki kr : vec byte 32) : Result unit :=
  '(i, r) ← do_handshake ki kr;
  '(ct, i) ← unwrap_st (noise_encrypt (bytes_of "sensitive data") i);
  b ← unwrap_none (ct !! 0);
  assert_err (noise_decrypt (<[0 := flip b]> ct) r).1.

Definition test_into_transport_before_complete_fails (ki : vec byte 32) : Result unit :=
  handshake ← unwrap (handshake_new ki Initiator);
  _ ← assert (negb (is_finished handshake));
  assert_err (into_transport handshake).

Definition test_with_keypair (kr : vec byte 32) : Result unit :=
  let private_key := vreplicate 32 Byte.x2a in
  init ← unwrap (with_keypair Initiator private_key);
  resp ← unwrap (handshake_new kr Responder);
  _ ← handshake_turns init resp;
  Ok tt.

End noise_tests.

(** ** [keypair.rs], [peer_id.rs] and [virtual_ip.rs] *)

Section identity_tests.
Context `{D : Ed25519}.

(** [seed], [seed1], [seed2]: what the generator draws. *)
Definition test_keypair_generation (seed : vec byte 32) : Result unit :=
  let kp := kp_generate seed in
  assert_eq (length (vec_to_list (pk_bytes (kp_public_key kp)))) 32.

Definition test_sign_and_verify (seed : vec byte 32) : Result unit :=
  let kp := kp_generate seed in
  let message := bytes_of "hello omnimesh" in
  let sig := kp_sign kp message in
  _ ← assert (is_ok (kp_verify kp message sig));
  assert_err (kp_verify kp (bytes_of "wrong message") sig).

Definition test_cross_keypair_verify_fails (seed1 seed2 : vec byte 32) : Result unit :=
  let kp1 := kp_generate seed1 in
  let kp2 := kp_generate seed2 in
  let message := bytes_of "test" in
  assert_err (pk_verify (kp_public_key kp2) message (kp_sign kp1 message)).

Definition test_keypair_from_seed_deterministic : Result unit :=
  let seed := vreplicate 32 Byte.x2a in
  let kp1 := kp_from_seed seed in
  let kp2 := kp_from_seed seed in
  _ ← assert_eq (kp_public_key kp1) (kp_public_key kp2);
  let message := bytes_of "deterministic test" in
  assert_eq (kp_sign kp1 message) (kp_sign kp2 message).

Definition test_keypair_debug_redacts_secret `{T : TextCodecs} (seed : vec byte 32) : Result unit :=
  let kp := kp_generate seed in
  let debug := kp_debug kp in
  _ ← assert (contains "[REDACTED]" debug);
  assert (negb (contains (hex_encode (vec_to_list (kp_seed kp))) debug)).

Definition test_public_key_hex_roundtrip `{T : TextCodecs} (seed : vec byte 32) : Result unit :=
  let kp := kp_generate seed in
  assert_eq (String.length (pk_to_hex (kp_public_key kp))) 64.

Definition test_peer_id_from_keypair (seed : vec byte 32) : Result unit :=
  let kp := kp_generate seed in
  assert_eq (length (vec_to_list (as_bytes (kp_to_peer_id kp)))) 32.

Definition test_peer_id_deterministic : Result unit :=
  let seed := vreplicate 32 Byte.x63 in
  assert_eq (kp_to_peer_id (kp_from_seed seed)) (kp_to_peer_id (kp_from_seed seed)).

Definition test_peer_id_different_keys_different_ids (seed1 seed2 : vec byte 32) : Result unit :=
  assert_ne (kp_to_peer_id (kp_generate seed1)) (kp_to_peer_id (kp_generate seed2)).

Definition test_peer_id_from_public_key_matches (seed : vec byte 32) : Result unit :=
  let pk := kp_public_key (kp_generate seed) in
  assert_eq (pk_to_peer_id pk) (peer_id_from_public_key_bytes (pk_bytes pk)).

Definition test_peer_id_is_raw_key (seed : vec byte 32) : Result unit :=
  let pk := kp_public_key (kp_generate seed) in
  assert_eq (as_bytes (pk_to_peer_id pk)) (pk_bytes pk).

End identity_tests.

Definition octet (v : VirtualIp) (i : nat) : Result byte := unwrap_none (vec_to_list (vip_addr v) !! i).

Definition test_virtual_ip_from_peer_id : Result unit :=
  vip ← from_peer_id (from_bytes (vreplicate 32 Byte.xaa));
  o0 ← octet vip 0; _ ← assert_eq o0 Byte.xfd;
  o1 ← octet vip 1; _ ← assert_eq o1 Byte.x4f;
  o2 ← octet vip 2; _ ← assert_eq o2 Byte.x4d;
  o3 ← octet vip 3; _ ← assert_eq o3 Byte.x00;
  o4 ← octet vip 4; assert_eq o4 Byte.xaa.

Definition test_virtual_ip_deterministic : Result unit :=
  let peer_id := from_bytes (vreplicate 32 Byte.x2a) in
  vip1 ← from_peer_id peer_id;
  vip2 ← from_peer_id peer_id;
  assert_eq vip1 vip2.

Definition test_virtual_ip_unique_per_peer : Result unit :=
  vip1 ← from_peer_id (from_bytes (vreplicate 32 Byte.x01));
  vip2 ← from_peer_id (from_bytes (vreplicate 32 Byte.x02));
  assert_ne vip1 vip2.

(** The second address is [2001:db8::1]. *)
Definition test_is_omnimesh_address : Result unit :=
  vip ← from_peer_id (from_bytes (vreplicate 32 Byte.xff));
  _ ← assert (is_omnimesh_address (vip_addr vip));
  let non_mesh : vec byte 16 :=
    [# Byte.x20; Byte.x01; Byte.x0d; Byte.xb8; Byte.x00; Byte.x00; Byte.x00; Byte.x00;
       Byte.x00; Byte.x00; Byte.x00; Byte.x00; Byte.x00; Byte.x00; Byte.x00; Byte.x01] in
  assert (negb (is_omnimesh_address non_mesh)).

Definition test_virtual_ip_display : Result unit :=
  vip ← from_peer_id (from_bytes (vreplicate 32 Byte.x00));
  assert (starts_with "fd4f:4d00:" (vip_display vip)).

(** ** [keystore.rs] *)

(** [passphrase.as_bytes()]; the directory is fresh, so the file system starts empty. *)
Definition test_store (dir : string) : FileKeyStore := mkKeyStore (mkPath (Some dir) "test" (Some "key"%string)).

Section keystore_tests.
Context `{K : Hkdf, C : Cipher, D : Ed25519, J : KeyJson}.
Variables (dir : string) (seed salt : vec byte 32) (nonce : vec byte 12) (now : string).

Definition stored (store : FileKeyStore) (kp : Keypair) (passphrase : string) : Result files :=
  step_ok (ks_store salt nonce now no_faults store kp (bytes_of passphrase) ∅).

Definition test_store_and_load : Result unit :=
  let store := test_store dir in
  let kp := kp_generate seed in
  fs ← stored store kp "test-passphrase-123";
  _ ← assert (ks_exists store fs);
  loaded ← unwrap (ks_load store (bytes_of "test-passphrase-123") fs);
  assert_eq (kp_to_peer_id loaded) (kp_to_peer_id kp).

Definition test_wrong_passphrase_fails : Result unit :=
  let store := test_store dir in
  fs ← stored store (kp_generate seed) "correct-passphrase";
  assert_err (ks_load store (bytes_of "wrong-passphrase") fs).

Definition test_nonexistent_file : Result unit :=
  let store := test_store dir in
  _ ← assert (negb (ks_exists store ∅));
  assert_err (ks_load store (bytes_of "any") ∅).

Definition test_delete : Result unit :=
  let store := test_store dir in
  fs ← stored store (kp_generate seed) "pass";
  _ ← assert (ks_exists store fs);
  fs ← step_ok (ks_delete no_faults store fs);
  assert (negb (ks_exists store fs)).

Definition test_store_creates_parent_dirs : Result unit :=
  let store := mkKeyStore (mkPath (Some (dir +:+ "/deep/nested")) "key" (Some "json"%string)) in
  fs ← stored store (kp_generate seed) "pass";
  assert (ks_exists store fs).

Definition test_different_salts_produce_different_keys : Result unit :=
  let salt1 := vreplicate 32 Byte.x01 in
  let salt2 := vreplicate 32 Byte.x02 in
  key1 ← ks_derive_key (bytes_of "same-pass") salt1;
  key2 ← ks_derive_key (bytes_of "same-pass") salt2;
  assert_ne key1 key2.

End keystore_tests.

(** ** What works *)

#[local] Ltac run := cbn [unwrap unwrap_st unwrap_none or_panic mbind result_bind fst snd].

(** A plaintext of a test is within the limits. *)
#[local] Ltac small := vm_compute; congruence.

Section kdf_pass.
Context `{K : Hkdf, !HkdfLaws K}.

Lemma output_lengths lens : Forall (λ n, 1 ≤ n ≤ 255 * 32) lens → variable_output_lengths lens = Ok tt.
Proof.
  induction 1 as [|n lens Hn _ IH]; [done|]. cbn [variable_output_lengths].
  destruct (derive_key_ok (bytes_of "ikm") None (bytes_of "info") n Hn) as (out & -> & L). run.
  rewrite L, assert_refl. run. exact IH.
Qed.

Lemma kdf_pass : Forall (λ t, t = Ok tt)
  [test_derive_key_deterministic; test_ratchet_is_deterministic; test_zero_length_rejected;
   test_excessive_length_rejected; test_variable_output_lengths].
Proof.
  repeat first [apply Forall_nil_2|apply Forall_cons_2].
  - unfold test_derive_key_deterministic.
    destruct (derive_key_ok (bytes_of "input keying material") (Some (bytes_of "some salt")) TRANSPORT 32)
      as (out & -> & L); [lia|]. run. by rewrite L, !assert_refl.
  - unfold test_ratchet_is_deterministic. destruct (ratchet_key_ok (vreplicate 32 Byte.x2a)) as [k ->].
    run. apply assert_refl.
  - done.
  - unfold test_excessive_length_rejected.
    pose proof (derive_key_spec (bytes_of "ikm") None (bytes_of "info") (Z.to_nat 10000)) as H.
    rewrite decide_False in H by lia. by destruct H as [msg ->].
  - apply output_lengths. repeat constructor; lia.
Qed.

End kdf_pass.

Section aead_pass.
Context `{C : Cipher, !CipherLaws C}.

Lemma aead_pass nonce key : Forall (λ t, t = Ok tt)
  [test_encrypt_decrypt_roundtrip nonce key; test_empty_plaintext nonce key;
   test_short_ciphertext_rejected key; test_explicit_nonce_deterministic key;
   test_output_size nonce key].
Proof.
  repeat first [apply Forall_nil_2|apply Forall_cons_2].
  - unfold test_encrypt_decrypt_roundtrip.
    destruct (aead_encrypt_ok nonce key (bytes_of "hello omnimesh crypto")) as (ct & E & _); [small|].
    rewrite E. run. rewrite (aead_decrypt_encrypt _ _ _ _ E). run. apply assert_refl.
  - unfold test_empty_plaintext. destruct (aead_encrypt_ok nonce key []) as (ct & E & _); [small|].
    rewrite E. run. by rewrite (aead_decrypt_encrypt _ _ _ _ E).
  - done.
  - unfold test_explicit_nonce_deterministic.
    destruct (aead_encrypt_ok (vreplicate NONCE_SIZE Byte.x2a) key (bytes_of "deterministic"))
      as (ct & E & _); [small|].
    change (aead_encrypt ?n ?k ?p) with (encrypt_with_nonce k n p) in E. rewrite E. run. apply assert_refl.
  - unfold test_output_size. destruct (aead_encrypt_ok nonce key (bytes_of "size check")) as (ct & E & L); [small|].
    rewrite E. run. rewrite L. apply assert_refl.
Qed.

End aead_pass.

Section channel_pass.
Context `{K : Hkdf, !HkdfLaws K, C : Cipher, !CipherLaws C, O : OverflowChecks}.

(** [b] reads what [a] writes, [n] messages into the conversation. *)
Definition channel_pair (n : Z) (a b : SecureChannel) : Prop :=
  channel_ok a ∧ channel_ok b ∧ send_key a = recv_key b ∧ (send_counter a = n ∧ recv_counter b = n)%Z.

Lemma channel_message n nonce pt a b :
  channel_pair n a b → (n < REKEY_THRESHOLD)%Z → fits pt →
  ∃ ct, channel_encrypt nonce pt a = (Ok ct, sent_state a) ∧
    channel_decrypt ct b = (Ok pt, received_state b) ∧
    channel_pair (n + 1) (sent_state a) (received_state b).
Proof.
  intros (Ha & Hb & Hk & Hn & Hm) Hlt Hf.
  destruct (channel_encrypt_cases nonce pt a Ha) as [[? _]|[_ He]]; [lia|].
  destruct (aead_encrypt_ok nonce (send_key a) pt Hf) as (ct & Ect & _). rewrite Ect in He. exists ct.
  destruct (channel_decrypt_cases ct b Hb) as [[? _]|[_ Hd]]; [lia|].
  rewrite <- Hk, (aead_decrypt_encrypt _ _ _ _ Ect) in Hd. split_and!; [done..|].
  destruct Ha, Hb. unfold channel_pair, channel_ok, sent_state, received_state. cbn.
  rewrite Hk. split_and!; try done; lia.
Qed.

Lemma channel_exchange_ok n nonce pt a b :
  channel_pair n a b → (n < REKEY_THRESHOLD)%Z → fits pt →
  channel_exchange nonce pt a b = Ok (sent_state a, received_state b) ∧
  channel_pair (n + 1) (sent_state a) (received_state b).
Proof.
  intros Hp Hn Hf. destruct (channel_message n nonce pt a b Hp Hn Hf) as (ct & He & Hd & Hp').
  split; [|done]. unfold channel_exchange. rewrite He. run. rewrite Hd. run. by rewrite assert_refl.
Qed.

Lemma create_channel_pair_ok :
  ∃ a b, create_channel_pair = Ok (a, b) ∧ channel_pair 0 a b ∧ channel_pair 0 b a.
Proof.
  unfold create_channel_pair. destruct (channel_new_spec (vreplicate 32 Byte.x2a)) as (x & y & -> & ->).
  run. eexists _, _. split; [done|].
  split; (split_and!; [unfold channel_ok, REKEY_THRESHOLD; cbn; lia..|done|done|done]).
Qed.

Lemma channel_messages_ok nonce ids n a b :
  channel_pair n a b → (n + Z.of_nat (length ids) ≤ REKEY_THRESHOLD)%Z →
  Forall (λ i, fits (bytes_of ("message " +:+ pretty i))) ids →
  ∃ a' b', channel_messages nonce ids a b = Ok (a', b') ∧ channel_pair (n + Z.of_nat (length ids)) a' b'.
Proof.
  intros Hp Hn Hf. revert n a b Hp Hn.
  induction Hf as [|i ids Hi _ IH]; intros n a b Hp Hn; cbn [channel_messages length].
  - exists a, b. by rewrite Z.add_0_r.
  - destruct (channel_exchange_ok n (nonce i) (bytes_of ("message " +:+ pretty i)) a b Hp) as [-> Hp']; [cbn in Hn; lia|done|]. run.
    destruct (IH _ _ _ Hp') as (a' & b' & E & Hp''); [cbn in Hn; lia|].
    exists a', b'. split; [done|]. by replace (n + Z.of_nat (S (length ids)))%Z
      with (n + 1 + Z.of_nat (length ids))%Z by lia.
Qed.

Lemma channel_pass nonce nonce' nonces : Forall (λ t, t = Ok tt)
  [test_channel_roundtrip nonce; test_channel_bidirectional nonce nonce';
   test_channel_ratcheting nonces; test_channel_counters nonce; test_channel_debug_redacts_keys].
Proof.
  destruct create_channel_pair_ok as (a & b & E & Hab & Hba).
  repeat first [apply Forall_nil_2|apply Forall_cons_2].
  - unfold test_channel_roundtrip. rewrite E. run.
    by destruct (channel_exchange_ok 0 nonce (bytes_of "hello bob") a b) as [-> _]; [done..|small|].
  - unfold test_channel_bidirectional. rewrite E. run.
    destruct (channel_exchange_ok 0 nonce (bytes_of "from alice") a b) as [-> _]; [done..|small|]. run.
    destruct (channel_exchange_ok 0 nonce' (bytes_of "from bob") (received_state b) (sent_state a))
      as [-> _]; [|done|small|done].
    destruct Hab as ([] & [] & _ & ? & ?), Hba as (_ & _ & ? & ? & ?).
    unfold channel_pair, channel_ok, sent_state, received_state, REKEY_THRESHOLD in *. cbn.
    split_and!; try done; lia.
  - unfold test_channel_ratcheting. rewrite E. run.
    destruct (channel_messages_ok nonces (seq 0 5) 0 a b) as (a' & b' & -> & _ & _ & _ & Hs & Hr);
      [done|small|repeat constructor; small|].
    run. unfold send_count, recv_count. rewrite Hs, Hr. done.
  - unfold test_channel_counters. rewrite E. run.
    destruct (channel_message 0 nonce (bytes_of "test") a b) as (ct & He & Hd & _ & _ & _ & Hs & Hr);
      [done..|small|].
    destruct Hab as (_ & _ & _ & H0 & _), Hba as (_ & _ & _ & _ & H0').
    unfold messages_remaining, send_count, recv_count. rewrite H0, H0'. run. rewrite He. run.
    rewrite Hd. run. rewrite Hs, Hr. done.
  - unfold test_channel_debug_redacts_keys. rewrite E. run.
    destruct Hab as (_ & _ & _ & H0 & _), Hba as (_ & _ & _ & _ & H0').
    rewrite <- (channel_debug_redacted a (vreplicate 32 Byte.x00) (vreplicate 32 Byte.x00)).
    rewrite H0, H0'. done.
Qed.

End channel_pass.

Section noise_pass.
Context `{N : Snow, L : !SnowLaws N}.

Lemma handshake_turns_ok ki kr i r :
  xx ki kr 0 i r → ∃ i' r',
    handshake_turns (as_initiator i) (as_responder r) = Ok (as_initiator i', as_responder r') ∧
    xx ki kr 3 i' r'.
Proof.
  intros H0. unfold handshake_turns, handshake_turn.
  destruct (initiator_message ki kr 0 i r [] H0) as (m1 & i1 & r1 & W1 & R1 & H1); [by left|done|].
  rewrite W1. run. rewrite R1. run.
  destruct (responder_message ki kr i1 r1 [] H1) as (m2 & i2 & r2 & W2 & R2 & H2); [done|].
  rewrite W2. run. rewrite R2. run.
  destruct (initiator_message ki kr 2 i2 r2 [] H2) as (m3 & i3 & r3 & W3 & R3 & H3); [by right|done|].
  rewrite W3. run. rewrite R3. run.
  destruct (xx_is_finished _ _ _ _ H3) as [-> ->]. by exists i3, r3.
Qed.

Lemma do_handshake_ok ki kr :
  ∃ i r, do_handshake ki kr = Ok (i, r) ∧ transports_in_step i r ∧
    remote_static_key i = Some (static_public kr) ∧ remote_static_key r = Some (static_public ki).
Proof.
  destruct (with_keypair_ok ki kr) as (i & r & Ei & Er & H0).
  destruct (handshake_turns_ok ki kr i r H0) as (i' & r' & Et & H3). unfold as_initiator, as_responder in Et.
  destruct (into_transport_ok ki kr i' r' H3) as (ti & tr & Ti & Tr & Hs & Hi & Hr).
  exists ti, tr. split; [|done]. unfold do_handshake, handshake_new. rewrite Ei. run. rewrite Er. run.
  rewrite Et. run. rewrite Ti. run. by rewrite Tr.
Qed.

Lemma noise_exchange_ok msg a b :
  transports_in_step a b → (Z.of_nat (length msg) ≤ 65519)%Z →
  ∃ a' b', noise_exchange msg a b = Ok (a', b') ∧ transports_in_step a' b'.
Proof.
  intros Hs Hl. destruct (noise_message a b msg Hs Hl) as (ct & a' & b' & Ee & Ed & Hs').
  exists a', b'. split; [|done]. unfold noise_exchange. rewrite Ee. run. rewrite Ed. run.
  by rewrite assert_refl.
Qed.

Lemma noise_messages_ok ids a b :
  transports_in_step a b →
  Forall (λ i, Z.of_nat (length (bytes_of ("message " +:+ pretty i))) ≤ 65519)%Z ids →
  noise_messages ids a b = Ok tt.
Proof.
  intros Hs Hf. revert a b Hs. induction Hf as [|i ids Hi _ IH]; intros a b Hs; [done|].
  cbn [noise_messages]. destruct (noise_exchange_ok _ a b Hs Hi) as (a' & b' & -> & Hs'). run. by apply IH.
Qed.

Lemma noise_pass ki kr : Forall (λ t, t = Ok tt)
  [test_noise_handshake_completes ki kr; test_noise_encrypt_decrypt ki kr;
   test_noise_bidirectional_multiple_messages ki kr; test_into_transport_before_complete_fails ki;
   test_with_keypair kr].
Proof.
  destruct (do_handshake_ok ki kr) as (i & r & E & Hs & Hi & Hr).
  repeat first [apply Forall_nil_2|apply Forall_cons_2].
  - unfold test_noise_handshake_completes. rewrite E. run. by rewrite Hi, Hr.
  - unfold test_noise_encrypt_decrypt. rewrite E. run.
    destruct (noise_exchange_ok (bytes_of "hello from initiator") i r Hs) as (i' & r' & -> & Hs'); [small|].
    run. destruct (noise_exchange_ok (bytes_of "hello from responder") r' i') as (? & ? & -> & _);
      [by apply transports_in_step_sym|small|done].
  - unfold test_noise_bidirectional_multiple_messages. rewrite E. run.
    apply noise_messages_ok; [done|]. repeat constructor; small.
  - unfold test_into_transport_before_complete_fails, handshake_new, is_finished, into_transport.
    destruct (with_keypair_ok ki kr) as (hi & hr & -> & _ & H0). run.
    destruct (xx_finished _ _ _ _ _ H0) as [Fi _]. cbn [hs_state]. by rewrite Fi.
  - unfold test_with_keypair, handshake_new.
    destruct (with_keypair_ok (vreplicate 32 Byte.x2a) kr) as (hi & hr & -> & Er & H0). run.
    rewrite Er. run. destruct (handshake_turns_ok _ _ _ _ H0) as (? & ? & Et & _).
    unfold as_initiator, as_responder in Et. by rewrite Et.
Qed.

End noise_pass.

Section identity_pass.
Context `{K : Hkdf, !HkdfLaws K, C : Cipher, !CipherLaws C, D : Ed25519, !Ed25519Laws D,
          J : KeyJson, !KeyJsonLaws J, T : TextCodecs, !TextCodecLaws T}.

Lemma keypair_pass seed : Forall (λ t, t = Ok tt)
  [test_keypair_generation seed; test_keypair_from_seed_deterministic; test_public_key_hex_roundtrip seed;
   test_peer_id_from_keypair seed; test_peer_id_deterministic;
   test_peer_id_from_public_key_matches seed; test_peer_id_is_raw_key seed].
Proof.
  unfold test_keypair_generation, test_keypair_from_seed_deterministic, test_public_key_hex_roundtrip,
    test_peer_id_from_keypair, test_peer_id_deterministic, test_peer_id_from_public_key_matches,
    test_peer_id_is_raw_key, pk_to_hex.
  rewrite hex_encode_length, !length_vec_to_list, !assert_refl. run.
  repeat constructor; apply assert_refl.
Qed.

Lemma stored_ok salt nonce now store kp pass :
  ∃ fs, stored salt nonce now store kp pass = Ok fs ∧ ks_exists store fs = true ∧
    ks_load store (bytes_of pass) fs = Ok kp.
Proof.
  unfold stored, step_ok.
  destruct (ks_store salt nonce now no_faults store kp (bytes_of pass) ∅) as [res fs] eqn:E.
  assert (res = Ok tt) as ->.
  { revert E. unfold ks_store, ks_store_io.
    destruct (seal_open salt nonce now kp (bytes_of pass)) as (r & -> & _). cbn [ftry].
    destruct (json_total r) as [json ->]. cbn [ftry of_lib].
    destruct (p_parent (ks_path store)); cbn; unfold fs_rename; cbn [rename_fault no_faults];
      rewrite lookup_insert_eq; cbn; by intros [= <- _]. }
  destruct (ks_store_sealed _ _ _ _ _ _ _ _ _ E) as (json & r & Hf & Hj & Ho).
  run. exists fs. split_and!; [done|by eapply ks_exists_lookup|]. by rewrite (ks_load_file _ _ _ _ _ Hf Hj).
Qed.

Lemma keystore_pass dir seed salt nonce now : Forall (λ t, t = Ok tt)
  [test_store_and_load dir seed salt nonce now; test_nonexistent_file dir;
   test_delete dir seed salt nonce now; test_store_creates_parent_dirs dir seed salt nonce now].
Proof.
  repeat first [apply Forall_nil_2|apply Forall_cons_2].
  - unfold test_store_and_load.
    destruct (stored_ok salt nonce now (test_store dir) (kp_generate seed) "test-passphrase-123")
      as (fs & -> & He & Hl). run. rewrite He. run. cbn [assert]. run. rewrite Hl. run. apply assert_refl.
  - unfold test_nonexistent_file, ks_exists, ks_load. by rewrite lookup_empty.
  - unfold test_delete.
    destruct (stored_ok salt nonce now (test_store dir) (kp_generate seed) "pass") as (fs & -> & He & _).
    run. rewrite He. run. cbn [assert]. run. unfold ks_delete. rewrite He. cbn. run.
    unfold ks_exists. rewrite lookup_delete_eq. done.
  - unfold test_store_creates_parent_dirs.
    set (store := mkKeyStore _).
    destruct (stored_ok salt nonce now store (kp_generate seed) "pass") as (fs & -> & He & _).
    run. by rewrite He.
Qed.

End identity_pass.

(** ** What is refused *)

(** A checksum of a byte string. *)
Definition mix (l : list byte) : N :=
  foldl (λ acc b, (acc * 31 + Byte.to_N b) mod 65521)%N 7%N l.

Definition byte_of (n : N) : byte := default Byte.x00 (Byte.of_N (n mod 256)).

(** An expansion that depends on salt, key material, label and position. *)
Definition mixing_hkdf : Hkdf := λ salt ikm info n,
  inr ((λ i, byte_of (mix (default [] salt ++ ikm ++ info) + N.of_nat i)) <$> seq 0 n).

#[local] Instance mixing_hkdf_laws : HkdfLaws mixing_hkdf.
Proof. intros salt ikm info n _. eexists. split; [done|]. by rewrite length_fmap, length_seq. Qed.

(** Signatures that depend on the key and on the message. *)
Definition mixing_ed25519 : Ed25519 := {|
  SigningKey := vec byte 32; VerifyingKey := vec byte 32;
  sk_from_bytes s := s; sk_to_bytes k := k; verifying_key k := k; vk_to_bytes k := k;
  vk_from_bytes b := inr b;
  sk_sign k m := vreplicate 64 (byte_of (mix (vec_to_list k ++ m)));
  vk_verify k m s := if decide (s = vreplicate 64 (byte_of (mix (vec_to_list k ++ m)))) then inr tt
                     else inl "signature error"%string;
|}.

#[local] Instance mixing_ed25519_laws : Ed25519Laws mixing_ed25519.
Proof. split; try done. intros k m. cbn [vk_verify sk_sign mixing_ed25519]. by rewrite decide_True. Qed.

(** The tests that something is refused, or that two results differ, pass with these lawful
    instances of the crates: another domain, salt or position gives another key; a wrong key,
    a changed byte, a replay, the wrong direction, the wrong passphrase, and a signature of
    another message or by another key are rejected; debug texts hide the secret. *)
Theorem refusal_tests_pass :
  let K := mixing_hkdf in let C := toy_cipher in let D := mixing_ed25519 in
  let N := toy_snow in let J := toy_json in let T := lower_hex in let O : OverflowChecks := true in
  let nonce := vreplicate 12 Byte.x05 in
  let k1 := vreplicate 32 Byte.x01 in let k2 := vreplicate 32 Byte.x02 in
  Forall (λ t, t = Ok tt)
    [test_different_domains_different_keys; test_different_salts_different_keys; test_derive_key_pair;
     test_ratchet_key_produces_different_key; test_ratchet_chain_is_one_way;
     test_different_keys_fail nonce k1 k2; test_tampered_ciphertext_fails nonce k1;
     test_channel_replay_fails nonce; test_channel_wrong_direction_fails nonce;
     test_noise_tampered_ciphertext_fails k1 k2;
     test_sign_and_verify k1; test_cross_keypair_verify_fails k1 k2;
     test_keypair_debug_redacts_secret k1; test_peer_id_different_keys_different_ids k1 k2;
     test_wrong_passphrase_fails "dir" k1 k2 nonce "now"; test_different_salts_produce_different_keys].
Proof. cbn zeta. repeat constructor; vm_compute; reflexivity. Qed.

(** The tests of virtual addresses. *)
Theorem virtual_ip_tests_pass :
  Forall (λ t, t = Ok tt)
    [test_virtual_ip_from_peer_id; test_virtual_ip_deterministic; test_virtual_ip_unique_per_peer;
     test_is_omnimesh_address; test_virtual_ip_display].
Proof. repeat constructor; vm_compute; reflexivity. Qed.

(** ** They pass *)

(** The other tests of the crypto and identity crates pass whatever is drawn at random,
    with every lawful implementation of HKDF, the cipher, Noise, Ed25519, hexadecimal text and
    the key file format, and in both build profiles: derivation, sealing, the ratcheting channel
    in both directions, the three-message handshake and the messages after it, keypairs and peer
    identifiers, and the life cycle of a stored key. *)
Theorem crypto_tests_pass `{K : Hkdf, !HkdfLaws K, C : Cipher, !CipherLaws C, N : Snow, L : !SnowLaws N,
    D : Ed25519, !Ed25519Laws D, J : KeyJson, !KeyJsonLaws J, T : TextCodecs, !TextCodecLaws T,
    O : OverflowChecks}
    nonce nonce' nonces key ki kr seed salt dir now :
  Forall (λ t, t = Ok tt)
    ([test_derive_key_deterministic; test_ratchet_is_deterministic; test_zero_length_rejected;
      test_excessive_length_rejected; test_variable_output_lengths] ++
     [test_encrypt_decrypt_roundtrip nonce key; test_empty_plaintext nonce key;
      test_short_ciphertext_rejected key; test_explicit_nonce_deterministic key;
      test_output_size nonce key] ++
     [test_channel_roundtrip nonce; test_channel_bidirectional nonce nonce';
      test_channel_ratcheting nonces; test_channel_counters nonce; test_channel_debug_redacts_keys] ++
     [test_noise_handshake_completes ki kr; test_noise_encrypt_decrypt ki kr;
      test_noise_bidirectional_multiple_messages ki kr; test_into_transport_before_complete_fails ki;
      test_with_keypair kr] ++
     [test_keypair_generation seed; test_keypair_from_seed_deterministic; test_public_key_hex_roundtrip seed;
      test_peer_id_from_keypair seed; test_peer_id_deterministic;
      test_peer_id_from_public_key_matches seed; test_peer_id_is_raw_key seed] ++
     [test_store_and_load dir seed salt nonce now; test_nonexistent_file dir;
      test_delete dir seed salt nonce now; test_store_creates_parent_dirs dir seed salt nonce now]).
Proof.
  rewrite !Forall_app. split_and!;
    [apply kdf_pass|apply aead_pass|apply channel_pass|apply noise_pass|apply keypair_pass|apply keystore_pass].
Qed.
