(* ===== verification/TestsNet.v ===== *)
(** * Tests of the routing, transport and discovery crates

    The unit tests of [routing/src], [transport/src] and [discovery/src] and the integration
    tests of [routing/tests] and [discovery/tests].  What a test leaves open (the time between two calls, the build
    profile, a generated key) is quantified over where it is proved to pass. *)

From S2P Require Import Prelude Float64 Error Types Metrics Graph Router Transport Mock Pool.
From S2P Require Import Identity Cache Config Discovery Testing.

(** [==] on [f64]. *)
Definition f64_eq (x y : f64) : bool := bool_decide (f64_partial_cmp x y = Some Eq).

(** ** Metrics *)

Definition test_composite_cost_calculation : Result unit :=
  let metrics := mkLinkMetrics (f64_of_Z 20) (f64_of_Z 2000) (f64_lit 1 2) (f64_of_Z 5) in
  assert (f64_eq (cost metrics) (f64_of_Z 20)).

Definition test_zero_bandwidth_divisor_guard : Result unit :=
  let metrics := mkLinkMetrics (f64_of_Z 10) f64_zero f64_zero f64_zero in
  assert (f64_eq (cost metrics) (f64_of_Z 100)).

Definition f64_abs (x : f64) : f64 := if f64_lt x f64_zero then f64_sub f64_zero x else x.

Definition test_metric_tracker_ema_smoothing : Result unit :=
  let tracker := tracker_new (mkLinkMetrics (f64_of_Z 10) (f64_of_Z 1000) f64_zero f64_zero) in
  let tracker := record_latency (f64_of_Z 20) tracker in
  _ ← assert (f64_eq (latency_ms (metrics tracker)) (f64_of_Z 12));
  let tracker := record_latency (f64_of_Z 20) tracker in
  assert (f64_lt (f64_abs (f64_sub (latency_ms (metrics tracker)) (f64_lit 136 10)))
            (f64_lit 1 1000000000)).

(** ** Graph and router *)

(** [dummy_peer] *)
Definition dummy_peer (val : byte) : PeerId := mkPeerId (vreplicate 32 val).

Definition latency_only (latency bandwidth : Z) : LinkMetrics :=
  mkLinkMetrics (f64_of_Z latency) (f64_of_Z bandwidth) f64_zero f64_zero.

Section graph_tests.
Context `{HP : Heap, NO : NeighbourOrder}.

(** A search; [edge_count + 2] pops are enough. *)
Definition shortest (g : RouteGraph) (a b : PeerId) : Result (option (list PeerId)) :=
  unwrap_none (find_shortest_path (edge_count g + 2) g a b).

Definition test_shortest_path_simple : Result unit :=
  let '(a, b, c) := (dummy_peer Byte.x01, dummy_peer Byte.x02, dummy_peer Byte.x03) in
  let g := add_link a b (latency_only 10 1000) graph_new in
  let g := add_link b c (latency_only 5 1000) g in
  found ← shortest g a c;
  path ← unwrap_none found;
  assert_eq path [a; b; c].

Definition test_shortest_path_selects_cheapest : Result unit :=
  let '(a, b, c, d) := (dummy_peer Byte.x01, dummy_peer Byte.x02, dummy_peer Byte.x03, dummy_peer Byte.x04) in
  let slow := latency_only 50 1000 in
  let fast := latency_only 5 1000 in
  let g := add_link b d slow (add_link a b slow graph_new) in
  let g := add_link c d fast (add_link a c fast g) in
  found ← shortest g a d;
  path ← unwrap_none found;
  assert_eq path [a; c; d].

Definition test_unreachable_node_returns_none : Result unit :=
  let '(a, b, c) := (dummy_peer Byte.x01, dummy_peer Byte.x02, dummy_peer Byte.x03) in
  let g := add_link a b (latency_only 10 1000) graph_new in
  path ← shortest g a c;
  assert_eq path None.

Definition route (r : Router) (target : PeerId) : Result (option (list PeerId)) :=
  unwrap_none (find_route (edge_count (graph r) + 2) r target).

Definition hop (r : Router) (target : PeerId) : Result (option PeerId) :=
  unwrap_none (next_hop (edge_count (graph r) + 2) r target).

(** [now]: the clock when the update is generated. *)
Definition test_router_local_link_state (now : option Z) : Result unit :=
  let '(alice, bob) := (dummy_peer Byte.x01, dummy_peer Byte.x02) in
  let router := router_new alice in
  let router := router_record_latency bob (f64_of_Z 15) router in
  let router := router_record_bandwidth bob (f64_of_Z 5000) router in
  found ← route router bob;
  path ← unwrap_none found;
  _ ← assert_eq path [alice; bob];
  update ← unwrap_none (get_link_state_update now bob router).1;
  _ ← assert_eq (lsu_source update) alice;
  _ ← assert_eq (lsu_destination update) bob;
  _ ← assert (f64_eq (latency_ms (lsu_metrics update)) (f64_of_Z 11));
  assert_eq (lsu_sequence update) 1%Z.

Definition test_router_process_gossip_sequence : Result unit :=
  let '(alice, bob, charlie) := (dummy_peer Byte.x01, dummy_peer Byte.x02, dummy_peer Byte.x03) in
  let router := router_new alice in
  let u (sequence : Z) := mkUpdate bob charlie LinkMetrics_default sequence 100 in
  let '(b, router) := process_link_state_update (u 5%Z) router in
  _ ← assert b;
  let '(b, router) := process_link_state_update (u 3%Z) router in
  _ ← assert (negb b);
  let '(b, router) := process_link_state_update (u 5%Z) router in
  _ ← assert (negb b);
  assert (process_link_state_update (u 6%Z) router).1.

Definition test_topology_routing_convergence : Result unit :=
  let '(alice, bob, charlie, dave) :=
    (dummy_peer Byte.x01, dummy_peer Byte.x02, dummy_peer Byte.x03, dummy_peer Byte.x04) in
  let router := router_new alice in
  let router := router_record_latency bob (f64_of_Z 10) router in
  let router := router_record_latency charlie (f64_of_Z 40) router in
  let '(b, router) := process_link_state_update (mkUpdate bob dave (latency_only 10 10000) 1 100) router in
  _ ← assert b;
  let '(b, router) := process_link_state_update (mkUpdate charlie dave (latency_only 5 10000) 1 100) router in
  _ ← assert b;
  found ← route router dave;
  path ← unwrap_none found;
  _ ← assert_eq path [alice; bob; dave];
  next ← hop router dave;
  _ ← assert_eq next (Some bob);
  let '(b, router) := process_link_state_update (mkUpdate bob dave (latency_only 100 10000) 2 105) router in
  _ ← assert b;
  found ← route router dave;
  path2 ← unwrap_none found;
  _ ← assert_eq path2 [alice; charlie; dave];
  next ← hop router dave;
  assert_eq next (Some charlie).

End graph_tests.

(** ** Connection pool *)

Definition local_port (port : Z) : SocketAddr :=
  mkSocketAddr (IPv4 [# Byte.x7f; Byte.x00; Byte.x00; Byte.x01]) port.

Definition make_info (id : byte) : ConnectionInfo :=
  mkInfo (dummy_peer id) (local_port (1000 + Z.of_N (Byte.to_N id))) Connected 0 0 0.

Definition test_insert_and_get : Result unit :=
  let info := make_info Byte.x01 in
  pool ← step_ok (pool_insert info (pool_new 10));
  _ ← assert_eq (pool_len pool) 1;
  assert (pool_is_connected pool (ci_peer_id info)).

Definition test_remove : Result unit :=
  let info := make_info Byte.x02 in
  pool ← step_ok (pool_insert info (pool_new 10));
  assert (pool_is_empty (pool_remove (ci_peer_id info) pool).2).

Definition test_capacity_limit : Result unit :=
  pool ← step_ok (pool_insert (make_info Byte.x01) (pool_new 2));
  pool ← step_ok (pool_insert (make_info Byte.x02) pool);
  assert_err (pool_insert (make_info Byte.x03) pool).1.

Definition test_connected_peers `{!MapIter PeerId ConnectionInfo} : Result unit :=
  pool ← step_ok (pool_insert (make_info Byte.x01) (pool_new 10));
  pool ← step_ok (pool_insert (make_info Byte.x02) pool);
  assert_eq (length (connected_peers pool)) 2.

Definition test_update_state : Result unit :=
  let info := make_info Byte.x05 in
  pool ← step_ok (pool_insert info (pool_new 10));
  let pool := update_state (ci_peer_id info) Disconnected pool in
  assert (negb (pool_is_connected pool (ci_peer_id info))).

Definition test_bytes_tracking `{O : OverflowChecks} : Result unit :=
  let info := make_info Byte.x03 in
  pool ← step_ok (pool_insert info (pool_new 10));
  pool ← step_ok (record_bytes_sent (ci_peer_id info) 100 pool);
  pool ← step_ok (record_bytes_received (ci_peer_id info) 200 pool);
  retrieved ← unwrap_none (pool_get pool (ci_peer_id info));
  _ ← assert_eq (ci_bytes_sent retrieved) 100%Z;
  assert_eq (ci_bytes_received retrieved) 200%Z.

(** ** Mock transport *)

(** [recv().await.unwrap().unwrap()] and the comparison that follows. *)
Definition expect_recv (c : MockConnection) (data : list byte) : io MockWorld (Result MockConnection) :=
  '(r, c) ← mock_recv c;
  io_try (unwrap r) (λ got,
  io_try (unwrap_none got) (λ received,
  io_try (assert_eq received data) (λ _, mret (Ok c)))).

Definition test_mock_connect_and_send : io MockWorld (Result unit) :=
  let server_addr := local_port 9999 in
  '(r, server) ← mock_listen server_addr mock_new;
  io_try (unwrap r) (λ _,
  '(r, client) ← mock_connect server_addr mock_new;
  io_try (unwrap r) (λ client_conn,
  '(r, server) ← mock_accept server;
  io_try (unwrap r) (λ server_conn,
  '(r, client_conn) ← mock_send (bytes_of "hello") client_conn;
  io_try (unwrap r) (λ _,
  r ← expect_recv server_conn (bytes_of "hello");
  io_try r (λ server_conn,
  '(r, server_conn) ← mock_send (bytes_of "world") server_conn;
  io_try (unwrap r) (λ _,
  r ← expect_recv client_conn (bytes_of "world");
  io_try r (λ _, mret (Ok tt)))))))).

(** The loop over the clients; each connection is dropped at the end of its round. *)
Fixpoint mock_clients (server_addr : SocketAddr) (server : MockTransport) (ids : list nat)
    : io MockWorld (Result unit) :=
  match ids with
  | [] => mret (Ok tt)
  | i :: ids =>
      '(r, client) ← mock_connect server_addr mock_new;
      io_try (unwrap r) (λ conn,
      '(r, server) ← mock_accept server;
      io_try (unwrap r) (λ srv_conn,
      let msg := bytes_of ("client-" +:+ pretty i) in
      '(r, conn) ← mock_send msg conn;
      io_try (unwrap r) (λ _,
      r ← expect_recv srv_conn msg;
      io_try r (λ srv_conn,
      _ ← (λ w, Some (tt, drop_conn conn (drop_conn srv_conn w)));
      mock_clients server_addr server ids))))
  end.

Definition test_mock_multiple_clients : io MockWorld (Result unit) :=
  let server_addr := local_port 8888 in
  '(r, server) ← mock_listen server_addr mock_new;
  io_try (unwrap r) (λ _, mock_clients server_addr server [0; 1; 2]).

Definition test_mock_connect_no_listener_fails : io MockWorld (Result unit) :=
  '(r, client) ← mock_connect (local_port 7777) mock_new;
  mret (assert_err r).

Definition test_mock_close_connection : io MockWorld (Result unit) :=
  let addr := local_port 6666 in
  '(r, server) ← mock_listen addr mock_new;
  io_try (unwrap r) (λ _,
  '(r, client) ← mock_connect addr mock_new;
  io_try (unwrap r) (λ conn,
  io_try (assert (mc_connected conn)) (λ _,
  '(r, conn) ← mock_close conn;
  io_try (unwrap r) (λ _, mret (assert (negb (mc_connected conn))))))).

(** ** Discovery *)

(** [t1] to [t4]: the clock at each call. *)
Definition test_cache_expiration (t1 t2 t3 t4 : Z) : Result unit :=
  let peer_id := dummy_peer Byte.x07 in
  let addr := local_port 1234 in
  let c := insert_with_ttl t1 peer_id addr 0 cache_new in
  _ ← assert_eq (cache_lookup t2 peer_id c) [];
  let c := insert_with_ttl t3 peer_id addr (10 * 1000000000) c in
  assert_eq (cache_lookup t4 peer_id c) [addr].

Definition test_cache_deduplication (t1 t2 t3 : Z) : Result unit :=
  let peer_id := dummy_peer Byte.x09 in
  let addr := local_port 1234 in
  let c := cache_insert t2 peer_id addr (cache_insert t1 peer_id addr cache_new) in
  assert_eq (length (cache_lookup t3 peer_id c)) 1.

(** [lkp_public]: [identity::Keypair::public], of the libp2p crate. *)
Definition test_key_conversions `{P : Libp2p, D : Ed25519, !EqDecision LPeerId}
    (lkp_public : LKeypair → LPublicKey) (kp : Keypair) : Result unit :=
  let peer_id := kp_to_peer_id kp in
  libp2p_kp ← unwrap (to_libp2p_keypair kp);
  let libp2p_peer_id_from_kp := peer_id_of_public (lkp_public libp2p_kp) in
  libp2p_peer_id ← unwrap (to_libp2p_peer_id peer_id);
  _ ← assert_eq libp2p_peer_id libp2p_peer_id_from_kp;
  recovered ← unwrap (from_libp2p_peer_id libp2p_peer_id);
  assert_eq recovered peer_id.

(** ** They pass *)

(** The tests of the routing crate pass, at any time of the clock. *)
Theorem routing_tests_pass now :
  let HP := list_heap in let NO := default_order in
  Forall (λ t, t = Ok tt)
    [test_composite_cost_calculation; test_zero_bandwidth_divisor_guard;
     test_metric_tracker_ema_smoothing; test_shortest_path_simple;
     test_shortest_path_selects_cheapest; test_unreachable_node_returns_none;
     test_router_local_link_state now; test_router_process_gossip_sequence;
     test_topology_routing_convergence].
Proof. cbn zeta. repeat constructor; vm_compute; reflexivity. Qed.

(** The tests of the transport crate pass, in both build profiles and whatever order the
    pool iterates in. *)
Theorem transport_tests_pass `{O : OverflowChecks} `{I : !MapIter PeerId ConnectionInfo, !MapIterLaws I} :
  Forall (λ t, t = Ok tt)
    [test_insert_and_get; test_remove; test_capacity_limit; test_connected_peers;
     test_update_state; test_bytes_tracking] ∧
  Forall (λ t, fst <$> t world_new = Some (Ok tt))
    [test_mock_connect_and_send; test_mock_multiple_clients; test_mock_connect_no_listener_fails;
     test_mock_close_connection].
Proof.
  assert (Hl : ∀ pool, length (connected_peers pool) = length (@connected_peers default_map_iter pool)).
  { intros pool. unfold connected_peers. rewrite !length_fmap.
    apply Permutation_length, filter_Permutation, map_iter_perm. }
  assert (Hc : test_connected_peers = Ok tt).
  { assert (Hd : @test_connected_peers default_map_iter = Ok tt) by (vm_compute; reflexivity).
    rewrite <- Hd. unfold test_connected_peers. do 2 (destruct (step_ok _); [|done..]; cbn [mbind result_bind]).
    by rewrite Hl. }
  split.
  - repeat first [apply Forall_nil_2|apply Forall_cons_2]; try exact Hc; try (vm_compute; reflexivity).
  - repeat constructor; vm_compute; reflexivity.
Qed.

(** The first address of a peer. *)
Lemma first_insert t now p a ttl :
  cache_lookup t p (insert_with_ttl now p a ttl cache_new) = if decide (t < now + ttl)%Z then [a] else [].
Proof. rewrite lookup_insert_ttl, (decide_True (P := p = p)) by done. done. Qed.

(** The tests of the discovery crate pass, for every key, and for every clock that does not
    go back and moves on by less than the lifetimes between the calls. *)
Theorem discovery_tests_pass `{P : Libp2p, !Libp2pLaws P, D : Ed25519, !EqDecision LPeerId}
    (lkp_public : LKeypair → LPublicKey) kp t1 t2 t3 t4 :
  (∀ bytes : vec byte 64,
     vec_to_list bytes = vec_to_list (kp_seed kp) ++ vec_to_list (pk_bytes (kp_public_key kp)) →
     ∃ k, keypair_try_from_bytes bytes = inr k ∧
       public_try_from_bytes (pk_bytes (kp_public_key kp)) = inr (lkp_public k)) →
  (t1 ≤ t2 ≤ t3)%Z → (t3 ≤ t4 < t3 + 10 * 1000000000)%Z →
  test_key_conversions lkp_public kp = Ok tt ∧ test_cache_expiration t1 t2 t3 t4 = Ok tt ∧
  test_cache_deduplication t2 t3 t4 = Ok tt.
Proof.
  intros Hk H12 H34. split_and!.
  - unfold test_key_conversions, to_libp2p_keypair.
    destruct (array_of_list_length 64 (vec_to_list (kp_seed kp) ++ vec_to_list (pk_bytes (kp_public_key kp))))
      as [bytes E]; [by rewrite length_app, !length_vec_to_list|].
    rewrite E. cbn [or_panic mbind result_bind]. apply array_of_list_Some in E as Eb.
    destruct (Hk _ Eb) as (k & -> & Ep).
    assert (Ei : as_bytes (kp_to_peer_id kp) = pk_bytes (kp_public_key kp)) by done.
    cbn [or_panic of_lib unwrap mbind result_bind]. unfold to_libp2p_peer_id. rewrite Ei, Ep.
    cbn [of_lib unwrap mbind result_bind].
    rewrite assert_refl. cbn [mbind result_bind].
    unfold from_libp2p_peer_id. rewrite (identity_multihash _ _ Ep), decide_False by (intros H; by apply H).
    rewrite (protobuf_roundtrip _ _ Ep). cbn [of_lib unwrap mbind result_bind].
    rewrite (ed25519_roundtrip _ _ Ep). cbn [of_lib unwrap mbind result_bind].
    apply assert_refl.
  - unfold test_cache_expiration, assert_eq. rewrite (first_insert t2), decide_False by lia.
    rewrite lookup_insert_ttl, (decide_True (P := dummy_peer _ = _)) by done.
    rewrite (first_insert t4), decide_False by lia. by rewrite decide_True by lia.
  - unfold test_cache_deduplication, cache_insert, assert_eq.
    rewrite lookup_insert_ttl, (decide_True (P := dummy_peer _ = _)) by done.
    rewrite first_insert, (decide_True (P := t4 < t3 + _)%Z) by (unfold DEFAULT_TTL; lia).
    case_decide; [rewrite filter_cons_False by (intros H'; by apply H')|]; done.
Qed.

(** ** The integration test of discovery *)

Section mdns_test.
Context `{P : Libp2p, PL : !Libp2pLaws P, SW : !Swarm P, D : Ed25519}.

Definition loopback_port (port : Z) : SocketAddr :=
  mkSocketAddr (IPv4 [# Byte.x7f; Byte.x00; Byte.x00; Byte.x01]) port.

(** Two services with the address each registers, on the default configuration. *)
Definition discovery_pair (E : Surroundings) (kp_alice kp_bob : Keypair)
    : Result (DiscoveryService * DiscoveryService) :=
  config_alice ← Config_default E;
  config_bob ← Config_default E;
  service_alice ← unwrap (discovery_new config_alice kp_alice 0);
  service_bob ← unwrap (discovery_new config_bob kp_bob 0);
  ra ← unwrap_none (register_local_address (loopback_port 4433) service_alice);
  service_alice ← step_ok ra;
  rb ← unwrap_none (register_local_address (loopback_port 4434) service_bob);
  service_bob ← step_ok rb;
  Ok (service_alice, service_bob).

(** The time after a sleep, and what the tasks have made of the two services. *)
Record Nap := mkNap { nap_time : Z; nap_alice : DiscoveryService; nap_bob : DiscoveryService }.

Definition nap_discovered (id_alice id_bob : PeerId) (n : Nap) : bool :=
  bool_decide (loopback_port 4434 ∈ discovery_lookup (nap_time n) (nap_alice n) id_bob) &&
  bool_decide (loopback_port 4433 ∈ discovery_lookup (nap_time n) (nap_bob n) id_alice).

(** [naps]: the sleeps of the loop, of which it takes up to twenty. *)
Definition test_mdns_discovery_integration (E : Surroundings) (ra rb : vec byte 32)
    (naps : DiscoveryService * DiscoveryService → list Nap) : Result unit :=
  let kp_alice := kp_generate ra in
  let id_alice := kp_to_peer_id kp_alice in
  let kp_bob := kp_generate rb in
  let id_bob := kp_to_peer_id kp_bob in
  services ← discovery_pair E kp_alice kp_bob;
  match List.find (nap_discovered id_alice id_bob) (take 20 (naps services)) with
  | Some n =>
      _ ← assert (bool_decide (loopback_port 4434 ∈ discovery_lookup (nap_time n) (nap_alice n) id_bob));
      assert (bool_decide (loopback_port 4433 ∈ discovery_lookup (nap_time n) (nap_bob n) id_alice))
  | None => Panic
  end.

Lemma discovery_pair_new E ka kb a b :
  discovery_pair E ka kb = Ok (a, b) → ds_cache a = cache_new ∧ ds_cache b = cache_new.
Proof.
  unfold discovery_pair, step_ok. intros H. destruct (Config_default E) as [c| |]; [|done..]. cbn in H.
  destruct (discovery_new c ka 0) as [sa| |] eqn:Ea; [|done..].
  destruct (discovery_new c kb 0) as [sb| |] eqn:Eb; [|done..]. cbn [unwrap mbind result_bind] in H.
  apply discovery_new_ok in Ea as [Ca _], Eb as [Cb _].
  unfold register_local_address in H.
  destruct (send_command _ sa) as [[ra sa']|] eqn:Sa; [|done].
  destruct ra as [|[]]; cbn in H; [done|].
  destruct (send_command _ sb) as [[rb sb']|] eqn:Sb; [|done].
  destruct rb as [|[]]; cbn in H; [done|]. injection H as <- <-.
  by rewrite (send_command_cache _ _ _ _ Sa), (send_command_cache _ _ _ _ Sb).
Qed.

(** The swarm events the services have seen at a nap, of runs from the start. *)
Definition nap_run (services : DiscoveryService * DiscoveryService) (n : Nap)
    (logs : list (Z * SwarmEvent) * list (Z * SwarmEvent)) : Prop :=
  discovery_run services.1 (nap_time n) logs.1 (nap_alice n) ∧
  discovery_run services.2 (nap_time n) logs.2 (nap_bob n).

(** The integration test of discovery passes exactly when, at one of the first twenty polls, the
    swarm of either service has reported the address the other registered, within the time
    addresses are kept: the services neither lose nor invent an address. *)
Theorem discovery_integration_passes E ra rb naps services logs :
  discovery_pair E (kp_generate ra) (kp_generate rb) = Ok services →
  Forall2 (nap_run services) (take 20 (naps services)) logs →
  test_mdns_discovery_integration E ra rb naps = Ok tt ↔
  ∃ i n l, take 20 (naps services) !! i = Some n ∧ logs !! i = Some l ∧
    known l.1 (nap_time n) (kp_to_peer_id (kp_generate rb)) (loopback_port 4434) ∧
    known l.2 (nap_time n) (kp_to_peer_id (kp_generate ra)) (loopback_port 4433).
Proof.
  intros Es Hf. destruct services as [a b]. destruct (discovery_pair_new _ _ _ _ _ Es) as [Ca Cb].
  unfold test_mdns_discovery_integration. rewrite Es. cbn [mbind result_bind].
  set (ida := kp_to_peer_id (kp_generate ra)). set (idb := kp_to_peer_id (kp_generate rb)).
  set (l := take 20 (naps (a, b))) in *.
  assert (Hd : ∀ i n lg, l !! i = Some n → logs !! i = Some lg →
    nap_discovered ida idb n = true ↔ known lg.1 (nap_time n) idb (loopback_port 4434) ∧
      known lg.2 (nap_time n) ida (loopback_port 4433)).
  { intros i n lg Hn Hl. destruct (Forall2_lookup_lr _ _ _ _ _ _ Hf Hn Hl) as [Ra Rb].
    unfold nap_discovered. rewrite andb_true_iff, !bool_decide_eq_true. unfold discovery_lookup.
    rewrite (proj2 (run_known _ _ _ _ Ra Ca) _ (Z.le_refl _)).
    by rewrite (proj2 (run_known _ _ _ _ Rb Cb) _ (Z.le_refl _)). }
  destruct (List.find (nap_discovered ida idb) l) as [n|] eqn:Ef.
  - apply find_some in Ef as [Hin%list_elem_of_In Hn]. apply list_elem_of_lookup in Hin as [i Hi].
    destruct (Forall2_lookup_l _ _ _ _ _ Hf Hi) as (lg & Hl & _). split; [intros _|intros _].
    + exists i, n, lg. split_and!; [done|done|..]; by apply (Hd i n lg).
    + apply andb_true_iff in Hn as [H1 H2]. by rewrite H1, H2.
  - split; [done|]. intros (i & n & lg & Hi & Hl & Hk). exfalso.
    apply (Hd i n lg) in Hk; [|done..]. eapply find_none in Ef; [|by apply list_elem_of_In, list_elem_of_lookup; exists i].
    congruence.
Qed.

End mdns_test.
