(* ===== verification/TestsSdk.v ===== *)
(** * The integration test of the SDK

    [sdk/tests/integration.rs]: two nodes run the chat, RPC and publish/subscribe services,
    and one of them uses all three in turn.  The test is followed from the start, through every
    interleaving of the dial, the accept workers, the handshakes and the session loops: once
    Alice's dial has the mutex of her transport it passes, and if her own accept worker takes
    that mutex first it waits for ever. *)

From S2P Require Import Prelude Float64 Error Types Metrics Graph Router Transport Mock.
From S2P Require Import Identity Services Noise Handshake Wire Cache Config Discovery Node Session Mesh Apps Meeting.
From S2P Require Import Testing.

Local Open Scope Z_scope.

(** ** [i32] *)

Definition in_i32 (z : Z) : Prop := - 2 ^ 31 ≤ z < 2 ^ 31.

#[global] Instance in_i32_dec z : Decision (in_i32 z).
Proof. unfold in_i32. apply _. Defined.

Definition i32 : Type := dsig in_i32.

Definition i32_val (n : i32) : Z := proj1_sig n.

Definition i32_wrap (z : Z) : Z := (z + 2 ^ 31) mod 2 ^ 32 - 2 ^ 31.

Lemma i32_wrap_in z : in_i32 (i32_wrap z).
Proof. unfold in_i32, i32_wrap. pose proof (Z.mod_pos_bound (z + 2 ^ 31) (2 ^ 32)). lia. Qed.

Lemma i32_wrap_id z : in_i32 z → i32_wrap z = z.
Proof. unfold in_i32, i32_wrap. intros H. rewrite Z.mod_small by lia. lia. Qed.

Definition i32_of (z : Z) : i32 := dexist (i32_wrap z) (i32_wrap_in z).

(** [+] on [i32]: wraps, or panics with overflow checks. *)
Definition i32_add `{O : OverflowChecks} (a b : i32) : Result i32 :=
  if decide (in_i32 (i32_val a + i32_val b)) then Ok (i32_of (i32_val a + i32_val b))
  else if overflow_checks then Panic else Ok (i32_of (i32_val a + i32_val b)).

(** ** The handler *)

Section calculator.
Context `{O : OverflowChecks, BI : Bincode i32, BII : Bincode (i32 * i32)}.

(** [CalculatorHandler::handle_request] *)
Definition calculator (_from : PeerId) (method : string) (request : list byte) : Result (list byte) :=
  if decide (method = "add"%string) then
    nums ← of_lib (λ e, Serialization ("deserialize request: " +:+ e)) (deserialize (A := i32 * i32) request);
    sum ← i32_add nums.1 nums.2;
    serialize_unwrap sum
  else Err (ServiceError "unknown method").

(** [bincode::deserialize(&reply).unwrap()] of the reply to a call. *)
Definition sum_of (reply : Result (list byte)) : Result Z :=
  bytes ← unwrap reply;
  match deserialize (A := i32) bytes with inr sum => Ok (i32_val sum) | inl _ => Panic end.

(** [bincode::serialize(&(a, b)).unwrap()] *)
Definition numbers (a b : Z) : Result (list byte) := serialize_unwrap (i32_of a, i32_of b).

Context `{!BincodeLaws BI, !BincodeLaws BII}.

Lemma i32_of_val z : in_i32 z → i32_val (i32_of z) = z.
Proof. intros Hz. cbn. by apply i32_wrap_id. Qed.

(** The sum comes back as the caller reads it. *)
Lemma sum_of_reply s reply : serialize_unwrap (i32_of s) = Ok reply → sum_of (Ok reply) = Ok (i32_wrap s).
Proof.
  destruct (serialize_unwrap_ok (i32_of s)) as (bs & -> & Ed). intros [= <-].
  unfold sum_of. cbn [unwrap mbind result_bind]. by rewrite Ed.
Qed.

(** What [add] answers: the sum, or on overflow the wrapped sum or a panic. *)
Lemma calculator_spec from a b :
  in_i32 a → in_i32 b → ∃ request, numbers a b = Ok request ∧
    calculator from "add" request =
      if decide (in_i32 (a + b)) then serialize_unwrap (i32_of (a + b))
      else if overflow_checks then Panic else serialize_unwrap (i32_of (a + b)).
Proof.
  intros Ha Hb. unfold numbers. destruct (serialize_unwrap_ok (i32_of a, i32_of b)) as (request & E & Ed).
  exists request. split; [done|]. unfold calculator. rewrite decide_True by done. rewrite Ed.
  cbn [of_lib mbind result_bind fst snd]. unfold i32_add. rewrite !i32_of_val by done.
  case_decide; [done|]. by destruct overflow_checks.
Qed.

(** The call of the test. *)
Lemma calculator_answers from :
  ∃ request reply, numbers 12 30 = Ok request ∧ calculator from "add" request = Ok reply ∧
    serialize (i32_of 42) = inr reply ∧ sum_of (Ok reply) = Ok 42.
Proof.
  destruct (calculator_spec from 12 30) as (request & En & Hc); [unfold in_i32; lia..|].
  destruct (serialize_total (i32_of 42)) as [reply Er]. exists request, reply.
  assert (Eu : serialize_unwrap (i32_of 42) = Ok reply) by (unfold serialize_unwrap; by rewrite Er).
  split_and!; [done| |done|exact (sum_of_reply 42 reply Eu)].
  rewrite Hc, decide_True by (unfold in_i32; lia). exact Eu.
Qed.

End calculator.

(** ** The test *)

Section sdk_test.
Context `{SN : Snow, L : !SnowLaws SN, D : Ed25519, P : Libp2p, SW : !Swarm P,
          BH : Bincode HandshakePayload,
          BP : Bincode WirePacket, BPL : !BincodeLaws BP,
          BS : Bincode ServicePayload, BSL : !BincodeLaws BS,
          BU : Bincode LinkStateUpdate, BUL : !BincodeLaws BU, BT : Bincode N, T : TextCodecs,
          I : !MapIter PeerId nat, IL : !MapIterLaws I,
          BC : Bincode ChatMessage, BCL : !BincodeLaws BC,
          BR : Bincode RpcMessage, BRL : !BincodeLaws BR,
          BB : Bincode PubSubMessage, BBL : !BincodeLaws BB,
          BI : Bincode i32, BIL : !BincodeLaws BI,
          BII : Bincode (i32 * i32), BIIL : !BincodeLaws BII, O : OverflowChecks}.

Abbreviation MockMesh := (OmniMesh (TR := mock_transport)).
Abbreviation MockJoiner := (Joiner (TR := mock_transport)).
Abbreviation MockMeeting := (MockJoiner * MockJoiner * MockWorld)%type.

(** The two nodes, and what a call changes of one of them. *)
Definition alice_of (s : MockMeeting) : MockMesh := j_node s.1.1.
Definition bob_of (s : MockMeeting) : MockMesh := j_node s.1.2.

Definition with_node (n : MockMesh) (j : MockJoiner) : MockJoiner := mkJoiner n (j_call j) (j_tasks j).
Definition on_alice (n : MockMesh) (s : MockMeeting) : MockMeeting := (with_node n s.1.1, s.1.2, s.2).
Definition on_bob (n : MockMesh) (s : MockMeeting) : MockMeeting := (s.1.1, with_node n s.1.2, s.2).

(** What the test does with the services, from an idle session on: the chat line, the call and
    the publication, each when the one before has arrived.  However the accept workers and
    the session loops are scheduled, each is accepted at once when its turn comes and reaches
    the peer's service, which does with it what the test expects. *)
Definition services_work (now : Z) (x y : party) (i j : nat) (s : MockMeeting) (rs : RpcService) : Prop :=
  ∃ line na1,
    send_chat (MS := node_sender now) "Hello, Bob!" (alice_of s, s.2) = Some (Ok tt, (na1, s.2)) ∧
    chat_handle_message y.1 line = (Ok tt, [(y.1, "Hello, Bob!"%string)]) ∧
    inevitably meet_step (λ s1,
      delivered (bob_of s1) = delivered (bob_of s) ++ [("chat"%string, y.1, line)] ∧
      ∃ request r1 na2 req,
        numbers 12 30 = Ok request ∧
        call_start (MS := node_sender now) x.1 "add" request rpc_new (alice_of s1, s1.2) =
          Some (Ok 1, r1, (na2, s1.2)) ∧
        inevitably meet_step (λ s2, ∃ task nb2 resp,
          rpc_handle_message (MS := node_sender now) calculator y.1 req rs = (Ok (Some task), rs) ∧
          task (bob_of s2, s2.2) = Some (Ok tt, (nb2, s2.2)) ∧
          inevitably meet_step (λ s3, ∃ answer payload na3,
            completed (rpc_handle_message (MS := node_sender now) calculator x.1 resp r1).2 = [(1, answer)] ∧
            sum_of (call_finish (Some answer)) = Ok 42 ∧
            publish (MS := node_sender now) "metrics" (bytes_of "test_payload") (alice_of s3, s3.2) =
              Some (Ok tt, (na3, s3.2)) ∧
            (∀ ps, pubsub_handle_message y.1 payload ps =
               (Ok tt, (λ sub, (sub, bytes_of "test_payload")) <$>
                         default [] (subscriptions ps !! "metrics"%string))) ∧
            inevitably meet_step (λ s4,
              delivered (bob_of s4) = delivered (bob_of s) ++
                [("chat"%string, y.1, line); ("rpc"%string, y.1, req); ("pubsub"%string, y.1, payload)] ∧
              delivered (alice_of s4) = delivered (alice_of s) ++ [("rpc"%string, x.1, resp)] ∧
              idle x y i j (alice_of s4) (bob_of s4) s4.2)
              (on_alice na3 s3))
            (on_bob nb2 s2))
          (on_alice na2 s1))
      (on_alice na1 s).

(** What is sent fits into a Noise message. *)
Definition test_messages_fit : Prop :=
  (∀ payload, format_message "Hello, Bob!" = Ok payload → good_message (data_message ("chat"%string, payload))) ∧
  (∀ request reply, numbers 12 30 = Ok request → serialize (i32_of 42) = inr reply →
     rpc_fits (Request 1 "add" request) ∧ rpc_fits (Response 1 (inr reply))) ∧
  (∀ payload, format_publish "metrics" (bytes_of "test_payload") = Ok payload →
     good_message (data_message ("pubsub"%string, payload))).

Lemma mock_sendable ty plain t w t' :
  fits_noise plain → seal_packet ty plain t = (Ok w, t') → sendable (C := mock_connection) w.
Proof. done. Qed.

(** A call that only fills a channel leaves the nodes settled. *)
Lemma settled_on_alice i j a b cs s :
  settled i j a b s → settled i j a b (on_alice (set_cells cs (alice_of s)) s).
Proof. destruct s as [[[na ca ta] nb] w]. by intros [(?&?&?&?) ?]. Qed.

Lemma settled_on_bob i j a b cs s :
  settled i j a b s → settled i j a b (on_bob (set_cells cs (bob_of s)) s).
Proof. destruct s as [[na [nb cb tb]] w]. by intros [? (?&?&?&?)]. Qed.

Lemma services_run now x y i j addr_a addr_b s rs :
  settled i j addr_a addr_b s → sessions (alice_of s) = {[x.1 := i]} →
  idle x y i j (alice_of s) (bob_of s) s.2 → no_panic x → no_panic y →
  is_Some (x.2 !! "rpc"%string) →
  Forall (λ id, is_Some (y.2 !! id)) ["chat"; "rpc"; "pubsub"]%string → test_messages_fit →
  services_work now x y i j s rs.
Proof.
  intros Hset Hs Hi Hx Hy Rx Ry (Fc & Fr & Fp).
  apply Forall_cons in Ry as [Rc [Rr [Rp _]%Forall_cons]%Forall_cons].
  destruct (chat_delivery (MS := node_sender now) y.1 "Hello, Bob!" (alice_of s, s.2)) as [(line & Ef & Ec & Hh) _].
  destruct (broadcast_only mock_sendable "chat" line x y i j (alice_of s) (bob_of s) s.2)
    as (na1 & Eb & [cs1 ->] & H1); try done; [by apply Fc|].
  exists line, (set_cells cs1 (alice_of s)). split; [rewrite Ec; cbn; by rewrite Eb|]. split; [done|].
  eapply inevitably_weaken; [|eapply settled_inevitably; [by apply settled_on_alice| |exact H1]]; [|done].
  intros s1 (Hset1 & Hi1 & Fa1 & Fb1 & Sa1). cbn [nodes_of fst snd] in *. injection Fb1 as _ Db1. split; [done|].
  injection Fa1 as _ Da1.
  destruct (calculator_answers y.1) as (request & reply & En & Hcalc & Er & Hsum).
  destruct (Fr request reply En Er) as [Freq Fresp].
  destruct (rpc_exchange (MS := node_sender now) calculator y.1 x.1 "add" request rpc_new rs)
    as (req & r1 & task & resp & Ereq & Eresp & Ecr & Eh & Et & Ea & Efin); [by rewrite Hcalc|].
  rewrite Hcalc in Eresp, Ea, Efin. cbn [answer_payload] in Eresp, Ea, Efin.
  destruct (send_idle mock_sendable now "rpc" req x y i j (j_node s1.1.1) (j_node s1.1.2) s1.2 Hi1 Hx Hy (Freq _ Ereq) Rr)
    as (na2 & Es & [cs2 ->] & H2).
  assert (Ecall : call_start (MS := node_sender now) x.1 "add" request rpc_new (alice_of s1, s1.2) =
    Some (Ok 1, r1, (set_cells cs2 (alice_of s1), s1.2))).
  { unfold call_start, alice_of. rewrite Ecr. run_io. cbn [send_message node_sender]. by rewrite Es. }
  assert (Hr1 := call_start_completed _ _ _ _ _ _ _ _ _ Ecall).
  exists request, r1, (set_cells cs2 (alice_of s1)), req. split; [done|]. split; [done|].
  eapply inevitably_weaken; [|eapply settled_inevitably; [by apply settled_on_alice| |exact H2]]; [|done].
  intros s2 (Hset2 & Hi2 & Fa2 & Fb2 & Sa2 & _). cbn [nodes_of fst snd] in *.
  injection Fa2 as _ Da2. injection Fb2 as _ Db2.
  destruct (send_idle_back mock_sendable now "rpc" resp x y i j (j_node s2.1.1) (j_node s2.1.2) s2.2 Hi2 Hx Hy (Fresp _ Eresp) Rx)
    as (nb2 & Es2 & [cs3 ->] & H3).
  exists task, (set_cells cs3 (bob_of s2)), resp. split; [done|]. split.
  { unfold bob_of. rewrite Et. run_io. cbn [send_message node_sender]. by rewrite Es2. }
  eapply inevitably_weaken; [|eapply settled_inevitably; [by apply settled_on_bob| |exact H3]]; [|done].
  intros s3 (Hset3 & Hi3 & Fb3 & Fa3 & Sa3 & _). cbn [nodes_of fst snd] in *.
  injection Fa3 as _ Da3. injection Fb3 as _ Db3.
  destruct (serialize_unwrap_ok (mkPub "metrics" (bytes_of "test_payload"))) as (payload & Ep & Edp).
  destruct (broadcast_only mock_sendable "pubsub" payload x y i j (j_node s3.1.1) (j_node s3.1.2) s3.2)
    as (na3 & Eb3 & [cs4 ->] & H4); try done; [by rewrite Sa3, Sa2, Sa1|by apply Fp|].
  exists (inr reply), payload, (set_cells cs4 (alice_of s3)).
  split; [rewrite Ea; cbn [completed]; by rewrite Hr1|]. split; [rewrite Efin; exact Hsum|].
  split; [unfold publish, format_publish, alice_of; rewrite Ep; cbn; by rewrite Eb3|].
  split; [intros ps; unfold pubsub_handle_message; rewrite Edp; cbn;
          by destruct (subscriptions ps !! "metrics"%string)|].
  eapply inevitably_weaken; [|eapply settled_inevitably; [by apply settled_on_alice| |exact H4]]; [|done].
  intros s4 (_ & Hi4 & Fa4 & Fb4 & _). cbn [nodes_of fst snd] in *.
  injection Fa4 as _ Da4. injection Fb4 as _ Db4. unfold alice_of, bob_of.
  rewrite Db4, Db3, Db2, Db1, Da4, Da3, Da2, Da1, <- !app_assoc. done.
Qed.

End sdk_test.

(** ** From the start *)

Section sdk_start.
Context `{SN : Snow, L : !SnowLaws SN, D : Ed25519, P : Libp2p, SW : !Swarm P,
          BH : Bincode HandshakePayload, BHL : !BincodeLaws BH,
          BP : Bincode WirePacket, BPL : !BincodeLaws BP,
          BS : Bincode ServicePayload, BSL : !BincodeLaws BS,
          BU : Bincode LinkStateUpdate, BUL : !BincodeLaws BU, BT : Bincode N, T : TextCodecs,
          I : !MapIter PeerId nat, IL : !MapIterLaws I,
          BC : Bincode ChatMessage, BCL : !BincodeLaws BC,
          BR : Bincode RpcMessage, BRL : !BincodeLaws BR,
          BB : Bincode PubSubMessage, BBL : !BincodeLaws BB,
          BI : Bincode i32, BIL : !BincodeLaws BI,
          BII : Bincode (i32 * i32), BIIL : !BincodeLaws BII, O : OverflowChecks}.

Abbreviation MockMesh := (OmniMesh (TR := mock_transport)).
Abbreviation MockMeeting := (Joiner (TR := mock_transport) * Joiner (TR := mock_transport) * MockWorld)%type.

Definition sdk_port (port : Z) : SocketAddr :=
  mkSocketAddr (IPv4 [# Byte.x7f; Byte.x00; Byte.x00; Byte.x01]) port.

Definition alice_addr : SocketAddr := sdk_port 2001.
Definition bob_addr : SocketAddr := sdk_port 2002.

(** [config.transport.listen_addr = addr] *)
Definition listen_at (addr : SocketAddr) (c : Config) : Config :=
  let t := cfg_transport c in
  mkConfig (cfg_node c)
    (mkTransportConfig addr (tc_bootstrap_nodes t) (tc_connect_timeout_ms t) (tc_keepalive_secs t))
    (cfg_identity c) (cfg_telemetry c) (cfg_storage c).

(** A node of the test, with a generated key. *)
Definition test_node (E : Surroundings) (addr : SocketAddr) (random : vec byte 32)
    : io MockWorld (Result MockMesh) :=
  io_try (Config_default E) (λ config,
  io_try (builder_new (TR := mock_transport) E) (λ b,
  r ← build random (builder_transport (TR := mock_transport) mock_new
        (builder_keypair (kp_generate random) (builder_config (listen_at addr config) b)));
  mret (unwrap r))).

(** The services of both nodes; a handler's outcome depends neither on the state of its service
    nor on its sender. *)
Definition test_services : list (string * (PeerId → list byte → Result unit)) :=
  [("chat"%string, λ from payload, (chat_handle_message from payload).1);
   ("rpc"%string, λ from payload,
      _ ← (rpc_handle_message (S := unit) (MS := dead_sender) calculator from payload rpc_new).1; Ok tt);
   ("pubsub"%string, λ from payload, (pubsub_handle_message from payload pubsub_new).1)].

Definition register_test_services (n : MockMesh) : MockMesh :=
  foldl (λ n '(id, service), register_service id service n) n test_services.

(** Steps 2 to 5 of the test. *)
Definition test_start (E : Surroundings) (ra rb : vec byte 32) : io MockWorld (Result (MockMesh * MockMesh)) :=
  r ← test_node E alice_addr ra;
  io_try r (λ alice,
  r ← test_node E bob_addr rb;
  io_try r (λ bob, mret (Ok (register_test_services alice, register_test_services bob)))).

Definition test_table : gmap string (PeerId → list byte → Result unit) :=
  foldl (λ m '(id, service), <[id := service]> m) ∅ test_services.

Lemma test_no_panic p : no_panic (p, test_table).
Proof.
  intros id service d. unfold test_table. cbn [fst snd foldl test_services].
  intros [[_ <-]|[_ [[_ <-]|[_ [[_ <-]|[_ ?]]%lookup_insert_Some]]%lookup_insert_Some]]%lookup_insert_Some; [..|done].
  - unfold pubsub_handle_message. by destruct (deserialize d).
  - unfold rpc_handle_message. by destruct (deserialize d) as [|[]].
  - unfold chat_handle_message. by destruct (deserialize d).
Qed.

Lemma test_node_ok E addr random config d w :
  world_ok w → listeners w !! addr = None → Config_default E = Ok config →
  discovery_new (listen_at addr config) (kp_generate random) 0 = Ok d →
  ∃ n w', test_node E addr random w = Some (Ok n, w') ∧ world_ok w' ∧
    listening (node_transport n) addr [] w' ∧
    (∀ a, a ≠ addr → listeners w' !! a = listeners w !! a) ∧
    (∀ t a q, a ≠ addr → listening t a q w →
       listening t a q w' ∧ incoming_rx t ≠ incoming_rx (node_transport n)) ∧
    node_peer_id n = kp_to_peer_id (kp_generate random) ∧ node_keypair n = kp_generate random ∧
    sessions n = ∅ ∧ cells n = [] ∧ session_loops n = ∅ ∧ node_services n = ∅ ∧
    accept_task n = Running false ∧ transport_held n = false.
Proof.
  intros Hw Hn Ec Ed. destruct (mock_listen_fresh addr w Hw Hn) as (t & w' & El & Hw' & Hl & Ht & Hf).
  unfold test_node, builder_new. rewrite Ec. cbn [io_try mbind result_bind]. unfold build.
  cbn [builder_transport builder_keypair builder_config b_config b_keypair b_transport from_option]. unfold id. cbn zeta.
  destruct (from_peer_id_total (kp_to_peer_id (kp_generate random))) as [vip Ev]. rewrite Ev.
  change (tc_listen_addr (cfg_transport (listen_at addr config))) with addr.
  run_io. cbn [transport_listen transport_local_addr mock_transport]. rewrite El, Ed.
  destruct (discovery_new_ok _ _ _ _ Ed) as (_ & Hc & Htk).
  rewrite Ht.
  unfold register_local_address, send_command. rewrite Htk, Hc. cbn [negb length].
  rewrite decide_True by (unfold COMMAND_CAPACITY; lia). cbn. eexists _, _. split; [done|]. cbn.
  split_and!; try done. intros t1 a q Ha Hl1.
  exact (mock_listen_others _ _ _ _ _ _ _ _ Hw Hn El Ha Hl1).
Qed.

(** What the test has when it dials. *)
Record started (ra rb : vec byte 32) (alice bob : MockMesh) (w : MockWorld) : Prop := {
  st_world : world_ok w;
  st_listen_a : listening (node_transport alice) alice_addr [] w;
  st_listen_b : listening (node_transport bob) bob_addr [] w;
  st_differ : incoming_rx (node_transport alice) ≠ incoming_rx (node_transport bob);
  st_id_a : node_peer_id alice = kp_to_peer_id (kp_generate ra);
  st_id_b : node_peer_id bob = kp_to_peer_id (kp_generate rb);
  st_key_b : kp_to_peer_id (node_keypair bob) = node_peer_id bob;
  st_new_a : sessions alice = ∅ ∧ cells alice = [] ∧ session_loops alice = ∅;
  st_new_b : sessions bob = ∅ ∧ cells bob = [] ∧ session_loops bob = ∅;
  st_services : node_services alice = test_table ∧ node_services bob = test_table;
  st_workers : accept_task alice = Running false ∧ accept_task bob = Running false;
  st_free : transport_held alice = false ∧ transport_held bob = false;
}.

Lemma test_start_ok E ra rb config da db :
  Config_default E = Ok config →
  discovery_new (listen_at alice_addr config) (kp_generate ra) 0 = Ok da →
  discovery_new (listen_at bob_addr config) (kp_generate rb) 0 = Ok db →
  ∃ alice bob w, test_start E ra rb world_new = Some (Ok (alice, bob), w) ∧ started ra rb alice bob w.
Proof.
  intros Ec Ea Eb.
  destruct (test_node_ok E alice_addr ra config da world_new world_ok_new eq_refl Ec Ea)
    as (alice & w1 & E1 & Hw1 & Hla & Hf & _ & Ia & Ka & Sa & Ca & La & Va & Ta & Ha).
  destruct (test_node_ok E bob_addr rb config db w1 Hw1)
    as (bob & w2 & E2 & Hw2 & Hlb & _ & Ho & Ib & Kb & Sb & Cb & Lb & Vb & Tb & Hb); [by rewrite Hf|done..|].
  destruct (Ho (node_transport alice) alice_addr [] ltac:(done) Hla) as [Hla' Hd].
  exists (register_test_services alice), (register_test_services bob), w2.
  unfold test_start. run_io. rewrite E1. cbn [io_try]. rewrite E2. cbn [io_try]. split; [done|].
  split; unfold register_test_services, test_services, test_table; cbn [foldl]; unfold register_service; cbn;
    rewrite ?Va, ?Vb, ?Kb; done.
Qed.

(** Handshake payloads are small. *)
Hypothesis payload_small : ∀ id bs, serialize (mkPayload CURRENT id) = inr bs →
  Z.of_nat (length bs) ≤ 65439.

(** Two nodes that have met are settled, with an idle session. *)
Lemma met_settled alice bob s :
  met alice bob alice_addr bob_addr s →
  sessions alice = ∅ ∧ cells alice = [] ∧ session_loops alice = ∅ →
  sessions bob = ∅ ∧ cells bob = [] ∧ session_loops bob = ∅ →
  settled 0 0 alice_addr bob_addr s ∧ j_call s.1.1 = Returned (Ok (node_peer_id bob)) ∧
  sessions (alice_of s) = {[node_peer_id bob := 0%nat]} ∧
  idle (node_peer_id bob, node_services alice) (node_peer_id alice, node_services bob) 0 0
    (alice_of s) (bob_of s) s.2.
Proof.
  destruct s as [[a b] w]. intros (h & h' & ta & tb & ca & cb & Ea & Eb & Hl & [Hf Hf'] & Hla & Hlb)
    (Sa & Ca & La) (Sb & Cb & Lb). unfold alice_of, bob_of. cbn [fst snd] in *. subst a b.
  split; [|split; [done|split; [cbn; by rewrite Sa, Ca|]]].
  { split; (split_and!; [done..|]); intros k Hk; cbn; rewrite ?Ca, ?Cb, lookup_insert_ne by done;
      rewrite ?La, ?Lb; apply lookup_empty. }
  pose proof (end_at_add_session (TR := mock_transport) (node_peer_id bob) ta ca alice) as Ha.
  pose proof (end_at_add_session (TR := mock_transport) (node_peer_id alice) tb cb bob) as Hb.
  pose proof (undisturbed_add_session (TR := mock_transport) (node_peer_id bob) ta ca alice) as Ua.
  pose proof (undisturbed_add_session (TR := mock_transport) (node_peer_id alice) tb cb bob) as Ub.
  rewrite Ca in Ha, Ua. rewrite Cb in Hb, Ub. cbn [length] in *. split_and!; cbn [fst snd].
  - cbn. rewrite Ca. by rewrite lookup_insert_eq.
  - cbn. rewrite Cb. by rewrite lookup_insert_eq.
  - split_and!; [|done|done|exact Ua|exact Ub].
    exists (mkLoop (node_peer_id bob) ca None false), (mkCell [] true ta),
      (mkLoop (node_peer_id alice) cb None false), (mkCell [] true tb), [], [].
    by split_and!.
Qed.

(** Alice dials. *)
Lemma alice_dials ra rb alice bob w :
  started ra rb alice bob w →
  ∃ a' w', call_dial (mkJoiner (locked false alice) (Dialling bob_addr) []) w = Some (a', w') ∧
    ∀ h', inevitably meet_step (met alice bob alice_addr bob_addr)
      (a', mkJoiner (locked h' bob) NoCall [], w').
Proof.
  intros St. destruct St as [Hw Hla Hlb Hd Ia Ib Kb (_ & Ca & La) (_ & Cb & Lb) _ [Ta Tb] _].
  destruct (mock_connect_ok bob_addr (node_transport alice) (node_transport bob) [] w Hw Hlb)
    as (ca & cb & w1 & Edial & _ & Hl1 & Hon & _); [unfold LISTEN_CAPACITY; cbn; lia|].
  destruct (with_keypair_ok (kp_seed (node_keypair alice)) (kp_seed (node_keypair bob))) as (i & r & Ei & Er & H0).
  eexists _, w1. split.
  { cbn. run_io. rewrite Edial. cbn. run_io. rewrite Ei. cbn. reflexivity. }
  intros h'. replace (set_transport (node_transport alice) (locked false alice)) with (locked false alice)
    by (unfold locked; by destruct alice).
  eapply (dialled_meets alice bob alice_addr bob_addr (mkHandshake r Responder) cb); try done;
    first [by exists false|by eapply mock_connect_others|exact H0].
Qed.

(** C19: The integration test of the SDK, from the start.  Where configuration and discovery
    come up, both nodes are built over the mock transport, have the three services and listen,
    and Alice's [connect_addr] and the two accept workers are ready to run.  In every state
    any of these tasks can reach while the call still waits for its transport's mutex: either
    Alice's own accept worker has not taken that mutex; then her dial gets through, and
    however her handshake, the accept workers, the task Bob's worker spawns and the session
    loops are scheduled, her call returns Bob's peer id, and, scheduled in any way from there,
    the chat line reaches Bob's chat service under Alice's id, the call of [add] with 12 and
    30 is answered and reads as 42, and the publication reaches every subscriber of the
    topic, each accepted at once when its turn comes, and nothing else is handed to a service.
    Or Alice's worker holds the mutex; then the call waits for ever, whatever is scheduled.
    (The messages of the test fit one Noise packet each.  The ticks of the probing and gossip
    workers, one at the start and the next 5 and 10 seconds later, and the last step of the
    test, the shutdown, are not part of this.) *)
Theorem sdk_services_integration E ra rb config da db now rs :
  Config_default E = Ok config →
  discovery_new (listen_at alice_addr config) (kp_generate ra) 0 = Ok da →
  discovery_new (listen_at bob_addr config) (kp_generate rb) 0 = Ok db →
  test_messages_fit →
  ∃ alice bob w, test_start E ra rb world_new = Some (Ok (alice, bob), w) ∧
    ∀ s, rtc meet_step (mkJoiner alice (Dialling bob_addr) [], mkJoiner bob NoCall [], w) s →
      j_call s.1.1 = Dialling bob_addr →
      (transport_held (alice_of s) = false →
         ∃ a' w', call_dial s.1.1 s.2 = Some (a', w') ∧
           inevitably meet_step
             (λ s', j_call s'.1.1 = Returned (Ok (node_peer_id bob)) ∧
                services_work now (node_peer_id bob, test_table) (node_peer_id alice, test_table) 0 0 s' rs)
             (a', s.1.2, w')) ∧
      (transport_held (alice_of s) = true →
         ∀ s', rtc meet_step s s' → j_call s'.1.1 = Dialling bob_addr).
Proof.
  intros Ec Ea Eb Hfit.
  destruct (test_start_ok E ra rb config da db Ec Ea Eb) as (alice & bob & w & E0 & St).
  exists alice, bob, w. split; [done|]. intros s Hs Hc. pose proof St as [_ Hla Hlb _ _ _ _ Na Nb [Va Vb] [Ta Tb] [Fa Fb]].
  assert (Hid : (mkJoiner alice (Dialling bob_addr) [], mkJoiner bob NoCall [], w) =
    undialled alice bob bob_addr false false w).
  { assert (Hl : ∀ n : MockMesh, transport_held n = false → locked false n = n)
      by (intros [] E1; cbn in E1; by subst).
    unfold undialled. by rewrite (Hl alice Fa), (Hl bob Fb). }
  rewrite Hid in Hs. destruct Na as (? & ? & ?), Nb as (? & ? & ?).
  apply (undialled_reachable alice bob alice_addr bob_addr) in Hs as (h & h' & ->); [|done..].
  split; cbn [alice_of undialled fst snd j_node locked set_accept transport_held]; intros ->.
  - destruct (alice_dials _ _ _ _ _ St) as (a' & w' & Ed & Hm). exists a', w'. split; [done|].
    eapply inevitably_weaken; [|apply Hm]. intros s' Hmet.
    apply met_settled in Hmet as (Hset & Hret & Hses & Hidle); [|done..]. split; [done|].
    rewrite Va, Vb in Hidle.
    eapply services_run; [exact Hset|done|done|apply test_no_panic|apply test_no_panic|by eexists| |done].
    repeat constructor; by eexists.
  - intros s' Hr. by apply (undialled_waits alice bob alice_addr bob_addr) in Hr as [k' ->].
Qed.

End sdk_start.

(** ** Witness *)

Section sdk_witness.

#[local] Existing Instance toy_snow.
#[local] Existing Instance toy_snow_laws.
#[local] Existing Instance toy_bincode.
#[local] Existing Instance toy_bincode_laws.
#[local] Existing Instance toy_payload.
#[local] Existing Instance toy_payload_laws.
#[local] Existing Instance default_map_iter.
#[local] Existing Instance default_map_iter_laws.
#[local] Existing Instance Discovery.toy_ed25519.
#[local] Existing Instance key_libp2p.
#[local] Existing Instance toy_swarm.
#[local] Existing Instance Node.toy_text.
#[local] Instance checked : OverflowChecks := true.

Lemma sdk_services_integration_witness :
  ∃ alice bob w a' w',
    test_start toy_surroundings (vreplicate 32 Byte.x01) (vreplicate 32 Byte.x02) world_new =
      Some (Ok (alice, bob), w) ∧
    node_peer_id alice = peer Byte.x01 ∧ node_peer_id bob = peer Byte.x02 ∧
    call_dial (mkJoiner alice (Dialling bob_addr) []) w = Some (a', w') ∧
    inevitably meet_step (λ s', j_call s'.1.1 = Returned (Ok (peer Byte.x02)))
      (a', mkJoiner bob NoCall [], w').
Proof.
  destruct (Config_default toy_surroundings) as [config| |] eqn:Ec; [|vm_compute in Ec; discriminate Ec..].
  assert (Hd : ∀ c kp, ∃ d, discovery_new c kp 0 = Ok d).
  { intros c kp. unfold discovery_new, to_libp2p_keypair.
    destruct (array_of_list_length 64 (vec_to_list (kp_seed kp) ++ vec_to_list (pk_bytes (kp_public_key kp))))
      as [v ->]; [by rewrite length_app, !length_vec_to_list|]. cbn. by eexists. }
  destruct (Hd (listen_at alice_addr config) (kp_generate (vreplicate 32 Byte.x01))) as [da Ea].
  destruct (Hd (listen_at bob_addr config) (kp_generate (vreplicate 32 Byte.x02))) as [db Eb].
  destruct (sdk_services_integration toy_payload_small toy_surroundings (vreplicate 32 Byte.x01)
    (vreplicate 32 Byte.x02) config da db 0 rpc_new Ec Ea Eb) as (alice & bob & w & E0 & H).
  - split_and!.
    + intros payload [= <-]. split; [by left|vm_compute; discriminate].
    + intros request reply [= <-] [= <-].
      split; intros bs [= <-]; (split; [by left|vm_compute; discriminate]).
    + intros payload [= <-]. split; [by left|vm_compute; discriminate].
  - destruct (test_start_ok toy_surroundings _ _ config da db Ec Ea Eb) as (alice' & bob' & w' & E' & St).
    rewrite E0 in E'. injection E' as <- <- <-.
    destruct (H _ (rtc_refl _ _) eq_refl) as [Hdial _].
    destruct (Hdial (proj1 (st_free _ _ _ _ _ St))) as (a' & w' & Edial & Hi).
    assert (Eb' : node_peer_id bob = peer Byte.x02) by exact (st_id_b _ _ _ _ _ St).
    exists alice, bob, w, a', w'. split; [exact E0|]. split; [exact (st_id_a _ _ _ _ _ St)|].
    split; [exact Eb'|]. split; [exact Edial|]. rewrite <- Eb'.
    eapply inevitably_weaken; [|exact Hi]. intros s' [Hs' _]. exact Hs'.
Defined.

End sdk_witness.
