(* ===== verification/Bench.v ===== *)
(** * The benchmarks ([sdk/benches/performance.rs])

    The three benchmarks as programs over the model, without the clock and what they print of
    it: handshakes over the mock transport, a bulk transfer through the Noise transport, and
    route queries on a mesh of a hundred nodes.  What they draw at random (key seeds, peers) is
    an argument, and they are proved to run to their end for every draw. *)

From S2P Require Import Prelude Float64 Error Types Metrics Graph Dijkstra Transport Mock Identity Noise Testing.

(** ** Handshakes *)

Section handshakes.
Context `{SN : Snow, D : Ed25519}.

(** One message of the handshake: written, sent, received and read. *)
Definition bench_message (payload : list byte) (from to : NoiseHandshake) (cf ct : MockConnection)
    : io MockWorld (Result (NoiseHandshake * NoiseHandshake * MockConnection * MockConnection)) :=
  let '(r, from) := write_message payload from in
  io_try r (λ msg,
  '(r, cf) ← mock_send msg cf;
  io_try r (λ _,
  '(r, ct) ← mock_recv ct;
  io_try r (λ received,
  io_try (unwrap_none received) (λ rec,
  let '(r, to) := read_message rec to in
  io_try r (λ _, mret (Ok (from, to, cf, ct))))))).

(** One round; [join!] lets both transports proceed, and the connection is queued at once. *)
Definition bench_round (addr : SocketAddr) (ra rb : vec byte 32) (ta tb : MockTransport)
    : io MockWorld (Result (MockTransport * MockTransport)) :=
  '(conn_alice_res, ta) ← mock_connect addr ta;
  '(conn_bob_res, tb) ← mock_accept tb;
  io_try conn_alice_res (λ conn_alice,
  io_try conn_bob_res (λ conn_bob,
  let kp_alice := kp_generate ra in
  let kp_bob := kp_generate rb in
  io_try (with_keypair Initiator (kp_seed kp_alice)) (λ hs_alice,
  io_try (with_keypair Responder (kp_seed kp_bob)) (λ hs_bob,
  r ← bench_message (bytes_of "Alice info") hs_alice hs_bob conn_alice conn_bob;
  io_try r (λ '(hs_alice, hs_bob, conn_alice, conn_bob),
  r ← bench_message (bytes_of "Bob info") hs_bob hs_alice conn_bob conn_alice;
  io_try r (λ '(hs_bob, hs_alice, conn_bob, conn_alice),
  r ← bench_message (bytes_of "Alice finalize") hs_alice hs_bob conn_alice conn_bob;
  io_try r (λ '(hs_alice, hs_bob, conn_alice, conn_bob),
  io_try (assert (is_finished hs_alice)) (λ _,
  io_try (assert (is_finished hs_bob)) (λ _,
  _ ← (λ w, Some (tt, drop_conn conn_alice (drop_conn conn_bob w)));
  mret (Ok (ta, tb))))))))))).

(** [draws i]: the seeds of the [i]-th round. *)
Fixpoint bench_rounds (addr : SocketAddr) (draws : list (vec byte 32 * vec byte 32)) (ta tb : MockTransport)
    : io MockWorld (Result unit) :=
  match draws with
  | [] => mret (Ok tt)
  | (ra, rb) :: draws =>
      r ← bench_round addr ra rb ta tb;
      io_try r (λ '(ta, tb), bench_rounds addr draws ta tb)
  end.

Definition bench_addr : SocketAddr := mkSocketAddr (IPv4 [# Byte.x7f; Byte.x00; Byte.x00; Byte.x01]) 9090.

(** The runtime starts with a new registry; one pair of seeds for each of the 200 rounds. *)
Definition benchmark_noise_handshake (draws : list (vec byte 32 * vec byte 32)) : option (Result unit) :=
  let '(registry, transport_alice, transport_bob) := create_pair in
  fst <$> ('(r, transport_bob) ← mock_listen bench_addr transport_bob;
           io_try r (λ _, bench_rounds bench_addr draws transport_alice transport_bob)) registry.

(** ** Throughput *)

(** Written by one side and read by the other, in memory. *)
Definition exchange_message (from to : NoiseHandshake) : Result (NoiseHandshake * NoiseHandshake) :=
  let '(r, from) := write_message [] from in
  msg ← r;
  let '(r, to) := read_message msg to in
  _ ← r;
  Ok (from, to).

Definition payload_size : nat := 60 * 1024.

Fixpoint transfer (count : nat) (payload : list byte) (alice bob : NoiseTransport) : Result unit :=
  match count with
  | O => Ok tt
  | S count =>
      let '(r, alice) := noise_encrypt payload alice in
      ciphertext ← r;
      let '(r, bob) := noise_decrypt ciphertext bob in
      decrypted ← r;
      _ ← assert_eq (length decrypted) (length payload);
      transfer count payload alice bob
  end.

Definition benchmark_crypto_throughput (count : nat) (ra rb : vec byte 32) : Result unit :=
  let kp_alice := kp_generate ra in
  let kp_bob := kp_generate rb in
  hs_alice ← with_keypair Initiator (kp_seed kp_alice);
  hs_bob ← with_keypair Responder (kp_seed kp_bob);
  '(hs_alice, hs_bob) ← exchange_message hs_alice hs_bob;
  '(hs_bob, hs_alice) ← exchange_message hs_bob hs_alice;
  '(hs_alice, hs_bob) ← exchange_message hs_alice hs_bob;
  alice_transport ← into_transport hs_alice;
  bob_transport ← into_transport hs_bob;
  transfer count (replicate payload_size Byte.x00) alice_transport bob_transport.

End handshakes.

(** ** Routes *)

Definition node_count : nat := 100.

(** The links of the [i]-th node. *)
Definition bench_metrics (i : nat) : LinkMetrics :=
  mkLinkMetrics (f64_add (f64_of_Z 10) (f64_of_Z (Z.of_nat (i mod 5)))) (f64_of_Z 100000) (f64_lit 1 100) (f64_lit 1 10).

Definition bench_link (peers : list PeerId) (i offset : nat) (g : RouteGraph) : Result RouteGraph :=
  let neighbor_idx := (i + offset) mod node_count in
  from ← unwrap_none (peers !! i);
  to ← unwrap_none (peers !! neighbor_idx);
  Ok (add_link from to (bench_metrics i) g).

Fixpoint bench_links (peers : list PeerId) (pairs : list (nat * nat)) (g : RouteGraph) : Result RouteGraph :=
  match pairs with
  | [] => Ok g
  | (i, offset) :: pairs => g ← bench_link peers i offset g; bench_links peers pairs g
  end.

(** [for i in 0..node_count], [for offset in [1, 2, 5, 10]] *)
Definition link_pairs : list (nat * nat) :=
  i ← seq 0 node_count; offset ← [1; 2; 5; 10]; mret (i, offset).

Definition bench_graph (peers : list PeerId) : Result RouteGraph := bench_links peers link_pairs graph_new.

Section routes.
Context `{HP : Heap, NO : NeighbourOrder, D : Ed25519}.

(** A hundred fresh identities. *)
Definition bench_peers (draws : vec (vec byte 32) node_count) : list PeerId :=
  (λ r, kp_to_peer_id (kp_generate r)) <$> vec_to_list draws.

Definition bench_query (g : RouteGraph) (peers : list PeerId) (i : nat) : Result (option (list PeerId)) :=
  src ← unwrap_none (peers !! (i mod node_count));
  dest ← unwrap_none (peers !! ((i + 50) mod node_count));
  unwrap_none (find_shortest_path (edge_count g + 2) g src dest).

Fixpoint bench_queries (g : RouteGraph) (peers : list PeerId) (ids : list nat)
    : Result (list (option (list PeerId))) :=
  match ids with
  | [] => Ok []
  | i :: ids => p ← bench_query g peers i; ps ← bench_queries g peers ids; Ok (p :: ps)
  end.

(** The routes found, one for each of the 2000 queries; the program drops them. *)
Definition benchmark_routing_dijkstra (draws : vec (vec byte 32) node_count)
    : Result (list (option (list PeerId))) :=
  let peers := bench_peers draws in
  g ← bench_graph peers;
  bench_queries g peers (seq 0 (Z.to_nat 2000)).

End routes.

(** ** Handshakes run *)

#[local] Ltac run := cbn [unwrap_none or_panic io_try mbind result_bind fst snd].

(** Traffic on connections leaves listeners and allocation as they are. *)
Definition quiet (w w' : MockWorld) : Prop :=
  listen_chans w' = listen_chans w ∧ listeners w' = listeners w ∧ next_chan w' = next_chan w ∧
  ∀ i, byte_chans w !! i = None → byte_chans w' !! i = None.

#[local] Instance quiet_preorder : PreOrder quiet.
Proof.
  split; [by intros w; split_and!|]. intros w1 w2 w3 (E1 & E2 & E3 & H) (F1 & F2 & F3 & H').
  split_and!; [congruence..|auto].
Qed.

Lemma mock_send_quiet m c w r c' w' : mock_send m c w = Some (r, c', w') → quiet w w'.
Proof.
  unfold mock_send. intros E. repeat (case_match || case_decide); simplify_eq; try done.
  split_and!; [done..|]. intros i Hi. cbn. rewrite lookup_insert_ne; [done|]. intros <-. congruence.
Qed.

Lemma mock_recv_quiet c w r c' w' : mock_recv c w = Some (r, c', w') → quiet w w'.
Proof.
  unfold mock_recv. intros E. repeat case_match; simplify_eq; try done.
  split_and!; [done..|]. intros i Hi. cbn. rewrite lookup_insert_ne; [done|]. intros <-. congruence.
Qed.

Lemma drop_conn_quiet c w : quiet w (drop_conn c w).
Proof.
  split_and!; [done..|]. intros i Hi. unfold drop_conn, drop_rx, drop_tx. cbn [byte_chans with_byte].
  by rewrite lookup_alter_None, lookup_alter_None.
Qed.

Definition bench_ready (tb : MockTransport) (w : MockWorld) : Prop :=
  world_ok w ∧ listening tb bench_addr [] w.

Lemma bench_ready_quiet tb w w' : quiet w w' → bench_ready tb w → bench_ready tb w'.
Proof.
  intros (E1 & E2 & E3 & H) [Hw (l & n & Hl)]. split.
  - intros i. rewrite E1, E3. intros Hi. destruct (Hw i Hi). auto.
  - exists l, n. by rewrite E1, E2.
Qed.

Lemma mock_accept_world t w r t' w' :
  mock_accept t w = Some (r, t', w') → world_ok w → world_ok w'.
Proof.
  unfold mock_accept. intros E Hw. repeat case_match; simplify_eq; try done.
  intros i Hi. destruct (Hw i Hi) as [Hb Hc]. split; [done|]. cbn.
  rewrite lookup_insert_ne; [done|]. intros <-. congruence.
Qed.

Section handshakes_run.
Context `{SN : Snow, !SnowLaws SN, D : Ed25519}.

Lemma bench_message_ok payload msg from from' to to' cf ct w :
  on_line w cf ct → write_message payload from = (Ok msg, from') →
  read_message msg to = (Ok payload, to') →
  ∃ w', bench_message payload from to cf ct w = Some (Ok (from', to', cf, ct), w') ∧
    on_line w' cf ct ∧ quiet w w'.
Proof.
  intros Hl Ew Er. unfold bench_message. rewrite Ew. run_io. run.
  destruct (mock_linked_send _ _ _ _ _ msg Hl) as (w1 & Es & Hl1). rewrite Es. run.
  destruct (mock_linked_recv ct cf [] msg [] w1) as (w2 & Ev & Hl2); [by apply mock_linked_sym|].
  rewrite Ev. run. rewrite Er. run. exists w2.
  split_and!; [done|by apply mock_linked_sym|].
  etrans; [by eapply mock_send_quiet|by eapply mock_recv_quiet].
Qed.

Lemma bench_round_ok ra rb ta tb w :
  bench_ready tb w →
  ∃ w', bench_round bench_addr ra rb ta tb w = Some (Ok (ta, tb), w') ∧ bench_ready tb w'.
Proof.
  intros [Hw Hs]. unfold bench_round.
  destruct (mock_connect_ok bench_addr ta tb [] w Hw Hs) as (ca & cb & w1 & Ec & Hw1 & Hs1 & Hl & _);
    [unfold LISTEN_CAPACITY; cbn; lia|].
  destruct (mock_accept_ok tb bench_addr cb [] w1 Hs1) as (w2 & Ea & Hs2 & Hf). apply Hf in Hl.
  assert (Hr : bench_ready tb w2) by (split; [by eapply mock_accept_world|done]).
  destruct (with_keypair_ok (kp_seed (kp_generate ra)) (kp_seed (kp_generate rb))) as (i & r & Ei & Er & H0).
  destruct (initiator_message _ _ 0 i r (bytes_of "Alice info") H0) as (m1 & i1 & r1 & W1 & R1 & H1);
    [by left|done|].
  destruct (responder_message _ _ i1 r1 (bytes_of "Bob info") H1) as (m2 & i2 & r2 & W2 & R2 & H2); [done|].
  destruct (initiator_message _ _ 2 i2 r2 (bytes_of "Alice finalize") H2) as (m3 & i3 & r3 & W3 & R3 & H3);
    [by right|done|].
  destruct (xx_is_finished _ _ _ _ H3) as [Fi Fr].
  destruct (bench_message_ok _ _ _ _ _ _ ca cb w2 Hl W1 R1) as (w3 & B1 & Hl3 & Q1).
  destruct (bench_message_ok _ _ _ _ _ _ cb ca w3 (mock_linked_sym _ _ _ _ _ Hl3) W2 R2)
    as (w4 & B2 & Hl4 & Q2).
  destruct (bench_message_ok _ _ _ _ _ _ ca cb w4 (mock_linked_sym _ _ _ _ _ Hl4) W3 R3)
    as (w5 & B3 & Hl5 & Q3).
  unfold as_initiator, as_responder in *.
  run_io. rewrite Ec, Ea. run. rewrite Ei, Er. run. rewrite B1. run. rewrite B2. run. rewrite B3. run.
  rewrite Fi, Fr. cbn. eexists. split; [done|].
  eapply bench_ready_quiet; [|done]. do 2 (etrans; [|apply drop_conn_quiet]). by do 2 (etrans; [done|]).
Qed.

Lemma bench_rounds_ok draws ta tb w :
  bench_ready tb w → ∃ w', bench_rounds bench_addr draws ta tb w = Some (Ok tt, w').
Proof.
  revert w. induction draws as [|[ra rb] draws IH]; intros w Hr; [by exists w|].
  destruct (bench_round_ok ra rb ta tb w Hr) as (w1 & E & Hr1). destruct (IH w1 Hr1) as (w2 & E2).
  exists w2. cbn [bench_rounds]. run_io. by rewrite E.
Qed.

(** Every round of the handshake benchmark ends with both sides finished, for any seeds and any
    number of rounds: the transports serve the next round as they served the last. *)
Lemma noise_benchmark_runs draws : benchmark_noise_handshake draws = Some (Ok tt).
Proof.
  unfold benchmark_noise_handshake, create_pair.
  destruct (mock_listen_fresh bench_addr world_new world_ok_new) as (t & w & E & Hw & Hs & _); [done|].
  destruct (bench_rounds_ok draws mock_new t w (conj Hw Hs)) as (w' & Er).
  run_io. rewrite E. run. by rewrite Er.
Qed.

Lemma exchange_initiator ka kr n i r :
  xx ka kr n i r → n = 0 ∨ n = 2 →
  ∃ i' r', exchange_message (as_initiator i) (as_responder r) = Ok (as_initiator i', as_responder r') ∧
    xx ka kr (S n) i' r'.
Proof.
  intros H Hn. destruct (initiator_message _ _ n i r [] H) as (m & i' & r' & W & R & H'); [done..|].
  exists i', r'. unfold exchange_message. rewrite W. run. rewrite R. by run.
Qed.

Lemma exchange_responder ka kr i r :
  xx ka kr 1 i r →
  ∃ i' r', exchange_message (as_responder r) (as_initiator i) = Ok (as_responder r', as_initiator i') ∧
    xx ka kr 2 i' r'.
Proof.
  intros H. destruct (responder_message _ _ i r [] H) as (m & i' & r' & W & R & H'); [done..|].
  exists i', r'. unfold exchange_message. rewrite W. run. rewrite R. by run.
Qed.

Lemma transfer_ok count payload a b :
  transports_in_step a b → (Z.of_nat (length payload) ≤ 65519)%Z → transfer count payload a b = Ok tt.
Proof.
  intros Hs Hl. revert a b Hs. induction count as [|count IH]; intros a b Hs; [done|].
  destruct (noise_message a b payload Hs Hl) as (ct & a' & b' & Ee & Ed & Hs').
  cbn [transfer]. rewrite Ee. run. rewrite Ed. run. unfold assert_eq. rewrite bool_decide_true by done.
  cbn [assert]. run. by apply IH.
Qed.

(** The bulk transfer decrypts every message to a payload of the length sent, for any keys and any
    number of messages: 60 KiB fit in one Noise message. *)
Lemma throughput_benchmark_runs count ra rb : benchmark_crypto_throughput count ra rb = Ok tt.
Proof.
  unfold benchmark_crypto_throughput.
  destruct (with_keypair_ok (kp_seed (kp_generate ra)) (kp_seed (kp_generate rb))) as (i & r & Ei & Er & H0).
  destruct (exchange_initiator _ _ 0 i r H0) as (i1 & r1 & X1 & H1); [by left|].
  destruct (exchange_responder _ _ i1 r1 H1) as (i2 & r2 & X2 & H2).
  destruct (exchange_initiator _ _ 2 i2 r2 H2) as (i3 & r3 & X3 & H3); [by right|].
  destruct (into_transport_ok _ _ _ _ H3) as (ti & tr & Ti & Tr & Hs & _).
  unfold as_initiator, as_responder in *.
  rewrite Ei. run. rewrite Er. run. rewrite X1. run. rewrite X2. run. rewrite X3. run.
  rewrite Ti. run. rewrite Tr. run. apply transfer_ok; [done|]. rewrite length_replicate.
  vm_compute. congruence.
Qed.

End handshakes_run.

(** ** Routes are found *)

(** The links of the graph carry metrics the benchmark makes. *)
Definition bench_made (g : RouteGraph) : Prop :=
  ∀ u v m, get_link g u v = Some m → ∃ k, k ∈ seq 0 5 ∧ m = bench_metrics k.

(** Every node is linked to its neighbours on the ring. *)
Definition bench_linked (peers : list PeerId) (g : RouteGraph) : Prop :=
  ∀ i o u v, i < node_count → o ∈ [1; 2; 5; 10] → peers !! i = Some u →
    peers !! ((i + o) mod node_count) = Some v → is_Some (get_link g u v).

Lemma bench_metrics_mod i : ∃ k, k ∈ seq 0 5 ∧ bench_metrics i = bench_metrics k.
Proof.
  exists (i mod 5). split.
  - apply elem_of_seq. pose proof (Nat.mod_upper_bound i 5). lia.
  - unfold bench_metrics. by rewrite Nat.Div0.mod_mod.
Qed.

Lemma bench_made_ok g : bench_made g → graph_ok g.
Proof.
  intros Hg u v m Hm. destruct (Hg u v m Hm) as (k & Hk & ->). clear Hm.
  revert k Hk. apply Forall_forall. repeat constructor; by apply cost_wf.
Qed.

Lemma bench_made_add g a b i : bench_made g → bench_made (add_link a b (bench_metrics i) g).
Proof.
  intros Hg u v m. rewrite get_add_link. case_decide; [|apply Hg]. intros [= <-]. apply bench_metrics_mod.
Qed.

Lemma linked_add g a b m u v :
  is_Some (get_link g u v) → is_Some (get_link (add_link a b m g) u v).
Proof. rewrite get_add_link. case_decide; [by eexists|done]. Qed.

Lemma bench_links_ok peers pairs g :
  length peers = node_count → Forall (λ p, p.1 < node_count) pairs → bench_made g →
  ∃ g', bench_links peers pairs g = Ok g' ∧ bench_made g' ∧
    (∀ u v, is_Some (get_link g u v) → is_Some (get_link g' u v)) ∧
    (∀ i o u v, (i, o) ∈ pairs → peers !! i = Some u → peers !! ((i + o) mod node_count) = Some v →
       is_Some (get_link g' u v)).
Proof.
  intros Hl Hp. revert g. induction Hp as [|[i o] pairs Hi _ IH]; intros g Hg.
  { exists g. split_and!; [done..|]. intros i o u v []%elem_of_nil. }
  cbn [bench_links fst] in *. unfold bench_link.
  destruct (lookup_lt_is_Some_2 peers i) as [u Hu]; [lia|].
  destruct (lookup_lt_is_Some_2 peers ((i + o) mod node_count)) as [v Hv].
  { rewrite Hl. by apply Nat.mod_upper_bound. }
  rewrite Hu. run. rewrite Hv. run.
  destruct (IH (add_link u v (bench_metrics i) g)) as (g' & E & Hg' & Hk & Hn); [by apply bench_made_add|].
  exists g'. split_and!; [done|done|intros; by apply Hk, linked_add|].
  intros i' o' u' v' [[= -> ->]|Hin]%elem_of_cons Hu' Hv'; [|by eapply Hn].
  simplify_eq. apply Hk. rewrite get_add_link, decide_True by done. by eexists.
Qed.

Lemma link_pairs_spec i o : (i, o) ∈ link_pairs ↔ i < node_count ∧ o ∈ [1; 2; 5; 10].
Proof.
  unfold link_pairs. rewrite list_elem_of_bind. setoid_rewrite list_elem_of_bind.
  setoid_rewrite elem_of_seq. split.
  - intros (i' & (o' & [= -> ->]%list_elem_of_ret & Ho) & Hi). split; [lia|done].
  - intros [Hi Ho]. exists i. split; [|lia]. exists o. split; [by apply list_elem_of_ret|done].
Qed.

Lemma bench_graph_ok peers :
  length peers = node_count →
  ∃ g, bench_graph peers = Ok g ∧ bench_made g ∧ bench_linked peers g.
Proof.
  intros Hl. destruct (bench_links_ok peers link_pairs graph_new Hl) as (g & E & Hg & _ & Hn).
  - apply Forall_forall. intros [i o] [Hi _]%link_pairs_spec. done.
  - intros u v m. unfold get_link, graph_new. cbn. by rewrite lookup_empty.
  - exists g. split_and!; [done..|]. intros i o u v Hi Ho. apply Hn. by apply link_pairs_spec.
Qed.

(** What a walk of [n] links may cost. *)
Fixpoint hop_costs (links : list f64) (n : nat) : list f64 :=
  match n with
  | O => [f64_zero]
  | S n => c ← hop_costs links n; f64_add c <$> links
  end.

Definition link_costs : list f64 := (λ k, cost (bench_metrics k)) <$> seq 0 5.

Lemma five_hops_below_max : Forall (λ c, f64_lt c f64_MAX = true) (hop_costs link_costs 5).
Proof.
  apply Forall_forall. intros c Hc. apply (forallb_forall (λ c, f64_lt c f64_MAX) (hop_costs link_costs 5));
    [by vm_compute|by apply list_elem_of_In].
Qed.

Lemma walk_by_tens g peers i u n :
  length peers = node_count → bench_made g →
  bench_linked peers g →
  i < node_count → peers !! i = Some u →
  ∃ v c p, peers !! ((i + 10 * n) mod node_count) = Some v ∧ c ∈ hop_costs link_costs n ∧ walk g u v c p.
Proof.
  intros Hl Hg Hn Hi Hu. induction n as [|n (v & c & p & Hv & Hc & Hw)].
  { exists u, f64_zero, [u]. rewrite Nat.add_0_r, Nat.mod_small by done.
    split_and!; [done|by apply list_elem_of_singleton|constructor]. }
  set (j := (i + 10 * n) mod node_count) in *.
  assert (Hj : j < node_count) by by apply Nat.mod_upper_bound.
  assert (Hnext : (i + 10 * S n) mod node_count = (j + 10) mod node_count).
  { unfold j. rewrite Nat.Div0.add_mod_idemp_l. f_equal. lia. }
  destruct (lookup_lt_is_Some_2 peers ((j + 10) mod node_count)) as [x Hx].
  { rewrite Hl. by apply Nat.mod_upper_bound. }
  destruct (Hn j 10 v x) as [m Hm]; [done|set_solver|done|done|].
  destruct (Hg _ _ _ Hm) as (k & Hk & Em).
  exists x, (f64_add c (cost m)), (p ++ [x]). rewrite Hnext. split_and!; [done| |by econstructor].
  cbn [hop_costs]. apply list_elem_of_bind. exists c. split; [|done].
  apply list_elem_of_fmap. exists (cost m). split; [done|]. subst m.
  by apply (list_elem_of_fmap_2 (λ k, cost (bench_metrics k))).
Qed.

Section routes_found.
Context `{HP : Heap, !HeapLaws HP, NO : NeighbourOrder, !NeighbourOrderLaws NO, D : Ed25519}.

Lemma bench_query_ok g peers i :
  length peers = node_count → bench_made g →
  bench_linked peers g →
  ∃ u v p c, peers !! (i mod node_count) = Some u ∧ peers !! ((i + 50) mod node_count) = Some v ∧
    bench_query g peers i = Ok (Some p) ∧ walk g u v c p ∧ ∀ c' p', walk g u v c' p' → f64_le c c' = true.
Proof.
  intros Hl Hg Hn. assert (Hi : i mod node_count < node_count) by by apply Nat.mod_upper_bound.
  destruct (lookup_lt_is_Some_2 peers (i mod node_count)) as [u Hu]; [lia|].
  destruct (walk_by_tens g peers (i mod node_count) u 5 Hl Hg Hn Hi Hu) as (v & c & p & Hv & Hc & Hw).
  rewrite Nat.Div0.add_mod_idemp_l in Hv. cbn [Nat.mul Nat.add] in Hv.
  unfold bench_query. rewrite Hu. run. rewrite Hv. run.
  destruct (find_shortest_path_total g u v (edge_count g + 2)) as (r & -> & Hok); [by apply bench_made_ok|done|].
  destruct r as [q|].
  - destruct Hok as (d & Hd & _ & _ & Hmin). by exists u, v, q, d.
  - specialize (Hok _ _ Hw). pose proof five_hops_below_max as Hm. rewrite Forall_forall in Hm.
    specialize (Hm _ Hc). congruence.
Qed.

(** The routing benchmark answers every query with a route, and a cheapest one, for any draw of the
    identities: 2000 answers, the [i]-th from peer [i mod 100] to peer [(i + 50) mod 100]. *)
Lemma routing_benchmark_finds (draws : vec (vec byte 32) node_count) :
  ∃ g answers, bench_graph (bench_peers draws) = Ok g ∧
    benchmark_routing_dijkstra draws = Ok answers ∧ length answers = Z.to_nat 2000 ∧
    ∀ i r, answers !! i = Some r →
      ∃ u v p c, bench_peers draws !! (i mod node_count) = Some u ∧
        bench_peers draws !! ((i + 50) mod node_count) = Some v ∧ r = Some p ∧ walk g u v c p ∧
        ∀ c' p', walk g u v c' p' → f64_le c c' = true.
Proof.
  set (peers := bench_peers draws).
  assert (Hl : length peers = node_count) by (unfold peers, bench_peers; by rewrite length_fmap, length_vec_to_list).
  destruct (bench_graph_ok peers Hl) as (g & Eg & Hg & Hn).
  assert (H : ∀ ids, ∃ answers, bench_queries g peers ids = Ok answers ∧ length answers = length ids ∧
    ∀ j i r, ids !! j = Some i → answers !! j = Some r → bench_query g peers i = Ok r).
  { induction ids as [|i ids (rs & E & Hlen & Hrs)]; [by exists []|].
    destruct (bench_query_ok g peers i Hl Hg Hn) as (u & v & p & c & _ & _ & Eq & _).
    exists (Some p :: rs). cbn [bench_queries]. rewrite Eq. run. rewrite E. run.
    split_and!; [done|cbn; lia|]. intros [|j] i' r; cbn; [congruence|apply Hrs]. }
  destruct (H (seq 0 (Z.to_nat 2000))) as (answers & Ea & Hlen & Hrs). rewrite length_seq in Hlen.
  exists g, answers. unfold benchmark_routing_dijkstra. fold peers. rewrite Eg. run.
  split_and!; [done..|]. intros i r Hr.
  specialize (Hrs i i r). rewrite lookup_seq_lt in Hrs by (rewrite <- Hlen; by eapply lookup_lt_Some).
  destruct (bench_query_ok g peers i Hl Hg Hn) as (u & v & p & c & Hu & Hv & Eq & Hw & Hmin).
  rewrite Hrs in Eq by done. simplify_eq. by exists u, v, p, c.
Qed.

End routes_found.

(** ** The suite *)

(** [main]: the first two stop it with their error; the third has none to report. *)
Definition bench_main `{SN : Snow, D : Ed25519, HP : Heap, NO : NeighbourOrder}
    (handshakes : vec (vec byte 32 * vec byte 32) 200) (keys : vec byte 32 * vec byte 32)
    (identities : vec (vec byte 32) node_count) : option (Result unit) :=
  r ← benchmark_noise_handshake (vec_to_list handshakes);
  match r with
  | Ok _ =>
      match benchmark_crypto_throughput (Z.to_nat 8000) keys.1 keys.2 with
      | Ok _ => Some (_ ← benchmark_routing_dijkstra identities; Ok tt)
      | r => Some r
      end
  | r => Some r
  end.

(** The benchmark suite runs to its end, whatever it draws at random: two hundred handshakes
    complete over one listener of the mock transport, 8000 messages of 60 KiB are decrypted to
    their length, and two thousand route queries return. *)
Theorem benchmarks_run `{SN : Snow, !SnowLaws SN, D : Ed25519, HP : Heap, !HeapLaws HP,
    NO : NeighbourOrder, !NeighbourOrderLaws NO} handshakes keys identities :
  bench_main handshakes keys identities = Some (Ok tt).
Proof.
  unfold bench_main. rewrite noise_benchmark_runs. cbn [mbind option_bind].
  rewrite throughput_benchmark_runs.
  destruct (routing_benchmark_finds identities) as (g & answers & _ & -> & _). done.
Qed.

Lemma benchmarks_run_witness :
  @bench_main toy_snow toy_ed25519 list_heap default_order
    (vreplicate 200 (vreplicate 32 Byte.x01, vreplicate 32 Byte.x02))
    (vreplicate 32 Byte.x03, vreplicate 32 Byte.x04) (vreplicate node_count (vreplicate 32 Byte.x05)) =
  Some (Ok tt).
Proof.
  exact (@benchmarks_run toy_snow toy_snow_laws toy_ed25519 list_heap list_heap_laws default_order
    default_order_laws _ _ _).
Defined.
